(* ===== verification/_CoqProject ===== *)
-Q . S2P
Prelude.v
Varint.v
Protocol.v
Wire.v
ControlFrames.v
DataFrames.v
AckFrame.v
FrameParser.v
HandleFrames.v
Header.v
ReceivedHistory.v
ReceivedPackets.v
RingBuffer.v
LinkedList.v
FrameSorter.v
Float.v
RTTStats.v
FlowControl.v
ECN.v
SentHistory.v
SentPackets.v
ReceivedRuns.v
SentSpec.v
SentSafety.v
Congestion.v
SentCongestion.v
SendStream.v
SendSystem.v
ReceiveStream.v
ReceiveSystem.v
Stream.v
Framer.v
StreamsMap.v
CryptoStreams.v
DatagramQueue.v
TransportParams.v
