(* ===== verification/Prelude.v ===== *)
(** * uQUIC: a verification development

    The program is a QUIC library in Go (src/, a fork of quic-go that can imitate the
    Initial packets of browsers).  This development translates parts of it into Rocq
    functions and proves them correct.

    ** The program and its models

    A datagram is cut into packets by their headers, the payload of a packet is a
    sequence of frames, and the connection hands every frame to the component in charge:
    ACK frames to the sent packet handler, STREAM and CRYPTO frames through flow control
    to the reassembly of streams, DATAGRAM frames to their queue.  The received packet
    handler decides when to send ACKs.  In the other direction the application writes to
    streams, the framer fills packets with the frames of the streams and with control
    frames, and the sent packet handler tracks the packets, reports their frames
    acknowledged or lost and drives the congestion controller.

    - Prelude: results of Go code ([Ok], [Err], [Panic]), machine integers, slices,
      reasoning about code that can fail ([wp]), and the automation.
    - Varint (quicvarint): variable-length integers.
    - Protocol (internal/protocol): packet numbers, stream IDs, versions, constants.
    - Wire, ControlFrames, DataFrames, AckFrame (internal/wire): one Module per frame type
      with its record, parser, [Append] and [Length].  The interface [Frame] of the code is
      a type class with the law that relates its two methods.
    - FrameParser (internal/wire/frame_parser.go): the dispatch on the frame type.
    - HandleFrames (connection.go, [handleFrames]): the loop over the frames of a packet;
      the handlers of single frames are an argument.
    - Header (internal/wire: header.go, extended_header.go, short_header.go,
      version_negotiation.go): packet headers.
    - ReceivedHistory, ReceivedPackets (internal/ackhandler/received_packet_*.go): which
      packets were received and when they are acknowledged.  ReceivedRuns: the sequences
      of calls that the connection makes; the sent packet handler is used through its
      interface, the type class [SentPacketTracker].
    - LinkedList (internal/utils/linkedlist): pointers in a heap; FrameSorter
      (frame_sorter.go): reassembly of streams, on the sequences that the lists represent.
    - Float: [float32] and [float64] by the Standard Library's specification of IEEE 754;
      RTTStats (internal/utils/rtt_stats.go): RTT statistics.
    - FlowControl (internal/flowcontrol): the controllers of a connection and its streams.
    - ECN (internal/ackhandler/ecn.go): validation of ECN on the path.
    - SentHistory, SentPackets (internal/ackhandler: packet_number_generator.go,
      sent_packet_history.go, sent_packet_handler.go): packet numbers, tracked packets,
      loss detection, probe timeouts, Retry and migration.  The congestion controller is
      the type class [SendAlgorithm], calls of frame handlers are collected in a log.
      SentSpec and SentSafety hold the proofs.
    - Congestion (internal/congestion): hybrid slow start, the pacer, Cubic and Reno.
      SentCongestion: the sender as an instance of [SendAlgorithm].
    - SendStream, ReceiveStream (send_stream.go, receive_stream.go): the halves of a
      stream, one function for every method; SendSystem and ReceiveSystem: a stream with
      its users, in any interleaving of their calls.  Stream (stream.go): both halves, and
      a stream from one end of the connection to the other.
    - RingBuffer (internal/utils/ringbuffer): a queue; Framer (framer.go): how packets are
      filled.  The streams are the type class [StreamSource].
    - StreamsMap (streams_map*.go): the streams that either side opened, and the calls that
      wait for them; one Module for each direction.
    - CryptoStreams (crypto_stream*.go, retransmission_queue.go): handshake data.
    - DatagramQueue (datagram_queue.go): the queues of datagrams.
    - TransportParams (internal/wire/transport_parameters.go): transport parameters.

    ** How the code is translated

    A method becomes a function from the old state to the new one, records and
    constructors have the names of the code.  Integers are [Z]; conversions and sums that
    can overflow are wrapped with [u8], ..., [i64].  Errors are values, and everything
    that panics in Go (an index or slice out of range, a nil dereference, an explicit
    [panic]) is [Panic], so that a theorem about safety says something about the code's
    bounds.  Times are in nanoseconds, 0 is Go's zero time.  Random numbers, and the bytes
    that a pooled buffer held before, are arguments.  Logging and tracing are left out.

    ** What the theorems show

    - Round trips: whatever the code serializes (integers, all frames, long and short
      headers, Retry and Version Negotiation) is parsed back to the same value.
    - Safety of the parsers on every input: no index out of range, termination, only
      frames that satisfy the invariants of their type; the loop over the frames of a
      packet handles exactly the frames of the payload.
    - ACKs: the history of received packets refines a set of numbers (of at most 32
      ranges); for a peer that confirms ACKs with later packet numbers, ACK frames are
      exact in every run, and an ack-eliciting packet is acknowledged within
      max_ack_delay.
    - Reassembly: frames in any order, with duplicates and overlaps, are reassembled
      unless they leave 1000 gaps, no input breaks the sorter, buffers are released once;
      the linked list refines a sequence.
    - Streams, for every interleaving of the calls of the application, the framer, the
      peer and the loss recovery: no panic, completion is reported once, the frames that
      are sent carry the data that was written, what is read is what was sent, a blocked
      call is woken, and a completed stream has been delivered.
    - Scheduling: packets respect their size, no control frame is lost, streams take
      turns.  Streams are opened and accepted in order and within the limits.
    - Handshake data arrives whatever is lost; datagrams keep their order; transport
      parameters are parsed back, unknown and invalid input is handled, and 0-RTT is
      accepted only with parameters that the client may rely on.
    - Flow control: what is received stays within the windows, what is sent within the
      limits of the peer, and each violation gives its error.
    - Statistics: the floating-point averages and thresholds are the intended integers;
      the congestion window stays within its bounds.
    - Sent packets, in every state that the connection can reach: no operation panics,
      bytes in flight are those of the tracked packets, every frame is settled exactly
      once, ACKs and the loss detection act on exactly the right packets, the
      amplification limit holds, and the timer is armed when something is outstanding.

    ** Bounds and fuel

    Loops over a buffer get its length as fuel, the binary search the length of the
    interval, the loops of the sorter the number of chunks or gaps.  The theorems about
    these functions show that the fuel suffices: running out of it is [Panic], which they
    exclude.  The exactness of the floating-point computations is stated for RTTs below
    two seconds ([float32]) and values below 2^49 ([float64]).  Hypotheses on callers are
    predicates named [allowed] and the like: packet numbers are used in the order in
    which they are generated, ACK frames come from the parser, times are positive.

    ** Not modelled

    - Connection IDs, path and MTU discovery, packet packing and unpacking, the key
      phases, the data of the client fingerprints and HTTP/3.
    - Cryptography and TLS (internal/handshake) are calls of other packages.
    - Sockets, goroutines, timers, logging, qlog and metrics are input and output.
    - Parts of modelled files: the String methods, logging, [PushBackList] and
      [PushFrontList] of the linked list (unused), and of connection.go everything but
      the loop over frames, the handling of received packets around it and the sizes of
      datagrams. *)

From Stdlib Require Export ZArith Lia Bool Strings.Byte.
From stdpp Require Export base tactics option list numbers strings gmap.

#[global] Open Scope Z_scope.

(** ** Results of Go code

    A Go function that can fail returns a value of [result]: [Ok] for a normal
    return, [Err] for a non-nil [error] (of the type given by the caller) and
    [Panic] for an explicit [panic] or a run-time panic (index or slice out of
    range, nil dereference). *)
Inductive result (E A : Type) : Type :=
| Ok (a : A)
| Err (e : E)
| Panic.
Arguments Ok {E A} _.
Arguments Err {E A} _.
Arguments Panic {E A}.

#[global] Instance result_ret {E} : MRet (result E) := λ A a, Ok a.
#[global] Instance result_bind {E} : MBind (result E) := λ A B f m,
  match m with Ok a => f a | Err e => Err e | Panic => Panic end.
#[global] Instance result_fmap {E} : FMap (result E) := λ A B f m,
  match m with Ok a => Ok (f a) | Err e => Err e | Panic => Panic end.

#[global] Instance result_eq_dec {E A} `{EqDecision E, EqDecision A} :
  EqDecision (result E A).
Proof. solve_decision. Defined.

(** [wp m Q]: running [m] does not panic, and if it returns normally the
    result satisfies [Q]. *)
Definition wp {E A} (m : result E A) (Q : A → Prop) : Prop :=
  match m with Ok a => Q a | Err _ => True | Panic => False end.

Definition no_panic {E A} (m : result E A) : Prop := m ≠ Panic.

Section wp_rules.
Context {E A B : Type}.
Implicit Types (m : result E A) (Q : A → Prop).

Lemma wp_ok (a : A) Q : Q a → wp (E:=E) (Ok a) Q.
Proof. done. Qed.

Lemma wp_err (e : E) Q : wp (Err e) Q.
Proof. done. Qed.

Lemma wp_bind m (f : A → result E B) (Q : B → Prop) :
  wp m (λ a, wp (f a) Q) → wp (m ≫= f) Q.
Proof. by destruct m. Qed.

Lemma wp_mono m Q (Q' : A → Prop) : wp m Q → (∀ a, Q a → Q' a) → wp m Q'.
Proof. destruct m; naive_solver. Qed.

Lemma wp_no_panic m Q : wp m Q → no_panic m.
Proof. by destruct m. Qed.

Lemma wp_ok_inv m Q a : wp m Q → m = Ok a → Q a.
Proof. by intros H ->. Qed.
End wp_rules.

(** [returns m Q]: [m] returns normally, with a result that satisfies [Q]. *)
Definition returns {E A} (m : result E A) (Q : A → Prop) : Prop :=
  match m with Ok a => Q a | Err _ => False | Panic => False end.

Section returns_rules.
Context {E A B : Type}.
Implicit Types (m : result E A) (Q : A → Prop).

Lemma returns_iff m Q : returns m Q ↔ ∃ a, m = Ok a ∧ Q a.
Proof. destruct m; naive_solver. Qed.

Lemma returns_bind m (f : A → result E B) (Q : B → Prop) :
  returns m (λ a, returns (f a) Q) → returns (m ≫= f) Q.
Proof. by destruct m. Qed.

Lemma returns_mono m Q (Q' : A → Prop) : returns m Q → (∀ a, Q a → Q' a) → returns m Q'.
Proof. destruct m; naive_solver. Qed.
End returns_rules.

(** ** Errors

    The error values of the packages modelled here.  An error built with
    [errors.New] or [fmt.Errorf] is [ErrorString] of its format string and the
    numbers printed into it. *)
Inductive error : Type :=
| io_EOF
| io_ErrUnexpectedEOF
| ErrInvalidConnectionIDLen
| ErrUnsupportedVersion
| ErrInvalidReservedBits
| errInvalidAckRanges
| errDuplicateStreamData
| errDeadline
| context_Canceled
| Err0RTTRejected
| StreamLimitReachedError
| DatagramTooLargeError (MaxDatagramPayloadSize : Z)
| StreamError (StreamID ErrorCode : Z) (Remote : bool)
| ErrorString (msg : string) (args : list Z)
| TransportError (ErrorCode FrameType : Z) (ErrorMessage : error).

#[global] Instance error_eq_dec : EqDecision error.
Proof.
  refine (fix go x y {struct x} : Decision (x = y) :=
    match x, y with
    | TransportError a b e, TransportError a' b' e' =>
        cast_if_and3 (decide (a = a')) (decide (b = b')) (go e e')
    | ErrorString m l, ErrorString m' l' =>
        cast_if_and (decide (m = m')) (decide (l = l'))
    | DatagramTooLargeError n, DatagramTooLargeError n' => cast_if (decide (n = n'))
    | StreamError a b c, StreamError a' b' c' =>
        cast_if_and3 (decide (a = a')) (decide (b = b')) (decide (c = c'))
    | io_EOF, io_EOF | io_ErrUnexpectedEOF, io_ErrUnexpectedEOF
    | ErrInvalidConnectionIDLen, ErrInvalidConnectionIDLen
    | ErrUnsupportedVersion, ErrUnsupportedVersion
    | ErrInvalidReservedBits, ErrInvalidReservedBits
    | errInvalidAckRanges, errInvalidAckRanges
    | errDuplicateStreamData, errDuplicateStreamData | errDeadline, errDeadline
    | context_Canceled, context_Canceled | Err0RTTRejected, Err0RTTRejected
    | StreamLimitReachedError, StreamLimitReachedError => left eq_refl
    | _, _ => right _
    end); abstract congruence.
Defined.

Abbreviation res := (result error).

(** [bind_inv H]: inversion of a sequence that returned normally. *)
Lemma bind_Ok {A B} (m : res A) (f : A → res B) b : (m ≫= f) = Ok b → ∃ a, m = Ok a ∧ f a = Ok b.
Proof. destruct m; try done. intros. by eexists. Qed.

Ltac bind_inv H := let a := fresh "a" in let Ha := fresh "Hm" in apply bind_Ok in H as (a&Ha&H).

(** [res_cases]: all the ways in which the hypotheses can have returned normally. *)
Ltac res_cases :=
  repeat first [ progress simplify_eq/=
               | match goal with
                 | H : ?m ≫= _ = Ok _ |- _ => apply bind_Ok in H as (? & ? & H)
                 end
               | case_match ].

(** ** Machine integers

    Go's conversions and wrap-around arithmetic on fixed-width integers. *)
Definition u8 (x : Z) : Z := x mod 2 ^ 8.
Definition u16 (x : Z) : Z := x mod 2 ^ 16.
Definition u32 (x : Z) : Z := x mod 2 ^ 32.
Definition u64 (x : Z) : Z := x mod 2 ^ 64.
Definition i64 (x : Z) : Z := (x + 2 ^ 63) mod 2 ^ 64 - 2 ^ 63.

Lemma u64_small x : 0 ≤ x < 2 ^ 64 → u64 x = x.
Proof. intros. by apply Z.mod_small. Qed.

Lemma u32_small x : 0 ≤ x < 2 ^ 32 → u32 x = x.
Proof. intros. by apply Z.mod_small. Qed.

Lemma u8_small x : 0 ≤ x < 2 ^ 8 → u8 x = x.
Proof. intros. by apply Z.mod_small. Qed.

Lemma i64_small x : - 2 ^ 63 ≤ x < 2 ^ 63 → i64 x = x.
Proof. intros. unfold i64. rewrite Z.mod_small; lia. Qed.

Lemma u8_range x : 0 ≤ u8 x < 256.
Proof. unfold u8. apply Z.mod_pos_bound. lia. Qed.

Lemma u64_range x : 0 ≤ u64 x < 2 ^ 64.
Proof. unfold u64. apply Z.mod_pos_bound. lia. Qed.

(** [t.Sub(u)] of times in nanoseconds: a saturating difference. *)
Definition time_Sub (t u : Z) : Z := Z.max (- 2 ^ 63) (Z.min (2 ^ 63 - 1) (t - u)).

(** Bit operations on values whose bits do not overlap. *)
Lemma lor_shiftl_small h t k :
  0 ≤ k → 0 ≤ t < 2 ^ k → Z.lor (Z.shiftl h k) t = h * 2 ^ k + t.
Proof.
  intros Hk Ht. rewrite <-Z.shiftl_mul_pow2 by done.
  symmetry. apply Z.add_nocarry_lor, Z.bits_inj'. intros n Hn.
  rewrite Z.land_spec, Z.bits_0, Z.shiftl_spec by done.
  destruct (decide (n < k)).
  - by rewrite Z.testbit_neg_r by lia.
  - assert (Z.testbit t n = false) as ->; [|by rewrite andb_comm].
    apply Z.testbit_false; [done|]. rewrite Z.div_small; [done|]. split; [lia|].
    apply Z.lt_le_trans with (2 ^ k); [lia|]. apply Z.pow_le_mono_r; lia.
Qed.

Lemma land_lnot_mask x k :
  0 ≤ k → Z.land x (Z.lnot (2 ^ k - 1)) = Z.shiftl (x / 2 ^ k) k.
Proof.
  intros Hk. rewrite <-Z.ldiff_land.
  replace (2 ^ k - 1) with (Z.ones k) by (rewrite Z.ones_equiv; lia).
  by rewrite Z.ldiff_ones_r, Z.shiftr_div_pow2.
Qed.

(** ** Bytes *)
#[global] Instance byte_eq_dec : EqDecision byte := Byte.byte_eq_dec.

(** The value of a byte, and Go's [uint8(x)]. *)
Definition b2z (b : byte) : Z := Z.of_N (Byte.to_N b).
Definition z2b (x : Z) : byte :=
  match Byte.of_N (Z.to_N (u8 x)) with Some b => b | None => x00 end.

Lemma b2z_range b : 0 ≤ b2z b < 256.
Proof. by destruct b; vm_compute. Qed.

Lemma z2b_b2z b : z2b (b2z b) = b.
Proof. by destruct b; vm_compute. Qed.

Lemma b2z_z2b x : b2z (z2b x) = u8 x.
Proof.
  unfold z2b. pose proof (u8_range x) as Hx.
  destruct (Byte.of_N (Z.to_N (u8 x))) as [b|] eqn:Hb.
  - unfold b2z. apply Byte.to_of_N in Hb. rewrite Hb. lia.
  - apply Byte.of_N_None_iff in Hb. lia.
Qed.

Lemma b2z_inj b c : b2z b = b2z c → b = c.
Proof. intros H. by rewrite <-(z2b_b2z b), H, z2b_b2z. Qed.

(** ** Slices

    [len] is Go's [len]; [idx b i] is [b[i]]; [slice_from b i] is [b[i:]],
    [slice_to b i] is [b[:i]].  An access outside the slice panics.  A slice
    has fewer than [2^63] elements, so that the conversions between [int],
    [int64] and [uint64] do not change a length, nor a number that the code has
    checked to be at most a length, and are left out there. *)
Section slices.
Context {E A : Type}.
Implicit Types (b : list A) (i : Z).

Definition len b : Z := Z.of_nat (length b).

Definition idx b i : result E A :=
  if 0 <=? i
  then match b !! Z.to_nat i with Some x => Ok x | None => Panic end
  else Panic.

Definition slice_from b i : result E (list A) :=
  if (0 <=? i) && (i <=? len b) then Ok (drop (Z.to_nat i) b) else Panic.

Definition slice_to b i : result E (list A) :=
  if (0 <=? i) && (i <=? len b) then Ok (take (Z.to_nat i) b) else Panic.
End slices.

(** [b[i:j]] *)
Definition slice {E A} (b : list A) (i j : Z) : result E (list A) :=
  b ← slice_to b j; slice_from b i.
Arguments slice {E A} b i j : simpl never.
Arguments len {A} b : simpl never.
Arguments idx {E A} b i : simpl never.
Arguments slice_from {E A} b i : simpl never.
Arguments slice_to {E A} b i : simpl never.

Section slice_lemmas.
Context {E A : Type}.
Implicit Types (a b c : list A) (i : Z).

Lemma len_nonneg b : 0 ≤ len b.
Proof. unfold len. lia. Qed.

Lemma len_nil : len (@nil A) = 0.
Proof. done. Qed.

Lemma len_cons (x : A) b : len (x :: b) = 1 + len b.
Proof. unfold len. simpl length. lia. Qed.

Lemma len_app a b : len (a ++ b) = len a + len b.
Proof. unfold len. rewrite length_app. lia. Qed.

Lemma len_0_nil b : len b = 0 → b = [].
Proof. unfold len. destruct b; simpl; [done|lia]. Qed.

Lemma len_pos b : b ≠ [] → 0 < len b.
Proof. unfold len. destruct b; simpl; [done|lia]. Qed.

Lemma len_ltb b : (0 <? len b) = false ↔ b = [].
Proof. rewrite Z.ltb_ge. split; [|by intros ->]. intros. apply len_0_nil. pose proof (len_nonneg b). lia. Qed.

Lemma len_eqb b : (len b =? 0) = true ↔ b = [].
Proof. rewrite Z.eqb_eq. split; [apply len_0_nil|by intros ->]. Qed.

Lemma len_take i b : 0 ≤ i ≤ len b → len (take (Z.to_nat i) b) = i.
Proof. unfold len. rewrite length_take. lia. Qed.

Lemma len_drop i b : 0 ≤ i ≤ len b → len (drop (Z.to_nat i) b) = len b - i.
Proof. unfold len. rewrite length_drop. lia. Qed.

Lemma len_fmap {B} (f : A → B) (l : list A) : len (f <$> l) = len l.
Proof. unfold len. by rewrite length_fmap. Qed.

Lemma len_replicate n (x : A) : len (replicate n x) = Z.of_nat n.
Proof. unfold len. by rewrite length_replicate. Qed.

Lemma take_len_app a b : take (Z.to_nat (len a)) (a ++ b) = a.
Proof. unfold len. rewrite Nat2Z.id. apply take_app_length. Qed.

Lemma drop_len_app a b : drop (Z.to_nat (len a)) (a ++ b) = b.
Proof. unfold len. rewrite Nat2Z.id. apply drop_app_length. Qed.

Lemma slice_from_ok b i : 0 ≤ i ≤ len b → slice_from (E:=E) b i = Ok (drop (Z.to_nat i) b).
Proof. intros. unfold slice_from. by rewrite !(proj2 (Z.leb_le _ _)) by lia. Qed.

Lemma slice_to_ok b i : 0 ≤ i ≤ len b → slice_to (E:=E) b i = Ok (take (Z.to_nat i) b).
Proof. intros. unfold slice_to. by rewrite !(proj2 (Z.leb_le _ _)) by lia. Qed.

Lemma slice_from_app a b i : i = len a → slice_from (E:=E) (a ++ b) i = Ok b.
Proof.
  intros ->. unfold slice_from. rewrite len_app, drop_len_app.
  pose proof (len_nonneg a). pose proof (len_nonneg b).
  by rewrite !(proj2 (Z.leb_le _ _)) by lia.
Qed.

Lemma slice_to_app a b i : i = len a → slice_to (E:=E) (a ++ b) i = Ok a.
Proof.
  intros ->. unfold slice_to. rewrite len_app, take_len_app.
  pose proof (len_nonneg a). pose proof (len_nonneg b).
  by rewrite !(proj2 (Z.leb_le _ _)) by lia.
Qed.

Lemma slice_to_all b i : i = len b → slice_to (E:=E) b i = Ok b.
Proof. intros ->. rewrite <-(app_nil_r b) at 1. by apply slice_to_app. Qed.

Lemma slice_from_cases (l : list A) i :
  (∃ l', slice_from (E:=E) l i = Ok l') ∨ slice_from (E:=E) l i = Panic.
Proof. unfold slice_from. case_match; eauto. Qed.

Lemma slice_from_all b i : i = len b → slice_from (E:=E) b i = Ok [].
Proof. intros ->. rewrite <-(app_nil_r b) at 1. by apply slice_from_app. Qed.

Lemma slice_from_0 b : slice_from (E:=E) b 0 = Ok b.
Proof. by apply (slice_from_app []). Qed.

Lemma slice_from_cons (x : A) b : slice_from (E:=E) (x :: b) 1 = Ok b.
Proof. by apply (slice_from_app [x] b). Qed.

Lemma idx_cons_0 (x : A) b : idx (E:=E) (x :: b) 0 = Ok x.
Proof. done. Qed.

Lemma idx_cons_1 (x y : A) b : idx (E:=E) (x :: y :: b) 1 = Ok y.
Proof. done. Qed.

Lemma idx_cons_2 (x y z : A) b : idx (E:=E) (x :: y :: z :: b) 2 = Ok z.
Proof. done. Qed.

Lemma wp_slice_from b i (Q : list A → Prop) :
  0 ≤ i ≤ len b →
  (∀ b', len b' = len b - i → b = take (Z.to_nat i) b ++ b' → Q b') →
  wp (slice_from (E:=E) b i) Q.
Proof.
  intros Hi HQ. unfold slice_from.
  rewrite !(proj2 (Z.leb_le _ _)) by lia. simpl. apply HQ.
  - by apply len_drop.
  - by rewrite take_drop.
Qed.

Lemma wp_slice_to b i (Q : list A → Prop) :
  0 ≤ i ≤ len b →
  (∀ b', len b' = i → b = b' ++ drop (Z.to_nat i) b → Q b') →
  wp (slice_to (E:=E) b i) Q.
Proof.
  intros Hi HQ. unfold slice_to.
  rewrite !(proj2 (Z.leb_le _ _)) by lia. simpl. apply HQ.
  - by apply len_take.
  - by rewrite take_drop.
Qed.

Lemma slice_middle a b c i j :
  i = len a → j = len a + len b → slice (E:=E) (a ++ b ++ c) i j = Ok b.
Proof.
  intros -> ->. unfold slice. rewrite app_assoc, slice_to_app by by rewrite len_app.
  simpl. by rewrite slice_from_app.
Qed.

Lemma wp_slice b i j (Q : list A → Prop) :
  0 ≤ i ≤ j → j ≤ len b →
  (∀ b', b' = take (Z.to_nat (j - i)) (drop (Z.to_nat i) b) → len b' = j - i → Q b') →
  wp (slice (E:=E) b i j) Q.
Proof.
  intros Hi Hj HQ. unfold slice, slice_to, slice_from.
  rewrite !(proj2 (Z.leb_le _ _)) by lia. simpl.
  rewrite len_take by lia. rewrite !(proj2 (Z.leb_le _ _)) by lia. simpl. apply HQ.
  - rewrite skipn_firstn_comm. f_equal. lia.
  - rewrite len_drop; rewrite len_take; lia.
Qed.

Lemma idx_middle a (x : A) b i : i = len a → idx (E:=E) (a ++ x :: b) i = Ok x.
Proof.
  intros ->. unfold idx, len. rewrite (proj2 (Z.leb_le _ _)) by lia.
  by rewrite Nat2Z.id, list_lookup_middle.
Qed.

Lemma idx_lookup b i x : idx (E:=E) b i = Ok x ↔ 0 ≤ i ∧ b !! Z.to_nat i = Some x.
Proof.
  unfold idx. destruct (Z.leb_spec 0 i).
  - destruct (b !! Z.to_nat i); naive_solver.
  - split; [done|]. lia.
Qed.

Lemma wp_idx b i (Q : A → Prop) :
  0 ≤ i < len b → (∀ x, b !! Z.to_nat i = Some x → Q x) →
  wp (idx (E:=E) b i) Q.
Proof.
  intros Hi HQ. unfold idx. rewrite (proj2 (Z.leb_le _ _)) by lia.
  destruct (lookup_lt_is_Some_2 b (Z.to_nat i)) as [x Hx]; [unfold len in *; lia|].
  rewrite Hx. simpl. auto.
Qed.
End slice_lemmas.

Lemma prefix_lookup {A} (l k : list A) :
  (∀ i c, l !! i = Some c → k !! i = Some c) → ∃ rest, k = l ++ rest.
Proof.
  intros H. exists (drop (length l) k). rewrite <-(take_drop (length l) k) at 1. f_equal.
  apply list_eq. intros i. destruct (l !! i) as [c|] eqn:Hc.
  - rewrite lookup_take_lt by (by eapply lookup_lt_Some). by apply H.
  - apply lookup_ge_None in Hc. by rewrite lookup_take_ge.
Qed.

(** [dmlia]: linear arithmetic with divisions and remainders by constants. *)
Ltac dmlia := Z.div_mod_to_equations; lia.

(** ** Big-endian integers ([encoding/binary.BigEndian]) *)
Fixpoint be_bytes (n : nat) (x : Z) : list byte :=
  match n with
  | O => []
  | S n => z2b (Z.shiftr x (8 * Z.of_nat n)) :: be_bytes n x
  end.

Definition be_value (l : list byte) : Z := foldl (λ a b, a * 256 + b2z b) 0 l.

Lemma length_be_bytes n x : length (be_bytes n x) = n.
Proof. induction n; simpl; congruence. Qed.

Lemma len_be_bytes n x : len (be_bytes n x) = Z.of_nat n.
Proof. unfold len. by rewrite length_be_bytes. Qed.

(** [be_bytes n] depends on the lowest [8 n] bits only. *)
Lemma be_bytes_mod n k x : 8 * Z.of_nat n ≤ k → be_bytes n (x mod 2 ^ k) = be_bytes n x.
Proof.
  intros Hk. induction n as [|n IH]; [done|]. cbn [be_bytes].
  rewrite IH by lia. f_equal. apply b2z_inj. rewrite !b2z_z2b. unfold u8.
  rewrite <-!Z.land_ones by lia. apply Z.bits_inj'. intros i Hi.
  rewrite !Z.land_spec, !Z.shiftr_spec, Z.land_spec by lia.
  destruct (decide (i < 8)).
  - rewrite (Z.ones_spec_low k) by lia. by rewrite andb_true_r.
  - rewrite (Z.ones_spec_high 8) by lia. by rewrite !andb_false_r.
Qed.

Lemma foldl_be_bytes n x a :
  foldl (λ a b, a * 256 + b2z b) a (be_bytes n x) =
  a * 256 ^ Z.of_nat n + x mod 256 ^ Z.of_nat n.
Proof.
  revert a. induction n as [|n IH]; intros a; cbn [be_bytes foldl].
  - change (Z.of_nat 0) with 0. rewrite Z.pow_0_r, Z.mod_1_r. lia.
  - rewrite IH, b2z_z2b. unfold u8.
    rewrite Z.shiftr_div_pow2, Z.pow_mul_r by lia.
    change (2 ^ 8) with 256. rewrite Nat2Z.inj_succ, Z.pow_succ_r by lia.
    assert (0 < 256 ^ Z.of_nat n) by (apply Z.pow_pos_nonneg; lia).
    rewrite (Z.mul_comm 256 (256 ^ _)), (Z.rem_mul_r x) by lia. lia.
Qed.

Lemma be_value_be_bytes n x : be_value (be_bytes n x) = x mod 256 ^ Z.of_nat n.
Proof. unfold be_value. rewrite foldl_be_bytes. lia. Qed.

Lemma be_value_app l b : be_value (l ++ [b]) = be_value l * 256 + b2z b.
Proof. unfold be_value. by rewrite foldl_app. Qed.

Lemma be_value_range l : 0 ≤ be_value l < 256 ^ len l.
Proof.
  induction l as [|b l IH] using rev_ind; [done|].
  rewrite be_value_app, len_app. change (len [b]) with 1.
  rewrite Z.pow_add_r by (pose proof (len_nonneg l); lia).
  pose proof (b2z_range b). lia.
Qed.

Lemma be_bytes_snoc n x : be_bytes (S n) x = be_bytes n (x / 256) ++ [z2b x].
Proof.
  induction n as [|n IH].
  - cbn [be_bytes app]. by rewrite Z.shiftr_0_r.
  - change (be_bytes (S (S n)) x) with (z2b (Z.shiftr x (8 * Z.of_nat (S n))) :: be_bytes (S n) x).
    rewrite IH. cbn [be_bytes app]. do 2 f_equal. change 256 with (2 ^ 8).
    rewrite <-Z.shiftr_div_pow2, Z.shiftr_shiftr by lia. f_equal. lia.
Qed.

Lemma be_bytes_be_value l : be_bytes (length l) (be_value l) = l.
Proof.
  induction l as [|b l IH] using rev_ind; [done|].
  rewrite length_app. cbn [length]. rewrite Nat.add_1_r, be_bytes_snoc, be_value_app.
  pose proof (b2z_range b).
  replace ((be_value l * 256 + b2z b) / 256) with (be_value l) by dmlia.
  rewrite IH. do 2 f_equal. apply b2z_inj. rewrite b2z_z2b. unfold u8. dmlia.
Qed.

(** ** Sums over maps *)
Section map_sum.
Context `{Countable K} {A : Type} (f : A → Z).
Implicit Types (m : gmap K A).

Definition map_sum m : Z := map_fold (λ _ x acc, f x + acc) 0 m.

Lemma map_sum_empty : map_sum ∅ = 0.
Proof. apply map_fold_empty. Qed.

Lemma map_sum_insert m k x : m !! k = None → map_sum (<[k := x]> m) = f x + map_sum m.
Proof. intros Hk. unfold map_sum. rewrite map_fold_insert_L; [done| |done]. intros. lia. Qed.

Lemma map_sum_delete m k x : m !! k = Some x → map_sum (delete k m) = map_sum m - f x.
Proof.
  intros Hk. rewrite <-(insert_delete_id m k x Hk) at 2.
  rewrite map_sum_insert by apply lookup_delete_eq. lia.
Qed.

Lemma map_sum_update m k x y : m !! k = Some x → map_sum (<[k := y]> m) = map_sum m - f x + f y.
Proof.
  intros Hk. rewrite <-insert_delete_eq, map_sum_insert by apply lookup_delete_eq.
  rewrite (map_sum_delete m k x) by done. lia.
Qed.
End map_sum.

Lemma map_sum_le `{Countable K} {A} (f g : A → Z) (m : gmap K A) :
  (∀ k x, m !! k = Some x → f x ≤ g x) → map_sum f m ≤ map_sum g m.
Proof.
  induction m as [|k x m Hk IH] using map_ind; intros Hf; [by rewrite !map_sum_empty|].
  rewrite !map_sum_insert by done. pose proof (Hf k x (lookup_insert_eq _ _ _)).
  enough (map_sum f m ≤ map_sum g m) by lia. apply IH. intros k' x' Hk'. apply (Hf k').
  rewrite lookup_insert_ne; [done|]. congruence.
Qed.

Lemma map_sum_le_elem `{Countable K} {A} (f g : A → Z) (m : gmap K A) k x :
  (∀ k x, m !! k = Some x → f x ≤ g x) → m !! k = Some x → g x - f x ≤ map_sum g m - map_sum f m.
Proof.
  intros Hf Hk. pose proof (map_sum_delete f m k x Hk). pose proof (map_sum_delete g m k x Hk).
  enough (map_sum f (delete k m) ≤ map_sum g (delete k m)) by lia. apply map_sum_le.
  intros k' x' [_ Hk']%lookup_delete_Some. eauto.
Qed.

(** ** Automation

    [zcase] splits on the first boolean comparison of integers that decides an
    [if] in the goal; [zcase in *] also looks at the hypotheses. *)
Ltac zcase_term t :=
  match t with
  | Z.ltb ?a ?b => destruct (Z.ltb_spec a b)
  | Z.leb ?a ?b => destruct (Z.leb_spec a b)
  | Z.eqb ?a ?b => destruct (Z.eqb_spec a b)
  | Z.gtb ?a ?b => rewrite (Z.gtb_ltb a b) in *; destruct (Z.ltb_spec b a)
  | Z.geb ?a ?b => rewrite (Z.geb_leb a b) in *; destruct (Z.leb_spec b a)
  | andb ?a ?b => first [zcase_term a | zcase_term b]
  | orb ?a ?b => first [zcase_term a | zcase_term b]
  | negb ?a => zcase_term a
  end.

Ltac zcase :=
  match goal with
  | |- context [if ?t then _ else _] => zcase_term t
  | |- context [andb ?a _] => zcase_term a
  | |- context [andb _ ?a] => zcase_term a
  end; try (exfalso; lia); cbn [andb orb negb] in *.

Ltac zcase_in H :=
  match type of H with
  | context [if ?t then _ else _] => zcase_term t
  end; try (exfalso; lia); cbn [andb orb negb] in *.

(** [len_lia]: linear arithmetic with the lengths of slices non-negative. *)
Ltac len_pose :=
  repeat match goal with
  | |- context [len ?l] => lazymatch goal with
      | _ : 0 ≤ len l |- _ => fail | _ => pose proof (len_nonneg l) end
  | _ : context [len ?l] |- _ => lazymatch goal with
      | _ : 0 ≤ len l |- _ => fail | _ => pose proof (len_nonneg l) end
  end.
Ltac len_lia := rewrite ?len_app, ?len_cons, ?len_nil in *; len_pose; lia.

(** [forallb_bounded]: case analysis on a small integer by computation. *)
Lemma forallb_bounded (P : Z → bool) (n x : Z) :
  forallb P (seqZ 0 n) = true → 0 ≤ x < n → P x = true.
Proof.
  intros H Hx. apply forallb_forall with (x:=x) in H; [done|].
  apply list_elem_of_In, elem_of_seqZ. lia.
Qed.

Create HintDb quic discriminated.
#[export] Hint Resolve len_nonneg b2z_range u8_range : quic.
Create Rewrite HintDb quic.
#[export] Hint Rewrite @len_app @len_cons @len_nil @len_replicate len_be_bytes : quic.
