(* ===== verification/Varint.v ===== *)
(** * Variable-length integers (quicvarint/varint.go)

    QUIC's variable-length integers: [Parse], [Read], [Append],
    [AppendWithLen] and [Len], with the encoder/decoder round trips, the
    agreement of the two decoders and the bounds on what they accept. *)

From S2P Require Import Prelude.

Definition maxVarInt1 : Z := 63.
Definition maxVarInt2 : Z := 16383.
Definition maxVarInt4 : Z := 1073741823.
Definition maxVarInt8 : Z := 4611686018427387903.

(** [1 << ((firstByte & 0xc0) >> 6)]: the length announced by the first byte. *)
Definition varint_first_len (firstByte : Z) : Z :=
  Z.shiftl 1 (Z.shiftr (Z.land firstByte 0xc0) 6).

(** [firstByte & (0xff - 0xc0)]: its value bits. *)
Definition varint_first_bits (firstByte : Z) : Z := Z.land firstByte (0xff - 0xc0).

Definition Parse (b : list byte) : res (Z * Z) :=
  if len b =? 0 then Err io_EOF else
  firstByte ← idx b 0;
  let l := varint_first_len (b2z firstByte) in
  if len b <? l then Err io_ErrUnexpectedEOF else
  let b0 := varint_first_bits (b2z firstByte) in
  if l =? 1 then Ok (b0, 1) else
  b1 ← idx b 1;
  if l =? 2 then Ok (u64 (b2z b1 + Z.shiftl b0 8), 2) else
  b2 ← idx b 2; b3 ← idx b 3;
  if l =? 4
  then Ok (u64 (b2z b3 + Z.shiftl (b2z b2) 8 + Z.shiftl (b2z b1) 16 + Z.shiftl b0 24), 4)
  else
  b4 ← idx b 4; b5 ← idx b 5; b6 ← idx b 6; b7 ← idx b 7;
  Ok (u64 (b2z b7 + Z.shiftl (b2z b6) 8 + Z.shiftl (b2z b5) 16 + Z.shiftl (b2z b4) 24
           + Z.shiftl (b2z b3) 32 + Z.shiftl (b2z b2) 40 + Z.shiftl (b2z b1) 48
           + Z.shiftl b0 56), 8).

(** An [io.ByteReader] over a byte string: the bytes not read yet. *)
Definition ReadByte (r : list byte) : res (byte * list byte) :=
  match r with [] => Err io_EOF | x :: r => Ok (x, r) end.

Definition Read (r : list byte) : res (Z * list byte) :=
  '(firstByte, r) ← ReadByte r;
  let l := varint_first_len (b2z firstByte) in
  let b1 := varint_first_bits (b2z firstByte) in
  if l =? 1 then Ok (b1, r) else
  '(b2, r) ← ReadByte r;
  if l =? 2 then Ok (u64 (b2z b2 + Z.shiftl b1 8), r) else
  '(b3, r) ← ReadByte r; '(b4, r) ← ReadByte r;
  if l =? 4
  then Ok (u64 (b2z b4 + Z.shiftl (b2z b3) 8 + Z.shiftl (b2z b2) 16 + Z.shiftl b1 24), r)
  else
  '(b5, r) ← ReadByte r; '(b6, r) ← ReadByte r; '(b7, r) ← ReadByte r; '(b8, r) ← ReadByte r;
  Ok (u64 (b2z b8 + Z.shiftl (b2z b7) 8 + Z.shiftl (b2z b6) 16 + Z.shiftl (b2z b5) 24
           + Z.shiftl (b2z b4) 32 + Z.shiftl (b2z b3) 40 + Z.shiftl (b2z b2) 48
           + Z.shiftl b1 56), r).

Definition Append (b : list byte) (i : Z) : res (list byte) :=
  let sh n := Z.shiftr i n in
  if i <=? maxVarInt1 then Ok (b ++ [z2b i]) else
  if i <=? maxVarInt2 then Ok (b ++ [z2b (Z.lor (u8 (sh 8)) 0x40); z2b i]) else
  if i <=? maxVarInt4
  then Ok (b ++ [z2b (Z.lor (u8 (sh 24)) 0x80); z2b (sh 16); z2b (sh 8); z2b i]) else
  if i <=? maxVarInt8
  then Ok (b ++ [z2b (Z.lor (u8 (sh 56)) 0xc0); z2b (sh 48); z2b (sh 40); z2b (sh 32);
                 z2b (sh 24); z2b (sh 16); z2b (sh 8); z2b i])
  else Panic.

Definition Len (i : Z) : res Z :=
  if i <=? maxVarInt1 then Ok 1 else
  if i <=? maxVarInt2 then Ok 2 else
  if i <=? maxVarInt4 then Ok 4 else
  if i <=? maxVarInt8 then Ok 8 else Panic.

Definition AppendWithLen (b : list byte) (i length : Z) : res (list byte) :=
  if negb (length =? 1) && negb (length =? 2) && negb (length =? 4) && negb (length =? 8)
  then Panic else
  l ← Len i;
  if l =? length then Append b i else
  if length <? l then Panic else
  let b := if length =? 2 then b ++ [z2b 0x40]
           else if length =? 4 then b ++ [z2b 0x80]
           else if length =? 8 then b ++ [z2b 0xc0] else b in
  (* for j := 1; j < length-l; j++ *)
  let b := b ++ replicate (Z.to_nat (length - l - 1)) (z2b 0) in
  (* for j := 0; j < l; j++ *)
  Ok (b ++ map (λ j, z2b (Z.shiftr i (8 * (l - 1 - Z.of_nat j)))) (seq 0 (Z.to_nat l))).

(** ** The encoding as a function

    [vlen i] and [venc i] are the length and the bytes of the encoding of a
    value that fits into 62 bits. *)
Definition vlen (i : Z) : Z :=
  if i <=? maxVarInt1 then 1 else if i <=? maxVarInt2 then 2
  else if i <=? maxVarInt4 then 4 else 8.

Definition is_varint (i : Z) : Prop := 0 ≤ i ≤ maxVarInt8.

Definition venc_prefix (n : Z) : Z :=
  if n =? 1 then 0 else if n =? 2 then 0x40 else if n =? 4 then 0x80 else 0xc0.

(** The encoding of [i] in [n] bytes: the big-endian bytes of [i], with the
    length prefix in the top two bits. *)
Definition venc_len (n i : Z) : list byte :=
  match be_bytes (Z.to_nat n) i with
  | b :: bs => z2b (Z.lor (venc_prefix n) (b2z b)) :: bs
  | [] => []
  end.

Definition venc (i : Z) : list byte := venc_len (vlen i) i.

(** ** The first byte *)
Lemma first_len_cases f :
  varint_first_len (b2z f) = 1 ∨ varint_first_len (b2z f) = 2 ∨
  varint_first_len (b2z f) = 4 ∨ varint_first_len (b2z f) = 8.
Proof. destruct f; vm_compute; tauto. Qed.

Lemma first_bits_range f : 0 ≤ varint_first_bits (b2z f) < 64.
Proof. by destruct f; vm_compute. Qed.

Definition first_byte_ok (n x : Z) : bool :=
  let f := b2z (z2b (Z.lor (venc_prefix n) x)) in
  (varint_first_len f =? n) && (varint_first_bits f =? x).

Lemma first_byte_prefix n x :
  n = 1 ∨ n = 2 ∨ n = 4 ∨ n = 8 → 0 ≤ x < 64 →
  varint_first_len (b2z (z2b (Z.lor (venc_prefix n) x))) = n ∧
  varint_first_bits (b2z (z2b (Z.lor (venc_prefix n) x))) = x.
Proof.
  intros Hn Hx. rewrite <-!Z.eqb_eq, <-andb_true_iff.
  change (first_byte_ok n x = true).
  destruct Hn as [->|[->|[->| ->]]]; apply (forallb_bounded _ 64); auto.
Qed.

(** ** Decoding

    [Parse] reads a big-endian integer whose length the first byte gives. *)
Lemma Parse_cons f r :
  varint_first_len (b2z f) - 1 ≤ len r →
  Parse (f :: r) =
    Ok (be_value (z2b (varint_first_bits (b2z f)) ::
                  take (Z.to_nat (varint_first_len (b2z f) - 1)) r),
        varint_first_len (b2z f)).
Proof.
  intros Hr. unfold Parse. pose proof (first_bits_range f) as Hb.
  rewrite len_cons. destruct (Z.eqb_spec (1 + len r) 0); [len_lia|].
  change (idx (f :: r) 0) with (Ok (E:=error) f). cbn [mbind result_bind].
  destruct (Z.ltb_spec (1 + len r) (varint_first_len (b2z f))); [lia|].
  set (b0 := varint_first_bits (b2z f)) in *.
  assert (Hz : b2z (z2b b0) = b0) by (rewrite b2z_z2b; apply u8_small; lia).
  destruct (first_len_cases f) as [Hl|[Hl|[Hl|Hl]]]; rewrite Hl in Hr |- *;
    repeat (destruct r as [|? r]; [exfalso; len_lia|rewrite len_cons in Hr]);
    simpl; unfold be_value; simpl; rewrite Hz; f_equal; f_equal;
    rewrite ?Z.shiftl_mul_pow2 by lia;
    repeat match goal with x : byte |- _ => lazymatch goal with
      | _ : 0 ≤ b2z x < 256 |- _ => fail | _ => pose proof (b2z_range x) end end;
    rewrite ?u64_small; lia.
Qed.

Lemma Parse_nil : Parse [] = Err io_EOF.
Proof. done. Qed.

Lemma Parse_short f r :
  len r < varint_first_len (b2z f) - 1 → Parse (f :: r) = Err io_ErrUnexpectedEOF.
Proof.
  intros Hr. unfold Parse. rewrite len_cons.
  destruct (Z.eqb_spec (1 + len r) 0); [len_lia|].
  change (idx (f :: r) 0) with (Ok (E:=error) f). cbn [mbind result_bind].
  by destruct (Z.ltb_spec (1 + len r) (varint_first_len (b2z f))); [|lia].
Qed.

Lemma be_value_cons b l : be_value (b :: l) = b2z b * 256 ^ len l + be_value l.
Proof.
  induction l as [|c l IH] using rev_ind; [unfold be_value; cbn; change (len []) with 0; lia|].
  rewrite app_comm_cons, !be_value_app, IH, len_app, Z.pow_add_r by len_lia.
  change (len [c]) with 1. lia.
Qed.

(** A successful [Parse] consumed a prefix of 1, 2, 4 or 8 bytes, and its value
    fits into the bits of that prefix. *)
Lemma Parse_ok b v l :
  Parse b = Ok (v, l) →
  is_varint v ∧ 0 < l ≤ len b ∧ vlen v ≤ l ∧ (l = 1 ∨ l = 2 ∨ l = 4 ∨ l = 8).
Proof.
  destruct b as [|f r]; [done|]. intros H.
  destruct (decide (varint_first_len (b2z f) - 1 ≤ len r)) as [Hr|Hr].
  2: { rewrite Parse_short in H by lia. done. }
  rewrite Parse_cons in H by done. injection H as Hv Hl.
  pose proof (first_bits_range f) as Hb.
  rewrite be_value_cons, b2z_z2b, u8_small in Hv by lia.
  set (t := take _ r) in Hv. pose proof (be_value_range t) as Ht.
  assert (Hlt : len t = l - 1).
  { unfold t. pose proof (first_len_cases f). rewrite len_take; lia. }
  rewrite Hlt in Hv, Ht. rewrite len_cons. unfold is_varint, vlen.
  destruct (first_len_cases f) as [E|[E|[E|E]]]; rewrite E in Hl; subst l;
    simpl in Hv, Ht; unfold maxVarInt1, maxVarInt2, maxVarInt4, maxVarInt8;
    repeat zcase; lia.
Qed.

Lemma Parse_no_panic b : no_panic (Parse b).
Proof.
  destruct b as [|f r]; [done|]. unfold no_panic.
  destruct (decide (varint_first_len (b2z f) - 1 ≤ len r)).
  - by rewrite Parse_cons.
  - by rewrite Parse_short by lia.
Qed.

Lemma wp_Parse b (Q : Z * Z → Prop) :
  (∀ v l, is_varint v → 0 < l ≤ len b → vlen v ≤ l → Q (v, l)) → wp (Parse b) Q.
Proof.
  intros HQ. pose proof (Parse_no_panic b) as Hp.
  destruct (Parse b) as [[v l]| |] eqn:E; [|done|done].
  apply Parse_ok in E as (?&?&?&?). by apply HQ.
Qed.

(** ** Encoding *)
Lemma vlen_cases i : vlen i = 1 ∨ vlen i = 2 ∨ vlen i = 4 ∨ vlen i = 8.
Proof. unfold vlen. repeat case_match; tauto. Qed.

Lemma vlen_pos i : 0 < vlen i ≤ 8.
Proof. destruct (vlen_cases i) as [|[|[|]]]; lia. Qed.

Lemma vlen_mono i j : i ≤ j → vlen i ≤ vlen j.
Proof. unfold vlen. intros. repeat zcase; lia. Qed.

Lemma vlen_1 i : i ≤ 63 → vlen i = 1.
Proof. unfold vlen, maxVarInt1. intros. by zcase. Qed.

Lemma vlen_2 i : 64 ≤ i ≤ 16383 → vlen i = 2.
Proof. unfold vlen, maxVarInt1, maxVarInt2. intros. by repeat zcase. Qed.

Lemma Len_vlen i : is_varint i → Len i = Ok (vlen i).
Proof. unfold is_varint, Len, vlen. intros. by repeat zcase. Qed.

Lemma len_venc_len n i : 0 ≤ n → len (venc_len n i) = n.
Proof.
  intros Hn. unfold venc_len. pose proof (len_be_bytes (Z.to_nat n) i) as H.
  destruct (be_bytes _ i); [|rewrite len_cons in *]; lia.
Qed.

Lemma len_venc i : len (venc i) = vlen i.
Proof. apply len_venc_len. pose proof (vlen_pos i). lia. Qed.

(** Decoding the [n]-byte encoding of a value that fits into [8 n - 2] bits. *)
Lemma Parse_venc_len n i rest :
  n = 1 ∨ n = 2 ∨ n = 4 ∨ n = 8 → is_varint i → vlen i ≤ n →
  Parse (venc_len n i ++ rest) = Ok (i, n).
Proof.
  intros Hn Hi Hl. pose proof (len_venc_len n i ltac:(lia)) as Hlen.
  pose proof (be_value_be_bytes (Z.to_nat n) i) as Hval.
  rewrite Z2Nat.id in Hval by lia.
  assert (Hi' : 0 ≤ i < 64 * 256 ^ (n - 1)).
  { unfold is_varint, vlen, maxVarInt1, maxVarInt2, maxVarInt4, maxVarInt8 in *.
    destruct Hn as [->|[->|[->| ->]]]; simpl; revert Hl; repeat zcase; lia. }
  assert (0 < 256 ^ (n - 1)) by (apply Z.pow_pos_nonneg; lia).
  assert (E : 256 ^ n = 256 * 256 ^ (n - 1)).
  { rewrite <-Z.pow_succ_r by lia. f_equal. lia. }
  rewrite Z.mod_small in Hval by lia.
  unfold venc_len in *. pose proof (len_be_bytes (Z.to_nat n) i) as Hl'.
  destruct (be_bytes (Z.to_nat n) i) as [|b bs]; [rewrite len_nil in Hl'; lia|].
  rewrite len_cons in Hlen, Hl'. rewrite be_value_cons in Hval.
  replace (len bs) with (n - 1) in Hval by lia.
  pose proof (be_value_range bs). pose proof (b2z_range b).
  assert (Hb : 0 ≤ b2z b < 64) by nia.
  destruct (first_byte_prefix n (b2z b) Hn Hb) as [Hn1 Hb1].
  rewrite <-app_comm_cons, Parse_cons by (rewrite Hn1, len_app; len_lia).
  rewrite Hn1, Hb1, z2b_b2z. replace (n - 1) with (len bs) by lia.
  rewrite take_len_app, be_value_cons. do 2 f_equal.
  replace (len bs) with (n - 1) by lia. done.
Qed.

Lemma Parse_venc i rest : is_varint i → Parse (venc i ++ rest) = Ok (i, vlen i).
Proof. intros. apply Parse_venc_len; auto using vlen_cases; lia. Qed.

(** The big-endian bytes of a number, spelled out as the code writes them. *)
Lemma be_bytes_1 i : be_bytes 1 i = [z2b i].
Proof. change (be_bytes 1 i) with [z2b (Z.shiftr i 0)]. by rewrite Z.shiftr_0_r. Qed.

Lemma be_bytes_2 i : be_bytes 2 i = [z2b (Z.shiftr i 8); z2b i].
Proof. rewrite <-(be_bytes_1 i). done. Qed.

Lemma be_bytes_4 i :
  be_bytes 4 i = [z2b (Z.shiftr i 24); z2b (Z.shiftr i 16); z2b (Z.shiftr i 8); z2b i].
Proof. rewrite <-(be_bytes_2 i). done. Qed.

Lemma be_bytes_8 i :
  be_bytes 8 i =
    [z2b (Z.shiftr i 56); z2b (Z.shiftr i 48); z2b (Z.shiftr i 40); z2b (Z.shiftr i 32);
     z2b (Z.shiftr i 24); z2b (Z.shiftr i 16); z2b (Z.shiftr i 8); z2b i].
Proof. rewrite <-(be_bytes_4 i). done. Qed.

(** [Append] writes exactly [venc], or panics above 2^62-1. *)
Lemma Append_venc b i : is_varint i → Append b i = Ok (b ++ venc i).
Proof.
  unfold is_varint, Append, venc, vlen. intros Hi.
  repeat zcase; unfold venc_len;
    [change (Z.to_nat 1) with 1%nat | change (Z.to_nat 2) with 2%nat
    | change (Z.to_nat 4) with 4%nat | change (Z.to_nat 8) with 8%nat];
    rewrite ?be_bytes_1, ?be_bytes_2, ?be_bytes_4, ?be_bytes_8, ?(Z.lor_comm (u8 _));
    rewrite ?b2z_z2b; try done.
  do 3 f_equal. apply b2z_inj. rewrite !b2z_z2b. change (venc_prefix 1) with 0.
  rewrite Z.lor_0_l. unfold u8. by rewrite Z.mod_mod.
Qed.

Lemma Append_panics b i : 0 ≤ i → Append b i = Panic ↔ maxVarInt8 < i.
Proof.
  intros Hi. split.
  - intros H. destruct (decide (i ≤ maxVarInt8)); [|lia].
    rewrite Append_venc in H by (split; lia). done.
  - intros. unfold Append, maxVarInt1, maxVarInt2, maxVarInt4, maxVarInt8 in *.
    by repeat zcase.
Qed.

Lemma be_bytes_zeros m n i :
  0 ≤ i < 256 ^ Z.of_nat n → be_bytes (m + n) i = replicate m (z2b 0) ++ be_bytes n i.
Proof.
  intros Hi. induction m as [|m IH]; [done|].
  cbn [be_bytes Nat.add replicate app]. f_equal; [|done].
  f_equal. rewrite Z.shiftr_div_pow2 by lia. apply Z.div_small. split; [lia|].
  replace (2 ^ (8 * Z.of_nat (m + n))) with (256 ^ Z.of_nat (m + n)).
  - apply Z.lt_le_trans with (256 ^ Z.of_nat n); [lia|]. apply Z.pow_le_mono_r; lia.
  - rewrite Z.pow_mul_r by lia. done.
Qed.

Lemma be_bytes_loop n i :
  map (λ j, z2b (Z.shiftr i (8 * (Z.of_nat n - 1 - Z.of_nat j)))) (seq 0 n) = be_bytes n i.
Proof.
  induction n as [|n IH]; [done|]. cbn [seq map be_bytes]. f_equal.
  - do 2 f_equal. lia.
  - rewrite <-IH, <-fmap_S_seq. setoid_rewrite <-list_fmap_compose.
    apply list_fmap_ext. intros ? j _. simpl. do 2 f_equal. lia.
Qed.

Lemma venc_len_pad n i :
  is_varint i → n = 2 ∨ n = 4 ∨ n = 8 → vlen i < n →
  venc_len n i =
    z2b (venc_prefix n) :: replicate (Z.to_nat (n - vlen i - 1)) (z2b 0)
      ++ be_bytes (Z.to_nat (vlen i)) i.
Proof.
  intros Hi Hn Hl. unfold venc_len.
  assert (Hb : 0 ≤ i < 256 ^ Z.of_nat (Z.to_nat (vlen i))).
  { unfold is_varint, vlen, maxVarInt1, maxVarInt2, maxVarInt4, maxVarInt8 in *.
    rewrite Z2Nat.id by (repeat case_match; lia); repeat zcase; lia. }
  replace (Z.to_nat n) with (S (Z.to_nat (n - vlen i - 1)) + Z.to_nat (vlen i))%nat
    by (pose proof (vlen_pos i); lia).
  rewrite (be_bytes_zeros _ _ _ Hb). cbn [replicate app]. do 2 f_equal.
  rewrite b2z_z2b. apply Z.lor_0_r.
Qed.

(** [AppendWithLen] writes the encoding of the requested length. *)
Lemma AppendWithLen_venc b i n :
  is_varint i → n = 1 ∨ n = 2 ∨ n = 4 ∨ n = 8 → vlen i ≤ n →
  AppendWithLen b i n = Ok (b ++ venc_len n i).
Proof.
  intros Hi Hn Hl. unfold AppendWithLen.
  rewrite Len_vlen by done. cbn [mbind result_bind].
  replace (negb (n =? 1) && negb (n =? 2) && negb (n =? 4) && negb (n =? 8)) with false
    by (destruct Hn as [->|[->|[->| ->]]]; done).
  destruct (Z.eqb_spec (vlen i) n) as [<-|Hne]; [by rewrite Append_venc|].
  destruct (Z.ltb_spec n (vlen i)); [lia|].
  pose proof (vlen_pos i).
  assert (Hn' : n = 2 ∨ n = 4 ∨ n = 8) by lia.
  rewrite (venc_len_pad n i) by (done || lia).
  rewrite <-(be_bytes_loop (Z.to_nat (vlen i)) i), Z2Nat.id by lia.
  destruct Hn' as [->|[->| ->]]; cbn [Z.eqb Pos.eqb]; rewrite <-!app_assoc; done.
Qed.

(** ** The two decoders agree *)
Lemma Read_Parse b v l :
  Parse b = Ok (v, l) → Read b = Ok (v, drop (Z.to_nat l) b).
Proof.
  destruct b as [|f r]; [done|]. intros H. pose proof (Parse_ok _ _ _ H) as (_&Hl&_).
  revert H. unfold Parse, Read. rewrite len_cons in *.
  destruct (Z.eqb_spec (1 + len r) 0); [len_lia|].
  change (idx (f :: r) 0) with (Ok (E:=error) f). cbn [mbind result_bind ReadByte].
  destruct (Z.ltb_spec (1 + len r) (varint_first_len (b2z f))) as [|Hr]; [done|].
  destruct (first_len_cases f) as [E|[E|[E|E]]]; rewrite E in Hr |- *;
    repeat (destruct r as [|? r]; [exfalso; len_lia|rewrite len_cons in *]);
    simpl; intros [= <- <-]; done.
Qed.

#[export] Hint Rewrite len_venc : quic.
#[export] Hint Resolve vlen_pos : quic.

(** ** Properties *)

(** The bytes that [Parse] consumed are the encoding of its result in that
    length. *)
Lemma Parse_venc_inv b v l : Parse b = Ok (v, l) → venc_len l v = take (Z.to_nat l) b.
Proof.
  destruct b as [|f r]; [done|]. intros H. pose proof (Parse_ok _ _ _ H) as (_&Hl&_).
  destruct (decide (varint_first_len (b2z f) - 1 ≤ len r)) as [Hr|Hr].
  2: { rewrite Parse_short in H by lia. done. }
  rewrite Parse_cons in H by done. injection H as <- <-.
  pose proof (first_len_cases f) as Hc. set (n := varint_first_len (b2z f)) in *.
  assert (Z.to_nat n = length (z2b (varint_first_bits (b2z f)) :: take (Z.to_nat (n - 1)) r))
    as Hlen by (cbn; rewrite length_take; unfold len in *; lia).
  unfold venc_len. rewrite Hlen, be_bytes_be_value, <-Hlen.
  replace (Z.to_nat n) with (S (Z.to_nat (n - 1))) by lia. cbn [take]. f_equal.
  unfold n. clear. by destruct f.
Qed.

(** Variable-length integers. A value of up to 62 bits is written in the
    number of bytes that [Len] announces, or, by [AppendWithLen], in any longer
    legal length; whatever follows, both decoders return the value and stop
    after the encoding. *)
Theorem varint_roundtrip i n b rest :
  0 ≤ i ≤ maxVarInt8 → n = 1 ∨ n = 2 ∨ n = 4 ∨ n = 8 →
  ∃ l e e', Len i = Ok l ∧ Append b i = Ok (b ++ e) ∧ len e = l ∧
    Parse (e ++ rest) = Ok (i, l) ∧ Read (e ++ rest) = Ok (i, rest) ∧
    (l ≤ n → AppendWithLen b i n = Ok (b ++ e') ∧ len e' = n ∧
      Parse (e' ++ rest) = Ok (i, n) ∧ Read (e' ++ rest) = Ok (i, rest)).
Proof.
  intros Hi Hn. exists (vlen i), (venc i), (venc_len n i).
  pose proof (Parse_venc i rest Hi) as HP.
  assert (len (venc_len n i) = n) by (apply len_venc_len; lia).
  split_and!; [by apply Len_vlen|by apply Append_venc|apply len_venc|done| |].
  - rewrite (Read_Parse _ _ _ HP), <-(len_venc i). unfold len.
    by rewrite Nat2Z.id, drop_app_length.
  - intros Hl. pose proof (Parse_venc_len n i rest Hn Hi Hl) as HP'.
    split_and!; [by apply AppendWithLen_venc|done..|].
    rewrite (Read_Parse _ _ _ HP').
    rewrite drop_app_length'; [done|unfold len in *; lia].
Qed.

Lemma varint_roundtrip_witness :
  ∃ l e e', Len 15293 = Ok l ∧ Append [xff] 15293 = Ok ([xff] ++ e) ∧ len e = l ∧
    Parse (e ++ [x2a]) = Ok (15293, l) ∧ Read (e ++ [x2a]) = Ok (15293, [x2a]) ∧
    (l ≤ 4 → AppendWithLen [xff] 15293 4 = Ok ([xff] ++ e') ∧ len e' = 4 ∧
      Parse (e' ++ [x2a]) = Ok (15293, 4) ∧ Read (e' ++ [x2a]) = Ok (15293, [x2a])).
Proof. apply (varint_roundtrip 15293 4 [xff] [x2a]); [done|auto]. Defined.

(** [Parse] is safe and lossless on every input: it does not index outside
    the buffer, it consumes at most the buffer, its value fits into 62 bits, and
    encoding the value again in the length it had reproduces the consumed bytes. *)
Theorem varint_parse_lossless b :
  match Parse b with
  | Ok (v, l) => 0 ≤ v ≤ maxVarInt8 ∧ 0 < l ≤ len b ∧
                 AppendWithLen [] v l = Ok (take (Z.to_nat l) b)
  | Err e => e = io_EOF ∨ e = io_ErrUnexpectedEOF
  | Panic => False
  end.
Proof.
  destruct (Parse b) as [[v l]|e|] eqn:H.
  - pose proof (Parse_ok _ _ _ H) as (?&?&?&?). split_and!; try apply H0; try lia.
    by rewrite AppendWithLen_venc, (Parse_venc_inv b v l).
  - destruct b as [|f r]; [rewrite Parse_nil in H; left; congruence|].
    destruct (decide (varint_first_len (b2z f) - 1 ≤ len r)).
    + rewrite Parse_cons in H; done.
    + rewrite Parse_short in H by lia. right. congruence.
  - by apply (Parse_no_panic b).
Qed.
