(* ===== verification/Protocol.v ===== *)
(** * Protocol constants and elementary types (internal/protocol)

    Packet numbers and their truncation, stream numbers and stream IDs,
    connection IDs, ECN codepoints, key phases, encryption levels,
    perspectives and version negotiation. *)

From S2P Require Import Prelude.

(** ** Constants (protocol.go, params.go) *)
Definition InvalidPacketNumber : Z := -1.
Definition InvalidByteCount : Z := -1.
Definition MaxByteCount : Z := 2 ^ 62 - 1.
Definition MaxPacketBufferSize : Z := 1452.
Definition MaxConnIDLen : Z := 20.
Definition maxConnectionIDLen : Z := 20.
Definition MinConnectionIDLenInitial : Z := 8.
Definition DefaultAckDelayExponent : Z := 3.
Definition AckDelayExponent : Z := 3.
Definition MinStreamFrameBufferSize : Z := 128.
Definition MinStreamFrameSize : Z := 128.
Definition MaxAckFrameSize : Z := 1000.
Definition MaxNumAckRanges : Z := 32.
Definition MaxStreamFrameSorterGaps : Z := 1000.
Definition MaxCryptoStreamOffset : Z := 16 * 2 ^ 10.
(** Durations are in nanoseconds, as in Go's [time.Duration]. *)
Definition Microsecond : Z := 1000.
Definition Millisecond : Z := 1000 * Microsecond.
Definition MaxAckDelay : Z := 25 * Millisecond.
Definition TimerGranularity : Z := Millisecond.

(** ** Perspective (perspective.go) *)
Inductive Perspective := PerspectiveServer | PerspectiveClient.
#[global] Instance Perspective_eq_dec : EqDecision Perspective.
Proof. solve_decision. Defined.

Definition Opposite (p : Perspective) : Perspective :=
  match p with PerspectiveServer => PerspectiveClient | PerspectiveClient => PerspectiveServer end.

(** ** Encryption levels (encryption_level.go) *)
Inductive EncryptionLevel :=
  EncryptionInitial | EncryptionHandshake | Encryption0RTT | Encryption1RTT.
#[global] Instance EncryptionLevel_eq_dec : EqDecision EncryptionLevel.
Proof. solve_decision. Defined.

(** ** Key phases (key_phase.go) *)
Inductive KeyPhaseBit := KeyPhaseUndefined | KeyPhaseZero | KeyPhaseOne.
#[global] Instance KeyPhaseBit_eq_dec : EqDecision KeyPhaseBit.
Proof. solve_decision. Defined.

Definition KeyPhase_Bit (p : Z) : KeyPhaseBit :=
  if p mod 2 =? 0 then KeyPhaseZero else KeyPhaseOne.

(** ** ECN codepoints (protocol.go) *)
Inductive ECN := ECNUnsupported | ECNNon | ECT1 | ECT0 | ECNCE.
#[global] Instance ECN_eq_dec : EqDecision ECN.
Proof. solve_decision. Defined.

Definition ParseECNHeaderBits (bits : Z) : res ECN :=
  if bits =? 0 then Ok ECNNon
  else if bits =? 2 then Ok ECT0
  else if bits =? 1 then Ok ECT1
  else if bits =? 3 then Ok ECNCE
  else Panic.

Definition ToHeaderBits (e : ECN) : res Z :=
  match e with
  | ECNNon => Ok 0 | ECT0 => Ok 2 | ECT1 => Ok 1 | ECNCE => Ok 3
  | ECNUnsupported => Panic
  end.

(** ** Packet numbers (packet_number.go) *)

(** [^mask] on an int64 is [Z.lnot]; the arithmetic is on int64. *)
Definition DecodePacketNumber (length largest truncated : Z) : Z :=
  let expected := i64 (largest + 1) in
  let win := i64 (Z.shiftl 1 (u8 (length * 8))) in
  let hwin := Z.quot win 2 in
  let mask := i64 (win - 1) in
  let candidate := Z.lor (Z.land expected (Z.lnot mask)) truncated in
  if (candidate <=? i64 (expected - hwin)) && (candidate <? i64 (2 ^ 62 - win))
  then i64 (candidate + win)
  else if (i64 (expected + hwin) <? candidate) && (win <=? candidate)
  then i64 (candidate - win)
  else candidate.

Definition PacketNumberLengthForHeader (pn largestAcked : Z) : Z :=
  let numUnacked :=
    if largestAcked =? InvalidPacketNumber then i64 (pn + 1) else i64 (pn - largestAcked) in
  if numUnacked <? Z.shiftl 1 (16 - 1) then 2
  else if numUnacked <? Z.shiftl 1 (24 - 1) then 3
  else 4.

(** ** Streams (stream.go) *)
Inductive StreamType := StreamTypeUni | StreamTypeBidi.
#[global] Instance StreamType_eq_dec : EqDecision StreamType.
Proof. solve_decision. Defined.

Definition InvalidStreamID : Z := -1.
Definition InvalidStreamNum : Z := -1.
Definition MaxStreamCount : Z := 2 ^ 60.

Definition StreamNum_StreamID (s : Z) (stype : StreamType) (pers : Perspective) : Z :=
  if s =? 0 then InvalidStreamID else
  let first :=
    match stype, pers with
    | StreamTypeBidi, PerspectiveClient => 0
    | StreamTypeBidi, PerspectiveServer => 1
    | StreamTypeUni, PerspectiveClient => 2
    | StreamTypeUni, PerspectiveServer => 3
    end in
  i64 (first + i64 (4 * i64 (s - 1))).

(** Go's [%] and [/] truncate towards zero. *)
Definition StreamID_InitiatedBy (s : Z) : Perspective :=
  if Z.rem s 2 =? 0 then PerspectiveClient else PerspectiveServer.

Definition StreamID_Type (s : Z) : StreamType :=
  if 2 <=? Z.rem s 4 then StreamTypeUni else StreamTypeBidi.

Definition StreamID_StreamNum (s : Z) : Z := i64 (Z.quot s 4 + 1).

(** ** Connection IDs (connection_id.go)

    The struct holds a 20-byte array of which the first [l] bytes are used;
    the rest is zero.  It is represented by the bytes in use. *)
Definition ConnectionID := list byte.
Definition ConnectionID_Len (c : ConnectionID) : Z := len c.

Definition ParseConnectionID (b : list byte) : res ConnectionID :=
  if maxConnectionIDLen <? len b then Panic else Ok b.

(** Reading a connection ID from an [io.Reader] that holds the bytes [r].
    [io.ReadFull] returns [EOF] when nothing could be read and
    [ErrUnexpectedEOF], translated to [EOF], on a partial read. *)
Definition ReadConnectionID (r : list byte) (l : Z) : res (ConnectionID * list byte) :=
  if l =? 0 then Ok ([], r)
  else if maxConnectionIDLen <? l then Err ErrInvalidConnectionIDLen
  else if len r <? l then Err io_EOF
  else Ok (take (Z.to_nat l) r, drop (Z.to_nat l) r).

(** The length chosen for the connection ID of an Initial packet, from the
    random byte [r0]. *)
Definition InitialConnectionIDLen (r0 : byte) : Z :=
  MinConnectionIDLenInitial
  + (b2z r0) mod (maxConnectionIDLen - MinConnectionIDLenInitial + 1).

(** ** Versions (version.go) *)
Definition Version1 : Z := 0x1.
Definition Version2 : Z := 0x6b3343cf.
Definition SupportedVersions : list Z := [Version1; Version2].

Fixpoint IsSupportedVersion (supported : list Z) (v : Z) : bool :=
  match supported with
  | [] => false
  | t :: supported => if t =? v then true else IsSupportedVersion supported v
  end.

Definition IsValidVersion (v : Z) : bool :=
  (v =? Version1) || IsSupportedVersion SupportedVersions v.

Fixpoint ChooseSupportedVersion_inner (ourVer : Z) (theirs : list Z) : option Z :=
  match theirs with
  | [] => None
  | theirVer :: theirs =>
      if ourVer =? theirVer then Some ourVer else ChooseSupportedVersion_inner ourVer theirs
  end.

Fixpoint ChooseSupportedVersion (ours theirs : list Z) : Z * bool :=
  match ours with
  | [] => (0, false)
  | ourVer :: ours =>
      match ChooseSupportedVersion_inner ourVer theirs with
      | Some v => (v, true)
      | None => ChooseSupportedVersion ours theirs
      end
  end.

(** [randomBits] is the big-endian value of the four random bytes. *)
Definition generateReservedVersion (randomBits : Z) : Z :=
  Z.land (Z.lor randomBits 0x0a0a0a0a) 0xfafafafa.

(** [randPos] is the value of [rand.Intn(len(supported) + 1)]. *)
Definition GetGreasedVersions (randPos : nat) (randomBits : Z) (supported : list Z) : list Z :=
  take randPos supported ++ generateReservedVersion randomBits :: drop randPos supported.

(** ** Packet numbers: truncation and reconstruction *)

Lemma pn_window_cases n :
  n = 1 ∨ n = 2 ∨ n = 3 ∨ n = 4 →
  i64 (Z.shiftl 1 (u8 (n * 8))) = 256 ^ n ∧ 256 ^ n = 2 ^ (8 * n) ∧
  256 ≤ 256 ^ n ≤ 2 ^ 32 ∧ Z.quot (256 ^ n) 2 = 256 ^ n / 2 ∧ 256 ^ n mod 2 = 0.
Proof. intros [->|[->|[->| ->]]]; vm_compute; intuition congruence. Qed.

(** The candidate of [DecodePacketNumber] is the number of the current window
    that has the truncated bits. *)
Lemma DecodePacketNumber_eq n largest t :
  n = 1 ∨ n = 2 ∨ n = 3 ∨ n = 4 → -1 ≤ largest < 2 ^ 62 → 0 ≤ t < 256 ^ n →
  DecodePacketNumber n largest t =
    (let w := 256 ^ n in let e := largest + 1 in let c := e / w * w + t in
     if (c <=? e - w / 2) && (c <? 2 ^ 62 - w) then c + w
     else if (e + w / 2 <? c) && (w <=? c) then c - w else c).
Proof.
  intros Hn Hl Ht. destruct (pn_window_cases n Hn) as (Hw&Hw2&Hr&Hq&_).
  unfold DecodePacketNumber. rewrite Hw, Hq.
  rewrite (i64_small (largest + 1)), (i64_small (256 ^ n - 1)) by lia.
  rewrite Hw2, land_lnot_mask, <-Hw2 by lia.
  rewrite lor_shiftl_small, <-Hw2 by lia.
  set (w := 256 ^ n) in *. cbv zeta.
  pose proof (Z.div_mod (largest + 1) w ltac:(lia)).
  pose proof (Z.mod_pos_bound (largest + 1) w ltac:(lia)).
  pose proof (Z.div_mod w 2 ltac:(lia)). pose proof (Z.mod_pos_bound w 2 ltac:(lia)).
  assert (0 ≤ (largest + 1) / w) by (apply Z.div_pos; lia).
  assert (0 ≤ (largest + 1) / w * w + t < largest + 1 + w) by nia.
  set (c := _ * w + t) in *. rewrite !i64_small by lia. done.
Qed.

Lemma window_close w a : 0 < w → -2 * w < w * a < 2 * w → -1 ≤ a ≤ 1.
Proof. nia. Qed.

(** Decoding recovers every packet number in the window around the expected
    one (RFC 9000, appendix A.3). *)
Lemma DecodePacketNumber_correct n largest pn :
  n = 1 ∨ n = 2 ∨ n = 3 ∨ n = 4 → -1 ≤ largest < 2 ^ 62 - 1 → 0 ≤ pn < 2 ^ 62 →
  largest + 1 - 256 ^ n / 2 < pn ≤ largest + 1 + 256 ^ n / 2 →
  DecodePacketNumber n largest (pn mod 256 ^ n) = pn.
Proof.
  intros Hn Hl Hpn Hwin. destruct (pn_window_cases n Hn) as (_&Hw2&Hr&_&Heven).
  pose proof (Z.mod_pos_bound pn (256 ^ n) ltac:(lia)) as Hm.
  rewrite DecodePacketNumber_eq by (done || lia). cbv zeta.
  set (w := 256 ^ n) in *. set (e := largest + 1) in *.
  pose proof (Z.div_mod pn w ltac:(lia)) as Hpd.
  pose proof (Z.div_mod e w ltac:(lia)) as Hed.
  pose proof (Z.mod_pos_bound e w ltac:(lia)) as Hem.
  pose proof (Z.div_mod w 2 ltac:(lia)) as Hwd.
  set (q := pn / w) in *. set (k := e / w) in *. set (h := w / 2) in *.
  set (t := pn mod w) in *. set (r := e mod w) in *.
  assert (Hq : q = k - 1 ∨ q = k ∨ q = k + 1).
  { pose proof (window_close w (q - k) ltac:(lia) ltac:(rewrite Z.mul_sub_distr_l; lia)).
    lia. }
  assert (Hq0 : 0 ≤ q) by (apply Z.div_pos; lia).
  assert (Hkw : 0 ≤ w * q) by (apply Z.mul_nonneg_nonneg; lia).
  clearbody q k h t r w e.
  rewrite (Z.mul_comm k w).
  destruct Hq as [-> | [-> | ->]];
    rewrite ?Z.mul_sub_distr_l, ?Z.mul_add_distr_l, ?Z.mul_1_r in *;
    set (kw := w * k) in *; repeat zcase; lia.
Qed.

Lemma PacketNumberLengthForHeader_cases pn la :
  PacketNumberLengthForHeader pn la = 2 ∨ PacketNumberLengthForHeader pn la = 3 ∨
  PacketNumberLengthForHeader pn la = 4.
Proof. unfold PacketNumberLengthForHeader. repeat case_match; tauto. Qed.

(** The chosen length leaves the unacknowledged distance in half a window. *)
Lemma PacketNumberLengthForHeader_window pn la :
  -1 ≤ la ≤ pn → 0 ≤ pn < 2 ^ 62 → pn - la < 2 ^ 31 →
  pn - la < 256 ^ (PacketNumberLengthForHeader pn la) / 2.
Proof.
  intros Hla Hpn Hd. unfold PacketNumberLengthForHeader, InvalidPacketNumber.
  destruct (Z.eqb_spec la (-1)); rewrite i64_small by lia;
    change (Z.shiftl 1 (16 - 1)) with 32768; change (Z.shiftl 1 (24 - 1)) with 8388608;
    repeat zcase;
    [change (256 ^ 2 / 2) with 32768|change (256 ^ 3 / 2) with 8388608|
     change (256 ^ 4 / 2) with 2147483648|change (256 ^ 2 / 2) with 32768|
     change (256 ^ 3 / 2) with 8388608|change (256 ^ 4 / 2) with 2147483648]; lia.
Qed.

(** A receiver that already has the packet whose acknowledgement the sender
    saw, and that is not more than 2^15 packets ahead, reconstructs the packet
    number from the bytes the sender chose to send. *)
Lemma DecodePacketNumber_length pn la largest :
  0 ≤ pn < 2 ^ 62 → -1 ≤ la ≤ pn → pn - la < 2 ^ 31 →
  la ≤ largest < 2 ^ 62 - 1 → largest < pn + 2 ^ 15 - 1 →
  let n := PacketNumberLengthForHeader pn la in
  DecodePacketNumber n largest (pn mod 256 ^ n) = pn.
Proof.
  intros Hpn Hla Hd Hlar Hr n.
  pose proof (PacketNumberLengthForHeader_window pn la Hla Hpn Hd) as Hw. fold n in Hw.
  assert (Hn : n = 2 ∨ n = 3 ∨ n = 4) by apply PacketNumberLengthForHeader_cases.
  apply DecodePacketNumber_correct; [lia..|].
  assert (2 ^ 15 ≤ 256 ^ n / 2) by (destruct Hn as [->|[->| ->]]; vm_compute; congruence).
  lia.
Qed.

(** ** Streams *)
Definition stream_first (ty : StreamType) (p : Perspective) : Z :=
  match ty, p with
  | StreamTypeBidi, PerspectiveClient => 0
  | StreamTypeBidi, PerspectiveServer => 1
  | StreamTypeUni, PerspectiveClient => 2
  | StreamTypeUni, PerspectiveServer => 3
  end.

Lemma StreamNum_StreamID_eq s ty p :
  1 ≤ s ≤ MaxStreamCount → StreamNum_StreamID s ty p = stream_first ty p + 4 * (s - 1).
Proof.
  unfold MaxStreamCount. intros Hs. unfold StreamNum_StreamID.
  destruct (Z.eqb_spec s 0); [lia|]. fold (stream_first ty p).
  assert (0 ≤ stream_first ty p ≤ 3) by (destruct ty, p; simpl; lia).
  rewrite (i64_small (s - 1)) by lia. rewrite (i64_small (4 * (s - 1))) by lia.
  by rewrite i64_small by lia.
Qed.

Lemma StreamID_parts id :
  0 ≤ id < 2 ^ 62 →
  id = stream_first (StreamID_Type id) (StreamID_InitiatedBy id)
       + 4 * (StreamID_StreamNum id - 1).
Proof.
  intros Hid. unfold StreamID_Type, StreamID_InitiatedBy, StreamID_StreamNum.
  rewrite Z.quot_div_nonneg, !Z.rem_mod_nonneg, i64_small by
    (try (pose proof (Z.div_mod id 4 ltac:(lia)); pose proof (Z.mod_pos_bound id 4)); lia).
  repeat zcase; cbn [stream_first]; dmlia.
Qed.

(** ** Versions *)
Lemma generateReservedVersion_reserved x :
  Z.land (generateReservedVersion x) 0x0f0f0f0f = 0x0a0a0a0a.
Proof.
  unfold generateReservedVersion. rewrite <-Z.land_assoc, Z.land_lor_distr_l.
  change (Z.land 0xfafafafa 0x0f0f0f0f) with 0x0a0a0a0a.
  rewrite Z.land_diag. apply Z.bits_inj'. intros n Hn.
  rewrite Z.lor_spec, Z.land_spec. destruct (Z.testbit x n), (Z.testbit 0x0a0a0a0a n); done.
Qed.

Lemma generateReservedVersion_range x : 0 ≤ generateReservedVersion x < 2 ^ 32.
Proof.
  unfold generateReservedVersion. set (y := Z.lor x _).
  assert (Z.land y 0xfafafafa = Z.land (Z.land y 0xfafafafa) (Z.ones 32)) as ->.
  { by rewrite <-Z.land_assoc. }
  rewrite Z.land_ones by lia. apply Z.mod_pos_bound. lia.
Qed.

(** A version that is reserved for greasing is never a supported one. *)
Lemma reserved_not_supported x : IsSupportedVersion SupportedVersions (generateReservedVersion x) = false.
Proof.
  pose proof (generateReservedVersion_reserved x) as H.
  cbn [IsSupportedVersion SupportedVersions].
  repeat case_match; try done; exfalso;
    match goal with E : (_ =? _) = true |- _ => apply Z.eqb_eq in E; rewrite <-E in H end;
    discriminate.
Qed.

Lemma ChooseSupportedVersion_inner_spec v theirs :
  ChooseSupportedVersion_inner v theirs = if bool_decide (v ∈ theirs) then Some v else None.
Proof.
  induction theirs as [|t theirs IH]; simpl; [done|].
  destruct (Z.eqb_spec v t) as [->|Hne].
  - rewrite bool_decide_true; [done|left].
  - rewrite IH. case_bool_decide as H.
    + by rewrite bool_decide_true by (right; done).
    + rewrite bool_decide_false; [done|]. by intros [->|?]%elem_of_cons.
Qed.

Lemma ChooseSupportedVersion_spec ours theirs v :
  ChooseSupportedVersion ours theirs = (v, true) ↔
  ∃ l1 l2, ours = l1 ++ v :: l2 ∧ v ∈ theirs ∧ ∀ u, u ∈ l1 → u ∉ theirs.
Proof.
  induction ours as [|o ours IH]; simpl.
  - split; [done|]. by intros ([|? ?]&?&?&_).
  - rewrite ChooseSupportedVersion_inner_spec. case_bool_decide as Ho.
    + split.
      * intros [= ->]. exists [], ours. set_solver.
      * intros ([|x l1]&l2&E&Hv&Hl); simplify_eq/=; [done|]. set_solver.
    + rewrite IH. split.
      * intros (l1&l2&->&Hv&Hl). exists (o :: l1), l2. set_solver.
      * intros ([|x l1]&l2&E&Hv&Hl); simplify_eq/=; [done|]. exists l1, l2. set_solver.
Qed.

Lemma IsSupportedVersion_elem vs v : IsSupportedVersion vs v = true ↔ v ∈ vs.
Proof.
  induction vs as [|u vs IH]; simpl; [by rewrite elem_of_nil|].
  rewrite elem_of_cons. zcase; [naive_solver|]. rewrite IH. naive_solver.
Qed.

(** Greasing changes nothing for the supported versions. *)
Lemma greased_supported u pos bits theirs :
  u ∈ SupportedVersions → u ∈ GetGreasedVersions pos bits theirs ↔ u ∈ theirs.
Proof.
  intros Hu. unfold GetGreasedVersions. rewrite <-(take_drop pos theirs) at 3.
  rewrite !elem_of_app, elem_of_cons. split; [|tauto]. intros [?|[->|?]]; [tauto| |tauto].
  apply IsSupportedVersion_elem in Hu. by rewrite reserved_not_supported in Hu.
Qed.

(** ** Properties *)

(** Stream IDs are in bijection with stream type, initiator and number: the
    three queries of a stream ID determine it, and the ID of the [s]-th stream
    of a type and initiator answers them with what it was made from. *)
Theorem stream_id_bijection id s ty p :
  0 ≤ id < 2 ^ 62 → 1 ≤ s ≤ MaxStreamCount →
  StreamNum_StreamID (StreamID_StreamNum id) (StreamID_Type id) (StreamID_InitiatedBy id) = id ∧
  let id' := StreamNum_StreamID s ty p in
  0 ≤ id' < 2 ^ 62 ∧ StreamID_StreamNum id' = s ∧ StreamID_Type id' = ty ∧
  StreamID_InitiatedBy id' = p.
Proof.
  intros Hid Hs. split.
  - rewrite StreamNum_StreamID_eq; [by rewrite <-StreamID_parts|].
    unfold StreamID_StreamNum, MaxStreamCount.
    rewrite Z.quot_div_nonneg, i64_small by dmlia. dmlia.
  - cbv zeta. rewrite StreamNum_StreamID_eq by done.
    unfold MaxStreamCount in Hs. unfold StreamID_StreamNum, StreamID_Type, StreamID_InitiatedBy.
    assert (0 ≤ stream_first ty p ≤ 3) by (destruct ty, p; simpl; lia).
    rewrite Z.quot_div_nonneg, !Z.rem_mod_nonneg by lia.
    rewrite i64_small by dmlia. split_and!; [lia..|dmlia| |];
      destruct ty, p; cbn [stream_first]; repeat zcase; try done; exfalso; dmlia.
Qed.

Lemma stream_id_bijection_witness :
  StreamNum_StreamID (StreamID_StreamNum 14) (StreamID_Type 14) (StreamID_InitiatedBy 14) = 14 ∧
  let id' := StreamNum_StreamID 7 StreamTypeUni PerspectiveServer in
  0 ≤ id' < 2 ^ 62 ∧ StreamID_StreamNum id' = 7 ∧ StreamID_Type id' = StreamTypeUni ∧
  StreamID_InitiatedBy id' = PerspectiveServer.
Proof. apply (stream_id_bijection 14 7 StreamTypeUni PerspectiveServer); done. Defined.

(** The version negotiation picks the first of our versions that the peer
    offers, fails exactly if there is none, and is not misled by the reserved
    versions that greasing inserts. *)
Theorem choose_version_correct ours theirs pos bits v :
  (ChooseSupportedVersion ours theirs = (v, true) ↔
    ∃ l1 l2, ours = l1 ++ v :: l2 ∧ v ∈ theirs ∧ ∀ u, u ∈ l1 → u ∉ theirs) ∧
  ((ChooseSupportedVersion ours theirs).2 = false ↔ ∀ u, u ∈ ours → u ∉ theirs) ∧
  ChooseSupportedVersion SupportedVersions (GetGreasedVersions pos bits theirs) =
    ChooseSupportedVersion SupportedVersions theirs.
Proof.
  split; [apply ChooseSupportedVersion_spec|]. split.
  - clear v. induction ours as [|o ours IH]; simpl; [set_solver|].
    rewrite ChooseSupportedVersion_inner_spec. case_bool_decide; [set_solver|].
    rewrite IH. set_solver.
  - cbn [ChooseSupportedVersion SupportedVersions].
    rewrite !ChooseSupportedVersion_inner_spec.
    assert (∀ u, u ∈ SupportedVersions →
      bool_decide (u ∈ GetGreasedVersions pos bits theirs) = bool_decide (u ∈ theirs)) as Hg
      by (intros u Hu; by apply bool_decide_ext, greased_supported).
    rewrite !Hg; [done|right; left|left].
Qed.
