(* ===== verification/Wire.v ===== *)
(** * Common parts of the wire format (internal/wire)

    The frame types, the [Frame] interface that every frame implements with
    the law that relates its two methods, and the reading and copying
    primitives the frame parsers share. *)

From S2P Require Import Prelude Varint Protocol.

(** ** Frame types (frame_parser.go) *)
Definition pingFrameType : Z := 0x1.
Definition ackFrameType : Z := 0x2.
Definition ackECNFrameType : Z := 0x3.
Definition resetStreamFrameType : Z := 0x4.
Definition stopSendingFrameType : Z := 0x5.
Definition cryptoFrameType : Z := 0x6.
Definition newTokenFrameType : Z := 0x7.
Definition maxDataFrameType : Z := 0x10.
Definition maxStreamDataFrameType : Z := 0x11.
Definition bidiMaxStreamsFrameType : Z := 0x12.
Definition uniMaxStreamsFrameType : Z := 0x13.
Definition dataBlockedFrameType : Z := 0x14.
Definition streamDataBlockedFrameType : Z := 0x15.
Definition bidiStreamBlockedFrameType : Z := 0x16.
Definition uniStreamBlockedFrameType : Z := 0x17.
Definition newConnectionIDFrameType : Z := 0x18.
Definition retireConnectionIDFrameType : Z := 0x19.
Definition pathChallengeFrameType : Z := 0x1a.
Definition pathResponseFrameType : Z := 0x1b.
Definition connectionCloseFrameType : Z := 0x1c.
Definition applicationCloseFrameType : Z := 0x1d.
Definition handshakeDoneFrameType : Z := 0x1e.

(** ** Reading *)
Definition replaceUnexpectedEOF (e : error) : error :=
  match e with io_ErrUnexpectedEOF => io_EOF | e => e end.

(** [v, l, err := quicvarint.Parse(b); if err != nil { return replaceUnexpectedEOF(err) }] *)
Definition ParseEOF (b : list byte) : res (Z * Z) :=
  match Parse b with
  | Ok r => Ok r
  | Err e => Err (replaceUnexpectedEOF e)
  | Panic => Panic
  end.

(** Go's [copy(dst, src)]: the new contents of [dst]. *)
Definition copy_into (dst src : list byte) : list byte :=
  take (length dst) src ++ drop (length src) dst.

(** [dst := make([]byte, n); copy(dst, src)] *)
Definition make_copy (n : Z) (src : list byte) : res (list byte) :=
  if n <? 0 then Panic else Ok (copy_into (replicate (Z.to_nat n) x00) src).

Arguments copy_into : simpl never.
Arguments make_copy : simpl never.

(** ** The frame interface (frame.go)

    [Frame] has the two methods of the Go interface.  [FrameLaws] states what
    the packet packer and the parser rely on: a valid frame is appended as the
    byte of its frame type and the body that the parser of this type reads, and
    [Length] is the number of bytes that [Append] adds. *)
Class Frame (F : Type) := {
  frame_append : list byte → F → res (list byte);
  frame_length : F → res Z;
}.

Definition encode (typ : Z) (body : list byte) : list byte := z2b typ :: body.

Class FrameLaws (F : Type) `{Frame F} := {
  frame_valid : F → Prop;
  frame_typ : F → Z;
  frame_body : F → list byte;
  frame_typ_range f : 0 < frame_typ f < 64;
  frame_append_valid b f :
    frame_valid f → frame_append b f = Ok (b ++ encode (frame_typ f) (frame_body f));
  frame_length_valid f :
    frame_valid f → frame_length f = Ok (len (encode (frame_typ f) (frame_body f)));
}.

Definition frame_bytes {F} `{FrameLaws F} (f : F) : list byte :=
  encode (frame_typ f) (frame_body f).

(** ** Lemmas for the parsers *)
Lemma u64_varint x : is_varint x → u64 x = x.
Proof. unfold is_varint, maxVarInt8. intros. apply u64_small. lia. Qed.

Lemma i64_varint x : is_varint x → i64 x = x.
Proof. unfold is_varint, maxVarInt8. intros. apply i64_small. lia. Qed.

Lemma ParseEOF_venc i rest : is_varint i → ParseEOF (venc i ++ rest) = Ok (i, vlen i).
Proof. intros. unfold ParseEOF. by rewrite Parse_venc. Qed.

Lemma wp_ParseEOF b (Q : Z * Z → Prop) :
  (∀ v l, is_varint v → 0 < l ≤ len b → vlen v ≤ l → Q (v, l)) → wp (ParseEOF b) Q.
Proof.
  intros HQ. pose proof (wp_Parse b Q HQ) as H. unfold ParseEOF.
  by destruct (Parse b).
Qed.

Lemma slice_from_venc i rest : slice_from (E:=error) (venc i ++ rest) (vlen i) = Ok rest.
Proof. apply slice_from_app. by rewrite len_venc. Qed.

Lemma copy_into_full dst src : len dst ≤ len src → copy_into dst src = take (length dst) src.
Proof.
  unfold len. intros H. unfold copy_into.
  rewrite (drop_ge dst) by lia. by rewrite app_nil_r.
Qed.

Lemma make_copy_prefix n src rest :
  n = len src → make_copy n (src ++ rest) = Ok src.
Proof.
  intros ->. unfold make_copy. zcase; [len_lia|].
  rewrite copy_into_full.
  - rewrite length_replicate. by rewrite take_len_app.
  - rewrite len_replicate. len_lia.
Qed.

Lemma make_copy_all n src : n = len src → make_copy n src = Ok src.
Proof. intros. rewrite <-(app_nil_r src) at 1. by apply make_copy_prefix. Qed.

Lemma wp_make_copy n src (Q : list byte → Prop) :
  0 ≤ n ≤ len src → (∀ d, d = take (Z.to_nat n) src → len d = n → Q d) →
  wp (make_copy n src) Q.
Proof.
  intros Hn HQ. unfold make_copy. zcase. simpl. apply HQ.
  - rewrite copy_into_full; rewrite ?len_replicate, ?length_replicate; [done|lia].
  - rewrite copy_into_full; rewrite ?len_replicate, ?length_replicate; [|lia].
    by apply len_take.
Qed.

(** A frame type below 64 is a single byte. *)
Lemma venc_small i : 0 ≤ i < 64 → venc i = [z2b i].
Proof.
  intros Hi. unfold venc, vlen, maxVarInt1. zcase. unfold venc_len.
  change (Z.to_nat 1) with 1%nat. rewrite be_bytes_1. change (venc_prefix 1) with 0.
  rewrite Z.lor_0_l. by rewrite z2b_b2z.
Qed.

(** ** Automation

    [wstep] runs one monadic step of a frame's [Append], [Length] or parser on
    an encoding; [wrun] runs all of them. [wpstep] applies the [wp] rules. *)
Ltac wside := first [assumption | done | unfold is_varint, maxVarInt8 in *; len_lia].

Ltac wstep :=
  first
    [ rewrite Append_venc by wside
    | rewrite Len_vlen by wside
    | rewrite ParseEOF_venc by wside
    | rewrite slice_from_venc
    | rewrite u64_varint by wside
    | rewrite i64_varint by wside
    | progress cbn [mbind result_bind mret result_ret] ].
Ltac wrun := repeat wstep.

Ltac wpstep :=
  lazymatch goal with
  | |- wp (_ ≫= _) _ => apply wp_bind
  | |- wp (ParseEOF _) _ => apply wp_ParseEOF; intros ? ? ? ? ?
  | |- wp (slice_from _ _) _ => apply wp_slice_from; [wside|intros ? ? ?]
  | |- wp (Ok _) _ => apply wp_ok
  | |- wp (Err _) _ => apply wp_err
  | |- wp (if _ then _ else _) _ => zcase
  | |- _ => progress cbn beta iota zeta
  end.
Ltac wprun := repeat wpstep.

(** [solve_typ]: a frame type is a small number. *)
Ltac solve_typ := intros []; cbv; repeat case_match; done.
