(* ===== verification/ControlFrames.v ===== *)
(** * Control frames (internal/wire)

    One module per frame of the wire package that carries no stream data:
    its record, its parser, its [Append] and [Length] methods, the encoding
    they share, and three lemmas: [Append] and [Length] agree with the
    encoding (the [FrameLaws] instance), the parser inverts the encoding, and
    the parser is safe on every input and returns valid frames only. *)

From S2P Require Import Prelude Varint Protocol Wire.

(** Closes the round-trip goals: run the monadic code on the encoding, then
    compare the numbers of bytes consumed. *)
Ltac solve_append :=
  intros; wrun; rewrite <-?app_assoc; try done.
Ltac solve_length :=
  intros; wrun; f_equal; autorewrite with quic; lia.
Ltac solve_parse :=
  intros; rewrite <-?app_assoc; wrun; do 2 f_equal; autorewrite with quic; lia.
Ltac solve_wp := wprun; try (split; [done|lia]).

Module PingFrame.
Record t := mk {}.

Definition Append (b : list byte) (_ : t) : res (list byte) := Ok (b ++ [z2b pingFrameType]).

Definition Length (_ : t) : res Z := Ok 1.

#[global] Instance ping_frame : Frame t :=
  {| frame_append := Append; frame_length := Length |}.
#[global, refine] Instance ping_laws : FrameLaws t :=
  {| frame_valid _ := True; frame_typ _ := pingFrameType; frame_body _ := [] |}.
Proof. all: done. Defined.
End PingFrame.

Module HandshakeDoneFrame.
Record t := mk {}.

Definition Append (b : list byte) (_ : t) : res (list byte) :=
  Ok (b ++ [z2b handshakeDoneFrameType]).

Definition Length (_ : t) : res Z := Ok 1.

#[global] Instance handshake_done_frame : Frame t :=
  {| frame_append := Append; frame_length := Length |}.
#[global, refine] Instance handshake_done_laws : FrameLaws t :=
  {| frame_valid _ := True; frame_typ _ := handshakeDoneFrameType; frame_body _ := [] |}.
Proof. all: done. Defined.
End HandshakeDoneFrame.

Module ResetStreamFrame.
Record t := mk { StreamID : Z; ErrorCode : Z; FinalSize : Z }.

Definition parseResetStreamFrame (b : list byte) : res (t * Z) :=
  let startLen := len b in
  '(sid, l) ← ParseEOF b;
  b ← slice_from b l;
  let streamID := i64 sid in
  '(errorCode, l) ← ParseEOF b;
  b ← slice_from b l;
  '(bo, l) ← ParseEOF b;
  let byteOffset := i64 bo in
  Ok (mk streamID errorCode byteOffset, startLen - len b + l).

Definition Append (b : list byte) (f : t) : res (list byte) :=
  let b := b ++ [z2b resetStreamFrameType] in
  b ← Varint.Append b (u64 (StreamID f));
  b ← Varint.Append b (u64 (ErrorCode f));
  Varint.Append b (u64 (FinalSize f)).

Definition Length (f : t) : res Z :=
  l1 ← Len (u64 (StreamID f));
  l2 ← Len (u64 (ErrorCode f));
  l3 ← Len (u64 (FinalSize f));
  Ok (1 + (l1 + l2 + l3)).

Definition valid (f : t) : Prop :=
  is_varint (StreamID f) ∧ is_varint (ErrorCode f) ∧ is_varint (FinalSize f).
Definition body (f : t) : list byte :=
  venc (StreamID f) ++ venc (ErrorCode f) ++ venc (FinalSize f).

Lemma reset_stream_parse_body f rest :
  valid f → parseResetStreamFrame (body f ++ rest) = Ok (f, len (body f)).
Proof.
  destruct f. unfold parseResetStreamFrame, body. simpl. intros (?&?&?). simpl in *.
  solve_parse.
Qed.

Lemma reset_stream_wp_parse b :
  wp (parseResetStreamFrame b) (λ '(f, l), valid f ∧ 0 < l ≤ len b).
Proof.
  unfold parseResetStreamFrame. solve_wp. wrun. unfold valid. simpl. split; [done|lia].
Qed.

#[global] Instance reset_stream_frame : Frame t :=
  {| frame_append := Append; frame_length := Length |}.
#[global, refine] Instance reset_stream_laws : FrameLaws t :=
  {| frame_valid := valid; frame_typ _ := resetStreamFrameType; frame_body := body |}.
Proof.
  - solve_typ.
  - intros b [] (?&?&?). simpl in *. unfold Append, encode, body. simpl. solve_append.
  - intros [] (?&?&?). simpl in *. unfold Length, encode, body. simpl. solve_length.
Defined.
End ResetStreamFrame.

Module StopSendingFrame.
Record t := mk { StreamID : Z; ErrorCode : Z }.

Definition parseStopSendingFrame (b : list byte) : res (t * Z) :=
  let startLen := len b in
  '(streamID, l) ← ParseEOF b;
  b ← slice_from b l;
  '(errorCode, l) ← ParseEOF b;
  b ← slice_from b l;
  Ok (mk (i64 streamID) errorCode, startLen - len b).

Definition Length (f : t) : res Z :=
  l1 ← Len (u64 (StreamID f));
  l2 ← Len (u64 (ErrorCode f));
  Ok (1 + (l1 + l2)).

Definition Append (b : list byte) (f : t) : res (list byte) :=
  let b := b ++ [z2b stopSendingFrameType] in
  b ← Varint.Append b (u64 (StreamID f));
  Varint.Append b (u64 (ErrorCode f)).

Definition valid (f : t) : Prop := is_varint (StreamID f) ∧ is_varint (ErrorCode f).
Definition body (f : t) : list byte := venc (StreamID f) ++ venc (ErrorCode f).

Lemma stop_sending_parse_body f rest :
  valid f → parseStopSendingFrame (body f ++ rest) = Ok (f, len (body f)).
Proof.
  destruct f. unfold parseStopSendingFrame, body. simpl. intros (?&?). simpl in *. solve_parse.
Qed.

Lemma stop_sending_wp_parse b :
  wp (parseStopSendingFrame b) (λ '(f, l), valid f ∧ 0 < l ≤ len b).
Proof.
  unfold parseStopSendingFrame. solve_wp. wrun. unfold valid. simpl. split; [done|lia].
Qed.

#[global] Instance stop_sending_frame : Frame t :=
  {| frame_append := Append; frame_length := Length |}.
#[global, refine] Instance stop_sending_laws : FrameLaws t :=
  {| frame_valid := valid; frame_typ _ := stopSendingFrameType; frame_body := body |}.
Proof.
  - solve_typ.
  - intros b [] (?&?). simpl in *. unfold Append, encode, body. simpl. solve_append.
  - intros [] (?&?). simpl in *. unfold Length, encode, body. simpl. solve_length.
Defined.
End StopSendingFrame.

Module MaxDataFrame.
Record t := mk { MaximumData : Z }.

Definition parseMaxDataFrame (b : list byte) : res (t * Z) :=
  '(byteOffset, l) ← ParseEOF b;
  Ok (mk (i64 byteOffset), l).

Definition Append (b : list byte) (f : t) : res (list byte) :=
  let b := b ++ [z2b maxDataFrameType] in
  Varint.Append b (u64 (MaximumData f)).

Definition Length (f : t) : res Z :=
  l ← Len (u64 (MaximumData f));
  Ok (1 + l).

Definition valid (f : t) : Prop := is_varint (MaximumData f).
Definition body (f : t) : list byte := venc (MaximumData f).

Lemma max_data_parse_body f rest :
  valid f → parseMaxDataFrame (body f ++ rest) = Ok (f, len (body f)).
Proof. destruct f. unfold valid, parseMaxDataFrame, body. simpl. solve_parse. Qed.

Lemma max_data_wp_parse b : wp (parseMaxDataFrame b) (λ '(f, l), valid f ∧ 0 < l ≤ len b).
Proof. unfold parseMaxDataFrame. solve_wp. wrun. done. Qed.

#[global] Instance max_data_frame : Frame t :=
  {| frame_append := Append; frame_length := Length |}.
#[global, refine] Instance max_data_laws : FrameLaws t :=
  {| frame_valid := valid; frame_typ _ := maxDataFrameType; frame_body := body |}.
Proof.
  - solve_typ.
  - intros b [] ?. simpl in *. unfold valid, Append, encode, body in *. simpl in *. solve_append.
  - intros [] ?. simpl in *. unfold valid, Length, encode, body in *. simpl in *. solve_length.
Defined.
End MaxDataFrame.

Module MaxStreamDataFrame.
Record t := mk { StreamID : Z; MaximumStreamData : Z }.

Definition parseMaxStreamDataFrame (b : list byte) : res (t * Z) :=
  let startLen := len b in
  '(sid, l) ← ParseEOF b;
  b ← slice_from b l;
  '(offset, l) ← ParseEOF b;
  b ← slice_from b l;
  Ok (mk (i64 sid) (i64 offset), startLen - len b).

Definition Append (b : list byte) (f : t) : res (list byte) :=
  let b := b ++ [z2b maxStreamDataFrameType] in
  b ← Varint.Append b (u64 (StreamID f));
  Varint.Append b (u64 (MaximumStreamData f)).

Definition Length (f : t) : res Z :=
  l1 ← Len (u64 (StreamID f));
  l2 ← Len (u64 (MaximumStreamData f));
  Ok (1 + (l1 + l2)).

Definition valid (f : t) : Prop := is_varint (StreamID f) ∧ is_varint (MaximumStreamData f).
Definition body (f : t) : list byte := venc (StreamID f) ++ venc (MaximumStreamData f).

Lemma max_stream_data_parse_body f rest :
  valid f → parseMaxStreamDataFrame (body f ++ rest) = Ok (f, len (body f)).
Proof.
  destruct f. unfold parseMaxStreamDataFrame, body. simpl. intros (?&?). simpl in *. solve_parse.
Qed.

Lemma max_stream_data_wp_parse b :
  wp (parseMaxStreamDataFrame b) (λ '(f, l), valid f ∧ 0 < l ≤ len b).
Proof.
  unfold parseMaxStreamDataFrame. solve_wp. wrun. unfold valid. simpl. split; [done|lia].
Qed.

#[global] Instance max_stream_data_frame : Frame t :=
  {| frame_append := Append; frame_length := Length |}.
#[global, refine] Instance max_stream_data_laws : FrameLaws t :=
  {| frame_valid := valid; frame_typ _ := maxStreamDataFrameType; frame_body := body |}.
Proof.
  - solve_typ.
  - intros b [] (?&?). simpl in *. unfold Append, encode, body. simpl. solve_append.
  - intros [] (?&?). simpl in *. unfold Length, encode, body. simpl. solve_length.
Defined.
End MaxStreamDataFrame.

Module MaxStreamsFrame.
Record t := mk { Type_ : StreamType; MaxStreamNum : Z }.

(** The zero value of [Type], kept when [typ] is neither constant, is
    [StreamTypeUni]. *)
Definition parseMaxStreamsFrame (b : list byte) (typ : Z) : res (t * Z) :=
  let ty := if typ =? bidiMaxStreamsFrameType then StreamTypeBidi else StreamTypeUni in
  '(streamID, l) ← ParseEOF b;
  let num := i64 streamID in
  if MaxStreamCount <? num
  then Err (ErrorString "%d exceeds the maximum stream count" [num])
  else Ok (mk ty num, l).

Definition Append (b : list byte) (f : t) : res (list byte) :=
  let b := match Type_ f with
           | StreamTypeBidi => b ++ [z2b bidiMaxStreamsFrameType]
           | StreamTypeUni => b ++ [z2b uniMaxStreamsFrameType]
           end in
  Varint.Append b (u64 (MaxStreamNum f)).

Definition Length (f : t) : res Z :=
  l ← Len (u64 (MaxStreamNum f));
  Ok (1 + l).

Definition valid (f : t) : Prop := 0 ≤ MaxStreamNum f ≤ MaxStreamCount.
Definition typ (f : t) : Z :=
  match Type_ f with
  | StreamTypeBidi => bidiMaxStreamsFrameType
  | StreamTypeUni => uniMaxStreamsFrameType
  end.
Definition body (f : t) : list byte := venc (MaxStreamNum f).

Lemma max_streams_parse_body f rest :
  valid f → parseMaxStreamsFrame (body f ++ rest) (typ f) = Ok (f, len (body f)).
Proof.
  destruct f as [ty n]. unfold valid, parseMaxStreamsFrame, body, MaxStreamCount.
  simpl. intros Hn. wrun. zcase. rewrite len_venc. by destruct ty.
Qed.

Lemma max_streams_wp_parse b ty :
  wp (parseMaxStreamsFrame b ty) (λ '(f, l), valid f ∧ 0 < l ≤ len b).
Proof.
  unfold parseMaxStreamsFrame. apply wp_bind, wp_ParseEOF. intros n l Hn Hl _. wrun.
  zcase; simpl; [done|]. unfold is_varint in Hn. unfold valid. simpl. lia.
Qed.

#[global] Instance max_streams_frame : Frame t :=
  {| frame_append := Append; frame_length := Length |}.
#[global, refine] Instance max_streams_laws : FrameLaws t :=
  {| frame_valid := valid; frame_typ := typ; frame_body := body |}.
Proof.
  - solve_typ.
  - intros b [[] n] Hn; unfold valid, MaxStreamCount in Hn; simpl in *;
      unfold Append, encode, body; simpl; solve_append.
  - intros [[] n] Hn; unfold valid, MaxStreamCount in Hn; simpl in *;
      unfold Length, encode, body; simpl; solve_length.
Defined.
End MaxStreamsFrame.

Module DataBlockedFrame.
Record t := mk { MaximumData : Z }.

Definition parseDataBlockedFrame (b : list byte) : res (t * Z) :=
  '(offset, l) ← ParseEOF b;
  Ok (mk (i64 offset), l).

Definition Append (b : list byte) (f : t) : res (list byte) :=
  let b := b ++ [z2b dataBlockedFrameType] in
  Varint.Append b (u64 (MaximumData f)).

Definition Length (f : t) : res Z :=
  l ← Len (u64 (MaximumData f));
  Ok (1 + l).

Definition valid (f : t) : Prop := is_varint (MaximumData f).
Definition body (f : t) : list byte := venc (MaximumData f).

Lemma data_blocked_parse_body f rest :
  valid f → parseDataBlockedFrame (body f ++ rest) = Ok (f, len (body f)).
Proof. destruct f. unfold valid, parseDataBlockedFrame, body. simpl. solve_parse. Qed.

Lemma data_blocked_wp_parse b :
  wp (parseDataBlockedFrame b) (λ '(f, l), valid f ∧ 0 < l ≤ len b).
Proof. unfold parseDataBlockedFrame. solve_wp. wrun. done. Qed.

#[global] Instance data_blocked_frame : Frame t :=
  {| frame_append := Append; frame_length := Length |}.
#[global, refine] Instance data_blocked_laws : FrameLaws t :=
  {| frame_valid := valid; frame_typ _ := dataBlockedFrameType; frame_body := body |}.
Proof.
  - solve_typ.
  - intros b [] ?. simpl in *. unfold valid, Append, encode, body in *. simpl in *. solve_append.
  - intros [] ?. simpl in *. unfold valid, Length, encode, body in *. simpl in *. solve_length.
Defined.
End DataBlockedFrame.

Module StreamDataBlockedFrame.
Record t := mk { StreamID : Z; MaximumStreamData : Z }.

Definition parseStreamDataBlockedFrame (b : list byte) : res (t * Z) :=
  let startLen := len b in
  '(sid, l) ← ParseEOF b;
  b ← slice_from b l;
  '(offset, l) ← ParseEOF b;
  Ok (mk (i64 sid) (i64 offset), startLen - len b + l).

Definition Append (b : list byte) (f : t) : res (list byte) :=
  let b := b ++ [z2b 0x15] in
  b ← Varint.Append b (u64 (StreamID f));
  Varint.Append b (u64 (MaximumStreamData f)).

Definition Length (f : t) : res Z :=
  l1 ← Len (u64 (StreamID f));
  l2 ← Len (u64 (MaximumStreamData f));
  Ok (1 + (l1 + l2)).

Definition valid (f : t) : Prop := is_varint (StreamID f) ∧ is_varint (MaximumStreamData f).
Definition body (f : t) : list byte := venc (StreamID f) ++ venc (MaximumStreamData f).

Lemma stream_data_blocked_parse_body f rest :
  valid f → parseStreamDataBlockedFrame (body f ++ rest) = Ok (f, len (body f)).
Proof.
  destruct f. unfold parseStreamDataBlockedFrame, body. simpl. intros (?&?). simpl in *.
  solve_parse.
Qed.

Lemma stream_data_blocked_wp_parse b :
  wp (parseStreamDataBlockedFrame b) (λ '(f, l), valid f ∧ 0 < l ≤ len b).
Proof.
  unfold parseStreamDataBlockedFrame. solve_wp. wrun. unfold valid. simpl. split; [done|lia].
Qed.

#[global] Instance stream_data_blocked_frame : Frame t :=
  {| frame_append := Append; frame_length := Length |}.
#[global, refine] Instance stream_data_blocked_laws : FrameLaws t :=
  {| frame_valid := valid; frame_typ _ := streamDataBlockedFrameType; frame_body := body |}.
Proof.
  - solve_typ.
  - intros b [] (?&?). simpl in *. unfold Append, encode, body. simpl. solve_append.
  - intros [] (?&?). simpl in *. unfold Length, encode, body. simpl. solve_length.
Defined.
End StreamDataBlockedFrame.

Module StreamsBlockedFrame.
Record t := mk { Type_ : StreamType; StreamLimit : Z }.

Definition parseStreamsBlockedFrame (b : list byte) (typ : Z) : res (t * Z) :=
  let ty := if typ =? bidiStreamBlockedFrameType then StreamTypeBidi else StreamTypeUni in
  '(streamLimit, l) ← ParseEOF b;
  let limit := i64 streamLimit in
  if MaxStreamCount <? limit
  then Err (ErrorString "%d exceeds the maximum stream count" [limit])
  else Ok (mk ty limit, l).

Definition Append (b : list byte) (f : t) : res (list byte) :=
  let b := match Type_ f with
           | StreamTypeBidi => b ++ [z2b bidiStreamBlockedFrameType]
           | StreamTypeUni => b ++ [z2b uniStreamBlockedFrameType]
           end in
  Varint.Append b (u64 (StreamLimit f)).

Definition Length (f : t) : res Z :=
  l ← Len (u64 (StreamLimit f));
  Ok (1 + l).

Definition valid (f : t) : Prop := 0 ≤ StreamLimit f ≤ MaxStreamCount.
Definition typ (f : t) : Z :=
  match Type_ f with
  | StreamTypeBidi => bidiStreamBlockedFrameType
  | StreamTypeUni => uniStreamBlockedFrameType
  end.
Definition body (f : t) : list byte := venc (StreamLimit f).

Lemma streams_blocked_parse_body f rest :
  valid f → parseStreamsBlockedFrame (body f ++ rest) (typ f) = Ok (f, len (body f)).
Proof.
  destruct f as [ty n]. unfold valid, parseStreamsBlockedFrame, body, MaxStreamCount.
  simpl. intros Hn. wrun. zcase. rewrite len_venc. by destruct ty.
Qed.

Lemma streams_blocked_wp_parse b ty :
  wp (parseStreamsBlockedFrame b ty) (λ '(f, l), valid f ∧ 0 < l ≤ len b).
Proof.
  unfold parseStreamsBlockedFrame. apply wp_bind, wp_ParseEOF. intros n l Hn Hl _. wrun.
  zcase; simpl; [done|]. unfold is_varint in Hn. unfold valid. simpl. lia.
Qed.

#[global] Instance streams_blocked_frame : Frame t :=
  {| frame_append := Append; frame_length := Length |}.
#[global, refine] Instance streams_blocked_laws : FrameLaws t :=
  {| frame_valid := valid; frame_typ := typ; frame_body := body |}.
Proof.
  - solve_typ.
  - intros b [[] n] Hn; unfold valid, MaxStreamCount in Hn; simpl in *;
      unfold Append, encode, body; simpl; solve_append.
  - intros [[] n] Hn; unfold valid, MaxStreamCount in Hn; simpl in *;
      unfold Length, encode, body; simpl; solve_length.
Defined.
End StreamsBlockedFrame.

Module RetireConnectionIDFrame.
Record t := mk { SequenceNumber : Z }.

Definition parseRetireConnectionIDFrame (b : list byte) : res (t * Z) :=
  '(seq, l) ← ParseEOF b;
  Ok (mk seq, l).

Definition Append (b : list byte) (f : t) : res (list byte) :=
  let b := b ++ [z2b retireConnectionIDFrameType] in
  Varint.Append b (SequenceNumber f).

Definition Length (f : t) : res Z :=
  l ← Len (SequenceNumber f);
  Ok (1 + l).

Definition valid (f : t) : Prop := is_varint (SequenceNumber f).
Definition body (f : t) : list byte := venc (SequenceNumber f).

Lemma retire_connection_id_parse_body f rest :
  valid f → parseRetireConnectionIDFrame (body f ++ rest) = Ok (f, len (body f)).
Proof. destruct f. unfold valid, parseRetireConnectionIDFrame, body. simpl. solve_parse. Qed.

Lemma retire_connection_id_wp_parse b :
  wp (parseRetireConnectionIDFrame b) (λ '(f, l), valid f ∧ 0 < l ≤ len b).
Proof. unfold parseRetireConnectionIDFrame. solve_wp. Qed.

#[global] Instance retire_connection_id_frame : Frame t :=
  {| frame_append := Append; frame_length := Length |}.
#[global, refine] Instance retire_connection_id_laws : FrameLaws t :=
  {| frame_valid := valid; frame_typ _ := retireConnectionIDFrameType; frame_body := body |}.
Proof.
  - solve_typ.
  - intros b [] ?. simpl in *. unfold valid, Append, encode, body in *. simpl in *. solve_append.
  - intros [] ?. simpl in *. unfold valid, Length, encode, body in *. simpl in *. solve_length.
Defined.
End RetireConnectionIDFrame.

Module NewConnectionIDFrame.
(** The stateless reset token is a 16-byte array. *)
Record t := mk {
  SequenceNumber : Z;
  RetirePriorTo : Z;
  ConnectionID : Protocol.ConnectionID;
  StatelessResetToken : list byte;
}.

Definition parseNewConnectionIDFrame (b : list byte) : res (t * Z) :=
  let startLen := len b in
  '(seq, l) ← ParseEOF b;
  b ← slice_from b l;
  '(ret, l) ← ParseEOF b;
  b ← slice_from b l;
  if seq <? ret
  then Err (ErrorString "Retire Prior To value (%d) larger than Sequence Number (%d)" [ret; seq])
  else
  if len b =? 0 then Err io_EOF else
  b0 ← idx b 0;
  let connIDLen := b2z b0 in
  b ← slice_from b 1;
  if connIDLen =? 0 then Err (ErrorString "invalid zero-length connection ID" []) else
  if MaxConnIDLen <? connIDLen then Err ErrInvalidConnectionIDLen else
  if len b <? connIDLen then Err io_EOF else
  c ← slice_to b connIDLen;
  connID ← ParseConnectionID c;
  b ← slice_from b connIDLen;
  if len b <? 16 then Err io_EOF else
  token ← make_copy 16 b;
  Ok (mk seq ret connID token, startLen - len b + 16).

Definition Append (b : list byte) (f : t) : res (list byte) :=
  let b := b ++ [z2b newConnectionIDFrameType] in
  b ← Varint.Append b (SequenceNumber f);
  b ← Varint.Append b (RetirePriorTo f);
  let connIDLen := ConnectionID_Len (ConnectionID f) in
  if MaxConnIDLen <? connIDLen
  then Err (ErrorString "invalid connection ID length: %d" [connIDLen]) else
  let b := b ++ [z2b connIDLen] in
  let b := b ++ ConnectionID f in
  Ok (b ++ StatelessResetToken f).

Definition Length (f : t) : res Z :=
  l1 ← Len (SequenceNumber f);
  l2 ← Len (RetirePriorTo f);
  Ok (1 + (l1 + l2 + 1 + ConnectionID_Len (ConnectionID f)) + 16).

Definition valid (f : t) : Prop :=
  is_varint (SequenceNumber f) ∧ 0 ≤ RetirePriorTo f ≤ SequenceNumber f ∧
  0 < len (ConnectionID f) ≤ MaxConnIDLen ∧ len (StatelessResetToken f) = 16.
Definition body (f : t) : list byte :=
  venc (SequenceNumber f) ++ venc (RetirePriorTo f) ++
  [z2b (len (ConnectionID f))] ++ ConnectionID f ++ StatelessResetToken f.

Lemma new_connection_id_parse_body f rest :
  valid f → parseNewConnectionIDFrame (body f ++ rest) = Ok (f, len (body f)).
Proof.
  destruct f as [seq ret c tok]. intros (Hseq&Hret&Hc&Htok). unfold body. simpl in *.
  unfold parseNewConnectionIDFrame, MaxConnIDLen in *.
  rewrite <-!app_assoc. wrun. zcase. rewrite <-app_comm_cons, len_cons. zcase; [len_lia|].
  rewrite idx_cons_0, slice_from_cons. wrun.
  rewrite b2z_z2b, u8_small, <-!app_assoc by lia. repeat zcase; [len_lia|].
  rewrite slice_to_app by done. wrun. unfold ParseConnectionID, maxConnectionIDLen. zcase. wrun.
  rewrite slice_from_app by done. wrun. zcase; [len_lia|].
  rewrite make_copy_prefix by done. wrun. do 2 f_equal. autorewrite with quic. lia.
Qed.

Lemma new_connection_id_wp_parse b :
  wp (parseNewConnectionIDFrame b) (λ '(f, l), valid f ∧ 0 < l ≤ len b).
Proof.
  unfold parseNewConnectionIDFrame, MaxConnIDLen. wprun.
  apply wp_idx; [len_lia|]. intros c Hc. pose proof (b2z_range c). wprun.
  apply wp_slice_to; [lia|]. intros cid Hcid _.
  unfold ParseConnectionID, maxConnectionIDLen. wprun.
  apply wp_make_copy; [len_lia|]. intros tok _ Htok. simpl. split; [|lia].
  unfold valid, is_varint, MaxConnIDLen in *. simpl. repeat split; lia.
Qed.

#[global] Instance new_connection_id_frame : Frame t :=
  {| frame_append := Append; frame_length := Length |}.
#[global, refine] Instance new_connection_id_laws : FrameLaws t :=
  {| frame_valid := valid; frame_typ _ := newConnectionIDFrameType; frame_body := body |}.
Proof.
  - solve_typ.
  - intros b [] (?&?&?&?). simpl in *. unfold Append, encode, body, ConnectionID_Len. simpl.
    wrun. zcase. by rewrite <-!app_assoc.
  - intros [] (?&?&?&?). simpl in *. unfold Length, encode, body, ConnectionID_Len. simpl.
    wrun. f_equal. autorewrite with quic. lia.
Defined.
End NewConnectionIDFrame.

Module PathChallengeFrame.
(** [Data] is an 8-byte array. *)
Record t := mk { Data : list byte }.

Definition parsePathChallengeFrame (b : list byte) : res (t * Z) :=
  if len b <? 8 then Err io_EOF else
  d ← make_copy 8 b;
  Ok (mk d, 8).

Definition Append (b : list byte) (f : t) : res (list byte) :=
  let b := b ++ [z2b pathChallengeFrameType] in
  Ok (b ++ Data f).

Definition Length (_ : t) : res Z := Ok (1 + 8).

Definition valid (f : t) : Prop := len (Data f) = 8.
Definition body (f : t) : list byte := Data f.

Lemma path_challenge_parse_body f rest :
  valid f → parsePathChallengeFrame (body f ++ rest) = Ok (f, len (body f)).
Proof.
  destruct f as [d]. intros Hd. unfold valid, body in *. simpl in *.
  unfold parsePathChallengeFrame.
  zcase; [len_lia|]. rewrite make_copy_prefix by done. by rewrite Hd.
Qed.

Lemma path_challenge_wp_parse b :
  wp (parsePathChallengeFrame b) (λ '(f, l), valid f ∧ 0 < l ≤ len b).
Proof.
  unfold parsePathChallengeFrame. wprun. apply wp_make_copy; [lia|]. intros d _ Hd.
  simpl. unfold valid. simpl. lia.
Qed.

#[global] Instance path_challenge_frame : Frame t :=
  {| frame_append := Append; frame_length := Length |}.
#[global, refine] Instance path_challenge_laws : FrameLaws t :=
  {| frame_valid := valid; frame_typ _ := pathChallengeFrameType; frame_body := body |}.
Proof.
  - solve_typ.
  - intros b [d] Hd. simpl. unfold Append, encode, body. simpl. by rewrite <-app_assoc.
  - intros [d] Hd. unfold valid in Hd. simpl in *. unfold Length, encode, body. simpl.
    f_equal. autorewrite with quic. lia.
Defined.
End PathChallengeFrame.

Module PathResponseFrame.
(** [Data] is an 8-byte array. *)
Record t := mk { Data : list byte }.

Definition parsePathResponseFrame (b : list byte) : res (t * Z) :=
  if len b <? 8 then Err io_EOF else
  d ← make_copy 8 b;
  Ok (mk d, 8).

Definition Append (b : list byte) (f : t) : res (list byte) :=
  let b := b ++ [z2b pathResponseFrameType] in
  Ok (b ++ Data f).

Definition Length (_ : t) : res Z := Ok (1 + 8).

Definition valid (f : t) : Prop := len (Data f) = 8.
Definition body (f : t) : list byte := Data f.

Lemma path_response_parse_body f rest :
  valid f → parsePathResponseFrame (body f ++ rest) = Ok (f, len (body f)).
Proof.
  destruct f as [d]. intros Hd. unfold valid, body in *. simpl in *.
  unfold parsePathResponseFrame.
  zcase; [len_lia|]. rewrite make_copy_prefix by done. by rewrite Hd.
Qed.

Lemma path_response_wp_parse b :
  wp (parsePathResponseFrame b) (λ '(f, l), valid f ∧ 0 < l ≤ len b).
Proof.
  unfold parsePathResponseFrame. wprun. apply wp_make_copy; [lia|]. intros d _ Hd.
  simpl. unfold valid. simpl. lia.
Qed.

#[global] Instance path_response_frame : Frame t :=
  {| frame_append := Append; frame_length := Length |}.
#[global, refine] Instance path_response_laws : FrameLaws t :=
  {| frame_valid := valid; frame_typ _ := pathResponseFrameType; frame_body := body |}.
Proof.
  - solve_typ.
  - intros b [d] Hd. simpl. unfold Append, encode, body. simpl. by rewrite <-app_assoc.
  - intros [d] Hd. unfold valid in Hd. simpl in *. unfold Length, encode, body. simpl.
    f_equal. autorewrite with quic. lia.
Defined.
End PathResponseFrame.

Module ConnectionCloseFrame.
(** A Go string is its bytes. *)
Record t := mk {
  IsApplicationError : bool;
  ErrorCode : Z;
  FrameType : Z;
  ReasonPhrase : list byte;
}.

Definition parseConnectionCloseFrame (b : list byte) (typ : Z) : res (t * Z) :=
  let startLen := len b in
  let IsApplicationError := typ =? applicationCloseFrameType in
  '(ec, l) ← ParseEOF b;
  b ← slice_from b l;
  '(FrameType, b) ←
    (if negb IsApplicationError then
       '(ft, l) ← ParseEOF b;
       b ← slice_from b l;
       Ok (ft, b)
     else Ok (0, b));
  '(reasonPhraseLen, l) ← ParseEOF b;
  b ← slice_from b l;
  if len b <? i64 reasonPhraseLen then Err io_EOF else
  reasonPhrase ← make_copy reasonPhraseLen b;
  Ok (mk IsApplicationError ec FrameType reasonPhrase,
      startLen - len b + i64 reasonPhraseLen).

Definition Length (f : t) : res Z :=
  l1 ← Len (ErrorCode f);
  l2 ← Len (u64 (len (ReasonPhrase f)));
  let length := 1 + (l1 + l2) + len (ReasonPhrase f) in
  if negb (IsApplicationError f) then
    l3 ← Len (FrameType f);
    Ok (length + l3)
  else Ok length.

Definition Append (b : list byte) (f : t) : res (list byte) :=
  let b := if IsApplicationError f
           then b ++ [z2b applicationCloseFrameType]
           else b ++ [z2b connectionCloseFrameType] in
  b ← Varint.Append b (ErrorCode f);
  b ← (if negb (IsApplicationError f) then Varint.Append b (FrameType f) else Ok b);
  b ← Varint.Append b (u64 (len (ReasonPhrase f)));
  Ok (b ++ ReasonPhrase f).

Definition valid (f : t) : Prop :=
  is_varint (ErrorCode f) ∧ is_varint (len (ReasonPhrase f)) ∧
  if IsApplicationError f then FrameType f = 0 else is_varint (FrameType f).
Definition typ (f : t) : Z :=
  if IsApplicationError f then applicationCloseFrameType else connectionCloseFrameType.
Definition body (f : t) : list byte :=
  venc (ErrorCode f) ++ (if IsApplicationError f then [] else venc (FrameType f)) ++
  venc (len (ReasonPhrase f)) ++ ReasonPhrase f.

Lemma connection_close_parse_body f rest :
  valid f → parseConnectionCloseFrame (body f ++ rest) (typ f) = Ok (f, len (body f)).
Proof.
  destruct f as [app ec ft r]. unfold body, valid. simpl. intros (?&?&Hft).
  unfold parseConnectionCloseFrame. destruct app; simpl in Hft |- *; subst;
    rewrite <-?app_assoc; wrun; zcase; [len_lia| |len_lia|];
    rewrite make_copy_prefix by done; wrun; do 2 f_equal; autorewrite with quic; lia.
Qed.

Lemma connection_close_wp_parse b ty :
  wp (parseConnectionCloseFrame b ty) (λ '(f, l), valid f ∧ 0 < l ≤ len b).
Proof.
  unfold parseConnectionCloseFrame. destruct (ty =? _); cbn [negb].
  all: wprun; repeat rewrite i64_varint in * by done.
  all: apply wp_make_copy; [unfold is_varint in *; lia|]; intros r _ Hr; simpl.
  all: rewrite ?i64_varint by done; unfold valid, is_varint in *; simpl; lia.
Qed.

#[global] Instance connection_close_frame : Frame t :=
  {| frame_append := Append; frame_length := Length |}.
#[global, refine] Instance connection_close_laws : FrameLaws t :=
  {| frame_valid := valid; frame_typ := typ; frame_body := body |}.
Proof.
  - solve_typ.
  - intros b [[] ? ? ?] (?&?&?); simpl in *; unfold Append, encode, body; simpl; solve_append.
  - intros [[] ? ? ?] (?&?&?); simpl in *; unfold Length, encode, body; simpl; solve_length.
Defined.
End ConnectionCloseFrame.

Module NewTokenFrame.
Record t := mk { Token : list byte }.

Definition parseNewTokenFrame (b : list byte) : res (t * Z) :=
  '(tokenLen, l) ← ParseEOF b;
  b ← slice_from b l;
  if tokenLen =? 0 then Err (ErrorString "token must not be empty" []) else
  if len b <? tokenLen then Err io_EOF else
  token ← make_copy (i64 tokenLen) b;
  Ok (mk token, l + i64 tokenLen).

Definition Append (b : list byte) (f : t) : res (list byte) :=
  let b := b ++ [z2b newTokenFrameType] in
  b ← Varint.Append b (u64 (len (Token f)));
  Ok (b ++ Token f).

Definition Length (f : t) : res Z :=
  l ← Len (u64 (len (Token f)));
  Ok (1 + (l + len (Token f))).

Definition valid (f : t) : Prop := 0 < len (Token f) ∧ is_varint (len (Token f)).
Definition body (f : t) : list byte := venc (len (Token f)) ++ Token f.

Lemma new_token_parse_body f rest :
  valid f → parseNewTokenFrame (body f ++ rest) = Ok (f, len (body f)).
Proof.
  destruct f as [tok]. unfold body, valid. simpl. intros (?&?).
  unfold parseNewTokenFrame. rewrite <-app_assoc. wrun. do 2 zcase; [len_lia|].
  rewrite make_copy_prefix by done. wrun.
  do 2 f_equal. autorewrite with quic. lia.
Qed.

Lemma new_token_wp_parse b : wp (parseNewTokenFrame b) (λ '(f, l), valid f ∧ 0 < l ≤ len b).
Proof.
  unfold parseNewTokenFrame. wprun. rewrite i64_varint by done.
  apply wp_make_copy; [unfold is_varint in *; lia|]. intros tok _ Htok. simpl.
  unfold valid, is_varint in *. simpl. lia.
Qed.

#[global] Instance new_token_frame : Frame t :=
  {| frame_append := Append; frame_length := Length |}.
#[global, refine] Instance new_token_laws : FrameLaws t :=
  {| frame_valid := valid; frame_typ _ := newTokenFrameType; frame_body := body |}.
Proof.
  - solve_typ.
  - intros b [] (?&?). simpl in *. unfold Append, encode, body. simpl. solve_append.
  - intros [] (?&?). simpl in *. unfold Length, encode, body. simpl. solve_length.
Defined.
End NewTokenFrame.
