(* ===== verification/DataFrames.v ===== *)
(** * Frames that carry data (internal/wire: stream_frame.go, crypto_frame.go,
      datagram_frame.go, pool.go)

    STREAM frames come from a pool of frames with a fixed-size buffer.  The
    functions that take a frame from the pool get the contents of its buffer
    as the argument [pool]: bytes that a previous user left there. *)

From S2P Require Import Prelude Varint Protocol Wire.

(** Go's [s[:n]] of a slice whose backing array holds [arr]. *)
Definition reslice (arr : list byte) (n : Z) : res (list byte) := slice_to arr n.

(** The largest number of data bytes that fits next to [headerLen] bytes of
    header, of which one byte is the length of the data: the last statements of
    the [MaxDataLen] methods of STREAM, CRYPTO and DATAGRAM frames. *)
Definition fitDataLen (lenPresent : bool) (headerLen maxSize : Z) : res Z :=
  if maxSize <? headerLen then Ok 0 else
  let maxDataLen := maxSize - headerLen in
  if lenPresent then
    l ← Len (u64 maxDataLen);
    Ok (if negb (l =? 1) then maxDataLen - 1 else maxDataLen)
  else Ok maxDataLen.

(** The number of bytes that the length field of [n] data bytes takes. *)
Definition lenField (lenPresent : bool) (n : Z) : Z := if lenPresent then vlen n else 0.

(** [fitDataLen] is the optimum: its result fits and nothing longer does. The
    frames of a packet are far below the bound on [maxSize], from which on the
    length field takes four bytes. *)
Lemma fitDataLen_spec p h maxSize :
  0 ≤ h → maxSize ≤ 16384 →
  ∃ n, fitDataLen p (h + if p then 1 else 0) maxSize = Ok n ∧ 0 ≤ n ∧
    (0 < n → h + lenField p n + n ≤ maxSize) ∧
    (∀ m, 0 ≤ m → h + lenField p m + m ≤ maxSize → m ≤ n).
Proof.
  intros Hh Hmax. unfold fitDataLen, lenField.
  destruct p; zcase.
  - exists 0. split_and!; [done|lia|lia|]. intros m ? Hm. pose proof (vlen_pos m). lia.
  - rewrite u64_small by lia. rewrite Len_vlen by (unfold is_varint, maxVarInt8; lia).
    cbn [mbind result_bind]. set (M := maxSize - (h + 1)). eexists. split; [done|].
    assert (0 ≤ M < 16384) by lia. replace maxSize with (M + h + 1) by lia. clearbody M.
    destruct (decide (M ≤ 63)).
    + rewrite (vlen_1 M) by lia. simpl. split_and!; [lia| |].
      * rewrite vlen_1; lia.
      * intros m ? ?. pose proof (vlen_pos m). lia.
    + rewrite (vlen_2 M) by lia. simpl. split_and!; [lia| |].
      * destruct (decide (M = 64)) as [->|]; [rewrite vlen_1|rewrite vlen_2]; lia.
      * intros m ? ?. destruct (decide (m ≤ 63)); [lia|].
        pose proof (vlen_mono 64 m ltac:(lia)). rewrite (vlen_2 64) in * by lia. lia.
  - exists 0. split_and!; [done|lia|lia|]. intros. lia.
  - eexists. split; [done|]. split_and!; intros; lia.
Qed.

Module StreamFrame.
(** [DataCap] is [cap(Data)]. *)
Record t := mk {
  StreamID : Z;
  Offset : Z;
  Data : list byte;
  Fin : bool;
  DataLenPresent : bool;
  fromPool : bool;
  DataCap : Z;
}.

Definition DataLen (f : t) : Z := len (Data f).

(** The data buffer of the frame that is returned: its contents, whether it is
    pooled and its capacity. *)
Definition frameBuffer (pool : list byte) (dataLen : Z) : res (list byte * bool * Z) :=
  if dataLen <? MinStreamFrameBufferSize then
    Ok (replicate (Z.to_nat dataLen) x00, false, dataLen)
  else if len pool <? dataLen then Err io_EOF
  else
    d ← reslice pool dataLen;
    Ok (d, true, len pool).

Definition parseStreamFrame (pool b : list byte) (typ : Z) : res (t * Z) :=
  let startLen := len b in
  let hasOffset := 0 <? Z.land typ 4 in
  let fin := 0 <? Z.land typ 1 in
  let hasDataLen := 0 <? Z.land typ 2 in
  '(streamID, l) ← ParseEOF b;
  b ← slice_from b l;
  '(offset, b) ←
    (if hasOffset then
       '(offset, l) ← ParseEOF b;
       b ← slice_from b l;
       Ok (offset, b)
     else Ok (0, b));
  '(dataLen, b) ←
    (if hasDataLen then
       '(dataLen, l) ← ParseEOF b;
       b ← slice_from b l;
       if len b <? dataLen then Err io_EOF else Ok (dataLen, b)
     else Ok (len b, b));
  '(data, pooled, cap) ← frameBuffer pool dataLen;
  let data := if 0 <? dataLen then copy_into data b else data in
  let frame := mk (i64 streamID) (i64 offset) data fin hasDataLen pooled cap in
  if MaxByteCount <? i64 (Offset frame + DataLen frame)
  then Err (ErrorString "stream data overflows maximum offset" [])
  else Ok (frame, startLen - len b + dataLen).

Definition typ (f : t) : Z :=
  let typ := 0x8 in
  let typ := if Fin f then Z.lxor typ 1 else typ in
  let typ := if DataLenPresent f then Z.lxor typ 2 else typ in
  if negb (Offset f =? 0) then Z.lxor typ 4 else typ.

Definition Append (b : list byte) (f : t) : res (list byte) :=
  if (len (Data f) =? 0) && negb (Fin f)
  then Err (ErrorString "StreamFrame: attempting to write empty frame without FIN" [])
  else
  let hasOffset := negb (Offset f =? 0) in
  let b := b ++ [z2b (typ f)] in
  b ← Varint.Append b (u64 (StreamID f));
  b ← (if hasOffset then Varint.Append b (u64 (Offset f)) else Ok b);
  b ← (if DataLenPresent f then Varint.Append b (u64 (DataLen f)) else Ok b);
  Ok (b ++ Data f).

Definition Length (f : t) : res Z :=
  l1 ← Len (u64 (StreamID f));
  let length := 1 + l1 in
  length ← (if negb (Offset f =? 0) then
              l2 ← Len (u64 (Offset f)); Ok (length + l2)
            else Ok length);
  length ← (if DataLenPresent f then
              l3 ← Len (u64 (DataLen f)); Ok (length + l3)
            else Ok length);
  Ok (length + DataLen f).

Definition MaxDataLen (f : t) (maxSize : Z) : res Z :=
  l1 ← Len (u64 (StreamID f));
  let headerLen := 1 + l1 in
  headerLen ← (if negb (Offset f =? 0) then
                 l2 ← Len (u64 (Offset f)); Ok (headerLen + l2)
               else Ok headerLen);
  let headerLen := if DataLenPresent f then headerLen + 1 else headerLen in
  fitDataLen (DataLenPresent f) headerLen maxSize.

(** The returned frame, whether splitting was required, and the receiver after
    the call. *)
Definition MaybeSplitOffFrame (pool : list byte) (f : t) (maxSize : Z)
  : res (option t * bool * t) :=
  l ← Length f;
  if l <=? maxSize then Ok (None, false, f) else
  n ← MaxDataLen f maxSize;
  if n =? 0 then Ok (None, true, f) else
  (* the data slices, with their capacities, and the fromPool flags are swapped *)
  let newData := Data f in
  let newFromPool := fromPool f in
  fData ← reslice pool (len newData - n);
  rest ← slice_from newData n;
  let fData := copy_into fData rest in
  newData ← slice_to newData n;
  Ok (Some (mk (StreamID f) (Offset f) newData false (DataLenPresent f)
               newFromPool (DataCap f)),
      true,
      mk (StreamID f) (i64 (Offset f + n)) fData (Fin f) (DataLenPresent f)
         true (len pool)).

(** [PutBack]: the buffer that goes to the pool ([None]: left to the garbage
    collector).  A pooled buffer of another size panics. *)
Definition putStreamFrame (f : t) : res (option Z) :=
  if negb (fromPool f) then Ok None else
  if negb (DataCap f =? MaxPacketBufferSize) then Panic else
  Ok (Some (DataCap f)).

(** The values that a packet can carry, and the frames that [Append] accepts. *)
Definition fits (f : t) : Prop :=
  is_varint (StreamID f) ∧ 0 ≤ Offset f ∧ Offset f + DataLen f ≤ MaxByteCount.
Definition valid (f : t) : Prop := fits f ∧ (0 < DataLen f ∨ Fin f = true).

Definition header (f : t) : list byte :=
  venc (StreamID f) ++ (if Offset f =? 0 then [] else venc (Offset f)).
Definition body (f : t) : list byte :=
  header f ++ (if DataLenPresent f then venc (DataLen f) else []) ++ Data f.
Definition bytes (f : t) : list byte := encode (typ f) (body f).

(** What the parser makes of the encoding of [f]: the same frame, with a pooled
    buffer if it has at least [MinStreamFrameBufferSize] bytes of data. *)
Definition received (pool : list byte) (f : t) : t :=
  let pooled := MinStreamFrameBufferSize <=? DataLen f in
  mk (StreamID f) (Offset f) (Data f) (Fin f) (DataLenPresent f)
     pooled (if pooled then len pool else DataLen f).

(** A buffer that is returned to the pool has the size of the pool's buffers. *)
Definition pool_inv (f : t) : Prop := fromPool f = true → DataCap f = MaxPacketBufferSize.

Lemma typ_flags f :
  (0 <? Z.land (typ f) 4) = negb (Offset f =? 0) ∧
  (0 <? Z.land (typ f) 1) = Fin f ∧ (0 <? Z.land (typ f) 2) = DataLenPresent f.
Proof. unfold typ. by destruct (Fin f), (DataLenPresent f), (Offset f =? 0). Qed.

Lemma typ_range f : 0x8 ≤ typ f ≤ 0xf.
Proof. unfold typ. by destruct (Fin f), (DataLenPresent f), (Offset f =? 0). Qed.

Lemma fits_varints f :
  fits f → is_varint (StreamID f) ∧ is_varint (Offset f) ∧ is_varint (DataLen f).
Proof.
  unfold fits, DataLen, is_varint, maxVarInt8, MaxByteCount. intros. len_lia.
Qed.

Lemma length_eq f :
  fits f →
  Length f = Ok (1 + len (header f) + lenField (DataLenPresent f) (DataLen f) + DataLen f).
Proof.
  intros (?&?&?)%fits_varints. unfold Length, header, lenField.
  destruct (Offset f =? 0), (DataLenPresent f); cbn [negb]; wrun; f_equal;
    autorewrite with quic; rewrite ?len_venc; lia.
Qed.

Lemma len_body f :
  len (body f) = len (header f) + lenField (DataLenPresent f) (DataLen f) + DataLen f.
Proof.
  unfold body, lenField, DataLen.
  destruct (DataLenPresent f); autorewrite with quic; rewrite ?len_venc; lia.
Qed.

Lemma len_bytes f :
  len (bytes f) = 1 + len (header f) + lenField (DataLenPresent f) (DataLen f) + DataLen f.
Proof. unfold bytes, encode. rewrite len_cons, len_body. lia. Qed.

#[global] Instance stream_frame : Frame t :=
  {| frame_append := Append; frame_length := Length |}.
#[global, refine] Instance stream_laws : FrameLaws t :=
  {| frame_valid := valid; frame_typ := typ; frame_body := body |}.
Proof.
  - intros f. pose proof (typ_range f). lia.
  - intros b f (Hf & Hne). cbn [frame_append stream_frame]. unfold Append, encode, body, header.
    apply fits_varints in Hf as (?&?&?).
    destruct (_ && _) eqn:Hempty.
    { apply andb_true_iff in Hempty as [?%Z.eqb_eq ?%negb_true_iff].
      unfold DataLen in *. destruct Hne; [lia|congruence]. }
    destruct (Offset f =? 0), (DataLenPresent f); cbn [negb]; wrun;
      by rewrite <-?app_assoc.
  - intros f (Hf & _). cbn [frame_length stream_frame]. rewrite length_eq by done.
    unfold encode. rewrite len_cons, len_body. f_equal. lia.
Defined.

Lemma frameBuffer_ok pool n :
  0 ≤ n → n < MinStreamFrameBufferSize ∨ n ≤ len pool →
  ∃ buf, len buf = n ∧
    frameBuffer pool n =
      Ok (buf, MinStreamFrameBufferSize <=? n,
          if MinStreamFrameBufferSize <=? n then len pool else n).
Proof.
  intros Hn Hpool. unfold frameBuffer, reslice, slice_to, MinStreamFrameBufferSize in *.
  repeat (zcase; cbn [mbind result_bind]); eexists; (split; [|done]).
  - rewrite len_replicate. lia.
  - by apply len_take.
Qed.

(** The bytes of the packet overwrite all that was in the buffer. *)
Lemma fill_buffer (buf b : list byte) n :
  len buf = n → n ≤ len b →
  (if 0 <? n then copy_into buf b else buf) = take (Z.to_nat n) b.
Proof.
  intros Hbuf Hb. zcase.
  - rewrite copy_into_full by lia. f_equal. unfold len in *. lia.
  - assert (n = 0) as -> by len_lia. by rewrite (len_0_nil buf).
Qed.

Lemma offset_step f rest :
  is_varint (Offset f) →
  (if negb (Offset f =? 0) then
     '(offset, l) ← ParseEOF ((if Offset f =? 0 then [] else venc (Offset f)) ++ rest);
     b ← slice_from ((if Offset f =? 0 then [] else venc (Offset f)) ++ rest) l;
     Ok (offset, b)
   else Ok (0, (if Offset f =? 0 then [] else venc (Offset f)) ++ rest)) = Ok (Offset f, rest).
Proof. intros. destruct (Z.eqb_spec (Offset f) 0) as [->|]; cbn [negb]; by wrun. Qed.

Lemma data_len_step f rest :
  is_varint (DataLen f) → DataLenPresent f = true ∨ rest = [] →
  let b := (if DataLenPresent f then venc (DataLen f) else []) ++ Data f ++ rest in
  (if DataLenPresent f then
     '(dataLen, l) ← ParseEOF b;
     b ← slice_from b l;
     if len b <? dataLen then Err io_EOF else Ok (dataLen, b)
   else Ok (len b, b)) = Ok (DataLen f, Data f ++ rest).
Proof.
  intros ? Hrest. cbv zeta. destruct (DataLenPresent f).
  - wrun. zcase; [|done]. unfold DataLen in *. len_lia.
  - destruct Hrest as [? | ->]; [done|]. simpl. by rewrite app_nil_r.
Qed.

Lemma stream_parse_body pool f rest :
  fits f → DataLen f < MinStreamFrameBufferSize ∨ DataLen f ≤ len pool →
  DataLenPresent f = true ∨ rest = [] →
  parseStreamFrame pool (body f ++ rest) (typ f) = Ok (received pool f, len (body f)).
Proof.
  intros Hf Hpool Hrest. destruct (fits_varints f Hf) as (?&?&?).
  destruct (frameBuffer_ok pool (DataLen f)) as (buf&Hbuf&Hget); [unfold DataLen; len_lia|done|].
  assert ((if 0 <? DataLen f then copy_into buf (Data f ++ rest) else buf) = Data f) as Hfill.
  { rewrite (fill_buffer _ _ (DataLen f)); [apply take_len_app|done|]. unfold DataLen. len_lia. }
  unfold parseStreamFrame. destruct (typ_flags f) as (->&->&->).
  rewrite len_app, len_body. unfold body. rewrite <-!app_assoc. unfold header.
  rewrite <-?app_assoc. wrun.
  rewrite (offset_step f) by done. wrun. rewrite (data_len_step f rest) by done. wrun.
  rewrite Hget. cbn [mbind result_bind]. rewrite Hfill. wrun.
  change (i64 _) with (i64 (Offset f + DataLen f)). unfold fits, MaxByteCount in *.
  rewrite i64_small by (unfold DataLen in *; len_lia). zcase. wrun.
  do 2 f_equal. unfold DataLen. len_lia.
Qed.

Lemma wp_data_len (present : bool) b :
  wp (if present then
        '(dataLen, l) ← ParseEOF b;
        b ← slice_from b l;
        if len b <? dataLen then Err io_EOF else Ok (dataLen, b)
      else Ok (len b, b)) (λ '(dl, b3), 0 ≤ dl ≤ len b3 ∧ len b3 ≤ len b).
Proof. destruct present; wprun; simpl; unfold is_varint in *; len_lia. Qed.

(** Nothing of what a pooled buffer held before gets into a frame. *)
Lemma frameBuffer_pool pool pool' n :
  0 ≤ n → len pool = len pool' →
  match frameBuffer pool n, frameBuffer pool' n with
  | Ok (buf, pooled, cap), Ok (buf', pooled', cap') =>
      len buf = n ∧ len buf' = n ∧ pooled = pooled' ∧ cap = cap'
  | Err e, Err e' => e = e'
  | _, _ => False
  end.
Proof.
  intros Hn Hp. unfold frameBuffer, reslice, slice_to. rewrite <-Hp.
  repeat (zcase; cbn [mbind result_bind]).
  - split_and!; try done; rewrite len_replicate; lia.
  - done.
  - split_and!; try done; rewrite len_take; lia.
Qed.

Lemma parseStreamFrame_pool pool pool' b ty :
  len pool = len pool' → parseStreamFrame pool b ty = parseStreamFrame pool' b ty.
Proof.
  intros Hp. unfold parseStreamFrame.
  destruct (ParseEOF b) as [[sid l]| |]; [|done..]. cbn [mbind result_bind].
  destruct (slice_from b l) as [b1| |]; [|done..]. cbn [mbind result_bind].
  destruct (if 0 <? Z.land ty 4 then _ else _) as [[off b2]| |]; [|done..]. cbn [mbind result_bind].
  pose proof (wp_data_len (0 <? Z.land ty 2) b2) as Hdl.
  destruct (if 0 <? Z.land ty 2 then _ else _) as [[dl b3]| |]; [|done..]. cbn [mbind result_bind].
  simpl in Hdl. pose proof (frameBuffer_pool pool pool' dl ltac:(lia) Hp) as Hb.
  destruct (frameBuffer pool dl) as [[[buf pooled] cap]| |],
    (frameBuffer pool' dl) as [[[buf' pooled'] cap']| |]; try done; [|by rewrite Hb].
  destruct Hb as (?&?&->&->). cbn [mbind result_bind].
  by rewrite !(fill_buffer _ b3 dl) by lia.
Qed.

Lemma wp_frameBuffer pool n (Q : list byte * bool * Z → Prop) :
  0 ≤ n →
  (∀ buf pooled cap, len buf = n → n < MinStreamFrameBufferSize ∨ n ≤ len pool →
     (pooled = true → cap = len pool) → Q (buf, pooled, cap)) →
  wp (frameBuffer pool n) Q.
Proof.
  intros Hn HQ. unfold frameBuffer, reslice. repeat zcase; [|done|].
  - apply HQ; [rewrite len_replicate; lia|by left|done].
  - apply wp_bind, wp_slice_to; [lia|]. intros d Hd _. apply HQ; auto.
Qed.

Lemma stream_wp_parse pool b ty :
  len pool = MaxPacketBufferSize →
  wp (parseStreamFrame pool b ty) (λ '(f, l), fits f ∧ pool_inv f ∧ 0 < l ≤ len b).
Proof.
  intros Hpool. unfold parseStreamFrame.
  apply wp_bind, wp_ParseEOF. intros sid l Hsid Hl _.
  apply wp_bind, wp_slice_from; [lia|]. intros b1 Hb1 _.
  apply wp_bind, wp_mono with (Q := λ '(off, b2), is_varint off ∧ len b2 ≤ len b1).
  { wprun; simpl; split; try done; unfold is_varint, maxVarInt8; lia. }
  intros [off b2] [Hoff Hb2].
  apply wp_bind. eapply wp_mono; [apply wp_data_len|]. intros [dl b3] [Hdl Hb3].
  apply wp_bind, wp_frameBuffer; [lia|]. intros buf pooled cap Hbuf Hsmall Hcap.
  rewrite (fill_buffer buf b3 dl) by lia. unfold DataLen. simpl.
  rewrite len_take, (i64_varint sid), (i64_varint off) by (done || lia). unfold MinStreamFrameBufferSize, MaxPacketBufferSize, is_varint in *.
  rewrite i64_small by (unfold maxVarInt8 in *; lia). zcase; [done|]. apply wp_ok.
  unfold fits, pool_inv, DataLen, is_varint, MaxPacketBufferSize in *. simpl.
  rewrite len_take by lia. split_and!; try lia. intros. rewrite Hcap; done.
Qed.

(** *** Splitting *)
Lemma max_data_len f maxSize :
  is_varint (StreamID f) → is_varint (Offset f) → maxSize ≤ 16384 →
  ∃ n, MaxDataLen f maxSize = Ok n ∧ 0 ≤ n ∧
    (0 < n → 1 + len (header f) + lenField (DataLenPresent f) n + n ≤ maxSize) ∧
    (∀ m, 0 ≤ m → 1 + len (header f) + lenField (DataLenPresent f) m + m ≤ maxSize → m ≤ n).
Proof.
  intros ?? Hmax. destruct (fitDataLen_spec (DataLenPresent f) (1 + len (header f)) maxSize)
    as (n&Hn&?); [len_lia|done|]. exists n. split; [|done]. rewrite <-Hn.
  unfold MaxDataLen, header.
  destruct (Offset f =? 0), (DataLenPresent f); cbn [negb]; wrun; f_equal;
    autorewrite with quic; rewrite ?len_venc; lia.
Qed.

Lemma lenField_mono p n m : n ≤ m → lenField p n ≤ lenField p m.
Proof. destruct p; [apply vlen_mono|done]. Qed.

Lemma split_smaller f n maxSize :
  (0 < n → 1 + len (header f) + lenField (DataLenPresent f) n + n ≤ maxSize) → 0 < n →
  maxSize < 1 + len (header f) + lenField (DataLenPresent f) (DataLen f) + DataLen f →
  n < DataLen f.
Proof.
  intros Hfit Hn Hlt. destruct (decide (n < DataLen f)); [done|].
  pose proof (lenField_mono (DataLenPresent f) (DataLen f) n). lia.
Qed.

(** The split at [n] bytes: what the two frames are. *)
Definition split_at (pool : list byte) (f : t) (n : Z) : t * t :=
  (mk (StreamID f) (Offset f) (take (Z.to_nat n) (Data f)) false (DataLenPresent f)
      (fromPool f) (DataCap f),
   mk (StreamID f) (Offset f + n) (drop (Z.to_nat n) (Data f)) (Fin f) (DataLenPresent f)
      true (len pool)).

Lemma split_eq pool f maxSize :
  fits f → maxSize ≤ 16384 → DataLen f ≤ len pool →
  ∃ n, MaybeSplitOffFrame pool f maxSize =
      (if 1 + len (header f) + lenField (DataLenPresent f) (DataLen f) + DataLen f <=? maxSize
       then Ok (None, false, f)
       else if n =? 0 then Ok (None, true, f)
       else Ok (Some (split_at pool f n).1, true, (split_at pool f n).2)) ∧
    0 ≤ n ∧
    (0 < n → 1 + len (header f) + lenField (DataLenPresent f) n + n ≤ maxSize) ∧
    (∀ m, 0 ≤ m → 1 + len (header f) + lenField (DataLenPresent f) m + m ≤ maxSize → m ≤ n).
Proof.
  intros Hf Hmax Hpool.
  destruct (fits_varints f Hf) as (?&?&_).
  destruct (max_data_len f maxSize) as (n & Hn & Hn0 & Hfit & Hopt); [done..|].
  exists n. split_and!; [|done|done|done].
  unfold MaybeSplitOffFrame. rewrite length_eq by done. cbn [mbind result_bind].
  zcase; [done|]. rewrite Hn. cbn [mbind result_bind]. zcase; [done|].
  assert (n < DataLen f) by (apply (split_smaller f n maxSize); lia).
  unfold reslice, slice_to, slice_from, fits, MaxByteCount, DataLen in *.
  repeat zcase. cbn [mbind result_bind]. unfold split_at. simpl.
  rewrite i64_small by len_lia. rewrite copy_into_full by (rewrite len_take, len_drop; lia).
  rewrite (take_ge (drop _ _)); [done|]. rewrite length_take, length_drop. unfold len in *. lia.
Qed.

Lemma split_at_spec pool f n :
  fits f → len pool = MaxPacketBufferSize → pool_inv f → 0 < n < DataLen f →
  let '(g, f') := split_at pool f n in
  valid g ∧ valid f' ∧ pool_inv g ∧ pool_inv f' ∧
  StreamID g = StreamID f ∧ StreamID f' = StreamID f ∧
  Data f = Data g ++ Data f' ∧ DataLen g = n ∧ header g = header f ∧
  DataLenPresent g = DataLenPresent f ∧
  Offset g = Offset f ∧ Offset f' = Offset f + n ∧ Fin g = false ∧ Fin f' = Fin f.
Proof.
  intros Hf Hpool Hinv Hn. unfold split_at, valid, fits, pool_inv, DataLen in *. simpl.
  rewrite len_take, len_drop, take_drop by lia. split_and!; try done; try (left; lia); try lia; apply Hf.
Qed.

(** Splitting a STREAM frame. If the frame does not fit into [maxSize] bytes,
    the call either reports that nothing fits, or cuts off a frame that fits and
    is the longest that does, and leaves the rest of the data in the receiver:
    the two frames carry the same bytes at the same offsets, only the second can
    have the FIN bit, and both keep the ownership of their pooled buffers. *)
Theorem stream_split_correct pool f maxSize :
  valid f → maxSize ≤ 16384 → DataLen f ≤ len pool → len pool = MaxPacketBufferSize →
  pool_inv f →
  ∃ r, MaybeSplitOffFrame pool f maxSize = Ok r ∧
  match r with
  | (None, false, f') => f' = f ∧ len (bytes f) ≤ maxSize
  | (None, true, f') => f' = f ∧ maxSize < len (bytes f) ∧
      ∀ m, 0 < m → maxSize < 1 + len (header f) + lenField (DataLenPresent f) m + m
  | (Some g, required, f') =>
      required = true ∧ valid g ∧ valid f' ∧ pool_inv g ∧ pool_inv f' ∧
      len (bytes g) ≤ maxSize ∧
      (∀ m, DataLen g < m → maxSize < 1 + len (header f) + lenField (DataLenPresent f) m + m) ∧
      StreamID g = StreamID f ∧ StreamID f' = StreamID f ∧
      Data f = Data g ++ Data f' ∧
      Offset g = Offset f ∧ Offset f' = Offset f + DataLen g ∧
      Fin g = false ∧ Fin f' = Fin f
  end.
Proof.
  intros [Hf Hne] Hmax Hlen Hpool Hinv.
  destruct (split_eq pool f maxSize Hf Hmax Hlen) as (n & -> & Hn0 & Hfit & Hopt).
  rewrite len_bytes.
  zcase; [by eexists|]. zcase; (eexists; split; [done|]); cbv beta iota.
  - split_and!; [done|lia|]. intros m Hm. apply Z.nle_gt. intros ?%Hopt; lia.
  - assert (n < DataLen f) by (apply (split_smaller f n maxSize); lia).
    pose proof (split_at_spec pool f n Hf Hpool Hinv ltac:(lia)) as Hs. revert Hs.
    destruct (split_at pool f n) as [g f']; simpl.
    intros (?&?&?&?&?&?&?&Hg&Hh&Hp&?&?&?&?). split_and!; try done; [..|by rewrite Hg].
    + rewrite len_bytes, Hg, Hh, Hp. lia.
    + intros m Hm. apply Z.nle_gt. intros ?%Hopt; lia.
Qed.

Lemma stream_split_correct_witness :
  let pool := replicate 1452 x00 in
  let f := mk 4 100 (replicate 40 x61) true true false 40 in
  ∃ r, MaybeSplitOffFrame pool f 30 = Ok r ∧
  match r with
  | (None, false, f') => f' = f ∧ len (bytes f) ≤ 30
  | (None, true, f') => f' = f ∧ 30 < len (bytes f) ∧
      ∀ m, 0 < m → 30 < 1 + len (header f) + lenField (DataLenPresent f) m + m
  | (Some g, required, f') =>
      required = true ∧ valid g ∧ valid f' ∧ pool_inv g ∧ pool_inv f' ∧
      len (bytes g) ≤ 30 ∧
      (∀ m, DataLen g < m → 30 < 1 + len (header f) + lenField (DataLenPresent f) m + m) ∧
      StreamID g = StreamID f ∧ StreamID f' = StreamID f ∧
      Data f = Data g ++ Data f' ∧
      Offset g = Offset f ∧ Offset f' = Offset f + DataLen g ∧
      Fin g = false ∧ Fin f' = Fin f
  end.
Proof.
  intros pool f. apply (stream_split_correct pool f 30); vm_compute; intuition discriminate.
Defined.
End StreamFrame.

Module CryptoFrame.
Record t := mk { Offset : Z; Data : list byte }.

Definition parseCryptoFrame (b : list byte) : res (t * Z) :=
  let startLen := len b in
  '(offset, l) ← ParseEOF b;
  b ← slice_from b l;
  '(dataLen, l) ← ParseEOF b;
  b ← slice_from b l;
  if len b <? dataLen then Err io_EOF else
  data ← (if negb (dataLen =? 0) then make_copy dataLen b else Ok []);
  Ok (mk (i64 offset) data, startLen - len b + dataLen).

Definition Append (b : list byte) (f : t) : res (list byte) :=
  let b := b ++ [z2b cryptoFrameType] in
  b ← Varint.Append b (u64 (Offset f));
  b ← Varint.Append b (u64 (len (Data f)));
  Ok (b ++ Data f).

Definition Length (f : t) : res Z :=
  l1 ← Len (u64 (Offset f));
  l2 ← Len (u64 (len (Data f)));
  Ok (1 + l1 + l2 + len (Data f)).

Definition MaxDataLen (f : t) (maxSize : Z) : res Z :=
  l1 ← Len (u64 (Offset f));
  let headerLen := 1 + l1 + 1 in
  fitDataLen true headerLen maxSize.

Definition MaybeSplitOffFrame (f : t) (maxSize : Z) : res (option t * bool * t) :=
  l ← Length f;
  if l <=? maxSize then Ok (None, false, f) else
  n ← MaxDataLen f maxSize;
  if n =? 0 then Ok (None, true, f) else
  let newLen := len (Data f) - n in
  let newData := Data f in
  rest ← slice_from newData n;
  fData ← make_copy newLen rest;
  newData ← slice_to newData n;
  Ok (Some (mk (Offset f) newData), true, mk (i64 (Offset f + n)) fData).

(** A received frame has an offset and a length that are varints; the crypto
    stream checks the sum when it handles the frame. *)
Definition valid (f : t) : Prop := is_varint (Offset f) ∧ is_varint (len (Data f)).
Definition body (f : t) : list byte :=
  venc (Offset f) ++ venc (len (Data f)) ++ Data f.
Definition bytes (f : t) : list byte := encode cryptoFrameType (body f).

Lemma crypto_parse_body f rest :
  valid f → parseCryptoFrame (body f ++ rest) = Ok (f, len (body f)).
Proof.
  destruct f as [off d]. unfold body, valid. simpl. intros (?&?).
  unfold parseCryptoFrame. rewrite <-!app_assoc. wrun. zcase; [len_lia|].
  destruct (Z.eqb_spec (len d) 0) as [Hd|]; cbn [negb].
  - apply len_0_nil in Hd as ->. wrun. do 2 f_equal. autorewrite with quic. lia.
  - rewrite make_copy_prefix by done. wrun. do 2 f_equal. autorewrite with quic. lia.
Qed.

Lemma crypto_wp_parse b : wp (parseCryptoFrame b) (λ '(f, l), valid f ∧ 0 < l ≤ len b).
Proof.
  unfold parseCryptoFrame. wprun; cbn [negb]; unfold valid.
  - wprun. simpl. rewrite i64_varint by done. unfold is_varint in *.
    change (len []) with 0. unfold maxVarInt8 in *. lia.
  - apply wp_make_copy; [unfold is_varint in *; lia|]. intros d _ Hd. simpl.
    rewrite i64_varint by done. unfold is_varint in *. lia.
Qed.

#[global] Instance crypto_frame : Frame t :=
  {| frame_append := Append; frame_length := Length |}.
#[global, refine] Instance crypto_laws : FrameLaws t :=
  {| frame_valid := valid; frame_typ _ := cryptoFrameType; frame_body := body |}.
Proof.
  - solve_typ.
  - intros b [] (?&?). simpl in *. unfold Append, encode, body. simpl. wrun.
    by rewrite <-!app_assoc.
  - intros [] (?&?). simpl in *. unfold Length, encode, body. simpl. wrun.
    f_equal. autorewrite with quic. lia.
Defined.

(** A CRYPTO frame that is too long is cut into one that fits, the longest that
    does, and the rest. *)
Lemma crypto_split f maxSize :
  valid f → Offset f + len (Data f) ≤ MaxByteCount → maxSize ≤ 16384 →
  ∃ r, MaybeSplitOffFrame f maxSize = Ok r ∧
  match r with
  | (None, false, f') => f' = f ∧ len (bytes f) ≤ maxSize
  | (None, true, f') => f' = f ∧ maxSize < len (bytes f) ∧
      ∀ m, 0 < m → maxSize < 1 + vlen (Offset f) + vlen m + m
  | (Some g, required, f') =>
      required = true ∧ valid g ∧ valid f' ∧ len (bytes g) ≤ maxSize ∧
      0 < len (Data g) ∧ 0 < len (Data f') ∧
      (∀ m, len (Data g) < m → maxSize < 1 + vlen (Offset f) + vlen m + m) ∧
      Data f = Data g ++ Data f' ∧
      Offset g = Offset f ∧ Offset f' = Offset f + len (Data g)
  end.
Proof.
  intros [Ho Hd] Hsum Hmax. pose proof (vlen_pos (Offset f)).
  destruct (fitDataLen_spec true (1 + vlen (Offset f)) maxSize) as (n&Hn&Hn0&Hfit&Hopt);
    [lia|done|]. simpl in *.
  assert (∀ g, len (bytes g) = 1 + vlen (Offset g) + vlen (len (Data g)) + len (Data g)) as Hlen.
  { intros g. unfold bytes, encode, body. autorewrite with quic. lia. }
  unfold MaybeSplitOffFrame, Length, MaxDataLen. wrun. zcase.
  { eexists; split; [done|]. simpl. split; [done|]. rewrite Hlen. lia. }
  rewrite Hn. cbn [mbind result_bind]. zcase.
  { eexists; split; [done|]. simpl. rewrite Hlen. split_and!; [done|lia|].
    intros m Hm. apply Z.nle_gt. intros ?%Hopt; lia. }
  assert (n < len (Data f)).
  { pose proof (vlen_mono (len (Data f)) n). lia. }
  unfold slice_from, slice_to, MaxByteCount, is_varint, maxVarInt8 in *. repeat zcase.
  cbn [mbind result_bind]. rewrite (i64_small (Offset f + n)) by lia.
  rewrite <-(app_nil_r (drop _ _)), make_copy_prefix by (rewrite len_drop; lia).
  eexists; split; [done|]. cbv beta iota. rewrite Hlen. unfold valid, is_varint, maxVarInt8.
  simpl. rewrite len_take, len_drop, take_drop by lia. split_and!; try done; try lia.
  intros m Hm. apply Z.nle_gt. intros ?%Hopt; lia.
Qed.

(** From 16 KiB on the length field takes four bytes and [MaxDataLen], which
    counts two, is larger than the frame: the split panics. *)
Lemma crypto_split_panics :
  MaybeSplitOffFrame (mk 0 (replicate (Z.to_nat 16384) x00)) 16389 = Panic.
Proof. vm_compute. reflexivity. Qed.
End CryptoFrame.

Module DatagramFrame.
Record t := mk { DataLenPresent : bool; Data : list byte }.

Definition parseDatagramFrame (b : list byte) (typ : Z) : res (t * Z) :=
  let startLen := len b in
  let lenPresent := 0 <? Z.land typ 1 in
  '(length, b) ←
    (if lenPresent then
       '(length, l) ← ParseEOF b;
       b ← slice_from b l;
       if len b <? length then Err io_EOF else Ok (length, b)
     else Ok (len b, b));
  data ← slice_to b length;
  Ok (mk lenPresent data, startLen - len b + length).

Definition typ (f : t) : Z := if DataLenPresent f then Z.lxor 0x30 1 else 0x30.

Definition Append (b : list byte) (f : t) : res (list byte) :=
  let b := b ++ [z2b (typ f)] in
  b ← (if DataLenPresent f then Varint.Append b (u64 (len (Data f))) else Ok b);
  Ok (b ++ Data f).

Definition MaxDataLen (f : t) (maxSize : Z) : res Z :=
  let headerLen := 1 in
  let headerLen := if DataLenPresent f then headerLen + 1 else headerLen in
  fitDataLen (DataLenPresent f) headerLen maxSize.

Definition Length (f : t) : res Z :=
  let length := 1 + len (Data f) in
  if DataLenPresent f then
    l ← Len (u64 (len (Data f)));
    Ok (length + l)
  else Ok length.

Definition valid (f : t) : Prop := is_varint (len (Data f)).
Definition body (f : t) : list byte :=
  (if DataLenPresent f then venc (len (Data f)) else []) ++ Data f.
Definition bytes (f : t) : list byte := encode (typ f) (body f).

Lemma datagram_typ_flag f : (0 <? Z.land (typ f) 1) = DataLenPresent f.
Proof. unfold typ. by destruct (DataLenPresent f). Qed.

Lemma datagram_parse_body f rest :
  valid f → DataLenPresent f = true ∨ rest = [] →
  parseDatagramFrame (body f ++ rest) (typ f) = Ok (f, len (body f)).
Proof.
  unfold parseDatagramFrame. rewrite datagram_typ_flag.
  destruct f as [p d]. unfold body, valid. simpl. intros ? Hrest. destruct p.
  - rewrite <-!app_assoc. wrun. zcase; [len_lia|]. wrun.
    rewrite slice_to_app by done. wrun. do 2 f_equal. autorewrite with quic. lia.
  - destruct Hrest as [? | ->]; [done|]. simpl. rewrite app_nil_r. wrun.
    rewrite slice_to_all by done. wrun. do 2 f_equal. lia.
Qed.

Lemma datagram_wp_parse b ty :
  wp (parseDatagramFrame b ty) (λ '(f, l), len (Data f) ≤ l ∧ 0 ≤ l ≤ len b).
Proof.
  unfold parseDatagramFrame.
  apply wp_bind, wp_mono with (Q := λ '(dl, b1), 0 ≤ dl ≤ len b1 ∧ len b1 ≤ len b).
  { wprun; simpl; unfold is_varint in *; len_lia. }
  intros [dl b1] [Hdl Hb1]. apply wp_bind, wp_slice_to; [lia|]. intros d Hd _.
  simpl. lia.
Qed.

#[global] Instance datagram_frame : Frame t :=
  {| frame_append := Append; frame_length := Length |}.
#[global, refine] Instance datagram_laws : FrameLaws t :=
  {| frame_valid := valid; frame_typ := typ; frame_body := body |}.
Proof.
  - solve_typ.
  - intros b [[] d] Hd; unfold valid in Hd; simpl in *; unfold Append, encode, body; simpl;
      wrun; by rewrite <-?app_assoc.
  - intros [[] d] Hd; unfold valid in Hd; simpl in *; unfold Length, encode, body; simpl;
      wrun; f_equal; autorewrite with quic; lia.
Defined.

Lemma datagram_max_data_len f maxSize :
  maxSize ≤ 16384 →
  ∃ n, MaxDataLen f maxSize = Ok n ∧ 0 ≤ n ∧
    (0 < n → 1 + lenField (DataLenPresent f) n + n ≤ maxSize) ∧
    (∀ m, 0 ≤ m → 1 + lenField (DataLenPresent f) m + m ≤ maxSize → m ≤ n).
Proof.
  intros Hmax. destruct (fitDataLen_spec (DataLenPresent f) 1 maxSize) as (n&Hn&?); [done..|].
  exists n. split; [|done]. rewrite <-Hn. unfold MaxDataLen. by destruct (DataLenPresent f).
Qed.
End DatagramFrame.
