(* ===== verification/AckFrame.v ===== *)
(** * ACK frames (internal/wire/ack_frame.go, ack_range.go)

    The frame, its parser and serializer, the checks on its ranges and the
    lookup of a packet number; [sort.Search] of the standard library, which the
    lookup uses, is written out. *)

From S2P Require Import Prelude Varint Protocol Wire.

(** ** [sort.Search]

    [Search n f] runs [for i < j] with at most [n] iterations, since [j - i]
    shrinks in each; [f] can panic. *)
Section search.
Context {E : Type}.

Fixpoint Search_loop (fuel : nat) (f : Z → result E bool) (i j : Z) : result E Z :=
  if i <? j then
    match fuel with
    | O => Panic
    | S fuel =>
        let h := Z.shiftr (i + j) 1 in
        r ← f h;
        if negb r then Search_loop fuel f (h + 1) j else Search_loop fuel f i h
    end
  else Ok i.

Definition Search (n : Z) (f : Z → result E bool) : result E Z :=
  Search_loop (Z.to_nat n) f 0 n.

(** The least index from which on a monotone predicate holds. *)
Lemma Search_loop_spec (p : Z → bool) (f : Z → result E bool) fuel i j n :
  (∀ k, 0 ≤ k < n → f k = Ok (p k)) →
  0 ≤ i ≤ j → j ≤ n → (Z.to_nat (j - i) ≤ fuel)%nat →
  (∀ k l, 0 ≤ k ≤ l → l < n → p k = true → p l = true) →
  (∀ k, 0 ≤ k < i → p k = false) → (∀ k, j ≤ k < n → p k = true) →
  ∃ r, Search_loop fuel f i j = Ok r ∧ 0 ≤ r ≤ n ∧
    (∀ k, 0 ≤ k < r → p k = false) ∧ (∀ k, r ≤ k < n → p k = true).
Proof.
  intros Hf. revert i j. induction fuel as [|fuel IH]; intros i j Hi Hj Hfuel Hmono Hlo Hhi.
  - cbn [Search_loop]. zcase. exists i. split_and!; try done; try lia. intros. apply Hhi. lia.
  - cbn [Search_loop]. zcase.
    + rewrite Z.shiftr_div_pow2 by lia. change (2 ^ 1) with 2.
      assert (i ≤ (i + j) / 2 < j) as Hh by (split; [apply Z.div_le_lower_bound
        |apply Z.div_lt_upper_bound]; lia).
      set (h := (i + j) / 2) in *. clearbody h. rewrite Hf by lia. cbn [mbind result_bind].
      destruct (p h) eqn:Hp; cbn [negb]; apply IH; try done; try lia.
      * intros k Hk. apply (Hmono h k); [lia..|done].
      * intros k Hk. destruct (p k) eqn:Hpk; [|done].
        rewrite <-Hp. symmetry. apply (Hmono k h); [lia..|done].
    + exists i. split_and!; try done; try lia. intros. apply Hhi. lia.
Qed.

Lemma Search_spec (p : Z → bool) (f : Z → result E bool) n :
  0 ≤ n → (∀ k, 0 ≤ k < n → f k = Ok (p k)) →
  (∀ k l, 0 ≤ k ≤ l → l < n → p k = true → p l = true) →
  ∃ r, Search n f = Ok r ∧ 0 ≤ r ≤ n ∧
    (∀ k, 0 ≤ k < r → p k = false) ∧ (∀ k, r ≤ k < n → p k = true).
Proof. intros. apply (Search_loop_spec p); try done; lia. Qed.
End search.

(** ** The frame *)
Record AckRange := mkAckRange { Smallest : Z; Largest : Z }.

#[global] Instance ack_range_eq_dec : EqDecision AckRange.
Proof. solve_decision. Defined.

Definition AckRange_Len (r : AckRange) : Z := Largest r - Smallest r + 1.

Module AckFrame.
(** [DelayTime] is a [time.Duration], in nanoseconds. *)
Record t := mk {
  AckRanges : list AckRange;
  DelayTime : Z;
  ECT0 : Z;
  ECT1 : Z;
  ECNCE : Z;
}.

(** *** Queries *)
Definition LargestAcked (f : t) : res Z :=
  r ← idx (AckRanges f) 0;
  Ok (Largest r).

Definition LowestAcked (f : t) : res Z :=
  r ← idx (AckRanges f) (len (AckRanges f) - 1);
  Ok (Smallest r).

Definition HasMissingRanges (f : t) : bool := 1 <? len (AckRanges f).

Definition AcksPacket (f : t) (p : Z) : res bool :=
  low ← LowestAcked f;
  large ← LargestAcked f;
  if (p <? low) || (large <? p) then Ok false else
  i ← Search (len (AckRanges f)) (λ i, r ← idx (AckRanges f) i; Ok (Smallest r <=? p));
  r ← idx (AckRanges f) i;
  Ok (p <=? Largest r).

(** The loop of [validateAckRanges] that compares each range with the previous
    one. *)
Fixpoint consistentRanges (last : AckRange) (rs : list AckRange) : bool :=
  match rs with
  | [] => true
  | r :: rs =>
      if Smallest last <=? Smallest r then false else
      if Smallest last <=? Largest r + 1 then false else
      consistentRanges r rs
  end.

Definition validateAckRanges (f : t) : bool :=
  match AckRanges f with
  | [] => false
  | r :: rs =>
      forallb (λ r, negb (Largest r <? Smallest r)) (r :: rs) && consistentRanges r rs
  end.

(** [Reset]: the loop that zeroes the ranges works on copies. *)
Definition Reset (f : t) : t := mk [] 0 0 0 0.

(** *** Serializing *)
Definition encodeAckDelay (delay : Z) : Z := u64 (Z.quot delay (1000 * Z.shiftl 1 AckDelayExponent)).

Definition encodeAckRange (f : t) (i : Z) : res (Z * Z) :=
  if i =? 0 then
    r ← idx (AckRanges f) 0;
    Ok (0, u64 (Largest r - Smallest r))
  else
    prev ← idx (AckRanges f) (i - 1);
    r ← idx (AckRanges f) i;
    Ok (u64 (Smallest prev - Largest r - 2), u64 (Largest r - Smallest r)).

(** [for i := ...; i < len(f.AckRanges); i++], [n] iterations left. *)
Fixpoint countEncodable (n : nat) (f : t) (i length : Z) : res Z :=
  match n with
  | O => Ok (len (AckRanges f))
  | S n =>
      '(gap, rlen) ← encodeAckRange f i;
      l1 ← Len gap;
      l2 ← Len rlen;
      let rangeLen := l1 + l2 in
      if MaxAckFrameSize <? length + rangeLen then Ok (i - 1)
      else countEncodable n f (i + 1) (length + rangeLen)
  end.

Definition numEncodableAckRanges (f : t) : res Z :=
  la ← LargestAcked f;
  l1 ← Len (u64 la);
  l2 ← Len (encodeAckDelay (DelayTime f));
  let length := 1 + l1 + l2 in
  let length := length + 2 in
  countEncodable (Nat.pred (List.length (AckRanges f))) f 1 length.

Definition hasECN (f : t) : bool := (0 <? ECT0 f) || (0 <? ECT1 f) || (0 <? ECNCE f).

(** [for i := 1; i < numRanges; i++] of [Append], [n] iterations left. *)
Fixpoint appendRanges (n : nat) (f : t) (i : Z) (b : list byte) : res (list byte) :=
  match n with
  | O => Ok b
  | S n =>
      '(gap, rlen) ← encodeAckRange f i;
      b ← Varint.Append b gap;
      b ← Varint.Append b rlen;
      appendRanges n f (i + 1) b
  end.

Definition Append (b : list byte) (f : t) : res (list byte) :=
  let b := b ++ [z2b (if hasECN f then ackECNFrameType else ackFrameType)] in
  la ← LargestAcked f;
  b ← Varint.Append b (u64 la);
  b ← Varint.Append b (encodeAckDelay (DelayTime f));
  numRanges ← numEncodableAckRanges f;
  b ← Varint.Append b (u64 (numRanges - 1));
  '(_, firstRange) ← encodeAckRange f 0;
  b ← Varint.Append b firstRange;
  b ← appendRanges (Z.to_nat (numRanges - 1)) f 1 b;
  if hasECN f then
    b ← Varint.Append b (ECT0 f);
    b ← Varint.Append b (ECT1 f);
    Varint.Append b (ECNCE f)
  else Ok b.

(** [for i := 1; i < numRanges; i++] of [Length], [n] iterations left. *)
Fixpoint lengthRanges (n : nat) (f : t) (i length : Z) : res Z :=
  match n with
  | O => Ok length
  | S n =>
      '(gap, rlen) ← encodeAckRange f i;
      l1 ← Len gap;
      l2 ← Len rlen;
      lengthRanges n f (i + 1) (length + l1 + l2)
  end.

Definition Length (f : t) : res Z :=
  r0 ← idx (AckRanges f) 0;
  let largestAcked := Largest r0 in
  numRanges ← numEncodableAckRanges f;
  l1 ← Len (u64 largestAcked);
  l2 ← Len (encodeAckDelay (DelayTime f));
  let length := 1 + l1 + l2 in
  l3 ← Len (u64 (numRanges - 1));
  let length := length + l3 in
  let lowestInFirstRange := Smallest r0 in
  l4 ← Len (u64 (largestAcked - lowestInFirstRange));
  let length := length + l4 in
  length ← lengthRanges (Z.to_nat (numRanges - 1)) f 1 length;
  if hasECN f then
    l5 ← Len (ECT0 f);
    l6 ← Len (ECT1 f);
    l7 ← Len (ECNCE f);
    Ok (length + l5 + l6 + l7)
  else Ok length.

(** *** Parsing *)
Definition ackDelay (delay ackDelayExponent : Z) : Z :=
  let delayTime := i64 (i64 (u64 (Z.shiftl (u64 (delay * 1)) ackDelayExponent)) * Microsecond) in
  if delayTime <? 0 then 2 ^ 63 - 1 else delayTime.

(** [for i := 0; i < numBlocks; i++]: each iteration reads from [b], whose
    length is the fuel. *)
Fixpoint readRanges (fuel : nat) (numBlocks : Z) (b : list byte) (smallest : Z)
    (ranges : list AckRange) : res (list AckRange * list byte) :=
  if numBlocks <=? 0 then Ok (ranges, b) else
  match fuel with
  | O => Panic
  | S fuel =>
      '(g, l) ← ParseEOF b;
      b ← slice_from b l;
      let gap := i64 g in
      if smallest <? i64 (gap + 2) then Err errInvalidAckRanges else
      let largest := i64 (smallest - gap - 2) in
      '(ab, l) ← ParseEOF b;
      b ← slice_from b l;
      let ackBlock := i64 ab in
      if largest <? ackBlock then Err errInvalidAckRanges else
      let smallest := i64 (largest - ackBlock) in
      readRanges fuel (numBlocks - 1) b smallest (ranges ++ [mkAckRange smallest largest])
  end.

(** The frame is filled in place; the caller has [Reset] it. *)
Definition parseAckFrame (frame : t) (b : list byte) (typ ackDelayExponent : Z) : res (Z * t) :=
  let startLen := len b in
  let ecn := typ =? ackECNFrameType in
  '(la, l) ← ParseEOF b;
  b ← slice_from b l;
  let largestAcked := i64 la in
  '(delay, l) ← ParseEOF b;
  b ← slice_from b l;
  let delayTime := ackDelay delay ackDelayExponent in
  '(numBlocks, l) ← ParseEOF b;
  b ← slice_from b l;
  '(ab, l) ← ParseEOF b;
  b ← slice_from b l;
  let ackBlock := i64 ab in
  if largestAcked <? ackBlock then Err (ErrorString "invalid first ACK range" []) else
  let smallest := i64 (largestAcked - ackBlock) in
  let ranges := AckRanges frame ++ [mkAckRange smallest largestAcked] in
  '(ranges, b) ← readRanges (length b + 1) numBlocks b smallest ranges;
  let frame := mk ranges delayTime (ECT0 frame) (ECT1 frame) (ECNCE frame) in
  if negb (validateAckRanges frame) then Err errInvalidAckRanges else
  if ecn then
    '(ect0, l) ← ParseEOF b;
    b ← slice_from b l;
    '(ect1, l) ← ParseEOF b;
    b ← slice_from b l;
    '(ecnce, l) ← ParseEOF b;
    b ← slice_from b l;
    Ok (startLen - len b, mk ranges delayTime ect0 ect1 ecnce)
  else Ok (startLen - len b, frame).

(** *** Specification

    The ranges of a frame are in descending order, with at least one packet
    number between two of them. *)
Fixpoint ranges_below (s : Z) (rs : list AckRange) : Prop :=
  match rs with
  | [] => True
  | r :: rs => 0 ≤ Smallest r ≤ Largest r ∧ Largest r + 2 ≤ s ∧ ranges_below (Smallest r) rs
  end.

Definition ranges_ok (rs : list AckRange) : Prop :=
  match rs with
  | [] => False
  | r :: rs => 0 ≤ Smallest r ≤ Largest r ∧ Largest r ≤ maxVarInt8 ∧
               ranges_below (Smallest r) rs
  end.

Definition valid (f : t) : Prop :=
  ranges_ok (AckRanges f) ∧ 0 ≤ DelayTime f < 2 ^ 63 ∧
  is_varint (ECT0 f) ∧ is_varint (ECT1 f) ∧ is_varint (ECNCE f).

(** The packet numbers that a frame acknowledges. *)
Definition acked (rs : list AckRange) (p : Z) : Prop :=
  ∃ r, r ∈ rs ∧ Smallest r ≤ p ≤ Largest r.

Fixpoint ranges_bytes (s : Z) (rs : list AckRange) : list byte :=
  match rs with
  | [] => []
  | r :: rs =>
      venc (s - Largest r - 2) ++ venc (Largest r - Smallest r) ++ ranges_bytes (Smallest r) rs
  end.

Definition typ (f : t) : Z := if hasECN f then ackECNFrameType else ackFrameType.

(** The number of ranges that are written, and the frame that the peer sees: it
    has these ranges, and a delay that is a multiple of 8 microseconds. *)
Definition encodable (f : t) : Z :=
  match numEncodableAckRanges f with Ok n => n | _ => 0 end.

Definition received (f : t) : t :=
  mk (take (Z.to_nat (encodable f)) (AckRanges f)) (8000 * (DelayTime f / 8000))
     (ECT0 f) (ECT1 f) (ECNCE f).

Definition ecn_bytes (f : t) : list byte :=
  if hasECN f then venc (ECT0 f) ++ venc (ECT1 f) ++ venc (ECNCE f) else [].

Definition body (f : t) : list byte :=
  match AckRanges f with
  | [] => []
  | r :: rs =>
      venc (Largest r) ++ venc (DelayTime f / 8000) ++ venc (encodable f - 1) ++
      venc (Largest r - Smallest r) ++
      ranges_bytes (Smallest r) (take (Z.to_nat (encodable f - 1)) rs) ++ ecn_bytes f
  end.
Definition bytes (f : t) : list byte := encode (typ f) (body f).

(** *** Ranges *)
Lemma ranges_below_head r rs s :
  ranges_below s (r :: rs) → s ≤ maxVarInt8 →
  is_varint (s - Largest r - 2) ∧ is_varint (Largest r - Smallest r) ∧
  ranges_below (Smallest r) rs ∧ Smallest r ≤ maxVarInt8.
Proof. simpl. unfold is_varint, maxVarInt8. intros. split_and!; try lia. naive_solver. Qed.

Lemma ranges_below_take n s rs : ranges_below s rs → ranges_below s (take n rs).
Proof.
  revert s n. induction rs as [|r rs IH]; intros s [|n]; simpl; try done.
  intros (?&?&?). auto.
Qed.

Lemma ranges_below_weaken s s' rs : s ≤ s' → ranges_below s rs → ranges_below s' rs.
Proof. destruct rs; simpl; [done|]. intuition lia. Qed.

Lemma ranges_below_elem s rs r :
  ranges_below s rs → r ∈ rs → 0 ≤ Smallest r ≤ Largest r ∧ Largest r + 2 ≤ s.
Proof.
  revert s. induction rs as [|r' rs IH]; intros s; [by intros _ ?%not_elem_of_nil|].
  simpl. intros (?&?&Hrs) [->|Hr]%elem_of_cons; [lia|].
  specialize (IH _ Hrs Hr). lia.
Qed.

Lemma ranges_below_app s pre r rs :
  ranges_below s (pre ++ r :: rs) → ranges_below (Smallest r) rs ∧ 0 ≤ Smallest r ≤ Largest r.
Proof.
  revert s. induction pre as [|r' pre IH]; intros s; simpl; [tauto|].
  intros (_&_&H). by apply IH in H.
Qed.

Lemma ranges_ok_below rs : ranges_ok rs ↔ rs ≠ [] ∧ ranges_below (maxVarInt8 + 2) rs.
Proof. destruct rs as [|r rs]; simpl; [naive_solver|]. split.
  - intros (?&?&?). split_and!; [done|lia..|done].
  - intros (_&?&?&?). split_and!; [lia..|done].
Qed.

(** The check that the parser makes at the end is the specification. *)
Lemma consistentRanges_spec last rs :
  0 ≤ Smallest last →
  Forall (λ r, 0 ≤ Smallest r) rs →
  forallb (λ r, negb (Largest r <? Smallest r)) rs && consistentRanges last rs = true ↔
  ranges_below (Smallest last) rs.
Proof.
  revert last. induction rs as [|r rs IH]; intros last Hlast Hrs; [done|].
  apply Forall_cons in Hrs as [Hr Hrs]. specialize (IH r Hr Hrs).
  rewrite andb_true_iff in IH. cbn [forallb consistentRanges ranges_below].
  rewrite !andb_true_iff, negb_true_iff, Z.ltb_ge.
  split.
  - intros [[? ?] Hc]. do 2 zcase_in Hc. split_and!; try lia. by apply IH.
  - intros (?&?&[? ?]%IH). repeat zcase. split_and!; try lia; done.
Qed.

Lemma validateAckRanges_spec f :
  Forall (λ r, 0 ≤ Smallest r ∧ Largest r ≤ maxVarInt8) (AckRanges f) →
  validateAckRanges f = true ↔ ranges_ok (AckRanges f).
Proof.
  unfold validateAckRanges, ranges_ok. destruct (AckRanges f) as [|r rs]; [done|].
  intros [Hr Hrs]%Forall_cons. rewrite <-(consistentRanges_spec r rs).
  - cbn [forallb]. rewrite !andb_true_iff, negb_true_iff, Z.ltb_ge. intuition lia.
  - lia.
  - eapply Forall_impl; [done|]. naive_solver.
Qed.

(** *** Serializing *)
Lemma encode_at f pre prev r rs i :
  AckRanges f = pre ++ prev :: r :: rs → i = len pre + 1 →
  ranges_below (Smallest prev) (r :: rs) → Smallest prev ≤ maxVarInt8 →
  encodeAckRange f i = Ok (Smallest prev - Largest r - 2, Largest r - Smallest r).
Proof.
  intros Hf -> Hb Hprev. apply ranges_below_head in Hb as (?&?&_); [|done].
  unfold encodeAckRange. rewrite Hf. zcase; [len_lia|].
  rewrite (idx_middle _ _ _ (len pre + 1 - 1)) by lia. cbn [mbind result_bind].
  rewrite (cons_middle prev pre), app_assoc, idx_middle by (rewrite len_app; done).
  cbn [mbind result_bind]. by rewrite !u64_varint by done.
Qed.

Lemma len_ranges_bytes s r rs :
  len (ranges_bytes s (r :: rs)) =
  vlen (s - Largest r - 2) + vlen (Largest r - Smallest r) + len (ranges_bytes (Smallest r) rs).
Proof. cbn [ranges_bytes]. autorewrite with quic. lia. Qed.

Lemma len_ranges_bytes_ge s rs : 2 * len rs ≤ len (ranges_bytes s rs).
Proof.
  revert s. induction rs as [|r rs IH]; intros s; [done|]. rewrite len_ranges_bytes, len_cons.
  specialize (IH (Smallest r)). pose proof (vlen_pos (s - Largest r - 2)).
  pose proof (vlen_pos (Largest r - Smallest r)). lia.
Qed.

(** Moves the position of the loops over the ranges by one. *)
Lemma ranges_shift {A} (pre : list A) prev r rs l :
  l = pre ++ prev :: r :: rs → l = (pre ++ [prev]) ++ r :: rs.
Proof. intros ->. by rewrite <-app_assoc. Qed.

Section range_loops.
Context (f : t).

Lemma appendRanges_eq n pre prev rs i b :
  AckRanges f = pre ++ prev :: rs → i = len pre + 1 → (n ≤ length rs)%nat →
  ranges_below (Smallest prev) rs → Smallest prev ≤ maxVarInt8 →
  appendRanges n f i b = Ok (b ++ ranges_bytes (Smallest prev) (take n rs)).
Proof.
  revert pre prev rs i b. induction n as [|n IH]; intros pre prev rs i b Hf Hi Hn Hb Hs.
  { simpl. by rewrite app_nil_r. }
  destruct rs as [|r rs]; [simpl in Hn; lia|]. cbn [appendRanges].
  rewrite (encode_at f pre prev r rs) by done. cbn [mbind result_bind].
  apply ranges_below_head in Hb as (?&?&?&?); [|done]. wrun.
  rewrite (IH (pre ++ [prev]) r rs) by (first [by apply ranges_shift|len_lia|done|simpl in *; lia]).
  cbn [take ranges_bytes]. by rewrite <-!app_assoc.
Qed.

Lemma lengthRanges_eq n pre prev rs i L :
  AckRanges f = pre ++ prev :: rs → i = len pre + 1 → (n ≤ length rs)%nat →
  ranges_below (Smallest prev) rs → Smallest prev ≤ maxVarInt8 →
  lengthRanges n f i L = Ok (L + len (ranges_bytes (Smallest prev) (take n rs))).
Proof.
  revert pre prev rs i L. induction n as [|n IH]; intros pre prev rs i L Hf Hi Hn Hb Hs.
  { simpl. rewrite len_nil. f_equal. lia. }
  destruct rs as [|r rs]; [simpl in Hn; lia|]. cbn [lengthRanges].
  rewrite (encode_at f pre prev r rs) by done. cbn [mbind result_bind].
  apply ranges_below_head in Hb as (?&?&?&?); [|done]. wrun.
  rewrite (IH (pre ++ [prev]) r rs) by (first [by apply ranges_shift|len_lia|done|simpl in *; lia]).
  cbn [take]. rewrite len_ranges_bytes. f_equal. lia.
Qed.

(** The number of ranges that fit: the written ones stay below the limit, and
    all of them are written if they fit. *)
Lemma countEncodable_eq pre prev rs i L :
  AckRanges f = pre ++ prev :: rs → i = len pre + 1 →
  ranges_below (Smallest prev) rs → Smallest prev ≤ maxVarInt8 → L ≤ MaxAckFrameSize →
  ∃ k, countEncodable (length rs) f i L = Ok k ∧ i - 1 ≤ k ≤ len (AckRanges f) ∧
    (L + 16 ≤ MaxAckFrameSize → i ≤ k) ∧
    L + len (ranges_bytes (Smallest prev) (take (Z.to_nat (k - i)) rs)) ≤ MaxAckFrameSize ∧
    (L + 16 * len rs ≤ MaxAckFrameSize → k = len (AckRanges f)).
Proof.
  revert pre prev i L. induction rs as [|r rs IH]; intros pre prev i L Hf Hi Hb Hs HL.
  { exists (len (AckRanges f)). split; [done|]. rewrite Hf, take_nil. simpl.
    split_and!; try done; len_lia. }
  cbn [length countEncodable].
  rewrite (encode_at f pre prev r rs) by done. cbn [mbind result_bind].
  apply ranges_below_head in Hb as (?&?&?&?); [|done]. wrun.
  pose proof (vlen_pos (Smallest prev - Largest r - 2)).
  pose proof (vlen_pos (Largest r - Smallest r)). zcase.
  - exists (i - 1). replace (Z.to_nat (i - 1 - i)) with 0%nat by lia. simpl.
    rewrite Hf. split_and!; try done; len_lia.
  - destruct (IH (pre ++ [prev]) r (i + 1) (L +
      (vlen (Smallest prev - Largest r - 2) + vlen (Largest r - Smallest r))))
      as (k&->&Hk&Hk1&Hfit&Hall); [by apply ranges_shift|len_lia|done|done|lia|].
    exists k. split_and!; try done; try lia; [|len_lia].
    destruct (decide (i + 1 ≤ k)).
    + replace (Z.to_nat (k - i)) with (S (Z.to_nat (k - (i + 1)))) by lia.
      cbn [take]. rewrite len_ranges_bytes. lia.
    + replace (Z.to_nat (k - i)) with 0%nat by lia. simpl. rewrite len_nil. lia.
Qed.
End range_loops.

Lemma encodeAckDelay_eq d : 0 ≤ d < 2 ^ 63 → encodeAckDelay d = d / 8000 ∧ is_varint (d / 8000).
Proof.
  intros Hd. unfold encodeAckDelay, AckDelayExponent. change (1000 * Z.shiftl 1 3) with 8000.
  rewrite Z.quot_div_nonneg by lia. unfold is_varint, maxVarInt8.
  rewrite u64_small; dmlia.
Qed.

(** At least one range is written, the ranges written stay within the limit and
    up to 61 ranges are always written. *)
Lemma numEncodable_eq f r rs :
  valid f → AckRanges f = r :: rs →
  numEncodableAckRanges f = Ok (encodable f) ∧
  1 ≤ encodable f ≤ len (AckRanges f) ∧ is_varint (encodable f - 1) ∧
  1 + vlen (Largest r) + vlen (DelayTime f / 8000) + 2 +
    len (ranges_bytes (Smallest r) (take (Z.to_nat (encodable f - 1)) rs)) ≤ MaxAckFrameSize ∧
  (len (AckRanges f) ≤ 61 → encodable f = len (AckRanges f)).
Proof.
  intros (Hok&Hd&_) Hf. rewrite Hf in Hok. destruct Hok as (?&?&Hb).
  destruct (encodeAckDelay_eq _ Hd) as [Hde Hdv].
  unfold encodable, numEncodableAckRanges, LargestAcked. rewrite Hde, Hf, idx_cons_0. wrun.
  assert (is_varint (Largest r)) by (unfold is_varint; lia). wrun.
  pose proof (vlen_pos (Largest r)). pose proof (vlen_pos (DelayTime f / 8000)).
  cbn [length Nat.pred].
  destruct (countEncodable_eq f [] r rs 1
    (1 + vlen (Largest r) + vlen (DelayTime f / 8000) + 2))
    as (k&->&Hk&Hk1&Hfit&Hall); [done|done|done|lia|unfold MaxAckFrameSize; lia|].
  unfold MaxAckFrameSize in *. rewrite Hf in *. specialize (Hk1 ltac:(lia)).
  split_and!; try done; try lia; try (intros; apply Hall; len_lia).
  unfold is_varint, maxVarInt8. pose proof (len_ranges_bytes_ge (Smallest r)
    (take (Z.to_nat (k - 1)) rs)) as Hge. rewrite len_take in Hge by len_lia. lia.
Qed.

#[global] Instance ack_frame : Frame t :=
  {| frame_append := Append; frame_length := Length |}.

Lemma ack_append b f : valid f → Append b f = Ok (b ++ bytes f).
Proof.
  intros Hv. pose proof Hv as (Hok&Hd&?&?&?).
  destruct (AckRanges f) as [|r rs] eqn:Hf; [done|]. destruct Hok as (?&?&Hb).
  destruct (numEncodable_eq f r rs Hv Hf) as (Hnum&Hk&Hkv&_).
  destruct (encodeAckDelay_eq _ Hd) as [Hde Hdv].
  unfold Append, bytes, encode, body, typ, ecn_bytes, LargestAcked, encodeAckRange.
  rewrite Hnum, Hde, Hf, idx_cons_0. cbn [Z.eqb].
  assert (is_varint (Largest r)) by (unfold is_varint; lia).
  assert (is_varint (Largest r - Smallest r)) by (unfold is_varint in *; lia). wrun.
  rewrite (appendRanges_eq f _ [] r rs); [| | | |done|lia]; [|done|done|].
  - destruct (hasECN f); wrun; by rewrite <-!app_assoc, ?app_nil_r.
  - rewrite Hf in Hk. unfold len in Hk. simpl in Hk. lia.
Qed.

Lemma ack_length f : valid f → Length f = Ok (len (bytes f)).
Proof.
  intros Hv. pose proof Hv as (Hok&Hd&?&?&?).
  destruct (AckRanges f) as [|r rs] eqn:Hf; [done|]. destruct Hok as (?&?&Hb).
  destruct (numEncodable_eq f r rs Hv Hf) as (Hnum&Hk&Hkv&_).
  destruct (encodeAckDelay_eq _ Hd) as [Hde Hdv].
  unfold Length, bytes, encode, body, ecn_bytes.
  rewrite Hnum, Hde, Hf, idx_cons_0.
  assert (is_varint (Largest r)) by (unfold is_varint; lia).
  assert (is_varint (Largest r - Smallest r)) by (unfold is_varint in *; lia). wrun.
  rewrite (lengthRanges_eq f _ [] r rs); [| | | |done|lia]; [|done|done|].
  - destruct (hasECN f); wrun; f_equal; autorewrite with quic; lia.
  - rewrite Hf in Hk. unfold len in Hk. simpl in Hk. lia.
Qed.

#[global, refine] Instance ack_laws : FrameLaws t :=
  {| frame_valid := valid; frame_typ := typ; frame_body := body |}.
Proof.
  - intros f. unfold typ. by destruct (hasECN f).
  - intros. by apply ack_append.
  - intros. by apply ack_length.
Defined.

(** *** Parsing *)
Lemma ackDelay_exact d :
  0 ≤ d < 2 ^ 63 → ackDelay (d / 8000) AckDelayExponent = 8000 * (d / 8000).
Proof.
  intros Hd. unfold ackDelay, AckDelayExponent, Microsecond.
  assert (0 ≤ d / 8000 ∧ 8000 * (d / 8000) ≤ d) by dmlia.
  rewrite Z.mul_1_r, (u64_small (d / 8000)), Z.shiftl_mul_pow2 by lia. change (2 ^ 3) with 8.
  rewrite u64_small by lia. rewrite (i64_small (d / 8000 * 8)) by lia.
  rewrite i64_small by lia. zcase. lia.
Qed.

Lemma readRanges_eq fuel rs s acc rest n :
  ranges_below s rs → s ≤ maxVarInt8 → n = len rs → (length rs ≤ fuel)%nat →
  readRanges fuel n (ranges_bytes s rs ++ rest) s acc = Ok (acc ++ rs, rest).
Proof.
  revert rs s acc n. induction fuel as [|fuel IH]; intros [|r rs] s acc n Hb Hs -> Hfuel;
    try (simpl in Hfuel; lia); cbn [readRanges]; rewrite ?len_cons, ?len_nil;
    (zcase; [| ..]; try len_lia); try (by rewrite app_nil_r).
  assert (Largest r + 2 ≤ s ∧ 0 ≤ Smallest r ≤ Largest r) as [? ?] by (simpl in Hb; lia).
  apply ranges_below_head in Hb as (?&?&?&?); [|done].
  cbn [ranges_bytes]. rewrite <-!app_assoc. wrun. unfold is_varint, maxVarInt8 in *.
  rewrite (i64_small (s - Largest r - 2)), (i64_small (Largest r - Smallest r)) by lia.
  rewrite (i64_small (s - Largest r - 2 + 2)) by lia. zcase.
  replace (s - (s - Largest r - 2) - 2) with (Largest r) by lia.
  rewrite (i64_small (Largest r)) by lia. zcase.
  replace (Largest r - (Largest r - Smallest r)) with (Smallest r) by lia.
  rewrite (i64_small (Smallest r)) by lia.
  rewrite IH; [|done|lia|lia|simpl in Hfuel; lia].
  by rewrite <-app_assoc; destruct r.
Qed.

Lemma ecn_zero f : valid f → hasECN f = false → ECT0 f = 0 ∧ ECT1 f = 0 ∧ ECNCE f = 0.
Proof.
  intros (_&_&?&?&?). unfold hasECN, is_varint in *.
  rewrite !orb_false_iff, !Z.ltb_ge. lia.
Qed.

Lemma ranges_ok_take n rs : ranges_ok rs → (0 < n)%nat → ranges_ok (take n rs).
Proof.
  rewrite !ranges_ok_below. intros [? ?] ?. split; [|by apply ranges_below_take].
  destruct rs, n; [done..|lia|done].
Qed.

Lemma ranges_ok_Forall rs :
  ranges_ok rs → Forall (λ r, 0 ≤ Smallest r ∧ Largest r ≤ maxVarInt8) rs.
Proof.
  intros [_ H]%ranges_ok_below. apply Forall_forall. intros r Hr.
  destruct (ranges_below_elem _ _ _ H Hr). lia.
Qed.

Lemma validate_ok f : ranges_ok (AckRanges f) → validateAckRanges f = true.
Proof. intros. apply validateAckRanges_spec; [by apply ranges_ok_Forall|done]. Qed.

Lemma ack_parse_body f0 f rest :
  valid f →
  parseAckFrame (Reset f0) (body f ++ rest) (typ f) AckDelayExponent =
  Ok (len (body f), received f).
Proof.
  intros Hv. pose proof Hv as (Hok&Hd&?&?&?). pose proof (ecn_zero f Hv) as Hzero.
  destruct (encodeAckDelay_eq _ Hd) as [_ Hdv].
  destruct (AckRanges f) as [|r rs] eqn:Hf; [done|].
  destruct (numEncodable_eq f r rs Hv Hf) as (_&Hk&Hkv&_). rewrite Hf in Hk.
  assert (ranges_ok (AckRanges (received f))) as Hrec.
  { unfold received. simpl. rewrite Hf. apply ranges_ok_take; [done|lia]. }
  destruct Hok as (?&?&Hb). unfold received in *. rewrite Hf in *.
  replace (Z.to_nat (encodable f)) with (S (Z.to_nat (encodable f - 1))) in * by lia.
  cbn [take] in *. unfold body. rewrite Hf.
  assert (is_varint (Largest r)) by (unfold is_varint; lia).
  assert (is_varint (Largest r - Smallest r)) by (unfold is_varint in *; lia).
  unfold parseAckFrame. rewrite <-!app_assoc. wrun. zcase.
  replace (Largest r - (Largest r - Smallest r)) with (Smallest r) by lia.
  replace (mkAckRange (Smallest r) (Largest r)) with r by by destruct r.
  rewrite (readRanges_eq _ _ (Smallest r)); [|by apply ranges_below_take|lia| |].
  - cbn [mbind result_bind]. rewrite (ackDelay_exact _ Hd). rewrite validate_ok by done.
    unfold typ, ecn_bytes. destruct (hasECN f); cbn [Reset AckRanges app negb].
    + change (ackECNFrameType =? ackECNFrameType) with true. cbv iota.
      rewrite <-!app_assoc. wrun. do 2 f_equal. autorewrite with quic. lia.
    + change (ackFrameType =? ackECNFrameType) with false. cbv iota. simpl.
      destruct (Hzero eq_refl) as (->&->&->). do 2 f_equal. autorewrite with quic. lia.
  - rewrite len_take by len_lia. lia.
  - rewrite length_app. pose proof (len_ranges_bytes_ge (Smallest r)
      (take (Z.to_nat (encodable f - 1)) rs)). unfold len in *. lia.
Qed.

Lemma wp_readRanges fuel n b s acc :
  (length b < fuel)%nat → 0 ≤ s ≤ maxVarInt8 →
  wp (readRanges fuel n b s acc) (λ '(rs, b'),
    ∃ new, rs = acc ++ new ∧ ranges_below s new ∧ len b' ≤ len b).
Proof.
  revert n b s acc. induction fuel as [|fuel IH]; intros n b s acc Hfuel Hs; [lia|].
  cbn [readRanges]. zcase; [exists []; by rewrite app_nil_r|].
  apply wp_bind, wp_ParseEOF. intros g l Hg Hl _. apply wp_bind, wp_slice_from; [lia|].
  intros b1 Hb1 _. rewrite (i64_varint g) by done. unfold is_varint, maxVarInt8 in *.
  rewrite (i64_small (g + 2)) by lia. zcase; [done|].
  apply wp_bind, wp_ParseEOF. intros ab l2 Hab Hl2 _. apply wp_bind, wp_slice_from; [lia|].
  intros b2 Hb2 _. rewrite (i64_varint ab) by done. unfold is_varint, maxVarInt8 in *.
  rewrite (i64_small (s - g - 2)) by lia. zcase; [done|].
  rewrite (i64_small (s - g - 2 - ab)) by lia.
  eapply wp_mono; [apply IH; [unfold len in *; lia|lia]|].
  intros [rs b3] (new&->&Hnew&Hb3).
  exists (mkAckRange (s - g - 2 - ab) (s - g - 2) :: new).
  rewrite <-app_assoc. simpl. split_and!; try done; lia.
Qed.

Lemma ackDelay_range d e : 0 ≤ ackDelay d e < 2 ^ 63.
Proof.
  unfold ackDelay. set (x := i64 _ * Microsecond). clearbody x.
  assert (- 2 ^ 63 ≤ i64 x < 2 ^ 63) by (unfold i64; dmlia). zcase; lia.
Qed.

Lemma ack_wp_parse f0 b ty e :
  wp (parseAckFrame (Reset f0) b ty e) (λ '(l, f), valid f ∧ 0 < l ≤ len b).
Proof.
  unfold parseAckFrame. do 8 (wpstep; cbn beta iota zeta).
  apply wp_bind, wp_ParseEOF. intros n l1 Hn Hl1 _. apply wp_bind, wp_slice_from; [lia|].
  intros b1 Hb1 _. apply wp_bind, wp_ParseEOF. intros ab l2 Hab Hl2 _.
  apply wp_bind, wp_slice_from; [lia|]. intros b2 Hb2 _.
  rewrite (i64_varint v), (i64_varint ab) by done. zcase; [done|].
  rewrite (i64_varint (v - ab)) by (unfold is_varint in *; lia).
  apply wp_bind. eapply wp_mono; [apply wp_readRanges; [lia|unfold is_varint in *; lia]|].
  intros [rs b3] (new&->&Hnew&Hb3). cbn [Reset AckRanges ECT0 ECT1 ECNCE app].
  pose proof (ackDelay_range v0 e).
  assert (ranges_ok (mkAckRange (v - ab) v :: new)).
  { unfold is_varint in *. simpl. split_and!; try lia. done. }
  rewrite validate_ok by done. cbn [negb].
  assert (is_varint 0) by done.
  wprun; (split; [|len_pose; lia]); unfold valid; cbn [AckRanges DelayTime ECT0 ECT1 ECNCE];
    auto with lia.
Qed.

(** *** Looking up a packet number *)
Lemma ranges_below_lookup s rs i j r r' :
  ranges_below s rs → (i < j)%nat → rs !! i = Some r → rs !! j = Some r' →
  Largest r' + 2 ≤ Smallest r.
Proof.
  intros Hb Hij Hi Hj. rewrite <-(take_drop_middle _ _ _ Hi) in Hb.
  apply ranges_below_app in Hb as [Hb _].
  eapply ranges_below_elem; [done|]. apply list_elem_of_lookup.
  exists (j - S i)%nat. rewrite lookup_drop. by replace (S i + (j - S i))%nat with j by lia.
Qed.

Lemma ranges_below_mono s rs i j r r' :
  ranges_below s rs → (i ≤ j)%nat → rs !! i = Some r → rs !! j = Some r' →
  Smallest r' ≤ Smallest r ∧ Largest r' ≤ Largest r.
Proof.
  intros Hb Hij Hi Hj. destruct (decide (i = j)) as [->|]; [naive_solver lia|].
  pose proof (ranges_below_lookup s rs i j r r' Hb ltac:(lia) Hi Hj).
  destruct (ranges_below_elem s rs r Hb) as [? _]; [by eapply list_elem_of_lookup_2|].
  destruct (ranges_below_elem s rs r' Hb) as [? _]; [by eapply list_elem_of_lookup_2|]. lia.
Qed.

Lemma acked_range s rs p r0 rn :
  ranges_below s rs → rs !! 0%nat = Some r0 → rs !! Nat.pred (length rs) = Some rn →
  acked rs p → Smallest rn ≤ p ≤ Largest r0.
Proof.
  intros Hb H0 Hn (r&(j&Hj)%list_elem_of_lookup_1&Hp).
  pose proof (lookup_lt_Some _ _ _ Hj).
  destruct (ranges_below_mono _ _ 0 j r0 r Hb); [lia|done..|].
  destruct (ranges_below_mono _ _ j (Nat.pred (length rs)) r rn Hb); [lia|done..|]. lia.
Qed.

(** Among the ranges, only the first one that starts at or below [p] can
    contain it. *)
Lemma acked_at s rs p i r :
  ranges_below s rs → rs !! i = Some r → Smallest r ≤ p →
  (∀ k r', (k < i)%nat → rs !! k = Some r' → p < Smallest r') →
  acked rs p ↔ p ≤ Largest r.
Proof.
  intros Hb Hr Hp Hlo. split.
  - intros (r'&(j&Hj)%list_elem_of_lookup_1&Hp').
    destruct (lt_eq_lt_dec i j) as [[?|<-]|?].
    + pose proof (ranges_below_lookup _ _ i j r r' Hb ltac:(lia) Hr Hj). lia.
    + naive_solver lia.
    + specialize (Hlo j r'). naive_solver lia.
  - exists r. split; [by eapply list_elem_of_lookup_2|lia].
Qed.

Lemma idx_total {A} (l : list A) i :
  0 ≤ i < len l → ∃ x, l !! Z.to_nat i = Some x ∧ idx (E:=error) l i = Ok x.
Proof.
  intros Hi. destruct (lookup_lt_is_Some_2 l (Z.to_nat i)) as [x Hx]; [unfold len in *; lia|].
  exists x. split; [done|]. apply idx_lookup. split; [lia|done].
Qed.

Lemma search_ranges s rs p :
  ranges_below s rs →
  ∃ i, Search (E:=error) (len rs) (λ i, r ← idx rs i; Ok (Smallest r <=? p)) = Ok i ∧
    0 ≤ i ≤ len rs ∧
    (∀ k r, (k < Z.to_nat i)%nat → rs !! k = Some r → p < Smallest r) ∧
    (∀ k r, (Z.to_nat i ≤ k)%nat → rs !! k = Some r → Smallest r ≤ p).
Proof.
  intros Hb.
  destruct (Search_spec (E:=error)
    (λ i, if rs !! Z.to_nat i is Some r then Smallest r <=? p else true)
    (λ i, r ← idx rs i; Ok (Smallest r <=? p)) (len rs)) as (i&Hs&Hi&Hlo&Hhi).
  - len_lia.
  - intros k Hk. by destruct (idx_total rs k Hk) as (r&->&->).
  - intros k l Hk Hl. destruct (idx_total rs k) as (r&Hrk&_); [lia|].
    destruct (idx_total rs l) as (r'&Hrl&_); [lia|]. rewrite Hrk, Hrl, !Z.leb_le.
    destruct (ranges_below_mono _ _ (Z.to_nat k) (Z.to_nat l) r r' Hb); [lia|done..|lia].
  - exists i. split_and!; [done|lia..| |]; intros k r Hk Hr;
      pose proof (lookup_lt_Some _ _ _ Hr).
    + specialize (Hlo (Z.of_nat k) ltac:(lia)). rewrite Nat2Z.id, Hr in Hlo. lia.
    + specialize (Hhi (Z.of_nat k) ltac:(unfold len in *; lia)). rewrite Nat2Z.id, Hr in Hhi. lia.
Qed.

Lemma acks_packet f p :
  ranges_ok (AckRanges f) → ∃ r, AcksPacket f p = Ok r ∧ (r = true ↔ acked (AckRanges f) p).
Proof.
  intros Hok. set (rs := AckRanges f) in *. pose proof Hok as [_ Hb]%ranges_ok_below.
  assert (0 < len rs) as Hlen by (destruct rs; [done|len_lia]).
  destruct (idx_total rs 0) as (r0&Hr0&E0); [lia|].
  destruct (idx_total rs (len rs - 1)) as (rn&Hrn&En); [lia|].
  replace (Z.to_nat (len rs - 1)) with (Nat.pred (length rs)) in Hrn by (unfold len; lia).
  unfold AcksPacket, LowestAcked, LargestAcked. fold rs. rewrite E0, En. cbn [mbind result_bind].
  destruct (_ || _) eqn:Hout.
  - exists false. split; [done|]. split; [done|]. intros Ha.
    pose proof (acked_range _ rs p r0 rn Hb Hr0 Hrn Ha).
    rewrite orb_true_iff, !Z.ltb_lt in Hout. lia.
  - apply orb_false_iff in Hout as [?%Z.ltb_ge ?%Z.ltb_ge].
    destruct (search_ranges _ rs p Hb) as (i&->&Hi&Hlo&Hhi). cbn [mbind result_bind].
    assert (i < len rs) as Hil.
    { apply Z.nle_gt. intros Hge. specialize (Hlo (Nat.pred (length rs)) rn).
      unfold len in *. naive_solver lia. }
    destruct (idx_total rs i) as (r&Hr&->); [lia|]. cbn [mbind result_bind].
    eexists; split; [done|]. rewrite Z.leb_le. symmetry.
    eapply acked_at; eauto.
Qed.

(** The binary search of [AcksPacket] terminates, does not run out of the
    ranges and finds out whether a packet number is in one of them. *)
Theorem acks_packet_correct f p :
  ranges_ok (AckRanges f) → ∃ r, AcksPacket f p = Ok r ∧ (r = true ↔ acked (AckRanges f) p).
Proof. apply acks_packet. Qed.

Lemma acks_packet_correct_witness :
  let f := mk [mkAckRange 8 10; mkAckRange 5 5; mkAckRange 1 2] 0 0 0 0 in
  ∃ r, AcksPacket f 5 = Ok r ∧ (r = true ↔ acked (AckRanges f) 5).
Proof. intros f. apply (acks_packet_correct f 5). vm_compute. intuition discriminate. Defined.
End AckFrame.
