(* ===== verification/FrameParser.v ===== *)
(** * The frame parser (internal/wire/frame_parser.go, frame.go,
      internal/ackhandler/ack_eliciting.go)

    The frames of all types, the dispatch on the frame type, the skipping of
    PADDING frames and the check of the encryption level. *)

From S2P Require Import Prelude Varint Protocol Wire ControlFrames DataFrames AckFrame.

Inductive frame :=
| FPing (f : PingFrame.t)
| FAck (f : AckFrame.t)
| FResetStream (f : ResetStreamFrame.t)
| FStopSending (f : StopSendingFrame.t)
| FCrypto (f : CryptoFrame.t)
| FNewToken (f : NewTokenFrame.t)
| FStream (f : StreamFrame.t)
| FMaxData (f : MaxDataFrame.t)
| FMaxStreamData (f : MaxStreamDataFrame.t)
| FMaxStreams (f : MaxStreamsFrame.t)
| FDataBlocked (f : DataBlockedFrame.t)
| FStreamDataBlocked (f : StreamDataBlockedFrame.t)
| FStreamsBlocked (f : StreamsBlockedFrame.t)
| FNewConnectionID (f : NewConnectionIDFrame.t)
| FRetireConnectionID (f : RetireConnectionIDFrame.t)
| FPathChallenge (f : PathChallengeFrame.t)
| FPathResponse (f : PathResponseFrame.t)
| FConnectionClose (f : ConnectionCloseFrame.t)
| FHandshakeDone (f : HandshakeDoneFrame.t)
| FDatagram (f : DatagramFrame.t).

(** An interface value: a concrete frame with the methods of its type.  The
    methods of [frame] are Go's dynamic dispatch. *)
Record interface := Interface' {
  dynamic_type : Type;
  dynamic_methods : Frame dynamic_type;
  dynamic_laws : FrameLaws dynamic_type;
  dynamic_value : dynamic_type;
}.
Abbreviation Interface f := (Interface' _ _ _ f).
#[local] Existing Instances dynamic_methods dynamic_laws.

Definition as_interface (f : frame) : interface :=
  match f with
  | FPing f => Interface f
  | FAck f => Interface f
  | FResetStream f => Interface f
  | FStopSending f => Interface f
  | FCrypto f => Interface f
  | FNewToken f => Interface f
  | FStream f => Interface f
  | FMaxData f => Interface f
  | FMaxStreamData f => Interface f
  | FMaxStreams f => Interface f
  | FDataBlocked f => Interface f
  | FStreamDataBlocked f => Interface f
  | FStreamsBlocked f => Interface f
  | FNewConnectionID f => Interface f
  | FRetireConnectionID f => Interface f
  | FPathChallenge f => Interface f
  | FPathResponse f => Interface f
  | FConnectionClose f => Interface f
  | FHandshakeDone f => Interface f
  | FDatagram f => Interface f
  end.

#[global] Instance any_frame : Frame frame := {|
  frame_append b f := frame_append b (dynamic_value (as_interface f));
  frame_length f := frame_length (dynamic_value (as_interface f));
|}.
#[global, refine] Instance any_laws : FrameLaws frame := {|
  frame_valid f := frame_valid (dynamic_value (as_interface f));
  frame_typ f := frame_typ (dynamic_value (as_interface f));
  frame_body f := frame_body (dynamic_value (as_interface f));
|}.
Proof.
  - intros f. apply (frame_typ_range (dynamic_value (as_interface f))).
  - intros b f. apply (frame_append_valid b (dynamic_value (as_interface f))).
  - intros f. apply (frame_length_valid (dynamic_value (as_interface f))).
Defined.

(** ** Classification of frames *)
Definition IsProbingFrame (f : frame) : bool :=
  match f with
  | FPathChallenge _ | FPathResponse _ | FNewConnectionID _ => true
  | _ => false
  end.

Definition IsFrameAckEliciting (f : frame) : bool :=
  let isAck := match f with FAck _ => true | _ => false end in
  let isConnectionClose := match f with FConnectionClose _ => true | _ => false end in
  negb isAck && negb isConnectionClose.

Fixpoint HasAckElicitingFrames (fs : list frame) : bool :=
  match fs with
  | [] => false
  | f :: fs => if IsFrameAckEliciting f then true else HasAckElicitingFrames fs
  end.

Definition isAllowedAtEncLevel (f : frame) (encLevel : EncryptionLevel) : bool :=
  match encLevel with
  | EncryptionInitial | EncryptionHandshake =>
      match f with
      | FCrypto _ | FAck _ | FConnectionClose _ | FPing _ => true
      | _ => false
      end
  | Encryption0RTT =>
      match f with
      | FCrypto _ | FAck _ | FConnectionClose _ | FNewToken _ | FPathResponse _
      | FRetireConnectionID _ => false
      | _ => true
      end
  | Encryption1RTT => true
  end.

(** ** The parser *)
Record FrameParser := mkFrameParser {
  ackDelayExponent : Z;
  supportsDatagrams : bool;
  ackFrame : AckFrame.t;
}.

Definition NewFrameParser (supportsDatagrams : bool) : FrameParser :=
  mkFrameParser 0 supportsDatagrams (AckFrame.mk [] 0 0 0 0).

Definition SetAckDelayExponent (p : FrameParser) (exp : Z) : FrameParser :=
  mkFrameParser exp (supportsDatagrams p) (ackFrame p).

(** The transport error code (internal/qerr/error_codes.go). *)
Definition FrameEncodingError : Z := 0x7.

(** [frame, l, err = parse(b)] for a frame other than ACK. *)
Definition as_frame {F} (c : F → frame) (p : FrameParser) (m : res (F * Z))
  : res (frame * Z * FrameParser) :=
  '(f, l) ← m; Ok (c f, l, p).

Definition parseFrameOfType (pool : list byte) (p : FrameParser) (b : list byte) (typ : Z)
    (encLevel : EncryptionLevel) : res (frame * Z * FrameParser) :=
  if Z.land typ 0xf8 =? 0x8 then as_frame FStream p (StreamFrame.parseStreamFrame pool b typ)
  else if typ =? pingFrameType then Ok (FPing PingFrame.mk, 0, p)
  else if (typ =? ackFrameType) || (typ =? ackECNFrameType) then
    let ade := if decide (encLevel = Encryption1RTT) then ackDelayExponent p
               else DefaultAckDelayExponent in
    '(l, f) ← AckFrame.parseAckFrame (AckFrame.Reset (ackFrame p)) b typ ade;
    Ok (FAck f, l, mkFrameParser (ackDelayExponent p) (supportsDatagrams p) f)
  else if typ =? resetStreamFrameType then
    as_frame FResetStream p (ResetStreamFrame.parseResetStreamFrame b)
  else if typ =? stopSendingFrameType then
    as_frame FStopSending p (StopSendingFrame.parseStopSendingFrame b)
  else if typ =? cryptoFrameType then as_frame FCrypto p (CryptoFrame.parseCryptoFrame b)
  else if typ =? newTokenFrameType then as_frame FNewToken p (NewTokenFrame.parseNewTokenFrame b)
  else if typ =? maxDataFrameType then as_frame FMaxData p (MaxDataFrame.parseMaxDataFrame b)
  else if typ =? maxStreamDataFrameType then
    as_frame FMaxStreamData p (MaxStreamDataFrame.parseMaxStreamDataFrame b)
  else if (typ =? bidiMaxStreamsFrameType) || (typ =? uniMaxStreamsFrameType) then
    as_frame FMaxStreams p (MaxStreamsFrame.parseMaxStreamsFrame b typ)
  else if typ =? dataBlockedFrameType then
    as_frame FDataBlocked p (DataBlockedFrame.parseDataBlockedFrame b)
  else if typ =? streamDataBlockedFrameType then
    as_frame FStreamDataBlocked p (StreamDataBlockedFrame.parseStreamDataBlockedFrame b)
  else if (typ =? bidiStreamBlockedFrameType) || (typ =? uniStreamBlockedFrameType) then
    as_frame FStreamsBlocked p (StreamsBlockedFrame.parseStreamsBlockedFrame b typ)
  else if typ =? newConnectionIDFrameType then
    as_frame FNewConnectionID p (NewConnectionIDFrame.parseNewConnectionIDFrame b)
  else if typ =? retireConnectionIDFrameType then
    as_frame FRetireConnectionID p (RetireConnectionIDFrame.parseRetireConnectionIDFrame b)
  else if typ =? pathChallengeFrameType then
    as_frame FPathChallenge p (PathChallengeFrame.parsePathChallengeFrame b)
  else if typ =? pathResponseFrameType then
    as_frame FPathResponse p (PathResponseFrame.parsePathResponseFrame b)
  else if (typ =? connectionCloseFrameType) || (typ =? applicationCloseFrameType) then
    as_frame FConnectionClose p (ConnectionCloseFrame.parseConnectionCloseFrame b typ)
  else if typ =? handshakeDoneFrameType then Ok (FHandshakeDone HandshakeDoneFrame.mk, 0, p)
  else if ((typ =? 0x30) || (typ =? 0x31)) && supportsDatagrams p then
    as_frame FDatagram p (DatagramFrame.parseDatagramFrame b typ)
  else Err (ErrorString "unknown frame type" []).

Definition parseFrame (pool : list byte) (p : FrameParser) (b : list byte) (typ : Z)
    (encLevel : EncryptionLevel) : res (frame * Z * FrameParser) :=
  '(f, l, p) ← parseFrameOfType pool p b typ encLevel;
  if negb (isAllowedAtEncLevel f encLevel)
  then Err (ErrorString "%s not allowed at encryption level %s" [])
  else Ok (f, l, p).

(** [for len(b) != 0]: an iteration reads at least a byte, [length b] is the
    fuel.  The number of bytes that is returned along with an error is not
    used by the caller and is left out. *)
Fixpoint parseNext_loop (fuel : nat) (pool : list byte) (p : FrameParser) (b : list byte)
    (encLevel : EncryptionLevel) (parsed : Z) : res (option frame * Z * FrameParser) :=
  if len b =? 0 then Ok (None, parsed, p) else
  match fuel with
  | O => Panic
  | S fuel =>
      match Parse b with
      | Err e => Err (TransportError FrameEncodingError 0 e)
      | Panic => Panic
      | Ok (typ, l) =>
          let parsed := parsed + l in
          b ← slice_from b l;
          if typ =? 0 then parseNext_loop fuel pool p b encLevel parsed else
          match parseFrame pool p b typ encLevel with
          | Err e => Err (TransportError FrameEncodingError typ e)
          | Panic => Panic
          | Ok (f, l, p) => Ok (Some f, parsed + l, p)
          end
      end
  end.

Definition ParseNext (pool : list byte) (p : FrameParser) (data : list byte)
    (encLevel : EncryptionLevel) : res (Z * option frame * FrameParser) :=
  '(f, l, p) ← parseNext_loop (length data) pool p data encLevel 0;
  Ok (l, f, p).

(** ** Round trip *)

(** The frame that the parser makes of the encoding of [f], and the state of
    the parser after it. *)
Definition received (pool : list byte) (f : frame) : frame :=
  match f with
  | FStream f => FStream (StreamFrame.received pool f)
  | FAck f => FAck (AckFrame.received f)
  | f => f
  end.

Definition after (p : FrameParser) (f : frame) : FrameParser :=
  match f with
  | FAck f => mkFrameParser (ackDelayExponent p) (supportsDatagrams p) (AckFrame.received f)
  | _ => p
  end.

(** Frames whose end is not visible in the frame are the last of a packet. *)
Definition delimited (f : frame) : bool :=
  match f with
  | FStream f => StreamFrame.DataLenPresent f
  | FDatagram f => DatagramFrame.DataLenPresent f
  | _ => true
  end.

(** What the receiver has to have for [f]: buffers that can hold the data of a
    STREAM frame, the sender's ACK delay exponent, support for datagrams. *)
Definition accepts (pool : list byte) (p : FrameParser) (encLevel : EncryptionLevel)
    (f : frame) : Prop :=
  isAllowedAtEncLevel f encLevel = true ∧
  match f with
  | FStream f => StreamFrame.DataLen f ≤ len pool
  | FAck _ => encLevel = Encryption1RTT → ackDelayExponent p = AckDelayExponent
  | FDatagram _ => supportsDatagrams p = true
  | _ => True
  end.

Lemma parse_stream pool p b f lvl :
  parseFrameOfType pool p b (StreamFrame.typ f) lvl =
  as_frame FStream p (StreamFrame.parseStreamFrame pool b (StreamFrame.typ f)).
Proof.
  unfold StreamFrame.typ. by destruct (StreamFrame.Fin f), (StreamFrame.DataLenPresent f),
    (StreamFrame.Offset f =? 0).
Qed.

Lemma parse_ack pool p b f lvl :
  parseFrameOfType pool p b (AckFrame.typ f) lvl =
  '(l, f) ← AckFrame.parseAckFrame (AckFrame.Reset (ackFrame p)) b (AckFrame.typ f)
     (if decide (lvl = Encryption1RTT) then ackDelayExponent p else DefaultAckDelayExponent);
  Ok (FAck f, l, mkFrameParser (ackDelayExponent p) (supportsDatagrams p) f).
Proof. unfold AckFrame.typ. by destruct (AckFrame.hasECN f). Qed.

Lemma parse_max_streams pool p b f lvl :
  parseFrameOfType pool p b (MaxStreamsFrame.typ f) lvl =
  as_frame FMaxStreams p (MaxStreamsFrame.parseMaxStreamsFrame b (MaxStreamsFrame.typ f)).
Proof. unfold MaxStreamsFrame.typ. by destruct (MaxStreamsFrame.Type_ f). Qed.

Lemma parse_streams_blocked pool p b f lvl :
  parseFrameOfType pool p b (StreamsBlockedFrame.typ f) lvl =
  as_frame FStreamsBlocked p
    (StreamsBlockedFrame.parseStreamsBlockedFrame b (StreamsBlockedFrame.typ f)).
Proof. unfold StreamsBlockedFrame.typ. by destruct (StreamsBlockedFrame.Type_ f). Qed.

Lemma parse_connection_close pool p b f lvl :
  parseFrameOfType pool p b (ConnectionCloseFrame.typ f) lvl =
  as_frame FConnectionClose p
    (ConnectionCloseFrame.parseConnectionCloseFrame b (ConnectionCloseFrame.typ f)).
Proof.
  unfold ConnectionCloseFrame.typ. by destruct (ConnectionCloseFrame.IsApplicationError f).
Qed.

Lemma parse_datagram pool p b f lvl :
  supportsDatagrams p = true →
  parseFrameOfType pool p b (DatagramFrame.typ f) lvl =
  as_frame FDatagram p (DatagramFrame.parseDatagramFrame b (DatagramFrame.typ f)).
Proof.
  intros Hp. unfold DatagramFrame.typ, parseFrameOfType. rewrite Hp.
  by destruct (DatagramFrame.DataLenPresent f).
Qed.

(** [by_body L]: the frame type selects the parser of the lemma [L]. *)
Ltac by_body L :=
  lazymatch goal with
  | |- _ = Ok (?c ?f, _, ?p) =>
      first [ exact (f_equal (as_frame c p) (L f _ ltac:(assumption)))
            | exact (f_equal (as_frame c p) (L f _ ltac:(assumption) ltac:(assumption))) ]
  end.

Lemma parseFrameOfType_body pool p f rest lvl :
  frame_valid f → accepts pool p lvl f → delimited f = true ∨ rest = [] →
  parseFrameOfType pool p (frame_body f ++ rest) (frame_typ f) lvl =
  Ok (received pool f, len (frame_body f), after p f).
Proof.
  intros Hv [_ Ha] Hd.
  destruct f as [f|f|f|f|f|f|f|f|f|f|f|f|f|f|f|f|f|f|f|f];
    cbn [frame_valid frame_body frame_typ any_laws as_interface dynamic_laws dynamic_value
         dynamic_methods dynamic_type received after delimited] in *.
  - by destruct f.
  - cbn. rewrite parse_ack.
    replace (if decide (lvl = Encryption1RTT) then _ else _) with AckDelayExponent
      by (case_decide; [symmetry; auto|done]).
    by rewrite AckFrame.ack_parse_body.
  - by_body ResetStreamFrame.reset_stream_parse_body.
  - by_body StopSendingFrame.stop_sending_parse_body.
  - by_body CryptoFrame.crypto_parse_body.
  - by_body NewTokenFrame.new_token_parse_body.
  - cbn. destruct Hv as [Hv _]. rewrite parse_stream, StreamFrame.stream_parse_body; auto.
  - by_body MaxDataFrame.max_data_parse_body.
  - by_body MaxStreamDataFrame.max_stream_data_parse_body.
  - cbn. by rewrite parse_max_streams, MaxStreamsFrame.max_streams_parse_body.
  - by_body DataBlockedFrame.data_blocked_parse_body.
  - by_body StreamDataBlockedFrame.stream_data_blocked_parse_body.
  - cbn. by rewrite parse_streams_blocked, StreamsBlockedFrame.streams_blocked_parse_body.
  - by_body NewConnectionIDFrame.new_connection_id_parse_body.
  - by_body RetireConnectionIDFrame.retire_connection_id_parse_body.
  - by_body PathChallengeFrame.path_challenge_parse_body.
  - by_body PathResponseFrame.path_response_parse_body.
  - cbn. by rewrite parse_connection_close, ConnectionCloseFrame.connection_close_parse_body.
  - by destruct f.
  - cbn. by rewrite parse_datagram, DatagramFrame.datagram_parse_body.
Qed.

Lemma parseFrame_body pool p f rest lvl :
  frame_valid f → accepts pool p lvl f → delimited f = true ∨ rest = [] →
  parseFrame pool p (frame_body f ++ rest) (frame_typ f) lvl =
  Ok (received pool f, len (frame_body f), after p f).
Proof.
  intros Hv Ha Hd. unfold parseFrame. rewrite parseFrameOfType_body by done.
  cbn [mbind result_bind].
  replace (isAllowedAtEncLevel (received pool f) lvl) with true; [done|].
  destruct Ha as [<- _]. by destruct f.
Qed.

Lemma Parse_type typ rest : 0 ≤ typ < 64 → Parse (z2b typ :: rest) = Ok (typ, 1).
Proof.
  intros. change (z2b typ :: rest) with ([z2b typ] ++ rest).
  rewrite <-venc_small, Parse_venc by (unfold is_varint, maxVarInt8; lia).
  by rewrite vlen_1 by lia.
Qed.

Lemma parseNext_frame fuel pool p f rest lvl n :
  frame_valid f → accepts pool p lvl f → delimited f = true ∨ rest = [] →
  parseNext_loop (S fuel) pool p (frame_bytes f ++ rest) lvl n =
  Ok (Some (received pool f), n + len (frame_bytes f), after p f).
Proof.
  intros. unfold frame_bytes, encode. cbn [parseNext_loop]. rewrite <-app_comm_cons, !len_cons.
  pose proof (frame_typ_range f). zcase; [len_lia|]. rewrite Parse_type by lia.
  rewrite slice_from_cons. cbn [mbind result_bind]. zcase.
  rewrite parseFrame_body by done. do 3 f_equal. lia.
Qed.

Lemma parseNext_padding k fuel pool p b lvl n :
  parseNext_loop (k + fuel) pool p (replicate k x00 ++ b) lvl n =
  parseNext_loop fuel pool p b lvl (n + Z.of_nat k).
Proof.
  revert n. induction k as [|k IH]; intros n; [by rewrite Z.add_0_r|].
  cbn [parseNext_loop Nat.add replicate]. rewrite <-app_comm_cons, len_cons. zcase; [len_lia|].
  change x00 with (z2b 0) at 1. rewrite Parse_type by lia. change (z2b 0) with x00.
  rewrite slice_from_cons. cbn [mbind result_bind Z.eqb]. rewrite IH. f_equal. lia.
Qed.

Lemma parseNext_empty fuel pool p lvl n : parseNext_loop fuel pool p [] lvl n = Ok (None, n, p).
Proof. by destruct fuel. Qed.

(** [ParseNext] on [k] PADDING frames and a frame. *)
Lemma ParseNext_frame k pool p f rest lvl :
  frame_valid f → accepts pool p lvl f → delimited f = true ∨ rest = [] →
  ParseNext pool p (replicate k x00 ++ frame_bytes f ++ rest) lvl =
  Ok (Z.of_nat k + len (frame_bytes f), Some (received pool f), after p f).
Proof.
  intros. unfold ParseNext. rewrite length_app, length_replicate, parseNext_padding.
  unfold frame_bytes at 1. unfold encode at 1.
  cbn [app length]. rewrite parseNext_frame by done. cbn [mbind result_bind]. done.
Qed.

Lemma ParseNext_padding k pool p lvl :
  ParseNext pool p (replicate k x00) lvl = Ok (Z.of_nat k, None, p).
Proof.
  unfold ParseNext. rewrite length_replicate, <-(app_nil_r (replicate k x00)).
  rewrite <-(Nat.add_0_r k) at 1. by rewrite parseNext_padding, parseNext_empty.
Qed.

(** ** Safety on arbitrary input *)

(** The frames that the parser returns. *)
Definition well_formed (f : frame) : Prop :=
  match f with
  | FStream f => StreamFrame.fits f ∧ StreamFrame.pool_inv f
  | FDatagram f => True
  | f => frame_valid f
  end.

Lemma wp_as_frame {F} (c : F → frame) p (m : res (F * Z)) b (P : F → Prop) :
  wp m (λ '(f, l), P f ∧ 0 ≤ l ≤ b) → (∀ f, P f → well_formed (c f)) →
  wp (as_frame c p m) (λ '(f, l, _), well_formed f ∧ 0 ≤ l ≤ b).
Proof.
  intros Hm Hc. apply wp_bind. eapply wp_mono; [done|]. intros [f l] [??]. simpl. auto.
Qed.

(** The parsers of the frame types consume at least a byte. *)
Lemma wp_as_frame_pos {F} (c : F → frame) p (m : res (F * Z)) b (P : F → Prop) :
  wp m (λ '(f, l), P f ∧ 0 < l ≤ b) → (∀ f, P f → well_formed (c f)) →
  wp (as_frame c p m) (λ '(f, l, _), well_formed f ∧ 0 ≤ l ≤ b).
Proof.
  intros Hm. apply wp_as_frame. eapply wp_mono; [done|]. intros [f l]. intuition lia.
Qed.

Lemma wp_parseFrameOfType pool p b typ lvl :
  len pool = MaxPacketBufferSize →
  wp (parseFrameOfType pool p b typ lvl) (λ '(f, l, _), well_formed f ∧ 0 ≤ l ≤ len b).
Proof.
  intros Hpool. unfold parseFrameOfType. pose proof (len_nonneg b).
  repeat match goal with |- wp (if ?c then _ else _) _ => destruct c end.
  all: lazymatch goal with
       | |- wp (as_frame FDatagram _ _) _ => eapply (wp_as_frame _ _ _ _ (λ _, True)); [|done]
       | |- wp (as_frame _ _ _) _ => eapply wp_as_frame_pos; [|by intros f Hf; exact Hf]
       | |- _ => idtac
       end.
  - eapply wp_mono; [by apply StreamFrame.stream_wp_parse|]. intros [f l]. cbn. tauto.
  - done.
  - apply wp_bind. eapply wp_mono; [apply AckFrame.ack_wp_parse|].
    intros [l f]. cbn. intuition lia.
  - apply ResetStreamFrame.reset_stream_wp_parse.
  - apply StopSendingFrame.stop_sending_wp_parse.
  - apply CryptoFrame.crypto_wp_parse.
  - apply NewTokenFrame.new_token_wp_parse.
  - apply MaxDataFrame.max_data_wp_parse.
  - apply MaxStreamDataFrame.max_stream_data_wp_parse.
  - apply MaxStreamsFrame.max_streams_wp_parse.
  - apply DataBlockedFrame.data_blocked_wp_parse.
  - apply StreamDataBlockedFrame.stream_data_blocked_wp_parse.
  - apply StreamsBlockedFrame.streams_blocked_wp_parse.
  - apply NewConnectionIDFrame.new_connection_id_wp_parse.
  - apply RetireConnectionIDFrame.retire_connection_id_wp_parse.
  - apply PathChallengeFrame.path_challenge_wp_parse.
  - apply PathResponseFrame.path_response_wp_parse.
  - apply ConnectionCloseFrame.connection_close_wp_parse.
  - done.
  - eapply wp_mono; [apply DatagramFrame.datagram_wp_parse|]. intros [f l]. tauto.
  - done.
Qed.

Lemma wp_parseFrame pool p b typ lvl :
  len pool = MaxPacketBufferSize →
  wp (parseFrame pool p b typ lvl) (λ '(f, l, _),
    well_formed f ∧ isAllowedAtEncLevel f lvl = true ∧ 0 ≤ l ≤ len b).
Proof.
  intros Hpool. apply wp_bind. eapply wp_mono; [by apply wp_parseFrameOfType|].
  intros [[f l] p'] [??]. cbn. destruct (isAllowedAtEncLevel f lvl) eqn:?; simpl; auto.
Qed.

Lemma wp_parseNext fuel pool p b lvl n :
  len pool = MaxPacketBufferSize → (length b ≤ fuel)%nat →
  wp (parseNext_loop fuel pool p b lvl n) (λ '(f, l, _),
    match f with
    | Some f => well_formed f ∧ isAllowedAtEncLevel f lvl = true ∧ n < l ≤ n + len b
    | None => l = n + len b
    end).
Proof.
  intros Hpool. revert p b n. induction fuel as [|fuel IH]; intros p b n Hfuel.
  { destruct b; [|simpl in Hfuel; lia]. simpl. rewrite len_nil. lia. }
  cbn [parseNext_loop]. zcase; [simpl; lia|].
  pose proof (wp_Parse b (λ '(_, l), 0 < l ≤ len b)) as HP.
  destruct (Parse b) as [[typ l]| |]; simpl in HP; [|done|by apply HP].
  specialize (HP ltac:(done)). apply wp_bind, wp_slice_from; [lia|]. intros b' Hb' _. zcase.
  - eapply wp_mono; [apply IH; unfold len in *; lia|]. intros [[[f|] l'] p']; [|lia].
    intros (?&?&?). split_and!; done || lia.
  - pose proof (wp_parseFrame pool p b' typ lvl Hpool) as Hf.
    destruct (parseFrame pool p b' typ lvl) as [[[f l'] p']| |]; simpl in *; [|done..].
    destruct Hf as (?&?&?). split_and!; done || lia.
Qed.

Lemma wp_ParseNext pool p b lvl :
  len pool = MaxPacketBufferSize →
  wp (ParseNext pool p b lvl) (λ '(l, f, _),
    match f with
    | Some f => well_formed f ∧ isAllowedAtEncLevel f lvl = true ∧ 0 < l ≤ len b
    | None => l = len b
    end).
Proof.
  intros Hpool. apply wp_bind. eapply wp_mono; [by apply wp_parseNext|].
  by intros [[[f|] l] p'].
Qed.

Lemma parseNext_err fuel pool p b lvl n e :
  parseNext_loop fuel pool p b lvl n = Err e →
  ∃ typ e', e = TransportError FrameEncodingError typ e'.
Proof.
  revert p b n. induction fuel as [|fuel IH]; intros p b n; cbn [parseNext_loop];
    (zcase; [done|]); [done|].
  destruct (Parse b) as [[typ l]|e'|]; [|intros [= <-]; eauto|done].
  destruct (slice_from_cases (E:=error) b l) as [[b' ->]| ->]; [|done]. cbn [mbind result_bind].
  zcase; [apply IH|]. destruct (parseFrame pool p b' typ lvl) as [[[f l'] p']|e'|]; [done| |done].
  intros [= <-]. eauto.
Qed.

(** ** Properties *)

(** C3: every frame survives the trip over the network. A valid frame of any
    type is serialized to as many bytes as its [Length] says, and the receiver,
    after any number of PADDING frames, gets the same frame back (an ACK frame
    with the ranges that fit; a STREAM frame with data in the receiver's
    buffer), and goes on after its last byte. *)
Theorem frame_roundtrip k pool p f rest lvl :
  frame_valid f → accepts pool p lvl f → delimited f = true ∨ rest = [] →
  ∃ e, frame_append [] f = Ok e ∧ frame_length f = Ok (len e) ∧
    ParseNext pool p (replicate k x00 ++ e ++ rest) lvl =
      Ok (Z.of_nat k + len e, Some (received pool f), after p f).
Proof.
  intros Hv Ha Hd. exists (frame_bytes f).
  split_and!; [by rewrite frame_append_valid|by apply frame_length_valid|by apply ParseNext_frame].
Qed.

Lemma frame_roundtrip_witness :
  let f := FAck (AckFrame.mk [mkAckRange 5 9; mkAckRange 1 2] 8000 0 0 0) in
  ∃ e, frame_append [] f = Ok e ∧ frame_length f = Ok (len e) ∧
    ParseNext [] (NewFrameParser false) (replicate 2 x00 ++ e ++ [x01]) EncryptionInitial =
      Ok (2 + len e, Some (received [] f), after (NewFrameParser false) f).
Proof.
  intros f. apply (frame_roundtrip 2 [] (NewFrameParser false) f [x01] EncryptionInitial).
  - vm_compute. intuition discriminate.
  - done.
  - by left.
Defined.

(** C29: the frame parser is safe on every input and at every encryption level:
    it terminates without indexing outside the packet, an error is a
    FRAME_ENCODING_ERROR, no frame is returned only at the end of the packet,
    and a returned frame is allowed at the level, satisfies the invariants of
    its type and consumed between one byte and the whole packet. *)
Theorem parse_next_safe pool p b lvl :
  len pool = MaxPacketBufferSize →
  match ParseNext pool p b lvl with
  | Ok (l, Some f, _) => well_formed f ∧ isAllowedAtEncLevel f lvl = true ∧ 0 < l ≤ len b
  | Ok (l, None, _) => l = len b
  | Err e => ∃ typ e', e = TransportError FrameEncodingError typ e'
  | Panic => False
  end.
Proof.
  intros Hpool. pose proof (wp_ParseNext pool p b lvl Hpool) as Hwp.
  destruct (ParseNext pool p b lvl) as [[[l [f|]] p']|e|] eqn:E; try done.
  unfold ParseNext in E. destruct (parseNext_loop _ _ _ _ _ _) as [[[??]?]|e'|] eqn:E'; try done.
  cbn in E. simplify_eq. by eapply parseNext_err.
Qed.

Lemma parse_next_safe_witness :
  match ParseNext (replicate 1452 x00) (NewFrameParser true) [x00; x04; x40] Encryption1RTT with
  | Ok (l, Some f, _) => well_formed f ∧ isAllowedAtEncLevel f Encryption1RTT = true ∧ 0 < l ≤ 3
  | Ok (l, None, _) => l = 3
  | Err e => ∃ typ e', e = TransportError FrameEncodingError typ e'
  | Panic => False
  end.
Proof.
  apply (parse_next_safe (replicate 1452 x00) (NewFrameParser true) [x00; x04; x40]).
  vm_compute. reflexivity.
Defined.

(** Only the low byte of a frame type is compared with those of STREAM frames:
    the unknown type 0x108 is parsed as a STREAM frame. *)
Lemma type_0x108_is_stream :
  ∃ f p, ParseNext (replicate 1452 x00) (NewFrameParser false) [x41; x08; x04; x61] Encryption1RTT
    = Ok (4, Some (FStream f), p) ∧ StreamFrame.Data f = [x61].
Proof. eexists _, _. split; [vm_compute|]; reflexivity. Qed.
