(* ===== verification/HandleFrames.v ===== *)
(** * Processing the frames of a packet (connection.go, [handleFrames])

    The loop of the connection over the payload of a packet.  The handlers of
    the single frames belong to the rest of the connection: its state [St],
    [handleFrame] and [handleHandshakeComplete] are arguments. *)

From S2P Require Import Prelude Varint Protocol Wire ControlFrames DataFrames AckFrame FrameParser.

Section handle_frames.
Context {St : Type}.
Variable handleFrame : St → frame → St * option error.
Variable handshakeComplete : St → bool.
Variable handleHandshakeComplete : St → St * option error.
(** [log != nil] *)
Variable logging : bool.
Variable encLevel : EncryptionLevel.
(** The buffers that the pool of STREAM frames hands out. *)
Variable pool : list byte.

(** The variables of the loop. *)
Record loop_state := mkLoopState {
  conn : St;
  frameParser : FrameParser;
  isAckEliciting : bool;
  isNonProbing : bool;
  frames : list frame;
  handleErr : option error;
}.

(** The handling of a frame in an iteration.  [Err] is an early return. *)
Definition handleParsed (h : loop_state) (p : FrameParser) (f : frame) : loop_state * res unit :=
  let ae := if IsFrameAckEliciting f then true else isAckEliciting h in
  let np := if negb (IsProbingFrame f) then true else isNonProbing h in
  let fs := if logging then frames h ++ [f] else frames h in
  match handleErr h with
  | Some e => (mkLoopState (conn h) p ae np fs (Some e), Ok tt)
  | None =>
      let '(s, err) := handleFrame (conn h) f in
      match err with
      | Some e =>
          if negb logging then (mkLoopState s p ae np fs None, Err e)
          else (mkLoopState s p ae np fs (Some e), Ok tt)
      | None => (mkLoopState s p ae np fs None, Ok tt)
      end
  end.

(** [for len(data) > 0]: every iteration consumes data, [length data] is the
    fuel. *)
Fixpoint handleFrames_loop (fuel : nat) (data : list byte) (h : loop_state)
  : loop_state * res unit :=
  if len data =? 0 then (h, Ok tt) else
  match fuel with
  | O => (h, Panic)
  | S fuel =>
      match ParseNext pool (frameParser h) data encLevel with
      | Panic => (h, Panic)
      | Err e => (h, Err e)
      | Ok (l, f, p) =>
          match slice_from (E:=error) data l with
          | Ok data =>
              match f with
              | None => (mkLoopState (conn h) p (isAckEliciting h) (isNonProbing h)
                           (frames h) (handleErr h), Ok tt)
              | Some f =>
                  let '(h, r) := handleParsed h p f in
                  match r with
                  | Ok _ => handleFrames_loop fuel data h
                  | r => (h, r)
                  end
              end
          | _ => (h, Panic)
          end
      end
  end.

(** The connection, the parser and the logged frames after the call, and what
    it returns. *)
Definition handleFrames (s : St) (p : FrameParser) (data : list byte)
  : St * FrameParser * list frame * res (bool * bool) :=
  let handshakeWasComplete := handshakeComplete s in
  let '(h, r) := handleFrames_loop (length data) data (mkLoopState s p false false [] None) in
  match r with
  | Err e => (conn h, frameParser h, [], Err e)
  | Panic => (conn h, frameParser h, [], Panic)
  | Ok _ =>
      match (if logging then handleErr h else None) with
      | Some e => (conn h, frameParser h, frames h, Err e)
      | None =>
          if negb handshakeWasComplete && handshakeComplete (conn h) then
            let '(s, err) := handleHandshakeComplete (conn h) in
            match err with
            | Some e => (s, frameParser h, frames h, Err e)
            | None => (s, frameParser h, frames h, Ok (isAckEliciting h, isNonProbing h))
            end
          else (conn h, frameParser h, frames h, Ok (isAckEliciting h, isNonProbing h))
      end
  end.

(** ** Specification

    The frames of a packet are handled one by one, up to the first error. *)
Fixpoint run (s : St) (fs : list frame) : St * option error :=
  match fs with
  | [] => (s, None)
  | f :: fs =>
      let '(s, err) := handleFrame s f in
      match err with Some e => (s, Some e) | None => run s fs end
  end.

(** A payload: frames, each after a number of PADDING frames, and PADDING at the
    end. *)
Fixpoint payload (fs : list (nat * frame)) (trailing : nat) : list byte :=
  match fs with
  | [] => replicate trailing x00
  | (k, f) :: fs => replicate k x00 ++ frame_bytes f ++ payload fs trailing
  end.

(** Every frame can be parsed, and a frame without a length is the last. *)
Fixpoint well_delimited (fs : list (nat * frame)) (trailing : nat) : Prop :=
  match fs with
  | [] => True
  | (_, f) :: fs =>
      (delimited f = true ∨ (fs = [] ∧ trailing = 0%nat)) ∧ well_delimited fs trailing
  end.

(** ** Lemmas *)
Definition run_from (s : St) (err : option error) (fs : list frame) : St * option error :=
  match err with Some e => (s, Some e) | None => run s fs end.

Lemma accepts_after p f f' : accepts pool (after p f') encLevel f ↔ accepts pool p encLevel f.
Proof. unfold accepts. by destruct f'. Qed.

Definition parseable (p : FrameParser) (fs : list (nat * frame)) : Prop :=
  Forall (λ '(_, f), frame_valid f ∧ accepts pool p encLevel f) fs.

Lemma parseable_after p f fs : parseable p fs → parseable (after p f) fs.
Proof.
  intros H. eapply Forall_impl; [done|]. intros [k f']. rewrite accepts_after. done.
Qed.

Abbreviation received_frames fs := (map (λ kf, received pool kf.2) fs).

Lemma loop_step k f rest fuel h :
  frame_valid f → accepts pool (frameParser h) encLevel f → delimited f = true ∨ rest = [] →
  handleFrames_loop (S fuel) (replicate k x00 ++ frame_bytes f ++ rest) h =
  let '(h, r) := handleParsed h (after (frameParser h) f) (received pool f) in
  match r with Ok _ => handleFrames_loop fuel rest h | r => (h, r) end.
Proof.
  intros Hv Ha Hd. cbn [handleFrames_loop]. rewrite ParseNext_frame by done.
  rewrite !len_app. unfold frame_bytes at 1. unfold encode. rewrite len_cons.
  zcase; [len_lia|]. rewrite (app_assoc (replicate k x00)).
  by rewrite slice_from_app by (rewrite len_app, len_replicate; done).
Qed.

Lemma rest_empty f fs trailing :
  delimited f = true ∨ (fs = [] ∧ trailing = 0%nat) →
  delimited f = true ∨ payload fs trailing = [].
Proof. intros [?|[-> ->]]; [by left|by right]. Qed.

(** What the loop computes from [h] on with the frames [rs]: they are handled in
    order; with logging, parsing goes on after an error. *)
Definition loop_post (h : loop_state) (rs : list frame) (out : loop_state * res unit) : Prop :=
  let '(h', r) := out in
  let '(s, err) := run_from (conn h) (handleErr h) rs in
  conn h' = s ∧
  r = (if logging then Ok tt else match err with Some e => Err e | None => Ok tt end) ∧
  (logging = true ∨ err = None →
     handleErr h' = err ∧
     frames h' = (if logging then frames h ++ rs else frames h) ∧
     isAckEliciting h' = isAckEliciting h || existsb IsFrameAckEliciting rs ∧
     isNonProbing h' = isNonProbing h || existsb (λ f, negb (IsProbingFrame f)) rs).

Lemma loop_post_nil h : (handleErr h = None ∨ logging = true) → loop_post h [] (h, Ok tt).
Proof.
  destruct h as [c p ae np l [e|]]; unfold loop_post; simpl;
    rewrite !orb_false_r, app_nil_r; destruct logging; naive_solver.
Qed.

Lemma orb_if (a b c : bool) : (if a then true else b) || c = b || (a || c).
Proof. by destruct a, b, c. Qed.

Lemma loop_post_ok h p g h1 rs out :
  handleParsed h p g = (h1, Ok tt) → (handleErr h = None ∨ logging = true) →
  loop_post h1 rs out → loop_post h (g :: rs) out.
Proof.
  destruct h as [c p0 ae np l e], out as [h' r]. unfold handleParsed, loop_post.
  cbn [conn handleErr frames isAckEliciting isNonProbing existsb].
  destruct e as [e|]; [|destruct (handleFrame c g) as [s [e|]] eqn:Hg];
    try destruct logging; intros Heq Hlog; simplify_eq/=; rewrite ?Hg, ?orb_if, <-?app_assoc; done.
Qed.

Lemma loop_post_err h p g h1 e rs :
  handleParsed h p g = (h1, Err e) → loop_post h (g :: rs) (h1, Err e).
Proof.
  destruct h as [c p0 ae np l [e'|]]; unfold handleParsed, loop_post;
    cbn [conn handleErr run_from run]; [done|].
  destruct (handleFrame c g) as [s [e'|]]; [|done]. destruct logging; [done|].
  intros [= <- <-]. split_and!; [done..|]. by intros [|].
Qed.

Lemma handleParsed_cases h p g :
  ∃ h1, frameParser h1 = p ∧
    ((handleParsed h p g = (h1, Ok tt) ∧
      ((handleErr h = None ∨ logging = true) → handleErr h1 = None ∨ logging = true)) ∨
     ∃ e, handleParsed h p g = (h1, Err e)).
Proof.
  unfold handleParsed. destruct (handleErr h) as [e|].
  { eexists; split; [|left; split; [done|]]; [done|]. naive_solver. }
  destruct (handleFrame (conn h) g) as [s [e|]]; [|by eexists; split; [|left; eauto]].
  destruct logging; simpl; eexists; (split; [|eauto]); done.
Qed.

Lemma loop_payload fs trailing fuel h :
  parseable (frameParser h) fs → well_delimited fs trailing →
  (length (payload fs trailing) ≤ fuel)%nat → (handleErr h = None ∨ logging = true) →
  loop_post h (received_frames fs) (handleFrames_loop fuel (payload fs trailing) h).
Proof.
  revert fuel h. induction fs as [|[k f] fs IH]; intros fuel h Hp Hd Hfuel Hlog;
    cbn [payload map] in *.
  - replace (handleFrames_loop _ _ _) with (h, Ok (E:=error) tt); [by apply loop_post_nil|].
    destruct fuel as [|fuel]; cbn [handleFrames_loop]; (destruct trailing; [done|]);
      [simpl in Hfuel; lia|]. rewrite ParseNext_padding, len_replicate. zcase.
    unfold slice_from. rewrite len_replicate. by repeat zcase; destruct h.
  - apply Forall_cons in Hp as [[Hv Ha] Hp]. destruct Hd as [Hd%rest_empty Hds].
    rewrite !length_app in Hfuel. unfold frame_bytes, encode in Hfuel. simpl in Hfuel.
    destruct fuel as [|fuel]; [lia|]. rewrite loop_step by done. cbn [snd].
    destruct (handleParsed_cases h (after (frameParser h) f) (received pool f))
      as (h1 & Hh1 & [[E Hlog1]|[e E]]); rewrite E; [|by eapply loop_post_err].
    eapply loop_post_ok; [done..|]. apply IH; auto; [|lia].
    rewrite Hh1. by apply parseable_after.
Qed.

(** C2: on the payload of any sequence of valid frames, with PADDING between
    them, the connection handles exactly these frames, in order, up to the first
    error, and returns that error; it reports whether a frame was ack-eliciting
    or non-probing, and completes the handshake after the last frame.  Logging
    changes nothing of this. *)
Theorem handle_frames_payload s p fs trailing :
  parseable p fs → well_delimited fs trailing →
  let rs := received_frames fs in
  let '(s', _, logged, r) := handleFrames s p (payload fs trailing) in
  let '(s1, err) := run s rs in
  logged = (if logging then rs else []) ∧
  match err with
  | Some e => s' = s1 ∧ r = Err e
  | None =>
      let flags := (existsb IsFrameAckEliciting rs, existsb (λ f, negb (IsProbingFrame f)) rs) in
      if negb (handshakeComplete s) && handshakeComplete s1 then
        let '(s2, err) := handleHandshakeComplete s1 in
        s' = s2 ∧ r = match err with Some e => Err e | None => Ok flags end
      else s' = s1 ∧ r = Ok flags
  end.
Proof.
  intros Hp Hd rs. unfold handleFrames.
  pose proof (loop_payload fs trailing _ (mkLoopState s p false false [] None) Hp Hd
    ltac:(done) ltac:(by left)) as Hpost.
  destruct (handleFrames_loop _ _ _) as [h' r]. unfold loop_post in Hpost.
  cbn [conn handleErr frames isAckEliciting isNonProbing run_from] in Hpost. fold rs in Hpost.
  destruct (run s rs) as [s1 err]. destruct Hpost as (<-&->&Hrest).
  destruct logging.
  - destruct Hrest as (->&->&->&->); [by left|]. destruct err; [done|].
    destruct (_ && _); [|done]. by destruct (handleHandshakeComplete _) as [? [?|]].
  - destruct err; [done|]. destruct Hrest as (_&->&->&->); [by right|].
    destruct (_ && _); [|done]. by destruct (handleHandshakeComplete _) as [? [?|]].
Qed.



Lemma loop_no_panic fuel data h :
  len pool = MaxPacketBufferSize → (length data ≤ fuel)%nat →
  (handleFrames_loop fuel data h).2 ≠ Panic.
Proof.
  intros Hpool. revert data h. induction fuel as [|fuel IH]; intros data h Hfuel.
  { destruct data; [done|simpl in Hfuel; lia]. }
  cbn [handleFrames_loop]. zcase; [done|].
  pose proof (wp_ParseNext pool (frameParser h) data encLevel Hpool) as Hn.
  destruct (ParseNext _ _ _ _) as [[[l f] p]| |]; [|done..]. simpl in Hn.
  assert (0 ≤ l ≤ len data ∧ (f = None ∨ 0 < l)) as [Hl Hpos].
  { pose proof (len_nonneg data). destruct f; intuition lia. }
  unfold slice_from. repeat zcase. destruct f as [f|]; [|done].
  destruct (handleParsed_cases h p f) as (h1 & _ & [[-> _]|[e ->]]); [|done].
  apply IH. rewrite length_drop. destruct Hpos; [done|]. unfold len in *. lia.
Qed.

(** C30: the connection's loop over a packet terminates on every input, and
    neither it nor the frame parsers index outside the packet. *)
Theorem handle_frames_safe s p data :
  len pool = MaxPacketBufferSize → (handleFrames s p data).2 ≠ Panic.
Proof.
  intros Hpool. unfold handleFrames.
  pose proof (loop_no_panic (length data) data (mkLoopState s p false false [] None)
    Hpool ltac:(done)) as Hsafe.
  destruct (handleFrames_loop _ _ _) as [h' [u|e|]]; simpl in Hsafe; [|done..].
  destruct (if logging then _ else _); [done|]. destruct (_ && _); [|done].
  by destruct (handleHandshakeComplete _) as [? [?|]].
Qed.
End handle_frames.

(** A connection that records the frames it is given, refuses a second PING and
    completes the handshake with a HANDSHAKE_DONE frame. *)
Definition recorder (s : list frame) (f : frame) : list frame * option error :=
  match f with
  | FPing _ => if existsb (λ g, match g with FPing _ => true | _ => false end) s
               then (s, Some io_EOF) else (s ++ [f], None)
  | _ => (s ++ [f], None)
  end.
Definition recorded_handshake (s : list frame) : bool :=
  existsb (λ g, match g with FHandshakeDone _ => true | _ => false end) s.

Lemma handle_frames_payload_witness :
  let fs := [(1%nat, FPing PingFrame.mk); (0%nat, FHandshakeDone HandshakeDoneFrame.mk);
             (2%nat, FPing PingFrame.mk)] in
  let '(s', _, logged, r) :=
    handleFrames recorder recorded_handshake (λ s, (s, None)) true Encryption1RTT []
      [] (NewFrameParser false) (payload fs 3) in
  let '(s1, err) := run recorder [] (map (λ kf, received [] kf.2) fs) in
  s' = s1 ∧ err = Some io_EOF ∧ r = Err io_EOF ∧ logged = map snd fs.
Proof.
  intros fs.
  pose proof (handle_frames_payload recorder recorded_handshake (λ s, (s, None)) true
    Encryption1RTT [] [] (NewFrameParser false) fs 3) as H.
  specialize (H ltac:(repeat constructor; done) ltac:(vm_compute; tauto)).
  vm_compute in H |- *. tauto.
Defined.

Lemma handle_frames_safe_witness :
  (handleFrames recorder recorded_handshake (λ s, (s, None)) false Encryption0RTT
     (replicate 1452 x00) [] (NewFrameParser false) [x40; x01; x08; x04; x61]).2 ≠ Panic.
Proof.
  apply (handle_frames_safe recorder recorded_handshake (λ s, (s, None)) false Encryption0RTT
    (replicate 1452 x00) [] (NewFrameParser false) [x40; x01; x08; x04; x61]).
  vm_compute. reflexivity.
Defined.
