(* ===== verification/Header.v ===== *)
(** * Packet headers (internal/wire: header.go, extended_header.go,
      short_header.go, version_negotiation.go)

    Long headers in both QUIC versions, short headers, packet numbers and
    Version Negotiation packets. *)

From S2P Require Import Prelude Varint Protocol Wire.

(** [binary.BigEndian.Uint16] and [Uint32]: they panic on shorter slices. *)
Definition Uint16 (b : list byte) : res Z :=
  if len b <? 2 then Panic else Ok (be_value (take 2 b)).
Definition Uint32 (b : list byte) : res Z :=
  if len b <? 4 then Panic else Ok (be_value (take 4 b)).

(** ** The first bytes of a packet (header.go) *)
Definition IsPotentialQUICPacket (firstByte : byte) : bool := 0 <? Z.land (b2z firstByte) 0x40.

Definition IsLongHeaderPacket (firstByte : byte) : bool := 0 <? Z.land (b2z firstByte) 0x80.

Definition ParseConnectionID (data : list byte) (shortHeaderConnIDLen : Z) : res ConnectionID :=
  if len data =? 0 then Err io_EOF else
  b0 ← idx data 0;
  if negb (IsLongHeaderPacket b0) then
    if len data <? shortHeaderConnIDLen + 1 then Err io_EOF else
    c ← slice data 1 (1 + shortHeaderConnIDLen);
    Protocol.ParseConnectionID c
  else
  if len data <? 6 then Err io_EOF else
  b5 ← idx data 5;
  let destConnIDLen := b2z b5 in
  if MaxConnIDLen <? destConnIDLen then Err ErrInvalidConnectionIDLen else
  if len data <? 6 + destConnIDLen then Err io_EOF else
  c ← slice data 6 (6 + destConnIDLen);
  Protocol.ParseConnectionID c.

Definition ParseArbitraryLenConnectionIDs (data : list byte) : res (Z * list byte * list byte) :=
  let startLen := len data in
  if len data <? 6 then Err io_EOF else
  data ← slice_from data 5;
  b0 ← idx data 0;
  let destConnIDLen := b2z b0 in
  data ← slice_from data 1;
  if len data <? destConnIDLen + 1 then Err io_EOF else
  destConnID ← make_copy destConnIDLen data;
  data ← slice_from data destConnIDLen;
  b0 ← idx data 0;
  let srcConnIDLen := b2z b0 in
  data ← slice_from data 1;
  if len data <? srcConnIDLen then Err io_EOF else
  srcConnID ← make_copy srcConnIDLen data;
  Ok (startLen - len data + srcConnIDLen, destConnID, srcConnID).

Definition ParseVersion (data : list byte) : res Z :=
  if len data <? 5 then Err io_EOF else
  b ← slice data 1 5;
  Uint32 b.

Definition IsVersionNegotiationPacket (b : list byte) : res bool :=
  if len b <? 5 then Ok false else
  b0 ← idx b 0; b1 ← idx b 1; b2 ← idx b 2; b3 ← idx b 3; b4 ← idx b 4;
  Ok (IsLongHeaderPacket b0 && (b2z b1 =? 0) && (b2z b2 =? 0) && (b2z b3 =? 0) && (b2z b4 =? 0)).

Definition Is0RTTPacket (b : list byte) : res bool :=
  if len b <? 5 then Ok false else
  b0 ← idx b 0;
  if negb (IsLongHeaderPacket b0) then Ok false else
  v ← slice b 1 5;
  version ← Uint32 v;
  if version =? Version1 then Ok (Z.land (Z.shiftr (b2z b0) 4) 3 =? 1)
  else if version =? Version2 then Ok (Z.land (Z.shiftr (b2z b0) 4) 3 =? 2)
  else Ok false.

(** ** Packet numbers *)
Definition readPacketNumber (data : list byte) (pnLen : Z) : res Z :=
  if pnLen =? 1 then b0 ← idx data 0; Ok (b2z b0)
  else if pnLen =? 2 then d ← slice_to data 2; Uint16 d
  else if pnLen =? 3 then
    b2 ← idx data 2; b1 ← idx data 1; b0 ← idx data 0;
    Ok (u32 (u32 (b2z b2 + u32 (Z.shiftl (b2z b1) 8)) + u32 (Z.shiftl (b2z b0) 16)))
  else if pnLen =? 4 then d ← slice_to data 4; Uint32 d
  else Err (ErrorString "invalid packet number length: %d" [pnLen]).

Definition appendPacketNumber (b : list byte) (pn pnLen : Z) : res (list byte) :=
  if pnLen =? 1 then Ok (b ++ [z2b pn])
  else if pnLen =? 2 then Ok (b ++ be_bytes 2 (u16 pn))
  else if pnLen =? 3 then
    buf ← slice_from (be_bytes 4 (u32 pn)) 1;
    Ok (b ++ buf)
  else if pnLen =? 4 then Ok (b ++ be_bytes 4 (u32 pn))
  else Err (ErrorString "invalid packet number length: %d" [pnLen]).

(** ** Long headers *)

(** [PacketTypeUnset] is the zero value of Go's [PacketType]. *)
Inductive PacketType :=
  PacketTypeUnset | PacketTypeInitial | PacketTypeRetry | PacketTypeHandshake | PacketType0RTT.
#[global] Instance PacketType_eq_dec : EqDecision PacketType.
Proof. solve_decision. Defined.

Record Header := mkHeader {
  typeByte : byte;
  Type_ : PacketType;
  Version : Z;
  SrcConnectionID : ConnectionID;
  DestConnectionID : ConnectionID;
  Length : Z;
  Token : list byte;
  parsedLen : Z;
}.

(** The packet type in bits 4 and 5 of the first byte. *)
Definition packetTypeOf (version : Z) (typeByte : byte) : PacketType :=
  let bits := Z.land (Z.shiftr (b2z typeByte) 4) 3 in
  if version =? Version2 then
    if bits =? 0 then PacketTypeRetry
    else if bits =? 1 then PacketTypeInitial
    else if bits =? 2 then PacketType0RTT
    else PacketTypeHandshake
  else
    if bits =? 0 then PacketTypeInitial
    else if bits =? 1 then PacketType0RTT
    else if bits =? 2 then PacketTypeHandshake
    else PacketTypeRetry.

(** The part of [parseLongHeader] after the connection IDs: the header that is
    filled in, the number of bytes that is returned, and whether
    [ErrUnsupportedVersion] is returned with them; with every other error the
    header is not used. *)
Definition parseAfterConnIDs (typeByte : byte) (version : Z) (src dest : ConnectionID)
    (startLen : Z) (b : list byte) : res (Header * Z * bool) :=
  if version =? 0 then
    Ok (mkHeader typeByte PacketTypeUnset version src dest 0 [] 0, startLen - len b, false)
  else if negb (IsSupportedVersion SupportedVersions version) then
    Ok (mkHeader typeByte PacketTypeUnset version src dest 0 [] 0, startLen - len b, true)
  else
  let type := packetTypeOf version typeByte in
  if decide (type = PacketTypeRetry) then
    let tokenLen := len b - 16 in
    if tokenLen <=? 0 then Err io_EOF else
    t ← slice_to b tokenLen;
    token ← make_copy tokenLen t;
    Ok (mkHeader typeByte type version src dest 0 token 0, startLen - len b + tokenLen + 16, false)
  else
  '(token, b) ←
    (if decide (type = PacketTypeInitial) then
       '(tokenLen, n) ← Parse b;
       b ← slice_from b n;
       if len b <? tokenLen then Err io_EOF else
       t ← slice_to b tokenLen;
       token ← make_copy tokenLen t;
       b ← slice_from b tokenLen;
       Ok (token, b)
     else Ok ([], b));
  '(pl, n) ← Parse b;
  Ok (mkHeader typeByte type version src dest (i64 pl) token 0, startLen - len b + n, false).

Definition parseLongHeader (typeByte : byte) (b : list byte) : res (Header * Z * bool) :=
  let startLen := len b in
  if len b <? 5 then Err io_EOF else
  v ← slice_to b 4;
  version ← Uint32 v;
  if negb (version =? 0) && (Z.land (b2z typeByte) 0x40 =? 0)
  then Err (ErrorString "not a QUIC packet" []) else
  b4 ← idx b 4;
  let destConnIDLen := b2z b4 in
  if MaxConnIDLen <? destConnIDLen then Err ErrInvalidConnectionIDLen else
  b ← slice_from b 5;
  if len b <? destConnIDLen + 1 then Err io_EOF else
  c ← slice_to b destConnIDLen;
  dest ← Protocol.ParseConnectionID c;
  bs ← idx b destConnIDLen;
  let srcConnIDLen := b2z bs in
  if MaxConnIDLen <? srcConnIDLen then Err ErrInvalidConnectionIDLen else
  b ← slice_from b (destConnIDLen + 1);
  if len b <? srcConnIDLen then Err io_EOF else
  c ← slice_to b srcConnIDLen;
  src ← Protocol.ParseConnectionID c;
  b ← slice_from b srcConnIDLen;
  parseAfterConnIDs typeByte version src dest startLen b.

Definition set_parsedLen (h : Header) (l : Z) : Header :=
  mkHeader (typeByte h) (Type_ h) (Version h) (SrcConnectionID h) (DestConnectionID h)
    (Length h) (Token h) l.

(** The header, and whether [ErrUnsupportedVersion] is returned with it. *)
Definition parseHeader (b : list byte) : res (Header * bool) :=
  if len b =? 0 then Err io_EOF else
  typeByte ← idx b 0;
  b ← slice_from b 1;
  '(h, l, unsupported) ← parseLongHeader typeByte b;
  Ok (set_parsedLen h (l + 1), unsupported).

Inductive parsed_packet :=
| Packet (hdr : Header) (packet rest : list byte)
| UnsupportedVersion (hdr : Header).

Definition ParsePacket (data : list byte) : res parsed_packet :=
  if len data =? 0 then Err (ErrorString "not a long header packet" []) else
  b0 ← idx data 0;
  if negb (IsLongHeaderPacket b0) then Err (ErrorString "not a long header packet" []) else
  '(hdr, unsupported) ← parseHeader data;
  if (unsupported : bool) then Ok (UnsupportedVersion hdr) else
  if len data <? i64 (parsedLen hdr + Length hdr)
  then Err (ErrorString "packet length (%d bytes) is smaller than the expected length (%d bytes)"
              [len data - parsedLen hdr; Length hdr])
  else
  let packetLen := i64 (parsedLen hdr + Length hdr) in
  packet ← slice_to data packetLen;
  rest ← slice_from data packetLen;
  Ok (Packet hdr packet rest).

(** The embedded header has a [typeByte] and a [parsedLen] of its own. *)
Record ExtendedHeader := mkExtendedHeader {
  ext_header : Header;
  ext_typeByte : byte;
  PacketNumberLen : Z;
  PacketNumber : Z;
  ext_parsedLen : Z;
}.

(** The extended header and whether the reserved bits are valid. *)
Definition ExtendedHeader_parse (h : Header) (data : list byte) : res (ExtendedHeader * bool) :=
  typeByte ← idx data 0;
  let pnLen := Z.land (b2z typeByte) 0x3 + 1 in
  if len data <? parsedLen h + pnLen then Err io_EOF else
  d ← slice_from data (parsedLen h);
  match readPacketNumber d pnLen with
  | Panic => Panic
  | Err _ => Ok (mkExtendedHeader h typeByte pnLen 0 0, true)
  | Ok pn =>
      let reservedBitsValid := Z.land (b2z typeByte) 0xc =? 0 in
      Ok (mkExtendedHeader h typeByte pnLen pn (parsedLen h + pnLen), reservedBitsValid)
  end.

(** With [ErrInvalidReservedBits] the header is returned too: the boolean says
    whether the error is nil. *)
Definition ParseExtended (h : Header) (data : list byte) : res (ExtendedHeader * bool) :=
  ExtendedHeader_parse h data.

Definition longHeaderType (v : Z) (type : PacketType) : Z :=
  if v =? Version2 then
    match type with
    | PacketTypeInitial => 1 | PacketType0RTT => 2 | PacketTypeHandshake => 3
    | PacketTypeRetry => 0 | PacketTypeUnset => 0
    end
  else
    match type with
    | PacketTypeInitial => 0 | PacketType0RTT => 1 | PacketTypeHandshake => 2
    | PacketTypeRetry => 3 | PacketTypeUnset => 0
    end.

Definition ExtendedHeader_Append (b : list byte) (h : ExtendedHeader) (v : Z) : res (list byte) :=
  let hdr := ext_header h in
  if MaxConnIDLen <? ConnectionID_Len (DestConnectionID hdr)
  then Err (ErrorString "invalid connection ID length: %d bytes"
              [ConnectionID_Len (DestConnectionID hdr)]) else
  if MaxConnIDLen <? ConnectionID_Len (SrcConnectionID hdr)
  then Err (ErrorString "invalid connection ID length: %d bytes"
              [ConnectionID_Len (SrcConnectionID hdr)]) else
  let packetType := longHeaderType v (Type_ hdr) in
  let firstByte := Z.lor 0xc0 (u8 (Z.shiftl packetType 4)) in
  let firstByte := if decide (Type_ hdr ≠ PacketTypeRetry)
                   then Z.lor firstByte (u8 (PacketNumberLen h - 1)) else firstByte in
  let b := b ++ [z2b firstByte] in
  let b := b ++ be_bytes 4 (u32 (Version hdr)) in
  let b := b ++ [z2b (ConnectionID_Len (DestConnectionID hdr))] in
  let b := b ++ DestConnectionID hdr in
  let b := b ++ [z2b (ConnectionID_Len (SrcConnectionID hdr))] in
  let b := b ++ SrcConnectionID hdr in
  if decide (Type_ hdr = PacketTypeRetry) then Ok (b ++ Token hdr) else
  b ← (if decide (Type_ hdr = PacketTypeInitial) then
         b ← Append b (u64 (len (Token hdr)));
         Ok (b ++ Token hdr)
       else Ok b);
  b ← AppendWithLen b (u64 (Length hdr)) 2;
  appendPacketNumber b (PacketNumber h) (PacketNumberLen h).

Definition GetLength (h : ExtendedHeader) : res Z :=
  let hdr := ext_header h in
  let length := 1 + 4 + 1 + ConnectionID_Len (DestConnectionID hdr) + 1 +
    ConnectionID_Len (SrcConnectionID hdr) + PacketNumberLen h + 2 in
  if decide (Type_ hdr = PacketTypeInitial) then
    l ← Len (u64 (len (Token hdr)));
    Ok (length + (l + len (Token hdr)))
  else Ok length.

(** ** Short headers *)

(** The last component says whether the error is nil; otherwise it is
    [ErrInvalidReservedBits] and the other results are returned with it. *)
Definition ParseShortHeader (data : list byte) (connIDLen : Z)
  : res (Z * Z * Z * KeyPhaseBit * bool) :=
  if len data =? 0 then Err io_EOF else
  b0 ← idx data 0;
  if 0 <? Z.land (b2z b0) 0x80 then Err (ErrorString "not a short header packet" []) else
  if Z.land (b2z b0) 0x40 =? 0 then Err (ErrorString "not a QUIC packet" []) else
  let pnLen := Z.land (b2z b0) 3 + 1 in
  if len data <? 1 + pnLen + connIDLen then Err io_EOF else
  let pos := 1 + connIDLen in
  d ← slice_from data pos;
  pn ← readPacketNumber d pnLen;
  let kp := if 0 <? Z.land (b2z b0) 4 then KeyPhaseOne else KeyPhaseZero in
  Ok (1 + connIDLen + pnLen, pn, pnLen, kp, Z.land (b2z b0) 0x18 =? 0).

Definition AppendShortHeader (b : list byte) (connID : ConnectionID) (pn pnLen : Z)
    (kp : KeyPhaseBit) : res (list byte) :=
  let typeByte := Z.lor 0x40 (u8 (pnLen - 1)) in
  let typeByte := if decide (kp = KeyPhaseOne) then Z.lor typeByte 4 else typeByte in
  let b := b ++ [z2b typeByte] in
  let b := b ++ connID in
  appendPacketNumber b pn pnLen.

Definition ShortHeaderLen (dest : ConnectionID) (pnLen : Z) : Z :=
  1 + ConnectionID_Len dest + pnLen.

(** ** Version Negotiation packets *)

(** [for i := 0; len(b) > 0; i++]: four bytes per iteration. *)
Fixpoint readVersions (n : nat) (b : list byte) : res (list Z) :=
  if len b =? 0 then Ok [] else
  match n with
  | O => Panic
  | S n =>
      v ← slice_to b 4;
      version ← Uint32 v;
      b ← slice_from b 4;
      versions ← readVersions n b;
      Ok (version :: versions)
  end.

Definition ParseVersionNegotiationPacket (b : list byte) : res (list byte * list byte * list Z) :=
  '(n, dest, src) ← ParseArbitraryLenConnectionIDs b;
  b ← slice_from b n;
  if len b =? 0
  then Err (ErrorString "Version Negotiation packet has empty version list" []) else
  if negb (len b mod 4 =? 0)
  then Err (ErrorString "Version Negotiation packet has a version list with an invalid length" [])
  else
  versions ← readVersions (Z.to_nat (len b / 4)) b;
  Ok (dest, src, versions).

(** The random numbers are arguments: the first byte that [rand.Read] gives, and
    those of [GetGreasedVersions]. *)
Definition ComposeVersionNegotiation (randByte : byte) (randPos : nat) (randomBits : Z)
    (destConnID srcConnID : list byte) (versions : list Z) : list byte :=
  let greasedVersions := GetGreasedVersions randPos randomBits versions in
  let buf := [z2b (Z.lor (b2z randByte) 0xc0); x00; x00; x00; x00] in
  let buf := buf ++ [z2b (len destConnID)] in
  let buf := buf ++ destConnID in
  let buf := buf ++ [z2b (len srcConnID)] in
  let buf := buf ++ srcConnID in
  foldl (λ buf v, buf ++ be_bytes 4 (u32 v)) buf greasedVersions.

(** ** Packet numbers: round trip *)
Lemma appendPacketNumber_eq b pn n :
  1 ≤ n ≤ 4 → appendPacketNumber b pn n = Ok (b ++ be_bytes (Z.to_nat n) pn).
Proof.
  intros Hn. unfold appendPacketNumber, u16, u32.
  assert (n = 1 ∨ n = 2 ∨ n = 3 ∨ n = 4) as [->|[->|[->| ->]]] by lia.
  - done.
  - cbn [Z.eqb Pos.eqb]. by rewrite be_bytes_mod by lia.
  - cbn [Z.eqb Pos.eqb]. by rewrite be_bytes_mod by lia.
  - cbn [Z.eqb Pos.eqb]. by rewrite be_bytes_mod by lia.
Qed.

Lemma take_be_bytes n x rest : take n (be_bytes n x ++ rest) = be_bytes n x.
Proof. apply take_app_length'. by rewrite length_be_bytes. Qed.

Lemma three_bytes a b c :
  0 ≤ a < 256 → 0 ≤ b < 256 → 0 ≤ c < 256 →
  u32 (u32 (c + u32 (Z.shiftl b 8)) + u32 (Z.shiftl a 16)) = ((0 * 256 + a) * 256 + b) * 256 + c.
Proof.
  intros. rewrite !Z.shiftl_mul_pow2 by lia.
  rewrite (u32_small (b * 2 ^ 8)), (u32_small (a * 2 ^ 16)), (u32_small (c + _)) by lia.
  rewrite u32_small; lia.
Qed.

Lemma readPacketNumber_eq pn n rest :
  1 ≤ n ≤ 4 →
  readPacketNumber (be_bytes (Z.to_nat n) pn ++ rest) n = Ok (pn mod 256 ^ n).
Proof.
  intros Hn. unfold readPacketNumber, Uint16, Uint32.
  assert (n = 1 ∨ n = 2 ∨ n = 3 ∨ n = 4) as [->|[->|[->| ->]]] by lia; cbn [Z.eqb Pos.eqb].
  - change (Z.to_nat 1) with 1%nat. rewrite be_bytes_1. cbn [app]. rewrite idx_cons_0. simpl.
    by rewrite b2z_z2b.
  - rewrite slice_to_app by by rewrite len_be_bytes. cbn [mbind result_bind].
    rewrite len_be_bytes. cbn [Z.ltb]. rewrite <-(app_nil_r (be_bytes _ _)).
    rewrite (take_be_bytes 2). by rewrite be_value_be_bytes.
  - change (Z.to_nat 3) with 3%nat. cbn [be_bytes app].
    rewrite idx_cons_2, idx_cons_1, idx_cons_0.
    cbn [mbind result_bind]. rewrite !b2z_z2b. f_equal.
    change (pn mod 256 ^ 3) with (pn mod 256 ^ Z.of_nat 3). rewrite <-be_value_be_bytes.
    unfold be_value. cbn [be_bytes foldl]. rewrite !b2z_z2b.
    apply three_bytes; apply u8_range.
  - rewrite slice_to_app by by rewrite len_be_bytes. cbn [mbind result_bind].
    rewrite len_be_bytes. cbn [Z.ltb]. rewrite <-(app_nil_r (be_bytes _ _)).
    rewrite (take_be_bytes 4). by rewrite be_value_be_bytes.
Qed.

Lemma readPacketNumber_take d n :
  1 ≤ n ≤ 4 → n ≤ len d → readPacketNumber d n = Ok (be_value (take (Z.to_nat n) d)).
Proof.
  intros Hn Hd. assert (length (take (Z.to_nat n) d) = Z.to_nat n) as Hl.
  { rewrite length_take. unfold len in Hd. lia. }
  rewrite <-(take_drop (Z.to_nat n) d) at 1. rewrite <-(be_bytes_be_value (take _ d)) at 1.
  rewrite Hl, readPacketNumber_eq by done. f_equal. apply Z.mod_small.
  pose proof (be_value_range (take (Z.to_nat n) d)) as Hr. rewrite len_take in Hr by lia. done.
Qed.

(** ** Short headers: round trip *)
Definition short_first (pnLen : Z) (kp : KeyPhaseBit) : Z :=
  let typeByte := Z.lor 0x40 (u8 (pnLen - 1)) in
  if decide (kp = KeyPhaseOne) then Z.lor typeByte 4 else typeByte.

Lemma short_first_spec n kp :
  1 ≤ n ≤ 4 →
  let b := b2z (z2b (short_first n kp)) in
  (0 <? Z.land b 0x80) = false ∧ (Z.land b 0x40 =? 0) = false ∧ Z.land b 3 + 1 = n ∧
  (Z.land b 0x18 =? 0) = true ∧
  (if 0 <? Z.land b 4 then KeyPhaseOne else KeyPhaseZero) =
    (if decide (kp = KeyPhaseOne) then KeyPhaseOne else KeyPhaseZero).
Proof.
  intros Hn. assert (n = 1 ∨ n = 2 ∨ n = 3 ∨ n = 4) as [->|[->|[->| ->]]] by lia;
    destruct kp; by vm_compute.
Qed.

Definition short_header (connID : ConnectionID) (pn pnLen : Z) (kp : KeyPhaseBit) : list byte :=
  z2b (short_first pnLen kp) :: connID ++ be_bytes (Z.to_nat pnLen) pn.

Lemma AppendShortHeader_eq b connID pn n kp :
  1 ≤ n ≤ 4 → AppendShortHeader b connID pn n kp = Ok (b ++ short_header connID pn n kp).
Proof.
  intros Hn. unfold AppendShortHeader, short_header. rewrite appendPacketNumber_eq by done.
  fold (short_first n kp). by rewrite <-!app_assoc.
Qed.

Lemma ParseShortHeader_eq connID pn n kp rest :
  1 ≤ n ≤ 4 →
  ParseShortHeader (short_header connID pn n kp ++ rest) (len connID) =
  Ok (ShortHeaderLen connID n, pn mod 256 ^ n, n,
      if decide (kp = KeyPhaseOne) then KeyPhaseOne else KeyPhaseZero, true).
Proof.
  intros Hn. unfold ParseShortHeader, short_header. cbn [app].
  rewrite idx_cons_0, !len_cons, <-app_assoc.
  destruct (short_first_spec n kp Hn) as (H1&H2&H3&H4&H5).
  cbn [mbind result_bind]. rewrite H1, H2, H3, H4, H5. rewrite !len_app, len_be_bytes.
  do 2 (zcase; [len_lia|]).
  rewrite (app_comm_cons connID), slice_from_app by by rewrite len_cons.
  cbn [mbind result_bind]. rewrite readPacketNumber_eq by done. done.
Qed.

(** ** Long headers: round trip *)
Definition long_first (v : Z) (type : PacketType) (pnLen : Z) : Z :=
  let firstByte := Z.lor 0xc0 (u8 (Z.shiftl (longHeaderType v type) 4)) in
  if decide (type ≠ PacketTypeRetry) then Z.lor firstByte (u8 (pnLen - 1)) else firstByte.

Lemma long_first_spec v type n :
  (v = Version1 ∨ v = Version2) → type ≠ PacketTypeUnset → 1 ≤ n ≤ 4 →
  let b := z2b (long_first v type n) in
  IsLongHeaderPacket b = true ∧ (Z.land (b2z b) 0x40 =? 0) = false ∧ packetTypeOf v b = type ∧
  (type ≠ PacketTypeRetry → Z.land (b2z b) 3 + 1 = n ∧ (Z.land (b2z b) 0xc =? 0) = true).
Proof.
  intros Hv Ht Hn. assert (n = 1 ∨ n = 2 ∨ n = 3 ∨ n = 4) as [->|[->|[->| ->]]] by lia;
    destruct Hv as [-> | ->], type; try done; by vm_compute.
Qed.

Definition is_long (type : PacketType) : Prop :=
  type = PacketTypeInitial ∨ type = PacketTypeHandshake ∨ type = PacketType0RTT.

(** The headers that the packet packer writes: the length field has two bytes. *)
Definition valid_long (h : ExtendedHeader) (v : Z) : Prop :=
  let hdr := ext_header h in
  (v = Version1 ∨ v = Version2) ∧ Version hdr = v ∧ is_long (Type_ hdr) ∧
  len (DestConnectionID hdr) ≤ MaxConnIDLen ∧ len (SrcConnectionID hdr) ≤ MaxConnIDLen ∧
  is_varint (len (Token hdr)) ∧ (Type_ hdr ≠ PacketTypeInitial → Token hdr = []) ∧
  0 ≤ Length hdr ≤ 16383 ∧ 1 ≤ PacketNumberLen h ≤ 4.

Definition conn_ids (hdr : Header) : list byte :=
  [z2b (len (DestConnectionID hdr))] ++ DestConnectionID hdr ++
  [z2b (len (SrcConnectionID hdr))] ++ SrcConnectionID hdr.

Definition token_field (hdr : Header) : list byte :=
  if decide (Type_ hdr = PacketTypeInitial) then venc (len (Token hdr)) ++ Token hdr else [].

(** The header up to the packet number. *)
Definition long_prefix (h : ExtendedHeader) : list byte :=
  let hdr := ext_header h in
  [z2b (long_first (Version hdr) (Type_ hdr) (PacketNumberLen h))] ++
  be_bytes 4 (Version hdr) ++ conn_ids hdr ++ token_field hdr ++ venc_len 2 (Length hdr).

Definition long_header (h : ExtendedHeader) : list byte :=
  long_prefix h ++ be_bytes (Z.to_nat (PacketNumberLen h)) (PacketNumber h).

Lemma long_append b h v :
  valid_long h v → ExtendedHeader_Append b h v = Ok (b ++ long_header h).
Proof.
  intros (Hv&Hver&Ht&Hd&Hs&Htok&_&Hlen&Hn). unfold ExtendedHeader_Append, ConnectionID_Len.
  repeat zcase. unfold long_header, long_prefix, conn_ids, token_field.
  rewrite Hver. assert (Type_ (ext_header h) ≠ PacketTypeRetry) as Hr.
  { by destruct Ht as [->|[->| ->]]. }
  destruct (decide (_ = PacketTypeRetry)) as [|_]; [done|].
  fold (long_first v (Type_ (ext_header h)) (PacketNumberLen h)).
  unfold u32. rewrite be_bytes_mod by lia.
  rewrite (u64_small (Length (ext_header h))) by lia.
  assert (vlen (Length (ext_header h)) ≤ 2).
  { transitivity (vlen 16383); [apply vlen_mono; lia|done]. }
  destruct (decide (_ = PacketTypeInitial)); wrun;
    rewrite AppendWithLen_venc by (unfold is_varint, maxVarInt8; lia);
    cbn [mbind result_bind]; rewrite appendPacketNumber_eq by done;
    by rewrite <-!app_assoc.
Qed.

Lemma len_long_prefix h :
  len (long_prefix h) =
  9 + len (DestConnectionID (ext_header h)) + len (SrcConnectionID (ext_header h)) +
  len (token_field (ext_header h)).
Proof.
  unfold long_prefix, conn_ids. autorewrite with quic. rewrite len_venc_len by lia. lia.
Qed.

Lemma long_length h v : valid_long h v → GetLength h = Ok (len (long_header h)).
Proof.
  intros (_&_&_&_&_&Htok&_&_&Hn). unfold long_header. rewrite len_app, len_long_prefix.
  unfold GetLength, token_field, ConnectionID_Len. rewrite len_be_bytes, Z2Nat.id by lia.
  destruct (decide _); wrun; f_equal; autorewrite with quic; lia.
Qed.

Lemma Uint32_be_bytes x : 0 ≤ x < 2 ^ 32 → Uint32 (be_bytes 4 x) = Ok x.
Proof.
  intros Hx. unfold Uint32. rewrite len_be_bytes. cbn [Z.ltb Z.compare Pos.compare].
  rewrite <-(app_nil_r (be_bytes 4 x)), take_be_bytes, be_value_be_bytes.
  by rewrite Z.mod_small.
Qed.

Lemma ParseConnectionID_small c :
  len c ≤ maxConnectionIDLen → Protocol.ParseConnectionID c = Ok c.
Proof. intros. unfold Protocol.ParseConnectionID. by zcase. Qed.

(** A slice that starts with [a], a byte [x] and [t]. *)
Lemma read_field a (x : byte) t i :
  i = len a →
  slice_to (E:=error) (a ++ x :: t) i = Ok a ∧ idx (E:=error) (a ++ x :: t) i = Ok x ∧
  slice_from (E:=error) (a ++ x :: t) (i + 1) = Ok t ∧ len (a ++ x :: t) = i + 1 + len t.
Proof.
  intros ->. split_and!.
  - by apply slice_to_app.
  - by apply idx_middle.
  - rewrite cons_middle, app_assoc. apply slice_from_app. by rewrite len_app.
  - len_lia.
Qed.

Lemma len_byte (c : list byte) : len c ≤ 20 → b2z (z2b (len c)) = len c.
Proof. intros Hc. rewrite b2z_z2b. apply u8_small. len_lia. Qed.

(** The invariant part of the header. *)
Lemma parseLongHeader_invariant tb v hdr rest :
  0 ≤ v < 2 ^ 32 → v = 0 ∨ (Z.land (b2z tb) 0x40 =? 0) = false →
  len (DestConnectionID hdr) ≤ MaxConnIDLen → len (SrcConnectionID hdr) ≤ MaxConnIDLen →
  let b := be_bytes 4 v ++ conn_ids hdr ++ rest in
  parseLongHeader tb b =
  parseAfterConnIDs tb v (SrcConnectionID hdr) (DestConnectionID hdr) (len b) rest.
Proof.
  intros Hv Htb Hd Hs. cbv zeta. unfold parseLongHeader, MaxConnIDLen in *.
  unfold conn_ids. rewrite <-!app_assoc. cbn [app].
  set (t2 := SrcConnectionID hdr ++ rest).
  set (t1 := DestConnectionID hdr ++ _ :: t2).
  destruct (read_field (be_bytes 4 v) (z2b (len (DestConnectionID hdr))) t1 4)
    as (E1&E2&E3&E4); [by rewrite len_be_bytes|].
  destruct (read_field (DestConnectionID hdr) (z2b (len (SrcConnectionID hdr))) t2
    (len (DestConnectionID hdr))) as (F1&F2&F3&F4); [done|].
  fold t1 in F1, F2, F3, F4. rewrite E1, E2, E4. change 5 with (4 + 1). rewrite E3.
  zcase; [len_lia|]. cbn [mbind result_bind]. rewrite Uint32_be_bytes by done.
  cbn [mbind result_bind]. destruct (negb (v =? 0) && (Z.land (b2z tb) 64 =? 0)) eqn:Hq.
  { apply andb_true_iff in Hq as [?%negb_true_iff%Z.eqb_neq ?]. destruct Htb; congruence. }
  rewrite len_byte by done. zcase. rewrite F4. zcase; [len_lia|].
  rewrite F1, F2, F3. cbn [mbind result_bind]. rewrite ParseConnectionID_small by done.
  cbn [mbind result_bind]. rewrite len_byte by done. zcase.
  unfold t2. rewrite len_app. zcase; [len_lia|].
  rewrite slice_to_app, slice_from_app by done. cbn [mbind result_bind].
  by rewrite ParseConnectionID_small by done.
Qed.

Lemma parseAfter_long h v startLen rest :
  valid_long h v →
  let hdr := ext_header h in
  let tb := z2b (long_first v (Type_ hdr) (PacketNumberLen h)) in
  parseAfterConnIDs tb v (SrcConnectionID hdr) (DestConnectionID hdr) startLen
    (token_field hdr ++ venc_len 2 (Length hdr) ++ rest) =
  Ok (mkHeader tb (Type_ hdr) v (SrcConnectionID hdr) (DestConnectionID hdr)
        (Length hdr) (Token hdr) 0, startLen - len rest, false).
Proof.
  intros (Hv&_&Ht&_&_&Htok&Hnotok&Hlen&Hn) hdr tb. fold hdr in Ht, Htok, Hnotok, Hlen.
  assert (Type_ hdr ≠ PacketTypeUnset ∧ Type_ hdr ≠ PacketTypeRetry) as [??].
  { by destruct Ht as [->|[->| ->]]. }
  destruct (long_first_spec v (Type_ hdr) (PacketNumberLen h) Hv) as (_&_&Htype&_); [done..|].
  fold tb in Htype. unfold parseAfterConnIDs. rewrite Htype.
  assert ((v =? 0) = false ∧ IsSupportedVersion SupportedVersions v = true) as [-> ->].
  { by destruct Hv as [-> | ->]. }
  cbn [negb]. rewrite decide_False by done.
  assert (Parse (venc_len 2 (Length hdr) ++ rest) = Ok (Length hdr, 2)) as Hpl.
  { apply Parse_venc_len; [lia|unfold is_varint, maxVarInt8; lia|].
    transitivity (vlen 16383); [apply vlen_mono; lia|done]. }
  unfold token_field. destruct (decide (_ = PacketTypeInitial)).
  - rewrite <-app_assoc. rewrite Parse_venc by done. cbn [mbind result_bind].
    rewrite slice_from_venc. cbn [mbind result_bind]. zcase; [len_lia|].
    rewrite slice_to_app, slice_from_app by done. cbn [mbind result_bind].
    rewrite make_copy_all by done.
    cbn [mbind result_bind]. rewrite Hpl. cbn [mbind result_bind].
    rewrite i64_small by lia. do 3 f_equal. rewrite len_app, len_venc_len by lia. lia.
  - cbn [app mbind result_bind]. rewrite Hpl. cbn [mbind result_bind].
    rewrite i64_small, Hnotok by (done || lia). do 3 f_equal.
    rewrite len_app, len_venc_len by lia. lia.
Qed.

(** The header that the receiver reconstructs. *)
Definition received_header (h : ExtendedHeader) : Header :=
  let hdr := ext_header h in
  mkHeader (z2b (long_first (Version hdr) (Type_ hdr) (PacketNumberLen h))) (Type_ hdr)
    (Version hdr) (SrcConnectionID hdr) (DestConnectionID hdr) (Length hdr) (Token hdr)
    (len (long_prefix h)).

Lemma version_range v : v = Version1 ∨ v = Version2 → 0 ≤ v < 2 ^ 32.
Proof. by intros [-> | ->]. Qed.

Lemma long_parseHeader h v rest :
  valid_long h v → parseHeader (long_prefix h ++ rest) = Ok (received_header h, false).
Proof.
  intros Hval. pose proof Hval as (Hv&Hver&Ht&Hd&Hs&Htok&_&Hlen&Hn).
  unfold parseHeader, received_header, long_prefix. rewrite Hver. cbn [app].
  rewrite len_cons. zcase; [len_lia|]. rewrite idx_cons_0, slice_from_cons.
  cbn [mbind result_bind]. set (tb := z2b _).
  destruct (long_first_spec v (Type_ (ext_header h)) (PacketNumberLen h) Hv)
    as (_&Hq&_&_); [by destruct Ht as [->|[->| ->]]|done|].
  rewrite <-!app_assoc, parseLongHeader_invariant by (auto using version_range).
  unfold tb. rewrite (parseAfter_long h v) by done. cbn [mbind result_bind]. unfold set_parsedLen.
  do 3 f_equal. autorewrite with quic. lia.
Qed.

Lemma long_ParsePacket h v payload rest :
  valid_long h v → len payload = Length (ext_header h) - PacketNumberLen h →
  ParsePacket (long_header h ++ payload ++ rest) =
  Ok (Packet (received_header h) (long_header h ++ payload) rest).
Proof.
  intros Hval Hpay. pose proof Hval as (Hv&Hver&Ht&Hd&Hs&Htok&_&Hlen&Hn).
  assert (len (long_header h) = len (long_prefix h) + PacketNumberLen h) as Hl.
  { unfold long_header. rewrite len_app, len_be_bytes. lia. }
  pose proof (len_long_prefix h) as Hp.
  unfold ParsePacket. rewrite app_assoc, len_app.
  zcase; [rewrite len_app in *; len_pose; lia|].
  assert (∃ t, (long_header h ++ payload) ++ rest =
    z2b (long_first (Version (ext_header h)) (Type_ (ext_header h)) (PacketNumberLen h)) :: t)
    as [t Hdata] by by eexists.
  rewrite Hdata, idx_cons_0, <-Hdata. cbn [mbind result_bind].
  destruct (long_first_spec v (Type_ (ext_header h)) (PacketNumberLen h) Hv)
    as (Hlong&_); [by destruct Ht as [->|[->| ->]]|done|].
  rewrite Hver, Hlong. cbn [negb].
  assert (parseHeader ((long_header h ++ payload) ++ rest) = Ok (received_header h, false)) as ->.
  { unfold long_header. rewrite <-!app_assoc. by apply (long_parseHeader h v). }
  cbn [mbind result_bind]. unfold token_field in Hp.
  assert (len (long_prefix h) < 2 ^ 62 + 100).
  { rewrite Hp. unfold MaxConnIDLen, is_varint, maxVarInt8 in *.
    destruct (decide _); rewrite ?len_app, ?len_venc, ?len_nil;
      pose proof (vlen_pos (len (Token (ext_header h)))); lia. }
  cbn [parsedLen Length received_header]. len_pose.
  rewrite (i64_small (len (long_prefix h) + _)) by lia.
  rewrite len_app. zcase. by rewrite slice_to_app, slice_from_app by (rewrite len_app; lia).
Qed.

Lemma long_ParseExtended h v payload :
  valid_long h v →
  ParseExtended (received_header h) (long_header h ++ payload) =
  Ok (mkExtendedHeader (received_header h) (typeByte (received_header h)) (PacketNumberLen h)
        (PacketNumber h mod 256 ^ PacketNumberLen h) (len (long_header h)), true).
Proof.
  intros Hval. pose proof Hval as (Hv&Hver&Ht&Hd&Hs&Htok&_&Hlen&Hn).
  assert (len (long_header h) = len (long_prefix h) + PacketNumberLen h) as Hl.
  { unfold long_header. rewrite len_app, len_be_bytes. lia. }
  unfold ParseExtended, ExtendedHeader_parse.
  assert (∃ t, long_header h ++ payload =
    z2b (long_first (Version (ext_header h)) (Type_ (ext_header h)) (PacketNumberLen h)) :: t)
    as [t Hdata] by by eexists.
  rewrite Hdata at 1. rewrite idx_cons_0. cbn [mbind result_bind].
  destruct (long_first_spec v (Type_ (ext_header h)) (PacketNumberLen h) Hv)
    as (_&_&_&Hrest); [by destruct Ht as [->|[->| ->]]|done|].
  destruct Hrest as [Hpn Hres]; [by destruct Ht as [->|[->| ->]]|].
  rewrite Hver, Hpn, Hres. cbn [parsedLen received_header]. rewrite len_app.
  zcase; [len_lia|]. replace (slice_from (long_header h ++ payload) (len (long_prefix h)))
    with (Ok (E:=error) (be_bytes (Z.to_nat (PacketNumberLen h)) (PacketNumber h) ++ payload)).
  - cbn [mbind result_bind]. rewrite readPacketNumber_eq by done. rewrite Hl.
    unfold received_header. by rewrite Hver.
  - symmetry. unfold long_header. rewrite <-app_assoc. by apply slice_from_app.
Qed.

(** ** Parsing of arbitrary packets *)

(** The invariant fields of a header that was parsed from a packet, and the
    bytes of the packet they come from. *)
Definition header_of (tb : byte) (b : list byte) (h : Header) : Prop :=
  typeByte h = tb ∧ len (DestConnectionID h) ≤ MaxConnIDLen ∧
  len (SrcConnectionID h) ≤ MaxConnIDLen ∧ is_varint (Length h) ∧
  Type_ h = (if (Version h =? 0) || negb (IsSupportedVersion SupportedVersions (Version h))
             then PacketTypeUnset else packetTypeOf (Version h) tb) ∧
  ∃ vb dl tail, b = vb ++ dl :: DestConnectionID h ++ tail ∧ len vb = 4 ∧
    b2z dl = len (DestConnectionID h) ∧ Version h = be_value vb.

Lemma wp_parseAfterConnIDs tb v src dest startLen b :
  len b ≤ startLen →
  wp (parseAfterConnIDs tb v src dest startLen b) (λ '(h, l, unsupported),
    unsupported = negb (v =? 0) && negb (IsSupportedVersion SupportedVersions v) ∧
    typeByte h = tb ∧ DestConnectionID h = dest ∧ SrcConnectionID h = src ∧ Version h = v ∧
    is_varint (Length h) ∧
    Type_ h = (if (v =? 0) || negb (IsSupportedVersion SupportedVersions v)
               then PacketTypeUnset else packetTypeOf v tb) ∧
    startLen - len b ≤ l ≤ startLen).
Proof.
  intros Hb. assert (is_varint 0) by done. pose proof (len_nonneg b). unfold parseAfterConnIDs.
  destruct (v =? 0); [cbn; split_and!; done || lia|].
  destruct (IsSupportedVersion _ v); cbn [negb orb andb]; [|cbn; split_and!; done || lia].
  case_decide.
  - zcase; [done|]. apply wp_bind, wp_slice_to; [lia|]. intros t Ht _.
    apply wp_bind, wp_make_copy; [lia|]. intros token _ _. cbn. split_and!; done || lia.
  - apply wp_bind, wp_mono with (Q := λ '(_, b'), len b' ≤ len b).
    { case_decide; [|simpl; lia]. apply wp_bind, wp_Parse. intros tl n Htl Hn _.
      apply wp_bind, wp_slice_from; [lia|]. intros b1 Hb1 _. zcase; [done|].
      unfold is_varint in *. apply wp_bind, wp_slice_to; [lia|]. intros t Ht _.
      apply wp_bind, wp_make_copy; [lia|]. intros token _ _.
      apply wp_bind, wp_slice_from; [lia|]. intros b2 Hb2 _. simpl. lia. }
    intros [token b'] Hb'. apply wp_bind, wp_Parse. intros pl n Hpl Hn _.
    cbn. rewrite i64_varint by done. split_and!; done || lia.
Qed.

Lemma wp_ParseConnectionID c (Q : list byte → Prop) :
  len c ≤ maxConnectionIDLen → Q c → wp (Protocol.ParseConnectionID c) Q.
Proof. intros. by rewrite ParseConnectionID_small. Qed.

Lemma wp_parseLongHeader tb b :
  wp (parseLongHeader tb b) (λ '(h, l, unsupported),
    header_of tb b h ∧ 0 < l ≤ len b ∧
    unsupported = negb (Version h =? 0) &&
      negb (IsSupportedVersion SupportedVersions (Version h))).
Proof.
  unfold parseLongHeader, MaxConnIDLen. zcase; [done|].
  apply wp_bind, wp_slice_to; [lia|]. intros vb Hvb Eb.
  assert (∃ v, Uint32 vb = Ok v ∧ v = be_value vb) as (v&->&Hv).
  { unfold Uint32. zcase. eexists. split; [done|]. rewrite take_ge; [done|]. unfold len in *. lia. }
  cbn [mbind result_bind]. destruct (negb (v =? 0) && _); [done|].
  apply wp_bind, wp_idx; [lia|]. intros dl Hdl. pose proof (b2z_range dl). zcase; [done|].
  apply wp_bind, wp_slice_from; [lia|]. intros b1 Hb1 Eb1.
  assert (b = vb ++ dl :: b1) as Eb'.
  { rewrite Eb1. change (Z.to_nat 5) with (S (Z.to_nat 4)).
    rewrite (take_S_r _ _ _ Hdl), <-app_assoc. cbn [app]. f_equal.
    rewrite Eb. rewrite <-Hvb at 1. by rewrite take_len_app. }
  zcase; [done|]. apply wp_bind, wp_slice_to; [lia|]. intros dest Hdest Ed.
  apply wp_bind, wp_ParseConnectionID; [unfold maxConnectionIDLen; lia|].
  apply wp_bind, wp_idx; [lia|]. intros sl _. pose proof (b2z_range sl). zcase; [done|].
  apply wp_bind, wp_slice_from; [lia|]. intros b2 Hb2 _. zcase; [done|].
  apply wp_bind, wp_slice_to; [lia|]. intros src Hsrc _.
  apply wp_bind, wp_ParseConnectionID; [unfold maxConnectionIDLen; lia|].
  apply wp_bind, wp_slice_from; [lia|]. intros b3 Hb3 _. len_pose.
  eapply wp_mono; [apply wp_parseAfterConnIDs; lia|].
  intros [[h l] u] (?&?&Hd&Hs&Hver&?&Hty&?). unfold header_of, MaxConnIDLen.
  rewrite Hd, Hs, Hver. split_and!; try done; try lia.
  exists vb, dl, (drop (Z.to_nat (b2z dl)) b1). split_and!; try done.
  by rewrite <-Ed.
Qed.

Lemma wp_ParsePacket data :
  len data < 2 ^ 62 →
  wp (ParsePacket data) (λ r,
    ∃ tb b, data = tb :: b ∧ IsLongHeaderPacket tb = true ∧
    match r with
    | Packet hdr packet rest => header_of tb b hdr ∧ data = packet ++ rest ∧
        len packet = parsedLen hdr + Length hdr ∧ 1 < parsedLen hdr ∧
        (Version hdr = 0 ∨ IsSupportedVersion SupportedVersions (Version hdr) = true)
    | UnsupportedVersion hdr => header_of tb b hdr ∧ 1 < parsedLen hdr ≤ len data
    end).
Proof.
  intros Hlen. unfold ParsePacket, parseHeader.
  destruct data as [|tb b]; [done|]. rewrite len_cons in *. zcase; [done|].
  rewrite idx_cons_0, slice_from_cons. cbn [mbind result_bind].
  destruct (IsLongHeaderPacket tb) eqn:Htb; [|done]. cbn [negb].
  pose proof (wp_parseLongHeader tb b) as Hp.
  destruct (parseLongHeader tb b) as [[[h l] u]| |]; [|done..]. destruct Hp as (Hh&Hl&Hu).
  cbn [mbind result_bind]. assert (header_of tb b (set_parsedLen h (l + 1))) as Hh' by done.
  destruct u.
  { exists tb, b. split_and!; try done; cbn; lia. }
  assert (0 ≤ Length h ≤ maxVarInt8) as HL by apply Hh. unfold maxVarInt8 in HL.
  cbn [parsedLen Length set_parsedLen].
  rewrite (i64_small (l + 1 + Length h)) by lia. zcase; [done|].
  unfold slice_to, slice_from. rewrite len_cons. repeat zcase. cbn [mbind result_bind].
  apply wp_ok. exists tb, b. split_and!; try done; cbn [parsedLen set_parsedLen Version]; try lia.
  - by rewrite take_drop.
  - rewrite len_take by (rewrite len_cons; lia). done.
  - destruct (Z.eqb_spec (Version h) 0); [by left|right].
    by destruct (IsSupportedVersion _ _).
Qed.

(** The functions that look at single fields of a packet agree with the parser. *)
Lemma packetTypeOf_0RTT v tb :
  (packetTypeOf v tb = PacketType0RTT) ↔
  Z.land (Z.shiftr (b2z tb) 4) 3 = if v =? Version2 then 2 else 1.
Proof.
  unfold packetTypeOf. destruct (v =? Version2); repeat case_match;
    rewrite ?Z.eqb_eq, ?Z.eqb_neq in *; split; congruence.
Qed.

Lemma is0RTT_type v tb :
  (if v =? Version1 then Ok (Z.land (Z.shiftr (b2z tb) 4) 3 =? 1)
   else if v =? Version2 then Ok (Z.land (Z.shiftr (b2z tb) 4) 3 =? 2)
   else Ok false) =
  Ok (bool_decide ((if (v =? 0) || negb (IsSupportedVersion SupportedVersions v)
                    then PacketTypeUnset else packetTypeOf v tb) = PacketType0RTT)) :> res bool.
Proof.
  cbn [IsSupportedVersion SupportedVersions].
  destruct (Z.eqb_spec v Version1) as [->|]; [|destruct (Z.eqb_spec v Version2) as [->|]].
  - f_equal. apply eq_bool_prop_intro. rewrite bool_decide_spec, Is_true_true, Z.eqb_eq.
    symmetry. exact (packetTypeOf_0RTT Version1 tb).
  - f_equal. apply eq_bool_prop_intro. rewrite bool_decide_spec, Is_true_true, Z.eqb_eq.
    symmetry. exact (packetTypeOf_0RTT Version2 tb).
  - rewrite (proj2 (Z.eqb_neq Version1 v)), (proj2 (Z.eqb_neq Version2 v)) by done.
    by rewrite orb_true_r.
Qed.

Lemma be_value_4 v0 v1 v2 v3 :
  be_value [v0; v1; v2; v3] = ((b2z v0 * 256 + b2z v1) * 256 + b2z v2) * 256 + b2z v3.
Proof. done. Qed.

Lemma quick_parsers tb b h n :
  header_of tb b h → IsLongHeaderPacket tb = true →
  ParseConnectionID (tb :: b) n = Ok (DestConnectionID h) ∧
  ParseVersion (tb :: b) = Ok (Version h) ∧
  IsVersionNegotiationPacket (tb :: b) = Ok (Version h =? 0) ∧
  Is0RTTPacket (tb :: b) = Ok (bool_decide (Type_ h = PacketType0RTT)).
Proof.
  intros (_&Hd&_&_&Hty&vb&dl&tail&->&Hvb&Hdl&Hver) Htb.
  destruct vb as [|v0 [|v1 [|v2 [|v3 [|]]]]];
    try (exfalso; rewrite ?len_cons, ?len_nil in Hvb; len_lia). cbn [app].
  set (t := dl :: DestConnectionID h ++ tail). assert (0 ≤ len t) by apply len_nonneg.
  assert (len (tb :: v0 :: v1 :: v2 :: v3 :: t) = 5 + len t) as Hlen by len_lia.
  assert (slice (E:=error) (tb :: v0 :: v1 :: v2 :: v3 :: t) 1 5 = Ok [v0; v1; v2; v3]) as Hsl
    by by apply (slice_middle [tb] [v0; v1; v2; v3] t).
  assert (Uint32 [v0; v1; v2; v3] = Ok (Version h)) as Hu by by rewrite Hver.
  assert (slice (E:=error) (tb :: v0 :: v1 :: v2 :: v3 :: t) 6 (6 + len (DestConnectionID h)) =
    Ok (DestConnectionID h)) as Hid
    by by apply (slice_middle [tb; v0; v1; v2; v3; dl] (DestConnectionID h) tail).
  assert (len t = 1 + len (DestConnectionID h) + len tail) as Ht by (unfold t; rewrite len_cons, len_app; lia).
  split_and!.
  - unfold ParseConnectionID, MaxConnIDLen in *. rewrite Hlen. zcase. rewrite idx_cons_0.
    cbn [mbind result_bind]. rewrite Htb. cbn [negb]. zcase; [len_lia|].
    change (idx _ 5) with (Ok (E:=error) dl). cbn [mbind result_bind]. rewrite Hdl. zcase.
    zcase; [len_lia|]. rewrite Hid. cbn [mbind result_bind]. by apply ParseConnectionID_small.
  - unfold ParseVersion. rewrite Hlen, Hsl. zcase. done.
  - unfold IsVersionNegotiationPacket. rewrite Hlen. zcase.
    change (Ok (IsLongHeaderPacket tb && (b2z v0 =? 0) && (b2z v1 =? 0) && (b2z v2 =? 0) &&
      (b2z v3 =? 0)) = Ok (E:=error) (Version h =? 0)).
    rewrite Htb, Hver, be_value_4. pose proof (b2z_range v0). pose proof (b2z_range v1).
    pose proof (b2z_range v2). pose proof (b2z_range v3). f_equal.
    lia.
  - unfold Is0RTTPacket. rewrite Hlen, Hsl. zcase. rewrite idx_cons_0. cbn [mbind result_bind].
    rewrite Htb. cbn [negb mbind result_bind]. rewrite Hu. cbn [mbind result_bind].
    rewrite Hty. by apply is0RTT_type.
Qed.

(** ** Retry packets *)
Definition valid_retry (h : ExtendedHeader) (v : Z) : Prop :=
  let hdr := ext_header h in
  (v = Version1 ∨ v = Version2) ∧ Version hdr = v ∧ Type_ hdr = PacketTypeRetry ∧
  len (DestConnectionID hdr) ≤ MaxConnIDLen ∧ len (SrcConnectionID hdr) ≤ MaxConnIDLen ∧
  0 < len (Token hdr) < 2 ^ 62.

Definition retry_prefix (hdr : Header) : list byte :=
  [z2b (long_first (Version hdr) PacketTypeRetry 1)] ++ be_bytes 4 (Version hdr) ++ conn_ids hdr.

Lemma retry_append b h v :
  valid_retry h v →
  ExtendedHeader_Append b h v = Ok (b ++ retry_prefix (ext_header h) ++ Token (ext_header h)).
Proof.
  intros (Hv&Hver&Ht&Hd&Hs&Htok). unfold ExtendedHeader_Append, ConnectionID_Len.
  repeat zcase. unfold retry_prefix, conn_ids. rewrite Hver, Ht.
  destruct (decide (_ = PacketTypeRetry)) as [_|]; [|done].
  unfold u32. rewrite be_bytes_mod by lia. by rewrite <-!app_assoc.
Qed.

Lemma retry_parseLongHeader h v tag :
  valid_retry h v → len tag = 16 →
  let hdr := ext_header h in
  let tb := z2b (long_first v PacketTypeRetry 1) in
  let tail := be_bytes 4 v ++ conn_ids hdr ++ Token hdr ++ tag in
  parseLongHeader tb tail =
  Ok (mkHeader tb PacketTypeRetry v (SrcConnectionID hdr) (DestConnectionID hdr) 0 (Token hdr) 0,
      len tail, false).
Proof.
  intros (Hv&Hver&_&Hd&Hs&Htok) Htag hdr tb tail. fold hdr in Hver, Hd, Hs, Htok.
  destruct (long_first_spec v PacketTypeRetry 1 Hv) as (Hlong&Hq&Htype&_); [done..|].
  fold tb in Hlong, Hq, Htype. unfold tail.
  rewrite parseLongHeader_invariant by (auto using version_range).
  unfold parseAfterConnIDs. rewrite Htype.
  assert ((v =? 0) = false ∧ IsSupportedVersion SupportedVersions v = true) as [-> ->].
  { by destruct Hv as [-> | ->]. }
  assert (len (Token hdr ++ tag) = len (Token hdr) + 16) as Ht by by rewrite len_app, Htag.
  cbn [negb]. rewrite decide_True by done. rewrite Ht. zcase.
  rewrite slice_to_app by lia. cbn [mbind result_bind]. rewrite make_copy_all by lia.
  cbn [mbind result_bind]. do 3 f_equal. lia.
Qed.

Lemma retry_ParsePacket h v tag :
  valid_retry h v → len tag = 16 →
  let hdr := ext_header h in
  let data := retry_prefix hdr ++ Token hdr ++ tag in
  ParsePacket data =
  Ok (Packet (mkHeader (z2b (long_first v PacketTypeRetry 1)) PacketTypeRetry v
                (SrcConnectionID hdr) (DestConnectionID hdr) 0 (Token hdr) (len data)) data []).
Proof.
  intros Hval Htag hdr data. pose proof (retry_parseLongHeader h v tag Hval Htag) as Hparse.
  destruct Hval as (Hv&Hver&_&Hd&Hs&Htok). fold hdr in Hver, Hd, Hs, Htok, Hparse.
  destruct (long_first_spec v PacketTypeRetry 1 Hv) as (Hlong&_); [done..|].
  cbv zeta in Hparse. set (tb := z2b (long_first v PacketTypeRetry 1)) in *.
  set (tail := be_bytes 4 v ++ conn_ids hdr ++ Token hdr ++ tag) in *.
  assert (data = tb :: tail) as ->.
  { unfold data, retry_prefix. rewrite Hver, <-!app_assoc. done. }
  assert (0 ≤ len tail < 2 ^ 62 + 100) as Hl.
  { split; [len_lia|]. unfold tail, conn_ids, MaxConnIDLen in *. autorewrite with quic. lia. }
  unfold ParsePacket, parseHeader. rewrite len_cons.
  zcase. rewrite idx_cons_0, slice_from_cons. cbn [mbind result_bind]. rewrite Hlong. cbn [negb].
  rewrite Hparse. cbn [mbind result_bind set_parsedLen parsedLen Length typeByte Type_ Version
    SrcConnectionID DestConnectionID Token]. rewrite i64_small by lia. zcase.
  rewrite slice_to_all, slice_from_all by (rewrite len_cons; lia). cbn [mbind result_bind].
  do 3 f_equal. lia.
Qed.

(** ** Version Negotiation packets: round trip *)
Definition version_bytes (vs : list Z) : list byte := concat (map (be_bytes 4) vs).

Lemma len_version_bytes vs : len (version_bytes vs) = 4 * len vs.
Proof.
  unfold version_bytes. induction vs as [|v vs IH]; [done|]. cbn [map concat].
  rewrite len_app, len_be_bytes, IH, len_cons. lia.
Qed.

Lemma append_versions vs buf :
  foldl (λ buf v, buf ++ be_bytes 4 (u32 v)) buf vs = buf ++ version_bytes vs.
Proof.
  unfold version_bytes. revert buf. induction vs as [|v vs IH]; intros buf; cbn [foldl map concat].
  - by rewrite app_nil_r.
  - rewrite IH. unfold u32. rewrite be_bytes_mod by lia. by rewrite <-app_assoc.
Qed.

Lemma readVersions_eq n vs :
  (length vs ≤ n)%nat → Forall (λ v, 0 ≤ v < 2 ^ 32) vs → readVersions n (version_bytes vs) = Ok vs.
Proof.
  revert n. induction vs as [|v vs IH]; intros n Hn Hvs; [by destruct n|].
  apply Forall_cons in Hvs as [Hv Hvs]. destruct n as [|n]; [simpl in Hn; lia|].
  cbn [readVersions]. rewrite len_version_bytes, len_cons. zcase; [len_lia|].
  unfold version_bytes. cbn [map concat].
  rewrite slice_to_app, slice_from_app by by rewrite len_be_bytes. cbn [mbind result_bind].
  rewrite Uint32_be_bytes by done. cbn [mbind result_bind].
  fold (version_bytes vs). rewrite IH; [done|simpl in Hn; lia|done].
Qed.

Definition vn_packet (first : byte) (dest src : list byte) (vs : list Z) : list byte :=
  [first; x00; x00; x00; x00] ++ [z2b (len dest)] ++ dest ++ [z2b (len src)] ++ src ++
  version_bytes vs.

Lemma Compose_eq rb pos bits dest src vs :
  ComposeVersionNegotiation rb pos bits dest src vs =
  vn_packet (z2b (Z.lor (b2z rb) 0xc0)) dest src (GetGreasedVersions pos bits vs).
Proof.
  unfold ComposeVersionNegotiation, vn_packet. rewrite append_versions. by rewrite <-!app_assoc.
Qed.

Lemma arbitrary_ids f v0 v1 v2 v3 dest src rest :
  len dest ≤ 255 → len src ≤ 255 →
  let data := [f; v0; v1; v2; v3] ++ [z2b (len dest)] ++ dest ++ [z2b (len src)] ++ src ++ rest in
  ParseArbitraryLenConnectionIDs data = Ok (len data - len rest, dest, src).
Proof.
  intros Hd Hs data. unfold ParseArbitraryLenConnectionIDs.
  assert (∀ c : list byte, len c ≤ 255 → b2z (z2b (len c)) = len c) as Hbyte.
  { intros c Hc. rewrite b2z_z2b. apply u8_small. len_lia. }
  set (t2 := src ++ rest). set (t1 := dest ++ z2b (len src) :: t2).
  assert (len t2 = len src + len rest) as H2 by by rewrite <-len_app.
  assert (len t1 = len dest + 1 + len t2) as H1 by (unfold t1; rewrite len_app, len_cons; lia).
  assert (make_copy (len dest) t1 = Ok dest) as C1 by by apply make_copy_prefix.
  assert (make_copy (len src) t2 = Ok src) as C2 by by apply make_copy_prefix.
  assert (slice_from (E:=error) t1 (len dest) = Ok (z2b (len src) :: t2)) as S1
    by by apply slice_from_app.
  assert (data = [f; v0; v1; v2; v3] ++ z2b (len dest) :: t1) as Hdata by done.
  assert (len data = 6 + len t1) as H0
    by (rewrite Hdata, len_app, (len_cons _ t1); change (len [f; v0; v1; v2; v3]) with 5; lia).
  zcase; [len_lia|]. rewrite Hdata at 1. rewrite slice_from_app by done. cbn [mbind result_bind].
  rewrite idx_cons_0, slice_from_cons. cbn [mbind result_bind]. rewrite Hbyte by done.
  zcase; [len_lia|]. rewrite C1, S1.
  cbn [mbind result_bind]. rewrite idx_cons_0, slice_from_cons. cbn [mbind result_bind].
  rewrite Hbyte by done. zcase; [len_lia|]. rewrite C2.
  cbn [mbind result_bind]. do 3 f_equal. lia.
Qed.

Lemma vn_parse first dest src vs :
  len dest ≤ 255 → len src ≤ 255 → vs ≠ [] → Forall (λ v, 0 ≤ v < 2 ^ 32) vs →
  ParseVersionNegotiationPacket (vn_packet first dest src vs) = Ok (dest, src, vs).
Proof.
  intros Hd Hs Hne Hvs. unfold ParseVersionNegotiationPacket, vn_packet.
  rewrite arbitrary_ids by done. cbn [mbind result_bind]. set (t := version_bytes vs).
  assert (len t = 4 * len vs) as Ht by apply len_version_bytes.
  rewrite !app_assoc, slice_from_app by (rewrite (len_app _ t); lia). cbn [mbind result_bind].
  assert (0 < len vs) by (destruct vs; [done|len_lia]). zcase.
  rewrite Ht. rewrite Z.mul_comm, Z.mod_mul, Z.div_mul by lia. cbn [negb Z.eqb].
  unfold t. rewrite readVersions_eq; [done| |done]. unfold len. lia.
Qed.

Lemma wp_readVersions n b :
  len b ≤ 4 * Z.of_nat n → len b mod 4 = 0 →
  wp (readVersions n b) (λ vs, 4 * len vs = len b).
Proof.
  revert b. induction n as [|n IH]; intros b Hb Hm; cbn [readVersions];
    (zcase; [by rewrite e|]); [len_lia|].
  pose proof (len_nonneg b). assert (4 ≤ len b) by dmlia.
  apply wp_bind, wp_slice_to; [lia|]. intros v Hv _.
  apply wp_bind. unfold Uint32. zcase. simpl. apply wp_bind, wp_slice_from; [lia|]. intros b' Hb' _.
  apply wp_bind. eapply wp_mono; [apply IH; dmlia|]. intros vs Hvs. simpl in *. rewrite len_cons. lia.
Qed.

Lemma wp_arbitrary_ids data :
  wp (ParseArbitraryLenConnectionIDs data) (λ '(n, dest, src),
    n = 7 + len dest + len src ∧ 7 ≤ n ≤ len data).
Proof.
  unfold ParseArbitraryLenConnectionIDs. zcase; [done|].
  apply wp_bind, wp_slice_from; [lia|]. intros b1 Hb1 _.
  apply wp_bind, wp_idx; [lia|]. intros dl _. pose proof (b2z_range dl).
  apply wp_bind, wp_slice_from; [lia|]. intros b2 Hb2 _. zcase; [done|].
  apply wp_bind, wp_make_copy; [lia|]. intros dest _ Hdest.
  apply wp_bind, wp_slice_from; [lia|]. intros b3 Hb3 _.
  apply wp_bind, wp_idx; [lia|]. intros sl _. pose proof (b2z_range sl).
  apply wp_bind, wp_slice_from; [lia|]. intros b4 Hb4 _. zcase; [done|].
  apply wp_bind, wp_make_copy; [lia|]. intros src _ Hsrc. simpl. lia.
Qed.

(** ** Properties *)

(** C27: a long header of an Initial, Handshake or 0-RTT packet survives the trip
    over the network: [GetLength] is the size of the serialized header, and from
    the header, a payload of the length it announces and whatever follows in the
    datagram, [ParsePacket] cuts out the packet and [ParseExtended] recovers all
    fields and the truncated packet number. *)
Theorem long_header_roundtrip h v payload rest :
  valid_long h v → len payload = Length (ext_header h) - PacketNumberLen h →
  ∃ b, ExtendedHeader_Append [] h v = Ok b ∧ GetLength h = Ok (len b) ∧
  ∃ hdr, ParsePacket (b ++ payload ++ rest) = Ok (Packet hdr (b ++ payload) rest) ∧
    Type_ hdr = Type_ (ext_header h) ∧ Version hdr = Version (ext_header h) ∧
    SrcConnectionID hdr = SrcConnectionID (ext_header h) ∧
    DestConnectionID hdr = DestConnectionID (ext_header h) ∧
    Length hdr = Length (ext_header h) ∧ Token hdr = Token (ext_header h) ∧
  ∃ ext, ParseExtended hdr (b ++ payload) = Ok (ext, true) ∧
    PacketNumberLen ext = PacketNumberLen h ∧ ext_parsedLen ext = len b ∧
    PacketNumber ext = PacketNumber h mod 256 ^ PacketNumberLen h.
Proof.
  intros Hval Hpay. exists (long_header h). split; [by rewrite (long_append [] h v)|].
  split; [by eapply long_length|]. exists (received_header h).
  split; [by eapply long_ParsePacket|]. split_and!; [done..|].
  eexists. split; [by eapply long_ParseExtended|]. done.
Qed.

Lemma long_header_roundtrip_witness :
  let h := mkExtendedHeader (mkHeader x00 PacketTypeInitial Version1 [x01; x02] [x03] 6 [x2a] 0)
             x00 2 70000 0 in
  ∃ b, ExtendedHeader_Append [] h Version1 = Ok b ∧ GetLength h = Ok (len b) ∧
  ∃ hdr, ParsePacket (b ++ replicate 4 x00 ++ [xff]) = Ok (Packet hdr (b ++ replicate 4 x00) [xff]) ∧
    Type_ hdr = PacketTypeInitial ∧ Version hdr = Version1 ∧
    SrcConnectionID hdr = [x01; x02] ∧ DestConnectionID hdr = [x03] ∧
    Length hdr = 6 ∧ Token hdr = [x2a] ∧
  ∃ ext, ParseExtended hdr (b ++ replicate 4 x00) = Ok (ext, true) ∧
    PacketNumberLen ext = 2 ∧ ext_parsedLen ext = len b ∧ PacketNumber ext = 70000 mod 256 ^ 2.
Proof.
  intros h. apply (long_header_roundtrip h Version1 (replicate 4 x00) [xff]); [|done].
  unfold valid_long, is_long. split_and!; try done; auto.
Defined.

(** A Retry packet, followed by its 16-byte integrity tag, is parsed back
    with its token and connection IDs. *)
Theorem retry_roundtrip h v tag :
  valid_retry h v → len tag = 16 →
  ∃ b hdr, ExtendedHeader_Append [] h v = Ok b ∧
    ParsePacket (b ++ tag) = Ok (Packet hdr (b ++ tag) []) ∧
    Type_ hdr = PacketTypeRetry ∧ Version hdr = v ∧ Token hdr = Token (ext_header h) ∧
    SrcConnectionID hdr = SrcConnectionID (ext_header h) ∧
    DestConnectionID hdr = DestConnectionID (ext_header h).
Proof.
  intros Hval Htag. do 2 eexists. split; [by apply retry_append|].
  rewrite app_nil_l, <-app_assoc. split; [by eapply retry_ParsePacket|]. done.
Qed.

Lemma retry_roundtrip_witness :
  let h := mkExtendedHeader (mkHeader x00 PacketTypeRetry Version2 [x01; x02] [x03] 0 [x2a] 0)
             x00 0 0 0 in
  ∃ b hdr, ExtendedHeader_Append [] h Version2 = Ok b ∧
    ParsePacket (b ++ replicate 16 x07) = Ok (Packet hdr (b ++ replicate 16 x07) []) ∧
    Type_ hdr = PacketTypeRetry ∧ Version hdr = Version2 ∧ Token hdr = [x2a] ∧
    SrcConnectionID hdr = [x01; x02] ∧ DestConnectionID hdr = [x03].
Proof.
  intros h. apply (retry_roundtrip h Version2 (replicate 16 x07)); [|done].
  unfold valid_retry. split_and!; try done; auto.
Defined.

(** C28: a packet sent with a short header is received with the packet number it
    was sent with: the sender chooses the number of bytes from the largest
    acknowledged packet, the receiver decodes them with the largest packet number
    it has seen, which is at least the acknowledged one and, if later packets
    overtook this one, less than [2^15 - 1] above it. *)
Theorem short_header_roundtrip connID pn largestAcked largest kp payload :
  0 ≤ pn < 2 ^ 62 → -1 ≤ largestAcked ≤ pn → pn - largestAcked < 2 ^ 31 →
  largestAcked ≤ largest < 2 ^ 62 - 1 → largest < pn + 2 ^ 15 - 1 → kp ≠ KeyPhaseUndefined →
  let n := PacketNumberLengthForHeader pn largestAcked in
  ∃ b truncated, AppendShortHeader [] connID pn n kp = Ok b ∧
    len b = ShortHeaderLen connID n ∧
    ParseShortHeader (b ++ payload) (len connID) = Ok (len b, truncated, n, kp, true) ∧
    DecodePacketNumber n largest truncated = pn.
Proof.
  intros Hpn Hla Hd Hlargest Hover Hkp n.
  assert (1 ≤ n ≤ 4) by (destruct (PacketNumberLengthForHeader_cases pn largestAcked); lia).
  exists (short_header connID pn n kp), (pn mod 256 ^ n).
  assert (len (short_header connID pn n kp) = ShortHeaderLen connID n) as ->.
  { unfold short_header, ShortHeaderLen, ConnectionID_Len. autorewrite with quic. lia. }
  split_and!; [by apply AppendShortHeader_eq|done| |by apply DecodePacketNumber_length].
  rewrite ParseShortHeader_eq by done. by destruct kp.
Qed.

Lemma short_header_roundtrip_witness :
  let n := PacketNumberLengthForHeader 70000 69000 in
  ∃ b truncated, AppendShortHeader [] [x01; x02] 70000 n KeyPhaseOne = Ok b ∧
    len b = ShortHeaderLen [x01; x02] n ∧
    ParseShortHeader (b ++ [xff]) 2 = Ok (len b, truncated, n, KeyPhaseOne, true) ∧
    DecodePacketNumber n 69500 truncated = 70000.
Proof. apply (short_header_roundtrip [x01; x02] 70000 69000 69500 KeyPhaseOne [xff]); done. Defined.

(** A Version Negotiation packet is recognized as one, and the client reads
    back the connection IDs and the version list, a reserved version included. *)
Theorem version_negotiation_roundtrip rb pos bits dest src vs :
  len dest ≤ 255 → len src ≤ 255 → Forall (λ v, 0 ≤ v < 2 ^ 32) vs →
  let packet := ComposeVersionNegotiation rb pos bits dest src vs in
  IsVersionNegotiationPacket packet = Ok true ∧
  ParseVersionNegotiationPacket packet = Ok (dest, src, GetGreasedVersions pos bits vs).
Proof.
  intros Hd Hs Hvs packet. unfold packet. rewrite Compose_eq. split.
  - unfold IsVersionNegotiationPacket, vn_packet. rewrite len_app. zcase.
    { change (len [_; _; _; _; _]) with 5 in *. len_lia. }
    change (Ok (IsLongHeaderPacket (z2b (Z.lor (b2z rb) 0xc0)) && true && true && true && true) =
      Ok (E:=error) true). by destruct rb.
  - apply vn_parse; [done..| |].
    + unfold GetGreasedVersions. by destruct (take pos vs).
    + unfold GetGreasedVersions. apply Forall_app. split; [by apply Forall_take|].
      apply Forall_cons. split; [apply generateReservedVersion_range|by apply Forall_drop].
Qed.

Lemma version_negotiation_roundtrip_witness :
  let packet := ComposeVersionNegotiation x15 1 0x12345678 [x01] [x02; x03] SupportedVersions in
  IsVersionNegotiationPacket packet = Ok true ∧
  ParseVersionNegotiationPacket packet =
    Ok ([x01], [x02; x03], GetGreasedVersions 1 0x12345678 SupportedVersions).
Proof.
  apply (version_negotiation_roundtrip x15 1 0x12345678 [x01] [x02; x03] SupportedVersions);
    [done..|]. repeat constructor; done.
Defined.

(** C32: [ParsePacket] is safe on every datagram: it does not index outside of it,
    and when it succeeds the packet and the rest make up the datagram, the packet
    has the announced length, the connection IDs have legal lengths and the
    version is supported (or 0), and the functions that look at single fields of
    an unparsed packet return the fields of the header. *)
Theorem parse_packet_safe data n :
  len data < 2 ^ 62 →
  match ParsePacket data with
  | Panic => False
  | Err _ => True
  | Ok (UnsupportedVersion hdr) =>
      ParseConnectionID data n = Ok (DestConnectionID hdr) ∧ ParseVersion data = Ok (Version hdr)
  | Ok (Packet hdr packet rest) =>
      data = packet ++ rest ∧ len packet = parsedLen hdr + Length hdr ∧
      len (DestConnectionID hdr) ≤ MaxConnIDLen ∧ len (SrcConnectionID hdr) ≤ MaxConnIDLen ∧
      (Version hdr = 0 ∨ IsSupportedVersion SupportedVersions (Version hdr) = true) ∧
      ParseConnectionID data n = Ok (DestConnectionID hdr) ∧
      ParseVersion data = Ok (Version hdr) ∧
      IsVersionNegotiationPacket data = Ok (Version hdr =? 0) ∧
      Is0RTTPacket data = Ok (bool_decide (Type_ hdr = PacketType0RTT)) ∧
      no_panic (ParseExtended hdr packet)
  end.
Proof.
  intros Hlen. pose proof (wp_ParsePacket data Hlen) as Hp.
  destruct (ParsePacket data) as [[hdr packet rest|hdr]|e|]; try done; simpl in Hp.
  - destruct Hp as (tb&b&->&Htb&Hh&Heq&Hpl&Hp1&Hv).
    destruct (quick_parsers tb b hdr n Hh Htb) as (?&?&?&?). pose proof Hh as (_&?&?&HL&_).
    split_and!; try done. apply (wp_no_panic _ (λ _, True)).
    unfold ParseExtended, ExtendedHeader_parse. unfold is_varint in HL.
    apply wp_bind, wp_idx; [lia|]. intros tb' _. zcase; [done|].
    assert (0 ≤ Z.land (b2z tb') 3 ≤ 3).
    { rewrite (Z.land_ones _ 2) by lia. change (2 ^ 2) with 4. dmlia. }
    apply wp_bind, wp_slice_from; [lia|]. intros d Hd _.
    rewrite readPacketNumber_take by lia. done.
  - destruct Hp as (tb&b&->&Htb&Hh&_). by destruct (quick_parsers tb b hdr n Hh Htb) as (?&?&_).
Qed.

Lemma parse_packet_safe_witness :
  let data := [xc3; x00; x00; x00; x01; x01; xaa; x00; x00; x02; x05; x06; x77] in
  ∃ hdr, ParsePacket data = Ok (Packet hdr (take 12 data) (drop 12 data)) ∧
    len (take 12 data) = parsedLen hdr + Length hdr ∧ DestConnectionID hdr = [xaa] ∧
    ParseConnectionID data 0 = Ok (DestConnectionID hdr).
Proof.
  intros data. pose proof (parse_packet_safe data 0 ltac:(done)) as H.
  eexists. split; [vm_compute; reflexivity|]. vm_compute in H |- *. tauto.
Defined.

Lemma parse_short_header_safe data n :
  0 ≤ n → wp (ParseShortHeader data n) (λ '(l, pn, pnLen, _, _),
    1 ≤ pnLen ≤ 4 ∧ l = 1 + n + pnLen ∧ l ≤ len data ∧ 0 ≤ pn < 256 ^ pnLen).
Proof.
  intros Hn. unfold ParseShortHeader. zcase; [done|].
  apply wp_bind, wp_idx; [len_lia|]. intros b0 _. do 2 (zcase; [done|]).
  assert (0 ≤ Z.land (b2z b0) 3 ≤ 3).
  { rewrite (Z.land_ones _ 2) by lia. change (2 ^ 2) with 4. dmlia. }
  zcase; [done|]. apply wp_bind, wp_slice_from; [lia|]. intros d Hd _.
  rewrite readPacketNumber_take by lia. cbn.
  pose proof (be_value_range (take (Z.to_nat (Z.land (b2z b0) 3 + 1)) d)) as Hr.
  rewrite len_take in Hr by lia. lia.
Qed.
