(* ===== verification/ReceivedHistory.v ===== *)
(** * The received packet history
      (internal/ackhandler/received_packet_history.go)

    The packet numbers received in a packet number space, as a list of
    intervals in ascending order.  The list is the code's slice; [slices.Insert]
    and [slices.Delete] are written out. *)

From S2P Require Import Prelude Varint Protocol Wire AckFrame.

Section slices_package.
Context {A : Type}.
Definition slices_Insert (s : list A) (i : nat) (v : A) : list A := take i s ++ v :: drop i s.
Definition slices_Delete (s : list A) (i j : nat) : list A := take i s ++ drop j s.
End slices_package.

Record interval := mkInterval { Start : Z; End_ : Z }.
#[global] Instance interval_eq_dec : EqDecision interval.
Proof. solve_decision. Defined.

Record receivedPacketHistory := mkHistory {
  ranges : list interval;
  deletedBelow : Z;
}.

Definition newReceivedPacketHistory : receivedPacketHistory := mkHistory [] 0.

(** [for i := len(h.ranges) - 1; i >= 0; i--], from index [i = n - 1] on.  The
    new ranges and whether the packet is new. *)
Fixpoint addToRanges_loop (n : nat) (rs : list interval) (p : Z) : res (list interval * bool) :=
  match n with
  | O => Ok (slices_Insert rs 0 (mkInterval p p), true)
  | S i =>
      match rs !! i with
      | None => Panic
      | Some r =>
          if (Start r <=? p) && (p <=? End_ r) then Ok (rs, false)
          else if End_ r =? i64 (p - 1) then Ok (<[i := mkInterval (Start r) p]> rs, true)
          else if Start r =? i64 (p + 1) then
            let rs := <[i := mkInterval p (End_ r)]> rs in
            match i with
            | O => Ok (rs, true)
            | S j =>
                match rs !! j with
                | None => Panic
                | Some l =>
                    if i64 (End_ l + 1) =? p then
                      let rs := <[j := mkInterval (Start l) (End_ r)]> rs in
                      Ok (slices_Delete rs i (S i), true)
                    else Ok (rs, true)
                end
            end
          else if End_ r <? p then Ok (slices_Insert rs (S i) (mkInterval p p), true)
          else addToRanges_loop i rs p
      end
  end.

Definition addToRanges (rs : list interval) (p : Z) : res (list interval * bool) :=
  if len rs =? 0 then Ok (rs ++ [mkInterval p p], true)
  else addToRanges_loop (length rs) rs p.

Definition ReceivedPacket (h : receivedPacketHistory) (p : Z)
  : res (receivedPacketHistory * bool) :=
  if p <? deletedBelow h then Ok (h, false) else
  '(rs, isNew) ← addToRanges (ranges h) p;
  let rs := if MaxNumAckRanges <? len rs
            then slices_Delete rs 0 (Z.to_nat (len rs - MaxNumAckRanges)) else rs in
  Ok (mkHistory rs (deletedBelow h), isNew).

(** [for i := 0; i < len(h.ranges); i++]: [n] iterations are left; the number of
    ranges to delete ([idx + 1]) and the changed ranges. *)
Fixpoint DeleteBelow_loop (n i : nat) (rs : list interval) (p : Z) (idx : nat)
  : res (nat * list interval) :=
  match n with
  | O => Ok (idx, rs)
  | S n =>
      match rs !! i with
      | None => Panic
      | Some r =>
          if End_ r <? p then DeleteBelow_loop n (S i) rs p (S i)
          else if (Start r <? p) && (p <=? End_ r) then
            Ok (idx, <[i := mkInterval p (End_ r)]> rs)
          else Ok (idx, rs)
      end
  end.

Definition DeleteBelow (h : receivedPacketHistory) (p : Z) : res receivedPacketHistory :=
  if p <? deletedBelow h then Ok h else
  if len (ranges h) =? 0 then Ok (mkHistory (ranges h) p) else
  '(idx, rs) ← DeleteBelow_loop (length (ranges h)) 0 (ranges h) p 0;
  Ok (mkHistory (slices_Delete rs 0 idx) p).

(** [for i := len(h.ranges) - 1; i >= 0; i--] *)
Fixpoint AppendAckRanges_loop (n : nat) (rs : list interval) (ackRanges : list AckRange)
  : res (list AckRange) :=
  match n with
  | O => Ok ackRanges
  | S i =>
      match rs !! i with
      | None => Panic
      | Some r => AppendAckRanges_loop i rs (ackRanges ++ [mkAckRange (Start r) (End_ r)])
      end
  end.

Definition AppendAckRanges (h : receivedPacketHistory) (ackRanges : list AckRange)
  : res (list AckRange) :=
  AppendAckRanges_loop (length (ranges h)) (ranges h) ackRanges.

Definition GetHighestAckRange (h : receivedPacketHistory) : res AckRange :=
  if 0 <? len (ranges h) then
    r ← idx (ranges h) (len (ranges h) - 1);
    Ok (mkAckRange (Start r) (End_ r))
  else Ok (mkAckRange 0 0).

Fixpoint IsPotentiallyDuplicate_loop (n : nat) (rs : list interval) (p : Z) : res bool :=
  match n with
  | O => Ok false
  | S i =>
      match rs !! i with
      | None => Panic
      | Some r =>
          if End_ r <? p then Ok false
          else if (p <=? End_ r) && (Start r <=? p) then Ok true
          else IsPotentiallyDuplicate_loop i rs p
      end
  end.

Definition IsPotentiallyDuplicate (h : receivedPacketHistory) (p : Z) : res bool :=
  if p <? deletedBelow h then Ok true
  else IsPotentiallyDuplicate_loop (length (ranges h)) (ranges h) p.

(** ** Specification

    The ranges are sorted, not empty and neither overlap nor touch; [asc lo]
    says so of ranges from [lo] on. *)
Fixpoint asc (lo : Z) (rs : list interval) : Prop :=
  match rs with
  | [] => True
  | r :: rs => lo ≤ Start r ∧ Start r ≤ End_ r ∧ asc (End_ r + 2) rs
  end.

(** The packet numbers of the ranges. *)
Definition covers (rs : list interval) (x : Z) : Prop :=
  Exists (λ r, Start r ≤ x ≤ End_ r) rs.

Definition history_inv (h : receivedPacketHistory) : Prop :=
  0 ≤ deletedBelow h ∧ asc (deletedBelow h) (ranges h) ∧ len (ranges h) ≤ MaxNumAckRanges ∧
  Forall (λ r, End_ r ≤ maxVarInt8) (ranges h).

(** The smallest start of a range after [rs]. *)
Definition next_start (lo : Z) (rs : list interval) : Z := foldl (λ _ r, End_ r + 2) lo rs.

Lemma asc_app lo a b : asc lo (a ++ b) ↔ asc lo a ∧ asc (next_start lo a) b.
Proof.
  revert lo. induction a as [|r a IH]; intros lo; cbn [app asc next_start foldl]; [tauto|].
  rewrite IH. unfold next_start. tauto.
Qed.

Lemma next_start_snoc lo a r : next_start lo (a ++ [r]) = End_ r + 2.
Proof. unfold next_start. by rewrite foldl_app. Qed.

Lemma asc_weaken lo lo' rs : lo' ≤ lo → asc lo rs → asc lo' rs.
Proof. destruct rs; simpl; intuition lia. Qed.

Lemma next_start_ge lo a : asc lo a → lo ≤ next_start lo a.
Proof.
  revert lo. induction a as [|r a IH]; intros lo; simpl; [lia|].
  intros (?&?&Ha%IH). unfold next_start in *. lia.
Qed.

Lemma covers_app a b x : covers (a ++ b) x ↔ covers a x ∨ covers b x.
Proof. apply Exists_app. Qed.

Lemma covers_cons r a x : covers (r :: a) x ↔ Start r ≤ x ≤ End_ r ∨ covers a x.
Proof. apply Exists_cons. Qed.

Lemma covers_asc lo rs x : asc lo rs → covers rs x → lo ≤ x.
Proof.
  revert lo. induction rs as [|r rs IH]; intros lo; [by intros _ ?%Exists_nil|].
  rewrite covers_cons. intros (?&?&Hrs) [?|Hx]; [lia|]. specialize (IH _ Hrs Hx). lia.
Qed.

Lemma covers_below lo rs x : asc lo rs → covers rs x → x + 2 ≤ next_start lo rs.
Proof.
  revert lo. induction rs as [|r rs IH]; intros lo; [by intros _ ?%Exists_nil|].
  rewrite covers_cons. intros (?&?&Hrs) [?|Hx].
  - pose proof (next_start_ge _ _ Hrs). unfold next_start in *. simpl. lia.
  - apply (IH _ Hrs Hx).
Qed.

(** The updates of the slice at the end of a prefix. *)
Lemma insert_snoc {A} (a b : list A) x y i :
  i = length a → <[i := y]> (a ++ x :: b) = a ++ y :: b.
Proof. intros ->. by rewrite insert_app_r_alt, Nat.sub_diag by lia. Qed.

Lemma slices_Insert_app {A} (a b : list A) x i :
  i = length a → slices_Insert (a ++ b) i x = a ++ x :: b.
Proof. intros ->. unfold slices_Insert. by rewrite take_app_length, drop_app_length. Qed.

Lemma slices_Delete_app {A} (a b : list A) x i :
  i = length a → slices_Delete (a ++ x :: b) i (S i) = a ++ b.
Proof.
  intros ->. unfold slices_Delete. rewrite take_app_length, cons_middle, app_assoc.
  by rewrite drop_app_length' by (rewrite length_app; simpl; lia).
Qed.

(** ** Adding a packet *)

(** [out] is the result of adding [p] to the ranges [rs]. *)
Definition added (lo p : Z) (rs : list interval) (out : list interval * bool) : Prop :=
  let '(rs', isNew) := out in
  asc lo rs' ∧ (isNew = true ↔ ¬ covers rs p) ∧ (∀ x, covers rs' x ↔ covers rs x ∨ x = p) ∧
  len rs' ≤ len rs + 1.

(** Splits the ordering and the membership at a range of the list. *)
Ltac at_range :=
  rewrite ?asc_app, ?covers_app, ?covers_cons in *;
  cbn [asc Start End_] in *; rewrite ?next_start_snoc in *.

Section add_branches.
Context (lo p : Z) (a b : list interval) (r : interval).
Hypothesis Hasc : asc lo (a ++ r :: b).
Hypothesis Hpost : asc (p + 2) b.
Hypothesis Hlo : lo ≤ p.

Lemma outside_post : ¬ covers b p.
Proof using Hpost. intros Hc. pose proof (covers_asc _ _ _ Hpost Hc). lia. Qed.

Lemma above_pre : End_ r < p ∨ Start r ≤ p + 1 → covers a p → False.
Proof using Hasc.
  intros Hr Hc. at_range. destruct Hasc as (Ha&?&?&_).
  pose proof (covers_below _ _ _ Ha Hc). lia.
Qed.

Lemma add_inside : Start r ≤ p ≤ End_ r → added lo p (a ++ r :: b) (a ++ r :: b, false).
Proof using Hasc.
  intros Hp. unfold added. split_and!; [done| | |lia].
  - split; [done|]. intros Hn. exfalso. apply Hn. at_range. tauto.
  - intros x. split; [tauto|]. intros [?| ->]; [done|]. at_range. tauto.
Qed.

Lemma add_extend_end :
  End_ r = p - 1 → added lo p (a ++ r :: b) (a ++ mkInterval (Start r) p :: b, true).
Proof using Hasc Hpost.
  intros Hp. pose proof outside_post. pose proof (above_pre ltac:(lia)). unfold added.
  rewrite !len_app, !len_cons. at_range. destruct Hasc as (?&?&?&?). split_and!; try done; try lia.
  - split; [|done]. intros _ [?|[?|?]]; tauto || lia.
  - intros x. at_range.
    assert (Start r ≤ x ≤ p ↔ Start r ≤ x ≤ End_ r ∨ x = p) by lia. tauto.
Qed.

Lemma add_extend_start :
  Start r = p + 1 → next_start lo a ≤ p →
  added lo p (a ++ r :: b) (a ++ mkInterval p (End_ r) :: b, true).
Proof using Hasc Hpost.
  intros Hp Hgap. pose proof outside_post. pose proof (above_pre ltac:(lia)). unfold added.
  rewrite !len_app, !len_cons. at_range. destruct Hasc as (?&?&?&?). split_and!; try done; try lia.
  - split; [|done]. intros _ [?|[?|?]]; tauto || lia.
  - intros x. at_range.
    assert (p ≤ x ≤ End_ r ↔ Start r ≤ x ≤ End_ r ∨ x = p) by lia. tauto.
Qed.

Lemma add_after :
  End_ r + 2 ≤ p → added lo p (a ++ r :: b) (a ++ r :: mkInterval p p :: b, true).
Proof using Hasc Hpost.
  intros Hp. pose proof outside_post. pose proof (above_pre ltac:(lia)). unfold added.
  rewrite !len_app, !len_cons. at_range. destruct Hasc as (?&?&?&?). split_and!; try done; try lia.
  - split; [|done]. intros _ [?|[?|?]]; tauto || lia.
  - intros x. at_range. assert (p ≤ x ≤ p ↔ x = p) by lia. tauto.
Qed.
End add_branches.

Lemma add_merge lo p a l r b :
  asc lo (a ++ l :: r :: b) → asc (p + 2) b → Start r = p + 1 → End_ l + 1 = p →
  added lo p (a ++ l :: r :: b) (a ++ mkInterval (Start l) (End_ r) :: b, true).
Proof.
  intros Hasc Hpost Hr Hl. pose proof (outside_post p b Hpost).
  pose proof (above_pre lo p a (r :: b) l Hasc ltac:(lia)). unfold added.
  rewrite !len_app, !len_cons. at_range. destruct Hasc as (?&?&?&?&?&?).
  split_and!; try done; try lia.
  - split; [|done]. intros _ [?|[?|[?|?]]]; tauto || lia.
  - intros x. at_range. assert (Start l ≤ x ≤ End_ r ↔
      Start l ≤ x ≤ End_ l ∨ Start r ≤ x ≤ End_ r ∨ x = p) by lia. tauto.
Qed.

Lemma add_front lo p rs :
  asc (p + 2) rs → lo ≤ p → added lo p rs (mkInterval p p :: rs, true).
Proof.
  intros Hrs Hlo. pose proof (outside_post p rs Hrs). unfold added. rewrite len_cons.
  split_and!; cbn [Start End_]; try done; try lia.
  intros x. rewrite covers_cons. cbn. assert (p ≤ x ≤ p ↔ x = p) by lia. tauto.
Qed.

Lemma next_start_cases lo a : (a = [] ∧ next_start lo a = lo) ∨ ∃ a' l, a = a' ++ [l].
Proof. destruct a as [|l a' _] using rev_ind; [by left|right; eauto]. Qed.

Lemma addToRanges_loop_spec pre : ∀ post lo p,
  asc lo (pre ++ post) → asc (p + 2) post → 0 ≤ lo ≤ p → p ≤ maxVarInt8 →
  Forall (λ r, End_ r ≤ maxVarInt8) (pre ++ post) →
  ∃ out, addToRanges_loop (length pre) (pre ++ post) p = Ok out ∧ added lo p (pre ++ post) out.
Proof.
  induction pre as [|r pre IH] using rev_ind; intros post lo p Hasc Hpost Hlo Hp Hmax.
  { eexists; split; [done|]. apply add_front; [done|lia]. }
  rewrite length_app, Nat.add_1_r, <-app_assoc in *. cbn [app addToRanges_loop] in *.
  rewrite list_lookup_middle by done. unfold maxVarInt8 in *.
  assert (lo ≤ Start r ∧ Start r ≤ End_ r ∧ End_ r ≤ 4611686018427387903 ∧
    next_start lo pre ≤ Start r) as (?&?&?&?).
  { apply Forall_app in Hmax as [_ [??]%Forall_cons]. apply asc_app in Hasc as [Ha Hb].
    pose proof (next_start_ge _ _ Ha). simpl in Hb. lia. }
  rewrite !i64_small by lia. destruct ((Start r <=? p) && (p <=? End_ r)) eqn:Hin.
  { eexists; split; [done|]. apply add_inside; [done|lia]. }
  zcase; [rewrite insert_snoc by done; eexists; split; [done|]; by apply add_extend_end|].
  zcase; [|zcase].
  - destruct (next_start_cases lo pre) as [[-> Hns]|(pre' & l & ->)].
    + eexists; split; [done|]. apply (add_extend_start lo p []); done || lia.
    + rewrite length_app, Nat.add_1_r, next_start_snoc in *.
      rewrite insert_snoc by (rewrite length_app; simpl; lia).
      rewrite <-!app_assoc in *. cbn [app] in *. rewrite list_lookup_middle by done.
      assert (lo ≤ End_ l).
      { apply asc_app in Hasc as [Ha Hb]. pose proof (next_start_ge _ _ Ha). simpl in Hb. lia. }
      rewrite i64_small by lia. zcase.
      * rewrite insert_snoc, cons_middle, app_assoc by done.
        rewrite slices_Delete_app by (rewrite length_app; simpl; lia). rewrite <-!app_assoc.
        eexists; split; [done|]. apply add_merge; done || lia.
      * eexists; split; [done|]. rewrite (cons_middle l pre' (r :: _)), (cons_middle l pre'), !app_assoc.
        apply add_extend_start; rewrite ?next_start_snoc, <-?app_assoc; done || lia.
  - rewrite cons_middle, app_assoc, slices_Insert_app by (rewrite length_app; simpl; lia).
    rewrite <-!app_assoc. eexists; split; [done|]. apply add_after; done || lia.
  - apply IH; [done| |lia|lia|done]. cbn. apply asc_app in Hasc as [_ Hb]. simpl in Hb.
    split_and!; [lia|lia|]. apply Hb.
Qed.

Lemma addToRanges_spec lo p rs :
  asc lo rs → 0 ≤ lo ≤ p → p ≤ maxVarInt8 → Forall (λ r, End_ r ≤ maxVarInt8) rs →
  ∃ out, addToRanges rs p = Ok out ∧ added lo p rs out.
Proof.
  intros. unfold addToRanges. zcase.
  - rewrite (len_0_nil rs) by done. eexists; split; [done|]. apply add_front; [done|lia].
  - destruct (addToRanges_loop_spec rs [] lo p) as (out&?&?); rewrite ?app_nil_r; try done.
    rewrite !app_nil_r in *. eauto.
Qed.

(** Deleting ranges at the front leaves the packet numbers from some point on. *)
Lemma asc_drop lo k rs :
  asc lo rs → ∃ lo', lo ≤ lo' ∧ (k = 0%nat → lo' = lo) ∧ asc lo (drop k rs) ∧
    ∀ x, covers (drop k rs) x ↔ covers rs x ∧ lo' ≤ x.
Proof.
  intros Hasc. exists (next_start lo (take k rs)).
  rewrite <-(take_drop k rs) in Hasc. pose proof Hasc as [Ha Hb]%asc_app.
  pose proof (next_start_ge _ _ Ha). split_and!; [done|by intros ->|by eapply asc_weaken|].
  intros x. rewrite <-(take_drop k rs) at 2. rewrite covers_app. split.
  - intros Hx. split; [by right|]. by eapply covers_asc.
  - intros [[Hx|Hx] Hlo]; [|done]. pose proof (covers_below _ _ _ Ha Hx). lia.
Qed.

Lemma covers_End lo rs : asc lo rs → Forall (λ r, covers rs (End_ r)) rs.
Proof.
  intros Hasc. apply Forall_forall. intros r Hr. apply Exists_exists. exists r. split; [done|].
  split; [|done]. clear -Hasc Hr. revert lo Hasc. induction rs as [|r' rs IH]; intros lo.
  - by apply not_elem_of_nil in Hr.
  - simpl. intros (?&?&Hrs). apply elem_of_cons in Hr as [->|Hr]; [done|]. by eapply IH.
Qed.

Lemma covers_bounded lo rs M :
  asc lo rs → Forall (λ r, End_ r ≤ M) rs ↔ ∀ x, covers rs x → x ≤ M.
Proof.
  intros Hasc. split.
  - intros HM x Hx. induction HM as [|r rs Hr HM IH] in lo, Hasc, Hx |-*.
    + by apply Exists_nil in Hx.
    + apply covers_cons in Hx as [?|Hx]; [lia|]. destruct Hasc as (_&_&Hrs). by eapply IH.
  - intros H. eapply Forall_impl; [by eapply covers_End|]. intros r Hr. by apply H.
Qed.

Lemma ReceivedPacket_spec h p :
  history_inv h → 0 ≤ p ≤ maxVarInt8 →
  ∃ h' isNew, ReceivedPacket h p = Ok (h', isNew) ∧ history_inv h' ∧
    deletedBelow h' = deletedBelow h ∧ (deletedBelow h ≤ p → ranges h' ≠ []) ∧
    (isNew = true ↔ deletedBelow h ≤ p ∧ ¬ covers (ranges h) p) ∧
    ∃ lo, deletedBelow h ≤ lo ∧ (len (ranges h) < MaxNumAckRanges → lo = deletedBelow h) ∧
      ∀ x, covers (ranges h') x ↔
        (covers (ranges h) x ∨ (x = p ∧ deletedBelow h ≤ p)) ∧ lo ≤ x.
Proof.
  intros (Hd&Hasc&Hlen&Hmax) Hp. unfold ReceivedPacket. zcase.
  { exists h, false. split_and!; try done; [lia|lia|]. exists (deletedBelow h).
    split_and!; try done; try lia. intros x. split; [|intros [[?|?] ?]; [done|lia]].
    intros Hx. pose proof (covers_asc _ _ _ Hasc Hx). tauto. }
  destruct (addToRanges_spec (deletedBelow h) p (ranges h) Hasc) as ([rs' isNew]&->&Hadd);
    [lia..|done|]. destruct Hadd as (Hasc'&Hnew&Hcov&Hlen').
  cbn [mbind result_bind]. unfold MaxNumAckRanges in *.
  set (k := if 32 <? len rs' then Z.to_nat (len rs' - 32) else 0%nat).
  assert ((if 32 <? len rs' then slices_Delete rs' 0 (Z.to_nat (len rs' - 32)) else rs') =
    drop k rs') as -> by (unfold k, slices_Delete; zcase; by rewrite ?drop_0).
  destruct (asc_drop _ k _ Hasc') as (lo&Hlo&Hlo0&Hascd&Hcovd).
  assert (∀ x, covers (drop k rs') x ↔ (covers (ranges h) x ∨ x = p) ∧ lo ≤ x) as Hcov'.
  { intros x. by rewrite Hcovd, Hcov. }
  eexists _, isNew. split; [done|]. unfold history_inv, MaxNumAckRanges.
  cbn [ranges deletedBelow]. split_and!; try done.
  - unfold len. rewrite length_drop. unfold k, len in *. zcase; lia.
  - apply (covers_bounded _ _ _ Hascd). intros x [[Hx| ->] _]%Hcov'; [|lia].
    by apply (covers_bounded _ _ _ Hasc).
  - intros _ Hnil. assert (length (drop k rs') = 0%nat) as Hk by by rewrite Hnil.
    rewrite length_drop in Hk. unfold k, len in Hk.
    assert (covers rs' p) as Hc by (apply Hcov; by right).
    destruct rs'; [by apply Exists_nil in Hc|]. zcase_in Hk; simpl in *; lia.
  - rewrite Hnew. intuition lia.
  - exists lo. split_and!; try done.
    + intros. apply Hlo0. unfold k. by zcase.
    + intros x. rewrite Hcov'. intuition lia.
Qed.

(** The ranges with the packet, of which the first is dropped if there are too many. *)
Lemma ReceivedPacket_ranges h p h' isNew :
  history_inv h → 0 ≤ p ≤ maxVarInt8 → ReceivedPacket h p = Ok (h', isNew) →
  ∃ rs, asc (deletedBelow h) rs ∧ (∀ x, covers rs x ↔ covers (ranges h) x ∨ (x = p ∧ deletedBelow h ≤ p)) ∧
    ranges h' = (if MaxNumAckRanges <? len rs then tail rs else rs).
Proof.
  intros (Hd&Hasc&Hlen&Hmax) Hp. unfold ReceivedPacket. zcase.
  { intros [= <- <-]. exists (ranges h). rewrite (proj2 (Z.ltb_ge _ _)) by done.
    split_and!; try done. intros x. intuition lia. }
  destruct (addToRanges_spec (deletedBelow h) p (ranges h) Hasc) as ([rs b]&->&Hasc'&Hnew&Hcov&Hlen'); [lia..|done|].
  intros [= <- <-]. exists rs. split_and!; [done| |].
  - intros x. rewrite Hcov. intuition lia.
  - cbn [ranges]. zcase; [|done]. unfold slices_Delete. replace (len rs - MaxNumAckRanges) with 1 by lia.
    by destruct rs.
Qed.

(** ** Deleting packets *)

(** The ranges from [p] on. *)
Fixpoint clip (p : Z) (rs : list interval) : list interval :=
  match rs with
  | [] => []
  | r :: rs =>
      if End_ r <? p then clip p rs
      else if Start r <? p then mkInterval p (End_ r) :: rs
      else r :: rs
  end.

Lemma DeleteBelow_loop_spec post pre p :
  ∃ idx rs, DeleteBelow_loop (length post) (length pre) (pre ++ post) p (length pre) = Ok (idx, rs) ∧
    drop idx rs = clip p post.
Proof.
  revert pre. induction post as [|r post IH]; intros pre; cbn [length DeleteBelow_loop clip].
  { eexists _, _. split; [done|]. by rewrite app_nil_r, drop_all. }
  rewrite list_lookup_middle by done. zcase.
  - destruct (IH (pre ++ [r])) as (idx&rs&Hloop&Hdrop).
    rewrite length_app, Nat.add_1_r, <-app_assoc in Hloop. eauto.
  - destruct (Z.ltb_spec (Start r) p); [|rewrite andb_false_l].
    + rewrite (proj2 (Z.leb_le _ _)) by lia. rewrite insert_snoc by done.
      eexists _, _. split; [done|]. by rewrite drop_app_length.
    + eexists _, _. split; [done|]. by rewrite drop_app_length.
Qed.

Lemma clip_asc lo p rs : asc lo rs → asc p (clip p rs).
Proof.
  revert lo. induction rs as [|r rs IH]; intros lo; [done|]. intros (?&?&Hrs). cbn [clip].
  zcase; [by eapply IH|]. zcase; cbn; split_and!; done || lia.
Qed.

Lemma clip_covers lo p rs x : asc lo rs → covers (clip p rs) x ↔ covers rs x ∧ p ≤ x.
Proof.
  revert lo. induction rs as [|r rs IH]; intros lo; cbn [clip].
  { intros _. split; [by intros ?%Exists_nil|by intros [?%Exists_nil _]]. }
  intros (?&?&Hrs). assert (covers rs x → End_ r + 2 ≤ x) by by apply covers_asc.
  zcase; [rewrite (IH _ Hrs)|zcase]; rewrite !covers_cons; cbn [Start End_]; intuition lia.
Qed.

Lemma clip_len p rs : len (clip p rs) ≤ len rs.
Proof.
  induction rs as [|r rs IH]; cbn [clip]; [done|].
  zcase; [|zcase]; rewrite ?len_cons; lia.
Qed.

Lemma DeleteBelow_spec h p :
  history_inv h →
  ∃ h', DeleteBelow h p = Ok h' ∧ history_inv h' ∧
    deletedBelow h' = Z.max (deletedBelow h) p ∧
    ∀ x, covers (ranges h') x ↔ covers (ranges h) x ∧ p ≤ x.
Proof.
  intros (Hd&Hasc&Hlen&Hmax). unfold DeleteBelow. zcase.
  { exists h. split_and!; try done; [lia|]. intros x. split; [|tauto]. intros Hx.
    pose proof (covers_asc _ _ _ Hasc Hx). split; [done|lia]. }
  assert (∃ h', (if len (ranges h) =? 0 then Ok (mkHistory (ranges h) p) else
    '(idx, rs) ← DeleteBelow_loop (length (ranges h)) 0 (ranges h) p 0;
    Ok (mkHistory (slices_Delete rs 0 idx) p)) = Ok (E:=error) h' ∧
    h' = mkHistory (clip p (ranges h)) p) as (h'&->&->).
  { zcase.
    - rewrite (len_0_nil (ranges h)) by done. eauto.
    - destruct (DeleteBelow_loop_spec (ranges h) [] p) as (idx&rs&Hl&Hdrop).
      cbn [length app] in Hl. rewrite Hl. eexists. split; [done|].
      unfold slices_Delete. cbn [take app]. by rewrite Hdrop. }
  eexists. split; [done|]. unfold history_inv. cbn [ranges deletedBelow].
  pose proof (clip_len p (ranges h)). split_and!; try lia.
  - by eapply clip_asc.
  - eapply covers_bounded; [by eapply clip_asc|]. intros x [Hx _]%(clip_covers _ _ _ _ Hasc).
    by eapply covers_bounded.
  - intros x. by apply (clip_covers (deletedBelow h)).
Qed.

(** ** Queries *)
Definition ack_ranges (rs : list interval) : list AckRange :=
  rev (map (λ r, mkAckRange (Start r) (End_ r)) rs).

Lemma ack_ranges_snoc rs r :
  ack_ranges (rs ++ [r]) = mkAckRange (Start r) (End_ r) :: ack_ranges rs.
Proof. unfold ack_ranges. by rewrite map_app, rev_app_distr. Qed.

Lemma AppendAckRanges_loop_eq pre post acc :
  AppendAckRanges_loop (length pre) (pre ++ post) acc = Ok (acc ++ ack_ranges pre).
Proof.
  revert post acc. induction pre as [|r pre IH] using rev_ind; intros post acc.
  { by rewrite app_nil_r. }
  rewrite length_app, Nat.add_1_r, <-app_assoc. cbn [app AppendAckRanges_loop].
  rewrite list_lookup_middle, IH, ack_ranges_snoc, <-app_assoc by done. done.
Qed.

Lemma AppendAckRanges_eq h acc : AppendAckRanges h acc = Ok (acc ++ ack_ranges (ranges h)).
Proof.
  unfold AppendAckRanges. pose proof (AppendAckRanges_loop_eq (ranges h) [] acc) as H.
  by rewrite app_nil_r in H.
Qed.

Lemma ack_ranges_below lo rs s :
  0 ≤ lo → asc lo rs → next_start lo rs ≤ s → AckFrame.ranges_below s (ack_ranges rs).
Proof.
  intros Hlo. revert s. induction rs as [|r rs IH] using rev_ind; intros s Hasc Hs; [done|].
  rewrite ack_ranges_snoc. rewrite next_start_snoc in Hs.
  apply asc_app in Hasc as [Ha (Hr1&Hr2&_)]. pose proof (next_start_ge _ _ Ha).
  cbn [AckFrame.ranges_below Smallest Largest]. split_and!; [lia..|]. apply IH; [done|lia].
Qed.

Lemma ack_ranges_acked rs p : AckFrame.acked (ack_ranges rs) p ↔ covers rs p.
Proof.
  unfold AckFrame.acked, covers. rewrite Exists_exists.
  assert (∀ r, r ∈ ack_ranges rs ↔ ∃ i, r = mkAckRange (Start i) (End_ i) ∧ i ∈ rs) as Hin.
  { intros r. unfold ack_ranges. rewrite <-(list_elem_of_fmap _ rs r).
    rewrite !list_elem_of_In. symmetry. apply in_rev. }
  split.
  - intros (r&(i&->&Hi)%Hin&Hp). eauto.
  - intros (i&Hi&Hp). exists (mkAckRange (Start i) (End_ i)). split; [apply Hin; eauto|done].
Qed.

Lemma ack_ranges_ok h :
  history_inv h → ranges h ≠ [] → AckFrame.ranges_ok (ack_ranges (ranges h)).
Proof.
  intros (Hd&Hasc&_&Hmax) Hne. apply AckFrame.ranges_ok_below. split.
  - destruct (ranges h) as [|r rs _] using rev_ind; [done|]. by rewrite ack_ranges_snoc.
  - eapply ack_ranges_below; [done..|].
    destruct (ranges h) as [|r rs _] using rev_ind; [done|]. rewrite next_start_snoc.
    apply Forall_app in Hmax as [_ [? _]%Forall_cons]. lia.
Qed.

Lemma IsPotentiallyDuplicate_loop_spec lo pre post p :
  asc lo (pre ++ post) → asc (p + 1) post →
  ∃ b, IsPotentiallyDuplicate_loop (length pre) (pre ++ post) p = Ok b ∧
    (b = true ↔ covers (pre ++ post) p).
Proof.
  revert post. induction pre as [|r pre IH] using rev_ind; intros post Hasc Hpost.
  { eexists; split; [done|]. split; [done|]. cbn [app]. intros Hc.
    pose proof (covers_asc _ _ _ Hpost Hc). lia. }
  rewrite length_app, Nat.add_1_r, <-app_assoc in *. cbn [app IsPotentiallyDuplicate_loop] in *.
  rewrite list_lookup_middle by done. assert (¬ covers post p).
  { intros Hc. pose proof (covers_asc _ _ _ Hpost Hc). lia. }
  pose proof Hasc as [Ha Hb]%asc_app. cbn [asc] in Hb. zcase.
  - eexists; split; [done|]. rewrite covers_app, covers_cons. split; [done|].
    intros [Hc|[?|?]]; [|lia|done]. pose proof (covers_below _ _ _ Ha Hc). lia.
  - destruct ((p <=? End_ r) && (Start r <=? p)) eqn:Hin.
    + eexists; split; [done|]. rewrite covers_app, covers_cons. split; [|done]. intros _.
      right. left. lia.
    + apply IH; [done|]. cbn. split_and!; [lia..|]. apply Hb.
Qed.

Lemma IsPotentiallyDuplicate_spec h p :
  history_inv h →
  ∃ b, IsPotentiallyDuplicate h p = Ok b ∧
    (b = true ↔ p < deletedBelow h ∨ covers (ranges h) p).
Proof.
  intros (Hd&Hasc&_). unfold IsPotentiallyDuplicate. zcase.
  { eexists; split; [done|]. split; [by left|done]. }
  destruct (IsPotentiallyDuplicate_loop_spec (deletedBelow h) (ranges h) [] p) as (b&Hb&Hc);
    rewrite ?app_nil_r in *; [done..|]. exists b. split; [done|]. rewrite Hc. intuition lia.
Qed.

(** ** Properties *)

(** Runs a sequence of received packets. *)
Fixpoint receive_all (h : receivedPacketHistory) (ps : list Z) : res receivedPacketHistory :=
  match ps with
  | [] => Ok h
  | p :: ps => '(h, _) ← ReceivedPacket h p; receive_all h ps
  end.

Definition example_history : receivedPacketHistory :=
  mkHistory [mkInterval 2 3; mkInterval 5 8] 1.

Lemma example_history_inv : history_inv example_history.
Proof.
  unfold history_inv, example_history. cbn. split_and!; try done.
  repeat apply Forall_cons_2; [done..|apply Forall_nil_2].
Qed.

(** C26: the history refines a set of packet numbers. From a well-formed history,
    receiving a packet never indexes outside of the slice, keeps the ranges
    sorted, disjoint, not adjacent and at most 32, reports the packet as new
    exactly if it is neither below the deletion limit nor in the set, and adds it
    to the set.  If the set then has a 33rd range, exactly the range of the lowest
    packet numbers is dropped from it (its packets count as new if they arrive again,
    see [evicted_packet_is_new_again]); otherwise nothing is. *)
Theorem received_packet_refines_set h p :
  history_inv h → 0 ≤ p ≤ maxVarInt8 →
  ∃ h' isNew, ReceivedPacket h p = Ok (h', isNew) ∧ history_inv h' ∧
    deletedBelow h' = deletedBelow h ∧
    (isNew = true ↔ deletedBelow h ≤ p ∧ ¬ covers (ranges h) p) ∧
    (∃ rs, asc (deletedBelow h) rs ∧ (∀ x, covers rs x ↔ covers (ranges h) x ∨ (x = p ∧ deletedBelow h ≤ p)) ∧
      ranges h' = (if MaxNumAckRanges <? len rs then tail rs else rs)) ∧
    ∃ lo, deletedBelow h ≤ lo ∧ (len (ranges h) < MaxNumAckRanges → lo = deletedBelow h) ∧
      ∀ x, covers (ranges h') x ↔
        (covers (ranges h) x ∨ (x = p ∧ deletedBelow h ≤ p)) ∧ lo ≤ x.
Proof.
  intros Hinv Hp. destruct (ReceivedPacket_spec h p Hinv Hp) as (h'&b&Hrp&?&?&_&?&?).
  exists h', b. split_and!; try done. by eapply ReceivedPacket_ranges.
Qed.

Lemma received_packet_refines_set_witness :
  let h := example_history in
  ∃ h' isNew, ReceivedPacket h 4 = Ok (h', isNew) ∧ history_inv h' ∧
    deletedBelow h' = 1 ∧
    (isNew = true ↔ 1 ≤ 4 ∧ ¬ covers (ranges h) 4) ∧
    (∃ rs, asc 1 rs ∧ (∀ x, covers rs x ↔ covers (ranges h) x ∨ (x = 4 ∧ 1 ≤ 4)) ∧
      ranges h' = (if MaxNumAckRanges <? len rs then tail rs else rs)) ∧
    ∃ lo, 1 ≤ lo ∧ (len (ranges h) < MaxNumAckRanges → lo = 1) ∧
      ∀ x, covers (ranges h') x ↔ (covers (ranges h) x ∨ (x = 4 ∧ 1 ≤ 4)) ∧ lo ≤ x.
Proof.
  intros h. apply (received_packet_refines_set h 4); [apply example_history_inv|done].
Defined.

(** [DeleteBelow] removes exactly the packet numbers below its argument from
    the history and keeps it well-formed; from then on they count as duplicates. *)
Theorem delete_below_refines_set h p :
  history_inv h →
  ∃ h', DeleteBelow h p = Ok h' ∧ history_inv h' ∧
    deletedBelow h' = Z.max (deletedBelow h) p ∧
    (∀ x, covers (ranges h') x ↔ covers (ranges h) x ∧ p ≤ x) ∧
    (∀ x, x < p → IsPotentiallyDuplicate h' x = Ok true).
Proof.
  intros Hinv. destruct (DeleteBelow_spec h p Hinv) as (h'&Hd&Hinv'&Hdb&Hcov).
  exists h'. split_and!; try done. intros x Hx.
  destruct (IsPotentiallyDuplicate_spec h' x Hinv') as (b&->&Hb). f_equal. apply Hb. left. lia.
Qed.

Lemma delete_below_refines_set_witness :
  let h := example_history in
  ∃ h', DeleteBelow h 6 = Ok h' ∧ history_inv h' ∧ deletedBelow h' = Z.max 1 6 ∧
    (∀ x, covers (ranges h') x ↔ covers (ranges h) x ∧ 6 ≤ x) ∧
    (∀ x, x < 6 → IsPotentiallyDuplicate h' x = Ok true).
Proof.
  intros h. apply (delete_below_refines_set h 6). apply example_history_inv.
Defined.

(** Duplicate detection is exact on the history: a packet number is reported
    as a duplicate if and only if it was deleted or is tracked. *)
Theorem duplicate_detection_exact h p :
  history_inv h →
  IsPotentiallyDuplicate h p =
  Ok (bool_decide (p < deletedBelow h) || bool_decide (covers (ranges h) p)).
Proof.
  intros Hinv. destruct (IsPotentiallyDuplicate_spec h p Hinv) as (b&->&Hb). f_equal.
  apply eq_bool_prop_intro. rewrite orb_True, !bool_decide_spec, Is_true_true. done.
Qed.

Lemma duplicate_detection_exact_witness :
  IsPotentiallyDuplicate example_history 4 =
  Ok (bool_decide (4 < 1) || bool_decide (covers (ranges example_history) 4)).
Proof. apply (duplicate_detection_exact example_history 4). apply example_history_inv. Defined.

(** A packet number that was received can be accepted a second time: when the
    33rd range evicts the range of packet 0, packet 0 is no duplicate any more. *)
Lemma evicted_packet_is_new_again :
  ∃ h, receive_all newReceivedPacketHistory (map (λ i, 2 * i) (seqZ 0 33)) = Ok h ∧
    IsPotentiallyDuplicate h 0 = Ok false ∧
    ∃ h', ReceivedPacket h 0 = Ok (h', true).
Proof.
  eexists. split; [vm_compute; reflexivity|]. split; [vm_compute; reflexivity|].
  eexists. vm_compute. reflexivity.
Qed.
