(* ===== verification/ReceivedPackets.v ===== *)
(** * Acknowledging packets (internal/ackhandler: received_packet_tracker.go,
      received_packet_handler.go)

    The trackers of the packet number spaces, which decide when an ACK frame is
    sent and assemble it, and the handler that dispatches to them.  Times are in
    nanoseconds, 0 is the zero [time.Time]; logging is left out. *)

From S2P Require Import Prelude Varint Protocol Wire AckFrame ReceivedHistory.

(** ** Initial and Handshake packets *)

(** The frame [lastAck] points to is only changed by the next [GetAckFrame]. *)
Record receivedPacketTracker := mkTracker {
  ect0 : Z;
  ect1 : Z;
  ecnce : Z;
  packetHistory : receivedPacketHistory;
  lastAck : option AckFrame.t;
  hasNewAck : bool;
}.

Definition newReceivedPacketTracker : receivedPacketTracker :=
  mkTracker 0 0 0 newReceivedPacketHistory None false.

(** The tracker after the call and the error that is returned. *)
Definition Tracker_ReceivedPacket (h : receivedPacketTracker) (pn : Z) (ecn : ECN)
    (rcvTime : Z) (ackEliciting : bool) : res (receivedPacketTracker * option error) :=
  '(hist, isNew) ← ReceivedPacket (packetHistory h) pn;
  let h := mkTracker (ect0 h) (ect1 h) (ecnce h) hist (lastAck h) (hasNewAck h) in
  if negb isNew
  then Ok (h, Some (ErrorString
    "recevedPacketTracker BUG: ReceivedPacket called for old / duplicate packet %d" [pn]))
  else
  let h := match ecn with
           | ECT0 => mkTracker (u64 (ect0 h + 1)) (ect1 h) (ecnce h) hist (lastAck h) (hasNewAck h)
           | ECT1 => mkTracker (ect0 h) (u64 (ect1 h + 1)) (ecnce h) hist (lastAck h) (hasNewAck h)
           | ECNCE => mkTracker (ect0 h) (ect1 h) (u64 (ecnce h + 1)) hist (lastAck h) (hasNewAck h)
           | _ => h
           end in
  if negb ackEliciting then Ok (h, None) else
  Ok (mkTracker (ect0 h) (ect1 h) (ecnce h) (packetHistory h) (lastAck h) true, None).

Definition Tracker_GetAckFrame (h : receivedPacketTracker)
  : res (receivedPacketTracker * option AckFrame.t) :=
  if negb (hasNewAck h) then Ok (h, None) else
  let ack := match lastAck h with Some ack => ack | None => AckFrame.mk [] 0 0 0 0 end in
  let ack := AckFrame.Reset ack in
  rs ← AppendAckRanges (packetHistory h) (AckFrame.AckRanges ack);
  let ack := AckFrame.mk rs (AckFrame.DelayTime ack) (ect0 h) (ect1 h) (ecnce h) in
  Ok (mkTracker (ect0 h) (ect1 h) (ecnce h) (packetHistory h) (Some ack) false, Some ack).

Definition Tracker_IsPotentiallyDuplicate (h : receivedPacketTracker) (pn : Z) : res bool :=
  IsPotentiallyDuplicate (packetHistory h) pn.

(** ** Application data packets *)
Definition packetsBeforeAck : Z := 2.

Record appDataReceivedPacketTracker := mkAppTracker {
  tracker : receivedPacketTracker;
  largestObservedRcvdTime : Z;
  largestObserved : Z;
  ignoreBelow : Z;
  maxAckDelay : Z;
  ackQueued : bool;
  ackElicitingPacketsReceivedSinceLastAck : Z;
  ackAlarm : Z;
}.

Definition newAppDataReceivedPacketTracker : appDataReceivedPacketTracker :=
  mkAppTracker newReceivedPacketTracker 0 0 0 MaxAckDelay false 0 0.

(** Assignments to the fields. *)
Definition set_tracker (h : appDataReceivedPacketTracker) t :=
  mkAppTracker t (largestObservedRcvdTime h) (largestObserved h) (ignoreBelow h) (maxAckDelay h)
    (ackQueued h) (ackElicitingPacketsReceivedSinceLastAck h) (ackAlarm h).
Definition set_largestObserved (h : appDataReceivedPacketTracker) pn rcvTime :=
  mkAppTracker (tracker h) rcvTime pn (ignoreBelow h) (maxAckDelay h)
    (ackQueued h) (ackElicitingPacketsReceivedSinceLastAck h) (ackAlarm h).
Definition set_ignoreBelow (h : appDataReceivedPacketTracker) pn :=
  mkAppTracker (tracker h) (largestObservedRcvdTime h) (largestObserved h) pn (maxAckDelay h)
    (ackQueued h) (ackElicitingPacketsReceivedSinceLastAck h) (ackAlarm h).
Definition set_sinceLastAck (h : appDataReceivedPacketTracker) n :=
  mkAppTracker (tracker h) (largestObservedRcvdTime h) (largestObserved h) (ignoreBelow h)
    (maxAckDelay h) (ackQueued h) n (ackAlarm h).
Definition set_ackQueued (h : appDataReceivedPacketTracker) queued :=
  mkAppTracker (tracker h) (largestObservedRcvdTime h) (largestObserved h) (ignoreBelow h)
    (maxAckDelay h) queued (ackElicitingPacketsReceivedSinceLastAck h) (ackAlarm h).
Definition set_ackAlarm (h : appDataReceivedPacketTracker) alarm :=
  mkAppTracker (tracker h) (largestObservedRcvdTime h) (largestObserved h) (ignoreBelow h)
    (maxAckDelay h) (ackQueued h) (ackElicitingPacketsReceivedSinceLastAck h) alarm.

Definition isMissing (h : appDataReceivedPacketTracker) (p : Z) : res bool :=
  match lastAck (tracker h) with
  | None => Ok false
  | Some ack =>
      if p <? ignoreBelow h then Ok false else
      la ← AckFrame.LargestAcked ack;
      if p <? la then acks ← AckFrame.AcksPacket ack p; Ok (negb acks) else Ok false
  end.

Definition hasNewMissingPackets (h : appDataReceivedPacketTracker) : res bool :=
  match lastAck (tracker h) with
  | None => Ok false
  | Some ack =>
      highestRange ← GetHighestAckRange (packetHistory (tracker h));
      la ← AckFrame.LargestAcked ack;
      Ok ((i64 (la + 1) <? Smallest highestRange) && (AckRange_Len highestRange =? 1))
  end.

Definition shouldQueueACK (h : appDataReceivedPacketTracker) (pn : Z) (ecn : ECN)
    (wasMissing : bool) : res bool :=
  match lastAck (tracker h) with
  | None => Ok true
  | Some _ =>
      if wasMissing then Ok true else
      if packetsBeforeAck <=? ackElicitingPacketsReceivedSinceLastAck h then Ok true else
      new ← hasNewMissingPackets h;
      if (new : bool) then Ok true else
      if decide (ecn = ECNCE) then Ok true else Ok false
  end.

Definition App_ReceivedPacket (h : appDataReceivedPacketTracker) (pn : Z) (ecn : ECN)
    (rcvTime : Z) (ackEliciting : bool) : res (appDataReceivedPacketTracker * option error) :=
  '(t, err) ← Tracker_ReceivedPacket (tracker h) pn ecn rcvTime ackEliciting;
  let h := set_tracker h t in
  match err with
  | Some e => Ok (h, Some e)
  | None =>
      let h := if largestObserved h <=? pn then set_largestObserved h pn rcvTime else h in
      if negb ackEliciting then Ok (h, None) else
      let h := set_sinceLastAck h (i64 (ackElicitingPacketsReceivedSinceLastAck h + 1)) in
      missing ← isMissing h pn;
      queue ← (if negb (ackQueued h) then shouldQueueACK h pn ecn missing else Ok false);
      let h := if (queue : bool) then set_ackAlarm (set_ackQueued h true) 0 else h in
      let h := if negb (ackQueued h) then set_ackAlarm h (rcvTime + maxAckDelay h) else h in
      Ok (h, None)
  end.

Definition IgnoreBelow (h : appDataReceivedPacketTracker) (pn : Z)
  : res appDataReceivedPacketTracker :=
  if pn <=? ignoreBelow h then Ok h else
  let h := set_ignoreBelow h pn in
  hist ← DeleteBelow (packetHistory (tracker h)) pn;
  let t := tracker h in
  Ok (set_tracker h (mkTracker (ect0 t) (ect1 t) (ecnce t) hist (lastAck t) (hasNewAck t))).

Definition App_GetAckFrame (h : appDataReceivedPacketTracker) (now : Z) (onlyIfQueued : bool)
  : res (appDataReceivedPacketTracker * option AckFrame.t) :=
  if onlyIfQueued && negb (ackQueued h) && ((ackAlarm h =? 0) || (now <? ackAlarm h))
  then Ok (h, None) else
  '(t, ack) ← Tracker_GetAckFrame (tracker h);
  match ack with
  | None => Ok (set_tracker h t, None)
  | Some ack =>
      let delay := Z.max 0 (time_Sub now (largestObservedRcvdTime h)) in
      (* the frame is the one that [lastAck] points to *)
      let ack := AckFrame.mk (AckFrame.AckRanges ack) delay (AckFrame.ECT0 ack)
                   (AckFrame.ECT1 ack) (AckFrame.ECNCE ack) in
      let t := mkTracker (ect0 t) (ect1 t) (ecnce t) (packetHistory t) (Some ack) (hasNewAck t) in
      let h := set_ackQueued (set_tracker h t) false in
      Ok (set_sinceLastAck (set_ackAlarm h 0) 0, Some ack)
  end.

Definition App_GetAlarmTimeout (h : appDataReceivedPacketTracker) : Z := ackAlarm h.

(** ** The handler *)

(** What the handler uses of the sent packet handler ([sentPacketTracker] of
    interfaces.go). *)
Class SentPacketTracker (S : Type) := {
  GetLowestPacketNotConfirmedAcked : S → Z;
  sent_ReceivedPacket : S → EncryptionLevel → Z → S;
}.

Section handler.
Context {S : Type} `{SentPacketTracker S}.

Record receivedPacketHandler := mkHandler {
  sentPackets : S;
  initialPackets : option receivedPacketTracker;
  handshakePackets : option receivedPacketTracker;
  appDataPackets : appDataReceivedPacketTracker;
  lowest1RTTPacket : Z;
}.

Definition newReceivedPacketHandler (s : S) : receivedPacketHandler :=
  mkHandler s (Some newReceivedPacketTracker) (Some newReceivedPacketTracker)
    newAppDataReceivedPacketTracker InvalidPacketNumber.

(** The method of a nil tracker panics. *)
Definition Handler_ReceivedPacket (h : receivedPacketHandler) (pn : Z) (ecn : ECN)
    (encLevel : EncryptionLevel) (rcvTime : Z) (ackEliciting : bool)
  : res (receivedPacketHandler * option error) :=
  let s := sent_ReceivedPacket (sentPackets h) encLevel rcvTime in
  match encLevel with
  | EncryptionInitial =>
      match initialPackets h with
      | None => Panic
      | Some t =>
          '(t, err) ← Tracker_ReceivedPacket t pn ecn rcvTime ackEliciting;
          Ok (mkHandler s (Some t) (handshakePackets h) (appDataPackets h) (lowest1RTTPacket h), err)
      end
  | EncryptionHandshake =>
      match handshakePackets h with
      | None => Ok (mkHandler s (initialPackets h) None (appDataPackets h) (lowest1RTTPacket h), None)
      | Some t =>
          '(t, err) ← Tracker_ReceivedPacket t pn ecn rcvTime ackEliciting;
          Ok (mkHandler s (initialPackets h) (Some t) (appDataPackets h) (lowest1RTTPacket h), err)
      end
  | Encryption0RTT =>
      if negb (lowest1RTTPacket h =? InvalidPacketNumber) && (lowest1RTTPacket h <? pn)
      then Ok (mkHandler s (initialPackets h) (handshakePackets h) (appDataPackets h)
                 (lowest1RTTPacket h),
               Some (ErrorString
                 "received packet number %d on a 0-RTT packet after receiving %d on a 1-RTT packet"
                 [pn; lowest1RTTPacket h]))
      else
      '(t, err) ← App_ReceivedPacket (appDataPackets h) pn ecn rcvTime ackEliciting;
      Ok (mkHandler s (initialPackets h) (handshakePackets h) t (lowest1RTTPacket h), err)
  | Encryption1RTT =>
      let lowest := if (lowest1RTTPacket h =? InvalidPacketNumber) || (pn <? lowest1RTTPacket h)
                    then pn else lowest1RTTPacket h in
      '(t, err) ← App_ReceivedPacket (appDataPackets h) pn ecn rcvTime ackEliciting;
      match err with
      | Some e => Ok (mkHandler s (initialPackets h) (handshakePackets h) t lowest, Some e)
      | None =>
          t ← IgnoreBelow t (GetLowestPacketNotConfirmedAcked s);
          Ok (mkHandler s (initialPackets h) (handshakePackets h) t lowest, None)
      end
  end.

Definition DropPackets (h : receivedPacketHandler) (encLevel : EncryptionLevel)
  : res receivedPacketHandler :=
  match encLevel with
  | EncryptionInitial =>
      Ok (mkHandler (sentPackets h) None (handshakePackets h) (appDataPackets h) (lowest1RTTPacket h))
  | EncryptionHandshake =>
      Ok (mkHandler (sentPackets h) (initialPackets h) None (appDataPackets h) (lowest1RTTPacket h))
  | Encryption0RTT => Ok h
  | Encryption1RTT => Panic
  end.

Definition Handler_GetAlarmTimeout (h : receivedPacketHandler) : Z :=
  App_GetAlarmTimeout (appDataPackets h).

Definition Handler_GetAckFrame (h : receivedPacketHandler) (encLevel : EncryptionLevel)
    (now : Z) (onlyIfQueued : bool) : res (receivedPacketHandler * option AckFrame.t) :=
  match encLevel with
  | EncryptionInitial =>
      match initialPackets h with
      | Some t =>
          '(t, ack) ← Tracker_GetAckFrame t;
          Ok (mkHandler (sentPackets h) (Some t) (handshakePackets h) (appDataPackets h)
                (lowest1RTTPacket h), ack)
      | None => Ok (h, None)
      end
  | EncryptionHandshake =>
      match handshakePackets h with
      | Some t =>
          '(t, ack) ← Tracker_GetAckFrame t;
          Ok (mkHandler (sentPackets h) (initialPackets h) (Some t) (appDataPackets h)
                (lowest1RTTPacket h), ack)
      | None => Ok (h, None)
      end
  | Encryption1RTT =>
      '(t, ack) ← App_GetAckFrame (appDataPackets h) now onlyIfQueued;
      Ok (mkHandler (sentPackets h) (initialPackets h) (handshakePackets h) t
            (lowest1RTTPacket h), ack)
  | Encryption0RTT => Ok (h, None)
  end.

Definition Handler_IsPotentiallyDuplicate (h : receivedPacketHandler) (pn : Z)
    (encLevel : EncryptionLevel) : res bool :=
  match encLevel with
  | EncryptionInitial =>
      match initialPackets h with
      | Some t => Tracker_IsPotentiallyDuplicate t pn
      | None => Panic
      end
  | EncryptionHandshake =>
      match handshakePackets h with
      | Some t => Tracker_IsPotentiallyDuplicate t pn
      | None => Panic
      end
  | Encryption0RTT | Encryption1RTT =>
      Tracker_IsPotentiallyDuplicate (tracker (appDataPackets h)) pn
  end.
End handler.
Arguments receivedPacketHandler S : clear implicits.

(** ** Invariants *)
Definition tracker_inv (t : receivedPacketTracker) : Prop :=
  history_inv (packetHistory t) ∧
  (hasNewAck t = true → ranges (packetHistory t) ≠ []) ∧
  (∀ ack, lastAck t = Some ack → AckFrame.ranges_ok (AckFrame.AckRanges ack)).

Definition app_inv (h : appDataReceivedPacketTracker) : Prop :=
  tracker_inv (tracker h) ∧ deletedBelow (packetHistory (tracker h)) = ignoreBelow h.

(** The packet numbers that a tracker knows as received. *)
Abbreviation tracked t := (covers (ranges (packetHistory t))).

Lemma Tracker_ReceivedPacket_spec t pn ecn rcvTime ae :
  tracker_inv t → 0 ≤ pn ≤ maxVarInt8 →
  ∃ t' err hist isNew, Tracker_ReceivedPacket t pn ecn rcvTime ae = Ok (t', err) ∧
    ReceivedPacket (packetHistory t) pn = Ok (hist, isNew) ∧ tracker_inv t' ∧
    packetHistory t' = hist ∧ lastAck t' = lastAck t ∧
    (err = None ↔ isNew = true) ∧
    hasNewAck t' = hasNewAck t || (isNew && ae).
Proof.
  intros (Hh&Hn&Hl) Hp. destruct (ReceivedPacket_spec (packetHistory t) pn Hh Hp)
    as (hist&isNew&Hrp&Hinv&Hd&Hne&Hnew&lo&Hlo&_&Hcov).
  unfold Tracker_ReceivedPacket. rewrite Hrp. cbn [mbind result_bind].
  assert (hasNewAck t = true → ranges hist ≠ []) as Hne'.
  { intros Ha. destruct (decide (deletedBelow (packetHistory t) ≤ pn)) as [|Hlt]; [auto|].
    unfold ReceivedPacket in Hrp. rewrite (proj2 (Z.ltb_lt _ _)) in Hrp by lia.
    simplify_eq. auto. }
  destruct isNew; cbn [negb].
  - assert (deletedBelow (packetHistory t) ≤ pn) by by apply Hnew.
    destruct ae; cbn [negb]; eexists _, None, hist, true;
      (split; [done|]); (split; [done|]); unfold tracker_inv;
      destruct ecn; cbn; rewrite ?orb_true_r, ?orb_false_r; split_and!; auto; by split.
  - eexists _, _, hist, false. split; [done|]. unfold tracker_inv. cbn.
    rewrite orb_false_r. split_and!; auto. done.
Qed.

Lemma Tracker_GetAckFrame_spec t :
  tracker_inv t →
  ∃ t' ack, Tracker_GetAckFrame t = Ok (t', ack) ∧ tracker_inv t' ∧
    packetHistory t' = packetHistory t ∧ hasNewAck t' = false ∧
    (if hasNewAck t then lastAck t' = ack ∧
       ack = Some (AckFrame.mk (ack_ranges (ranges (packetHistory t))) 0 (ect0 t) (ect1 t) (ecnce t))
     else t' = t ∧ ack = None).
Proof.
  intros (Hh&Hn&Hl). unfold Tracker_GetAckFrame. destruct (hasNewAck t) eqn:Ha; cbn [negb].
  - rewrite AppendAckRanges_eq. cbn. eexists _, _. split; [done|]. unfold tracker_inv. cbn.
    split_and!; try done. intros ack [= <-]. cbn. apply ack_ranges_ok; auto.
  - eexists t, None. split_and!; try done. unfold tracker_inv. rewrite Ha. done.
Qed.

(** ** No panics in the queries on the last ACK *)
Lemma LargestAcked_ok ack :
  AckFrame.ranges_ok (AckFrame.AckRanges ack) → ∃ la, AckFrame.LargestAcked ack = Ok la.
Proof.
  unfold AckFrame.LargestAcked. destruct (AckFrame.AckRanges ack); [done|]. intros _. eauto.
Qed.

Lemma isMissing_ok h p : tracker_inv (tracker h) → ∃ b, isMissing h p = Ok b.
Proof.
  intros (_&_&Hl). unfold isMissing. destruct (lastAck (tracker h)) as [ack|]; [|eauto].
  specialize (Hl ack eq_refl). zcase; [eauto|].
  destruct (LargestAcked_ok ack Hl) as [la ->]. cbn [mbind result_bind]. zcase; [|eauto].
  destruct (AckFrame.acks_packet ack p Hl) as (b&->&_). cbn. eauto.
Qed.

Lemma GetHighestAckRange_ok h : ∃ r, GetHighestAckRange h = Ok r.
Proof.
  unfold GetHighestAckRange. zcase; [|eauto].
  destruct (AckFrame.idx_total (ranges h) (len (ranges h) - 1)) as (r&_&->); [lia|]. cbn. eauto.
Qed.

Lemma shouldQueueACK_ok h pn ecn missing :
  tracker_inv (tracker h) →
  ∃ b, shouldQueueACK h pn ecn missing = Ok b ∧
    (lastAck (tracker h) = None ∨ missing = true ∨ ecn = ECNCE ∨
     packetsBeforeAck ≤ ackElicitingPacketsReceivedSinceLastAck h → b = true).
Proof.
  intros (_&_&Hl). unfold shouldQueueACK, hasNewMissingPackets.
  destruct (lastAck (tracker h)) as [ack|]; [|eauto].
  destruct missing; [eauto|]. zcase; [eauto|].
  destruct (GetHighestAckRange_ok (packetHistory (tracker h))) as [r ->].
  destruct (LargestAcked_ok ack (Hl ack eq_refl)) as [la ->]. cbn [mbind result_bind].
  destruct (_ && _); [eauto|]. case_decide; [eauto|]. exists false. split; [done|].
  intros [?|[?|[?|?]]]; done || lia.
Qed.

(** The part of [App_ReceivedPacket] that decides about the ACK. *)
Lemma queue_decision h pn ecn rcvTime :
  tracker_inv (tracker h) →
  ∃ h', (missing ← isMissing h pn;
         queue ← (if negb (ackQueued h) then shouldQueueACK h pn ecn missing else Ok false);
         let h := if (queue : bool) then set_ackAlarm (set_ackQueued h true) 0 else h in
         let h := if negb (ackQueued h) then set_ackAlarm h (rcvTime + maxAckDelay h) else h in
         Ok (h, None)) = Ok (E:=error) (h', None (A:=error)) ∧
    tracker h' = tracker h ∧ ignoreBelow h' = ignoreBelow h ∧
    maxAckDelay h' = maxAckDelay h ∧
    ackElicitingPacketsReceivedSinceLastAck h' = ackElicitingPacketsReceivedSinceLastAck h ∧
    (ackQueued h = true → ackQueued h' = true) ∧
    (ackQueued h' = true ∨ ackAlarm h' = rcvTime + maxAckDelay h) ∧
    (lastAck (tracker h) = None ∨ ecn = ECNCE ∨
     packetsBeforeAck ≤ ackElicitingPacketsReceivedSinceLastAck h → ackQueued h' = true).
Proof.
  intros Hi. destruct (isMissing_ok h pn Hi) as [m ->]. cbn [mbind result_bind].
  destruct (ackQueued h) eqn:Hq; cbn [negb].
  { exists h. cbn. rewrite Hq. cbn. split_and!; auto. }
  destruct (shouldQueueACK_ok h pn ecn m Hi) as (q&->&Hq'). cbn [mbind result_bind].
  destruct q.
  - eexists. split; [done|]. cbn. split_and!; auto.
  - eexists. rewrite Hq. cbn. split; [done|]. cbn. split_and!; auto; [congruence|]. intros Hc.
    exfalso. assert (false = true); [|done]. apply Hq'. tauto.
Qed.

(** The deadline for the next ACK frame, if a packet is waiting for it: an ACK is queued,
    or the alarm is set to the deadline. *)
Definition pending (h : appDataReceivedPacketTracker) (due : option Z) : Prop :=
  match due with
  | None =>
      hasNewAck (tracker h) = false ∧ ackQueued h = false ∧ ackElicitingPacketsReceivedSinceLastAck h = 0
  | Some d =>
      hasNewAck (tracker h) = true ∧
      (ackQueued h = true ∨ ackAlarm h = d ∧ d ≠ 0 ∧ ackElicitingPacketsReceivedSinceLastAck h = 1)
  end.

(** The app tracker after a packet: the invariant holds, the packet is in the
    history or was refused, and an ACK-eliciting packet leads to an ACK. *)
Lemma App_ReceivedPacket_spec h pn ecn rcvTime ae due :
  app_inv h → 0 ≤ pn ≤ maxVarInt8 → pending h due → 0 < rcvTime + maxAckDelay h →
  ∃ h' err hist isNew, App_ReceivedPacket h pn ecn rcvTime ae = Ok (h', err) ∧
    ReceivedPacket (packetHistory (tracker h)) pn = Ok (hist, isNew) ∧ app_inv h' ∧
    packetHistory (tracker h') = hist ∧ (err = None ↔ isNew = true) ∧
    ignoreBelow h' = ignoreBelow h ∧
    (err = None → maxAckDelay h' = maxAckDelay h ∧
      pending h' (if ae then Some (default (rcvTime + maxAckDelay h) due) else due)).
Proof.
  intros [Hi Hd] Hp Hpend Hrt.
  destruct (Tracker_ReceivedPacket_spec (tracker h) pn ecn rcvTime ae Hi Hp)
    as (t'&err&hist&isNew&Ht&Hrp&Hi'&Hh'&Hl'&Herr&Hna).
  assert (deletedBelow hist = ignoreBelow h) as Hd'.
  { destruct (ReceivedPacket_spec _ pn (proj1 Hi) Hp) as (?&?&?&_&?&_). congruence. }
  unfold App_ReceivedPacket. rewrite Ht. cbn [mbind result_bind].
  destruct err as [e|].
  { eexists _, _, hist, isNew. split; [done|]. unfold app_inv. cbn. rewrite Hh'.
    split_and!; auto. done. }
  assert (isNew = true) as -> by by apply Herr.
  set (h1 := if largestObserved _ <=? pn then _ else _).
  assert (tracker h1 = t' ∧ ignoreBelow h1 = ignoreBelow h ∧ maxAckDelay h1 = maxAckDelay h ∧
    ackQueued h1 = ackQueued h ∧ ackAlarm h1 = ackAlarm h ∧
    ackElicitingPacketsReceivedSinceLastAck h1 = ackElicitingPacketsReceivedSinceLastAck h)
    as (E1&E2&E3&E4&E5&E6) by (unfold h1; by destruct (_ <=? pn)).
  destruct ae; cbn [negb].
  - set (h2 := set_sinceLastAck h1 _).
    destruct (queue_decision h2 pn ecn rcvTime) as (h'&Heq&F1&F2&F3&F4&F5&F6&F7); [cbn; by rewrite E1|].
    cbn [tracker ignoreBelow maxAckDelay ackQueued ackElicitingPacketsReceivedSinceLastAck
         h2 set_sinceLastAck] in F1, F2, F3, F4, F5, F6, F7.
    rewrite ?E1, ?E3, ?E4, ?E6 in *.
    exists h', None, hist, true. split; [exact Heq|]. unfold app_inv. rewrite F1, F2, E2, Hh'.
    split_and!; auto. intros _. split; [done|]. cbn [pending]. rewrite F1, Hna, orb_true_r. split; [done|].
    destruct due as [d|]; cbn [default].
    + left. destruct Hpend as (_&[?|(_&_&E)]); [auto|]. apply F7. right. right. by rewrite E.
    + destruct Hpend as (_&_&E). rewrite E in F4. destruct F6; [by left|right]. split_and!; [done|lia|by rewrite F4].
  - eexists _, _, hist, true. split; [done|]. unfold app_inv. rewrite E1, E2, Hh'.
    split_and!; auto. intros _. split; [done|]. revert Hpend. unfold pending.
    rewrite E1, E4, E5, E6, Hna, andb_false_r, orb_false_r. done.
Qed.

(** [IgnoreBelow] keeps the invariant unless it empties the history of a
    tracker that has an ACK to send. *)
Lemma IgnoreBelow_spec h lo :
  app_inv h →
  (lo ≤ ignoreBelow h ∨ hasNewAck (tracker h) = false ∨ ∃ q, lo ≤ q ∧ tracked (tracker h) q) →
  ∃ h', IgnoreBelow h lo = Ok h' ∧ app_inv h' ∧
    ignoreBelow h' = Z.max lo (ignoreBelow h) ∧
    (∀ q, tracked (tracker h') q ↔ tracked (tracker h) q ∧ lo ≤ q) ∧
    hasNewAck (tracker h') = hasNewAck (tracker h) ∧
    ackQueued h' = ackQueued h ∧ ackAlarm h' = ackAlarm h.
Proof.
  intros [(Hh&Hn&Hl) Hd] Hne. unfold IgnoreBelow. zcase.
  { exists h. unfold app_inv, tracker_inv. split_and!; try done; [lia|].
    intros q. split; [|tauto]. intros Hq. split; [done|].
    destruct Hh as (_&Hasc&_). pose proof (covers_asc _ _ _ Hasc Hq). lia. }
  cbn [tracker packetHistory set_ignoreBelow].
  destruct (DeleteBelow_spec _ lo Hh) as (hist&->&Hh'&Hd'&Hcov). cbn [mbind result_bind].
  eexists. split; [done|]. unfold app_inv, tracker_inv. cbn.
  split_and!; try done; try lia. intros Ha He.
  destruct Hne as [?|[?|(q&?&Hq)]]; [lia|congruence|].
  assert (covers (ranges hist) q) as Hc by by apply Hcov.
  rewrite He in Hc. by apply Exists_nil in Hc.
Qed.

Lemma IgnoreBelow_pending h lo h' due :
  IgnoreBelow h lo = Ok h' → maxAckDelay h' = maxAckDelay h ∧ (pending h due → pending h' due).
Proof. unfold IgnoreBelow. zcase; intros Hb; [by injection Hb as <-|]. bind_inv Hb. by injection Hb as <-. Qed.

Lemma App_GetAckFrame_spec h now onlyIfQueued due :
  app_inv h → pending h due →
  ∃ h' ack, App_GetAckFrame h now onlyIfQueued = Ok (h', ack) ∧ app_inv h' ∧
    packetHistory (tracker h') = packetHistory (tracker h) ∧
    (∀ a, ack = Some a → AckFrame.AckRanges a = ack_ranges (ranges (packetHistory (tracker h))) ∧
      0 ≤ AckFrame.DelayTime a ∧ AckFrame.ranges_ok (AckFrame.AckRanges a)) ∧
    (∀ d, due = Some d → onlyIfQueued = false ∨ d ≤ now → ∃ a, ack = Some a) ∧
    ignoreBelow h' = ignoreBelow h ∧ maxAckDelay h' = maxAckDelay h ∧
    pending h' (if ack is Some _ then None else due).
Proof.
  intros [Hi Hd] Hpend. unfold App_GetAckFrame.
  destruct (onlyIfQueued && negb (ackQueued h) && ((ackAlarm h =? 0) || (now <? ackAlarm h))) eqn:Hc.
  { exists h, None. split_and!; try done. intros d -> Hr. destruct Hpend as (_&[Hq|(Hal&Hd0&_)]).
    - rewrite Hq in Hc. by rewrite andb_false_r in Hc.
    - destruct onlyIfQueued; [|done]. destruct Hr; [done|]. lia. }
  destruct (Tracker_GetAckFrame_spec _ Hi) as (t'&ack&->&Hi'&Hh'&Hn'&Hack).
  cbn [mbind result_bind]. destruct (hasNewAck (tracker h)) eqn:Ha.
  - destruct Hack as [Hl ->]. eexists _, _. split; [done|]. cbn [AckFrame.AckRanges].
    destruct Hi as (Hh&Hn&_).
    assert (AckFrame.ranges_ok (ack_ranges (ranges (packetHistory (tracker h))))) as Hok
      by (apply ack_ranges_ok; auto).
    unfold app_inv, tracker_inv. cbn. rewrite Hh'. split_and!; eauto.
    + intros a [= <-]. done.
    + intros a [= <-]. cbn. split_and!; [done|lia|done].
  - destruct Hack as [-> ->]. exists (set_tracker h (tracker h)), None. split_and!; try done.
    intros d ->. destruct Hpend. congruence.
Qed.

(** A frame that carries the ranges of a tracker. *)
Definition acknowledges (a : AckFrame.t) (t : receivedPacketTracker) : Prop :=
  AckFrame.ranges_ok (AckFrame.AckRanges a) ∧
  ∀ p, AckFrame.AcksPacket a p = Ok (bool_decide (tracked t p)).

Lemma acknowledges_intro a t :
  AckFrame.AckRanges a = ack_ranges (ranges (packetHistory t)) →
  AckFrame.ranges_ok (AckFrame.AckRanges a) → acknowledges a t.
Proof.
  intros Hrs Hok. split; [done|]. intros p.
  destruct (AckFrame.acks_packet a p Hok) as (b&->&Hb).
  rewrite Hrs, ack_ranges_acked in Hb. f_equal. apply eq_bool_prop_intro.
  by rewrite bool_decide_spec, Is_true_true.
Qed.

Lemma Tracker_GetAckFrame_exact t :
  tracker_inv t →
  ∃ t' ack, Tracker_GetAckFrame t = Ok (t', ack) ∧ tracker_inv t' ∧
    ∀ a, ack = Some a → acknowledges a t.
Proof.
  intros Hi. destruct (Tracker_GetAckFrame_spec t Hi) as (t'&ack&->&Hi'&_&_&Hack).
  eexists _, _. split_and!; [done..|]. intros a ->. destruct Hi as (Hh&Hn&_).
  destruct (hasNewAck t); [|by destruct Hack]. destruct Hack as [_ [= ->]].
  apply acknowledges_intro; [done|]. apply ack_ranges_ok; auto.
Qed.

(** After a packet at least one packet number from there on is tracked, also
    when the range of the packet itself is the one that is evicted. *)
Lemma ReceivedPacket_above h p :
  history_inv h → 0 ≤ p ≤ maxVarInt8 → deletedBelow h ≤ p →
  ∃ h' isNew q, ReceivedPacket h p = Ok (h', isNew) ∧ p ≤ q ∧ covers (ranges h') q.
Proof.
  intros Hh Hp Hd.
  destruct (ReceivedPacket_spec h p Hh Hp) as (h'&b&->&(_&Hasc&_)&_&Hne&_&lo&_&_&Hcov).
  assert (∃ x, covers (ranges h') x) as [x Hx].
  { apply covers_End in Hasc. destruct (ranges h') as [|r rs]; [by destruct (Hne Hd)|].
    inversion Hasc; eauto. }
  destruct (decide (p ≤ x)) as [?|?]; [by exists h', b, x|].
  exists h', b, p. split_and!; [done..|]. apply Hcov. apply Hcov in Hx. intuition lia.
Qed.

(** ** The handler *)
Section handler_specs.
Context {S : Type} `{SentPacketTracker S}.

Definition handler_inv (h : receivedPacketHandler S) : Prop :=
  (∀ t, initialPackets h = Some t → tracker_inv t) ∧
  (∀ t, handshakePackets h = Some t → tracker_inv t) ∧ app_inv (appDataPackets h).

(** The tracker in charge of an encryption level. *)
Definition space (h : receivedPacketHandler S) (encLevel : EncryptionLevel)
  : option receivedPacketTracker :=
  match encLevel with
  | EncryptionInitial => initialPackets h
  | EncryptionHandshake => handshakePackets h
  | _ => Some (tracker (appDataPackets h))
  end.

End handler_specs.

(** A sent packet handler that is only its [lowestNotConfirmedAcked]. *)
#[global] Instance fixed_lowest : SentPacketTracker Z :=
  {| GetLowestPacketNotConfirmedAcked := id; sent_ReceivedPacket s _ _ := s |}.

(** Without the hypothesis on the peer's packet numbers, the ACK frame can have
    no ranges, and computing its length panics: packet 10 is acknowledged, then
    a packet with the skipped number 7 confirms that ACK. *)
Lemma reused_packet_number_empties_ack :
  ∃ h1 h2 h3 h4 ack1 ack2,
    Handler_ReceivedPacket (newReceivedPacketHandler 0) 10 ECNNon Encryption1RTT 100 true
      = Ok (h1, None) ∧
    Handler_GetAckFrame h1 Encryption1RTT 100 true = Ok (h2, Some ack1) ∧
    AckFrame.AcksPacket ack1 10 = Ok true ∧
    Handler_ReceivedPacket
      (mkHandler 11 (initialPackets h2) (handshakePackets h2) (appDataPackets h2)
         (lowest1RTTPacket h2)) 7 ECNNon Encryption1RTT 200 true = Ok (h3, None) ∧
    Handler_GetAckFrame h3 Encryption1RTT 200 true = Ok (h4, Some ack2) ∧
    AckFrame.AckRanges ack2 = [] ∧ AckFrame.Length ack2 = Panic.
Proof. by eexists _, _, _, _, _, _; repeat (split; [vm_compute; reflexivity|]). Qed.
