(* ===== verification/RingBuffer.v ===== *)
(** * Ring buffers (internal/utils/ringbuffer/ringbuffer.go)

    A queue in a slice that is used cyclically and grows when it is full.  [holds] relates
    a ring buffer to the sequence of its elements; the operations refine those of a
    queue. *)

From S2P Require Import Prelude.

Section ring_buffer.
Context {T : Type} (zero : T).   (* the zero value [*new(T)] *)
Implicit Types (t x : T) (l a b : list T).

Record RingBuffer := mkRing { ring : list T; headPos : Z; tailPos : Z; full : bool }.
Implicit Types (r : RingBuffer).

(** The zero value of the type, with which its users start. *)
Definition emptyRing : RingBuffer := mkRing [] 0 0 false.

Definition Init r (size : Z) : res RingBuffer :=
  if size <? 0 then Panic
  else Ok (mkRing (replicate (Z.to_nat size) zero) (headPos r) (tailPos r) (full r)).

Definition Len r : Z :=
  if full r then len (ring r)
  else if headPos r <=? tailPos r then tailPos r - headPos r
  else tailPos r - headPos r + len (ring r).

Definition Empty r : bool := negb (full r) && (headPos r =? tailPos r).

(** [copy(dst, src)] *)
Definition copy (dst src : list T) : list T := take (length dst) src ++ drop (length src) dst.

Definition grow r : res RingBuffer :=
  let oldRing := ring r in
  let newSize := if len oldRing * 2 =? 0 then 1 else len oldRing * 2 in
  tl ← slice_from oldRing (headPos r);
  let ring1 := copy (replicate (Z.to_nat newSize) zero) tl in
  let headLen := Z.min newSize (len tl) in
  hd ← slice_to oldRing (headPos r);
  before ← slice_to ring1 headLen;
  behind ← slice_from ring1 headLen;
  Ok (mkRing (before ++ copy behind hd) 0 (len oldRing) false).

(** [r.ring[i] = t] *)
Definition store r (i : Z) t : res (list T) :=
  if (0 <=? i) && (i <? len (ring r)) then Ok (<[Z.to_nat i := t]> (ring r)) else Panic.

Definition PushBack r t : res RingBuffer :=
  r ← (if full r || (len (ring r) =? 0) then grow r else Ok r);
  ring' ← store r (tailPos r) t;
  let tail := if tailPos r + 1 =? len ring' then 0 else tailPos r + 1 in
  Ok (mkRing ring' (headPos r) tail (if tail =? headPos r then true else full r)).

Definition PopFront r : res (RingBuffer * T) :=
  if Empty r then Panic
  else
    t ← idx (ring r) (headPos r);
    ring' ← store r (headPos r) zero;
    let head := if headPos r + 1 =? len ring' then 0 else headPos r + 1 in
    Ok (mkRing ring' head (tailPos r) false, t).

Definition PeekFront r : res T :=
  if Empty r then Panic else idx (ring r) (headPos r).

Definition Clear r : RingBuffer := mkRing ((λ _, zero) <$> ring r) 0 0 false.

(** ** The sequence in a ring buffer *)
Definition wrap (n p : Z) : Z := if p <? n then p else p - n.

Record holds r l : Prop := {
  holds_head : 0 ≤ headPos r < Z.max 1 (len (ring r));
  holds_len : len l ≤ len (ring r);
  holds_tail : tailPos r = wrap (Z.max 1 (len (ring r))) (headPos r + len l);
  holds_full : full r = (len l =? len (ring r)) && (0 <? len (ring r));
  holds_elems i x : l !! i = Some x →
    ring r !! Z.to_nat (wrap (len (ring r)) (headPos r + Z.of_nat i)) = Some x;
}.

Lemma holds_empty : holds emptyRing [].
Proof. by split. Qed.

Lemma holds_Len r l : holds r l → Len r = len l.
Proof.
  intros [Hh Hl Ht Hf _]. unfold Len. rewrite Hf, Ht. unfold wrap. pose proof (len_nonneg l).
  destruct (Z.eqb_spec (len l) (len (ring r))), (Z.ltb_spec 0 (len (ring r))); simpl;
    repeat (zcase; try lia); lia.
Qed.

Lemma holds_Empty r l : holds r l → Empty r = (len l =? 0).
Proof.
  intros [Hh Hl Ht Hf _]. unfold Empty. rewrite Hf, Ht. unfold wrap. pose proof (len_nonneg l).
  destruct (Z.eqb_spec (len l) (len (ring r))), (Z.ltb_spec 0 (len (ring r))),
    (Z.ltb_spec (headPos r + len l) (Z.max 1 (len (ring r)))); simpl;
    repeat match goal with |- context [?a =? ?b] => destruct (Z.eqb_spec a b) end; try done; lia.
Qed.

(** Growing makes room and keeps the sequence. *)
Lemma grow_eq r :
  0 ≤ headPos r ≤ len (ring r) →
  let h := Z.to_nat (headPos r) in
  grow r = Ok (mkRing (drop h (ring r) ++ take h (ring r) ++ replicate (Nat.max 1 (length (ring r))) zero)
                 0 (len (ring r)) false).
Proof.
  intros Hh h. unfold grow. set (n := if len (ring r) * 2 =? 0 then 1 else len (ring r) * 2).
  assert (Z.to_nat n = length (ring r) + Nat.max 1 (length (ring r)))%nat as Hn.
  { subst n. unfold len. zcase; lia. }
  assert (h ≤ length (ring r))%nat as Hhn by (subst h; unfold len in *; lia).
  rewrite (slice_from_ok (ring r)) by lia. cbn [mbind result_bind]. fold h.
  assert (copy (replicate (Z.to_nat n) zero) (drop h (ring r)) =
          drop h (ring r) ++ replicate (Z.to_nat n - length (drop h (ring r))) zero) as ->.
  { unfold copy. rewrite length_replicate, take_ge, drop_replicate; [done|]. rewrite length_drop. lia. }
  rewrite Z.min_r by (unfold len; rewrite length_drop; lia).
  rewrite (slice_to_ok (ring r)) by lia. cbn [mbind result_bind]. fold h.
  rewrite slice_to_app, slice_from_app by done. cbn [mbind result_bind]. do 4 f_equal.
  unfold copy. rewrite length_replicate, take_ge, drop_replicate.
  - do 2 f_equal. rewrite length_drop, length_take. lia.
  - rewrite length_take, length_drop. lia.
Qed.

Lemma grow_spec r l :
  holds r l → len l = len (ring r) → returns (grow r) (λ r', holds r' l ∧ len l < len (ring r')).
Proof.
  intros [Hh Hl Ht Hf He] Hfull. pose proof (len_nonneg l). rewrite grow_eq by lia. cbn [returns].
  set (h := Z.to_nat (headPos r)). assert (h ≤ length (ring r))%nat as Hhn by (subst h; unfold len in *; lia).
  assert (len (drop h (ring r) ++ take h (ring r) ++ replicate (Nat.max 1 (length (ring r))) zero) =
          len l + Z.max 1 (len l)) as Hln.
  { unfold len in *. rewrite !length_app, length_drop, length_take, length_replicate. lia. }
  split; [|simpl; rewrite Hln; lia]. split; simpl; rewrite ?Hln.
  - lia.
  - lia.
  - rewrite <-Hfull. unfold wrap. rewrite (proj2 (Z.ltb_lt _ _)); lia.
  - rewrite (proj2 (Z.eqb_neq _ _)) by lia. done.
  - intros i x Hi. specialize (He i x Hi). apply lookup_lt_Some in Hi as Hil. unfold wrap in *.
    assert (Z.of_nat i < len l) as Hil' by (unfold len; lia).
    rewrite (proj2 (Z.ltb_lt _ _)), Z.add_0_l, Nat2Z.id by lia. rewrite app_assoc, lookup_app_l.
    2:{ rewrite length_app, length_drop, length_take. unfold len in *. lia. }
    destruct (Z.ltb_spec (headPos r + Z.of_nat i) (len (ring r))).
    + rewrite lookup_app_l by (rewrite length_drop; unfold len in *; lia).
      rewrite lookup_drop, <-He. f_equal. lia.
    + rewrite lookup_app_r by (rewrite length_drop; unfold len in *; lia).
      rewrite length_drop, lookup_take_lt by (unfold len in *; lia). rewrite <-He. f_equal. unfold len in *. lia.
Qed.

Lemma store_tail_spec r l t :
  holds r l → len l < len (ring r) →
  returns (ring' ← store r (tailPos r) t;
    let tail := if tailPos r + 1 =? len ring' then 0 else tailPos r + 1 in
    Ok (E:=error) (mkRing ring' (headPos r) tail (if tail =? headPos r then true else full r)))
    (λ r', holds r' (l ++ [t])).
Proof.
  intros [Hh Hl Ht Hf He] Hlt. pose proof (len_nonneg l). unfold store.
  assert (0 ≤ tailPos r < len (ring r)) as Htr by (rewrite Ht; unfold wrap; zcase; lia).
  rewrite (proj2 (Z.leb_le _ _)), (proj2 (Z.ltb_lt _ _)) by lia. cbn [andb mbind result_bind returns].
  assert (len (<[Z.to_nat (tailPos r) := t]> (ring r)) = len (ring r)) as Hlen.
  { unfold len. by rewrite length_insert. }
  rewrite Hlen. split; simpl; rewrite ?Hlen, ?len_app; change (len [t]) with 1.
  - lia.
  - lia.
  - unfold wrap in *. zcase_in Ht; repeat zcase; lia.
  - rewrite Hf. unfold wrap in *. destruct (Z.eqb_spec (len l) (len (ring r))); [lia|].
    destruct (Z.eqb_spec (tailPos r + 1) (len (ring r))); zcase_in Ht;
    repeat match goal with
    | |- context [?a <? ?b] => destruct (Z.ltb_spec a b); cbn [andb]
    | |- context [?a =? ?b] => destruct (Z.eqb_spec a b); cbn [andb]
    end; try done; lia.
  - intros i x Hi. destruct (decide (i < length l)%nat).
    + rewrite lookup_app_l in Hi by done. rewrite list_lookup_insert_ne; [by apply He|].
      unfold wrap, len in *. zcase_in Ht; zcase; lia.
    + rewrite lookup_app_r in Hi by lia. destruct (i - length l)%nat eqn:Hil; [|done].
      injection Hi as ->. replace (Z.of_nat i) with (len l) by (unfold len; lia).
      rewrite Ht, Z.max_r by lia. rewrite list_lookup_insert_eq; [done|].
      unfold wrap, len in *. zcase; lia.
Qed.

(** [PushBack] appends. *)
Lemma PushBack_spec r l t : holds r l → returns (PushBack r t) (λ r', holds r' (l ++ [t])).
Proof.
  intros Hr. unfold PushBack. apply returns_bind. rewrite (holds_full _ _ Hr).
  pose proof (holds_len _ _ Hr). pose proof (len_nonneg l).
  destruct (decide (len l = len (ring r))) as [Heq|Hne].
  - assert ((len l =? len (ring r)) && (0 <? len (ring r)) || (len (ring r) =? 0) = true) as ->.
    { rewrite Heq, Z.eqb_refl. simpl. destruct (Z.ltb_spec 0 (len (ring r))), (Z.eqb_spec (len (ring r)) 0); lia || done. }
    eapply returns_mono; [by apply grow_spec|]. intros r' [Hr' Hlt]. by apply store_tail_spec.
  - rewrite (proj2 (Z.eqb_neq _ _)), (proj2 (Z.eqb_neq (len (ring r)) 0)) by lia. simpl.
    apply store_tail_spec; [done|lia].
Qed.

Lemma head_elem r x l : holds r (x :: l) → idx (E:=error) (ring r) (headPos r) = Ok x ∧ headPos r < len (ring r).
Proof.
  intros [Hh Hl _ _ He]. rewrite len_cons in Hl. pose proof (len_nonneg l).
  specialize (He O x eq_refl). unfold wrap in He. rewrite (proj2 (Z.ltb_lt _ _)) in He by lia.
  split; [|lia]. apply idx_lookup. split; [lia|]. by rewrite Z.add_0_r in He.
Qed.

(** [PopFront] removes the first element; it panics on an empty buffer. *)
Lemma PopFront_spec r x l : holds r (x :: l) → returns (PopFront r) (λ o, holds o.1 l ∧ o.2 = x).
Proof.
  intros Hr. destruct (head_elem _ _ _ Hr) as [Hx Hlt]. unfold PopFront.
  rewrite (holds_Empty _ _ Hr), len_cons. destruct Hr as [Hh Hl Ht Hf He].
  rewrite len_cons in *. pose proof (len_nonneg l). rewrite (proj2 (Z.eqb_neq _ _)), Hx by lia.
  cbn [mbind result_bind]. unfold store. rewrite (proj2 (Z.leb_le _ _)), (proj2 (Z.ltb_lt _ _)) by lia.
  cbn [andb mbind result_bind returns fst snd].
  assert (len (<[Z.to_nat (headPos r) := zero]> (ring r)) = len (ring r)) as Hlen.
  { unfold len. by rewrite length_insert. }
  rewrite Hlen. split; [|done]. split; simpl; rewrite ?Hlen.
  - zcase; lia.
  - lia.
  - unfold wrap in *. zcase_in Ht; repeat zcase; lia.
  - rewrite (proj2 (Z.eqb_neq _ _)) by lia. done.
  - intros i y Hi. apply lookup_lt_Some in Hi as Hil. specialize (He (S i) y Hi).
    assert (Z.of_nat i < len l) by (unfold len; lia).
    rewrite list_lookup_insert_ne by (unfold wrap; repeat zcase; lia). rewrite <-He. f_equal.
    unfold wrap. repeat zcase; lia.
Qed.

Lemma PopFront_empty r : holds r [] → PopFront r = Panic.
Proof. intros Hr. unfold PopFront. by rewrite (holds_Empty _ _ Hr). Qed.

Lemma PeekFront_spec r x l : holds r (x :: l) → PeekFront r = Ok x.
Proof.
  intros Hr. destruct (head_elem _ _ _ Hr) as [Hx _]. unfold PeekFront.
  rewrite (holds_Empty _ _ Hr), len_cons, (proj2 (Z.eqb_neq _ _)); [done|]. pose proof (len_nonneg l). lia.
Qed.

Lemma holds_cleared (ts : list T) : holds (mkRing ts 0 0 false) [].
Proof.
  pose proof (len_nonneg ts). split; cbn [ring headPos tailPos full]; change (len (@nil T)) with 0; try done.
  - lia.
  - unfold wrap. rewrite (proj2 (Z.ltb_lt _ _)); lia.
  - destruct (Z.eqb_spec 0 (len ts)) as [<-|]; done.
Qed.

Lemma Init_spec (size : Z) : 0 ≤ size → returns (Init emptyRing size) (λ r, holds r []).
Proof. intros Hs. unfold Init. rewrite (proj2 (Z.ltb_ge _ _)) by lia. apply holds_cleared. Qed.

(** ** Runs of a queue *)
Inductive ring_op := OpPushBack (t : T) | OpPopFront | OpPeekFront | OpClear.

(** The ring buffer and the abstract queue, with what each operation returns. *)
Definition ring_step r (op : ring_op) : res (RingBuffer * option T) :=
  match op with
  | OpPushBack t => r' ← PushBack r t; Ok (r', None)
  | OpPopFront => '(r', t) ← PopFront r; Ok (r', Some t)
  | OpPeekFront => t ← PeekFront r; Ok (r, Some t)
  | OpClear => Ok (Clear r, None)
  end.

Definition queue_step l (op : ring_op) : res (list T * option T) :=
  match op, l with
  | OpPushBack t, _ => Ok (l ++ [t], None)
  | OpPopFront, x :: l => Ok (l, Some x)
  | OpPeekFront, x :: _ => Ok (l, Some x)
  | OpClear, _ => Ok ([], None)
  | _, [] => Panic
  end.

Fixpoint runs {S} (step : S → ring_op → res (S * option T)) (s : S) (ops : list ring_op) : res (S * list (option T)) :=
  match ops with
  | [] => Ok (s, [])
  | op :: ops => '(s, o) ← step s op; '(s, os) ← runs step s ops; Ok (s, o :: os)
  end.

Lemma step_refines r l op :
  holds r l →
  match ring_step r op, queue_step l op with
  | Ok (r', o), Ok (l', o') => holds r' l' ∧ o = o'
  | Panic, Panic => True
  | _, _ => False
  end.
Proof.
  intros Hr. destruct op as [t| | |]; simpl.
  - pose proof (PushBack_spec _ _ t Hr) as H. by destruct (PushBack r t).
  - destruct l as [|x l]; [by rewrite PopFront_empty|].
    pose proof (PopFront_spec _ _ _ Hr) as H. destruct (PopFront r) as [[r' t]|e|]; try done.
    destruct H as [H Ht]. simpl in *. by subst.
  - destruct l as [|x l]; [|by rewrite (PeekFront_spec _ _ _ Hr)].
    unfold PeekFront. by rewrite (holds_Empty _ _ Hr).
  - split; [apply holds_cleared|done].
Qed.

(** A ring buffer is a queue: any sequence of operations returns the same results as on
    the abstract queue, keeps the same elements, and panics exactly when the abstract
    queue is asked for an element that it does not have. *)
Theorem ring_buffer_refines_queue ops r l :
  holds r l →
  match runs ring_step r ops, runs queue_step l ops with
  | Ok (r', os), Ok (l', os') => holds r' l' ∧ os = os' ∧ Len r' = len l' ∧ Empty r' = bool_decide (l' = [])
  | Panic, Panic => True
  | _, _ => False
  end.
Proof.
  revert r l. induction ops as [|op ops IH]; intros r l Hr; cbn [runs].
  - split_and!; [done..|by apply holds_Len|]. rewrite (holds_Empty _ _ Hr).
    destruct l; [done|]. rewrite len_cons, (proj2 (Z.eqb_neq _ _)); [done|]. pose proof (len_nonneg l). lia.
  - pose proof (step_refines r l op Hr) as H.
    destruct (ring_step r op) as [[r1 o]|e|], (queue_step l op) as [[l1 o']|e'|]; try done.
    destruct H as [Hr1 ->]. specialize (IH r1 l1 Hr1). cbn [mbind result_bind].
    destruct (runs ring_step r1 ops) as [[r2 os]|e|], (runs queue_step l1 ops) as [[l2 os']|e'|]; try done.
    simpl. naive_solver.
Qed.
End ring_buffer.
Arguments RingBuffer T : clear implicits.
