(* ===== verification/LinkedList.v ===== *)
(** * Doubly linked lists (internal/utils/linkedlist/linkedlist.go)

    A heap of elements with [next] and [prev] pointers.  A list is named by the
    address of its sentinel element [&l.root].  The refinement theorems relate
    the pointer operations to operations on a sequence of addresses; users of the
    lists are modelled on these sequences. *)

From stdpp Require Import functions.
From S2P Require Import Prelude.

(** Addresses; a pointer is [nil] or an address. *)
Abbreviation loc := nat.

Section linked_list.
Context {A : Type}.
Implicit Types (l e p q x : loc) (a b xs : list loc) (v : A).

Record Element := mkElement {
  next : option loc;
  prev : option loc;
  list_ : option loc;
  Value : option A;   (* None is the zero value *)
}.

(** The elements, and the [len] field of every list. *)
Record heap := mkHeap {
  elems : gmap loc Element;
  lens : gmap loc Z;
}.
Implicit Types (h : heap).

(** ** Field accesses, which panic on a nil pointer *)
Definition load h (p : option loc) : res Element :=
  match p with
  | Some p => match elems h !! p with Some e => Ok e | None => Panic end
  | None => Panic
  end.

Definition store h (p : option loc) (f : Element → Element) : res heap :=
  match p with
  | Some q => el ← load h p; Ok (mkHeap (<[q := f el]> (elems h)) (lens h))
  | None => Panic
  end.

Definition set_next h (p : option loc) (n : option loc) : res heap :=
  store h p (λ el, mkElement n (prev el) (list_ el) (Value el)).
Definition set_prev h (p : option loc) (n : option loc) : res heap :=
  store h p (λ el, mkElement (next el) n (list_ el) (Value el)).
Definition set_list h (p : option loc) (l : option loc) : res heap :=
  store h p (λ el, mkElement (next el) (prev el) l (Value el)).
Definition set_Value h (p : option loc) (v : option A) : res heap :=
  store h p (λ el, mkElement (next el) (prev el) (list_ el) v).

Definition Len h l : res Z :=
  match lens h !! l with Some n => Ok n | None => Panic end.
Definition set_len h l (n : Z) : heap := mkHeap (elems h) (<[l := n]> (lens h)).

(** ** The operations *)
Definition Next h (e : option loc) : res (option loc) :=
  el ← load h e;
  if bool_decide (list_ el ≠ None) && bool_decide (next el ≠ list_ el) then Ok (next el)
  else Ok None.

Definition Prev h (e : option loc) : res (option loc) :=
  el ← load h e;
  if bool_decide (list_ el ≠ None) && bool_decide (prev el ≠ list_ el) then Ok (prev el)
  else Ok None.

Definition Init h l : res heap :=
  h ← set_next h (Some l) (Some l);
  h ← set_prev h (Some l) (Some l);
  Ok (set_len h l 0).

(** [new(List[T]).Init()] at the fresh address [l]. *)
Definition New h l : res heap :=
  Init (mkHeap (<[l := mkElement None None None None]> (elems h)) (<[l := 0]> (lens h))) l.

Definition Front h l : res (option loc) :=
  n ← Len h l;
  if n =? 0 then Ok None else root ← load h (Some l); Ok (next root).

Definition Back h l : res (option loc) :=
  n ← Len h l;
  if n =? 0 then Ok None else root ← load h (Some l); Ok (prev root).

Definition lazyInit h l : res heap :=
  root ← load h (Some l);
  if bool_decide (next root = None) then Init h l else Ok h.

Definition insert_ h l (e at_ : option loc) : res heap :=
  h ← set_prev h e at_;
  el ← load h at_; h ← set_next h e (next el);
  el ← load h e; h ← set_next h (prev el) e;
  el ← load h e; h ← set_prev h (next el) e;
  h ← set_list h e (Some l);
  n ← Len h l; Ok (set_len h l (n + 1)).

(** [e] is the element that the allocator or the pool provides: a new address
    or an element that was removed from its list. *)
Definition insertValue h l v e (at_ : option loc) : res heap :=
  let h := match elems h !! e with
           | Some _ => h
           | None => mkHeap (<[e := mkElement None None None None]> (elems h)) (lens h)
           end in
  h ← set_Value h (Some e) (Some v);
  insert_ h l (Some e) at_.

Definition remove_ h l (e : option loc) : res heap :=
  el ← load h e; h ← set_next h (prev el) (next el);
  el ← load h e; h ← set_prev h (next el) (prev el);
  h ← set_next h e None;
  h ← set_prev h e None;
  h ← set_list h e None;
  n ← Len h l; Ok (set_len h l (n - 1)).

Definition move h (e at_ : option loc) : res heap :=
  if bool_decide (e = at_) then Ok h else
  el ← load h e; h ← set_next h (prev el) (next el);
  el ← load h e; h ← set_prev h (next el) (prev el);
  h ← set_prev h e at_;
  el ← load h at_; h ← set_next h e (next el);
  el ← load h e; h ← set_next h (prev el) e;
  el ← load h e; set_prev h (next el) e.

Definition Remove h l (e : option loc) : res (option A * heap) :=
  el ← load h e;
  if bool_decide (list_ el = Some l) then h ← remove_ h l e; Ok (Value el, h)
  else Ok (Value el, h).

Definition PushFront h l v e : res heap :=
  h ← lazyInit h l;
  insertValue h l v e (Some l).

Definition PushBack h l v e : res heap :=
  h ← lazyInit h l;
  root ← load h (Some l);
  insertValue h l v e (prev root).

Definition InsertBefore h l v e (mark : option loc) : res heap :=
  m ← load h mark;
  if bool_decide (list_ m = Some l) then insertValue h l v e (prev m) else Ok h.

Definition InsertAfter h l v e (mark : option loc) : res heap :=
  m ← load h mark;
  if bool_decide (list_ m = Some l) then insertValue h l v e mark else Ok h.

Definition MoveToFront h l (e : option loc) : res heap :=
  el ← load h e; root ← load h (Some l);
  if bool_decide (list_ el ≠ Some l) || bool_decide (next root = e) then Ok h
  else move h e (Some l).

Definition MoveToBack h l (e : option loc) : res heap :=
  el ← load h e; root ← load h (Some l);
  if bool_decide (list_ el ≠ Some l) || bool_decide (prev root = e) then Ok h
  else move h e (prev root).

Definition MoveBefore h l (e mark : option loc) : res heap :=
  el ← load h e;
  if bool_decide (list_ el ≠ Some l) || bool_decide (e = mark) then Ok h else
  m ← load h mark;
  if bool_decide (list_ m ≠ Some l) then Ok h else move h e (prev m).

Definition MoveAfter h l (e mark : option loc) : res heap :=
  el ← load h e;
  if bool_decide (list_ el ≠ Some l) || bool_decide (e = mark) then Ok h else
  m ← load h mark;
  if bool_decide (list_ m ≠ Some l) then Ok h else move h e mark.

(** ** Views of the heap *)
Definition nx h p : option loc := el ← elems h !! p; next el.
Definition pv h p : option loc := el ← elems h !! p; prev el.
Definition ow h p : option loc := el ← elems h !! p; list_ el.
Definition vl h p : option A := el ← elems h !! p; Value el.
Definition alloc h p : Prop := is_Some (elems h !! p).

(** The elements [xs] are linked between [x] and [y], in both directions. *)
Fixpoint chain (n p : loc → option loc) x xs y : Prop :=
  match xs with
  | [] => n x = Some y ∧ p y = Some x
  | z :: xs => (n x = Some z ∧ p z = Some x) ∧ chain n p z xs y
  end.

Record is_list h l xs : Prop := {
  list_nodup : NoDup (l :: xs);
  list_chain : chain (nx h) (pv h) l xs l;
  list_owner : ∀ x, x ∈ xs → ow h x = Some l;
  list_root : ow h l = None;
  list_len : lens h !! l = Some (len xs);
}.

(** ** Effects of the field accesses *)

(** [h'] has the given fields and otherwise agrees with [h]. *)
Record effect h h' (n p o : loc → option loc) (v : loc → option A) : Prop := {
  eff_nx : ∀ x, nx h' x = n x;
  eff_pv : ∀ x, pv h' x = p x;
  eff_ow : ∀ x, ow h' x = o x;
  eff_vl : ∀ x, vl h' x = v x;
  eff_alloc : ∀ x, alloc h' x ↔ alloc h x;
  eff_lens : lens h' = lens h;
}.

Lemma load_ok h p :
  alloc h p → ∃ el, load h (Some p) = Ok el ∧
    next el = nx h p ∧ prev el = pv h p ∧ list_ el = ow h p ∧ Value el = vl h p.
Proof.
  intros [el Hel]. exists el. unfold load, nx, pv, ow, vl. by rewrite Hel.
Qed.

Lemma store_ok h p f :
  alloc h p → ∃ h', store h (Some p) f = Ok h' ∧ lens h' = lens h ∧
    ∃ el, elems h !! p = Some el ∧ elems h' = <[p := f el]> (elems h).
Proof. intros [el Hel]. unfold store, load. rewrite Hel. cbn. eauto 10. Qed.

Lemma view_insert {B} (g : Element → option B) (m : gmap loc Element) p el x :
  (el ← <[p := el]> m !! x; g el) = (<[p := g el]> (λ x, el ← m !! x; g el)) x.
Proof.
  destruct (decide (p = x)) as [->|Hne].
  - by rewrite lookup_insert_eq, fn_lookup_insert.
  - by rewrite lookup_insert_ne, fn_lookup_insert_ne.
Qed.

Lemma fn_insert_id {B} (f : loc → B) p x : (<[p := f p]> f) x = f x.
Proof.
  destruct (decide (p = x)) as [->|]; [by rewrite fn_lookup_insert|by rewrite fn_lookup_insert_ne].
Qed.

Lemma alloc_insert h h' p el x :
  alloc h p → elems h' = <[p := el]> (elems h) → alloc h' x ↔ alloc h x.
Proof.
  unfold alloc. intros Hp ->. rewrite lookup_insert_is_Some'. naive_solver.
Qed.

Lemma effect_refl h : effect h h (nx h) (pv h) (ow h) (vl h).
Proof. by split. Qed.

Section effects.
Context {h0 h : heap} {n p o : loc → option loc} {v : loc → option A}.
Context (He : effect h0 h n p o v).

Lemma load_eff q :
  alloc h0 q → ∃ el, load h (Some q) = Ok el ∧
    next el = n q ∧ prev el = p q ∧ list_ el = o q ∧ Value el = v q.
Proof.
  destruct He as [Hn Hp Ho Hv Ha _]. rewrite <-Ha, <-Hn, <-Hp, <-Ho, <-Hv. apply load_ok.
Qed.

Lemma store_eff q f :
  alloc h0 q → ∃ h' el, store h (Some q) f = Ok h' ∧
    next el = n q ∧ prev el = p q ∧ list_ el = o q ∧ Value el = v q ∧
    effect h0 h' (<[q := next (f el)]> n) (<[q := prev (f el)]> p)
      (<[q := list_ (f el)]> o) (<[q := Value (f el)]> v).
Proof.
  intros Hq. destruct He as [Hn Hp Ho Hv Ha Hl]. pose proof (proj2 (Ha q) Hq) as Hq'.
  destruct (store_ok h q f Hq') as (h' & Hst & Hl' & el & Hel & Hh').
  exists h', el. split; [done|]. rewrite <-Hn, <-Hp, <-Ho, <-Hv.
  unfold nx, pv, ow, vl in *. rewrite Hel. split_and!; [done..|].
  assert (∀ B (g : Element → option B) (w : loc → option B) x, (∀ x, (el ← elems h !! x; g el) = w x) →
    (el ← elems h' !! x; g el) = (<[q := g (f el)]> w) x) as Hview.
  { intros B g w x Hw. rewrite Hh', view_insert.
    destruct (decide (q = x)) as [->|]; [by rewrite !fn_lookup_insert|].
    by rewrite !fn_lookup_insert_ne. }
  split; unfold nx, pv, ow, vl; intros; eauto.
  - rewrite <-Ha. by eapply alloc_insert.
  - congruence.
Qed.

Lemma effect_ext (n' p' o' : loc → option loc) (v' : loc → option A) :
  (∀ x, n' x = n x) → (∀ x, p' x = p x) → (∀ x, o' x = o x) → (∀ x, v' x = v x) →
  effect h0 h n' p' o' v'.
Proof. intros Hn Hp Ho Hv. destruct He. split; intros; rewrite ?Hn, ?Hp, ?Ho, ?Hv; auto. Qed.
End effects.

Ltac prove_set He Hq :=
  lazymatch goal with
  | |- ∃ _, ?m = _ ∧ _ =>
      let m' := eval unfold set_next, set_prev, set_list, set_Value in m in
      lazymatch m' with
      | store _ (Some ?q) ?f =>
          let E1 := fresh in let E2 := fresh in let E3 := fresh in let E4 := fresh in
          let Hst := fresh in let He' := fresh in
          destruct (store_eff He q f Hq) as (? & ? & Hst & E1 & E2 & E3 & E4 & He');
          eexists; split; [exact Hst|]; cbn in He'; rewrite ?E1, ?E2, ?E3, ?E4 in He';
          eapply effect_ext; [exact He'|..]; intros; by rewrite ?fn_insert_id
      end
  end.

Section set_effects.
Context {h0 h : heap} {n p o : loc → option loc} {v : loc → option A}.
Context (He : effect h0 h n p o v).

Lemma set_next_eff q m :
  alloc h0 q → ∃ h', set_next h (Some q) m = Ok h' ∧ effect h0 h' (<[q := m]> n) p o v.
Proof. intros Hq. prove_set He Hq. Qed.
Lemma set_prev_eff q m :
  alloc h0 q → ∃ h', set_prev h (Some q) m = Ok h' ∧ effect h0 h' n (<[q := m]> p) o v.
Proof. intros Hq. prove_set He Hq. Qed.
Lemma set_list_eff q m :
  alloc h0 q → ∃ h', set_list h (Some q) m = Ok h' ∧ effect h0 h' n p (<[q := m]> o) v.
Proof. intros Hq. prove_set He Hq. Qed.
Lemma set_Value_eff q m :
  alloc h0 q → ∃ h', set_Value h (Some q) m = Ok h' ∧ effect h0 h' n p o (<[q := m]> v).
Proof. intros Hq. prove_set He Hq. Qed.
End set_effects.

(** ** Rings *)
Lemma chain_ext (n p n' p' : loc → option loc) x xs y :
  (∀ z, z ∈ x :: xs → n' z = n z) → (∀ z, z ∈ xs ++ [y] → p' z = p z) →
  chain n p x xs y → chain n' p' x xs y.
Proof.
  revert x. induction xs as [|z xs IH]; intros x Hn Hp; cbn.
  - rewrite Hn, Hp by set_solver. done.
  - rewrite Hn, Hp by set_solver. intros [??]. split; [done|].
    apply IH; [set_solver..|done].
Qed.

Lemma chain_app (n p : loc → option loc) x a z b y :
  chain n p x (a ++ z :: b) y ↔ chain n p x a z ∧ chain n p z b y.
Proof.
  revert x. induction a as [|w a IH]; intros x; cbn; [tauto|]. rewrite IH. tauto.
Qed.

(** The neighbours of the position between [a] and [b]. *)
Abbreviation left_of x a := (default x (last a)).
Abbreviation right_of b y := (default y (head b)).

(** Reading a function after an update, where [set_solver] tells the arguments
    apart. *)
Ltac fn_simpl :=
  repeat first [rewrite fn_lookup_insert | rewrite fn_lookup_insert_ne by set_solver].

Lemma chain_link (n p : loc → option loc) x a b y e :
  chain n p x (a ++ b) y → NoDup (x :: a ++ b) → NoDup (a ++ b ++ [y]) →
  e ∉ x :: a ++ b ++ [y] →
  let l := left_of x a in let r := right_of b y in
  n l = Some r ∧
  chain (<[l := Some e]> (<[e := Some r]> n)) (<[r := Some e]> (<[e := Some l]> p))
    x (a ++ e :: b) y.
Proof.
  revert x. induction a as [|w a IH]; intros x; cbn [app chain].
  - intros Hc Hx Hy He. destruct b as [|z b]; cbn in *.
    + split; [tauto|]. fn_simpl. done.
    + split; [tauto|]. apply NoDup_cons in Hx as [Hx _], Hy as [Hy _].
      destruct Hc as [_ Hc]. fn_simpl. split_and!; [done..|].
      eapply chain_ext; [..|done]; intros; fn_simpl; done.
  - intros [[Hn Hp] Hc] Hx Hy He.
    apply NoDup_cons in Hx as [Hx Hx'], Hy as [Hy Hy'].
    destruct (IH w Hc Hx' Hy') as [Hl Hc']; [set_solver|].
    assert (default x (last (w :: a)) = default w (last a)) as Hlast.
    { rewrite last_cons. by destruct (last a). }
    rewrite Hlast. split; [done|]. split; [|done].
    assert (default w (last a) ∈ w :: a) as Hin1.
    { destruct (last a) eqn:E; [right; by apply last_Some_elem_of|left]. }
    assert (default y (head b) ∈ b ++ [y]) as Hin2 by (destruct b; set_solver).
    fn_simpl. done.
Qed.

Lemma chain_unlink (n p : loc → option loc) x a e b y :
  chain n p x (a ++ e :: b) y → NoDup (x :: a ++ e :: b) → NoDup (a ++ e :: b ++ [y]) →
  let l := left_of x a in let r := right_of b y in
  n e = Some r ∧ p e = Some l ∧ chain (<[l := Some r]> n) (<[r := Some l]> p) x (a ++ b) y.
Proof.
  revert x. induction a as [|w a IH]; intros x; cbn [app chain].
  - intros Hc Hx Hy. destruct b as [|z b]; cbn in *; apply NoDup_cons in Hx as [Hx _].
    + split_and!; try tauto; by fn_simpl.
    + apply NoDup_cons in Hy as [Hy [Hy' _]%NoDup_cons].
      split_and!; try tauto; [by fn_simpl..|].
      destruct Hc as [_ [_ Hc]]. eapply chain_ext; [..|done]; intros; fn_simpl; done.
  - intros [[Hn Hp] Hc] Hx Hy.
    apply NoDup_cons in Hx as [Hx Hx'], Hy as [Hy Hy'].
    destruct (IH w Hc Hx' Hy') as (Hne & Hpe & Hc').
    assert (default x (last (w :: a)) = default w (last a)) as Hlast.
    { rewrite last_cons. by destruct (last a). }
    assert (default w (last a) ∈ w :: a) as Hin1.
    { destruct (last a) eqn:E; [right; by apply last_Some_elem_of|left]. }
    assert (default y (head b) ∈ b ++ [y]) as Hin2 by (destruct b; set_solver).
    rewrite Hlast. split_and!; try done; by fn_simpl.
Qed.

(** ** The pointer operations compute the rings *)

(** Run a load of the element [q] in a heap with the effect [E]. *)
Ltac run_load E q H :=
  let Hl := fresh in let H1 := fresh in let H2 := fresh in let H3 := fresh in let H4 := fresh in
  destruct (load_eff E q H) as (? & Hl & H1 & H2 & H3 & H4);
  rewrite Hl; cbn [mbind result_bind]; rewrite ?H1, ?H2, ?H3, ?H4; clear Hl H1 H2 H3 H4.

Lemma insert_eff h l e at_ q n :
  alloc h e → alloc h at_ → alloc h q → e ≠ at_ → nx h at_ = Some q → lens h !! l = Some n →
  ∃ h', insert_ h l (Some e) (Some at_) = Ok h' ∧
    (∀ x, nx h' x = (<[at_ := Some e]> (<[e := Some q]> (nx h))) x) ∧
    (∀ x, pv h' x = (<[q := Some e]> (<[e := Some at_]> (pv h))) x) ∧
    (∀ x, ow h' x = (<[e := Some l]> (ow h)) x) ∧ (∀ x, vl h' x = vl h x) ∧
    (∀ x, alloc h' x ↔ alloc h x) ∧ lens h' = <[l := n + 1]> (lens h).
Proof.
  intros He Ha Hq Hne Hnx Hlen. unfold insert_.
  destruct (set_prev_eff (effect_refl h) e (Some at_) He) as (h1&->&E1). cbn [mbind result_bind].
  run_load E1 at_ Ha.
  destruct (set_next_eff E1 e (nx h at_) He) as (h2&->&E2). cbn [mbind result_bind].
  run_load E2 e He.
  rewrite fn_lookup_insert.
  destruct (set_next_eff E2 at_ (Some e) Ha) as (h3&->&E3). cbn [mbind result_bind].
  run_load E3 e He.
  rewrite fn_lookup_insert_ne, fn_lookup_insert, Hnx by done.
  destruct (set_prev_eff E3 q (Some e) Hq) as (h4&->&E4). cbn [mbind result_bind].
  destruct (set_list_eff E4 e (Some l) He) as (h5&->&[]). cbn [mbind result_bind].
  unfold Len. rewrite eff_lens0, Hlen. cbn [mbind result_bind].
  eexists. split; [done|]. unfold set_len. cbn. rewrite eff_lens0, <-Hnx. auto 10.
Qed.

Lemma remove_eff h l e p q n :
  alloc h e → alloc h p → alloc h q → e ≠ p → nx h e = Some q → pv h e = Some p →
  lens h !! l = Some n →
  ∃ h', remove_ h l (Some e) = Ok h' ∧
    (∀ x, nx h' x = (<[e := None]> (<[p := Some q]> (nx h))) x) ∧
    (∀ x, pv h' x = (<[e := None]> (<[q := Some p]> (pv h))) x) ∧
    (∀ x, ow h' x = (<[e := None]> (ow h)) x) ∧ (∀ x, vl h' x = vl h x) ∧
    (∀ x, alloc h' x ↔ alloc h x) ∧ lens h' = <[l := n - 1]> (lens h).
Proof.
  intros He Hp Hq Hne Hnx Hpv Hlen. unfold remove_.
  run_load (effect_refl h) e He. rewrite Hnx, Hpv.
  destruct (set_next_eff (effect_refl h) p (Some q) Hp) as (h1&->&E1). cbn [mbind result_bind].
  run_load E1 e He. rewrite fn_lookup_insert_ne, Hnx, Hpv by done.
  destruct (set_prev_eff E1 q (Some p) Hq) as (h2&->&E2). cbn [mbind result_bind].
  destruct (set_next_eff E2 e None He) as (h3&->&E3). cbn [mbind result_bind].
  destruct (set_prev_eff E3 e None He) as (h4&->&E4). cbn [mbind result_bind].
  destruct (set_list_eff E4 e None He) as (h5&->&[]). cbn [mbind result_bind].
  unfold Len. rewrite eff_lens0, Hlen. cbn [mbind result_bind].
  eexists. split; [done|]. unfold set_len. cbn. rewrite eff_lens0. auto 10.
Qed.

(** [move] unlinks [e] from between [p] and [q] and links it after [at_], whose
    next element is then [r]. *)
Lemma move_eff h e at_ p q r :
  alloc h e → alloc h at_ → alloc h p → alloc h q → alloc h r → e ≠ p → e ≠ at_ → e ≠ q →
  nx h e = Some q → pv h e = Some p → (<[p := Some q]> (nx h)) at_ = Some r →
  ∃ h', move h (Some e) (Some at_) = Ok h' ∧
    (∀ x, nx h' x = (<[at_ := Some e]> (<[e := Some r]> (<[p := Some q]> (nx h)))) x) ∧
    (∀ x, pv h' x = (<[r := Some e]> (<[e := Some at_]> (<[q := Some p]> (pv h)))) x) ∧
    (∀ x, ow h' x = ow h x) ∧ (∀ x, vl h' x = vl h x) ∧
    (∀ x, alloc h' x ↔ alloc h x) ∧ lens h' = lens h.
Proof.
  intros He Ha Hp Hq Hr Hne Hne' Hne2 Hnx Hpv Hat. unfold move.
  rewrite bool_decide_false by congruence.
  run_load (effect_refl h) e He. rewrite Hnx, Hpv.
  destruct (set_next_eff (effect_refl h) p (Some q) Hp) as (h1&->&E1). cbn [mbind result_bind].
  run_load E1 e He. rewrite fn_lookup_insert_ne, Hnx, Hpv by done.
  destruct (set_prev_eff E1 q (Some p) Hq) as (h2&->&E2). cbn [mbind result_bind].
  destruct (set_prev_eff E2 e (Some at_) He) as (h3&->&E3). cbn [mbind result_bind].
  run_load E3 at_ Ha. rewrite Hat.
  destruct (set_next_eff E3 e (Some r) He) as (h4&->&E4). cbn [mbind result_bind].
  run_load E4 e He. rewrite fn_lookup_insert.
  destruct (set_next_eff E4 at_ (Some e) Ha) as (h5&->&E5). cbn [mbind result_bind].
  run_load E5 e He. rewrite fn_lookup_insert_ne, fn_lookup_insert by done.
  destruct (set_prev_eff E5 r (Some e) Hr) as (h6&->&[]). eauto 10.
Qed.

(** ** Lists *)
Lemma chain_alloc h x xs y z :
  chain (nx h) (pv h) x xs y → z ∈ x :: xs → alloc h z.
Proof.
  assert (∀ x y, nx h x = Some y → alloc h x) as Hnx.
  { unfold nx, alloc. intros x' y'. destruct (elems h !! x'); [eauto|done]. }
  revert x. induction xs as [|w xs IH]; intros x; cbn.
  - intros [? _] ->%list_elem_of_singleton. eauto.
  - intros [[? _] ?] [->|?]%elem_of_cons; eauto.
Qed.

Lemma list_alloc h l xs x : is_list h l xs → x ∈ l :: xs → alloc h x.
Proof. intros [_ ? _ _ _]. by eapply chain_alloc. Qed.

Lemma left_of_elem l a b : left_of l a ∈ l :: a ++ b.
Proof. destruct (last a) as [y|] eqn:E; [|left]. apply last_Some_elem_of in E. set_solver. Qed.

Lemma right_of_elem l a b : right_of b l ∈ l :: a ++ b.
Proof. destruct b; cbn; set_solver. Qed.

Lemma nodup_rotate l xs : NoDup (l :: xs) ↔ NoDup (xs ++ [l]).
Proof. by rewrite (Permutation_app_comm xs [l]). Qed.

(** [h'] agrees with [h] outside of the list [l] and the element [e]: the other
    lists are unchanged. *)
Definition others h h' l e : Prop :=
  ∀ l' ys, l' ≠ l → e ∉ l' :: ys → is_list h l' ys → is_list h' l' ys.

Lemma lists_disjoint h l xs l' ys x :
  is_list h l xs → is_list h l' ys → l ≠ l' → x ∈ l :: xs → x ∈ l' :: ys → False.
Proof.
  intros [_ _ Ho Hr _] [_ _ Ho' Hr' _] Hne [->|Hx]%elem_of_cons [->|Hx']%elem_of_cons; try done;
    repeat match goal with H : _ ∈ xs |- _ => apply Ho in H | H : _ ∈ ys |- _ => apply Ho' in H end;
    congruence.
Qed.

Lemma others_intro h h' l xs e :
  is_list h l xs →
  (∀ x, x ∉ e :: l :: xs → nx h' x = nx h x ∧ pv h' x = pv h x ∧ ow h' x = ow h x) →
  (∀ l', l' ≠ l → lens h' !! l' = lens h !! l') → others h h' l e.
Proof.
  intros Hl Hsame Hlens l' ys Hne He Hl'.
  assert (∀ x, x ∈ l' :: ys → nx h' x = nx h x ∧ pv h' x = pv h x ∧ ow h' x = ow h x) as Hys.
  { intros x Hx. apply Hsame. rewrite elem_of_cons. intros [->|Hx']; [done|].
    by eapply (lists_disjoint h l xs l' ys x). }
  destruct Hl' as [Hnd Hc Ho Hr Hlen]. split; [done|..].
  - eapply chain_ext; [..|done]; intros; apply Hys; [done|set_solver].
  - intros x Hx. rewrite <-(Ho x Hx). apply Hys. by right.
  - rewrite <-Hr. apply Hys. left.
  - by rewrite Hlens.
Qed.

Lemma insert_list h l a b e :
  is_list h l (a ++ b) → alloc h e → e ∉ l :: a ++ b →
  ∃ h', insert_ h l (Some e) (Some (left_of l a)) = Ok h' ∧ is_list h' l (a ++ e :: b) ∧
    (∀ x, vl h' x = vl h x) ∧ (∀ x, alloc h' x ↔ alloc h x) ∧ others h h' l e.
Proof.
  intros Hl Ha He. pose proof Hl as [Hnd Hc Ho Hr Hlen].
  pose proof Hnd as Hnd'%nodup_rotate. rewrite <-app_assoc in Hnd'.
  destruct (chain_link _ _ _ _ _ _ e Hc Hnd Hnd') as [Hnx Hc']; [set_solver|].
  pose proof (left_of_elem l a b) as Hleft. pose proof (right_of_elem l a b) as Hright.
  destruct (insert_eff h l e (left_of l a) (right_of b l) (len (a ++ b))) as
    (h'&Hins&En&Ep&Eo&Ev&Eal&El); try done; try (by eapply list_alloc).
  { intros ->. by apply He. }
  exists h'. split_and!; [done| |done..|].
  - split.
    + rewrite <-Permutation_middle. apply NoDup_cons in Hnd as [??].
      apply NoDup_cons. split; [set_solver|]. apply NoDup_cons. set_solver.
    + eapply chain_ext; [intros; apply En|intros; apply Ep|done].
    + intros x. rewrite Eo. destruct (decide (e = x)) as [->|Hne]; [by rewrite fn_lookup_insert|].
      rewrite fn_lookup_insert_ne by done. intros Hx. apply Ho. set_solver.
    + rewrite Eo, fn_lookup_insert_ne; [done|set_solver].
    + rewrite El, lookup_insert_eq. f_equal. rewrite !len_app, len_cons. lia.
  - eapply others_intro; [done|..].
    + intros x Hx. rewrite En, Ep, Eo.
      assert (x ≠ e ∧ x ≠ left_of l a ∧ x ≠ right_of b l) as (?&?&?) by (split_and!; intros ->; set_solver).
      by rewrite !fn_lookup_insert_ne.
    + intros l' Hne. rewrite El. by rewrite lookup_insert_ne.
Qed.

(** Taking [e] out of a ring. *)
Lemma ring_without l a e b :
  NoDup (l :: a ++ e :: b) → (e ∉ l :: a ++ b) ∧ NoDup (l :: a ++ b).
Proof. rewrite <-Permutation_middle, !NoDup_cons. set_solver. Qed.

Lemma ring_with l a e b :
  NoDup (l :: a ++ b) → e ∉ l :: a ++ b → NoDup (l :: a ++ e :: b).
Proof. rewrite <-Permutation_middle, !NoDup_cons. set_solver. Qed.

Lemma ring_sub l a e b x : x ∈ l :: a ++ b → x ∈ l :: a ++ e :: b.
Proof. set_solver. Qed.

Lemma ring_sup l a e b x : x ∈ a ++ e :: b → x ≠ e → x ∈ a ++ b.
Proof. set_solver. Qed.

Lemma remove_list h l a e b :
  is_list h l (a ++ e :: b) →
  ∃ h', remove_ h l (Some e) = Ok h' ∧ is_list h' l (a ++ b) ∧
    (∀ x, vl h' x = vl h x) ∧ ow h' e = None ∧ others h h' l e.
Proof.
  intros Hl. pose proof Hl as [Hnd Hc Ho Hr Hlen].
  pose proof Hnd as Hnd'%nodup_rotate. rewrite <-app_assoc in Hnd'.
  destruct (chain_unlink _ _ _ _ _ _ _ Hc Hnd Hnd') as (Hnx&Hpv&Hc').
  pose proof (left_of_elem l a b) as H1. pose proof (right_of_elem l a b) as H2.
  apply ring_without in Hnd as [Hne Hnd]. clear Hnd'.
  assert (∀ x, x ∈ l :: a ++ b → e ≠ x) as Hne' by (by intros x Hx ->).
  assert (∀ x, x ∈ l :: a ++ b → alloc h x) as Hal
    by (intros x Hx; eapply list_alloc, ring_sub; done).
  assert (alloc h e) by (eapply list_alloc; [done|]; clear; set_solver).
  destruct (remove_eff h l e (left_of l a) (right_of b l) (len (a ++ e :: b))) as
    (h'&Hrm&En&Ep&Eo&Ev&Eal&El); auto.
  exists h'. split_and!; [done| |done| |].
  - split; [done|..].
    + eapply chain_ext; [| |exact Hc']; intros x Hx; rewrite ?En, ?Ep;
        rewrite fn_lookup_insert_ne; try done; apply Hne'; clear -Hx; set_solver.
    + intros x Hx. rewrite Eo, fn_lookup_insert_ne by (apply Hne'; by right).
      apply Ho. clear -Hx; set_solver.
    + rewrite Eo, fn_lookup_insert_ne; [done|apply Hne'; left].
    + rewrite El, lookup_insert_eq. f_equal. rewrite !len_app, len_cons. lia.
  - by rewrite Eo, fn_lookup_insert.
  - eapply others_intro; [done|..].
    + intros x Hx. rewrite En, Ep, Eo.
      assert (∀ y, y ∈ l :: a ++ b → y ≠ x) as Hy.
      { intros y Hy ->. apply Hx. right. by apply ring_sub. }
      assert (e ≠ x) by (intros ->; apply Hx; left).
      rewrite !fn_lookup_insert_ne; auto.
    + intros l' Hne2. rewrite El. by rewrite lookup_insert_ne.
Qed.

(** [move] takes [e] out of the list and puts it between [c] and [d]. *)
Lemma move_list h l a e b c d :
  is_list h l (a ++ e :: b) → a ++ b = c ++ d →
  ∃ h', move h (Some e) (Some (left_of l c)) = Ok h' ∧ is_list h' l (c ++ e :: d) ∧
    (∀ x, vl h' x = vl h x) ∧ others h h' l e.
Proof.
  intros Hl Hab. pose proof Hl as [Hnd Hc Ho Hr Hlen].
  pose proof Hnd as Hnd'%nodup_rotate. rewrite <-app_assoc in Hnd'.
  destruct (chain_unlink _ _ _ _ _ _ _ Hc Hnd Hnd') as (Hnx&Hpv&Hc').
  pose proof (left_of_elem l a b) as H1. pose proof (right_of_elem l a b) as H2.
  pose proof (left_of_elem l c d) as H3. pose proof (right_of_elem l c d) as H4.
  apply ring_without in Hnd as [Hne Hnd]. clear Hnd'.
  assert (∀ x, x ∈ l :: a ++ b → alloc h x ∧ e ≠ x) as Hal.
  { intros x Hx. split; [eapply list_alloc, ring_sub; done|by intros ->]. }
  assert (alloc h e) by (eapply list_alloc; [done|]; clear; set_solver).
  assert (∀ x, x ∈ a ++ e :: b ↔ x ∈ c ++ e :: d) as Hin.
  { intros x. assert (x ∈ a ++ b ↔ x ∈ c ++ d) by (by rewrite Hab). clear -H0. set_solver. }
  rewrite Hab in *.
  pose proof Hnd as Hnd3%nodup_rotate. rewrite <-app_assoc in Hnd3.
  destruct (chain_link _ _ _ _ _ _ e Hc' Hnd Hnd3) as [Hat Hc'']; [clear -Hne; set_solver|].
  destruct (move_eff h e (left_of l c) (left_of l a) (right_of b l) (right_of d l)) as
    (h'&Hmv&En&Ep&Eo&Ev&Eal&El); try done; try (by apply Hal).
  exists h'. split_and!; [done| |done|].
  - split.
    + by apply ring_with.
    + eapply chain_ext; [intros; apply En|intros; apply Ep|done].
    + intros x Hx. rewrite Eo. by apply Ho, Hin.
    + by rewrite Eo.
    + rewrite El, Hlen, !len_app, !len_cons.
      apply (f_equal len) in Hab. rewrite !len_app in Hab. f_equal. lia.
  - eapply others_intro; [done|..].
    + intros x Hx. rewrite En, Ep, Eo.
      assert (∀ y, y ∈ l :: c ++ d → y ≠ x) as Hy.
      { intros y Hy ->. apply Hx. right. rewrite <-Hab in Hy. by apply ring_sub. }
      assert (e ≠ x) by (intros ->; apply Hx; left).
      rewrite !fn_lookup_insert_ne; auto.
    + intros l' Hne2. by rewrite El.
Qed.

(** The element that the allocator or the pool provides. *)
Lemma alloc_element h e :
  let h1 := match elems h !! e with
            | Some _ => h
            | None => mkHeap (<[e := mkElement None None None None]> (elems h)) (lens h)
            end in
  alloc h1 e ∧ (∀ x, x ≠ e → vl h1 x = vl h x) ∧
  (∀ l xs, e ∉ l :: xs → is_list h l xs → is_list h1 l xs).
Proof.
  cbv zeta. destruct (elems h !! e) as [el|] eqn:E.
  { split_and!; [by exists el|done..]. }
  set (h1 := mkHeap _ _).
  assert (∀ x, x ≠ e → elems h1 !! x = elems h !! x) as Hx
    by (intros x Hx; unfold h1; cbn; by rewrite lookup_insert_ne).
  split_and!.
  - unfold alloc, h1. cbn. rewrite lookup_insert_eq. eauto.
  - intros x Hne. unfold vl. by rewrite Hx.
  - intros l xs He [Hnd Hc Ho Hr Hlen].
    assert (∀ x, x ∈ l :: xs → x ≠ e) as Hne by (intros x Hin ->; done).
    split; [done|..|done].
    + eapply chain_ext; [..|exact Hc]; intros x Hin; unfold nx, pv; rewrite Hx; try done;
        apply Hne; set_solver.
    + intros x Hin. unfold ow. rewrite Hx; [by apply Ho|apply Hne; set_solver].
    + unfold ow. rewrite Hx; [done|apply Hne; set_solver].
Qed.

Lemma effect_list h h' l xs (v : loc → option A) :
  effect h h' (nx h) (pv h) (ow h) v → is_list h l xs → is_list h' l xs.
Proof.
  intros [En Ep Eo _ _ El] [Hnd Hc Ho Hr Hlen]. split; [done|..].
  - eapply chain_ext; [..|exact Hc]; intros; auto.
  - intros x Hx. rewrite Eo. auto.
  - by rewrite Eo.
  - by rewrite El.
Qed.

Lemma insertValue_list h l a b v e :
  is_list h l (a ++ b) → e ∉ l :: a ++ b →
  ∃ h', insertValue h l v e (Some (left_of l a)) = Ok h' ∧ is_list h' l (a ++ e :: b) ∧
    vl h' e = Some v ∧ (∀ x, x ≠ e → vl h' x = vl h x) ∧ others h h' l e.
Proof.
  intros Hl He. unfold insertValue. pose proof (alloc_element h e) as Hae. cbv zeta in Hae.
  set (h1 := match elems h !! e with Some _ => h | None => _ end) in *.
  destruct Hae as (Ha & Hvl & Hlists).
  destruct (set_Value_eff (effect_refl h1) e (Some v) Ha) as (h2&->&E2). cbn [mbind result_bind].
  assert (is_list h2 l (a ++ b)) as Hl2 by (eapply effect_list; [done|by apply Hlists]).
  destruct (insert_list h2 l a b e Hl2) as (h'&->&Hl'&Hv&_&Hoth); [by apply E2|done|].
  exists h'. split_and!; [done..| | |].
  - by rewrite Hv, (eff_vl _ _ _ _ _ _ E2), fn_lookup_insert.
  - intros x Hx. rewrite Hv, (eff_vl _ _ _ _ _ _ E2), fn_lookup_insert_ne by done. by apply Hvl.
  - intros l' ys Hne Hin Hys. apply Hoth; [done..|]. eapply effect_list; [done|by apply Hlists].
Qed.

(** ** Lists as sequences of elements with their values *)
Implicit Types (ds : list (loc * A)).

(** The operations of the lists on a sequence of addresses and values. *)
Definition dl_front ds : option loc := fst <$> head ds.
Definition dl_back ds : option loc := fst <$> last ds.
Definition dl_len ds : Z := len ds.

Fixpoint dl_value ds x : option A :=
  match ds with
  | [] => None
  | (y, v) :: ds => if decide (y = x) then Some v else dl_value ds x
  end.

Fixpoint dl_next ds x : option loc :=
  match ds with
  | [] => None
  | (y, _) :: ds => if decide (y = x) then dl_front ds else dl_next ds x
  end.

(** [before] is the element in front of [ds]. *)
Fixpoint dl_prev_from (before : option loc) ds x : option loc :=
  match ds with
  | [] => None
  | (y, _) :: ds => if decide (y = x) then before else dl_prev_from (Some y) ds x
  end.
Definition dl_prev ds x : option loc := dl_prev_from None ds x.

Definition dl_set ds x v : list (loc * A) :=
  map (λ '(y, w), if decide (y = x) then (y, v) else (y, w)) ds.

Definition dl_remove ds x : list (loc * A) := filter (λ d, d.1 ≠ x) ds.

Fixpoint dl_insert_after ds x (d : loc * A) : list (loc * A) :=
  match ds with
  | [] => []
  | (y, w) :: ds => if decide (y = x) then (y, w) :: d :: ds
                    else (y, w) :: dl_insert_after ds x d
  end.

(** The list [l] in the heap has the elements and values [ds]. *)
Definition is_dlist h l ds : Prop :=
  is_list h l ds.*1 ∧ ∀ x v, (x, v) ∈ ds → vl h x = Some v.

(** ** The sequence operations at a known position *)
Section position.
Variables (a : list (loc * A)) (x : loc) (v : A) (b : list (loc * A)).
Hypothesis Hx : x ∉ a.*1.

Lemma dl_value_mid : dl_value (a ++ (x, v) :: b) x = Some v.
Proof.
  induction a as [|[y w] a' IH]; cbn; [by rewrite decide_True|].
  rewrite decide_False by set_solver. apply IH. set_solver.
Qed.

Lemma dl_next_mid : dl_next (a ++ (x, v) :: b) x = dl_front b.
Proof.
  induction a as [|[y w] a' IH]; cbn; [by rewrite decide_True|].
  rewrite decide_False by set_solver. apply IH. set_solver.
Qed.

Lemma dl_prev_mid : dl_prev (a ++ (x, v) :: b) x = dl_back a.
Proof.
  unfold dl_prev, dl_back.
  assert (∀ o, dl_prev_from o (a ++ (x, v) :: b) x =
    match last a with Some d => Some d.1 | None => o end) as ->; [|by destruct (last a)].
  induction a as [|[y w] a' IH]; intros o; cbn [app dl_prev_from]; [by rewrite decide_True|].
  rewrite decide_False by set_solver. rewrite IH by set_solver.
  rewrite last_cons. by destruct (last a').
Qed.

Lemma dl_insert_after_mid d : dl_insert_after (a ++ (x, v) :: b) x d = a ++ (x, v) :: d :: b.
Proof.
  induction a as [|[y w] a' IH]; cbn; [by rewrite decide_True|].
  rewrite decide_False by set_solver. f_equal. apply IH. set_solver.
Qed.

Hypothesis Hb : x ∉ b.*1.

Lemma dl_remove_notin ds : x ∉ ds.*1 → dl_remove ds x = ds.
Proof.
  induction ds as [|[y w] ds IH]; [done|]. unfold dl_remove in *. intros Hds.
  rewrite filter_cons_True by (cbn; set_solver). f_equal. apply IH. set_solver.
Qed.

Lemma dl_remove_mid : dl_remove (a ++ (x, v) :: b) x = a ++ b.
Proof.
  unfold dl_remove. rewrite filter_app, filter_cons_False by (cbn; tauto).
  change (dl_remove a x ++ dl_remove b x = a ++ b). by rewrite !dl_remove_notin.
Qed.

Lemma dl_set_notin ds w : x ∉ ds.*1 → dl_set ds x w = ds.
Proof.
  induction ds as [|[y w'] ds IH]; [done|]. cbn. intros Hds.
  rewrite decide_False by set_solver. f_equal. apply IH. set_solver.
Qed.

Lemma dl_set_mid w : dl_set (a ++ (x, v) :: b) x w = a ++ (x, w) :: b.
Proof.
  unfold dl_set. rewrite map_app. cbn. rewrite decide_True by done.
  f_equal; [|f_equal]; by apply dl_set_notin.
Qed.
End position.

Lemma dlist_split h l ds x v :
  is_dlist h l ds → (x, v) ∈ ds →
  ∃ ds1 ds2, ds = ds1 ++ (x, v) :: ds2 ∧ x ∉ ds1.*1 ∧ x ∉ ds2.*1 ∧
    is_list h l (ds1.*1 ++ x :: ds2.*1) ∧ ow h x = Some l ∧ vl h x = Some v ∧ alloc h x.
Proof.
  intros [Hl Hv] Hx. pose proof (Hv x v Hx) as Hvx.
  apply list_elem_of_split in Hx as (ds1 & ds2 & ->). rewrite fmap_app in Hl. cbn in Hl.
  exists ds1, ds2. pose proof (list_nodup _ _ _ Hl) as Hnd. apply ring_without in Hnd as [Hne _].
  split_and!; try done; [clear -Hne; set_solver..| |].
  - eapply list_owner; [done|clear; set_solver].
  - eapply list_alloc; [done|clear; set_solver].
Qed.

Lemma left_of_fst l ds : left_of l ds.*1 = default l (dl_back ds).
Proof. unfold dl_back. by rewrite fmap_last. Qed.

Lemma right_of_fst l ds : right_of ds.*1 l = default l (dl_front ds).
Proof. by destruct ds. Qed.

(** Links of an element and of the sentinel in terms of the sequence. *)
Lemma list_links h l xs ys x :
  is_list h l (xs ++ x :: ys) →
  nx h x = Some (right_of ys l) ∧ pv h x = Some (left_of l xs).
Proof.
  intros [Hnd Hc _ _ _]. pose proof Hnd as Hnd'%nodup_rotate. rewrite <-app_assoc in Hnd'.
  by destruct (chain_unlink _ _ _ _ _ _ _ Hc Hnd Hnd') as (?&?&_).
Qed.

Lemma root_links h l xs :
  is_list h l xs → nx h l = Some (right_of xs l) ∧ pv h l = Some (left_of l xs).
Proof.
  intros [Hnd Hc _ _ _]. split.
  - destruct xs as [|x xs]; [by destruct Hc|]. by destruct Hc as [[? _] _].
  - destruct (last xs) as [y|] eqn:E.
    + apply last_Some in E as [xs' ->]. apply chain_app in Hc as [_ [_ Hc]]. by rewrite Hc.
    + apply last_None in E as ->. by destruct Hc.
Qed.

(** The queries of a linked list. On a heap that represents the sequence
    [ds], the length, the first and last element, the value of every element
    and its neighbours are those of the sequence. *)
Theorem linked_list_queries h l ds x v :
  is_dlist h l ds → (x, v) ∈ ds →
  Len h l = Ok (dl_len ds) ∧ Front h l = Ok (dl_front ds) ∧ Back h l = Ok (dl_back ds) ∧
  Next h (Some x) = Ok (dl_next ds x) ∧ Prev h (Some x) = Ok (dl_prev ds x) ∧
  (∃ el, load h (Some x) = Ok el ∧ Value el = Some v) ∧ dl_value ds x = Some v.
Proof.
  intros Hd Hx. destruct (dlist_split h l ds x v Hd Hx) as (ds1&ds2&->&H1&H2&Hl&Ho&Hv&Ha).
  pose proof (list_links _ _ _ _ _ Hl) as [Hn Hp].
  destruct Hd as [Hl' _]. pose proof (root_links _ _ _ Hl') as [Hrn Hrp].
  pose proof (list_alloc h l _ l Hl' ltac:(left)) as Hal.
  assert (∀ y, y ∈ (ds1 ++ (x, v) :: ds2).*1 → y ≠ l) as Hnl.
  { intros y Hy ->. by apply list_nodup in Hl' as [? _]%NoDup_cons. }
  assert (Len h l = Ok (len (ds1 ++ (x, v) :: ds2))) as Hlen.
  { unfold Len. by rewrite (list_len _ _ _ Hl'), len_fmap. }
  assert (0 < len (ds1 ++ (x, v) :: ds2)) by (rewrite len_app, len_cons; len_lia).
  rewrite fmap_app in Hrn, Hrp. cbn in Hrn, Hrp. rewrite last_app, last_cons in Hrp.
  split; [done|]. split_and!.
  - unfold Front. rewrite Hlen. cbn [mbind result_bind]. rewrite (proj2 (Z.eqb_neq _ _)) by lia.
    run_load (effect_refl h) l Hal. rewrite Hrn. by destruct ds1 as [|[]].
  - unfold Back. rewrite Hlen. cbn [mbind result_bind]. rewrite (proj2 (Z.eqb_neq _ _)) by lia.
    run_load (effect_refl h) l Hal. rewrite Hrp. unfold dl_back.
    rewrite last_app, last_cons, fmap_last. by destruct (last ds2).
  - unfold Next. run_load (effect_refl h) x Ha. rewrite Ho, Hn, right_of_fst, dl_next_mid by done.
    rewrite bool_decide_true by done. destruct (dl_front ds2) as [y|] eqn:E; cbn [default].
    + rewrite bool_decide_true; [done|]. intros [= ->]. apply (Hnl l); [|done].
      destruct ds2 as [|[y w] ds2]; [done|]. injection E as ->.
      rewrite fmap_app. cbn. clear. set_solver.
    + by rewrite bool_decide_false by (intros Hf; by apply Hf).
  - unfold Prev. run_load (effect_refl h) x Ha. rewrite Ho, Hp, left_of_fst, dl_prev_mid by done.
    rewrite bool_decide_true by done. destruct (dl_back ds1) as [y|] eqn:E; cbn [default].
    + rewrite bool_decide_true; [done|]. intros [= ->]. apply (Hnl l); [|done].
      unfold dl_back in E. rewrite <-fmap_last in E. apply last_Some_elem_of in E.
      rewrite fmap_app. clear -E. set_solver.
    + by rewrite bool_decide_false by (intros Hf; by apply Hf).
  - destruct (load_ok h x Ha) as (el&?&_&_&_&?). exists el. split; [done|congruence].
  - by apply dl_value_mid.
Qed.

Lemma vl_others h h' e ds :
  (∀ x, x ≠ e → vl h' x = vl h x) → e ∉ ds.*1 →
  (∀ x v, (x, v) ∈ ds → vl h x = Some v) → ∀ x v, (x, v) ∈ ds → vl h' x = Some v.
Proof.
  intros Hvl He Hv x v Hx. rewrite Hvl; [by apply Hv|]. intros ->. apply He.
  apply list_elem_of_fmap. by exists (e, v).
Qed.

(** Inserting an element between two parts of a list. *)
Lemma insertValue_dlist h l ds1 ds2 v e at_ :
  is_dlist h l (ds1 ++ ds2) → e ∉ l :: (ds1 ++ ds2).*1 → at_ = Some (left_of l ds1.*1) →
  ∃ h', insertValue h l v e at_ = Ok h' ∧ is_dlist h' l (ds1 ++ (e, v) :: ds2) ∧ others h h' l e.
Proof.
  intros [Hl Hv] He ->. rewrite fmap_app in Hl, He.
  destruct (insertValue_list h l ds1.*1 ds2.*1 v e Hl He) as (h'&->&Hl'&Hve&Hvo&Hoth).
  exists h'. split_and!; [done|split|done].
  - by rewrite fmap_app.
  - intros x w. rewrite elem_of_app, elem_of_cons. intros Hx.
    destruct Hx as [Hx|[[= -> ->]|Hx]]; [|done|].
    all: eapply (vl_others h h' e (ds1 ++ ds2)); [done|..|]; rewrite ?fmap_app, ?elem_of_app; auto.
    all: clear -He; set_solver.
Qed.

Lemma lazyInit_list h l xs : is_list h l xs → lazyInit h l = Ok h.
Proof.
  intros Hl. unfold lazyInit. pose proof (root_links _ _ _ Hl) as [Hn _].
  pose proof (list_alloc h l _ l Hl ltac:(left)) as Ha.
  run_load (effect_refl h) l Ha. rewrite Hn. by rewrite bool_decide_false.
Qed.

(** A new list is empty, and the lists that do not contain its sentinel stay. *)
Lemma New_dlist h l :
  elems h !! l = None →
  ∃ h', New h l = Ok h' ∧ is_dlist h' l [] ∧ others h h' l l.
Proof.
  intros Hl. unfold New, Init.
  pose proof (alloc_element h l) as Hae. rewrite Hl in Hae. cbv zeta in Hae.
  set (h1 := mkHeap _ (<[l := 0]> (lens h))).
  assert (alloc h1 l) as Ha by apply Hae.
  destruct (set_next_eff (effect_refl h1) l (Some l) Ha) as (h2&->&E2). cbn [mbind result_bind].
  destruct (set_prev_eff E2 l (Some l) Ha) as (h3&->&[En Ep Eo Ev Eal El]).
  cbn [mbind result_bind]. eexists. split; [done|].
  assert (∀ x, x ≠ l → elems h1 !! x = elems h !! x) as Hx
    by (intros x Hne; unfold h1; cbn; by rewrite lookup_insert_ne).
  split.
  - split; [|by intros ?? ?%elem_of_nil]. split; cbn.
    + apply NoDup_singleton.
    + change (nx h3 l = Some l ∧ pv h3 l = Some l). by rewrite En, Ep, !fn_lookup_insert.
    + by intros ? ?%elem_of_nil.
    + change (ow h3 l = None). rewrite Eo. unfold ow, h1. cbn. by rewrite lookup_insert_eq.
    + by rewrite lookup_insert_eq.
  - intros l' ys Hne Hin [Hnd Hc Ho Hr Hlen].
    assert (∀ x, x ∈ l' :: ys → x ≠ l) as Hne' by (intros x ? ->; done).
    split; [done|..].
    + eapply (chain_ext (nx h) (pv h)); [..|exact Hc]; intros x Hx'.
      * change (nx h3 x = nx h x). assert (x ≠ l) by (apply Hne'; clear -Hx'; set_solver).
        rewrite En, fn_lookup_insert_ne by done. unfold nx. by rewrite Hx.
      * change (pv h3 x = pv h x). assert (x ≠ l) by (apply Hne'; clear -Hx'; set_solver).
        rewrite Ep, fn_lookup_insert_ne by done. unfold pv. by rewrite Hx.
    + intros x Hx'. change (ow h3 x = Some l'). rewrite Eo. unfold ow.
      rewrite Hx; [by apply Ho|apply Hne'; by right].
    + change (ow h3 l' = None). rewrite Eo. unfold ow. by rewrite Hx.
    + cbn. rewrite lookup_insert_ne, El by done. cbn. by rewrite lookup_insert_ne.
Qed.

(** Insertions into a linked list. With an element [e] that is not in the
    list, [PushFront], [PushBack], [InsertAfter] and [InsertBefore] do not panic,
    their heap represents the sequence with the new value at its place, and all
    other lists of the heap stay as they are. *)
Theorem linked_list_insertions h l ds v e :
  is_dlist h l ds → e ∉ l :: ds.*1 →
  let inserts m ds' := ∃ h', m = Ok h' ∧ is_dlist h' l ds' ∧ others h h' l e in
  inserts (PushFront h l v e) ((e, v) :: ds) ∧ inserts (PushBack h l v e) (ds ++ [(e, v)]) ∧
  ∀ ds1 x w ds2, ds = ds1 ++ (x, w) :: ds2 →
    inserts (InsertBefore h l v e (Some x)) (ds1 ++ (e, v) :: (x, w) :: ds2) ∧
    inserts (InsertAfter h l v e (Some x)) (dl_insert_after ds x (e, v)).
Proof.
  intros Hd He inserts. unfold inserts. pose proof (proj1 Hd) as Hl.
  pose proof (root_links _ _ _ Hl) as [_ Hrp].
  pose proof (list_alloc h l _ l Hl ltac:(left)) as Hal. split_and!.
  - unfold PushFront. rewrite (lazyInit_list h l _ Hl). cbn [mbind result_bind].
    by apply (insertValue_dlist h l [] ds).
  - unfold PushBack. rewrite (lazyInit_list h l _ Hl). cbn [mbind result_bind].
    run_load (effect_refl h) l Hal. rewrite Hrp. apply (insertValue_dlist h l ds []); [|..|done];
      by rewrite app_nil_r.
  - intros ds1 x w ds2 ->. destruct (dlist_split h l _ x w Hd) as (a&b&Heq&Ha&_&Hl'&Ho&_&Hx);
      [apply elem_of_app; right; left|].
    assert (x ∉ ds1.*1) as Hnot.
    { pose proof (list_nodup _ _ _ Hl) as [_ Hnd]%NoDup_cons. rewrite fmap_app in Hnd.
      apply NoDup_app in Hnd as (_&Hnd&_). intros Hin. apply (Hnd x Hin). left. }
    rewrite fmap_app in Hl. cbn in Hl. pose proof (list_links _ _ _ _ _ Hl) as [_ Hp]. split.
    + unfold InsertBefore. run_load (effect_refl h) x Hx. rewrite Ho, bool_decide_true, Hp by done.
      by apply insertValue_dlist.
    + unfold InsertAfter. run_load (effect_refl h) x Hx. rewrite Ho, bool_decide_true by done.
      rewrite dl_insert_after_mid, (cons_middle (x, w)), app_assoc by done.
      apply insertValue_dlist; rewrite <-?app_assoc; [done..|].
      rewrite fmap_app. cbn. by rewrite last_snoc.
Qed.

(** Removals from a linked list and moves inside it. [Remove] returns the
    value and leaves the sequence without the element, which belongs to no list
    afterwards; [MoveToFront] and [MoveToBack] keep all other elements in order;
    all other lists of the heap stay as they are. *)
Theorem linked_list_removals h l ds x v :
  is_dlist h l ds → (x, v) ∈ ds →
  (∃ h', Remove h l (Some x) = Ok (Some v, h') ∧ is_dlist h' l (dl_remove ds x) ∧
    ow h' x = None ∧ others h h' l x) ∧
  (∃ h', MoveToFront h l (Some x) = Ok h' ∧ is_dlist h' l ((x, v) :: dl_remove ds x) ∧
    others h h' l x) ∧
  (∃ h', MoveToBack h l (Some x) = Ok h' ∧ is_dlist h' l (dl_remove ds x ++ [(x, v)]) ∧
    others h h' l x).
Proof.
  intros Hd Hin. destruct (dlist_split h l ds x v Hd Hin) as (ds1&ds2&->&H1&H2&Hl&Ho&Hv&Hx).
  rewrite dl_remove_mid by done.
  pose proof (list_alloc h l _ l Hl ltac:(left)) as Hal.
  pose proof (root_links _ _ _ Hl) as [Hrn Hrp].
  assert (∀ h' ds, is_list h' l ds.*1 → (∀ x, vl h' x = vl h x) → ds ⊆ ds1 ++ (x, v) :: ds2 →
    is_dlist h' l ds) as Hdl.
  { intros h' ds Hl' Hvl Hsub. split; [done|]. intros y w Hy. rewrite Hvl. by apply Hd, Hsub. }
  split_and!.
  - unfold Remove. run_load (effect_refl h) x Hx. rewrite Ho, Hv, bool_decide_true by done.
    destruct (remove_list h l _ _ _ Hl) as (h'&->&Hl'&Hvl&Hox&Hoth). cbn [mbind result_bind].
    exists h'. split_and!; [done|apply Hdl; rewrite ?fmap_app; [done..|clear; set_solver]|done..].
  - unfold MoveToFront. run_load (effect_refl h) x Hx. run_load (effect_refl h) l Hal.
    rewrite Ho, Hrn, (bool_decide_false (Some l ≠ Some l)) by (intros Hf; by apply Hf).
    case_bool_decide as Heq; cbn [orb].
    + destruct ds1 as [|[y w] ds1]; [exists h; split_and!; [done..|by intros ???]|]. exfalso. injection Heq as ->.
      apply H1. left.
    + destruct (move_list h l _ _ _ [] (ds1.*1 ++ ds2.*1) Hl eq_refl) as (h'&Hm&Hl'&Hvl&Hoth).
      exists h'. split_and!; [done|apply Hdl; cbn; rewrite ?fmap_app; [done..|clear; set_solver]|done].
  - unfold MoveToBack. run_load (effect_refl h) x Hx. run_load (effect_refl h) l Hal.
    rewrite Ho, Hrp, (bool_decide_false (Some l ≠ Some l)) by (intros Hf; by apply Hf).
    assert (left_of l (ds1.*1 ++ x :: ds2.*1) =
      match last ds2.*1 with Some y => y | None => x end) as Hlast.
    { rewrite last_app, last_cons. by destruct (last ds2.*1). }
    rewrite Hlast. destruct (last ds2.*1) as [y|] eqn:E.
    + assert (y ≠ x) by (intros ->; by apply H2, last_Some_elem_of).
      rewrite bool_decide_false by congruence. cbn [orb].
      destruct (move_list h l _ _ _ (ds1.*1 ++ ds2.*1) [] Hl ltac:(by rewrite app_nil_r))
        as (h'&Hm&Hl'&Hvl&Hoth). rewrite last_app, E in Hm.
      exists h'. split_and!; [done|apply Hdl|done]; rewrite ?fmap_app; try done.
      clear. set_solver.
    + rewrite bool_decide_true by done. apply last_None in E. destruct ds2; [|done].
      exists h. split_and!; [done| |by intros ???]. cbn. by rewrite app_nil_r.
Qed.
End linked_list.

(** ** Witnesses *)

(** A list with the sentinel 0 and the elements 1 and 2. *)
Definition example_list : heap (A:=Z) :=
  mkHeap (<[0%nat := mkElement (Some 1%nat) (Some 2%nat) None None]>
         (<[1%nat := mkElement (Some 2%nat) (Some 0%nat) (Some 0%nat) (Some 10)]>
         (<[2%nat := mkElement (Some 0%nat) (Some 1%nat) (Some 0%nat) (Some 20)]> ∅)))
    {[0%nat := 2]}.

Lemma example_list_ok : is_dlist example_list 0 [(1%nat, 10); (2%nat, 20)].
Proof.
  split; [split|]; try done.
  - repeat constructor; set_solver.
  - intros x. cbn. rewrite !elem_of_cons, elem_of_nil. by intros [->|[->|[]]].
  - intros x v. rewrite !elem_of_cons, elem_of_nil. by intros [[= -> ->]|[[= -> ->]|[]]].
Qed.

Lemma linked_list_queries_witness :
  let ds := [(1%nat, 10); (2%nat, 20)] in
  Len example_list 0 = Ok (dl_len ds) ∧ Front example_list 0 = Ok (dl_front ds) ∧
  Back example_list 0 = Ok (dl_back ds) ∧
  Next example_list (Some 1%nat) = Ok (dl_next ds 1) ∧
  Prev example_list (Some 1%nat) = Ok (dl_prev ds 1) ∧
  (∃ el, load example_list (Some 1%nat) = Ok el ∧ Value el = Some 10) ∧ dl_value ds 1 = Some 10.
Proof.
  intros ds. apply (linked_list_queries example_list 0 ds 1 10); [apply example_list_ok|left].
Defined.

Lemma linked_list_insertions_witness :
  let ds := [(1%nat, 10); (2%nat, 20)] in
  let inserts m ds' := ∃ h', m = Ok h' ∧ is_dlist h' 0 ds' ∧ others example_list h' 0 3 in
  inserts (PushFront example_list 0 30 3) ((3%nat, 30) :: ds) ∧
  inserts (PushBack example_list 0 30 3) (ds ++ [(3%nat, 30)]) ∧
  ∀ ds1 x w ds2, ds = ds1 ++ (x, w) :: ds2 →
    inserts (InsertBefore example_list 0 30 3 (Some x)) (ds1 ++ (3%nat, 30) :: (x, w) :: ds2) ∧
    inserts (InsertAfter example_list 0 30 3 (Some x)) (dl_insert_after ds x (3%nat, 30)).
Proof.
  intros ds. apply (linked_list_insertions example_list 0 ds 30 3); [apply example_list_ok|].
  cbn. set_solver.
Defined.

Lemma linked_list_removals_witness :
  let ds := [(1%nat, 10); (2%nat, 20)] in
  (∃ h', Remove example_list 0 (Some 2%nat) = Ok (Some 20, h') ∧ is_dlist h' 0 (dl_remove ds 2) ∧
    ow h' 2 = None ∧ others example_list h' 0 2) ∧
  (∃ h', MoveToFront example_list 0 (Some 2%nat) = Ok h' ∧
    is_dlist h' 0 ((2%nat, 20) :: dl_remove ds 2) ∧ others example_list h' 0 2) ∧
  (∃ h', MoveToBack example_list 0 (Some 2%nat) = Ok h' ∧
    is_dlist h' 0 (dl_remove ds 2 ++ [(2%nat, 20)]) ∧ others example_list h' 0 2).
Proof.
  intros ds. apply (linked_list_removals example_list 0 ds 2 20); [apply example_list_ok|].
  right. left.
Defined.
