(* ===== verification/FrameSorter.v ===== *)
(** * Reassembly of stream data (frame_sorter.go)

    The frame sorter keeps the data that was received but not read yet in a map
    from offsets to chunks, and the gaps in a linked list.  The list is the
    sequence of its elements (LinkedList.v).  A [DoneCb] is a name for the
    callback, and every operation returns the callbacks that it invokes.  Offsets
    are below [2^62], so that only the end of a new frame can overflow. *)

From S2P Require Import Prelude Protocol LinkedList.

Definition MaxStreamFrameSorterGaps : Z := 1000.
Definition MinStreamFrameBufferSize : Z := 128.

Record byteInterval := mkByteInterval { Start : Z; End_ : Z }.

Record frameSorterEntry := mkEntry {
  Data : list byte;
  DoneCb : option Z;
}.

(** [fresh] is the address of the next list element. *)
Record frameSorter := mkFrameSorter {
  queue : gmap Z frameSorterEntry;
  readPos : Z;
  gaps : list (loc * byteInterval);
  fresh : loc;
}.

Definition newFrameSorter : frameSorter :=
  mkFrameSorter ∅ 0 [(0%nat, mkByteInterval 0 MaxByteCount)] 1.

(** [gap.Value] *)
Definition gap_value (gs : list (loc * byteInterval)) (gap : option loc) : res byteInterval :=
  match gap with
  | Some g => match dl_value gs g with Some v => Ok v | None => Panic end
  | None => Panic
  end.

(** [if cb != nil { cb() }] *)
Definition invoke (cb : option Z) : list Z := match cb with Some c => [c] | None => [] end.

(** [for gap := s.gaps.Front(); gap != nil; gap = gap.Next()] *)
Fixpoint findStartGap (gs : list (loc * byteInterval)) (offset : Z) : res (option loc * bool) :=
  match gs with
  | [] => Panic
  | (i, g) :: gs =>
      if (Start g <=? offset) && (offset <=? End_ g) then Ok (Some i, true) else
      if offset <? Start g then Ok (Some i, false) else findStartGap gs offset
  end.

(** [gs] are the elements from [startGap] on. *)
Fixpoint findEndGap_loop (all gs : list (loc * byteInterval)) (offset : Z)
  : res (option loc * bool) :=
  match gs with
  | [] => Panic
  | (i, g) :: gs =>
      if (Start g <=? offset) && (offset <? End_ g) then Ok (Some i, true) else
      if offset <? Start g then Ok (dl_prev all i, false) else findEndGap_loop all gs offset
  end.

Fixpoint elements_from (gs : list (loc * byteInterval)) (gap : option loc)
  : list (loc * byteInterval) :=
  match gs with
  | [] => []
  | (i, g) :: gs' => if decide (Some i = gap) then gs else elements_from gs' gap
  end.

Definition findEndGap (gs : list (loc * byteInterval)) (startGap : option loc) (offset : Z)
  : res (option loc * bool) :=
  findEndGap_loop gs (elements_from gs startGap) offset.

(** The loop deletes an entry per iteration, the size of the map is the fuel. *)
Fixpoint deleteConsecutive_loop (fuel : nat) (q : gmap Z frameSorterEntry) (pos : Z)
    (called : list Z) : res (gmap Z frameSorterEntry * list Z) :=
  match q !! pos with
  | None => Ok (q, called)
  | Some oldEntry =>
      match fuel with
      | O => Panic
      | S fuel =>
          deleteConsecutive_loop fuel (delete pos q) (pos + len (Data oldEntry))
            (called ++ invoke (DoneCb oldEntry))
      end
  end.
Definition deleteConsecutive (q : gmap Z frameSorterEntry) (pos : Z)
  : res (gmap Z frameSorterEntry * list Z) :=
  deleteConsecutive_loop (size q) q pos [].

(** How the loop of [push] over the entries from [start] on ends: a new frame
    that is contained in an entry is a duplicate, one that ends inside of an
    entry is cut at the start of the entry. *)
Inductive replace_outcome :=
| Duplicate
| Replaced (q : gmap Z frameSorterEntry) (hasReplacedAtLeastOne : bool) (called : list Z)
| CutAt (q : gmap Z frameSorterEntry) (pos : Z) (called : list Z).

Fixpoint replaceEntries (fuel : nat) (q : gmap Z frameSorterEntry) (pos end_ : Z)
    (hasReplacedAtLeastOne : bool) (called : list Z) : res replace_outcome :=
  match q !! pos with
  | None => Ok (Replaced q hasReplacedAtLeastOne called)
  | Some oldEntry =>
      let oldEntryLen := len (Data oldEntry) in
      if (oldEntryLen <? end_ - pos) || (hasReplacedAtLeastOne && (end_ - pos =? oldEntryLen)) then
        match fuel with
        | O => Panic
        | S fuel => replaceEntries fuel (delete pos q) (pos + oldEntryLen) end_ true
                      (called ++ invoke (DoneCb oldEntry))
        end
      else if negb hasReplacedAtLeastOne then Ok Duplicate else Ok (CutAt q pos called)
  end.

(** [for gap := startGapNext; gap.Value.End < endGapStart; gap = nextGap] *)
Fixpoint removeGaps (fuel : nat) (gs : list (loc * byteInterval)) (q : gmap Z frameSorterEntry)
    (gap : option loc) (endGapStart : Z) (called : list Z)
  : res (list (loc * byteInterval) * gmap Z frameSorterEntry * list Z) :=
  v ← gap_value gs gap;
  if End_ v <? endGapStart then
    match fuel, gap with
    | S fuel, Some g =>
        let nextGap := dl_next gs g in
        '(q, c) ← deleteConsecutive q (End_ v);
        removeGaps fuel (dl_remove gs g) q nextGap endGapStart (called ++ c)
    | _, _ => Panic
    end
  else Ok (gs, q, called).

(** The parts of [push] after the duplicate checks.  [startGap] and [endGap] are
    the elements [g] and [g'] with the values [sg] and [eg]. *)

(** Cut the frame, such that it starts at the start of the gap. *)
Definition cutStart (data : list byte) (start : Z) (sg : byteInterval)
    (startsInGap replaced wasCut : bool) : res (list byte * Z * bool) :=
  if negb startsInGap && negb replaced then
    data ← slice_from data (Start sg - start); Ok (data, Start sg, true)
  else Ok (data, start, wasCut).

(** The list and [adjustedStartGapEnd]. *)
Definition adjustStartGap (gs : list (loc * byteInterval)) (g : loc) (sg : byteInterval)
    (start end_ : Z) (replaced : bool) : list (loc * byteInterval) * bool :=
  if start <=? Start sg then
    if End_ sg <=? end_ then (dl_remove gs g, false)
    else (dl_set gs g (mkByteInterval end_ (End_ sg)), false)
  else if negb replaced then (dl_set gs g (mkByteInterval (Start sg) start), true)
  else (gs, false).

Definition deleteCovered (gs : list (loc * byteInterval)) (q : gmap Z frameSorterEntry)
    (startGapEqualsEndGap : bool) (startGapEnd : Z) (startGapNext : option loc) (endGapStart : Z)
    (called : list Z) : res (list (loc * byteInterval) * gmap Z frameSorterEntry * list Z) :=
  if negb startGapEqualsEndGap then
    '(q, c) ← deleteConsecutive q startGapEnd;
    removeGaps (length gs) gs q startGapNext endGapStart (called ++ c)
  else Ok (gs, q, called).

(** Cut the frame, such that it ends at the end of the gap. *)
Definition cutEnd (data : list byte) (start end_ endGapEnd : Z) (endsInGap wasCut : bool)
  : res (list byte * Z * bool) :=
  if negb endsInGap && negb (start =? endGapEnd) && (endGapEnd <? end_) then
    data ← slice_to data (endGapEnd - start); Ok (data, endGapEnd, true)
  else Ok (data, end_, wasCut).

Definition adjustEndGap (gs : list (loc * byteInterval)) (fresh g g' : loc)
    (startGapEqualsEndGap adjustedStartGapEnd : bool) (startGapEnd endGapEnd end_ : Z)
  : list (loc * byteInterval) * loc :=
  if end_ =? endGapEnd then
    if negb startGapEqualsEndGap then (dl_remove gs g', fresh) else (gs, fresh)
  else if startGapEqualsEndGap && adjustedStartGapEnd then
    (dl_insert_after gs g (fresh, mkByteInterval end_ startGapEnd), S fresh)
  else if negb startGapEqualsEndGap then (dl_set gs g' (mkByteInterval end_ endGapEnd), fresh)
  else (gs, fresh).

(** A small piece that was cut off is copied, and its buffer is released.  The
    error is part of the result: the sorter has changed when there are too many
    gaps. *)
Definition storeFrame (s : frameSorter) (gs : list (loc * byteInterval)) (fresh : loc)
    (q : gmap Z frameSorterEntry) (data : list byte) (start : Z) (wasCut : bool)
    (doneCb : option Z) (called : list Z) : frameSorter * list Z * option error :=
  let '(called, doneCb) :=
    if wasCut && (len data <? MinStreamFrameBufferSize)
    then (called ++ invoke doneCb, None) else (called, doneCb) in
  if MaxStreamFrameSorterGaps <? dl_len gs
  then (mkFrameSorter q (readPos s) gs fresh, called,
        Some (ErrorString "too many gaps in received data" []))
  else (mkFrameSorter (<[start := mkEntry data doneCb]> q) (readPos s) gs fresh, called, None).

(** What [push] does with a frame that is not a duplicate, after it replaced
    entries. *)
Definition insertFrame (s : frameSorter) (doneCb : option Z) (g g' : loc) (sg eg : byteInterval)
    (startsInGap endsInGap : bool) (start : Z) (q : gmap Z frameSorterEntry) (replaced : bool)
    (called : list Z) (data : list byte) (end_ : Z) (wasCut : bool)
  : res (frameSorter * list Z * option error) :=
  let startGapEqualsEndGap := bool_decide (g = g') in
  let startGapNext := dl_next (gaps s) g in
  '(data, start, wasCut) ← cutStart data start sg startsInGap replaced wasCut;
  let '(gs, adjusted) := adjustStartGap (gaps s) g sg start end_ replaced in
  '(gs, q, called) ← deleteCovered gs q startGapEqualsEndGap (End_ sg) startGapNext
                       (Start eg) called;
  '(data, end_, wasCut) ← cutEnd data start end_ (End_ eg) endsInGap wasCut;
  let '(gs, fresh) := adjustEndGap gs (fresh s) g g' startGapEqualsEndGap adjusted
                        (End_ sg) (End_ eg) end_ in
  Ok (storeFrame s gs fresh q data start wasCut doneCb called).

Definition push (s : frameSorter) (data : list byte) (offset : Z) (doneCb : option Z)
  : res (frameSorter * list Z * option error) :=
  let duplicate := Ok (s, [], Some errDuplicateStreamData) in
  if len data =? 0 then duplicate else
  let start := offset in
  let end_ := i64 (offset + len data) in
  front ← gap_value (gaps s) (dl_front (gaps s));
  if end_ <=? Start front then duplicate else
  '(startGap, startsInGap) ← findStartGap (gaps s) start;
  '(endGap, endsInGap) ← findEndGap (gaps s) startGap end_;
  match startGap, endGap with
  | Some g, Some g' =>
      sg ← gap_value (gaps s) startGap;
      eg ← gap_value (gaps s) endGap;
      let startGapEqualsEndGap := bool_decide (g = g') in
      if (startGapEqualsEndGap && (end_ <=? Start sg)) ||
         (negb startGapEqualsEndGap && (Start eg <=? End_ sg) && (end_ <=? Start sg))
      then duplicate else
      outcome ← replaceEntries (size (queue s)) (queue s) start end_ false [];
      let insert := insertFrame s doneCb g g' sg eg startsInGap endsInGap start in
      match outcome with
      | Duplicate => duplicate
      | Replaced q replaced called => insert q replaced called data end_ false
      | CutAt q pos called => data ← slice_to data (pos - start); insert q true called data pos true
      end
  | _, _ => Panic (* nil dereference *)
  end.

Definition Push (s : frameSorter) (data : list byte) (offset : Z) (doneCb : option Z)
  : res (frameSorter * list Z * option error) :=
  '(s, called, err) ← push s data offset doneCb;
  if decide (err = Some errDuplicateStreamData) then Ok (s, called ++ invoke doneCb, None)
  else Ok (s, called, err).

(** The offset, the data and the callback; [None] for nil. *)
Definition Pop (s : frameSorter) : res (frameSorter * Z * option (list byte) * option Z) :=
  match queue s !! readPos s with
  | None => Ok (s, readPos s, None, None)
  | Some entry =>
      let q := delete (readPos s) (queue s) in
      let offset := readPos s in
      let pos := readPos s + len (Data entry) in
      front ← gap_value (gaps s) (dl_front (gaps s));
      if End_ front <=? pos then Panic else
      Ok (mkFrameSorter q pos (gaps s) (fresh s), offset, Some (Data entry), DoneCb entry)
  end.

Definition HasMoreData (s : frameSorter) : bool := negb (size (queue s) =? 0)%nat.

(** ** The queue *)
Implicit Types (q : gmap Z frameSorterEntry) (e : frameSorterEntry) (x p u w : Z).

Definition entry_len (e : frameSorterEntry) : Z := len (Data e).

(** The entries are not empty and do not overlap. *)
Definition queue_ok q : Prop :=
  (∀ p e, q !! p = Some e → 0 < entry_len e) ∧
  (∀ p p' e e', q !! p = Some e → q !! p' = Some e' → p < p' → p + entry_len e ≤ p').

(** The byte [b] is stored for the position [x]. *)
Definition byte_at q x (b : byte) : Prop :=
  ∃ p e, q !! p = Some e ∧ p ≤ x ∧ Data e !! Z.to_nat (x - p) = Some b.

Definition covered q x : Prop := ∃ p e, q !! p = Some e ∧ p ≤ x < p + entry_len e.

(** No entry contains both sides of the position [x]. *)
Definition edge q x : Prop := ∀ p e, q !! p = Some e → p < x → p + entry_len e ≤ x.

(** The callbacks that the entries hold. *)
Definition callbacks q : list Z := map_to_list q ≫= λ kv, invoke (DoneCb kv.2).

(** The queue without the entries that start in [[u, w)]. *)
Definition without q u w : gmap Z frameSorterEntry := filter (λ kv, ¬ (u ≤ kv.1 < w)) q.

Lemma lookup_without q u w p :
  without q u w !! p = if decide (u ≤ p < w) then None else q !! p.
Proof.
  unfold without. rewrite map_lookup_filter. destruct (q !! p) as [e|]; cbn; [|by case_decide].
  repeat case_guard; case_decide; done || tauto.
Qed.

Lemma lookup_without_Some q u w p e :
  without q u w !! p = Some e ↔ q !! p = Some e ∧ ¬ (u ≤ p < w).
Proof. rewrite lookup_without. case_decide; naive_solver. Qed.

Lemma without_without q u w u' : u' = w → u ≤ w → ∀ w', w ≤ w' →
  without (without q u w) u' w' = without q u w'.
Proof.
  intros -> ? w' ?. apply map_eq. intros p. rewrite !lookup_without.
  repeat case_decide; done || lia.
Qed.

Lemma without_nothing q u w : (∀ p, u ≤ p < w → q !! p = None) → without q u w = q.
Proof.
  intros Hn. apply map_eq. intros p. rewrite lookup_without. case_decide; [|done].
  symmetry. auto.
Qed.

Lemma queue_ok_sub q q' : q' ⊆ q → queue_ok q → queue_ok q'.
Proof.
  intros Hsub [Hne Hd]. split.
  - intros p e Hp. eapply Hne, lookup_weaken; done.
  - intros p p' e e' Hp Hp'. eapply Hd; by eapply lookup_weaken.
Qed.

Lemma without_sub q u w : without q u w ⊆ q.
Proof. apply map_filter_subseteq. Qed.

Lemma covered_byte q x : covered q x ↔ ∃ b, byte_at q x b.
Proof.
  split.
  - intros (p&e&Hp&Hx). unfold entry_len, len in Hx.
    destruct (lookup_lt_is_Some_2 (Data e) (Z.to_nat (x - p))) as [b Hb]; [lia|].
    exists b, p, e. split_and!; [done|lia|done].
  - intros (b&p&e&Hp&Hx&Hb). exists p, e. split; [done|].
    apply lookup_lt_Some in Hb. unfold entry_len, len. lia.
Qed.

(** At an edge that is covered an entry starts. *)
Lemma edge_entry q u : edge q u → covered q u → ∃ e, q !! u = Some e.
Proof.
  intros He (p&e&Hp&Hx). destruct (decide (p = u)) as [->|]; [eauto|].
  specialize (He p e Hp). lia.
Qed.

Lemma uncovered_edge q x : ¬ covered q x → edge q x.
Proof.
  intros Hx p e Hp Hlt. destruct (decide (p + entry_len e ≤ x)); [done|].
  exfalso. apply Hx. exists p, e. split; [done|lia].
Qed.

Lemma uncovered_edge_succ q x : ¬ covered q x → edge q (x + 1).
Proof.
  intros Hx p e Hp Hlt. destruct (decide (p + entry_len e ≤ x + 1)); [done|].
  exfalso. apply Hx. exists p, e. split; [done|lia].
Qed.

Lemma key_edge q p e : queue_ok q → q !! p = Some e → edge q p.
Proof. intros [_ Hd] Hp p' e' Hp' Hlt. by eapply Hd. Qed.

Lemma next_edge q p e : queue_ok q → q !! p = Some e → edge q (p + entry_len e).
Proof.
  intros [Hne Hd] Hp p' e' Hp' Hlt. destruct (Z.lt_total p p') as [H|[<-|H]].
  - pose proof (Hd _ _ _ _ Hp Hp' H). lia.
  - simplify_eq. lia.
  - pose proof (Hd _ _ _ _ Hp' Hp H). pose proof (Hne _ _ Hp). lia.
Qed.

(** Taking out one entry. *)
Lemma delete_without q p e :
  queue_ok q → q !! p = Some e → delete p q = without q p (p + entry_len e).
Proof.
  intros [Hne Hd] Hp. apply map_eq. intros p'. rewrite lookup_without.
  pose proof (Hne _ _ Hp). destruct (decide (p = p')) as [<-|Hn].
  - rewrite lookup_delete_eq, decide_True by lia. done.
  - rewrite lookup_delete_ne by done. case_decide; [|done].
    destruct (q !! p') as [e'|] eqn:E; [|done].
    pose proof (Hd p p' e e' Hp E ltac:(lia)). lia.
Qed.

Lemma callbacks_delete q p e :
  q !! p = Some e → callbacks q ≡ₚ invoke (DoneCb e) ++ callbacks (delete p q).
Proof.
  intros Hp. unfold callbacks. rewrite <-(map_to_list_delete q p e Hp). done.
Qed.

Lemma callbacks_insert q p e :
  q !! p = None → callbacks (<[p := e]> q) ≡ₚ invoke (DoneCb e) ++ callbacks q.
Proof. intros Hp. unfold callbacks. by rewrite (map_to_list_insert q p e Hp). Qed.

(** ** The loops over the queue *)

(** The positions [[u, w)] are an island or the rest of one: they are covered, no
    entry reaches into them from below, and [w] is not covered. *)
Record island q u w : Prop := {
  island_edge : edge q u;
  island_le : u ≤ w;
  island_covered : ∀ x, u ≤ x < w → covered q x;
  island_end : ¬ covered q w;
}.

Lemma island_empty q u : queue_ok q → island q u u → q !! u = None.
Proof.
  intros [Hne _] [_ _ _ Hw]. destruct (q !! u) as [e|] eqn:E; [|done].
  exfalso. apply Hw. exists u, e. split; [done|]. specialize (Hne u e E). lia.
Qed.

Lemma island_entry q u w :
  queue_ok q → island q u w → u < w → ∃ e, q !! u = Some e ∧ u + entry_len e ≤ w ∧ 0 < entry_len e.
Proof.
  intros Hq [He _ Hc Hw] Hlt. destruct (edge_entry q u He) as [e Hu]; [apply Hc; lia|].
  exists e. pose proof (proj1 Hq _ _ Hu). split_and!; [done| |done].
  destruct (decide (u + entry_len e ≤ w)); [done|]. exfalso. apply Hw. exists u, e.
  split; [done|lia].
Qed.

Lemma island_delete q u w e :
  queue_ok q → island q u w → q !! u = Some e → u + entry_len e ≤ w →
  island (delete u q) (u + entry_len e) w.
Proof.
  intros Hq [He Hle Hc Hw] Hu Hl. split; [|lia|..].
  - intros p e' Hp. apply lookup_delete_Some in Hp as [_ Hp].
    by apply (next_edge q u e Hq Hu).
  - intros x Hx. pose proof (proj1 Hq _ _ Hu). destruct (Hc x) as (p&e'&Hp&Hpx); [lia|].
    exists p, e'. split; [|done]. rewrite lookup_delete_ne; [done|]. intros ->. simplify_eq. lia.
  - intros (p&e'&Hp&Hpx). apply Hw. exists p, e'. by apply lookup_delete_Some in Hp as [_ ?].
Qed.

Lemma deleteConsecutive_loop_spec fuel q u w called :
  (size q ≤ fuel)%nat → queue_ok q → island q u w →
  ∃ c, deleteConsecutive_loop fuel q u called = Ok (without q u w, called ++ c) ∧
    callbacks q ≡ₚ c ++ callbacks (without q u w).
Proof.
  revert q u called. induction fuel as [|fuel IH]; intros q u called Hf Hq Hi.
  { assert (q = ∅) as -> by (apply map_size_empty_inv; lia). cbn. rewrite lookup_empty.
    exists []. rewrite app_nil_r, without_nothing; [done|]. intros. apply lookup_empty. }
  cbn [deleteConsecutive_loop]. destruct (decide (u = w)) as [<-|Hne].
  - rewrite island_empty by done. exists []. rewrite app_nil_r, without_nothing; [done|lia].
  - pose proof (island_le _ _ _ Hi). destruct (island_entry q u w Hq Hi) as (e&Hu&Hl&Hpos); [lia|].
    rewrite Hu. fold (entry_len e).
    destruct (IH (delete u q) (u + entry_len e) (called ++ invoke (DoneCb e))) as (c&->&Hcb).
    { rewrite map_size_delete_Some by eauto. lia. }
    { eapply queue_ok_sub; [apply delete_subseteq|done]. }
    { by apply island_delete. }
    rewrite (delete_without q u e), without_without in * by (done || lia).
    exists (invoke (DoneCb e) ++ c). split; [by rewrite app_assoc|].
    rewrite (callbacks_delete q u e), (delete_without q u e), Hcb by done. by rewrite app_assoc.
Qed.

Lemma deleteConsecutive_spec q u w :
  queue_ok q → island q u w →
  ∃ c, deleteConsecutive q u = Ok (without q u w, c) ∧
    callbacks q ≡ₚ c ++ callbacks (without q u w).
Proof. intros. by apply (deleteConsecutive_loop_spec (size q)). Qed.

Lemma replaceEntries_true fuel q u w end_ called :
  (size q ≤ fuel)%nat → queue_ok q → island q u w → u ≤ end_ →
  ∃ c, (w ≤ end_ ∧ callbacks q ≡ₚ c ++ callbacks (without q u w) ∧
        replaceEntries fuel q u end_ true called = Ok (Replaced (without q u w) true (called ++ c))) ∨
    (∃ pos, u ≤ pos ≤ end_ ∧ end_ < w ∧ edge q pos ∧
      callbacks q ≡ₚ c ++ callbacks (without q u pos) ∧
      replaceEntries fuel q u end_ true called = Ok (CutAt (without q u pos) pos (called ++ c))).
Proof.
  revert q u called. induction fuel as [|fuel IH]; intros q u called Hf Hq Hi Hend.
  all: destruct (decide (u = w)) as [<-|Hne];
    [exists []; left; cbn [replaceEntries]; rewrite (island_empty q u) by done;
     rewrite app_nil_r, without_nothing by lia; done|].
  all: pose proof (island_le _ _ _ Hi);
    destruct (island_entry q u w Hq Hi) as (e&Hu&Hl&Hpos); [lia|].
  { assert (q = ∅) as -> by (apply map_size_empty_inv; lia). by rewrite lookup_empty in Hu. }
  cbn [replaceEntries]. rewrite Hu. fold (entry_len e). cbn [andb negb].
  destruct (decide (entry_len e ≤ end_ - u)) as [Hle|Hgt].
  - replace ((entry_len e <? end_ - u) || (end_ - u =? entry_len e)) with true by lia.
    destruct (IH (delete u q) (u + entry_len e) (called ++ invoke (DoneCb e))) as (c&Hc).
    { rewrite map_size_delete_Some by eauto. lia. }
    { eapply queue_ok_sub; [apply delete_subseteq|done]. }
    { by apply island_delete. }
    { lia. }
    pose proof (callbacks_delete q u e Hu) as Hcb.
    rewrite (delete_without q u e) in * by done.
    exists (invoke (DoneCb e) ++ c). rewrite app_assoc.
    destruct Hc as [(?&Hc&->)|(pos&?&?&Hedge&Hc&->)]; [left|right; exists pos];
      rewrite without_without in * by (done || lia); split_and!; try done; try lia.
    + by rewrite Hcb, Hc, app_assoc.
    + intros p e' Hp Hlt. destruct (decide (u ≤ p < u + entry_len e)).
      * pose proof (proj2 Hq u p e e' Hu Hp). destruct (decide (u = p)); simplify_eq; lia.
      * apply (Hedge p e'); [|done]. by rewrite lookup_without_Some.
    + by rewrite Hcb, Hc, app_assoc.
  - replace ((entry_len e <? end_ - u) || (end_ - u =? entry_len e)) with false by lia.
    exists []. right. exists u. rewrite app_nil_r, without_nothing by lia.
    split_and!; try done; try lia. by eapply key_edge.
Qed.

Lemma replaceEntries_spec q u w end_ :
  queue_ok q → island q u w → u < w → u < end_ →
  (replaceEntries (size q) q u end_ false [] = Ok Duplicate ∧ end_ ≤ w) ∨
  (∃ c, w ≤ end_ ∧ callbacks q ≡ₚ c ++ callbacks (without q u w) ∧
    replaceEntries (size q) q u end_ false [] = Ok (Replaced (without q u w) true c)) ∨
  (∃ c pos, u < pos ≤ end_ ∧ end_ < w ∧ edge q pos ∧
    callbacks q ≡ₚ c ++ callbacks (without q u pos) ∧
    replaceEntries (size q) q u end_ false [] = Ok (CutAt (without q u pos) pos c)).
Proof.
  intros Hq Hi Huw Hend. destruct (island_entry q u w Hq Hi Huw) as (e&Hu&Hl&Hpos).
  destruct (size q) as [|n] eqn:Hsize.
  { apply map_size_empty_inv in Hsize as ->. by rewrite lookup_empty in Hu. }
  cbn [replaceEntries]. rewrite Hu. fold (entry_len e). cbn [andb negb]. rewrite orb_false_r.
  destruct (Z.ltb_spec (entry_len e) (end_ - u)) as [Hlt|Hge]; [|left; split; [done|lia]].
  right. pose proof (callbacks_delete q u e Hu) as Hcb.
  destruct (replaceEntries_true n (delete u q) (u + entry_len e) w end_ ([] ++ invoke (DoneCb e)))
    as (c&Hc).
  { rewrite map_size_delete_Some by eauto. lia. }
  { eapply queue_ok_sub; [apply delete_subseteq|done]. }
  { by apply island_delete. }
  { lia. }
  rewrite (delete_without q u e) in * by done.
  destruct Hc as [(?&Hc&->)|(pos&?&?&Hedge&Hc&->)]; [left|right];
    exists (invoke (DoneCb e) ++ c); [|exists pos];
    rewrite without_without in * by (done || lia); split_and!; try done; try lia.
  - by rewrite Hcb, Hc, app_assoc.
  - intros p e' Hp Hlt'. destruct (decide (u ≤ p < u + entry_len e)).
    + pose proof (proj2 Hq u p e e' Hu Hp). destruct (decide (u = p)); simplify_eq; lia.
    + apply (Hedge p e'); [|done]. by rewrite lookup_without_Some.
  - by rewrite Hcb, Hc, app_assoc.
Qed.

(** ** The gaps *)
Implicit Types (g : byteInterval) (gs : list byteInterval).

(** The gaps are not empty, in order, and separated by data; all are from [lo]
    on. *)
Fixpoint gaps_asc (lo : Z) gs : Prop :=
  match gs with
  | [] => True
  | g :: gs => lo ≤ Start g < End_ g ∧ gaps_asc (End_ g + 1) gs
  end.

Definition in_gap gs x : Prop := Exists (λ g, Start g ≤ x < End_ g) gs.

(** What is left of a gap when the data of [[a, b)] arrives. *)
Definition sub_gap (a b : Z) g : list byteInterval :=
  (if Start g <? Z.min a (End_ g) then [mkByteInterval (Start g) (Z.min a (End_ g))] else []) ++
  (if Z.max b (Start g) <? End_ g then [mkByteInterval (Z.max b (Start g)) (End_ g)] else []).

Lemma gaps_asc_app lo gs gs' :
  gaps_asc lo (gs ++ gs') ↔
  gaps_asc lo gs ∧ gaps_asc (match last gs with Some g => End_ g + 1 | None => lo end) gs'.
Proof.
  revert lo. induction gs as [|g gs IH]; intros lo; cbn [app gaps_asc]; [tauto|].
  rewrite IH, last_cons. destruct (last gs); tauto.
Qed.

Lemma gaps_asc_weaken lo lo' gs : lo' ≤ lo → gaps_asc lo gs → gaps_asc lo' gs.
Proof. destruct gs; cbn; intuition lia. Qed.

Lemma gaps_asc_Forall lo gs : gaps_asc lo gs → Forall (λ g, lo ≤ Start g < End_ g) gs.
Proof.
  revert lo. induction gs as [|g gs IH]; intros lo; cbn; [constructor|]. intros [? Hg].
  constructor; [done|]. apply IH in Hg. eapply Forall_impl; [done|]. cbn. lia.
Qed.

(** Before and after the gap [g]. *)
Lemma gaps_asc_split lo gs1 g gs2 :
  gaps_asc lo (gs1 ++ g :: gs2) →
  Forall (λ g', lo ≤ Start g' < End_ g' ∧ End_ g' < Start g) gs1 ∧ lo ≤ Start g < End_ g ∧
  Forall (λ g', End_ g < Start g' < End_ g') gs2 ∧ gaps_asc (End_ g + 1) gs2.
Proof.
  revert lo. induction gs1 as [|g1 gs1 IH]; intros lo; cbn [app gaps_asc].
  - intros [? Hg]. split_and!; [constructor|lia..| |done].
    eapply Forall_impl; [by apply gaps_asc_Forall|]. cbn. lia.
  - intros [? Hg]. destruct (IH _ Hg) as (H1&?&?&?). split_and!; try done; try lia.
    constructor; [lia|]. eapply Forall_impl; [done|]. cbn. lia.
Qed.

Lemma in_gap_app gs gs' x : in_gap (gs ++ gs') x ↔ in_gap gs x ∨ in_gap gs' x.
Proof. apply Exists_app. Qed.

Lemma sub_gap_in a b g x :
  a < b → in_gap (sub_gap a b g) x ↔ Start g ≤ x < End_ g ∧ ¬ (a ≤ x < b).
Proof.
  intros Hab. unfold sub_gap. rewrite in_gap_app. unfold in_gap.
  split.
  - intros [H|H]; repeat zcase_in H; rewrite ?Exists_nil in H; try done;
      apply Exists_cons in H as [H|H%Exists_nil]; cbn in H; try done; lia.
  - intros [??]. destruct (decide (x < a)); [left|right]; zcase; try lia;
      apply Exists_cons; left; cbn; lia.
Qed.

Lemma sub_gaps_in a b gs x :
  a < b → in_gap (gs ≫= sub_gap a b) x ↔ in_gap gs x ∧ ¬ (a ≤ x < b).
Proof.
  intros Hab. induction gs as [|g gs IH]; cbn.
  - unfold in_gap. rewrite Exists_nil. tauto.
  - rewrite in_gap_app, IH, sub_gap_in by done.
    assert (in_gap (g :: gs) x ↔ Start g ≤ x < End_ g ∨ in_gap gs x) as -> by apply Exists_cons.
    tauto.
Qed.

Lemma sub_gaps_asc lo a b gs : a < b → gaps_asc lo gs → gaps_asc lo (gs ≫= sub_gap a b).
Proof.
  intros Hab. revert lo. induction gs as [|g gs IH]; intros lo; [done|]. cbn [gaps_asc mbind list_bind].
  intros [Hg Hgs%IH]. apply gaps_asc_app. unfold sub_gap.
  repeat zcase; cbn; split_and!; try lia; (eapply gaps_asc_weaken; [|done]; lia).
Qed.

(** Gaps that the new data does not touch, and those that it fills. *)
Lemma sub_gap_before a b g : Start g < End_ g → End_ g ≤ a → a < b → sub_gap a b g = [g].
Proof. intros. unfold sub_gap. repeat zcase. destruct g; cbn in *. by rewrite Z.min_r by lia. Qed.

Lemma sub_gap_after a b g : Start g < End_ g → b ≤ Start g → a < b → sub_gap a b g = [g].
Proof. intros. unfold sub_gap. repeat zcase. destruct g; cbn in *. by rewrite Z.max_r by lia. Qed.

Lemma sub_gaps_filled a b gs :
  Forall (λ g, a ≤ Start g ∧ End_ g ≤ b) gs → gs ≫= sub_gap a b = [].
Proof.
  induction 1 as [|g gs Hg _ IH]; [done|]. cbn. rewrite IH. unfold sub_gap.
  repeat zcase; try lia. done.
Qed.

Lemma sub_gaps_before a b gs :
  a < b → Forall (λ g, Start g < End_ g ∧ End_ g ≤ a) gs → gs ≫= sub_gap a b = gs.
Proof.
  intros Hab. induction 1 as [|g gs [? ?] _ IH]; [done|]. cbn. by rewrite IH, sub_gap_before.
Qed.

Lemma sub_gaps_after a b gs :
  a < b → Forall (λ g, Start g < End_ g ∧ b ≤ Start g) gs → gs ≫= sub_gap a b = gs.
Proof.
  intros Hab. induction 1 as [|g gs [? ?] _ IH]; [done|]. cbn. by rewrite IH, sub_gap_after.
Qed.

Definition ends_at (M : Z) gs : Prop := ∃ gs' g, gs = gs' ++ [g] ∧ End_ g = M.

Lemma sub_gaps_end M a b gs :
  b < M → gaps_asc 0 gs → ends_at M gs → ends_at M (gs ≫= sub_gap a b).
Proof.
  intros Hb Hasc (gs'&g&->&Hg). rewrite bind_app. cbn. rewrite app_nil_r.
  apply gaps_asc_split in Hasc as (_&?&_). unfold sub_gap. rewrite (proj2 (Z.ltb_lt (Z.max _ _) _)) by lia.
  eexists _, _. rewrite app_assoc. done.
Qed.

(** ** The invariant *)
Record sorter_inv (s : frameSorter) : Prop := {
  inv_ids : NoDup (gaps s).*1;
  inv_fresh : Forall (λ i, (i < fresh s)%nat) (gaps s).*1;
  inv_pos : 0 ≤ readPos s;
  inv_asc : gaps_asc (readPos s) (gaps s).*2;
  inv_end : ends_at MaxByteCount (gaps s).*2;
  inv_queue : queue_ok (queue s);
  inv_cover : ∀ x, covered (queue s) x ↔
                   readPos s ≤ x < MaxByteCount ∧ ¬ in_gap (gaps s).*2 x;
  inv_len : dl_len (gaps s) ≤ MaxStreamFrameSorterGaps;
}.

(** ** Storing a chunk *)
Section store.
Variables (q : gmap Z frameSorterEntry) (a b : Z) (data : list byte) (cb : option Z).
Hypotheses (Hq : queue_ok q) (Ha : edge q a) (Hb : edge q b) (Hab : a < b)
  (Hdata : len data = b - a).

Lemma store_lookup p e :
  <[a := mkEntry data cb]> (without q a b) !! p = Some e ↔
  (p = a ∧ e = mkEntry data cb) ∨ (¬ (a ≤ p < b) ∧ q !! p = Some e).
Proof.
  destruct (decide (p = a)) as [->|Hne].
  - rewrite lookup_insert_eq. split; [intros [= <-]; by left|].
    intros [[_ ->]|[? _]]; [done|lia].
  - rewrite lookup_insert_ne, lookup_without_Some by done. naive_solver.
Qed.

Lemma store_queue_ok : queue_ok (<[a := mkEntry data cb]> (without q a b)).
Proof.
  destruct Hq as [Hne Hd]. split.
  - intros p e [[_ ->]|[_ Hp]]%store_lookup; [unfold entry_len; cbn; lia|by eapply Hne].
  - intros p p' e e' [[-> ->]|[Hp1 Hp]]%store_lookup [[-> ->]|[Hp1' Hp']]%store_lookup Hlt.
    + lia.
    + unfold entry_len. cbn. lia.
    + by apply (Ha p e).
    + by eapply Hd.
Qed.

Lemma store_byte x c :
  byte_at (<[a := mkEntry data cb]> (without q a b)) x c ↔
  if decide (a ≤ x < b) then data !! Z.to_nat (x - a) = Some c else byte_at q x c.
Proof.
  unfold byte_at. split.
  - intros (p&e&[[-> ->]|[Hp1 Hp]]%store_lookup&Hx&Hc).
    + cbn in Hc. pose proof (lookup_lt_Some _ _ _ Hc). unfold len in *.
      rewrite decide_True by lia. done.
    + rewrite decide_False; [eauto|]. intros Hx'.
      pose proof (lookup_lt_Some _ _ _ Hc). pose proof (Ha p e Hp).
      pose proof (Hb p e Hp). unfold entry_len, len in *. lia.
  - case_decide as Hx.
    + intros Hc. exists a, (mkEntry data cb). split_and!; [|lia|done].
      apply store_lookup. by left.
    + intros (p&e&Hp&Hpx&Hc). exists p, e. split_and!; [|done..]. apply store_lookup. right.
      split; [|done]. intros Hp'. pose proof (lookup_lt_Some _ _ _ Hc).
      pose proof (Hb p e Hp). unfold entry_len, len in *. lia.
Qed.

Lemma store_covered x :
  covered (<[a := mkEntry data cb]> (without q a b)) x ↔ a ≤ x < b ∨ covered q x.
Proof.
  rewrite !covered_byte. setoid_rewrite store_byte. case_decide as Hx; [|naive_solver lia].
  split; [tauto|]. intros _. apply lookup_lt_is_Some. unfold len in *. lia.
Qed.

Lemma store_callbacks :
  callbacks (<[a := mkEntry data cb]> (without q a b)) ≡ₚ invoke cb ++ callbacks (without q a b).
Proof. apply callbacks_insert. rewrite lookup_without, decide_True by lia. done. Qed.
End store.

(** ** Finding the gaps *)
Implicit Types (ds : list (loc * byteInterval)) (i j : loc).

Lemma findStartGap_spec ds lo start :
  gaps_asc lo ds.*2 → ends_at MaxByteCount ds.*2 → start < MaxByteCount →
  ∃ pre i sg rest, ds = pre ++ (i, sg) :: rest ∧ Forall (λ g, End_ g < start) pre.*2 ∧
    start ≤ End_ sg ∧ findStartGap ds start = Ok (Some i, Start sg <=? start).
Proof.
  revert lo. induction ds as [|[i g] ds IH]; intros lo Hasc Hend Hs.
  { by destruct Hend as ([]&?&?&_). }
  cbn in Hasc. destruct Hasc as [Hg Hasc]. cbn [findStartGap].
  destruct (decide (start ≤ End_ g)) as [Hle|Hgt].
  - exists [], i, g, ds. split_and!; [done|constructor|done|].
    destruct (Z.leb_spec (Start g) start); cbn [andb].
    + by rewrite (proj2 (Z.leb_le _ _)).
    + by rewrite (proj2 (Z.ltb_lt _ _)).
  - replace ((Start g <=? start) && (start <=? End_ g)) with false by lia.
    rewrite (proj2 (Z.ltb_ge _ _)) by lia.
    destruct (IH _ Hasc) as (pre&i'&sg&rest&->&Hpre&Hsg&->); [|done|].
    { destruct Hend as (gs'&g'&Heq&Hg'). destruct gs' as [|g1 gs']; cbn in Heq; simplify_eq.
      - lia.
      - by exists gs', g'. }
    exists ((i, g) :: pre), i', sg, rest. split_and!; try done. constructor; [cbn; lia|done].
Qed.

Lemma elements_from_mid pre i g rest :
  i ∉ pre.*1 → elements_from (pre ++ (i, g) :: rest) (Some i) = (i, g) :: rest.
Proof.
  induction pre as [|[i' g'] pre IH]; cbn; [by rewrite decide_True|]. intros Hi.
  rewrite decide_False by set_solver. apply IH. set_solver.
Qed.

Lemma findEndGap_loop_spec pre i g suf lo end_ :
  gaps_asc lo (pre ++ (i, g) :: suf).*2 → NoDup (pre ++ (i, g) :: suf).*1 →
  ends_at MaxByteCount (pre ++ (i, g) :: suf).*2 → Start g ≤ end_ < MaxByteCount →
  ∃ l1 j eg l2, (i, g) :: suf = l1 ++ (j, eg) :: l2 ∧ Start eg ≤ end_ ∧
    Forall (λ g, end_ < Start g) l2.*2 ∧
    findEndGap_loop (pre ++ (i, g) :: suf) ((i, g) :: suf) end_ = Ok (Some j, end_ <? End_ eg).
Proof.
  revert pre i g. induction suf as [|[i' g'] suf IH]; intros pre i g Hasc Hnd Hend Hg.
  - destruct Hend as (gs'&gl&Heq&Hl). rewrite fmap_app in Heq. cbn in Heq.
    apply app_inj_tail in Heq as [_ ->]. exists [], i, gl, [].
    split_and!; [done|lia|constructor|]. cbn. replace (Start gl <=? end_) with true by lia.
    cbn. by rewrite (proj2 (Z.ltb_lt _ _)) by lia.
  - pose proof Hasc as Hsplit. rewrite fmap_app in Hsplit.
    apply gaps_asc_split in Hsplit as (_&?&Hafter&_).
    cbn [findEndGap_loop]. replace (Start g <=? end_) with true by lia. cbn [andb].
    destruct (Z.ltb_spec end_ (End_ g)) as [Hlt|Hge].
    + exists [], i, g, ((i', g') :: suf). split_and!; [done|lia| |].
      * eapply Forall_impl; [exact Hafter|]. cbn. lia.
      * by rewrite (proj2 (Z.ltb_lt _ _)).
    + rewrite (proj2 (Z.ltb_ge _ _)) by lia. fold findEndGap_loop.
      destruct (decide (Start g' ≤ end_)) as [Hle|Hgt].
      * rewrite (cons_middle (i, g)), app_assoc in Hasc, Hnd, Hend.
        destruct (IH _ _ _ Hasc Hnd Hend) as (l1&j&eg&l2&Heq&?&?&Hl); [lia|].
        exists ((i, g) :: l1), j, eg, l2. rewrite <-app_assoc in Hl. cbn [app] in Hl.
        split_and!; [cbn; by rewrite Heq|done..].
      * exists [], i, g, ((i', g') :: suf). split_and!; [done|lia| |].
        -- cbn in Hasc. pose proof Hafter as Hh%Forall_cons. cbn in Hh.
           apply Forall_cons. split; [cbn; lia|].
           rewrite (cons_middle (i, g)), app_assoc, fmap_app in Hasc.
           apply gaps_asc_split in Hasc as (_&_&Ha'&_).
           eapply Forall_impl; [exact Ha'|]. cbn. lia.
        -- cbn [findEndGap_loop]. rewrite (proj2 (Z.leb_gt (Start g') end_)) by lia.
           rewrite (proj2 (Z.ltb_lt end_ (Start g'))) by lia. cbn [andb].
           rewrite (cons_middle (i, g)), app_assoc in Hnd |- *.
           rewrite (proj2 (Z.ltb_ge end_ (End_ g))) by lia.
           rewrite dl_prev_mid; [unfold dl_back; by rewrite last_snoc|].
           rewrite fmap_app in Hnd. apply NoDup_app in Hnd as (_&Hnd&_).
           intros Hin. apply (Hnd _ Hin). left.
Qed.

(** ** Deleting what the new frame covers *)
Definition no_keys q u w : Prop := ∀ p, u ≤ p < w → q !! p = None.

Lemma uncovered_no_key q p : queue_ok q → ¬ covered q p → q !! p = None.
Proof.
  intros [Hne _] Hp. destruct (q !! p) as [e|] eqn:E; [|done]. exfalso. apply Hp.
  exists p, e. split; [done|]. specialize (Hne p e E). lia.
Qed.

Lemma without_extend_right q a u w :
  a ≤ u ≤ w → no_keys q u w → without q a u = without q a w.
Proof.
  intros ? Hn. apply map_eq. intros p. rewrite !lookup_without.
  repeat case_decide; try done; try lia. apply Hn. lia.
Qed.

Lemma without_extend_left q a u w :
  a ≤ u ≤ w → no_keys q a u → without q u w = without q a w.
Proof.
  intros ? Hn. apply map_eq. intros p. rewrite !lookup_without.
  repeat case_decide; try done; try lia. apply Hn. lia.
Qed.

(** Entries that are deleted before an edge do not matter behind it. *)
Lemma covered_without q u w s x :
  edge q s → w ≤ s ≤ x → covered (without q u w) x ↔ covered q x.
Proof.
  intros Hs Hx. split; intros (p&e&Hp&Hpx).
  - apply lookup_without_Some in Hp as [Hp _]. by exists p, e.
  - exists p, e. split; [|done]. apply lookup_without_Some. split; [done|].
    intros Hp'. specialize (Hs p e Hp). lia.
Qed.

(** The start of the first gap of [mids ++ [(j, eg)]]. *)
Definition first_start (mids : list (loc * byteInterval)) (eg : byteInterval) : Z :=
  match mids with [] => Start eg | (_, m) :: _ => Start m end.

Lemma first_start_in mids j eg lo :
  gaps_asc lo (mids ++ [(j, eg)]).*2 →
  lo ≤ first_start mids eg ≤ Start eg ∧ in_gap (mids ++ [(j, eg)]).*2 (first_start mids eg) ∧
  ∀ x, x < first_start mids eg → ¬ in_gap (mids ++ [(j, eg)]).*2 x.
Proof.
  intros Hasc. assert (∀ x, in_gap (mids ++ [(j, eg)]).*2 x → first_start mids eg ≤ x) as Hx.
  { destruct mids as [|[i m] mids]; cbn in *.
    - intros x [?|?%Exists_nil]%Exists_cons; [lia|done].
    - intros x [?|Hin]%Exists_cons; [lia|]. destruct Hasc as [? Hasc].
      apply gaps_asc_Forall in Hasc. apply Exists_exists in Hin as (g&Hg&?).
      rewrite Forall_forall in Hasc. specialize (Hasc g Hg). lia. }
  split_and!; [| | |intros x ? Hin; specialize (Hx x Hin); lia].
  - destruct mids as [|[i m] mids]; cbn in *; lia.
  - rewrite fmap_app in Hasc. apply gaps_asc_split in Hasc as (Hpre&?&_).
    destruct mids as [|[i m] mids]; cbn in *; [lia|]. apply Forall_cons in Hpre as [? _]. lia.
  - destruct mids as [|[i m] mids]; cbn in *; apply Exists_cons; left; lia.
Qed.

Lemma removeGaps_spec mids ds1 j eg ds2 lo fuel q called :
  NoDup (ds1 ++ mids ++ (j, eg) :: ds2).*1 → gaps_asc lo (mids ++ [(j, eg)]).*2 → queue_ok q →
  (∀ x, first_start mids eg ≤ x ≤ Start eg →
    covered q x ↔ ¬ in_gap (mids ++ [(j, eg)]).*2 x) →
  (length mids ≤ fuel)%nat →
  ∃ c, removeGaps fuel (ds1 ++ mids ++ (j, eg) :: ds2) q (dl_front (mids ++ [(j, eg)]))
         (Start eg) called =
       Ok (ds1 ++ (j, eg) :: ds2, without q (first_start mids eg) (Start eg), called ++ c) ∧
    callbacks q ≡ₚ c ++ callbacks (without q (first_start mids eg) (Start eg)).
Proof.
  revert ds1 lo fuel q called. induction mids as [|[i m] mids IH];
    intros ds1 lo fuel q called Hnd Hasc Hq Hcov Hf.
  { exists []. rewrite app_nil_r, without_nothing by (cbn; lia). split; [|done].
    assert (j ∉ ds1.*1) as Hj.
    { rewrite fmap_app in Hnd. apply NoDup_app in Hnd as (_&Hnd&_).
      intros Hin. apply (Hnd _ Hin). left. }
    cbn in Hasc. destruct fuel; cbn; rewrite dl_value_mid by done; cbn;
      by rewrite (proj2 (Z.ltb_ge _ _)) by lia. }
  assert (i ∉ ds1.*1 ∧ i ∉ (mids ++ (j, eg) :: ds2).*1) as [Hi1 Hi2].
  { rewrite fmap_app in Hnd. apply NoDup_app in Hnd as (_&Hnd&Hnd2).
    apply NoDup_cons in Hnd2 as [? _]. split; [|done]. intros Hin. apply (Hnd _ Hin). left. }
  destruct fuel as [|fuel]; [cbn in Hf; lia|]. cbn in Hasc. destruct Hasc as [Hm Hasc].
  destruct (first_start_in _ _ _ _ Hasc) as (Hfs&Hin&Hbefore).
  assert (∀ x, in_gap (((i, m) :: mids) ++ [(j, eg)]).*2 x ↔
    Start m ≤ x < End_ m ∨ in_gap (mids ++ [(j, eg)]).*2 x) as Hgap by (intros; apply Exists_cons).
  cbn [first_start] in Hcov |- *.
  assert (∀ x, Start m ≤ x < End_ m → ¬ covered q x) as Hunc.
  { intros x Hx. rewrite Hcov, Hgap by lia. tauto. }
  assert (island q (End_ m) (first_start mids eg)) as Hisl.
  { split; [|lia|..].
    - replace (End_ m) with (End_ m - 1 + 1) by lia. apply uncovered_edge_succ, Hunc. lia.
    - intros x Hx. apply Hcov; [lia|]. rewrite Hgap. intros [?|?]; [lia|].
      by apply (Hbefore x); [lia|].
    - rewrite Hcov, Hgap by lia. tauto. }
  destruct (deleteConsecutive_spec q _ _ Hq Hisl) as (c1&Hdel&Hc1).
  pose proof (uncovered_edge q _ (island_end _ _ _ Hisl)) as Hedge.
  destruct (IH ds1 (End_ m + 1) fuel (without q (End_ m) (first_start mids eg)) (called ++ c1))
    as (c2&Hrem&Hc2); [|done|..].
  { rewrite fmap_app in Hnd |- *. cbn in Hnd.
    rewrite <-Permutation_middle in Hnd. by apply NoDup_cons in Hnd as [_ ?]. }
  { eapply queue_ok_sub; [apply without_sub|done]. }
  { intros x Hx. rewrite (covered_without _ _ _ (first_start mids eg)), Hcov, Hgap by (done || lia).
    split; [tauto|]. intros ? [?|?]; [lia|done]. }
  { cbn in Hf. lia. }
  rewrite without_without in Hrem, Hc2 by lia.
  assert (no_keys q (Start m) (End_ m)) as Hnk.
  { intros p Hp. apply uncovered_no_key; [done|]. by apply Hunc. }
  rewrite (without_extend_left q (Start m) (End_ m) (Start eg)) in Hrem, Hc2 by (done || lia).
  exists (c1 ++ c2). rewrite (app_assoc called). split; [|by rewrite Hc1, Hc2, app_assoc].
  cbn [removeGaps]. change (dl_front (((i, m) :: mids) ++ [(j, eg)])) with (Some i).
  cbn [gap_value app]. rewrite dl_value_mid by done. cbn [mbind result_bind].
  rewrite (proj2 (Z.ltb_lt _ _)), Hdel by lia. cbn [mbind result_bind].
  rewrite dl_next_mid, dl_remove_mid by done.
  replace (dl_front (mids ++ (j, eg) :: ds2)) with (dl_front (mids ++ [(j, eg)]))
    by (by destruct mids). done.
Qed.

(** ** Consequences of the invariant *)
Section invariant_facts.
Variable s : frameSorter.
Hypothesis Hinv : sorter_inv s.

Lemma inv_uncovered g x : g ∈ (gaps s).*2 → Start g ≤ x < End_ g → ¬ covered (queue s) x.
Proof.
  intros Hg Hx. rewrite (inv_cover s Hinv). intros [_ Hn]. apply Hn.
  apply Exists_exists. eauto.
Qed.

Lemma inv_edge_end g : g ∈ (gaps s).*2 → edge (queue s) (End_ g).
Proof.
  intros Hg. pose proof (gaps_asc_Forall _ _ (inv_asc s Hinv)) as Hall.
  rewrite Forall_forall in Hall. specialize (Hall g Hg).
  replace (End_ g) with (End_ g - 1 + 1) by lia. apply uncovered_edge_succ.
  apply (inv_uncovered g); [done|lia].
Qed.

Lemma inv_no_keys g u w :
  g ∈ (gaps s).*2 → Start g ≤ u → w ≤ End_ g → no_keys (queue s) u w.
Proof.
  intros Hg Hu Hw p Hp. apply uncovered_no_key; [apply Hinv|].
  apply (inv_uncovered g); [done|lia].
Qed.

(** Between the gaps before [g] and [g] everything from the read position on is
    covered. *)
Lemma inv_island gs1 g gs2 p :
  (gaps s).*2 = gs1 ++ g :: gs2 → Forall (λ g', End_ g' ≤ p) gs1 → readPos s ≤ p ≤ Start g →
  edge (queue s) p → island (queue s) p (Start g).
Proof.
  intros Hgs Hgs1 Hp He.
  pose proof (inv_asc s Hinv) as Hasc. rewrite Hgs in Hasc.
  apply gaps_asc_split in Hasc as (_&Hg&Hgs2&_).
  assert (End_ g ≤ MaxByteCount) as HM.
  { destruct (inv_end s Hinv) as (gs'&gl&Heq&Hl). rewrite Hgs in Heq.
    destruct gs2 as [|g2 gs2 _] using rev_ind.
    - apply app_inj_tail in Heq as [_ ->]. lia.
    - rewrite app_comm_cons, app_assoc in Heq. apply app_inj_tail in Heq as [_ ->].
      apply Forall_app in Hgs2 as [_ H2%Forall_cons]. lia. }
  split; [done|lia|..].
  - intros x Hx. apply (inv_cover s Hinv). split; [lia|]. rewrite Hgs, in_gap_app.
    rewrite Forall_forall in Hgs1, Hgs2.
    intros [(g'&Hg'&?)%Exists_exists|[?|(g'&Hg'&?)%Exists_exists]%Exists_cons].
    + specialize (Hgs1 g' Hg'). lia.
    + lia.
    + specialize (Hgs2 g' Hg'). lia.
  - apply (inv_uncovered g); [|lia]. rewrite Hgs. set_solver.
Qed.
End invariant_facts.

(** ** The gaps after a new frame *)
Definition ids_ok ds (f : loc) : Prop := NoDup ds.*1 ∧ Forall (λ i, (i < f)%nat) ds.*1.

Lemma ids_ok_sub ds ds' f : ds'.*1 `sublist_of` ds.*1 → ids_ok ds f → ids_ok ds' f.
Proof.
  intros Hs [Hnd Hf]. split; [by eapply sublist_NoDup|].
  rewrite Forall_forall in *. intros i Hi. apply Hf. by eapply elem_of_sublist.
Qed.

Lemma ids_ok_mid ds1 i g ds2 f :
  ids_ok (ds1 ++ (i, g) :: ds2) f → i ∉ ds1.*1 ∧ i ∉ ds2.*1 ∧ (i < f)%nat.
Proof.
  intros [Hnd Hf]. rewrite fmap_app in Hnd, Hf. cbn in Hnd, Hf.
  apply NoDup_app in Hnd as (_&H1&[H2 _]%NoDup_cons).
  apply Forall_app in Hf as [_ [??]%Forall_cons].
  split_and!; [|done..]. intros Hin. apply (H1 _ Hin). left.
Qed.

Section gaps_after.
Variables (pre : list (loc * byteInterval)) (i : loc) (sg : byteInterval)
  (rest : list (loc * byteInterval)) (f : loc) (lo : Z).
Hypothesis Hids : ids_ok (pre ++ (i, sg) :: rest) f.
Hypothesis Hasc : gaps_asc lo (pre ++ (i, sg) :: rest).*2.

Lemma adjustStartGap_eq a end_ r :
  adjustStartGap (pre ++ (i, sg) :: rest) i sg a end_ r =
  if a <=? Start sg then
    if End_ sg <=? end_ then (pre ++ rest, false)
    else (pre ++ (i, mkByteInterval end_ (End_ sg)) :: rest, false)
  else if negb r then (pre ++ (i, mkByteInterval (Start sg) a) :: rest, true)
  else (pre ++ (i, sg) :: rest, false).
Proof.
  destruct (ids_ok_mid _ _ _ _ _ Hids) as (H1&H2&_). unfold adjustStartGap.
  by rewrite dl_remove_mid, !dl_set_mid by done.
Qed.

(** The gaps around [sg] do not change when data for [sg] arrives. *)
Lemma sub_gaps_around a b L :
  a < b → Forall (λ g, End_ g < a) pre.*2 → Forall (λ g, b ≤ Start g) rest.*2 →
  L = sub_gap a b sg → (pre ++ (i, sg) :: rest).*2 ≫= sub_gap a b = pre.*2 ++ L ++ rest.*2.
Proof.
  intros Hab Hpre Hrest ->. rewrite fmap_app, bind_app. cbn.
  rewrite fmap_app in Hasc. cbn in Hasc. apply gaps_asc_split in Hasc as (H1&_&H2&_).
  f_equal; [|f_equal].
  - apply sub_gaps_before; [done|]. rewrite Forall_forall in *. intros g Hg.
    specialize (H1 g Hg). specialize (Hpre g Hg). cbn in *. lia.
  - apply sub_gaps_after; [done|]. rewrite Forall_forall in *. intros g Hg.
    specialize (H2 g Hg). specialize (Hrest g Hg). cbn in *. lia.
Qed.

Lemma ids_without : ids_ok (pre ++ rest) f.
Proof.
  eapply ids_ok_sub; [|done]. rewrite !fmap_app. apply sublist_app; [done|]. by apply sublist_cons.
Qed.

Lemma ids_with g : ids_ok (pre ++ (i, g) :: rest) f.
Proof. pose proof Hids as [??]. unfold ids_ok. by rewrite fmap_app in *. Qed.

Lemma ids_fresh g g' : ids_ok (pre ++ (i, g) :: (f, g') :: rest) (S f).
Proof.
  destruct (ids_with g) as [Hnd Hf]. unfold ids_ok.
  rewrite fmap_app in Hnd, Hf |- *. cbn in Hnd, Hf |- *.
  assert (pre.*1 ++ i :: f :: rest.*1 ≡ₚ f :: pre.*1 ++ i :: rest.*1) as -> by solve_Permutation.
  assert (∀ k : loc, k ∈ pre.*1 ++ i :: rest.*1 → (k < f)%nat) as Hlt by by apply Forall_forall.
  split.
  - apply NoDup_cons. split; [|done]. intros Hin%Hlt. lia.
  - apply Forall_cons. split; [lia|]. eapply Forall_impl; [done|]. cbn. lia.
Qed.

(** The frame starts in [sg] or replaces the data in front of it, and ends in
    [sg] or behind it, before the next gap. *)
Lemma gaps_after_eq a b end_ r ds1 adj ds2 f' :
  a < b → b = Z.min end_ (End_ sg) → Start sg < b →
  (r = true ∧ a < Start sg) ∨ (r = false ∧ Start sg ≤ a) →
  Forall (λ g, End_ g < a) pre.*2 →
  adjustStartGap (pre ++ (i, sg) :: rest) i sg a end_ r = (ds1, adj) →
  adjustEndGap ds1 f i i true adj (End_ sg) (End_ sg) b = (ds2, f') →
  ds2.*2 = (pre ++ (i, sg) :: rest).*2 ≫= sub_gap a b ∧ ids_ok ds2 f'.
Proof.
  intros Hab Hb HSb Hr Hpre. rewrite adjustStartGap_eq.
  destruct (ids_ok_mid _ _ _ _ _ Hids) as (Hi1&Hi2&_).
  pose proof Hasc as Hasc'. rewrite fmap_app in Hasc'.
  apply gaps_asc_split in Hasc' as (_&Hsg&Hrest&_).
  assert (Forall (λ g, b ≤ Start g) rest.*2) as Hrest'.
  { eapply Forall_impl; [exact Hrest|]. cbn. lia. }
  rewrite (sub_gaps_around a b _ Hab Hpre Hrest' eq_refl). unfold sub_gap, adjustEndGap.
  destruct (Z.leb_spec a (Start sg)) as [Ha|Ha].
  - rewrite (proj2 (Z.ltb_ge (Start sg) _)) by lia.
    destruct (Z.leb_spec (End_ sg) end_).
    + rewrite (proj2 (Z.ltb_ge (Z.max _ _) _)) by lia. intros [= <- <-].
      rewrite (proj2 (Z.eqb_eq b _)) by lia. cbn. intros [= <- <-].
      rewrite fmap_app. split; [done|apply ids_without].
    + rewrite (proj2 (Z.ltb_lt (Z.max _ _) _)) by lia. intros [= <- <-].
      rewrite (proj2 (Z.eqb_neq b _)) by lia. cbn. intros [= <- <-].
      rewrite fmap_app. cbn. rewrite Z.max_l by lia. split; [|apply ids_with].
      do 3 f_equal. lia.
  - destruct Hr as [?|[-> _]]; [lia|]. cbn [negb].
    rewrite (proj2 (Z.ltb_lt (Start sg) _)), Z.min_l by lia. intros [= <- <-].
    destruct (Z.eqb_spec b (End_ sg)) as [->|Hne]; cbn.
    + intros [= <- <-]. rewrite (proj2 (Z.ltb_ge _ _)) by lia.
      rewrite fmap_app. split; [done|apply ids_with].
    + rewrite dl_insert_after_mid by done. intros [= <- <-].
      rewrite (proj2 (Z.ltb_lt (Z.max _ _) _)), Z.max_l by lia.
      rewrite fmap_app. split; [done|apply ids_fresh].
Qed.

(** The frame reaches from [sg] to a later gap [eg]. *)
Lemma gaps_after_neq mids j eg post a b end_ r ds1 adj :
  rest = mids ++ (j, eg) :: post → Start eg ≤ b ≤ End_ eg → b ≤ end_ →
  (r = true ∧ a < Start sg) ∨ (r = false ∧ Start sg ≤ a < End_ sg) ∨ (r = true ∧ a = End_ sg) →
  Forall (λ g, End_ g < a) pre.*2 → Forall (λ g, b ≤ Start g) post.*2 →
  adjustStartGap (pre ++ (i, sg) :: rest) i sg a end_ r = (ds1, adj) →
  ∃ L, ds1 = (pre ++ L) ++ mids ++ (j, eg) :: post ∧
    ids_ok ((pre ++ L) ++ mids ++ (j, eg) :: post) f ∧
    ∀ ds2 f', adjustEndGap ((pre ++ L) ++ (j, eg) :: post) f i j false adj (End_ sg) (End_ eg) b
              = (ds2, f') →
      ds2.*2 = (pre ++ (i, sg) :: rest).*2 ≫= sub_gap a b ∧ ids_ok ds2 f'.
Proof.
  intros Hrest Hb Hend Hr Hpre Hpost. rewrite adjustStartGap_eq, Hrest.
  pose proof Hasc as Hasc'. rewrite Hrest, fmap_app in Hasc'. cbn in Hasc'.
  apply gaps_asc_split in Hasc' as (H1&Hsg&H2&Hasc2). rewrite fmap_app in H2, Hasc2. cbn in H2, Hasc2.
  apply gaps_asc_split in Hasc2 as (H3&Heg&H4&_).
  assert (a < b) as Hab by lia.
  set (L := if Start sg <? Z.min a (End_ sg)
            then [(i, mkByteInterval (Start sg) (Z.min a (End_ sg)))] else []).
  assert (L.*2 = sub_gap a b sg) as HL.
  { unfold L, sub_gap. rewrite (proj2 (Z.ltb_ge (Z.max _ _) _)) by lia. by zcase. }
  intros Hadj. assert (ds1 = (pre ++ L) ++ mids ++ (j, eg) :: post) as ->.
  { unfold L. destruct (Z.leb_spec a (Start sg)).
    - rewrite (proj2 (Z.leb_le _ _)) in Hadj by lia. rewrite (proj2 (Z.ltb_ge _ _)) by lia.
      rewrite app_nil_r. congruence.
    - rewrite (proj2 (Z.ltb_lt _ _)) by lia. rewrite <-app_assoc.
      destruct Hr as [?|[[-> ?]|[-> ->]]]; [lia|..]; cbn in Hadj; injection Hadj as <- _; do 3 f_equal.
      + by rewrite Z.min_l by lia.
      + rewrite Z.min_id. by destruct sg. }
  assert (ids_ok ((pre ++ L) ++ mids ++ (j, eg) :: post) f) as HidsL.
  { rewrite <-Hrest, <-app_assoc. unfold L. zcase; [apply ids_with|apply ids_without]. }
  exists L. split_and!; [done..|]. intros ds2 f'. unfold adjustEndGap. cbn [negb andb].
  assert (ids_ok ((pre ++ L) ++ (j, eg) :: post) f) as HidsE.
  { eapply ids_ok_sub; [|done]. rewrite !fmap_app. apply sublist_app; [done|].
    by apply sublist_inserts_l. }
  destruct (ids_ok_mid _ _ _ _ _ HidsE) as (Hj1&Hj2&_).
  rewrite dl_remove_mid, dl_set_mid by done.
  assert ((pre ++ (i, sg) :: mids ++ (j, eg) :: post).*2 ≫= sub_gap a b =
    (pre ++ L).*2 ++ sub_gap a b eg ++ post.*2) as ->.
  { rewrite !fmap_app. cbn. rewrite !fmap_app. cbn. rewrite !bind_app. cbn. rewrite bind_app. cbn.
    rewrite HL, (sub_gaps_filled a b mids.*2), (sub_gaps_before a b pre.*2), (sub_gaps_after a b post.*2), <-!app_assoc;
      try done; rewrite Forall_forall in *; intros g Hg.
    - specialize (H4 g Hg). specialize (Hpost g Hg). cbn in *. lia.
    - specialize (H1 g Hg). specialize (Hpre g Hg). cbn in *. lia.
    - specialize (H3 g Hg). cbn in *. lia. }
  unfold sub_gap. rewrite (proj2 (Z.ltb_ge (Start eg) _)) by lia.
  destruct (Z.eqb_spec b (End_ eg)) as [->|Hne]; intros [= <- <-].
  - rewrite (proj2 (Z.ltb_ge _ _)) by lia. rewrite fmap_app. split; [done|].
    eapply ids_ok_sub; [|exact HidsE]. rewrite !fmap_app. apply sublist_app; [done|].
    by apply sublist_cons.
  - rewrite (proj2 (Z.ltb_lt _ _)), Z.max_l by lia. rewrite fmap_app. split; [done|].
    unfold ids_ok in *. by rewrite fmap_app in *.
Qed.
End gaps_after.

(** ** Inserting a frame *)
Lemma dl_front_app ds d ds' : dl_front (ds ++ d :: ds') = dl_front (ds ++ [d]).
Proof. by destruct ds. Qed.

Lemma cutStart_spec data start sg (r cut : bool) a :
  a = (if r then start else Z.max start (Start sg)) → a < start + len data →
  ∃ cut', cutStart data start sg (Start sg <=? start) r cut =
        Ok (drop (Z.to_nat (a - start)) data, a, cut').
Proof.
  intros -> Ha. unfold cutStart. destruct r; cbn [negb]; rewrite ?andb_false_r, ?andb_true_r.
  { rewrite Z.sub_diag. by exists cut. }
  destruct (Z.leb_spec (Start sg) start) as [Hle|Hgt]; cbn [negb].
  - rewrite Z.max_l, Z.sub_diag by lia. by exists cut.
  - rewrite Z.max_r in * by lia. unfold slice_from.
    rewrite (proj2 (Z.leb_le 0 _)), (proj2 (Z.leb_le _ (len data))) by lia. by eexists.
Qed.

Lemma cutEnd_spec data a end_ eend (cut : bool) :
  len data = end_ - a → a < eend →
  ∃ cut', cutEnd data a end_ eend (end_ <? eend) cut =
        Ok (take (Z.to_nat (Z.min end_ eend - a)) data, Z.min end_ eend, cut').
Proof.
  intros Hlen Ha. unfold cutEnd. rewrite (proj2 (Z.eqb_neq a eend)) by lia. cbn [negb].
  rewrite andb_true_r. destruct (Z.ltb_spec end_ eend) as [Hlt|Hge]; cbn [negb andb].
  - rewrite Z.min_l, take_ge by (unfold len in *; lia). by exists cut.
  - rewrite Z.min_r by lia. destruct (Z.ltb_spec eend end_).
    + unfold slice_to. rewrite (proj2 (Z.leb_le 0 _)), (proj2 (Z.leb_le _ (len data))) by lia.
      by eexists.
    + rewrite take_ge by (unfold len in *; lia). assert (end_ = eend) as -> by lia. by exists cut.
Qed.

(** A frame is stored as its part [[a, b)], which contains all of its new data. *)
Definition stores (s : frameSorter) (data : list byte) (offset : Z) (cb : option Z)
    (out : frameSorter * list Z * option error) : Prop :=
  ∃ a b ds f c wasCut,
    out = storeFrame s ds f (without (queue s) a b)
            (take (Z.to_nat (b - a)) (drop (Z.to_nat (a - offset)) data)) a wasCut cb c ∧
    offset ≤ a < b ∧ readPos s ≤ a ∧ b ≤ offset + len data ∧
    edge (queue s) a ∧ edge (queue s) b ∧
    callbacks (queue s) ≡ₚ c ++ callbacks (without (queue s) a b) ∧
    ds.*2 = (gaps s).*2 ≫= sub_gap a b ∧ ids_ok ds f ∧
    ∀ x, offset ≤ x < offset + len data → in_gap (gaps s).*2 x → a ≤ x < b.

Lemma edge_sub q q' x : q' ⊆ q → edge q x → edge q' x.
Proof. intros Hs He p e Hp. apply He. by eapply lookup_weaken. Qed.

Lemma island_without q u w t v : island q u w → v ≤ u → island (without q t v) u w.
Proof.
  intros [He Hle Hc Hw] Hv. split; [|done|..].
  - by eapply edge_sub; [apply without_sub|].
  - intros x Hx. apply (covered_without q t v u); [done|lia|auto].
  - by rewrite (covered_without q t v u) by (done || lia).
Qed.

Section insert.
Variables (s : frameSorter) (data : list byte) (offset : Z) (cb : option Z).
Variables (pre : list (loc * byteInterval)) (i : loc) (sg : byteInterval)
  (rest : list (loc * byteInterval)).
Hypothesis Hinv : sorter_inv s.
Hypothesis Hgaps : gaps s = pre ++ (i, sg) :: rest.
Hypothesis Hpre : Forall (λ g, End_ g < offset) pre.*2.
Hypothesis Hsg : offset ≤ End_ sg.
Hypothesis HE : Start sg < offset + len data.
Hypothesis Hlen : 0 < len data.

Let q := queue s.
Let E := offset + len data.

Lemma sg_in : sg ∈ (gaps s).*2.
Proof. rewrite Hgaps, fmap_app. set_solver. Qed.

Lemma insert_ids : ids_ok (pre ++ (i, sg) :: rest) (fresh s).
Proof. rewrite <-Hgaps. split; apply Hinv. Qed.

Lemma insert_asc : gaps_asc (readPos s) (pre ++ (i, sg) :: rest).*2.
Proof. rewrite <-Hgaps. apply Hinv. Qed.

Lemma sg_bounds : readPos s ≤ Start sg < End_ sg.
Proof.
  pose proof insert_asc as Hasc. rewrite fmap_app in Hasc.
  by apply gaps_asc_split in Hasc as (_&?&_).
Qed.

(** The frame starts in the gap [sg] ([r] is [false]) or at an entry in front of
    it, which was replaced. *)
Definition starts_at (r : bool) (q1 : gmap Z frameSorterEntry) : Prop :=
  (r = true ∧ readPos s ≤ offset < Start sg ∧ edge q offset ∧
    q1 = without q offset (Start sg)) ∨
  (r = false ∧ offset < End_ sg ∧ q1 = q).

Lemma insert_eq r q1 c cut :
  Forall (λ g, E < Start g) rest.*2 → starts_at r q1 → callbacks q ≡ₚ c ++ callbacks q1 →
  ∃ out, insertFrame s cb i i sg sg (Start sg <=? offset) (E <? End_ sg) offset q1 r c data E cut
         = Ok out ∧ stores s data offset cb out.
Proof.
  intros Hrest Hst Hc. pose proof sg_bounds as Hb.
  set (a := if r then offset else Z.max offset (Start sg)). set (b := Z.min E (End_ sg)).
  assert (offset ≤ a < b ∧ Start sg < b ≤ E) as [Hab HSb].
  { unfold a, b. fold E in HE. destruct Hst as [(->&?&_)|(->&?&_)]; lia. }
  assert (q1 = without q a b) as ->.
  { pose proof (inv_no_keys s Hinv sg) as Hnk. destruct Hst as [(->&?&_& ->)|(->&?& ->)]; unfold a.
    - apply without_extend_right; [lia|]. apply Hnk; [apply sg_in|lia..].
    - symmetry. apply without_nothing. apply Hnk; [apply sg_in|lia..]. }
  unfold insertFrame. destruct (cutStart_spec data offset sg r cut a eq_refl) as [cut1 ->]; [lia|].
  cbn [mbind result_bind]. rewrite bool_decide_true by done. cbn [negb].
  destruct (adjustStartGap (gaps s) i sg a E r) as [ds1 adj] eqn:Hadj.
  unfold deleteCovered. cbn [negb mbind result_bind].
  destruct (cutEnd_spec (drop (Z.to_nat (a - offset)) data) a E (End_ sg) cut1) as [cut2 Hcut];
    [unfold E in *; rewrite len_drop by lia; lia|lia|].
  rewrite Hcut. cbn [mbind result_bind]. fold b.
  destruct (adjustEndGap ds1 (fresh s) i i true adj (End_ sg) (End_ sg) b) as [ds2 f] eqn:Hend.
  rewrite Hgaps in Hadj. eapply (gaps_after_eq _ _ _ _ _ _ insert_ids insert_asc a b) in Hend
    as [Hds Hids]; [|lia|done|lia|..|exact Hadj].
  2: { destruct Hst as [(->&?&_)|(->&?&_)]; unfold a; [left|right]; split; done || lia. }
  2: { eapply Forall_impl; [exact Hpre|]. cbn. lia. }
  eexists. split; [done|]. exists a, b, ds2, f, c, cut2.
  rewrite Hgaps. split_and!; try done; try (unfold E in *; lia).
  - unfold a. destruct Hst as [(->&?&_)|(->&?&_)]; lia.
  - destruct Hst as [(->&?&?&_)|(->&?&_)]; [done|]. apply uncovered_edge.
    apply (inv_uncovered s Hinv sg); [apply sg_in|unfold a; lia].
  - destruct (decide (b = End_ sg)) as [->|].
    + apply (inv_edge_end s Hinv), sg_in.
    + apply uncovered_edge, (inv_uncovered s Hinv sg); [apply sg_in|lia].
  - intros x Hx Hin. rewrite fmap_app in Hin. apply in_gap_app in Hin. cbn in Hin.
    rewrite Forall_forall in Hpre, Hrest.
    destruct Hin as [(g'&Hg'&?)%Exists_exists|[?|(g'&Hg'&?)%Exists_exists]%Exists_cons].
    + specialize (Hpre g' Hg'). cbn in *. lia.
    + unfold a, b. fold E in Hx. destruct r; lia.
    + specialize (Hrest g' Hg'). cbn in *. unfold E in *. lia.
Qed.

(** The gaps that the frame does not reach. *)
Lemma not_in_gaps x :
  offset ≤ x < E → Forall (λ g, E ≤ Start g) rest.*2 → End_ sg ≤ x → ¬ in_gap (gaps s).*2 x.
Proof.
  intros Hx Hrest HSx Hin. rewrite Hgaps, fmap_app in Hin. apply in_gap_app in Hin. cbn in Hin.
  rewrite Forall_forall in Hpre, Hrest.
  destruct Hin as [(g'&Hg'&?)%Exists_exists|[?|(g'&Hg'&?)%Exists_exists]%Exists_cons].
  - specialize (Hpre g' Hg'). cbn in *. lia.
  - lia.
  - specialize (Hrest g' Hg'). cbn in *. lia.
Qed.

(** The frame starts at the end of a gap and was cut at the entry at [pos]. *)
Lemma insert_cut pos c :
  Forall (λ g, E < Start g) rest.*2 → offset = End_ sg → offset < pos ≤ E → edge q pos →
  callbacks q ≡ₚ c ++ callbacks (without q offset pos) →
  ∃ out, insertFrame s cb i i sg sg (Start sg <=? offset) (E <? End_ sg) offset
           (without q offset pos) true c (take (Z.to_nat (pos - offset)) data) pos true
         = Ok out ∧ stores s data offset cb out.
Proof.
  intros Hrest Hoff Hpos Hedge Hc. pose proof sg_bounds as Hb.
  unfold insertFrame. rewrite bool_decide_true by done.
  unfold cutStart, deleteCovered, cutEnd. cbn [negb]. rewrite andb_false_r.
  cbn [mbind result_bind]. rewrite Hgaps, (adjustStartGap_eq _ _ _ _ _ insert_ids).
  rewrite (proj2 (Z.leb_gt offset _)) by lia. cbn [negb mbind result_bind].
  rewrite (proj2 (Z.eqb_eq offset _)) by done. cbn [negb]. rewrite andb_false_r. cbn [andb].
  cbn [mbind result_bind]. unfold adjustEndGap. rewrite (proj2 (Z.eqb_neq pos _)) by lia. cbn.
  eexists. split; [done|]. exists offset, pos, (gaps s), (fresh s), c, true.
  rewrite Z.sub_diag, <-Hgaps. unfold E in *. split_and!; try done; try lia.
  - rewrite Hoff. apply (inv_edge_end s Hinv), sg_in.
  - symmetry. pose proof insert_asc as Hasc. rewrite <-Hgaps in Hasc.
    rewrite Hgaps, fmap_app, bind_app in *. cbn in *.
    apply gaps_asc_split in Hasc as (H1&_&H2&_).
    rewrite (sub_gap_before _ _ sg), (sub_gaps_before _ _ pre.*2), (sub_gaps_after _ _ rest.*2);
      try done; try lia; rewrite Forall_forall in *; intros g Hg.
    + specialize (H2 g Hg). specialize (Hrest g Hg). cbn in *. lia.
    + specialize (H1 g Hg). specialize (Hpre g Hg). cbn in *. lia.
  - rewrite Hgaps. apply insert_ids.
  - intros x Hx Hin. exfalso. eapply not_in_gaps; [exact Hx|..|exact Hin]; [|lia].
    eapply Forall_impl; [exact Hrest|]. cbn. unfold E. lia.
Qed.

Section neq.
Variables (mids : list (loc * byteInterval)) (j : loc) (eg : byteInterval)
  (post : list (loc * byteInterval)).
Hypothesis Hrest : rest = mids ++ (j, eg) :: post.
Hypothesis Heg : Start eg ≤ E.
Hypothesis Hpost : Forall (λ g, E < Start g) post.*2.
Hypothesis HM : E < MaxByteCount.

Let n := first_start mids eg.

Lemma neq_asc :
  gaps_asc (End_ sg + 1) (mids ++ [(j, eg)]).*2 ∧ End_ sg < n ≤ Start eg ∧ Start eg < End_ eg ∧
  Forall (λ g, End_ eg < Start g) post.*2.
Proof.
  pose proof insert_asc as Hasc. rewrite Hrest in Hasc.
  assert ((pre ++ (i, sg) :: mids ++ (j, eg) :: post).*2 =
    pre.*2 ++ sg :: mids.*2 ++ eg :: post.*2) as Heq by (rewrite fmap_app; cbn; by rewrite fmap_app).
  rewrite Heq in Hasc. apply gaps_asc_split in Hasc as (_&_&_&Hasc).
  rewrite fmap_app. pose proof Hasc as (_&?&Hp&_)%gaps_asc_split.
  assert (gaps_asc (End_ sg + 1) (mids.*2 ++ [eg])) as Hasc'.
  { rewrite (cons_middle eg), app_assoc in Hasc. by apply gaps_asc_app in Hasc as [? _]. }
  split; [done|]. change (mids.*2 ++ [eg]) with (mids.*2 ++ [(j, eg)].*2) in Hasc'.
  rewrite <-fmap_app in Hasc'.
  apply first_start_in in Hasc' as (Hn&_). fold n in Hn. split_and!; try lia.
  eapply Forall_impl; [exact Hp|]. cbn. lia.
Qed.

Lemma neq_island : island q (End_ sg) n.
Proof.
  destruct neq_asc as (Hasc&Hn&_). pose proof sg_bounds as Hb.
  assert (∃ g gs2, rest.*2 = g :: gs2 ∧ Start g = n) as (g&gs2&Hr&<-).
  { rewrite Hrest. unfold n. destruct mids as [|[]]; cbn; eauto. }
  apply (inv_island s Hinv (pre.*2 ++ [sg]) g gs2).
  - by rewrite Hgaps, fmap_app, <-app_assoc, <-Hr.
  - apply Forall_app. split; [|by apply Forall_cons; split; [lia|]].
    eapply Forall_impl; [exact Hpre|]. cbn. lia.
  - lia.
  - apply (inv_edge_end s Hinv), sg_in.
Qed.

(** The data behind [sg] is deleted, up to the next gap. *)
Lemma delete_first r q1 a :
  (starts_at r q1 ∧ a = if r then offset else Z.max offset (Start sg)) ∨
  (r = true ∧ offset = End_ sg ∧ a = offset ∧ q1 = without q offset n) →
  ∃ c, deleteConsecutive q1 (End_ sg) = Ok (without q a n, c) ∧
    callbacks q1 ≡ₚ c ++ callbacks (without q a n).
Proof.
  intros Hst. pose proof neq_island as Hisl. pose proof sg_bounds as Hb.
  destruct neq_asc as (_&Hn&_). pose proof (inv_queue s Hinv) as Hq. fold q in Hq.
  assert (no_keys q (Z.max offset (Start sg)) (End_ sg)) as Hnk.
  { apply (inv_no_keys s Hinv sg); [apply sg_in|lia..]. }
  assert (no_keys q (Start sg) (End_ sg)) as Hnk'.
  { apply (inv_no_keys s Hinv sg); [apply sg_in|lia..]. }
  destruct Hst as [[[(->&?&_& ->)|(->&?& ->)] ->]|(->&Hoff& ->& ->)].
  - destruct (deleteConsecutive_spec (without q offset (Start sg)) (End_ sg) n) as (c&Hd&Hc).
    { eapply queue_ok_sub; [apply without_sub|done]. }
    { by apply island_without; [|lia]. }
    exists c. rewrite (without_extend_right q offset (Start sg) (End_ sg)) in Hd, Hc |- * by (done || lia).
    rewrite without_without in Hd, Hc by lia. done.
  - destruct (deleteConsecutive_spec q (End_ sg) n Hq Hisl) as (c&Hd&Hc). exists c.
    rewrite (without_extend_left q (Z.max offset (Start sg)) (End_ sg) n) in Hd, Hc
      by (done || lia). done.
  - rewrite <-Hoff. destruct (deleteConsecutive_spec (without q offset n) offset offset) as (c&Hd&Hc).
    { eapply queue_ok_sub; [apply without_sub|done]. }
    { split; [|lia..|].
      - rewrite Hoff. eapply edge_sub; [apply without_sub|]. apply (inv_edge_end s Hinv), sg_in.
      - intros (p&e&[Hp Hp']%lookup_without_Some&Hx).
        assert (p ≠ offset) by lia.
        pose proof (inv_edge_end s Hinv sg sg_in p e Hp). lia. }
    exists c. rewrite (without_nothing (without q offset n) offset offset) in Hd, Hc by lia. done.
Qed.

Lemma neq_gaps : (gaps s).*2 = pre.*2 ++ sg :: (mids ++ [(j, eg)]).*2 ++ post.*2.
Proof. rewrite Hgaps, Hrest, !fmap_app. cbn. rewrite fmap_app. cbn. by rewrite <-app_assoc. Qed.

(** A position of the frame that is in a gap is between [sg] and [eg]. *)
Lemma neq_in_gap x :
  offset ≤ x < E → in_gap (gaps s).*2 x → Start sg ≤ x < End_ eg.
Proof.
  intros Hx Hin. destruct neq_asc as (Hasc&Hn&Heb&Hp). pose proof sg_bounds as Hb.
  rewrite neq_gaps, in_gap_app in Hin. rewrite Forall_forall in *.
  destruct Hin as [(g'&Hg'&?)%Exists_exists|[?|Hin]%Exists_cons].
  - specialize (Hpre g' Hg'). cbn in *. lia.
  - lia.
  - apply Exists_app in Hin as [Hin|(g'&Hg'&?)%Exists_exists].
    + pose proof (first_start_in _ _ _ _ Hasc) as (_&_&Hbefore). fold n in Hbefore.
      assert (n ≤ x) by (destruct (decide (x < n)); [by destruct (Hbefore x)|lia]).
      rewrite fmap_app in Hasc, Hin. cbn in Hasc, Hin. apply gaps_asc_split in Hasc as (Hm&_).
      rewrite Forall_forall in Hm.
      apply Exists_app in Hin as [(g'&Hg'&?)%Exists_exists|[?|?%Exists_nil]%Exists_cons]; [|lia|done].
      specialize (Hm g' Hg'). cbn in *. lia.
    + specialize (Hpost g' Hg'). cbn in *. lia.
Qed.

(** The coverage between [sg] and [eg] after the first deletion. *)
Lemma neq_coverage a x :
  n ≤ x ≤ Start eg → covered (without q a n) x ↔ ¬ in_gap (mids ++ [(j, eg)]).*2 x.
Proof.
  intros Hx. destruct neq_asc as (Hasc&Hn&Heb&Hp). pose proof sg_bounds as Hb.
  rewrite (covered_without q a n n); [|by eapply uncovered_edge, island_end, neq_island|lia].
  unfold q. rewrite (inv_cover s Hinv).
  assert (in_gap (gaps s).*2 x ↔ in_gap (mids ++ [(j, eg)]).*2 x) as ->; [|intuition lia].
  rewrite neq_gaps.
  assert (¬ in_gap pre.*2 x ∧ ¬ in_gap post.*2 x) as [??].
  { split; intros (g'&Hg'&?)%Exists_exists; rewrite Forall_forall in *.
    - specialize (Hpre g' Hg'). cbn in *. lia.
    - specialize (Hp g' Hg'). cbn in *. lia. }
  rewrite in_gap_app.
  assert (∀ gs, in_gap (sg :: gs) x ↔ Start sg ≤ x < End_ sg ∨ in_gap gs x) as ->
    by (intros; apply Exists_cons).
  rewrite in_gap_app. intuition lia.
Qed.

(** Where the frame starts, also when it replaced all data between [sg] and the
    next gap. *)
Definition starts_before (r : bool) (q1 : gmap Z frameSorterEntry) : Prop :=
  starts_at r q1 ∨ (r = true ∧ offset = End_ sg ∧ q1 = without q offset n).

Lemma deleteCovered_neq r q1 c L a b :
  starts_before r q1 → a = (if r then offset else Z.max offset (Start sg)) →
  Start eg ≤ b ≤ End_ eg → a ≤ End_ sg → callbacks q ≡ₚ c ++ callbacks q1 →
  ids_ok ((pre ++ L) ++ mids ++ (j, eg) :: post) (fresh s) →
  ∃ c', deleteCovered ((pre ++ L) ++ mids ++ (j, eg) :: post) q1 false (End_ sg)
          (dl_next (gaps s) i) (Start eg) c = Ok ((pre ++ L) ++ (j, eg) :: post, without q a b, c') ∧
    callbacks q ≡ₚ c' ++ callbacks (without q a b).
Proof.
  intros Hst Ha Hb Hae Hc HidsL. destruct neq_asc as (Hasc&Hn&Heb&Hp).
  destruct (delete_first r q1 a) as (c1&Hdel&Hc1).
  { destruct Hst as [?|(->&?& ->)]; [by left|by right]. }
  destruct (ids_ok_mid _ _ _ _ _ insert_ids) as (Hi1&_&_).
  unfold deleteCovered. cbn [negb]. rewrite Hdel. cbn [mbind result_bind].
  assert (dl_next (gaps s) i = dl_front (mids ++ [(j, eg)])) as ->.
  { rewrite Hgaps, dl_next_mid, Hrest by done. apply dl_front_app. }
  destruct (removeGaps_spec mids (pre ++ L) j eg post (End_ sg + 1)
    (length ((pre ++ L) ++ mids ++ (j, eg) :: post)) (without q a n) (c ++ c1)) as (c2&Hrm&Hc2);
    [apply HidsL|done|..].
  { eapply queue_ok_sub; [apply without_sub|apply (inv_queue s Hinv)]. }
  { intros x Hx. by apply neq_coverage. }
  { rewrite !length_app. lia. }
  fold n in Hrm, Hc2. rewrite without_without in Hrm, Hc2 by lia.
  assert (without q a (Start eg) = without q a b) as Hw.
  { apply without_extend_right; [lia|]. apply (inv_no_keys s Hinv eg); [|lia..].
    rewrite Hgaps, Hrest, fmap_app. cbn. rewrite fmap_app. set_solver. }
  rewrite Hw in Hrm, Hc2.
  exists ((c ++ c1) ++ c2). split; [done|]. by rewrite Hc, Hc1, Hc2, !app_assoc.
Qed.

Lemma insert_neq r q1 c cut :
  starts_before r q1 → callbacks q ≡ₚ c ++ callbacks q1 →
  ∃ out, insertFrame s cb i j sg eg (Start sg <=? offset) (E <? End_ eg) offset q1 r c data E cut
         = Ok out ∧ stores s data offset cb out.
Proof.
  intros Hst Hc. pose proof sg_bounds as Hb. destruct neq_asc as (Hasc&Hn&Heb&Hp).
  assert (eg ∈ (gaps s).*2) as Hegin.
  { rewrite Hgaps, Hrest, fmap_app. cbn. rewrite fmap_app. set_solver. }
  set (a := if r then offset else Z.max offset (Start sg)). set (b := Z.min E (End_ eg)).
  assert (offset ≤ a ≤ End_ sg ∧ Start eg ≤ b ≤ End_ eg ∧ b ≤ E) as (Ha&HSb&HbE).
  { unfold a, b. destruct Hst as [[(->&?&_)|(->&?&_)]|(->&?&_)]; lia. }
  pose proof insert_ids as Hids. destruct (ids_ok_mid _ _ _ _ _ Hids) as (Hi1&Hi2&_).
  assert (i ≠ j) as Hij by (intros ->; apply Hi2; rewrite Hrest, fmap_app; set_solver).
  unfold insertFrame. destruct (cutStart_spec data offset sg r cut a eq_refl) as [cut1 ->];
    [unfold E in *; lia|].
  cbn [mbind result_bind]. rewrite bool_decide_false by done.
  destruct (adjustStartGap (gaps s) i sg a E r) as [ds1 adj] eqn:Hadj.
  rewrite Hgaps in Hadj.
  destruct (gaps_after_neq _ _ _ _ _ _ Hids insert_asc mids j eg post a b E r ds1 adj)
    as (L&->&HidsL&Hfin); try done.
  { destruct Hst as [[(->&?&_)|(->&?&_)]|(->&?&_)]; unfold a; [left|right; left|right; right];
      split; done || lia. }
  { eapply Forall_impl; [exact Hpre|]. cbn. lia. }
  { eapply Forall_impl; [exact Hp|]. cbn. lia. }
  destruct (deleteCovered_neq r q1 c L a b) as (c'&->&Hc'); try done; try lia.
  cbn [mbind result_bind].
  destruct (cutEnd_spec (drop (Z.to_nat (a - offset)) data) a E (End_ eg) cut1) as [cut2 ->];
    [unfold E in *; rewrite len_drop by lia; lia|lia|]. cbn [mbind result_bind]. fold b.
  destruct (adjustEndGap _ (fresh s) i j false adj (End_ sg) (End_ eg) b) as [ds2 f].
  destruct (Hfin ds2 f eq_refl) as [Hds Hids2]. eexists. split; [done|].
  exists a, b, ds2, f, c', cut2. rewrite <-Hgaps in Hds.
  split_and!; try done; try (unfold E in *; lia).
  - unfold a. destruct Hst as [[(->&?&_)|(->&?&_)]|(->&?&_)]; lia.
  - destruct Hst as [[(->&?&?&_)|(->&?&_)]|(->&Hoff&_)]; [done|..].
    + apply uncovered_edge, (inv_uncovered s Hinv sg); [apply sg_in|unfold a; lia].
    + unfold a. rewrite Hoff. apply (inv_edge_end s Hinv), sg_in.
  - destruct (decide (b = End_ eg)) as [->|]; [by apply (inv_edge_end s Hinv)|].
    apply uncovered_edge, (inv_uncovered s Hinv eg); [done|lia].
  - intros x Hx Hin. pose proof (neq_in_gap x Hx Hin). unfold a, b. fold E in Hx. destruct r; lia.
Qed.
End neq.

(** ** The cases of [push] after the gaps are found *)
Section located.
Variables (l1 : list (loc * byteInterval)) (j : loc) (eg : byteInterval)
  (l2 : list (loc * byteInterval)).
Hypothesis Hl : (i, sg) :: rest = l1 ++ (j, eg) :: l2.
Hypothesis Heg : Start eg ≤ E.
Hypothesis Hl2 : Forall (λ g, E < Start g) l2.*2.
Hypothesis Hoff : 0 ≤ offset.
Hypothesis HM : E < MaxByteCount.

(** What the rest of [push] returns for the outcome of the loop. *)
Definition push_result (outcome : replace_outcome) : res (frameSorter * list Z * option error) :=
  let insert := insertFrame s cb i j sg eg (Start sg <=? offset) (E <? End_ eg) offset in
  match outcome with
  | Duplicate => Ok (s, [], Some errDuplicateStreamData)
  | Replaced q replaced called => insert q replaced called data E false
  | CutAt q pos called => data ← slice_to data (pos - offset); insert q true called data pos true
  end.

Definition push_done (m : res (frameSorter * list Z * option error)) : Prop :=
  (m = Ok (s, [], Some errDuplicateStreamData) ∧
    ∀ x, offset ≤ x < E → ¬ in_gap (gaps s).*2 x) ∨
  ∃ out, m = Ok out ∧ stores s data offset cb out.

Lemma insert_any r q1 c :
  starts_at r q1 → callbacks q ≡ₚ c ++ callbacks q1 → push_done (push_result (Replaced q1 r c)).
Proof.
  intros Hst Hc. right. unfold push_result.
  destruct l1 as [|d mids]; cbn in Hl.
  - injection Hl as <- <- Hr. apply insert_eq; [|done..]. by rewrite Hr.
  - injection Hl as _ Hr. apply (insert_neq mids j eg l2); try done. by left.
Qed.

Lemma offset_entry e : q !! offset = Some e → edge q offset ∧ readPos s ≤ offset ∧ covered q offset.
Proof.
  intros He. pose proof (inv_queue s Hinv) as Hq.
  assert (covered q offset) as Hc.
  { exists offset, e. split; [done|]. pose proof (proj1 Hq _ _ He). lia. }
  pose proof Hc as [? _]%(inv_cover s Hinv). split_and!; [by eapply key_edge|lia|done].
Qed.

Lemma push_in_front e :
  q !! offset = Some e → offset < Start sg →
  ∃ outcome, replaceEntries (size q) q offset E false [] = Ok outcome ∧
    push_done (push_result outcome).
Proof.
  intros He Hlt. destruct (offset_entry e He) as (Hedge&Hpos&_).
  assert (island q offset (Start sg)) as Hisl.
  { apply (inv_island s Hinv pre.*2 sg rest.*2); [by rewrite Hgaps, fmap_app| |lia|done].
    eapply Forall_impl; [exact Hpre|]. cbn. lia. }
  destruct (replaceEntries_spec q offset (Start sg) E (inv_queue s Hinv) Hisl)
    as [[_ ?]|[(c&_&Hc&->)|(c&pos&?&?&_)]]; try (unfold E in *; lia).
  eexists. split; [done|]. apply insert_any; [|done]. by left.
Qed.

(** The frame starts at the data behind [sg]. *)
Lemma push_behind e :
  q !! offset = Some e → offset = End_ sg →
  ∃ outcome, replaceEntries (size q) q offset E false [] = Ok outcome ∧
    push_done (push_result outcome).
Proof.
  intros He Hend. destruct (offset_entry e He) as (Hedge&Hpos&_).
  assert (∃ k gn rest', rest = (k, gn) :: rest') as (k&gn&rest'&Hrest).
  { destruct rest as [|[k gn] rest'] eqn:Hr; [|eauto]. exfalso.
    destruct (inv_end s Hinv) as (gs'&gl&Heq&HlM). rewrite Hgaps, fmap_app in Heq.
    apply app_inj_tail in Heq as [_ <-]. unfold E in *. cbn in *. lia. }
  pose proof insert_asc as Hasc. rewrite Hrest, fmap_app in Hasc. cbn in Hasc.
  apply gaps_asc_split in Hasc as (_&_&_&Hasc). cbn in Hasc. destruct Hasc as [Hgn Hasc].
  apply gaps_asc_Forall in Hasc. rewrite Forall_forall in Hasc.
  assert (island q offset (Start gn)) as Hisl.
  { apply (inv_island s Hinv (pre.*2 ++ [sg]) gn rest'.*2); [| |lia|done].
    - by rewrite Hgaps, Hrest, fmap_app, <-app_assoc.
    - apply Forall_app. split; [|by apply Forall_cons; split; [lia|]].
      eapply Forall_impl; [exact Hpre|]. cbn. lia. }
  destruct (replaceEntries_spec q offset (Start gn) E (inv_queue s Hinv) Hisl)
    as [[-> ?]|[(c&?&Hc&->)|(c&pos&?&?&Hpe&Hc&->)]]; try (unfold E in *; lia);
    eexists; (split; [done|]).
  - left. split; [done|]. intros x Hx. apply not_in_gaps; [done| |lia].
    rewrite Hrest. cbn. apply Forall_cons. split; [done|]. apply Forall_forall. intros g Hg.
    specialize (Hasc g Hg). lia.
  - right. destruct l1 as [|d mids]; cbn in Hl.
    { injection Hl as <- <- Hr. rewrite <-Hr, Hrest in Hl2. cbn in Hl2.
      apply Forall_cons in Hl2 as [? _]. lia. }
    injection Hl as _ Hr. apply (insert_neq mids j eg l2); try done. right.
    assert (first_start mids eg = Start gn) as ->; [|done].
    rewrite Hrest in Hr. destruct mids as [|[]]; cbn in Hr; by simplify_eq.
  - right. unfold push_result, slice_to. destruct l1 as [|d mids]; cbn in Hl.
    + injection Hl as <- <- Hr.
      rewrite (proj2 (Z.leb_le 0 _)), (proj2 (Z.leb_le _ (len data))) by (unfold E in *; lia).
      cbn [andb mbind result_bind]. apply insert_cut; try done; try lia. by rewrite Hr.
    + injection Hl as _ Hr. exfalso. rewrite Hrest in Hr.
      destruct mids as [|[k' m] mids]; cbn in Hr; simplify_eq; [lia|].
      specialize (Hasc eg ltac:(rewrite fmap_app; set_solver)). lia.
Qed.

Lemma push_located :
  ∃ outcome, replaceEntries (size q) q offset E false [] = Ok outcome ∧
    push_done (push_result outcome).
Proof.
  pose proof sg_bounds as Hb. destruct (q !! offset) as [e|] eqn:He.
  - destruct (decide (offset < Start sg)); [by eapply push_in_front|].
    apply (push_behind e He). destruct (decide (offset = End_ sg)) as [|Hne]; [done|].
    exfalso. destruct (offset_entry e He) as (_&_&Hc). revert Hc.
    apply (inv_uncovered s Hinv sg); [apply sg_in|lia].
  - exists (Replaced q false []). split; [by destruct (size q); cbn; rewrite He|].
    apply insert_any; [|done]. right. split_and!; [done| |done].
    destruct (decide (offset = End_ sg)) as [Heq|]; [|lia]. exfalso.
    assert (edge q offset) as Hedge by (rewrite Heq; apply (inv_edge_end s Hinv), sg_in).
    destruct (edge_entry q offset Hedge) as [e He']; [|congruence].
    apply (inv_cover s Hinv). fold E in HE. split; [lia|]. pose proof insert_asc as Hasc.
    rewrite fmap_app in Hasc. cbn in Hasc. apply gaps_asc_split in Hasc as (H1&_&H2&_).
    rewrite Hgaps, fmap_app, in_gap_app. cbn. rewrite Forall_forall in *.
    intros [(g'&Hg'&?)%Exists_exists|[?|(g'&Hg'&?)%Exists_exists]%Exists_cons].
    + specialize (Hpre g' Hg'). cbn in *. lia.
    + lia.
    + specialize (H2 g' Hg'). cbn in *. lia.
Qed.
End located.
End insert.

(** ** [push] *)
Lemma front_gap s :
  sorter_inv s → ∃ i g ds, gaps s = (i, g) :: ds ∧ gap_value (gaps s) (dl_front (gaps s)) = Ok g.
Proof.
  intros Hinv. destruct (inv_end s Hinv) as (gs'&gl&Heq&_).
  destruct (gaps s) as [|[i g] ds]; [by destruct gs'|]. exists i, g, ds. split; [done|].
  cbn. by rewrite decide_True.
Qed.

(** A frame that ends before the gap behind its start is a duplicate. *)
Lemma push_before_gap s pre i sg rest end_ :
  sorter_inv s → gaps s = pre ++ (i, sg) :: rest → end_ ≤ Start sg →
  (∀ i' g ds, gaps s = (i', g) :: ds → Start g < end_) →
  ∃ j eg b, findEndGap (gaps s) (Some i) end_ = Ok (Some j, b) ∧
    gap_value (gaps s) (Some j) = Ok eg ∧
    (bool_decide (i = j) && (end_ <=? Start sg)) ||
    (negb (bool_decide (i = j)) && (Start eg <=? End_ sg) && (end_ <=? Start sg)) = true.
Proof.
  intros Hinv Hg Hend Hfront.
  assert (ids_ok (pre ++ (i, sg) :: rest) (fresh s)) as Hids by (rewrite <-Hg; split; apply Hinv).
  destruct (ids_ok_mid _ _ _ _ _ Hids) as (Hi1&_&_).
  pose proof (inv_asc s Hinv) as Hasc. rewrite Hg, fmap_app in Hasc. cbn in Hasc.
  apply gaps_asc_split in Hasc as (H1&Hsg&_).
  unfold findEndGap. rewrite Hg, elements_from_mid by done. cbn [findEndGap_loop].
  destruct (decide (end_ = Start sg)) as [->|Hne].
  - rewrite (proj2 (Z.leb_le _ _)), (proj2 (Z.ltb_lt _ _)) by lia. cbn [andb].
    exists i, sg, true. cbn [gap_value]. by rewrite dl_value_mid, bool_decide_true by done.
  - rewrite (proj2 (Z.leb_gt (Start sg) end_)), (proj2 (Z.ltb_lt end_ (Start sg))) by lia.
    cbn [andb]. rewrite dl_prev_mid by done. destruct pre as [|[j eg] pre' _] using rev_ind.
    { specialize (Hfront i sg rest Hg). lia. }
    rewrite <-app_assoc in Hids |- *. destruct (ids_ok_mid _ _ _ _ _ Hids) as (Hj1&_&_).
    exists j, eg, false. unfold dl_back. rewrite last_snoc. cbn [gap_value app].
    rewrite dl_value_mid by done. split_and!; try done.
    rewrite bool_decide_false by (intros ->; apply Hi1; rewrite fmap_app; set_solver).
    rewrite fmap_app in H1. apply Forall_app in H1 as [_ [??]%Forall_cons]. cbn in *. lia.
Qed.

Lemma before_gap lo ds pre i sg rest offset end_ x :
  gaps_asc lo ds.*2 → ds = pre ++ (i, sg) :: rest → Forall (λ g, End_ g < offset) pre.*2 →
  offset ≤ x < end_ → end_ ≤ Start sg → ¬ in_gap ds.*2 x.
Proof.
  intros Hasc -> Hpre Hx Hend. rewrite fmap_app in Hasc |- *. cbn in Hasc |- *.
  apply gaps_asc_split in Hasc as (_&?&H2&_). rewrite in_gap_app, Forall_forall in *.
  intros [(g'&Hg'&?)%Exists_exists|[?|(g'&Hg'&?)%Exists_exists]%Exists_cons].
  - specialize (Hpre g' Hg'). cbn in *. lia.
  - lia.
  - specialize (H2 g' Hg'). cbn in *. lia.
Qed.

Lemma push_spec s data offset cb :
  sorter_inv s → 0 ≤ offset → offset + len data < MaxByteCount →
  push_done s data offset cb (push s data offset cb).
Proof.
  intros Hinv Hoff HM. pose proof (len_nonneg data). unfold push. zcase.
  { left. split; [done|lia]. }
  destruct (front_gap s Hinv) as (i0&g0&ds0&Hds0&->). cbn [mbind result_bind].
  unfold MaxByteCount in HM. rewrite i64_small by lia.
  pose proof (inv_asc s Hinv) as Hasc. zcase.
  { left. split; [done|]. intros x Hx (g&Hg&?)%Exists_exists.
    rewrite Hds0 in Hg, Hasc. cbn in Hg, Hasc. destruct Hasc as [? Hasc%gaps_asc_Forall].
    rewrite Forall_forall in Hasc. apply elem_of_cons in Hg as [->|Hg]; [lia|].
    specialize (Hasc g Hg). lia. }
  destruct (findStartGap_spec (gaps s) (readPos s) offset Hasc (inv_end s Hinv))
    as (pre&i&sg&rest&Hg&Hpre&Hsg&->); [unfold MaxByteCount; lia|]. cbn [mbind result_bind].
  assert (ids_ok (gaps s) (fresh s)) as Hids by (split; apply Hinv).
  pose proof Hids as Hids'. rewrite Hg in Hids'. destruct (ids_ok_mid _ _ _ _ _ Hids') as (Hi1&Hi2&_).
  assert (gap_value (gaps s) (Some i) = Ok sg) as Hvi by (cbn; by rewrite Hg, dl_value_mid).
  destruct (decide (offset + len data ≤ Start sg)) as [Hdup|Hnd].
  - destruct (push_before_gap s pre i sg rest (offset + len data)) as (j&eg&b&->&Hv&Hd); try done.
    { intros ??? Heq. rewrite Hds0 in Heq. by simplify_eq. }
    cbn [mbind result_bind]. rewrite Hvi, Hv. cbn [mbind result_bind]. rewrite Hd.
    left. split; [done|]. intros x Hx. eapply before_gap; done || lia.
  - unfold findEndGap. rewrite Hg at 1 2. rewrite elements_from_mid by done.
    pose proof (inv_end s Hinv) as Hend. rewrite Hg in Hasc, Hend.
    destruct (findEndGap_loop_spec pre i sg rest (readPos s) (offset + len data) Hasc
      (proj1 Hids') Hend) as (l1&j&eg&l2&Hl&Heg&Hl2&->); [unfold MaxByteCount; lia|].
    cbn [mbind result_bind]. rewrite Hvi. cbn [mbind result_bind].
    assert (gap_value (gaps s) (Some j) = Ok eg) as ->.
    { cbn. rewrite Hl, app_assoc in Hids'. destruct (ids_ok_mid _ _ _ _ _ Hids') as (Hj1&_&_).
      by rewrite Hg, Hl, app_assoc, dl_value_mid. }
    cbn [mbind result_bind]. rewrite (proj2 (Z.leb_gt _ (Start sg))) by lia.
    rewrite !andb_false_r. cbn [orb].
    destruct (push_located s data offset cb pre i sg rest Hinv Hg Hpre Hsg) with l1 j eg l2
      as (outcome&->&Hdone); try done; try (unfold MaxByteCount; lia); lia.
Qed.

(** ** What a successful [Push] does *)
Lemma sub_gaps_length_behind a b gs :
  Forall (λ g, a ≤ Start g) gs → (length (gs ≫= sub_gap a b) ≤ length gs)%nat.
Proof.
  induction 1 as [|g gs Hg _ IH]; [done|]. cbn. rewrite length_app.
  assert (length (sub_gap a b g) ≤ 1)%nat; [|lia]. unfold sub_gap. repeat zcase; cbn; lia.
Qed.

(** New data splits one gap at most. *)
Lemma sub_gaps_length lo a b gs :
  a < b → gaps_asc lo gs → (length (gs ≫= sub_gap a b) ≤ S (length gs))%nat.
Proof.
  intros Hab. revert lo. induction gs as [|g gs IH]; intros lo; [cbn; lia|]. cbn [gaps_asc].
  intros [Hg Hgs]. pose proof (IH _ Hgs) as IHg. apply gaps_asc_Forall in Hgs.
  cbn. rewrite length_app. destruct (decide (a ≤ End_ g)) as [Ha|Ha].
  - assert (length (gs ≫= sub_gap a b) ≤ length gs)%nat.
    { apply sub_gaps_length_behind. eapply Forall_impl; [exact Hgs|]. cbn. lia. }
    assert (length (sub_gap a b g) ≤ 2)%nat; [|lia]. unfold sub_gap. repeat zcase; cbn; lia.
  - rewrite sub_gap_before by lia. cbn. lia.
Qed.

Definition errTooManyGaps : error := ErrorString "too many gaps in received data" [].

(** [s'] is [s] with the data of a frame, and [called] are callbacks that are not
    needed any more. *)
Record pushed (s : frameSorter) (data : list byte) (offset : Z) (cb : option Z)
    (s' : frameSorter) (called : list Z) : Prop := {
  pushed_inv : sorter_inv s';
  pushed_pos : readPos s' = readPos s;
  pushed_covered : ∀ x, covered (queue s') x ↔
    covered (queue s) x ∨ readPos s ≤ x ∧ offset ≤ x < offset + len data;
  pushed_byte : ∀ x c, byte_at (queue s') x c →
    byte_at (queue s) x c ∨ offset ≤ x ∧ data !! Z.to_nat (x - offset) = Some c;
  pushed_gaps : dl_len (gaps s') ≤ dl_len (gaps s) + 1;
  pushed_callbacks : invoke cb ++ callbacks (queue s) ≡ₚ called ++ callbacks (queue s');
}.

Lemma duplicate_pushed s data offset cb :
  sorter_inv s → offset + len data < MaxByteCount →
  (∀ x, offset ≤ x < offset + len data → ¬ in_gap (gaps s).*2 x) →
  pushed s data offset cb s (invoke cb).
Proof.
  intros Hinv HM Hdup. split; [done..| |by left|lia|done]. intros x. split; [by left|].
  intros [?|[??]]; [done|]. apply (inv_cover s Hinv). split; [lia|auto].
Qed.

Section stores.
Variables (s : frameSorter) (data : list byte) (offset a b : Z) (cb : option Z)
  (ds : list (loc * byteInterval)) (f : loc) (c : list Z).
Hypothesis Hinv : sorter_inv s.
Hypothesis HM : offset + len data < MaxByteCount.
Hypothesis Hab : offset ≤ a < b.
Hypothesis Hra : readPos s ≤ a.
Hypothesis Hb : b ≤ offset + len data.
Hypothesis Hea : edge (queue s) a.
Hypothesis Heb : edge (queue s) b.
Hypothesis Hc : callbacks (queue s) ≡ₚ c ++ callbacks (without (queue s) a b).
Hypothesis Hds : ds.*2 = (gaps s).*2 ≫= sub_gap a b.
Hypothesis Hids : ids_ok ds f.
Hypothesis Hall : ∀ x, offset ≤ x < offset + len data → in_gap (gaps s).*2 x → a ≤ x < b.

Let piece := take (Z.to_nat (b - a)) (drop (Z.to_nat (a - offset)) data).

Lemma piece_len : len piece = b - a.
Proof. unfold piece. rewrite len_take; rewrite ?len_drop; lia. Qed.

Lemma stored_inv cb' :
  dl_len ds ≤ MaxStreamFrameSorterGaps →
  sorter_inv (mkFrameSorter (<[a := mkEntry piece cb']> (without (queue s) a b)) (readPos s) ds f).
Proof.
  intros Hlen. pose proof piece_len. destruct Hids as [Hnd Hf].
  pose proof (inv_asc s Hinv) as Hasc. pose proof (inv_pos s Hinv).
  split; cbn; try done.
  - rewrite Hds. apply sub_gaps_asc; [lia|done].
  - rewrite Hds. apply sub_gaps_end; [lia| |apply (inv_end s Hinv)].
    by eapply gaps_asc_weaken.
  - apply store_queue_ok; try done; [apply (inv_queue s Hinv)|lia].
  - intros x. rewrite store_covered, Hds, sub_gaps_in, (inv_cover s Hinv) by (done || lia).
    destruct (decide (a ≤ x < b)); [|tauto]. split; [|tauto]. intros _. split; [lia|tauto].
Qed.

Lemma stored_gaps : dl_len ds ≤ dl_len (gaps s) + 1.
Proof.
  pose proof (sub_gaps_length _ a b _ ltac:(lia) (inv_asc s Hinv)) as Hl. rewrite <-Hds in Hl.
  unfold dl_len, len. rewrite !length_fmap in Hl. lia.
Qed.

Lemma stored_pushed cb' called :
  dl_len ds ≤ MaxStreamFrameSorterGaps →
  invoke cb ++ c ≡ₚ called ++ invoke cb' →
  pushed s data offset cb
    (mkFrameSorter (<[a := mkEntry piece cb']> (without (queue s) a b)) (readPos s) ds f) called.
Proof.
  intros Hlen Hcb. pose proof piece_len. split; cbn.
  - by apply stored_inv.
  - done.
  - intros x. rewrite store_covered by (done || lia). split.
    + intros [?|?]; [right; lia|by left].
    + intros [?|[??]]; [by right|]. destruct (decide (a ≤ x < b)); [by left|right].
      apply (inv_cover s Hinv). split; [lia|]. intros Hg. apply Hall in Hg; lia.
  - intros x v. rewrite store_byte by (done || lia). case_decide; [|by left]. unfold piece.
    rewrite lookup_take_Some, lookup_drop. intros [Hv _]. right. split; [lia|].
    rewrite <-Hv. f_equal. lia.
  - apply stored_gaps.
  - rewrite store_callbacks, Hc, !app_assoc by lia. by rewrite Hcb.
Qed.
End stores.

Lemma stores_pushed s data offset cb out :
  sorter_inv s → offset + len data < MaxByteCount → stores s data offset cb out →
  (out.2 = Some errTooManyGaps ∧ dl_len (gaps s) = MaxStreamFrameSorterGaps) ∨
  (out.2 = None ∧ pushed s data offset cb out.1.1 out.1.2).
Proof.
  intros Hinv HM (a&b&ds&f&c&wasCut&->&Hab&Hra&Hb&Hea&Heb&Hc&Hds&Hids&Hall).
  unfold storeFrame. set (cp := wasCut && _).
  destruct (if cp then _ else _) as [called cb'] eqn:Hcp.
  assert (invoke cb ++ c ≡ₚ called ++ invoke cb') as Hcb.
  { destruct cp; injection Hcp as <- <-; cbn; rewrite ?app_nil_r; apply Permutation_app_comm. }
  zcase; cbn.
  - left. split; [done|]. pose proof (inv_len s Hinv).
    pose proof (stored_gaps s offset a b ds Hinv Hab Hds). unfold dl_len in *. lia.
  - right. split; [done|]. by eapply stored_pushed.
Qed.

Lemma Push_spec s data offset cb :
  sorter_inv s → 0 ≤ offset → offset + len data < MaxByteCount →
  (∃ s' called, Push s data offset cb = Ok (s', called, None) ∧ pushed s data offset cb s' called) ∨
  (∃ s' called, Push s data offset cb = Ok (s', called, Some errTooManyGaps) ∧
    dl_len (gaps s) = MaxStreamFrameSorterGaps).
Proof.
  intros Hinv Hoff HM. unfold Push.
  destruct (push_spec s data offset cb Hinv Hoff HM) as [[-> Hdup]|([[s' called] err]&->&Hst)];
    cbn [mbind result_bind].
  - rewrite decide_True by done. left. eexists _, _. split; [done|]. by apply duplicate_pushed.
  - apply stores_pushed in Hst as [[Herr Hfull]|[Herr Hp]]; [..|done|done]; cbn in *; subst err.
    + right. exists s', called. split; [by rewrite decide_False|done].
    + left. exists s', called. split; [by rewrite decide_False|done].
Qed.

(** ** What [Pop] does *)
Lemma pop_position s e :
  sorter_inv s → queue s !! readPos s = Some e →
  0 < entry_len e ∧ ∀ g, g ∈ (gaps s).*2 → readPos s + entry_len e ≤ Start g.
Proof.
  intros Hinv He. pose proof (proj1 (inv_queue s Hinv) _ _ He) as Hpos. split; [done|].
  intros g Hg. destruct (decide (readPos s + entry_len e ≤ Start g)); [done|]. exfalso.
  pose proof (gaps_asc_Forall _ _ (inv_asc s Hinv)) as Hall. rewrite Forall_forall in Hall.
  specialize (Hall g Hg). apply (inv_uncovered s Hinv g (Start g) Hg); [lia|].
  exists (readPos s), e. split; [done|lia].
Qed.

Lemma gaps_asc_start lo lo' gs :
  (∀ g, g ∈ gs → lo' ≤ Start g) → gaps_asc lo gs → gaps_asc lo' gs.
Proof.
  destruct gs as [|g gs]; cbn; [done|]. intros Hg [??]. split; [|done].
  specialize (Hg g ltac:(set_solver)). lia.
Qed.

Lemma popped_inv s e :
  sorter_inv s → queue s !! readPos s = Some e →
  sorter_inv (mkFrameSorter (delete (readPos s) (queue s)) (readPos s + entry_len e) (gaps s) (fresh s)).
Proof.
  intros Hinv He. destruct (pop_position s e Hinv He) as [Hpos Hg]. pose proof (inv_pos s Hinv).
  pose proof (inv_queue s Hinv) as Hq. split; cbn; try apply Hinv; try lia.
  - eapply gaps_asc_start; [done|apply Hinv].
  - eapply queue_ok_sub; [apply delete_subseteq|done].
  - intros x. rewrite (delete_without _ _ e) by done. split.
    + intros (p&e'&[Hp ?]%lookup_without_Some&Hx).
      assert (covered (queue s) x) as [Hb ?]%(inv_cover s Hinv) by (by exists p, e').
      split; [|done]. assert (covered (queue s) p) as [? _]%(inv_cover s Hinv).
      { exists p, e'. split; [done|]. lia. }
      lia.
    + intros [Hx Hn]. assert (covered (queue s) x) as (p&e'&Hp&Hpx)
        by (apply (inv_cover s Hinv); split; [lia|done]).
      exists p, e'. split; [|done]. apply lookup_without_Some. split; [done|].
      intros Hp'. destruct (decide (p = readPos s)) as [->|]; [simplify_eq; lia|].
      pose proof (proj2 Hq _ _ _ _ He Hp ltac:(lia)). lia.
Qed.

Lemma Pop_spec s :
  sorter_inv s →
  match queue s !! readPos s with
  | None => Pop s = Ok (s, readPos s, None, None) ∧ ¬ covered (queue s) (readPos s)
  | Some e =>
      let s' := mkFrameSorter (delete (readPos s) (queue s)) (readPos s + entry_len e) (gaps s) (fresh s) in
      Pop s = Ok (s', readPos s, Some (Data e), DoneCb e) ∧ sorter_inv s' ∧ 0 < entry_len e
  end.
Proof.
  intros Hinv. unfold Pop. destruct (queue s !! readPos s) as [e|] eqn:He.
  - pose proof (popped_inv s e Hinv He) as Hinv'. destruct (pop_position s e Hinv He) as [Hpos Hg].
    split_and!; [|done|done]. destruct (front_gap s Hinv) as (i&g&ds&Hds&->).
    cbn [mbind result_bind]. rewrite (proj2 (Z.leb_gt _ _)); [done|].
    pose proof (inv_asc s Hinv) as Hasc. rewrite Hds in Hg, Hasc. cbn in Hasc.
    specialize (Hg g ltac:(cbn; set_solver)). unfold entry_len in Hg. lia.
  - split; [done|]. intros Hc. destruct (edge_entry (queue s) (readPos s)) as [e ?]; [|done|congruence].
    intros p e Hp Hlt. exfalso. pose proof (proj1 (inv_queue s Hinv) _ _ Hp).
    assert (covered (queue s) p) as [? _]%(inv_cover s Hinv); [|lia].
    exists p, e. split; [done|lia].
Qed.

(** ** Runs of the sorter *)
Inductive sorter_op :=
| OpPush (data : list byte) (offset : Z) (doneCb : option Z)
| OpPop.

(** The sorter, the data that was delivered in order and the callbacks that were
    invoked or handed to the reader.  An error of [Push] ends the run. *)
Fixpoint run (s : frameSorter) (out : list byte) (released : list Z) (ops : list sorter_op)
  : res (frameSorter * list byte * list Z) :=
  match ops with
  | [] => Ok (s, out, released)
  | OpPush data offset cb :: ops =>
      '(s, called, err) ← Push s data offset cb;
      match err with
      | Some e => Err e
      | None => run s out (released ++ called) ops
      end
  | OpPop :: ops =>
      '(s, _, data, cb) ← Pop s;
      run s (out ++ default [] data) (released ++ invoke cb) ops
  end.

(** Frames as flow control admits them; the data of frames that overlap can
    differ. *)
Definition op_ok (op : sorter_op) : Prop :=
  match op with
  | OpPush data offset _ => 0 ≤ offset ∧ offset + len data < MaxByteCount
  | OpPop => True
  end.

(** The operation receives the byte [c] for the position [x]. *)
Definition op_byte (x : Z) (c : byte) (op : sorter_op) : Prop :=
  match op with
  | OpPush data offset _ => offset ≤ x ∧ data !! Z.to_nat (x - offset) = Some c
  | OpPop => False
  end.

Definition op_contains (x : Z) (op : sorter_op) : Prop :=
  match op with OpPush data offset _ => offset ≤ x < offset + len data | OpPop => False end.

Definition op_callback (op : sorter_op) : list Z :=
  match op with OpPush _ _ cb => invoke cb | OpPop => [] end.

Definition is_push (op : sorter_op) : bool := if op is OpPush _ _ _ then true else false.
Definition pushes (ops : list sorter_op) : Z :=
  len (filter is_push ops).

Record delivered (ops : list sorter_op) (s : frameSorter) (out : list byte)
    (released : list Z) : Prop := {
  del_inv : sorter_inv s;
  del_len : len out = readPos s;
  del_out : ∀ i c, out !! i = Some c → Exists (op_byte (Z.of_nat i) c) ops;
  del_queue : ∀ x c, byte_at (queue s) x c → Exists (op_byte x c) ops;
  del_received : ∀ x, 0 ≤ x → x < readPos s ∨ covered (queue s) x ↔ Exists (op_contains x) ops;
  del_gaps : dl_len (gaps s) ≤ pushes ops + 1;
  del_callbacks : ops ≫= op_callback ≡ₚ released ++ callbacks (queue s);
}.

Lemma delivered_push ops s out released data offset cb s' called :
  delivered ops s out released → pushed s data offset cb s' called →
  delivered (ops ++ [OpPush data offset cb]) s' out (released ++ called).
Proof.
  intros [Hinv Hlen Hout Hq Hrec Hg Hcb] [Hinv' Hpos Hcov Hbyte Hg' Hcb']. split; [done|..].
  - by rewrite Hpos.
  - intros i c Hi%Hout. apply Exists_app. by left.
  - intros x c Hx. apply Exists_app. apply Hbyte in Hx as [Hx|?]; [left; auto|right].
    by apply Exists_cons_hd.
  - intros x Hx. rewrite Hcov, Hpos, Exists_app, <-Hrec, Exists_cons, Exists_nil by done. cbn.
    destruct (decide (x < readPos s)); [tauto|]. intuition lia.
  - unfold pushes, dl_len in *. rewrite filter_app, len_app, filter_cons, filter_nil.
    rewrite decide_True by done. len_lia.
  - rewrite bind_app. cbn. rewrite app_nil_r, Hcb, <-!app_assoc, <-Hcb', !app_assoc. solve_Permutation.
Qed.

Lemma delivered_idle ops s out released :
  delivered ops s out released → delivered (ops ++ [OpPop]) s out released.
Proof.
  intros [? ? Hout Hq Hrec Hg Hcb]. split; try done.
  - intros i c Hi%Hout. apply Exists_app. by left.
  - intros x c Hx%Hq. apply Exists_app. by left.
  - intros x Hx. rewrite Exists_app, Exists_cons, Exists_nil, <-Hrec by done. cbn. tauto.
  - unfold pushes, dl_len in *. rewrite filter_app, filter_cons, filter_nil.
    rewrite decide_False by auto. by rewrite app_nil_r.
  - rewrite bind_app. cbn. by rewrite app_nil_r.
Qed.

Lemma delivered_pop ops s out released e :
  let s' := mkFrameSorter (delete (readPos s) (queue s)) (readPos s + entry_len e) (gaps s) (fresh s) in
  delivered ops s out released → queue s !! readPos s = Some e → sorter_inv s' →
  delivered (ops ++ [OpPop]) s' (out ++ Data e) (released ++ invoke (DoneCb e)).
Proof.
  intros s' [Hinv Hlen Hout Hq Hrec Hg Hcb]%delivered_idle He Hinv'. pose proof (inv_pos s Hinv).
  pose proof (proj1 (inv_queue s Hinv) _ _ He). split; cbn; try done.
  - by rewrite len_app, Hlen.
  - intros i c [Hi|[Hi Hc]]%lookup_app_Some; [auto|]. apply Hq. exists (readPos s), e.
    unfold len in Hlen. split_and!; [done|lia|]. rewrite <-Hc. f_equal. lia.
  - intros x c (p&e'&[_ Hp]%lookup_delete_Some&Hx). apply Hq. by exists p, e'.
  - intros x Hx. rewrite <-Hrec by done.
    pose proof (inv_cover _ Hinv x) as H1. pose proof (inv_cover _ Hinv' x) as H2. cbn in H2.
    destruct (decide (readPos s ≤ x < readPos s + entry_len e)).
    { assert (covered (queue s) x) by (by exists (readPos s), e). tauto. }
    rewrite H1, H2. intuition lia.
  - rewrite Hcb, <-app_assoc. f_equiv. by apply callbacks_delete.
Qed.

Lemma delivered_step_pop ops s out released :
  delivered ops s out released →
  ∃ s' data cb, Pop s = Ok (s', readPos s, data, cb) ∧
    delivered (ops ++ [OpPop]) s' (out ++ default [] data) (released ++ invoke cb) ∧
    (readPos s < readPos s' ∨ s' = s ∧ ¬ covered (queue s) (readPos s)).
Proof.
  intros Hd. pose proof (Pop_spec s (del_inv _ _ _ _ Hd)) as Hpop.
  destruct (queue s !! readPos s) as [e|] eqn:He.
  - destruct Hpop as (->&Hinv'&?). eexists _, _, _. split; [done|]. split; [by apply delivered_pop|].
    left. cbn. lia.
  - destruct Hpop as [-> ?]. eexists _, _, _. split; [done|]. cbn. rewrite !app_nil_r.
    split; [by apply delivered_idle|by right].
Qed.

(** A gap between the frames that were received begins at [x]. *)
Definition gap_start (ops : list sorter_op) (x : Z) : Prop :=
  0 ≤ x ∧ ¬ Exists (op_contains x) ops ∧ (x = 0 ∨ Exists (op_contains (x - 1)) ops).

(** The frames leave as many gaps as the sorter keeps track of. *)
Definition fragmented (ops : list sorter_op) : Prop :=
  ∃ xs, len xs = MaxStreamFrameSorterGaps ∧ NoDup xs ∧ Forall (gap_start ops) xs.

Lemma gaps_asc_starts lo gs : gaps_asc lo gs → NoDup (Start <$> gs).
Proof.
  revert lo. induction gs as [|g gs IH]; intros lo; [intros _; constructor|]. intros [Hg Hgs].
  constructor; [|by eapply IH]. intros (g'&Hs&Hin)%list_elem_of_fmap.
  apply gaps_asc_Forall in Hgs. rewrite Forall_forall in Hgs. apply Hgs in Hin. lia.
Qed.

Lemma gap_bound M lo gs g : gaps_asc lo gs → ends_at M gs → g ∈ gs → End_ g ≤ M.
Proof.
  intros Hasc (gs'&g'&->&<-) [Hg| ->%list_elem_of_singleton]%elem_of_app; [|done].
  apply gaps_asc_split in Hasc as (H1&?&_). rewrite Forall_forall in H1. apply H1 in Hg. lia.
Qed.

Lemma preceding_gap lo gs g x : gaps_asc lo gs → g ∈ gs → x = Start g - 1 → ¬ in_gap gs x.
Proof.
  intros Hasc (gs1&gs2&->)%list_elem_of_split -> Hin. apply gaps_asc_split in Hasc as (H1&Hg&H2&_).
  apply Exists_app in Hin as [Hin|Hin]; [|apply Exists_cons in Hin as [?|Hin]; [lia|]].
  all: rewrite Forall_forall in H1, H2; apply Exists_exists in Hin as (g'&Hin&?).
  - apply H1 in Hin. lia.
  - apply H2 in Hin. lia.
Qed.

Lemma gaps_fragmented ops s out released :
  delivered ops s out released → dl_len (gaps s) = MaxStreamFrameSorterGaps → fragmented ops.
Proof.
  intros Hd Hfull. destruct (del_inv _ _ _ _ Hd) as [_ _ Hpos Hasc Hend _ Hcov _].
  exists (Start <$> (gaps s).*2). split_and!.
  - unfold dl_len, len in *. by rewrite !length_fmap.
  - by eapply gaps_asc_starts.
  - apply Forall_forall. intros x (g&->&Hg)%list_elem_of_fmap.
    pose proof Hasc as Hb%gaps_asc_Forall. rewrite Forall_forall in Hb. specialize (Hb _ Hg).
    assert (End_ g ≤ MaxByteCount) by (eapply gap_bound; done).
    split_and!; [lia| |].
    + rewrite <-(del_received _ _ _ _ Hd), Hcov by lia. intros [?|[_ Hn]]; [lia|].
      apply Hn, Exists_exists. exists g. split; [done|lia].
    + destruct (decide (Start g = 0)); [by left|right]. apply (del_received _ _ _ _ Hd); [lia|].
      destruct (decide (Start g - 1 < readPos s)); [by left|right]. apply Hcov. split; [lia|].
      by eapply preceding_gap.
Qed.

Lemma run_delivered ops0 ops s out released :
  delivered ops0 s out released → Forall op_ok ops →
  (run s out released ops = Err errTooManyGaps ∧ MaxStreamFrameSorterGaps ≤ pushes (ops0 ++ ops) ∧
   ∃ ops1, ops1 `prefix_of` ops ∧ fragmented (ops0 ++ ops1)) ∨
  ∃ s' out' released', run s out released ops = Ok (s', out', released') ∧
    delivered (ops0 ++ ops) s' out' released'.
Proof.
  intros Hd Hops. revert ops0 s out released Hd.
  induction Hops as [|op ops Hop Hops IH]; intros ops0 s out released Hd.
  { right. rewrite app_nil_r. cbn. eauto 10. }
  assert (∀ ops1, ops1 `prefix_of` ops → fragmented ((ops0 ++ [op]) ++ ops1) →
    ∃ ops1, ops1 `prefix_of` op :: ops ∧ fragmented (ops0 ++ ops1)) as Hfrag.
  { intros ops1 Hp Hf. exists (op :: ops1). split; [by apply prefix_cons|]. by rewrite <-app_assoc in Hf. }
  replace (ops0 ++ op :: ops) with ((ops0 ++ [op]) ++ ops) by (by rewrite <-app_assoc).
  assert (∀ s out released, delivered (ops0 ++ [op]) s out released →
    (run s out released ops = Err errTooManyGaps ∧ MaxStreamFrameSorterGaps ≤ pushes ((ops0 ++ [op]) ++ ops) ∧
     ∃ ops1, ops1 `prefix_of` op :: ops ∧ fragmented (ops0 ++ ops1)) ∨
    ∃ s' out' released', run s out released ops = Ok (s', out', released') ∧
      delivered ((ops0 ++ [op]) ++ ops) s' out' released') as IH'.
  { intros s1 out1 r1 H1. destruct (IH _ _ _ _ H1) as [(?&?&ops1&?&?)|?]; [left; eauto|by right]. }
  destruct op as [data offset cb|]; cbn [run].
  - pose proof Hop as (Hoff&HM). pose proof (del_inv _ _ _ _ Hd) as Hinv.
    destruct (Push_spec s data offset cb Hinv Hoff HM) as [(s'&called&->&Hp)|(s'&called&->&Hfull)];
      cbn [mbind result_bind]; [by eapply IH', delivered_push|].
    left. split; [done|]. split; [|exists []; split; [by apply prefix_nil|]; rewrite app_nil_r; by eapply gaps_fragmented].
    pose proof (del_gaps _ _ _ _ Hd). unfold pushes in *.
    rewrite !filter_app, filter_cons, filter_nil, decide_True, !len_app by done. len_lia.
  - destruct (delivered_step_pop _ _ _ _ Hd) as (s'&data&cb&->&Hd'&_). cbn [mbind result_bind].
    by apply IH'.
Qed.

Lemma nothing_covered x : ¬ covered ∅ x.
Proof. intros (p&e&He&_). by rewrite lookup_empty in He. Qed.

Lemma nothing_ok : queue_ok ∅.
Proof. split; intros *; by rewrite lookup_empty. Qed.

Lemma new_delivered : delivered [] newFrameSorter [] [].
Proof.
  split; [split|..]; try apply nothing_ok; cbn; try done.
  - repeat constructor. set_solver.
  - repeat constructor.
  - by exists [], (mkByteInterval 0 MaxByteCount).
  - intros x. split; [intros []%nothing_covered|].
    intros [Hx Hn]. exfalso. apply Hn. unfold in_gap. rewrite Exists_cons. cbn. lia.
  - intros x c Hc. exfalso. apply (nothing_covered x), covered_byte. eauto.
  - intros x Hx. rewrite Exists_nil. split; [|done]. intros [?|[]%nothing_covered]. lia.
Qed.

(** Reading advances as long as the next position was received. *)
Lemma drain_reaches ops0 s out released (m : nat) n :
  delivered ops0 s out released → n ≤ readPos s + Z.of_nat m →
  (∀ x, 0 ≤ x < n → Exists (op_contains x) ops0) →
  ∃ s' out' released', run s out released (replicate m OpPop) = Ok (s', out', released') ∧
    delivered (ops0 ++ replicate m OpPop) s' out' released' ∧ n ≤ readPos s'.
Proof.
  revert ops0 s out released. induction m as [|m IH]; intros ops0 s out released Hd Hn Hall.
  { exists s, out, released. cbn. rewrite app_nil_r. split_and!; [done..|lia]. }
  destruct (delivered_step_pop _ _ _ _ Hd) as (s'&data&cb&Hpop&Hd'&Hadv).
  cbn [replicate run]. rewrite Hpop. cbn [mbind result_bind].
  replace (ops0 ++ OpPop :: replicate m OpPop) with ((ops0 ++ [OpPop]) ++ replicate m OpPop)
    by (by rewrite <-app_assoc).
  apply IH; [done| |].
  - destruct Hadv as [?|[-> Hnc]]; [lia|]. destruct (decide (n ≤ readPos s)); [lia|]. exfalso.
    pose proof (inv_pos s (del_inv _ _ _ _ Hd)) as Hpos.
    pose proof (Hall (readPos s) ltac:(lia)) as Hr. apply (del_received _ _ _ _ Hd) in Hr; [|done].
    destruct Hr; [lia|done].
  - intros x Hx. apply Exists_app. left. auto.
Qed.

Lemma run_app s out released ops ops' :
  run s out released (ops ++ ops') =
  ('(s, out, released) ← run s out released ops; run s out released ops').
Proof.
  revert s out released. induction ops as [|[data offset cb|] ops IH]; intros s out released; cbn.
  - done.
  - destruct (Push s data offset cb) as [[[s' called] [e|]]|e|]; cbn; [done|apply IH|done..].
  - destruct (Pop s) as [[[[s' o] data] cb]|e|]; cbn; [apply IH|done..].
Qed.

(** The frames of a stream with the contents [F]. *)
Definition op_of (F : Z → byte) (op : sorter_op) : Prop :=
  match op with
  | OpPush data offset _ => ∀ i c, data !! i = Some c → c = F (offset + Z.of_nat i)
  | OpPop => True
  end.

Lemma delivered_of F ops s out released :
  Forall (op_of F) ops → delivered ops s out released → out = F <$> seqZ 0 (readPos s).
Proof.
  intros Hops Hd. pose proof (del_len _ _ _ _ Hd) as Hlen. unfold len in Hlen.
  apply list_eq. intros i. rewrite list_lookup_fmap. destruct (out !! i) as [c|] eqn:Hc.
  - pose proof (lookup_lt_Some _ _ _ Hc). rewrite lookup_seqZ_lt by lia. cbn. f_equal.
    apply (del_out _ _ _ _ Hd), Exists_exists in Hc as ([data offset cb|]&Hin&Hc); [|done].
    rewrite Forall_forall in Hops. specialize (Hops _ Hin). destruct Hc as [Hle Hc].
    apply Hops in Hc as ->. f_equal. lia.
  - apply lookup_ge_None in Hc. rewrite lookup_seqZ_ge by lia. done.
Qed.

(** The frame sorter never panics, whatever frames arrive in whatever order,
    overlapping or with contradicting data: it keeps its invariant and delivers
    for every position a byte that a frame carried for that position.  It only
    fails with the error for too many gaps, and only after at least 1000 frames. *)
Theorem frame_sorter_safe ops :
  Forall op_ok ops →
  (run newFrameSorter [] [] ops = Err errTooManyGaps ∧ 1000 ≤ pushes ops) ∨
  ∃ s out released, run newFrameSorter [] [] ops = Ok (s, out, released) ∧
    sorter_inv s ∧ len out = readPos s ∧
    ∀ i c, out !! i = Some c → Exists (op_byte (Z.of_nat i) c) ops.
Proof.
  intros Hops. destruct (run_delivered [] ops _ _ _ new_delivered Hops)
    as [(->&?&_)|(s&out&released&->&[])]; [by left|right]. eauto 10.
Qed.

Definition example_ops : list sorter_op :=
  [OpPush [x03; x04] 2 (Some 1); OpPop; OpPush [x01; x02; x03] 0 (Some 2); OpPop; OpPop].

Lemma example_ops_ok : Forall op_ok example_ops.
Proof. repeat constructor; cbn; lia. Qed.

Lemma frame_sorter_safe_witness :
  (run newFrameSorter [] [] example_ops = Err errTooManyGaps ∧ 1000 ≤ pushes example_ops) ∨
  ∃ s out released, run newFrameSorter [] [] example_ops = Ok (s, out, released) ∧
    sorter_inv s ∧ len out = readPos s ∧
    ∀ i c, out !! i = Some c → Exists (op_byte (Z.of_nat i) c) example_ops.
Proof. exact (frame_sorter_safe example_ops example_ops_ok). Defined.

(** C23: Reassembly is complete.  Frames of a stream [F] arrive in any number and in any
    order with duplicates and overlaps, interleaved with reads.  Once the positions below
    [n] were received, [n] reads deliver them: what is read is exactly the start of the
    stream, and at least [n] bytes of it.  The only other outcome is that a frame is
    refused because too many gaps are tracked, and only if the frames before it did leave
    1000 separate gaps in the stream (so not before the thousandth frame). *)
Theorem frame_sorter_reassembles (F : Z → byte) ops n :
  Forall op_ok ops → Forall (op_of F) ops → 0 ≤ n →
  (∀ x, 0 ≤ x < n → Exists (op_contains x) ops) →
  (run newFrameSorter [] [] ops = Err errTooManyGaps ∧ 1000 ≤ pushes ops ∧
   ∃ ops1, ops1 `prefix_of` ops ∧ fragmented ops1) ∨
  ∃ s out released,
    run newFrameSorter [] [] (ops ++ replicate (Z.to_nat n) OpPop) = Ok (s, out, released) ∧
    out = F <$> seqZ 0 (len out) ∧ n ≤ len out.
Proof.
  intros Hok HF Hn Hall.
  destruct (run_delivered [] ops _ _ _ new_delivered Hok) as [?|(s&out&released&Hrun&Hd)]; [by left|right].
  pose proof (inv_pos s (del_inv _ _ _ _ Hd)).
  destruct (drain_reaches ops s out released (Z.to_nat n) n Hd)
    as (s'&out'&released'&Hrun'&Hd'&Hpos); [lia|done|].
  exists s', out', released'. rewrite run_app, Hrun. cbn [mbind result_bind].
  rewrite (del_len _ _ _ _ Hd'). split_and!; [done| |done].
  eapply delivered_of; [|done]. apply Forall_app. split; [done|]. by apply Forall_replicate.
Qed.

Lemma frame_sorter_reassembles_witness :
  ∃ s out released,
    run newFrameSorter [] [] (example_ops ++ replicate 4 OpPop) = Ok (s, out, released) ∧
    out = (λ x, z2b (x + 1)) <$> seqZ 0 (len out) ∧ 4 ≤ len out.
Proof.
  destruct (frame_sorter_reassembles (λ x, z2b (x + 1)) example_ops 4) as [(_&Hp&_)|H]; [..|by vm_compute in Hp|exact H].
  - apply example_ops_ok.
  - repeat constructor; intros i c Hi; repeat (destruct i as [|i]; [by injection Hi as <-|]); done.
  - done.
  - intros x Hx. destruct (decide (x < 2)); [do 2 right|]; left; unfold op_contains, len; cbn; lia.
Defined.

(** Buffers are released once: after every run the callbacks that were
    invoked or handed to the reader, together with those of the chunks that are
    still queued, are the callbacks of the frames that were pushed.  When no data
    is queued, every callback was released exactly once. *)
Theorem frame_sorter_releases_once ops s out released :
  Forall op_ok ops → run newFrameSorter [] [] ops = Ok (s, out, released) →
  ops ≫= op_callback ≡ₚ released ++ callbacks (queue s) ∧
  (HasMoreData s = false → ops ≫= op_callback ≡ₚ released).
Proof.
  intros Hok Hrun. destruct (run_delivered [] ops _ _ _ new_delivered Hok)
    as [(Herr&_)|(s'&out'&released'&Hrun'&Hd)]; [by rewrite Hrun in Herr|].
  rewrite Hrun in Hrun'. injection Hrun' as <- <- <-.
  pose proof (del_callbacks _ _ _ _ Hd) as Hcb. split; [done|]. unfold HasMoreData.
  rewrite negb_false_iff, Nat.eqb_eq. intros Hs%map_size_empty_inv. cbn in Hcb. rewrite Hs in Hcb.
  by rewrite app_nil_r in Hcb.
Qed.

Lemma frame_sorter_releases_once_witness :
  example_ops ≫= op_callback ≡ₚ [1; 2].
Proof.
  destruct (run newFrameSorter [] [] example_ops) as [[[s out] released]|e|] eqn:Hrun;
    [|vm_compute in Hrun; discriminate..].
  destruct (frame_sorter_releases_once example_ops s out released example_ops_ok Hrun) as [_ H].
  etransitivity; [apply H|]; vm_compute in Hrun; injection Hrun as <- <- <-; [done|].
  solve_Permutation.
Defined.
