(* ===== verification/Float.v ===== *)
(** * Floating-point arithmetic

    The program computes some thresholds and averages with [float32] and
    [float64].  The operations are those of the Standard Library's specification
    of IEEE 754, which rounds to the nearest even number.  The lemmas show when a
    computation on small dyadic fractions is exact. *)

From Stdlib Require Import Floats.SpecFloat.
From S2P Require Import Prelude.

(** [x / 2^n], as the conversion of a constant or of an integer ([n = 0]). *)
Definition float_of (prec emax x n : Z) : spec_float := binary_normalize prec emax x (- n) false.

(** The conversion to an integer drops the fraction.  The result for values out
    of range depends on the platform, this is amd64's. *)
Definition float_trunc (f : spec_float) : option Z :=
  match f with
  | S754_zero _ => Some 0
  | S754_finite s m e =>
      let v := if 0 <=? e then Zpos m * 2 ^ e else Zpos m / 2 ^ (- e) in
      Some (if s then - v else v)
  | _ => None
  end.
Definition int64_of_float (f : spec_float) : Z :=
  match float_trunc f with
  | Some v => if (- 2 ^ 63 <=? v) && (v <? 2 ^ 63) then v else - 2 ^ 63
  | None => - 2 ^ 63
  end.

Definition float64 (x : Z) : spec_float := float_of 53 1024 x 0.
Definition const64 (x n : Z) : spec_float := float_of 53 1024 x n.
Definition mul64 : spec_float → spec_float → spec_float := SFmul 53 1024.
Definition add64 : spec_float → spec_float → spec_float := SFadd 53 1024.
Definition div64 : spec_float → spec_float → spec_float := SFdiv 53 1024.

Definition float32 (x : Z) : spec_float := float_of 24 128 x 0.
Definition const32 (x n : Z) : spec_float := float_of 24 128 x n.
Definition mul32 : spec_float → spec_float → spec_float := SFmul 24 128.
Definition add32 : spec_float → spec_float → spec_float := SFadd 24 128.
Definition sub32 : spec_float → spec_float → spec_float := SFsub 24 128.
Definition div32 : spec_float → spec_float → spec_float := SFdiv 24 128.

(** ** Exact computations *)

(** The exponents are above [-scale], so that scaled values are integers. *)
Definition scale : Z := 1100.

(** The value of [f] is [x / 2^n]. *)
Definition is_dyadic (f : spec_float) (x n : Z) : Prop :=
  (x = 0 ∧ f = S754_zero false) ∨
  ∃ m e, f = S754_finite false m e ∧ - 200 ≤ e ∧
    Zpos m * 2 ^ (e + scale) = x * 2 ^ (scale - n).

Lemma digits2_log2 p : Zpos (digits2_pos p) = Z.log2 (Zpos p) + 1.
Proof.
  induction p as [p IH|p IH|]; cbn [digits2_pos]; [..|done]; rewrite Pos2Z.inj_succ, IH.
  - rewrite (Pos2Z.inj_xI p), Z.log2_succ_double by lia. lia.
  - rewrite (Pos2Z.inj_xO p), Z.log2_double by lia. lia.
Qed.

Lemma iter_pos_add {A} (f : A → A) p x : SpecFloat.iter_pos f p x = Pos.iter f x p.
Proof.
  revert x. induction p as [p IH|p IH|]; intros x; cbn [SpecFloat.iter_pos Pos.iter]; rewrite ?IH; try done.
  rewrite <-!Pos.iter_swap. done.
Qed.

Lemma shr_1_even m : 0 < m → shr_1 (Build_shr_record (2 * m) false false) = Build_shr_record m false false.
Proof. destruct m; try lia. done. Qed.

Lemma shr_exact p m :
  0 < m → SpecFloat.iter_pos shr_1 p (Build_shr_record (m * 2 ^ Zpos p) false false) = Build_shr_record m false false.
Proof.
  intros Hm. rewrite iter_pos_add. revert m Hm.
  induction p as [|p IH] using Pos.peano_ind; intros m Hm.
  - cbn [Pos.iter]. rewrite Z.mul_comm. by apply shr_1_even.
  - rewrite Pos.iter_succ, Pos2Z.inj_succ, Z.pow_succ_r by lia.
    replace (m * (2 * 2 ^ Zpos p)) with (2 * m * 2 ^ Zpos p) by lia.
    rewrite IH by lia. by apply shr_1_even.
Qed.

Lemma pos_iter_xO m d : Zpos (Pos.iter xO m d) = Zpos m * 2 ^ Zpos d.
Proof.
  induction d as [|d IH] using Pos.peano_ind; [cbn; lia|].
  rewrite Pos.iter_succ, Pos2Z.inj_xO, IH, Pos2Z.inj_succ, Z.pow_succ_r by lia. lia.
Qed.

Section exact.
Variables (prec emax : Z).
Hypothesis Hprec : 1 < prec ≤ 64.
Hypothesis Hemax : 64 + prec ≤ emax.

Lemma shr_nonpos r e n : n ≤ 0 → shr r e n = (r, e).
Proof. destruct n; done || lia. Qed.

Lemma shr_pos q e n :
  0 < q → 0 < n → shr (Build_shr_record (q * 2 ^ n) false false) e n =
                  (Build_shr_record q false false, e + n).
Proof. intros Hq Hn. destruct n as [|p|]; try lia. unfold shr. by rewrite shr_exact. Qed.

(** A number with at most [prec] bits is not rounded. *)
Lemma round_aux_exact mx ex k j :
  0 < k < 2 ^ prec → - scale ≤ ex → scale - 50 ≤ j → Zpos mx * 2 ^ (ex + scale) = k * 2 ^ j →
  k * 2 ^ j < 2 ^ (scale + 64) →
  ∃ m e, binary_round_aux prec emax false (Zpos mx) ex loc_Exact = S754_finite false m e ∧
    - 200 ≤ e ∧ Zpos m * 2 ^ (e + scale) = k * 2 ^ j.
Proof.
  intros Hk Hex Hj Heq Hlt. unfold scale in *.
  pose proof (Z.log2_mul_pow2 (Zpos mx) (ex + 1100) ltac:(lia) ltac:(lia)) as L1.
  pose proof (Z.log2_mul_pow2 k j ltac:(lia) ltac:(lia)) as L2.
  rewrite <-Heq in L2. pose proof (proj1 (Z.log2_lt_pow2 k prec ltac:(lia)) ltac:(lia)) as L3.
  pose proof (Z.log2_nonneg k). pose proof (Z.log2_nonneg (Zpos mx)).
  assert (Z.log2 (Zpos mx * 2 ^ (ex + 1100)) < 1164) as L4
    by (apply Z.log2_lt_pow2; rewrite Heq; [apply Z.mul_pos_pos; lia|lia]).
  set (n := Z.log2 (Zpos mx) + 1 - prec).
  assert (∀ q e, Z.log2 (Zpos q) + e = Z.log2 (Zpos mx) + ex →
    fexp prec emax (Zdigits2 (Zpos q) + e) - e = Z.log2 (Zpos q) + 1 - prec) as Hfexp.
  { intros q e Hq. unfold Zdigits2, fexp, emin. rewrite digits2_log2. lia. }
  unfold binary_round_aux, shr_fexp. rewrite Hfexp by lia. fold n. cbn [shr_record_of_loc].
  destruct (decide (n ≤ 0)) as [Hn|Hn].
  - rewrite shr_nonpos by done. cbn [shr_m loc_of_shr_record round_nearest_even].
    rewrite Hfexp, shr_nonpos by lia. cbn [shr_m]. rewrite (proj2 (Z.leb_le _ _)) by lia.
    exists mx, ex. split_and!; [done|lia|done].
  - assert (Zpos mx = k * 2 ^ (j - (ex + 1100))) as Hmx.
    { apply (Z.mul_reg_r _ _ (2 ^ (ex + 1100))); [lia|]. rewrite Heq, <-Z.mul_assoc, <-Z.pow_add_r by lia.
      do 2 f_equal. lia. }
    set (q := k * 2 ^ (j - (ex + 1100) - n)).
    assert (Zpos mx = q * 2 ^ n) as Hq.
    { unfold q. rewrite Hmx, <-Z.mul_assoc, <-Z.pow_add_r by lia. do 2 f_equal. lia. }
    assert (0 < q) as Hqpos by (apply Z.mul_pos_pos; lia).
    pose proof (Z.log2_mul_pow2 q n ltac:(lia) ltac:(lia)) as L5. rewrite <-Hq in L5.
    rewrite Hq, shr_pos by lia. cbn [shr_m loc_of_shr_record round_nearest_even].
    destruct q as [|r|] eqn:Hr; try lia.
    rewrite Hfexp, shr_nonpos by lia. cbn [shr_m]. rewrite (proj2 (Z.leb_le _ _)) by lia.
    exists r, (ex + n). split_and!; [done|lia|]. rewrite <-Heq, Hq, <-Z.mul_assoc, <-Z.pow_add_r by lia.
    do 2 f_equal. lia.
Qed.

Lemma shl_align_exact mx ex ex' mz ez :
  - scale ≤ ex → - scale ≤ ex' → shl_align mx ex ex' = (mz, ez) →
  - scale ≤ ez ∧ Zpos mz * 2 ^ (ez + scale) = Zpos mx * 2 ^ (ex + scale).
Proof.
  intros Hex Hex'. unfold shl_align. destruct (ex' - ex) as [|p|p] eqn:Hd; intros [= <- <-]; [done..|].
  split; [done|]. rewrite pos_iter_xO, <-Z.mul_assoc, <-Z.pow_add_r by lia. do 2 f_equal. lia.
Qed.

Lemma round_exact mx ex k j :
  0 < k < 2 ^ prec → - scale ≤ ex → scale - 50 ≤ j → Zpos mx * 2 ^ (ex + scale) = k * 2 ^ j →
  k * 2 ^ j < 2 ^ (scale + 64) →
  ∃ m e, binary_round prec emax false mx ex = S754_finite false m e ∧
    - 200 ≤ e ∧ Zpos m * 2 ^ (e + scale) = k * 2 ^ j.
Proof.
  intros Hk Hex Hj Heq Hlt. unfold binary_round.
  destruct (shl_align mx ex _) as [mz ez] eqn:Hsh.
  apply shl_align_exact in Hsh as [Hez Hmz]; [|done|].
  - apply round_aux_exact; try done; congruence.
  - unfold fexp, emin, scale in *. rewrite digits2_log2.
    pose proof (Z.log2_mul_pow2 (Zpos mx) (ex + 1100) ltac:(lia) ltac:(lia)) as L1.
    pose proof (Z.log2_mul_pow2 k j ltac:(lia) ltac:(lia)) as L2. rewrite <-Heq in L2.
    pose proof (Z.log2_nonneg k). lia.
Qed.

(** The range of the lemmas below: at most [prec] bits, 50 of them behind the
    point. *)
Definition small (x n : Z) : Prop := 0 ≤ x < 2 ^ prec ∧ 0 ≤ n ≤ 50 ∧ x < 2 ^ (64 + n).

Lemma small_scaled x n : small x n → x * 2 ^ (scale - n) < 2 ^ (scale + 64).
Proof.
  intros (Hx&Hn&Hlt). replace (scale + 64) with ((64 + n) + (scale - n)) by lia.
  unfold scale. rewrite Z.pow_add_r by lia. apply Z.mul_lt_mono_pos_r; [lia|done].
Qed.

Lemma normalize_exact x n mz ez :
  small x n → - scale ≤ ez → mz * 2 ^ (ez + scale) = x * 2 ^ (scale - n) →
  is_dyadic (binary_normalize prec emax mz ez false) x n.
Proof.
  intros Hs Hez Heq. pose proof (small_scaled x n Hs). destruct Hs as (Hx&Hn&_). unfold scale in *.
  assert (0 < 2 ^ (1100 - n)) by lia. assert (0 < 2 ^ (ez + 1100)) by lia.
  destruct mz as [|m|m]; cbn [binary_normalize].
  - left. split; [|done]. nia.
  - right. apply (round_exact m ez x (1100 - n)); unfold scale; try done; lia || nia.
  - nia.
Qed.

Lemma float_of_exact x n : small x n → is_dyadic (float_of prec emax x n) x n.
Proof.
  intros Hs. pose proof Hs as (_&?&_). unfold scale.
  apply normalize_exact; [done|unfold scale; lia|]. do 2 f_equal. lia.
Qed.

Lemma mul_exact f g x n y k :
  is_dyadic f x n → is_dyadic g y k → 0 ≤ n → 0 ≤ k → small (x * y) (n + k) →
  is_dyadic (SFmul prec emax f g) (x * y) (n + k).
Proof.
  intros Hf Hg Hn0 Hk0 Hs. pose proof (small_scaled _ _ Hs).
  destruct Hf as [[-> ->]|(m&e&->&He&Hm)], Hg as [[-> ->]|(m'&e'&->&He'&Hm')].
  - by left.
  - by left.
  - left. by rewrite Z.mul_0_r.
  - right. destruct Hs as (Hx&Hn&_). cbn [SFmul xorb].
    assert (Zpos (m * m') * 2 ^ (e + e' + scale) = x * y * 2 ^ (scale - (n + k))) as Heq.
    { apply (Z.mul_reg_r _ _ (2 ^ scale)); [done|].
      transitivity ((Zpos m * 2 ^ (e + scale)) * (Zpos m' * 2 ^ (e' + scale))).
      - rewrite Pos2Z.inj_mul.
        replace (2 ^ (e + scale)) with (2 ^ (e + scale) * 1) by lia.
        rewrite <-Z.mul_assoc, <-Z.pow_add_r by (unfold scale; lia).
        replace (e + e' + scale + scale) with ((e + scale) + (e' + scale)) by lia.
        rewrite Z.pow_add_r by (unfold scale; lia). lia.
      - rewrite Hm, Hm'.
        replace (2 ^ (scale - n)) with (2 ^ k * 2 ^ (scale - (n + k)))
          by (rewrite <-Z.pow_add_r by (unfold scale; lia); f_equal; lia).
        replace (2 ^ scale) with (2 ^ k * 2 ^ (scale - k))
          by (rewrite <-Z.pow_add_r by (unfold scale; lia); f_equal; lia).
        lia. }
    assert (0 < x * y).
    { enough (0 < x * y * 2 ^ (scale - (n + k))) by nia. rewrite <-Heq.
      apply Z.mul_pos_pos; [lia|]. apply Z.pow_pos_nonneg; unfold scale; lia. }
    apply (round_aux_exact _ _ (x * y) (scale - (n + k))); unfold scale in *; done || lia.
Qed.

Lemma add_exact f g x y n :
  is_dyadic f x n → is_dyadic g y n → 0 ≤ x → 0 ≤ y → small (x + y) n →
  is_dyadic (SFadd prec emax f g) (x + y) n.
Proof.
  intros Hf Hg Hx0 Hy0 Hs.
  destruct Hf as [[-> ->]|(m&e&->&He&Hm)], Hg as [[-> ->]|(m'&e'&->&He'&Hm')].
  - by left.
  - cbn [SFadd]. right. eauto.
  - cbn [SFadd]. rewrite Z.add_0_r. right. eauto.
  - cbn [SFadd cond_Zopp].
    destruct (shl_align m e (Z.min e e')) as [mz ez] eqn:H1.
    destruct (shl_align m' e' (Z.min e e')) as [mz' ez'] eqn:H2. cbn [fst].
    assert (ez = Z.min e e' ∧ ez' = Z.min e e') as [-> ->].
    { unfold shl_align in H1, H2. destruct (Z.min e e' - e) eqn:?, (Z.min e e' - e') eqn:?;
        simplify_eq; lia. }
    apply shl_align_exact in H1 as [_ H1]; [|unfold scale; lia..].
    apply shl_align_exact in H2 as [_ H2]; [|unfold scale; lia..].
    apply normalize_exact; [done|unfold scale; lia|].
    rewrite Z.mul_add_distr_r, H1, H2, Hm, Hm'. lia.
Qed.

(** ** Rounding errors *)
Lemma shr_1_div r : 0 ≤ shr_m r → shr_m (shr_1 r) = shr_m r / 2.
Proof.
  destruct r as [m rb sb]. cbn. intros Hm. destruct m as [|[p|p|]|p]; try done; cbn [shr_m].
  - rewrite (Pos2Z.inj_xI p). dmlia.
  - rewrite (Pos2Z.inj_xO p). dmlia.
Qed.

Lemma shr_floor p m :
  0 ≤ m → shr_m (SpecFloat.iter_pos shr_1 p (Build_shr_record m false false)) = m / 2 ^ Zpos p.
Proof.
  intros Hm. rewrite iter_pos_add. induction p as [|p IH] using Pos.peano_ind.
  - by apply shr_1_div.
  - rewrite Pos.iter_succ, shr_1_div; rewrite IH.
    + rewrite Z.div_div by lia. f_equal. rewrite Pos2Z.inj_succ, Z.pow_succ_r by lia. lia.
    + apply Z.div_pos; lia.
Qed.

Lemma round_nearest_cases m l : round_nearest_even m l = m ∨ round_nearest_even m l = m + 1.
Proof. destruct l as [|[]]; cbn; try destruct (Z.even m); auto. Qed.

(** The result is the number or its successor among those with [prec] bits. *)
Lemma round_aux_error mx ex :
  - scale ≤ ex ≤ emax - prec → emin prec emax ≤ Z.log2 (Zpos mx) + 1 + ex - prec → Z.log2 (Zpos mx) + 1 + ex < emax →
  ∃ m e, binary_round_aux prec emax false (Zpos mx) ex loc_Exact = S754_finite false m e ∧ - scale ≤ e ∧
    Z.abs (Zpos m * 2 ^ (e + scale) - Zpos mx * 2 ^ (ex + scale)) * 2 ^ (prec - 1) ≤ Zpos mx * 2 ^ (ex + scale).
Proof.
  intros Hex Hmin Hmax. unfold scale in *. set (d := Z.log2 (Zpos mx)) in *. set (n := d + 1 - prec).
  assert (n = d + 1 - prec) as Hnd by done.
  pose proof (Z.log2_nonneg (Zpos mx)). pose proof (Z.log2_spec (Zpos mx) ltac:(lia)) as [Hlo Hhi]. fold d in Hlo, Hhi.
  assert (∀ q e, d + ex ≤ Z.log2 (Zpos q) + e →
    fexp prec emax (Zdigits2 (Zpos q) + e) - e = Z.log2 (Zpos q) + 1 - prec) as Hfexp.
  { intros q e Hq. unfold Zdigits2, fexp. rewrite digits2_log2. lia. }
  unfold binary_round_aux, shr_fexp. rewrite Hfexp by lia. fold d n. cbn [shr_record_of_loc].
  destruct (decide (n ≤ 0)) as [Hn|Hn].
  { rewrite shr_nonpos by done. cbn [shr_m loc_of_shr_record round_nearest_even].
    rewrite Hfexp, shr_nonpos by lia. cbn [shr_m]. rewrite (proj2 (Z.leb_le _ _)) by lia.
    exists mx, ex. split_and!; [done|lia|]. rewrite Z.sub_diag. cbn. apply Z.mul_nonneg_nonneg; lia. }
  clearbody n. destruct n as [|p|]; try lia. cbn [shr]. set (r := SpecFloat.iter_pos _ _ _).
  set (l := loc_of_shr_record r). set (q := round_nearest_even (shr_m r) l).
  assert (2 ^ Zpos p * 2 ^ (prec - 1) = 2 ^ d) as Hd by (rewrite <-Z.pow_add_r by lia; f_equal; lia).
  assert (2 ^ Z.succ d = 2 * 2 ^ d) as Hsd by (rewrite Z.pow_succ_r; lia).
  assert (2 ^ prec = 2 * 2 ^ (prec - 1)) as Hpp by (rewrite <-Z.pow_succ_r by lia; f_equal; lia).
  assert (2 ^ (prec - 1) ≤ q ≤ 2 ^ prec ∧ Z.abs (q * 2 ^ Zpos p - Zpos mx) ≤ 2 ^ Zpos p) as [Hq Herr].
  { unfold q. pose proof (round_nearest_cases (shr_m r) l) as Hc. unfold r in Hc |- *. rewrite shr_floor in Hc |- * by lia.
    pose proof (Z.div_mod (Zpos mx) (2 ^ Zpos p) ltac:(lia)). pose proof (Z.mod_pos_bound (Zpos mx) (2 ^ Zpos p) ltac:(lia)).
    set (k := Zpos mx / 2 ^ Zpos p) in *.
    assert (2 ^ (prec - 1) ≤ k < 2 ^ prec) by nia. nia. }
  assert (∀ m e, Zpos m * 2 ^ (e + 1100) = q * 2 ^ (ex + Zpos p + 1100) →
    Z.abs (Zpos m * 2 ^ (e + 1100) - Zpos mx * 2 ^ (ex + 1100)) * 2 ^ (prec - 1) ≤ Zpos mx * 2 ^ (ex + 1100)) as Hfin.
  { intros m e ->. replace (ex + Zpos p + 1100) with (Zpos p + (ex + 1100)) by lia. rewrite Z.pow_add_r by lia.
    set (s := 2 ^ (ex + 1100)). assert (0 < s) by (apply Z.pow_pos_nonneg; lia). rewrite Z.mul_assoc.
    rewrite <-Z.mul_sub_distr_r, Z.abs_mul, (Z.abs_eq s) by lia.
    assert (Z.abs (q * 2 ^ Zpos p - Zpos mx) * 2 ^ (prec - 1) ≤ Zpos mx).
    { etrans; [|exact Hlo]. rewrite <-Hd. by apply Z.mul_le_mono_nonneg_r; [lia|]. }
    rewrite <-Z.mul_assoc, (Z.mul_comm s), Z.mul_assoc. by apply Z.mul_le_mono_nonneg_r; [lia|]. }
  clearbody q. destruct q as [|m|]; try lia. destruct (decide (Zpos m = 2 ^ prec)) as [Hc|Hc].
  - rewrite Hfexp by (rewrite Hc, Z.log2_pow2 by lia; lia). rewrite Hc, Z.log2_pow2 by lia.
    replace (2 ^ prec) with (2 ^ (prec - 1) * 2 ^ 1) by lia. replace (prec + 1 - prec) with 1 by lia.
    rewrite shr_pos by lia. cbn [shr_m]. destruct (2 ^ (prec - 1)) as [|m'|] eqn:Hm'; try lia.
    rewrite (proj2 (Z.leb_le _ _)) by lia. exists m', (ex + Zpos p + 1). split_and!; [done|lia|]. apply Hfin.
    rewrite Hc, Hpp, <-Hm'. replace (ex + Zpos p + 1 + 1100) with (1 + (ex + Zpos p + 1100)) by lia.
    rewrite (Z.pow_add_r 2 1) by lia. lia.
  - assert (Z.log2 (Zpos m) = prec - 1) as Hlm.
    { apply Z.log2_unique; [lia|]. split; [lia|]. replace (Z.succ (prec - 1)) with prec by lia. lia. }
    rewrite Hfexp, shr_nonpos by lia. cbn [shr_m]. rewrite (proj2 (Z.leb_le _ _)) by lia.
    exists m, (ex + Zpos p). split_and!; [done|lia|]. by apply Hfin.
Qed.

(** A product with a constant below 2, up to rounding. *)
Lemma mul_trunc f c mb eb :
  2 * prec ≤ emax → 110 ≤ emax → is_dyadic f c 0 → 0 < c < 2 ^ prec → - 100 ≤ eb → Z.log2 (Zpos mb) + eb ≤ 0 →
  ∃ v, float_trunc (SFmul prec emax f (S754_finite false mb eb)) = Some v ∧ 0 ≤ v ∧
    v * 2 ^ (- eb) * 2 ^ (prec - 1) ≤ c * Zpos mb * (2 ^ (prec - 1) + 1) ∧
    c * Zpos mb * (2 ^ (prec - 1) - 1) < (v + 1) * 2 ^ (- eb) * 2 ^ (prec - 1).
Proof.
  intros Hp2 He110 [[-> _]|(m&e&->&He&Hm)] Hc Heb Hlb; [lia|]. unfold scale in Hm. rewrite Z.sub_0_r in Hm.
  pose proof (Z.log2_mul_pow2 (Zpos m) (e + 1100) ltac:(lia) ltac:(lia)) as L1. rewrite Hm in L1.
  rewrite Z.log2_mul_pow2 in L1 by lia. pose proof (proj1 (Z.log2_lt_pow2 c prec ltac:(lia)) ltac:(lia)).
  pose proof (Z.log2_nonneg c). pose proof (Z.log2_nonneg (Zpos m)). pose proof (Z.log2_nonneg (Zpos mb)).
  pose proof (Z.log2_mul_below (Zpos m) (Zpos mb) ltac:(lia) ltac:(lia)).
  pose proof (Z.log2_mul_above (Zpos m) (Zpos mb) ltac:(lia) ltac:(lia)).
  cbn [SFmul xorb]. rewrite Pos2Z.inj_mul. change (Zpos m * Zpos mb) with (Zpos (m * mb)) in *.
  destruct (round_aux_error (m * mb) (e + eb)) as (m'&e'&->&He'&Herr); [unfold scale, emin in *; lia..|].
  unfold scale in *. set (V := Zpos m' * 2 ^ (e' + 1100)) in *.
  assert (Zpos (m * mb) * 2 ^ (e + eb + 1100) = c * Zpos mb * 2 ^ (eb + 1100)) as HX.
  { apply (Z.mul_reg_r _ _ (2 ^ (- eb))); [lia|]. rewrite <-!Z.mul_assoc, <-!Z.pow_add_r by lia.
    replace (e + eb + 1100 + - eb) with (e + 1100) by lia. replace (eb + 1100 + - eb) with 1100 by lia.
    rewrite Pos2Z.inj_mul. lia. }
  rewrite HX in Herr. set (k := 2 ^ (eb + 1100)) in *. assert (0 < k) by (apply Z.pow_pos_nonneg; lia).
  set (Q := 2 ^ (prec - 1)) in *. assert (0 < Q) by (apply Z.pow_pos_nonneg; lia).
  assert (2 ^ (- eb) * k = 2 ^ 1100) as Hk by (unfold k; rewrite <-Z.pow_add_r by lia; f_equal; lia).
  assert (float_trunc (S754_finite false m' e') = Some (V / 2 ^ 1100)) as ->.
  { cbn [float_trunc]. f_equal. unfold V. zcase.
    - rewrite Z.pow_add_r, Z.mul_assoc, Z.div_mul by lia. done.
    - replace 1100 with (- e' + (e' + 1100)) at 2 by lia. rewrite (Z.pow_add_r _ (- e')), Z.div_mul_cancel_r by lia. done. }
  assert (0 < V) by (apply Z.mul_pos_pos; [lia|apply Z.pow_pos_nonneg; lia]).
  pose proof (Z.div_mod V (2 ^ 1100) ltac:(lia)). pose proof (Z.mod_pos_bound V (2 ^ 1100) ltac:(lia)).
  eexists. split; [done|]. split; [apply Z.div_pos; lia|]. set (v := V / 2 ^ 1100) in *.
  rewrite <-Hk in *. set (B := 2 ^ (- eb)) in *. clearbody V v k Q B.
  split; apply (Z.mul_le_mono_pos_r _ _ k) || apply (Z.mul_lt_mono_pos_r k); nia.
Qed.
End exact.

Lemma trunc_exact f x n : is_dyadic f x n → 0 ≤ n ≤ 50 → float_trunc f = Some (x / 2 ^ n).
Proof.
  intros [[-> ->]|(m&e&->&He&Hm)] Hn; [done|]. cbn. f_equal. unfold scale in *.
  assert (x / 2 ^ n = (x * 2 ^ (1100 - n)) / 2 ^ 1100) as ->.
  { replace 1100 with (n + (1100 - n)) at 2 by lia.
    rewrite Z.pow_add_r, Z.div_mul_cancel_r by lia. done. }
  rewrite <-Hm. zcase.
  - rewrite Z.pow_add_r, Z.mul_assoc, Z.div_mul by lia. done.
  - replace 1100 with (- e + (e + 1100)) at 2 by lia.
    rewrite (Z.pow_add_r _ (- e)), Z.div_mul_cancel_r by lia. done.
Qed.

Lemma int64_exact f x n :
  is_dyadic f x n → 0 ≤ n ≤ 50 → 0 ≤ x / 2 ^ n < 2 ^ 63 → int64_of_float f = x / 2 ^ n.
Proof.
  intros Hf Hn Hx. unfold int64_of_float. rewrite (trunc_exact f x n) by done.
  by rewrite (proj2 (Z.leb_le _ _)), (proj2 (Z.ltb_lt _ _)) by lia.
Qed.
