(* ===== verification/RTTStats.v ===== *)
(** * Round-trip statistics (internal/utils/rtt_stats.go)

    Durations are in nanoseconds.  The averages are computed on microseconds with
    [float32]. *)

From S2P Require Import Prelude Float.

Definition Microsecond : Z := 1000.
Definition Millisecond : Z := 1000000.
Definition TimerGranularity : Z := Millisecond.

Definition rttAlpha := const32 1 3.
Definition oneMinusAlpha := const32 7 3.
Definition rttBeta := const32 1 2.
Definition oneMinusBeta := const32 3 2.
Definition defaultInitialRTT : Z := 100 * Millisecond.

Record RTTStats := mkRTTStats {
  hasMeasurement : bool;
  minRTT : Z;
  latestRTT : Z;
  smoothedRTT : Z;
  meanDeviation : Z;
  rtt_maxAckDelay : Z;
}.

Definition zeroRTTStats : RTTStats := mkRTTStats false 0 0 0 0 0.

Definition PTO (r : RTTStats) (includeMaxAckDelay : bool) : Z :=
  if smoothedRTT r =? 0 then 2 * defaultInitialRTT else
  let pto := i64 (smoothedRTT r + Z.max (i64 (4 * meanDeviation r)) TimerGranularity) in
  if includeMaxAckDelay then i64 (pto + rtt_maxAckDelay r) else pto.

Definition UpdateRTT (r : RTTStats) (sendDelta ackDelay : Z) : RTTStats :=
  if sendDelta <=? 0 then r else
  let minRTT := if (minRTT r =? 0) || (sendDelta <? minRTT r) then sendDelta else minRTT r in
  let sample := if ackDelay <=? sendDelta - minRTT then sendDelta - ackDelay else sendDelta in
  if negb (hasMeasurement r) then
    mkRTTStats true minRTT sample sample (Z.quot sample 2) (rtt_maxAckDelay r)
  else
    let meanDeviation :=
      i64 (int64_of_float
        (add32 (mul32 oneMinusBeta (float32 (Z.quot (meanDeviation r) Microsecond)))
               (mul32 rttBeta (float32 (Z.quot (Z.abs (smoothedRTT r - sample)) Microsecond))))
        * Microsecond) in
    let smoothedRTT :=
      i64 (int64_of_float
        (add32 (mul32 (float32 (Z.quot (smoothedRTT r) Microsecond)) oneMinusAlpha)
               (mul32 (float32 (Z.quot sample Microsecond)) rttAlpha))
        * Microsecond) in
    mkRTTStats true minRTT sample smoothedRTT meanDeviation (rtt_maxAckDelay r).

Definition SetMaxAckDelay (r : RTTStats) (mad : Z) : RTTStats :=
  mkRTTStats (hasMeasurement r) (minRTT r) (latestRTT r) (smoothedRTT r) (meanDeviation r) mad.

Definition SetInitialRTT (r : RTTStats) (t : Z) : RTTStats :=
  if hasMeasurement r then r
  else mkRTTStats false (minRTT r) t t (meanDeviation r) (rtt_maxAckDelay r).

Definition ResetForPathMigration (r : RTTStats) : RTTStats :=
  mkRTTStats false 0 0 0 0 (rtt_maxAckDelay r).

(** ** The averages *)

(** About two seconds: the range in which [float32] is exact. *)
Definition maxExactRTT : Z := 2 ^ 21 * Microsecond.

Lemma weigh x a n :
  0 ≤ x < 2 ^ 21 → 0 ≤ a ≤ 7 → 0 ≤ n ≤ 3 →
  is_dyadic (mul32 (const32 a n) (float32 x)) (a * x) n ∧
  is_dyadic (mul32 (float32 x) (const32 a n)) (a * x) n.
Proof.
  intros Hx Ha Hn.
  assert (is_dyadic (float32 x) x 0) as Hfx by (apply float_of_exact; unfold small; lia).
  assert (0 < 2 ^ n) by lia.
  assert (2 ^ 64 ≤ 2 ^ (64 + n)) by (apply Z.pow_le_mono_r; lia).
  assert (is_dyadic (const32 a n) a n) as Hfa by (apply float_of_exact; unfold small; lia).
  split.
  - replace n with (n + 0) at 2 by lia. apply mul_exact; try done; try lia.
    unfold small. rewrite Z.add_0_r. nia.
  - rewrite Z.mul_comm. apply (mul_exact 24 128) with (x:=x) (n:=0) (y:=a) (k:=n); try done; try lia.
    unfold small. rewrite Z.add_0_l. nia.
Qed.

Lemma ewma_exact f g x y a b n :
  is_dyadic f (a * x) n → is_dyadic g (b * y) n →
  0 ≤ x < 2 ^ 21 → 0 ≤ y < 2 ^ 21 → 0 ≤ a → 0 ≤ b → a + b = 2 ^ n → 0 ≤ n ≤ 3 →
  i64 (int64_of_float (add32 f g) * Microsecond) = (a * x + b * y) / 2 ^ n * Microsecond.
Proof.
  intros Hf Hg Hx Hy Ha Hb Hab Hn.
  assert (0 < 2 ^ n ≤ 2 ^ 3) by (split; [lia|apply Z.pow_le_mono_r; lia]).
  assert (2 ^ 64 ≤ 2 ^ (64 + n)) by (apply Z.pow_le_mono_r; lia).
  assert (0 ≤ (a * x + b * y) / 2 ^ n < 2 ^ 21).
  { split; [apply Z.div_pos; nia|]. apply Z.div_lt_upper_bound; nia. }
  rewrite (int64_exact _ (a * x + b * y) n); [| |lia|lia].
  - apply i64_small. unfold Microsecond. lia.
  - apply add_exact; try done; try nia. unfold small. nia.
Qed.

(** An RTT in microseconds. *)
Lemma micro_range t : 0 ≤ t < maxExactRTT → 0 ≤ Z.quot t Microsecond < 2 ^ 21.
Proof.
  unfold maxExactRTT, Microsecond. intros Ht. rewrite Z.quot_div_nonneg by lia. dmlia.
Qed.

Lemma UpdateRTT_average r sendDelta ackDelay :
  hasMeasurement r = true → 0 < sendDelta < maxExactRTT → 0 ≤ ackDelay → 0 ≤ minRTT r →
  0 ≤ smoothedRTT r < maxExactRTT → 0 ≤ meanDeviation r < maxExactRTT →
  let r' := UpdateRTT r sendDelta ackDelay in
  smoothedRTT r' = (7 * (smoothedRTT r / 1000) + latestRTT r' / 1000) / 8 * 1000 ∧
  meanDeviation r' = (3 * (meanDeviation r / 1000) + Z.abs (smoothedRTT r - latestRTT r') / 1000) / 4 * 1000.
Proof.
  intros Hm Hs Ha Hmin Hsm Hmd. unfold UpdateRTT. rewrite (proj2 (Z.leb_gt _ _)), Hm by lia. cbn [negb].
  set (mn := if _ || _ then _ else _). set (smp := if ackDelay <=? _ then _ else _).
  cbn [smoothedRTT meanDeviation latestRTT]. unfold oneMinusAlpha, rttAlpha, oneMinusBeta, rttBeta.
  assert (0 ≤ mn ≤ sendDelta) as Hmn by (unfold mn; repeat zcase; lia).
  assert (0 ≤ smp < maxExactRTT) as Hsmp by (unfold smp; zcase; lia).
  assert (0 ≤ Z.abs (smoothedRTT r - smp) < maxExactRTT) as Hab by lia.
  pose proof (micro_range _ Hsm) as H1. pose proof (micro_range _ Hsmp) as H2.
  pose proof (micro_range _ Hmd) as H3. pose proof (micro_range _ Hab) as H4.
  rewrite (ewma_exact _ _ _ _ _ _ _ (proj2 (weigh _ 7 3 H1 ltac:(lia) ltac:(lia)))
    (proj2 (weigh _ 1 3 H2 ltac:(lia) ltac:(lia)))) by (done || lia).
  rewrite (ewma_exact _ _ _ _ _ _ _ (proj1 (weigh _ 3 2 H3 ltac:(lia) ltac:(lia)))
    (proj1 (weigh _ 1 2 H4 ltac:(lia) ltac:(lia)))) by (done || lia).
  rewrite !Z.quot_div_nonneg by (unfold Microsecond; lia). rewrite !Z.mul_1_l. done.
Qed.

(** ** The statistics after a sequence of acknowledgements *)
Definition update_all (r : RTTStats) (acks : list (Z * Z)) : RTTStats :=
  foldl (λ r a, UpdateRTT r a.1 a.2) r acks.

Record rtt_inv (M : Z) (deltas : list Z) (r : RTTStats) : Prop := {
  rtt_measured : hasMeasurement r = true;
  rtt_min : minRTT r ∈ deltas ∧ Forall (λ d, minRTT r ≤ d) deltas;
  rtt_positive : 0 < minRTT r;
  rtt_latest : minRTT r ≤ latestRTT r ≤ M;
  rtt_smoothed : minRTT r / 1000 * 1000 ≤ smoothedRTT r ≤ M;
  rtt_deviation : 0 ≤ meanDeviation r ≤ M;
}.

Lemma UpdateRTT_min r sendDelta ackDelay :
  0 < sendDelta → 0 ≤ ackDelay →
  let r' := UpdateRTT r sendDelta ackDelay in
  hasMeasurement r' = true ∧
  minRTT r' = (if minRTT r =? 0 then sendDelta else Z.min (minRTT r) sendDelta) ∧
  minRTT r' ≤ latestRTT r' ≤ sendDelta.
Proof.
  intros Hs Ha. unfold UpdateRTT. rewrite (proj2 (Z.leb_gt _ _)) by lia.
  set (mn := if _ || _ then _ else _).
  assert (mn = if minRTT r =? 0 then sendDelta else Z.min (minRTT r) sendDelta) as Hmn.
  { unfold mn. repeat zcase; lia. }
  assert (mn ≤ sendDelta) by (rewrite Hmn; zcase; lia).
  destruct (hasMeasurement r); cbn; (split_and!; [done..| |]); zcase; lia.
Qed.

Lemma first_update M r sendDelta ackDelay :
  hasMeasurement r = false → minRTT r = 0 → 0 < sendDelta ≤ M → 0 ≤ ackDelay →
  rtt_inv M [sendDelta] (UpdateRTT r sendDelta ackDelay).
Proof.
  intros Hm H0 Hs Ha. destruct (UpdateRTT_min r sendDelta ackDelay) as (H1&H2&H3); [lia..|].
  rewrite H0 in H2. cbn in H2. rewrite H2 in *.
  assert (smoothedRTT (UpdateRTT r sendDelta ackDelay) = latestRTT (UpdateRTT r sendDelta ackDelay) ∧
          meanDeviation (UpdateRTT r sendDelta ackDelay) =
            latestRTT (UpdateRTT r sendDelta ackDelay) `quot` 2) as [H4 H5].
  { unfold UpdateRTT. rewrite (proj2 (Z.leb_gt _ _)), Hm by lia. done. }
  split; rewrite ?H2, ?H4, ?H5; [done| |lia..| |].
  - split; [set_solver|]. by apply Forall_singleton.
  - dmlia.
  - rewrite Z.quot_div_nonneg by lia. dmlia.
Qed.

Lemma next_update M deltas r sendDelta ackDelay :
  M < maxExactRTT → rtt_inv M deltas r → 0 < sendDelta ≤ M → 0 ≤ ackDelay →
  rtt_inv M (sendDelta :: deltas) (UpdateRTT r sendDelta ackDelay).
Proof.
  intros HM [Hm [Hin Hall] Hp Hl Hsm Hd] Hs Ha.
  destruct (UpdateRTT_min r sendDelta ackDelay) as (H1&H2&H3); [lia..|].
  rewrite (proj2 (Z.eqb_neq _ _)) in H2 by lia.
  assert (0 ≤ smoothedRTT r) by dmlia.
  destruct (UpdateRTT_average r sendDelta ackDelay) as [H4 H5]; [done|lia..|].
  split; [done| |lia|lia|rewrite H4|rewrite H5]; [|dmlia..]. rewrite H2. split.
  - destruct (Z.min_spec (minRTT r) sendDelta) as [[_ ->]|[_ ->]]; set_solver.
  - constructor; [lia|]. eapply Forall_impl; [done|]. cbn. lia.
Qed.

Lemma update_all_inv M acks deltas r :
  M < maxExactRTT → Forall (λ a, 0 < a.1 ≤ M ∧ 0 ≤ a.2) acks → rtt_inv M deltas r →
  rtt_inv M (reverse acks.*1 ++ deltas) (update_all r acks).
Proof.
  intros HM Hacks. revert deltas r. induction Hacks as [|a acks [Ha Hd] _ IH]; intros deltas r Hr; [done|].
  rewrite fmap_cons, reverse_cons, <-app_assoc. unfold update_all. cbn [foldl app]. apply IH.
  by apply next_update.
Qed.

(** C39: Below about two seconds the RTT statistics are those of RFC 9002.  The
    sample is the measured time without the peer's delay, unless that were below
    the minimum.  The moving averages are exact on microseconds, rounded down: [7/8]
    of the old and [1/8] of the new value for the RTT, [3/4] and [1/4] for its
    deviation. *)
Theorem rtt_moving_average r sendDelta ackDelay :
  hasMeasurement r = true → 0 < sendDelta < maxExactRTT → 0 ≤ ackDelay → 0 < minRTT r →
  0 ≤ smoothedRTT r < maxExactRTT → 0 ≤ meanDeviation r < maxExactRTT →
  let r' := UpdateRTT r sendDelta ackDelay in
  minRTT r' = Z.min (minRTT r) sendDelta ∧
  latestRTT r' = (if ackDelay <=? sendDelta - minRTT r' then sendDelta - ackDelay else sendDelta) ∧
  smoothedRTT r' = (7 * (smoothedRTT r / 1000) + latestRTT r' / 1000) / 8 * 1000 ∧
  meanDeviation r' = (3 * (meanDeviation r / 1000) + Z.abs (smoothedRTT r - latestRTT r') / 1000) / 4 * 1000.
Proof.
  intros Hm Hs Ha Hmin Hsm Hmd r'.
  destruct (UpdateRTT_min r sendDelta ackDelay) as (_&H2&_); [lia..|].
  rewrite (proj2 (Z.eqb_neq _ _)) in H2 by lia. split; [done|]. split.
  - unfold r', UpdateRTT. rewrite (proj2 (Z.leb_gt _ _)), Hm by lia. done.
  - apply UpdateRTT_average; done || lia.
Qed.

(** After any sequence of RTT samples of at most [M] (below about two seconds)
    with any acknowledgement delays, [minRTT] is the smallest sample, the smoothed
    RTT lies between it (in whole microseconds) and [M], and the probe timeout is
    at least a millisecond longer than the smoothed RTT and at most [5 M] and a
    millisecond. *)
Theorem rtt_statistics_bounded M r sendDelta ackDelay acks :
  M < maxExactRTT → hasMeasurement r = false → minRTT r = 0 →
  Forall (λ a, 0 < a.1 ≤ M ∧ 0 ≤ a.2) ((sendDelta, ackDelay) :: acks) →
  let r' := update_all r ((sendDelta, ackDelay) :: acks) in
  minRTT r' ∈ sendDelta :: acks.*1 ∧ Forall (λ d, minRTT r' ≤ d) (sendDelta :: acks.*1) ∧
  minRTT r' / 1000 * 1000 ≤ smoothedRTT r' ≤ M ∧
  (smoothedRTT r' ≠ 0 → smoothedRTT r' + Millisecond ≤ PTO r' false ≤ 5 * M + Millisecond).
Proof.
  intros HM Hm H0 [[Hs Ha] Hacks]%Forall_cons r'. cbn in Hs, Ha.
  pose proof (update_all_inv M acks [sendDelta] _ HM Hacks (first_update M r sendDelta ackDelay Hm H0 Hs Ha))
    as [_ [Hin Hall] Hp Hl Hsm Hd].
  change (update_all (UpdateRTT r sendDelta ackDelay) acks) with r' in *.
  assert (reverse acks.*1 ++ [sendDelta] ≡ₚ sendDelta :: acks.*1) as Hperm.
  { by rewrite (reverse_Permutation acks.*1), (Permutation_app_comm _ [sendDelta]). }
  rewrite Hperm in Hin, Hall. split_and!; [done..|lia|lia|]. intros Hne.
  unfold PTO. rewrite (proj2 (Z.eqb_neq _ _)) by done.
  unfold maxExactRTT, Microsecond, TimerGranularity, Millisecond in *.
  assert (0 ≤ smoothedRTT r') by dmlia. rewrite !i64_small; rewrite ?i64_small; lia.
Qed.

Definition example_rtt : RTTStats := UpdateRTT zeroRTTStats (30 * Millisecond) 0.

Lemma rtt_moving_average_witness :
  smoothedRTT (UpdateRTT example_rtt (46 * Millisecond) (5 * Millisecond)) = 31375000 ∧
  meanDeviation (UpdateRTT example_rtt (46 * Millisecond) (5 * Millisecond)) = 14000000.
Proof.
  destruct (rtt_moving_average example_rtt (46 * Millisecond) (5 * Millisecond)) as (_&_&->&->);
    try (vm_compute; done); vm_compute; split; done.
Defined.

Lemma rtt_statistics_bounded_witness :
  let r' := update_all zeroRTTStats [(30 * Millisecond, 0); (46 * Millisecond, 5 * Millisecond)] in
  minRTT r' / 1000 * 1000 ≤ smoothedRTT r' ≤ 50 * Millisecond.
Proof.
  destruct (rtt_statistics_bounded (50 * Millisecond) zeroRTTStats (30 * Millisecond) 0
    [(46 * Millisecond, 5 * Millisecond)]) as (_&_&H&_); [done..| |exact H].
  repeat constructor; cbn; done.
Defined.
