(* ===== verification/FlowControl.v ===== *)
(** * Flow control (internal/flowcontrol)

    The flow controllers of the streams and of the connection they share.  Times
    are in nanoseconds, 0 is the zero [time.Time].  The counters are sums of stream
    offsets below [2^62] that the windows bound, they stay far from the limits of
    [int64].  The locks and the logging are left out; the RTT statistics are an
    argument of the operations that read them. *)

From S2P Require Import Prelude Float RTTStats.

(** [1 - protocol.WindowUpdateThreshold] and [protocol.ConnectionFlowControlMultiplier] *)
Definition oneMinusWindowUpdateThreshold := const64 3 2.
Definition ConnectionFlowControlMultiplier := const64 3 1.

Definition FlowControlError : Z := 3.
Definition FinalSizeError : Z := 6.

Record baseFlowController := mkBase {
  bytesSent : Z;
  sendWindow : Z;
  lastBlockedAt : Z;
  bytesRead : Z;
  highestReceived : Z;
  receiveWindow : Z;
  receiveWindowSize : Z;
  maxReceiveWindowSize : Z;
  allowWindowIncrease : option (Z → bool);
  epochStartTime : Z;
  epochStartOffset : Z;
}.

(** ** Assignments to the fields *)
Section fields.
Variables (c : baseFlowController) (x : Z).
Definition set_bytesSent := mkBase x (sendWindow c) (lastBlockedAt c) (bytesRead c)
  (highestReceived c) (receiveWindow c) (receiveWindowSize c) (maxReceiveWindowSize c)
  (allowWindowIncrease c) (epochStartTime c) (epochStartOffset c).
Definition set_sendWindow := mkBase (bytesSent c) x (lastBlockedAt c) (bytesRead c)
  (highestReceived c) (receiveWindow c) (receiveWindowSize c) (maxReceiveWindowSize c)
  (allowWindowIncrease c) (epochStartTime c) (epochStartOffset c).
Definition set_lastBlockedAt := mkBase (bytesSent c) (sendWindow c) x (bytesRead c)
  (highestReceived c) (receiveWindow c) (receiveWindowSize c) (maxReceiveWindowSize c)
  (allowWindowIncrease c) (epochStartTime c) (epochStartOffset c).
Definition set_bytesRead := mkBase (bytesSent c) (sendWindow c) (lastBlockedAt c) x
  (highestReceived c) (receiveWindow c) (receiveWindowSize c) (maxReceiveWindowSize c)
  (allowWindowIncrease c) (epochStartTime c) (epochStartOffset c).
Definition set_highestReceived := mkBase (bytesSent c) (sendWindow c) (lastBlockedAt c)
  (bytesRead c) x (receiveWindow c) (receiveWindowSize c) (maxReceiveWindowSize c)
  (allowWindowIncrease c) (epochStartTime c) (epochStartOffset c).
Definition set_receiveWindow := mkBase (bytesSent c) (sendWindow c) (lastBlockedAt c)
  (bytesRead c) (highestReceived c) x (receiveWindowSize c) (maxReceiveWindowSize c)
  (allowWindowIncrease c) (epochStartTime c) (epochStartOffset c).
Definition set_receiveWindowSize := mkBase (bytesSent c) (sendWindow c) (lastBlockedAt c)
  (bytesRead c) (highestReceived c) (receiveWindow c) x (maxReceiveWindowSize c)
  (allowWindowIncrease c) (epochStartTime c) (epochStartOffset c).
End fields.

(** ** The base controller *)
Definition SendWindowSize (c : baseFlowController) : Z :=
  if sendWindow c <? bytesSent c then 0 else sendWindow c - bytesSent c.

Definition IsNewlyBlocked (c : baseFlowController) : baseFlowController * (bool * Z) :=
  if negb (SendWindowSize c =? 0) || (sendWindow c =? lastBlockedAt c) then (c, (false, 0))
  else (set_lastBlockedAt c (sendWindow c), (true, sendWindow c)).

Definition AddBytesSent (c : baseFlowController) (n : Z) : baseFlowController :=
  set_bytesSent c (bytesSent c + n).

Definition UpdateSendWindow (c : baseFlowController) (offset : Z) : baseFlowController * bool :=
  if sendWindow c <? offset then (set_sendWindow c offset, true) else (c, false).

Definition addBytesRead (c : baseFlowController) (n : Z) : baseFlowController :=
  set_bytesRead c (bytesRead c + n).

Definition hasWindowUpdate (c : baseFlowController) : bool :=
  let bytesRemaining := receiveWindow c - bytesRead c in
  bytesRemaining <=?
    int64_of_float (mul64 (float64 (receiveWindowSize c)) oneMinusWindowUpdateThreshold).

Definition startNewAutoTuningEpoch (c : baseFlowController) (now : Z) : baseFlowController :=
  mkBase (bytesSent c) (sendWindow c) (lastBlockedAt c) (bytesRead c) (highestReceived c)
    (receiveWindow c) (receiveWindowSize c) (maxReceiveWindowSize c) (allowWindowIncrease c)
    now (bytesRead c).

(** The window is consumed too fast. *)
Definition consumedTooFast (c : baseFlowController) (rtt now : Z) : bool :=
  let fraction := div64 (float64 (bytesRead c - epochStartOffset c)) (float64 (receiveWindowSize c)) in
  time_Sub now (epochStartTime c) <?
    int64_of_float (mul64 (mul64 (const64 4 0) fraction) (float64 rtt)).

Definition maybeAdjustWindowSize (c : baseFlowController) (rttStats : RTTStats) (now : Z)
  : baseFlowController :=
  let bytesReadInEpoch := bytesRead c - epochStartOffset c in
  if bytesReadInEpoch <=? Z.quot (receiveWindowSize c) 2 then c else
  let rtt := smoothedRTT rttStats in
  if rtt =? 0 then c else
  let c :=
    if consumedTooFast c rtt now then
      let newSize := Z.min (2 * receiveWindowSize c) (maxReceiveWindowSize c) in
      if (receiveWindowSize c <? newSize) &&
         match allowWindowIncrease c with
         | None => true
         | Some allow => allow (newSize - receiveWindowSize c)
         end
      then set_receiveWindowSize c newSize else c
    else c in
  startNewAutoTuningEpoch c now.

Definition getWindowUpdate (c : baseFlowController) (rttStats : RTTStats) (now : Z)
  : baseFlowController * Z :=
  if negb (hasWindowUpdate c) then (c, 0) else
  let c := maybeAdjustWindowSize c rttStats now in
  let c := set_receiveWindow c (bytesRead c + receiveWindowSize c) in
  (c, receiveWindow c).

Definition checkFlowControlViolation (c : baseFlowController) : bool :=
  receiveWindow c <? highestReceived c.

(** ** The connection's controller *)
Definition connectionFlowController : Type := baseFlowController.

Definition NewConnectionFlowController (receiveWindow maxReceiveWindow : Z)
    (allowWindowIncrease : option (Z → bool)) : connectionFlowController :=
  mkBase 0 0 0 0 0 receiveWindow receiveWindow maxReceiveWindow allowWindowIncrease 0 0.

Definition IncrementHighestReceived (c : connectionFlowController) (increment now : Z)
  : connectionFlowController * option error :=
  let c := if highestReceived c =? 0 then startNewAutoTuningEpoch c now else c in
  let c := set_highestReceived c (highestReceived c + increment) in
  if checkFlowControlViolation c then
    (c, Some (TransportError FlowControlError 0
      (ErrorString "received %d bytes for the connection, allowed %d bytes"
         [highestReceived c; receiveWindow c])))
  else (c, None).

Definition Conn_AddBytesRead (c : connectionFlowController) (n : Z)
  : connectionFlowController * bool :=
  let c := addBytesRead c n in (c, hasWindowUpdate c).

Definition Conn_GetWindowUpdate (c : connectionFlowController) (rttStats : RTTStats) (now : Z)
  : connectionFlowController * Z :=
  getWindowUpdate c rttStats now.

(** The callback is called without a check for nil. *)
Definition EnsureMinimumWindowSize (c : connectionFlowController) (inc now : Z)
  : res connectionFlowController :=
  if inc <=? receiveWindowSize c then Ok c else
  let newSize := Z.min inc (maxReceiveWindowSize c) in
  let delta := newSize - receiveWindowSize c in
  c ← (if 0 <? delta then
         match allowWindowIncrease c with
         | None => Panic
         | Some allow => Ok (if allow delta then set_receiveWindowSize c newSize else c)
         end
       else Ok c);
  Ok (startNewAutoTuningEpoch c now).

Definition Reset_ (c : connectionFlowController) : res connectionFlowController :=
  if (0 <? bytesRead c) || (0 <? highestReceived c) || negb (epochStartTime c =? 0)
  then Err (ErrorString "flow controller reset after reading data" [])
  else Ok (set_sendWindow (set_lastBlockedAt (set_bytesSent c 0) 0) 0).

(** ** The controller of a stream *)
Record streamFlowController := mkStream {
  base : baseFlowController;
  streamID : Z;
  receivedFinalOffset : bool;
}.

Definition NewStreamFlowController (streamID receiveWindow maxReceiveWindow initialSendWindow : Z)
  : streamFlowController :=
  mkStream (mkBase 0 initialSendWindow 0 0 0 receiveWindow receiveWindow maxReceiveWindow None 0 0)
    streamID false.

Definition set_base (s : streamFlowController) (c : baseFlowController) : streamFlowController :=
  mkStream c (streamID s) (receivedFinalOffset s).

(** The consistency of the offset with a known final offset. *)
Definition checkFinalOffset (s : streamFlowController) (offset : Z) (final : bool) : option error :=
  if receivedFinalOffset s then
    if final && negb (offset =? highestReceived (base s)) then
      Some (TransportError FinalSizeError 0
        (ErrorString "received inconsistent final offset for stream %d (old: %d, new: %d bytes)"
           [streamID s; highestReceived (base s); offset]))
    else if highestReceived (base s) <? offset then
      Some (TransportError FinalSizeError 0
        (ErrorString "received offset %d for stream %d, but final offset was already received at %d"
           [offset; streamID s; highestReceived (base s)]))
    else None
  else None.

(** The error is returned beside the state, which has changed. *)
Definition UpdateHighestReceived (s : streamFlowController) (conn : connectionFlowController)
    (offset : Z) (final : bool) (now : Z)
  : streamFlowController * connectionFlowController * option error :=
  match checkFinalOffset s offset final with
  | Some err => (s, conn, Some err)
  | None =>
      let s := if final then mkStream (base s) (streamID s) true else s in
      if offset =? highestReceived (base s) then (s, conn, None) else
      if offset <? highestReceived (base s) then
        if final then
          (s, conn, Some (TransportError FinalSizeError 0
             (ErrorString "received final offset %d for stream %d, but already received offset %d before"
                [offset; streamID s; highestReceived (base s)])))
        else (s, conn, None)
      else
        let s := if highestReceived (base s) =? 0
                 then set_base s (startNewAutoTuningEpoch (base s) now) else s in
        let increment := offset - highestReceived (base s) in
        let s := set_base s (set_highestReceived (base s) offset) in
        if checkFlowControlViolation (base s) then
          (s, conn, Some (TransportError FlowControlError 0
             (ErrorString "received %d bytes on stream %d, allowed %d bytes"
                [offset; streamID s; receiveWindow (base s)])))
        else
          let '(conn, err) := IncrementHighestReceived conn increment now in (s, conn, err)
  end.

Definition shouldQueueWindowUpdate (s : streamFlowController) : bool :=
  negb (receivedFinalOffset s) && hasWindowUpdate (base s).

Definition Stream_AddBytesRead (s : streamFlowController) (conn : connectionFlowController) (n : Z)
  : streamFlowController * connectionFlowController * (bool * bool) :=
  let s := set_base s (addBytesRead (base s) n) in
  let hasStreamWindowUpdate := shouldQueueWindowUpdate s in
  let '(conn, hasConnWindowUpdate) := Conn_AddBytesRead conn n in
  (s, conn, (hasStreamWindowUpdate, hasConnWindowUpdate)).

Definition Abandon (s : streamFlowController) (conn : connectionFlowController)
  : streamFlowController * connectionFlowController :=
  let unread := highestReceived (base s) - bytesRead (base s) in
  let s := set_base s (set_bytesRead (base s) (highestReceived (base s))) in
  if 0 <? unread then (s, (Conn_AddBytesRead conn unread).1) else (s, conn).

Definition Stream_AddBytesSent (s : streamFlowController) (conn : connectionFlowController) (n : Z)
  : streamFlowController * connectionFlowController :=
  (set_base s (AddBytesSent (base s) n), AddBytesSent conn n).

Definition Stream_SendWindowSize (s : streamFlowController) (conn : connectionFlowController) : Z :=
  Z.min (SendWindowSize (base s)) (SendWindowSize conn).

Definition Stream_IsNewlyBlocked (s : streamFlowController) : streamFlowController * bool :=
  let '(c, (blocked, _)) := IsNewlyBlocked (base s) in (set_base s c, blocked).

Definition Stream_GetWindowUpdate (s : streamFlowController) (conn : connectionFlowController)
    (rttStats : RTTStats) (now : Z) : res (streamFlowController * connectionFlowController * Z) :=
  if receivedFinalOffset s then Ok (s, conn, 0) else
  let oldWindowSize := receiveWindowSize (base s) in
  let '(c, offset) := getWindowUpdate (base s) rttStats now in
  conn ← (if oldWindowSize <? receiveWindowSize c
          then EnsureMinimumWindowSize conn
                 (int64_of_float (mul64 (float64 (receiveWindowSize c)) ConnectionFlowControlMultiplier))
                 now
          else Ok conn);
  Ok (set_base s c, conn, offset).

(** ** Window updates *)

(** Window sizes for which the floating-point threshold is exact. *)
Definition maxWindow : Z := 2 ^ 51.

Lemma hasWindowUpdate_eq c :
  0 ≤ receiveWindowSize c < maxWindow →
  hasWindowUpdate c = (4 * (receiveWindow c - bytesRead c) <=? 3 * receiveWindowSize c).
Proof.
  intros Hs. unfold maxWindow in Hs. unfold hasWindowUpdate.
  assert (is_dyadic (mul64 (float64 (receiveWindowSize c)) oneMinusWindowUpdateThreshold)
            (receiveWindowSize c * 3) (0 + 2)) as Hf.
  { apply mul_exact; try lia; [apply float_of_exact; unfold small; lia..|]. unfold small. lia. }
  rewrite (int64_exact _ _ _ Hf) by (lia || (change (2 ^ (0 + 2)) with 4; dmlia)).
  change (2 ^ (0 + 2)) with 4. destruct (Z.leb_spec (4 * (receiveWindow c - bytesRead c)) (3 * receiveWindowSize c)).
  - apply Z.leb_le. dmlia.
  - apply Z.leb_gt. dmlia.
Qed.

(** What window updates and auto-tuning leave alone. *)
Record same_counters (c c' : baseFlowController) : Prop := {
  same_sent : bytesSent c' = bytesSent c;
  same_sendWindow : sendWindow c' = sendWindow c;
  same_read : bytesRead c' = bytesRead c;
  same_highest : highestReceived c' = highestReceived c;
  same_max : maxReceiveWindowSize c' = maxReceiveWindowSize c;
  same_allow : allowWindowIncrease c' = allowWindowIncrease c;
}.

Lemma maybeAdjustWindowSize_spec c rtt now :
  let c' := maybeAdjustWindowSize c rtt now in
  same_counters c c' ∧ receiveWindow c' = receiveWindow c ∧
  (receiveWindowSize c' = receiveWindowSize c ∨
   receiveWindowSize c < receiveWindowSize c' ≤ maxReceiveWindowSize c ∧
   receiveWindowSize c' ≤ 2 * receiveWindowSize c).
Proof.
  unfold maybeAdjustWindowSize. zcase; [repeat split; by left|]. zcase; [repeat split; by left|].
  destruct (consumedTooFast _ _ _); [|repeat split; by left].
  destruct (Z.ltb_spec (receiveWindowSize c) (Z.min (2 * receiveWindowSize c) (maxReceiveWindowSize c)));
    [|repeat split; by left].
  cbn [andb]. destruct (allowWindowIncrease c) as [allow|] eqn:Ha; [destruct (allow _)|];
    (split; [split; done|split; [done|]]); [right|by left|right]; cbn; lia.
Qed.

Lemma getWindowUpdate_spec c rtt now c' offset :
  0 ≤ receiveWindowSize c < maxWindow → getWindowUpdate c rtt now = (c', offset) →
  if 4 * (receiveWindow c - bytesRead c) <=? 3 * receiveWindowSize c then
    same_counters c c' ∧ offset = receiveWindow c' ∧
    receiveWindow c' = bytesRead c + receiveWindowSize c' ∧
    (receiveWindowSize c' = receiveWindowSize c ∨
     receiveWindowSize c < receiveWindowSize c' ≤ maxReceiveWindowSize c)
  else c' = c ∧ offset = 0.
Proof.
  intros Hs. unfold getWindowUpdate. rewrite hasWindowUpdate_eq by done.
  destruct (_ <=? _); cbn [negb]; intros [= <- <-]; [|done].
  destruct (maybeAdjustWindowSize_spec c rtt now) as ([????]&Hw&Hsize).
  split; [split; cbn; done|]. cbn. split_and!; [done|congruence|]. destruct Hsize; [by left|right; lia].
Qed.

(** ** The controllers of a connection *)
Record state := mkState {
  conn : connectionFlowController;
  streams : gmap Z streamFlowController;
}.

(** The operations, in the order in which the connection performs them.  [Restart]
    is what happens when 0-RTT is rejected: the streams are dropped. *)
Inductive fc_op :=
| OpenStream (id receiveWindow maxReceiveWindow initialSendWindow : Z)
| Receive (id offset : Z) (final : bool) (now : Z)
| ReadBytes (id n : Z)
| CancelRead (id : Z)
| SendBytes (id n : Z)
| RecvMaxStreamData (id offset : Z)
| RecvMaxData (offset : Z)
| StreamWindowUpdate (id : Z) (rttStats : RTTStats) (now : Z)
| ConnWindowUpdate (rttStats : RTTStats) (now : Z)
| StreamBlocked (id : Z)
| ConnBlocked
| Restart.

Definition with_stream (st : state) (id : Z)
    (f : streamFlowController → res (streamFlowController * connectionFlowController)) : res state :=
  match streams st !! id with
  | None => Ok st
  | Some s => '(s, c) ← f s; Ok (mkState c (<[id := s]> (streams st)))
  end.

Definition step (st : state) (op : fc_op) : res state :=
  match op with
  | OpenStream id rw mrw sw =>
      Ok (mkState (conn st) (<[id := NewStreamFlowController id rw mrw sw]> (streams st)))
  | Receive id offset final now =>
      with_stream st id (λ s,
        let '(s, c, err) := UpdateHighestReceived s (conn st) offset final now in
        match err with Some e => Err e | None => Ok (s, c) end)
  | ReadBytes id n =>
      with_stream st id (λ s, let '(s, c, _) := Stream_AddBytesRead s (conn st) n in Ok (s, c))
  | CancelRead id => with_stream st id (λ s, Ok (Abandon s (conn st)))
  | SendBytes id n => with_stream st id (λ s, Ok (Stream_AddBytesSent s (conn st) n))
  | RecvMaxStreamData id offset =>
      with_stream st id (λ s, Ok (set_base s (UpdateSendWindow (base s) offset).1, conn st))
  | RecvMaxData offset => Ok (mkState (UpdateSendWindow (conn st) offset).1 (streams st))
  | StreamWindowUpdate id rtt now =>
      with_stream st id (λ s,
        '(s, c, _) ← Stream_GetWindowUpdate s (conn st) rtt now; Ok (s, c))
  | ConnWindowUpdate rtt now => Ok (mkState (Conn_GetWindowUpdate (conn st) rtt now).1 (streams st))
  | StreamBlocked id => with_stream st id (λ s, Ok ((Stream_IsNewlyBlocked s).1, conn st))
  | ConnBlocked => Ok (mkState (IsNewlyBlocked (conn st)).1 (streams st))
  | Restart => c ← Reset_ (conn st); Ok (mkState c ∅)
  end.

(** The limits [Ws] and [Wc] of the windows of streams and of the connection, as
    configured. *)
Section system.
Variables (Ws Wc : Z).
Hypothesis HWs : Ws < maxWindow.
Hypothesis HWc : Wc < maxWindow.

(** How the connection uses the controllers: data is read that was received, and
    sent that the windows allow. *)
Definition allowed (st : state) (op : fc_op) : Prop :=
  match op with
  | OpenStream id rw mrw sw => streams st !! id = None ∧ 0 ≤ rw ≤ Ws ∧ mrw ≤ Ws ∧ 0 ≤ sw
  | Receive _ offset _ _ => 0 ≤ offset
  | ReadBytes id n => ∀ s, streams st !! id = Some s →
      0 ≤ n ≤ highestReceived (base s) - bytesRead (base s)
  | SendBytes id n => ∀ s, streams st !! id = Some s →
      0 ≤ n ≤ Stream_SendWindowSize s (conn st)
  | _ => True
  end.

Inductive reachable : list fc_op → state → Prop :=
| reach_new rw mrw allow :
    0 ≤ rw ≤ Wc → mrw ≤ Wc →
    reachable [] (mkState (NewConnectionFlowController rw mrw (Some allow)) ∅)
| reach_step ops st op st' :
    reachable ops st → allowed st op → step st op = Ok st' → reachable (ops ++ [op]) st'.

Record base_inv (W : Z) (c : baseFlowController) : Prop := {
  base_read : 0 ≤ bytesRead c ≤ highestReceived c;
  base_received : highestReceived c ≤ receiveWindow c;
  base_window : receiveWindow c - bytesRead c ≤ receiveWindowSize c ≤ W;
  base_max : maxReceiveWindowSize c ≤ W;
  base_sent : 0 ≤ bytesSent c ≤ sendWindow c;
}.

Definition total (f : baseFlowController → Z) (st : state) : Z := map_sum (λ s, f (base s)) (streams st).

Record fc_inv (st : state) : Prop := {
  fc_conn : base_inv Wc (conn st);
  fc_allow : is_Some (allowWindowIncrease (conn st));
  fc_streams : ∀ id s, streams st !! id = Some s → base_inv Ws (base s);
  fc_received : total highestReceived st = highestReceived (conn st);
  fc_read : total bytesRead st = bytesRead (conn st);
  fc_sent : total bytesSent st = bytesSent (conn st);
}.

Lemma inv_update st id s s' c :
  fc_inv st → streams st !! id = Some s → base_inv Wc c → is_Some (allowWindowIncrease c) →
  base_inv Ws (base s') →
  highestReceived c - highestReceived (conn st) = highestReceived (base s') - highestReceived (base s) →
  bytesRead c - bytesRead (conn st) = bytesRead (base s') - bytesRead (base s) →
  bytesSent c - bytesSent (conn st) = bytesSent (base s') - bytesSent (base s) →
  fc_inv (mkState c (<[id := s']> (streams st))).
Proof.
  intros [_ _ Hss Hr Hb Hs] Hid Hc Ha Hs' E1 E2 E3. unfold total in *.
  split; cbn; [done..| | | |]; unfold total; cbn;
    [|rewrite (map_sum_update _ _ _ s) by done; lia..].
  intros id' s0 [[-> ->]|[_ Hs0]]%lookup_insert_Some; [done|by eapply Hss].
Qed.

Lemma inv_conn st c :
  fc_inv st → base_inv Wc c → is_Some (allowWindowIncrease c) →
  highestReceived c = highestReceived (conn st) → bytesRead c = bytesRead (conn st) →
  bytesSent c = bytesSent (conn st) → fc_inv (mkState c (streams st)).
Proof. intros [] ????. unfold total in *. split; cbn; unfold total; cbn; done || congruence. Qed.

Lemma inv_unread st id s :
  fc_inv st → streams st !! id = Some s →
  highestReceived (base s) - bytesRead (base s) ≤ highestReceived (conn st) - bytesRead (conn st).
Proof.
  intros [_ _ Hss <- <- _] Hid.
  apply (map_sum_le_elem (λ s, bytesRead (base s)) (λ s, highestReceived (base s)) _ id); [|done].
  intros k x Hk. by apply (base_read _ _ (Hss k x Hk)).
Qed.

Lemma startNewAutoTuningEpoch_inv W c now : base_inv W c → base_inv W (startNewAutoTuningEpoch c now).
Proof. intros []. by split. Qed.

Lemma getWindowUpdate_inv W c rtt now :
  W < maxWindow → base_inv W c → base_inv W (getWindowUpdate c rtt now).1 ∧
  highestReceived (getWindowUpdate c rtt now).1 = highestReceived c ∧
  bytesRead (getWindowUpdate c rtt now).1 = bytesRead c ∧
  bytesSent (getWindowUpdate c rtt now).1 = bytesSent c ∧
  sendWindow (getWindowUpdate c rtt now).1 = sendWindow c ∧
  allowWindowIncrease (getWindowUpdate c rtt now).1 = allowWindowIncrease c.
Proof.
  intros HW [H1 H2 H3 H4 H5]. destruct (getWindowUpdate c rtt now) as [c' offset] eqn:Hg. cbn [fst].
  apply getWindowUpdate_spec in Hg; [|lia]. zcase_in Hg; [|destruct Hg as [-> _]; by split].
  destruct Hg as ([E1 E2 E3 E4 E5 E6]&_&Hw&Hsize). split; [|done].
  split; rewrite ?E1, ?E2, ?E3, ?E4, ?E5, ?Hw; try done; destruct Hsize; lia.
Qed.

Lemma EnsureMinimumWindowSize_inv c inc now :
  base_inv Wc c → is_Some (allowWindowIncrease c) →
  ∃ c', EnsureMinimumWindowSize c inc now = Ok c' ∧ base_inv Wc c' ∧
    highestReceived c' = highestReceived c ∧ bytesRead c' = bytesRead c ∧ bytesSent c' = bytesSent c ∧
    sendWindow c' = sendWindow c ∧ allowWindowIncrease c' = allowWindowIncrease c.
Proof.
  intros Hc [allow Ha]. unfold EnsureMinimumWindowSize. rewrite Ha. zcase; [by exists c|].
  destruct Hc as [H1 H2 H3 H4 H5].
  zcase; [|eexists; split; [done|]; repeat split; cbn; done || lia].
  destruct (allow _); eexists; (split; [done|]); repeat split; cbn; done || lia.
Qed.
End system.

(** ** Received offsets *)

(** The frame contradicts the final size of the stream. *)
Definition final_size_violation (s : streamFlowController) (offset : Z) (final : bool) : Prop :=
  (receivedFinalOffset s = true ∧ highestReceived (base s) < offset) ∨
  (final = true ∧ offset < highestReceived (base s)).

(** The frame exceeds the window of the stream or that of the connection. *)
Definition flow_control_violation (s : streamFlowController) (c : connectionFlowController)
    (offset : Z) : Prop :=
  highestReceived (base s) < offset ∧
  (receiveWindow (base s) < offset ∨
   receiveWindow c < highestReceived c + (offset - highestReceived (base s))).

(** [c'] is [c] with another highest offset, perhaps in a new epoch. *)
Definition only_highest (c c' : baseFlowController) : Prop :=
  c' = set_highestReceived c (highestReceived c') ∨
  ∃ now, c' = set_highestReceived (startNewAutoTuningEpoch c now) (highestReceived c').

Lemma only_highest_same c : only_highest c c.
Proof. left. by destruct c. Qed.

Lemma only_highest_epoch c x now :
  only_highest c (set_highestReceived (if highestReceived c =? 0 then startNewAutoTuningEpoch c now else c) x).
Proof. zcase; [right; by exists now|by left]. Qed.

Lemma only_highest_fields c c' :
  only_highest c c' →
  bytesSent c' = bytesSent c ∧ sendWindow c' = sendWindow c ∧ bytesRead c' = bytesRead c ∧
  receiveWindow c' = receiveWindow c ∧ receiveWindowSize c' = receiveWindowSize c ∧
  maxReceiveWindowSize c' = maxReceiveWindowSize c ∧ allowWindowIncrease c' = allowWindowIncrease c.
Proof. intros [->|[now ->]]; done. Qed.

(** The counters after a frame that is accepted. *)
Record received (s : streamFlowController) (c : connectionFlowController) (offset : Z) (final : bool)
    (s' : streamFlowController) (c' : connectionFlowController) : Prop := {
  rcv_highest : highestReceived (base s') = Z.max (highestReceived (base s)) offset;
  rcv_conn : highestReceived c' = highestReceived c + Z.max 0 (offset - highestReceived (base s));
  rcv_final : receivedFinalOffset s' = receivedFinalOffset s || final;
  rcv_stream_rest : only_highest (base s) (base s');
  rcv_conn_rest : only_highest c c';
}.

Lemma checkFinalOffset_spec s offset final :
  match checkFinalOffset s offset final with
  | Some err => final_size_violation s offset final ∧ ∃ msg, err = TransportError FinalSizeError 0 msg
  | None => receivedFinalOffset s = true → offset ≤ highestReceived (base s) ∧
              (final = true → offset = highestReceived (base s))
  end.
Proof.
  unfold checkFinalOffset, final_size_violation. destruct (receivedFinalOffset s); [|done].
  destruct final; cbn [andb]; repeat zcase; try (split; [|by eexists]); lia.
Qed.

Lemma IncrementHighestReceived_spec c increment now c' err :
  IncrementHighestReceived c increment now = (c', err) →
  only_highest c c' ∧ highestReceived c' = highestReceived c + increment ∧
  match err with
  | None => highestReceived c + increment ≤ receiveWindow c
  | Some err => receiveWindow c < highestReceived c + increment ∧
                ∃ msg, err = TransportError FlowControlError 0 msg
  end.
Proof.
  unfold IncrementHighestReceived.
  set (c1 := if highestReceived c =? 0 then startNewAutoTuningEpoch c now else c).
  pose proof (only_highest_epoch c (highestReceived c1 + increment) now) as Ho. fold c1 in Ho.
  assert (highestReceived c1 = highestReceived c ∧ receiveWindow c1 = receiveWindow c) as [E1 E2].
  { unfold c1. by destruct (_ =? _). }
  unfold checkFlowControlViolation. cbn [receiveWindow highestReceived set_highestReceived].
  zcase; intros [= <- <-]; (split; [done|split; [cbn; lia|]]); [split; [lia|by eexists]|lia].
Qed.

Lemma UpdateHighestReceived_spec s c offset final now s' c' err :
  UpdateHighestReceived s c offset final now = (s', c', err) →
  match err with
  | None => ¬ final_size_violation s offset final ∧ ¬ flow_control_violation s c offset ∧
      received s c offset final s' c'
  | Some err => ∃ code msg, err = TransportError code 0 msg ∧
      (code = FinalSizeError ∧ final_size_violation s offset final ∨
       code = FlowControlError ∧ flow_control_violation s c offset ∧
         ¬ final_size_violation s offset final)
  end.
Proof.
  unfold UpdateHighestReceived. pose proof (checkFinalOffset_spec s offset final) as Hf.
  destruct (checkFinalOffset s offset final) as [err0|].
  { destruct Hf as [Hv [msg ->]]. intros [= <- <- <-]. eexists _, _. split; [done|]. by left. }
  set (s1 := if final then _ else s).
  assert (base s1 = base s ∧ receivedFinalOffset s1 = receivedFinalOffset s || final) as [Hb1 Hf1].
  { unfold s1. destruct final; cbn; rewrite ?orb_true_r, ?orb_false_r; done. }
  rewrite Hb1. zcase.
  { intros [= <- <- <-]. unfold final_size_violation, flow_control_violation. split_and!; [lia..|].
    split; rewrite ?Hb1; [lia..|done| |]; apply only_highest_same. }
  zcase.
  { destruct final.
    - intros [= <- <- <-]. eexists _, _. split; [done|]. left. split; [done|]. by right.
    - intros [= <- <- <-]. unfold final_size_violation, flow_control_violation.
      split_and!; [intros [[??]|[??]]; [lia|done]|lia|].
      split; rewrite ?Hb1; [lia..|done| |]; apply only_highest_same. }
  assert (¬ final_size_violation s offset final) as Hnf.
  { intros [[Hr ?]|[??]]; [|lia]. apply Hf in Hr as [? _]. lia. }
  assert (base (if highestReceived (base s) =? 0 then set_base s1 (startNewAutoTuningEpoch (base s) now)
                else s1) = if highestReceived (base s) =? 0 then startNewAutoTuningEpoch (base s) now
                else base s) as Hb2 by (by destruct (_ =? _)).
  set (s2 := if highestReceived (base s) =? 0 then _ else s1) in *.
  assert (receivedFinalOffset s2 = receivedFinalOffset s1) as Hf2 by (unfold s2; by destruct (_ =? _)).
  pose proof (only_highest_epoch (base s) offset now) as Ho. rewrite <-Hb2 in Ho.
  assert (highestReceived (base s2) = highestReceived (base s)) as Hh2 by (rewrite Hb2; by destruct (_ =? _)).
  rewrite Hh2. unfold checkFlowControlViolation. cbn [base set_base].
  destruct (only_highest_fields _ _ Ho) as (_&_&_&Hrw&_).
  rewrite Hrw. cbn [highestReceived set_highestReceived]. unfold flow_control_violation. zcase.
  { intros [= <- <- <-]. eexists _, _. split; [done|]. right. split_and!; [done|lia| |done]. by left. }
  destruct (IncrementHighestReceived c _ now) as [c1 err1] eqn:Hinc. intros [= <- <- <-].
  apply IncrementHighestReceived_spec in Hinc as (Hoc&Hhc&Herr). destruct err1 as [err1|].
  - destruct Herr as [Hv [msg ->]]. eexists _, _. split; [done|]. right. split_and!; [done|lia| |done].
    right. lia.
  - split_and!; [done|lia|]. split; cbn; [lia|lia| |done|done]. by rewrite Hf2.
Qed.

(** ** The operations keep the invariant *)
Section preservation.
Variables (Ws Wc : Z).
Hypothesis HWs : Ws < maxWindow.
Hypothesis HWc : Wc < maxWindow.

Lemma receive_inv st id s offset final now s' c' :
  fc_inv Ws Wc st → streams st !! id = Some s →
  UpdateHighestReceived s (conn st) offset final now = (s', c', None) →
  fc_inv Ws Wc (mkState c' (<[id := s']> (streams st))).
Proof.
  intros Hinv Hid (_&Hnv&[E1 E2 _ Hs Hc])%UpdateHighestReceived_spec.
  apply only_highest_fields in Hs as (S1&S2&S3&S4&S5&S6&S7).
  apply only_highest_fields in Hc as (C1&C2&C3&C4&C5&C6&C7).
  destruct (fc_conn _ _ _ Hinv) as [????]. destruct (fc_streams _ _ _ Hinv _ _ Hid) as [????].
  unfold flow_control_violation in Hnv.
  apply (inv_update Ws Wc st id s); try done; rewrite ?C7, ?C3, ?C1, ?S3, ?S1, ?E1, ?E2; try lia;
    [|apply Hinv|]; split; rewrite ?C1, ?C2, ?C3, ?C4, ?C5, ?C6, ?S1, ?S2, ?S3, ?S4, ?S5, ?S6, ?E1, ?E2; lia.
Qed.

Lemma read_inv st id s n :
  fc_inv Ws Wc st → streams st !! id = Some s →
  0 ≤ n ≤ highestReceived (base s) - bytesRead (base s) →
  fc_inv Ws Wc (mkState (addBytesRead (conn st) n)
    (<[id := set_base s (addBytesRead (base s) n)]> (streams st))).
Proof.
  intros Hinv Hid Hn. pose proof (inv_unread Ws Wc st id s Hinv Hid).
  destruct (fc_conn _ _ _ Hinv) as [????]. destruct (fc_streams _ _ _ Hinv _ _ Hid) as [????].
  apply (inv_update Ws Wc st id s); try done; cbn; try lia; [|apply Hinv|]; split; cbn; lia.
Qed.

Lemma abandon_inv st id s :
  fc_inv Ws Wc st → streams st !! id = Some s →
  fc_inv Ws Wc (mkState (Abandon s (conn st)).2 (<[id := (Abandon s (conn st)).1]> (streams st))).
Proof.
  intros Hinv Hid. destruct (fc_streams _ _ _ Hinv _ _ Hid) as [Hr _ _ _ _].
  pose proof (read_inv st id s (highestReceived (base s) - bytesRead (base s)) Hinv Hid ltac:(lia)) as Hread.
  unfold addBytesRead in Hread at 2.
  replace (bytesRead (base s) + (highestReceived (base s) - bytesRead (base s)))
    with (highestReceived (base s)) in Hread by lia.
  unfold Abandon. zcase; [done|]. cbn.
  assert (highestReceived (base s) - bytesRead (base s) = 0) as E by lia. rewrite E in Hread.
  unfold addBytesRead in Hread. rewrite Z.add_0_r in Hread.
  by replace (set_bytesRead (conn st) (bytesRead (conn st))) with (conn st) in Hread
    by (by destruct (conn st)).
Qed.

Lemma send_inv st id s n :
  fc_inv Ws Wc st → streams st !! id = Some s → 0 ≤ n ≤ Stream_SendWindowSize s (conn st) →
  fc_inv Ws Wc (mkState (AddBytesSent (conn st) n)
    (<[id := set_base s (AddBytesSent (base s) n)]> (streams st))).
Proof.
  unfold Stream_SendWindowSize, SendWindowSize. intros Hinv Hid Hn.
  destruct (fc_conn _ _ _ Hinv) as [????]. destruct (fc_streams _ _ _ Hinv _ _ Hid) as [????].
  rewrite !(proj2 (Z.ltb_ge _ _)) in Hn by lia.
  apply (inv_update Ws Wc st id s); try done; cbn; try lia; [|apply Hinv|]; split; cbn; lia.
Qed.

Lemma stream_only_inv st id s s' :
  fc_inv Ws Wc st → streams st !! id = Some s → base_inv Ws (base s') →
  highestReceived (base s') = highestReceived (base s) → bytesRead (base s') = bytesRead (base s) →
  bytesSent (base s') = bytesSent (base s) →
  fc_inv Ws Wc (mkState (conn st) (<[id := s']> (streams st))).
Proof. intros Hinv Hid Hs' E1 E2 E3. apply (inv_update Ws Wc st id s); try done; try apply Hinv; lia. Qed.

Lemma UpdateSendWindow_inv W c offset :
  base_inv W c → base_inv W (UpdateSendWindow c offset).1 ∧
  same_counters c (set_sendWindow (UpdateSendWindow c offset).1 (sendWindow c)).
Proof. intros []. unfold UpdateSendWindow. zcase; (split; split); cbn; done || lia. Qed.

Lemma IsNewlyBlocked_inv W c :
  base_inv W c → base_inv W (IsNewlyBlocked c).1 ∧ same_counters c (IsNewlyBlocked c).1.
Proof. intros []. unfold IsNewlyBlocked. destruct (_ || _); (split; split); done. Qed.

Lemma window_update_inv st id s rtt now :
  fc_inv Ws Wc st → streams st !! id = Some s →
  ∃ s' c' offset, Stream_GetWindowUpdate s (conn st) rtt now = Ok (s', c', offset) ∧
    fc_inv Ws Wc (mkState c' (<[id := s']> (streams st))) ∧
    sendWindow (base s') = sendWindow (base s) ∧ sendWindow c' = sendWindow (conn st).
Proof.
  intros Hinv Hid. unfold Stream_GetWindowUpdate.
  destruct (receivedFinalOffset s).
  { eexists _, _, _. split; [done|]. rewrite insert_id by done. by destruct st. }
  destruct (getWindowUpdate_inv Ws (base s) rtt now HWs (fc_streams _ _ _ Hinv _ _ Hid))
    as (Hb&E1&E2&E3&E4&_).
  destruct (getWindowUpdate (base s) rtt now) as [b offset]. cbn [fst] in *.
  zcase; [|eexists _, _, _; split; [done|]; split; [by apply (stream_only_inv st id s)|done]].
  destruct (EnsureMinimumWindowSize_inv Wc (conn st)
    (int64_of_float (mul64 (float64 (receiveWindowSize b)) ConnectionFlowControlMultiplier)) now)
    as (c'&->&Hc'&F1&F2&F3&F4&F5); [apply Hinv..|].
  eexists _, _, _. split; [done|]. split; [|done].
  apply (inv_update Ws Wc st id s); try done; cbn; try lia. rewrite F5. apply Hinv.
Qed.

(** ** The limits the peer has set *)
Definition conn_limit (limit : Z) (op : fc_op) : Z :=
  match op with RecvMaxData offset => Z.max limit offset | Restart => 0 | _ => limit end.

Definition stream_limit (id limit : Z) (op : fc_op) : Z :=
  match op with
  | OpenStream id' _ _ sw => if id' =? id then sw else limit
  | RecvMaxStreamData id' offset => if id' =? id then Z.max limit offset else limit
  | _ => limit
  end.

(** [st'] follows from [st] by [op]. *)
Record stepped (st : state) (op : fc_op) (st' : state) : Prop := {
  stepped_inv : fc_inv Ws Wc st';
  stepped_conn : sendWindow (conn st') = conn_limit (sendWindow (conn st)) op;
  stepped_stream : ∀ id s' limit, streams st' !! id = Some s' →
    (∀ s, streams st !! id = Some s → sendWindow (base s) = limit) →
    sendWindow (base s') = stream_limit id limit op;
}.

Lemma stepped_update st op id s s' c :
  streams st !! id = Some s → fc_inv Ws Wc (mkState c (<[id := s']> (streams st))) →
  sendWindow c = conn_limit (sendWindow (conn st)) op →
  sendWindow (base s') = stream_limit id (sendWindow (base s)) op →
  (∀ id' limit, id' ≠ id → stream_limit id' limit op = limit) →
  stepped st op (mkState c (<[id := s']> (streams st))).
Proof.
  intros Hid Hinv Hc Hs Hother. split; [done..|]. cbn.
  intros id' s0 limit [[<- <-]|[Hne Hs0]]%lookup_insert_Some Hl; [by rewrite <-(Hl s Hid)|].
  rewrite Hother by done. auto.
Qed.

Lemma stepped_same st op c :
  fc_inv Ws Wc (mkState c (streams st)) → sendWindow c = conn_limit (sendWindow (conn st)) op →
  (∀ id limit, is_Some (streams st !! id) → stream_limit id limit op = limit) →
  stepped st op (mkState c (streams st)).
Proof.
  intros Hinv Hc Hother. split; [done..|]. cbn. intros id s limit Hs Hl. rewrite Hother; eauto.
Qed.

Lemma stepped_unknown st op id :
  fc_inv Ws Wc st → streams st !! id = None →
  conn_limit (sendWindow (conn st)) op = sendWindow (conn st) →
  (∀ id' limit, id' ≠ id → stream_limit id' limit op = limit) → stepped st op st.
Proof.
  intros Hinv Hid Hc Hother. destruct st as [c ss]. apply (stepped_same (mkState c ss)); [done..|].
  intros id' limit [s Hs]. apply Hother. intros ->. congruence.
Qed.

(** When an operation fails, the peer has violated a limit. *)
Definition step_error (st : state) (op : fc_op) (err : error) : Prop :=
  match op with
  | Receive id offset final _ => ∃ s code msg,
      streams st !! id = Some s ∧ err = TransportError code 0 msg ∧
      (code = FinalSizeError ∧ final_size_violation s offset final ∨
       code = FlowControlError ∧ flow_control_violation s (conn st) offset)
  | Restart => 0 < highestReceived (conn st) ∨ epochStartTime (conn st) ≠ 0
  | _ => False
  end.

Definition step_ok (st : state) (op : fc_op) (r : res state) : Prop :=
  match r with
  | Ok st' => stepped st op st'
  | Err e => step_error st op e
  | Panic => False
  end.

(** Operations on one stream. *)
Lemma step_with_stream st op id f :
  fc_inv Ws Wc st → (∀ limit, conn_limit limit op = limit) →
  (∀ id' limit, id' ≠ id → stream_limit id' limit op = limit) →
  (∀ s, streams st !! id = Some s →
    match f s with
    | Ok (s', c) => fc_inv Ws Wc (mkState c (<[id := s']> (streams st))) ∧
        sendWindow c = sendWindow (conn st) ∧
        sendWindow (base s') = stream_limit id (sendWindow (base s)) op
    | Err e => step_error st op e
    | Panic => False
    end) →
  step_ok st op (with_stream st id f).
Proof.
  intros Hinv Hc Ho Hf. unfold with_stream. destruct (streams st !! id) as [s|] eqn:Hid.
  - specialize (Hf s eq_refl). destruct (f s) as [[s' c]|e|]; cbn; [|done..].
    destruct Hf as (?&E1&E2). apply (stepped_update st op id s); [done..| | |done]; rewrite ?Hc; done.
  - by apply (stepped_unknown st op id).
Qed.

Lemma step_open st id rw mrw sw :
  fc_inv Ws Wc st → allowed Ws st (OpenStream id rw mrw sw) →
  stepped st (OpenStream id rw mrw sw)
    (mkState (conn st) (<[id := NewStreamFlowController id rw mrw sw]> (streams st))).
Proof.
  intros Hinv (Hid&Hrw&Hmrw&Hsw). destruct Hinv as [Hc Ha Hss Hr Hb Hs]. unfold total in *.
  split; [split| |]; cbn; try done; unfold total; cbn; rewrite ?map_sum_insert by done; try done.
  - intros id' s [[<- <-]|[_ ?]]%lookup_insert_Some; [|by eapply Hss]. split; cbn; lia.
  - intros id' s limit [[<- <-]|[Hne Hs']]%lookup_insert_Some Hl; [by rewrite Z.eqb_refl|].
    rewrite (proj2 (Z.eqb_neq _ _)) by done. auto.
Qed.

Lemma step_restart st : fc_inv Ws Wc st → step_ok st Restart (step st Restart).
Proof.
  intros Hinv. pose proof (fc_conn _ _ _ Hinv) as [H1 H2 H3 H4 H5]. cbn [step].
  unfold Reset_. destruct (Z.ltb_spec 0 (bytesRead (conn st))); [left; lia|].
  destruct (Z.ltb_spec 0 (highestReceived (conn st))); [by left|].
  destruct (Z.eqb_spec (epochStartTime (conn st)) 0); [|by right]. cbn.
  split; cbn; [split; cbn; unfold total; cbn; rewrite ?map_sum_empty|..]; try done; try lia.
  exact (fc_allow _ _ _ Hinv).
Qed.

Lemma UpdateSendWindow_max c offset :
  sendWindow (UpdateSendWindow c offset).1 = Z.max (sendWindow c) offset.
Proof. unfold UpdateSendWindow. zcase; cbn; lia. Qed.

(** The operations of streams, without the state around them. *)
Lemma step_receive st id offset final now :
  fc_inv Ws Wc st → step_ok st (Receive id offset final now) (step st (Receive id offset final now)).
Proof.
  intros Hinv. apply step_with_stream; [done..|]. intros s Hid.
  destruct (UpdateHighestReceived s (conn st) offset final now) as [[s' c'] err] eqn:Hu.
  pose proof Hu as Hspec%UpdateHighestReceived_spec. destruct err as [err|].
  - destruct Hspec as (code&msg&->&Hv). exists s, code, msg. naive_solver.
  - split; [by eapply receive_inv|]. destruct Hspec as (_&_&[_ _ _ Hs Hc]).
    apply only_highest_fields in Hs as (_&->&_). by apply only_highest_fields in Hc as (_&->&_).
Qed.

Lemma step_max_stream_data st id offset :
  fc_inv Ws Wc st → step_ok st (RecvMaxStreamData id offset) (step st (RecvMaxStreamData id offset)).
Proof.
  intros Hinv. apply step_with_stream; [done|done| |].
  - intros id' limit Hne. cbn. by rewrite (proj2 (Z.eqb_neq _ _)).
  - intros s Hid. destruct (UpdateSendWindow_inv Ws (base s) offset) as [Hb Hs];
      [by eapply fc_streams|]. destruct Hs as [E1 _ E3 E4 _ _].
    split; [by apply (stream_only_inv st id s)|]. split; [done|].
    cbn. by rewrite Z.eqb_refl, UpdateSendWindow_max.
Qed.

Lemma step_spec st op : fc_inv Ws Wc st → allowed Ws st op → step_ok st op (step st op).
Proof.
  intros Hinv Hal.
  destruct op as [id rw mrw sw|id offset final now|id n|id|id n|id offset|offset|id rtt now|rtt now|id| |].
  - by apply step_open.
  - by apply step_receive.
  - apply step_with_stream; [done..|]. intros s Hid. split; [|done]. by apply read_inv, Hal.
  - apply step_with_stream; [done..|]. intros s Hid. pose proof (abandon_inv st id s Hinv Hid).
    unfold Abandon in *. cbv zeta in *. by zcase.
  - apply step_with_stream; [done..|]. intros s Hid. split; [|done]. by apply send_inv, Hal.
  - by apply step_max_stream_data.
  - destruct (UpdateSendWindow_inv Wc (conn st) offset) as [Hb [E1 _ E3 E4 _ E6]]; [apply Hinv|].
    cbn in E6. apply stepped_same; [|apply UpdateSendWindow_max|done].
    apply inv_conn; try done. rewrite E6. apply Hinv.
  - apply step_with_stream; [done..|]. intros s Hid.
    by destruct (window_update_inv st id s rtt now Hinv Hid) as (s'&c'&offset&->&?&?&?).
  - destruct (getWindowUpdate_inv Wc (conn st) rtt now HWc) as (Hb&E1&E2&E3&E4&E5); [apply Hinv|].
    cbn [step]. unfold Conn_GetWindowUpdate, connectionFlowController. apply stepped_same; [|done|done].
    apply inv_conn; try done. rewrite E5. apply Hinv.
  - apply step_with_stream; [done..|]. intros s Hid.
    destruct (IsNewlyBlocked_inv Ws (base s)) as [Hb Hs]; [by eapply fc_streams|].
    unfold Stream_IsNewlyBlocked. destruct (IsNewlyBlocked (base s)) as [b [blocked off]].
    destruct Hs. split; [by apply (stream_only_inv st id s)|done].
  - destruct (IsNewlyBlocked_inv Wc (conn st)) as [Hb [E1 E2 E3 E4 E5 E6]]; [apply Hinv|].
    apply stepped_same; [|done|done]. apply inv_conn; try done. rewrite E6. apply Hinv.
  - by apply step_restart.
Qed.

Lemma reachable_inv ops st :
  reachable Ws Wc ops st →
  fc_inv Ws Wc st ∧ sendWindow (conn st) = foldl conn_limit 0 ops ∧
  ∀ id s, streams st !! id = Some s → sendWindow (base s) = foldl (stream_limit id) 0 ops.
Proof.
  induction 1 as [rw mrw allow Hrw Hmrw|ops st op st' _ IH Hal Hst].
  - split; [|done]. split; cbn; try done; unfold total; cbn; try (by rewrite map_sum_empty).
    split; cbn; lia.
  - destruct IH as (Hinv&Hc&Hs). pose proof (step_spec st op Hinv Hal) as Hok. rewrite Hst in Hok.
    destruct Hok as [Hinv' Hc' Hs']. split; [done|]. rewrite foldl_app. cbn. split; [congruence|].
    intros id s Hid. rewrite foldl_app. cbn. apply (Hs' id s); auto.
Qed.
End preservation.

(** C33: The data that is received and not read yet is bounded.  Whatever the peer
    sends and however reads, window updates and auto-tuning interleave, the unread
    data of all streams fits the largest window of the connection, and that of a
    stream its largest window; no more data is received than was announced. *)
Theorem flow_control_bounds_buffer Ws Wc ops st :
  Ws < maxWindow → Wc < maxWindow → reachable Ws Wc ops st →
  0 ≤ total highestReceived st - total bytesRead st ≤ Wc ∧
  total highestReceived st ≤ receiveWindow (conn st) ∧
  ∀ id s, streams st !! id = Some s →
    0 ≤ highestReceived (base s) - bytesRead (base s) ≤ Ws ∧
    highestReceived (base s) ≤ receiveWindow (base s).
Proof.
  intros HWs HWc Hr. destruct (reachable_inv Ws Wc HWs HWc ops st Hr) as [[[] _ Hss -> -> _] _].
  split_and!; [lia..|]. intros id s Hid. destruct (Hss id s Hid). lia.
Qed.

(** C34: The limits of the peer are respected: as long as every send stays within
    [SendWindowSize], the data sent on a stream is at most the largest limit that
    the peer has set for it, and the data of all streams at most the largest
    [MAX_DATA], since 0-RTT was rejected if it was. *)
Theorem flow_control_respects_peer Ws Wc ops st :
  Ws < maxWindow → Wc < maxWindow → reachable Ws Wc ops st →
  total bytesSent st ≤ foldl conn_limit 0 ops ∧
  ∀ id s, streams st !! id = Some s → bytesSent (base s) ≤ foldl (stream_limit id) 0 ops.
Proof.
  intros HWs HWc Hr. destruct (reachable_inv Ws Wc HWs HWc ops st Hr) as ([[] _ Hss _ _ ->]&<-&Hl).
  split; [lia|]. intros id s Hid. rewrite <-(Hl id s Hid). destruct (Hss id s Hid). lia.
Qed.

(** C35: In every reachable state an operation succeeds, or it fails because the
    peer violated the final size of a stream or a window, with the corresponding
    error code (0-RTT data can be discarded only before anything was received);
    no operation panics. *)
Theorem flow_control_errors Ws Wc ops st op :
  Ws < maxWindow → Wc < maxWindow → reachable Ws Wc ops st → allowed Ws st op →
  (∃ st', step st op = Ok st') ∨
  (∃ err, step st op = Err err ∧
    match op with
    | Receive id offset final _ => ∃ s code msg,
        streams st !! id = Some s ∧ err = TransportError code 0 msg ∧
        (code = FinalSizeError ∧ final_size_violation s offset final ∨
         code = FlowControlError ∧ flow_control_violation s (conn st) offset)
    | Restart => 0 < highestReceived (conn st) ∨ epochStartTime (conn st) ≠ 0
    | _ => False
    end).
Proof.
  intros HWs HWc Hr Hal. destruct (reachable_inv Ws Wc HWs HWc ops st Hr) as [Hinv _].
  pose proof (step_spec Ws Wc HWs HWc st op Hinv Hal) as Hok.
  destruct (step st op) as [st'|err|]; [left; eauto|right; eauto|done].
Qed.

(** A frame is accepted exactly if it agrees with the final size and fits the
    windows of the stream and of the connection.  Then the highest offset is raised
    for both by the same amount and the final size is remembered. *)
Theorem update_highest_received_exact s c offset final now :
  let '(s', c', err) := UpdateHighestReceived s c offset final now in
  (err = None ↔ ¬ final_size_violation s offset final ∧ ¬ flow_control_violation s c offset) ∧
  (err = None →
    highestReceived (base s') = Z.max (highestReceived (base s)) offset ∧
    highestReceived c' - highestReceived c = highestReceived (base s') - highestReceived (base s) ∧
    receivedFinalOffset s' = receivedFinalOffset s || final).
Proof.
  destruct (UpdateHighestReceived s c offset final now) as [[s' c'] err] eqn:Hu.
  apply UpdateHighestReceived_spec in Hu. destruct err as [err|].
  - destruct Hu as (code&msg&_&[[_ ?]|(_&?&_)]); split; done || naive_solver.
  - destruct Hu as (?&?&[]). split; [done|]. intros _. split_and!; [done|lia|done].
Qed.

(** A window update is sent exactly when a quarter of the window was consumed,
    the floating-point threshold notwithstanding.  It announces a full window
    behind the data that was read, so that the announced limit never shrinks and
    grows by at least a quarter of the window; auto-tuning never shrinks the window
    and respects its maximum. *)
Theorem window_update_exact c rtt now :
  0 < receiveWindowSize c < maxWindow →
  let '(c', offset) := getWindowUpdate c rtt now in
  if 4 * (receiveWindow c - bytesRead c) <=? 3 * receiveWindowSize c then
    offset = receiveWindow c' ∧ receiveWindow c' = bytesRead c + receiveWindowSize c' ∧
    receiveWindow c + receiveWindowSize c ≤ receiveWindow c' + 3 * receiveWindowSize c / 4 ∧
    receiveWindow c < receiveWindow c' ∧
    receiveWindowSize c ≤ receiveWindowSize c' ≤ Z.max (receiveWindowSize c) (maxReceiveWindowSize c)
  else c' = c ∧ offset = 0.
Proof.
  intros Hs. destruct (getWindowUpdate c rtt now) as [c' offset] eqn:Hg.
  apply getWindowUpdate_spec in Hg; [|lia]. zcase_in Hg.
  - destruct Hg as (_&->&Hw&Hsize). split_and!; try done; destruct Hsize; try lia; dmlia.
  - done.
Qed.

(** ** Examples *)
Definition example_new : state := mkState (NewConnectionFlowController 1500 3000 (Some (λ _, true))) ∅.
Definition example_fc_ops : list fc_op :=
  [OpenStream 4 1000 2000 500; RecvMaxData 400; SendBytes 4 300; Receive 4 900 false 1; ReadBytes 4 800].

Ltac reach_next H op :=
  let E := fresh in
  lazymatch type of H with
  | reachable ?Ws ?Wc ?ops ?st =>
      eassert (step st op = Ok _) as E by (vm_compute; reflexivity);
      eapply reach_step in E; [|exact H|]; [clear H; rename E into H|]
  end.

Lemma example_reachable : ∃ st, reachable 2000 3000 example_fc_ops st ∧
  total highestReceived st = 900 ∧ total bytesSent st = 300.
Proof.
  pose proof (reach_new 2000 3000 1500 3000 (λ _, true) ltac:(lia) ltac:(lia)) as H.
  reach_next H (OpenStream 4 1000 2000 500); [|cbn; split; [apply lookup_empty|lia]].
  reach_next H (RecvMaxData 400); [|done].
  reach_next H (SendBytes 4 300); [|intros s [= <-]; vm_compute; split; discriminate].
  reach_next H (Receive 4 900 false 1); [|done].
  reach_next H (ReadBytes 4 800); [|intros s [= <-]; vm_compute; split; discriminate].
  eexists. split; [exact H|]. split; reflexivity.
Defined.

Lemma flow_control_bounds_buffer_witness :
  ∃ st, total highestReceived st = 900 ∧ 0 ≤ total highestReceived st - total bytesRead st ≤ 3000.
Proof.
  destruct example_reachable as (st&Hst&?&_). exists st. split; [done|].
  by apply (flow_control_bounds_buffer 2000 3000 example_fc_ops st).
Defined.

Lemma flow_control_respects_peer_witness :
  ∃ st, total bytesSent st = 300 ∧ total bytesSent st ≤ 400.
Proof.
  destruct example_reachable as (st&Hst&_&?). exists st. split; [done|].
  by apply (flow_control_respects_peer 2000 3000 example_fc_ops st).
Defined.

Lemma flow_control_errors_witness :
  (∃ st', step example_new (RecvMaxData 7) = Ok st') ∨
  (∃ err : error, step example_new (RecvMaxData 7) = Err err ∧ False).
Proof.
  apply (flow_control_errors 2000 3000 [] example_new (RecvMaxData 7)); [done..| |done].
  apply (reach_new 2000 3000 1500 3000 (λ _, true)); lia.
Defined.

Lemma window_update_exact_witness :
  let c := NewConnectionFlowController 1000 2000 None in
  receiveWindow (getWindowUpdate (set_bytesRead c 400) example_rtt 0).1 = 1400.
Proof.
  pose proof (window_update_exact (set_bytesRead (NewConnectionFlowController 1000 2000 None) 400)
    example_rtt 0 ltac:(vm_compute; split; reflexivity)) as H.
  cbv zeta. vm_compute in H |- *. by destruct H as (_&_&_&_).
Defined.
