(* ===== verification/ECN.v ===== *)
(** * Validation of ECN on a path (internal/ackhandler/ecn.go)

    The tracker counts the packets that were sent with ECN marks and compares them
    with the counts that the peer reports.  Of the packets that an ACK newly
    acknowledges only the packet numbers matter here.  Logging and tracing are left
    out. *)

From S2P Require Import Prelude Protocol.

Inductive ecnState :=
  ecnStateInitial | ecnStateTesting | ecnStateUnknown | ecnStateCapable | ecnStateFailed.
#[global] Instance ecnState_eq_dec : EqDecision ecnState.
Proof. solve_decision. Defined.

Definition numECNTestingPackets : Z := 10.

Record ecnTracker := mkECN {
  ecn_state : ecnState;
  numSentTesting : Z;
  numLostTesting : Z;
  firstTestingPacket : Z;
  lastTestingPacket : Z;
  firstCapablePacket : Z;
  numSentECT0 : Z;
  numSentECT1 : Z;
  numAckedECT0 : Z;
  numAckedECT1 : Z;
  numAckedECNCE : Z;
}.

Definition newECNTracker : ecnTracker :=
  mkECN ecnStateInitial 0 0 InvalidPacketNumber InvalidPacketNumber InvalidPacketNumber 0 0 0 0 0.

(** ** Assignments to the fields *)
Section fields.
Variable (e : ecnTracker).
Definition set_state (st : ecnState) := mkECN st (numSentTesting e) (numLostTesting e)
  (firstTestingPacket e) (lastTestingPacket e) (firstCapablePacket e) (numSentECT0 e) (numSentECT1 e)
  (numAckedECT0 e) (numAckedECT1 e) (numAckedECNCE e).
Definition set_numSent (ect0 ect1 : Z) := mkECN (ecn_state e) (numSentTesting e) (numLostTesting e)
  (firstTestingPacket e) (lastTestingPacket e) (firstCapablePacket e) ect0 ect1
  (numAckedECT0 e) (numAckedECT1 e) (numAckedECNCE e).
Definition set_numLostTesting (n : Z) := mkECN (ecn_state e) (numSentTesting e) n
  (firstTestingPacket e) (lastTestingPacket e) (firstCapablePacket e) (numSentECT0 e) (numSentECT1 e)
  (numAckedECT0 e) (numAckedECT1 e) (numAckedECNCE e).
Definition set_firstCapablePacket (pn : Z) := mkECN (ecn_state e) (numSentTesting e) (numLostTesting e)
  (firstTestingPacket e) (lastTestingPacket e) pn (numSentECT0 e) (numSentECT1 e)
  (numAckedECT0 e) (numAckedECT1 e) (numAckedECNCE e).
Definition set_testing (sent first last : Z) := mkECN (ecn_state e) sent (numLostTesting e)
  first last (firstCapablePacket e) (numSentECT0 e) (numSentECT1 e)
  (numAckedECT0 e) (numAckedECT1 e) (numAckedECNCE e).
Definition set_numAcked (ect0 ect1 ecnce : Z) := mkECN (ecn_state e) (numSentTesting e)
  (numLostTesting e) (firstTestingPacket e) (lastTestingPacket e) (firstCapablePacket e)
  (numSentECT0 e) (numSentECT1 e) ect0 ect1 ecnce.
End fields.

(** ** The operations *)

(** The part of [SentPacket] behind the switch. *)
Definition sentMarked (e : ecnTracker) (pn : Z) : ecnTracker :=
  let e := if bool_decide (ecn_state e = ecnStateCapable) && (firstCapablePacket e =? InvalidPacketNumber)
           then set_firstCapablePacket e pn else e in
  if negb (bool_decide (ecn_state e = ecnStateTesting)) then e else
  let first := if firstTestingPacket e =? InvalidPacketNumber then pn else firstTestingPacket e in
  let e := set_testing e (u8 (numSentTesting e + 1)) first (lastTestingPacket e) in
  if numECNTestingPackets <=? numSentECT0 e + numSentECT1 e
  then set_testing (set_state e ecnStateUnknown) (numSentTesting e) first pn
  else e.

Definition SentPacket (e : ecnTracker) (pn : Z) (ecn : ECN) : res ecnTracker :=
  match ecn with
  | ECNNon => Ok e
  | ECT0 => Ok (sentMarked (set_numSent e (numSentECT0 e + 1) (numSentECT1 e)) pn)
  | ECT1 => Ok (sentMarked (set_numSent e (numSentECT0 e) (numSentECT1 e + 1)) pn)
  | ECNUnsupported =>
      if decide (ecn_state e ≠ ecnStateFailed) then Panic else Ok (sentMarked e pn)
  | ECNCE => Panic
  end.

Definition Mode (e : ecnTracker) : ecnTracker * ECN :=
  match ecn_state e with
  | ecnStateInitial => (set_state e ecnStateTesting, ECT0)
  | ecnStateTesting | ecnStateCapable => (e, ECT0)
  | ecnStateUnknown | ecnStateFailed => (e, ECNNon)
  end.

Definition isTestingPacket (e : ecnTracker) (pn : Z) : bool :=
  if firstTestingPacket e =? InvalidPacketNumber then false
  else (firstTestingPacket e <=? pn) &&
       ((pn <=? lastTestingPacket e) || (lastTestingPacket e =? InvalidPacketNumber)).

Definition ecnMarking (e : ecnTracker) (pn : Z) : ECN :=
  if (pn <? firstTestingPacket e) || (firstTestingPacket e =? InvalidPacketNumber) then ECNNon
  else if (pn <? lastTestingPacket e) || (lastTestingPacket e =? InvalidPacketNumber) then ECT0
  else if (pn <? firstCapablePacket e) || (firstCapablePacket e =? InvalidPacketNumber) then ECNNon
  else ECT0.

Definition failIfMangled (e : ecnTracker) : ecnTracker :=
  let acked := numAckedECNCE e + numLostTesting e in
  if acked <? numSentECT0 e + numSentECT1 e then e else set_state e ecnStateFailed.

Definition LostPacket (e : ecnTracker) (pn : Z) : ecnTracker :=
  if negb (bool_decide (ecn_state e = ecnStateTesting)) && negb (bool_decide (ecn_state e = ecnStateUnknown))
  then e else
  if negb (isTestingPacket e pn) then e else
  let e := set_numLostTesting e (u8 (numLostTesting e + 1)) in
  if negb (bool_decide (ecn_state e = ecnStateUnknown)) then e else
  if numSentTesting e <=? numLostTesting e then set_state e ecnStateFailed
  else failIfMangled e.

(** The number of packets that were sent with a marking. *)
Definition countMarked (e : ecnTracker) (m : ECN) (packets : list Z) : Z :=
  len (filter (λ pn, ecnMarking e pn = m) packets).

(** The checks of the reported counts; [true] if they are plausible. *)
Definition countsValid (e : ecnTracker) (packets : list Z) (ect0 ect1 ecnce : Z) : bool :=
  let ackedECT0 := countMarked e ECT0 packets in
  let ackedECT1 := countMarked e ECT1 packets in
  let newECT0 := ect0 - numAckedECT0 e in
  let newECT1 := ect1 - numAckedECT1 e in
  let newECNCE := ecnce - numAckedECNCE e in
  if (numSentECT0 e <? ect0) || (numSentECT1 e <? ect1) then false else
  if ((0 <? ackedECT0) || (0 <? ackedECT1)) && (ect0 =? 0) && (ect1 =? 0) && (ecnce =? 0) then false else
  if (newECT0 <? 0) || (newECT1 <? 0) || (newECNCE <? 0) then false else
  if newECT0 + newECNCE <? ackedECT0 then false else
  if newECT1 + newECNCE <? ackedECT1 then false else true.

Definition HandleNewlyAcked (e : ecnTracker) (packets : list Z) (ect0 ect1 ecnce : Z)
  : ecnTracker * bool :=
  if decide (ecn_state e = ecnStateFailed) then (e, false) else
  if negb (countsValid e packets ect0 ect1 ecnce) then (set_state e ecnStateFailed, false) else
  let newECT0 := ect0 - numAckedECT0 e in
  let newECT1 := ect1 - numAckedECT1 e in
  let newECNCE := ecnce - numAckedECNCE e in
  let e := set_numAcked e ect0 ect1 ecnce in
  let e := if decide (ecn_state e = ecnStateUnknown) then failIfMangled e else e in
  if decide (ecn_state e = ecnStateFailed) then (e, false) else
  let e :=
    if bool_decide (ecn_state e = ecnStateTesting) || bool_decide (ecn_state e = ecnStateUnknown) then
      if existsb (isTestingPacket e) packets && ((0 <? newECT0) || (0 <? newECT1))
      then set_state e ecnStateCapable else e
    else e in
  (e, bool_decide (ecn_state e = ecnStateCapable) && (0 <? newECNCE)).

(** ** Runs of the tracker

    Every packet is sent with the marking that [Mode] returns; the trace remembers
    the markings. *)
Inductive ecn_op :=
| OpSend (pn : Z)
| OpLost (pn : Z)
| OpAck (packets : list Z) (ect0 ect1 ecnce : Z).

Definition ecn_step (st : ecnTracker * list (Z * ECN)) (op : ecn_op)
  : res (ecnTracker * list (Z * ECN)) :=
  let '(e, sent) := st in
  match op with
  | OpSend pn => let '(e, m) := Mode e in e ← SentPacket e pn m; Ok (e, (pn, m) :: sent)
  | OpLost pn => Ok (LostPacket e pn, sent)
  | OpAck packets ect0 ect1 ecnce => Ok ((HandleNewlyAcked e packets ect0 ect1 ecnce).1, sent)
  end.

(** Packet numbers increase. *)
Definition ecn_allowed (sent : list (Z * ECN)) (op : ecn_op) : Prop :=
  match op with OpSend pn => 0 ≤ pn ∧ Forall (λ p, p.1 < pn) sent | _ => True end.

Inductive ecn_reachable : ecnTracker * list (Z * ECN) → Prop :=
| ecn_new : ecn_reachable (newECNTracker, [])
| ecn_next st op st' :
    ecn_reachable st → ecn_allowed st.2 op → ecn_step st op = Ok st' → ecn_reachable st'.

(** The marking of the packet, as the tracker should remember it. *)
Definition marked (e : ecnTracker) (pn : Z) : bool :=
  (lastTestingPacket e =? InvalidPacketNumber) || (pn <=? lastTestingPacket e) ||
  (negb (firstCapablePacket e =? InvalidPacketNumber) && (firstCapablePacket e <=? pn)).

Record ecn_inv (e : ecnTracker) (sent : list (Z * ECN)) : Prop := {
  ecn_first : sent = [] ∧ firstTestingPacket e = InvalidPacketNumber ∨
    0 ≤ firstTestingPacket e ∧ firstTestingPacket e ∈ sent.*1;
  ecn_sent : Forall (λ p, 0 ≤ p.1 ∧ firstTestingPacket e ≤ p.1 ∧
                       p.2 = if marked e p.1 then ECT0 else ECNNon) sent;
  ecn_last : lastTestingPacket e = InvalidPacketNumber ∨ lastTestingPacket e ∈ sent.*1;
  ecn_capable : firstCapablePacket e = InvalidPacketNumber ∨
    firstCapablePacket e ∈ sent.*1 ∧
    (0 ≤ lastTestingPacket e < firstCapablePacket e ∨ lastTestingPacket e = InvalidPacketNumber);
  ecn_states :
    match ecn_state e with
    | ecnStateInitial | ecnStateTesting =>
        lastTestingPacket e = InvalidPacketNumber ∧ firstCapablePacket e = InvalidPacketNumber
    | ecnStateUnknown => 0 ≤ lastTestingPacket e ∧ firstCapablePacket e = InvalidPacketNumber
    | ecnStateCapable => 0 ≤ firstTestingPacket e
    | ecnStateFailed => False
    end;
}.

Definition ecn_valid (e : ecnTracker) (sent : list (Z * ECN)) : Prop :=
  ecn_state e ≠ ecnStateFailed → ecn_inv e sent.

Lemma marked_all e pn : lastTestingPacket e = InvalidPacketNumber → marked e pn = true.
Proof. intros H. unfold marked. by rewrite H. Qed.

Lemma sent_below (sent : list (Z * ECN)) pn x : Forall (λ p, p.1 < pn) sent → x ∈ sent.*1 → x < pn.
Proof.
  intros Hall (p&->&Hp)%list_elem_of_fmap. rewrite Forall_forall in Hall. by apply Hall.
Qed.

(** The markings of the packets sent before stay the same. *)
Lemma sent_extend e e' sent pn m :
  Forall (λ p, 0 ≤ p.1 ∧ firstTestingPacket e ≤ p.1 ∧ p.2 = if marked e p.1 then ECT0 else ECNNon) sent →
  Forall (λ p, p.1 < pn) sent →
  (∀ p, p ∈ sent → firstTestingPacket e' ≤ p.1 ∧ (0 ≤ p.1 < pn → marked e' p.1 = marked e p.1)) →
  0 ≤ pn → firstTestingPacket e' ≤ pn → m = (if marked e' pn then ECT0 else ECNNon) →
  Forall (λ p, 0 ≤ p.1 ∧ firstTestingPacket e' ≤ p.1 ∧ p.2 = if marked e' p.1 then ECT0 else ECNNon)
    ((pn, m) :: sent).
Proof.
  rewrite !Forall_forall. intros Hs Hall He' Hpn Hf Hm p [->|Hp]%elem_of_cons; [done|].
  destruct (He' p Hp) as [Hfp Hmp]. destruct (Hs p Hp) as (?&?&->). specialize (Hall p Hp). cbn in Hall.
  rewrite Hmp by lia. split_and!; [lia..|done].
Qed.

Lemma sentMarked_testing e pn :
  ecn_state e = ecnStateTesting →
  sentMarked e pn =
    let first := if firstTestingPacket e =? InvalidPacketNumber then pn else firstTestingPacket e in
    if numECNTestingPackets <=? numSentECT0 e + numSentECT1 e
    then set_testing (set_state e ecnStateUnknown) (u8 (numSentTesting e + 1)) first pn
    else set_testing e (u8 (numSentTesting e + 1)) first (lastTestingPacket e).
Proof. by destruct e; cbn; intros ->. Qed.

Lemma sentMarked_capable e pn :
  ecn_state e = ecnStateCapable →
  sentMarked e pn =
    if firstCapablePacket e =? InvalidPacketNumber then set_firstCapablePacket e pn else e.
Proof.
  destruct e as [st ns nl first last fc s0 s1 a0 a1 ce]. cbn [ecn_state]. intros ->.
  cbn [firstCapablePacket]. destruct (fc =? InvalidPacketNumber) eqn:E; cbv -[Z.eqb InvalidPacketNumber]; by rewrite E.
Qed.

(** A marked packet is sent while testing, or once the path is known to work. *)
Lemma send_testing e sent pn :
  ecn_inv e sent → ecn_state e = ecnStateTesting → 0 ≤ pn → Forall (λ p, p.1 < pn) sent →
  ecn_inv (sentMarked (set_numSent e (numSentECT0 e + 1) (numSentECT1 e)) pn) ((pn, ECT0) :: sent).
Proof.
  intros [Hf Hs Hl Hc Hst] Ht Hpn Hall. rewrite Ht in Hst. destruct Hst as [Hl' Hc'].
  pose (first' := if firstTestingPacket e =? InvalidPacketNumber then pn else firstTestingPacket e).
  assert (0 ≤ first' ≤ pn ∧ first' ∈ pn :: sent.*1 ∧ Forall (λ p, first' ≤ p.1) sent) as (Hfirst&Hin&Hall').
  { unfold first'. destruct Hf as [[-> ->]|[Hf Hin]]; [rewrite Z.eqb_refl; split_and!; [lia..|set_solver|constructor]|].
    rewrite (proj2 (Z.eqb_neq _ _)) by (unfold InvalidPacketNumber; lia).
    pose proof (sent_below sent pn _ Hall Hin).
    split_and!; [lia..|set_solver|]. eapply Forall_impl; [exact Hs|cbn; lia]. }
  rewrite sentMarked_testing by done. cbn [firstTestingPacket set_numSent]. fold first'.
  rewrite Forall_forall in Hall'. unfold InvalidPacketNumber in *.
  zcase; (split; [right; split; [cbn; lia|done]| |cbn; set_solver|by left|cbn; by rewrite ?Ht]);
    apply (sent_extend e); try done; try (cbn; lia);
    try (intros p Hp; split; [by apply Hall'|]); unfold marked; cbn; rewrite ?Hl', ?Hc'; try done.
  - intros Hp'. rewrite (proj2 (Z.leb_le _ pn)) by lia. by rewrite orb_true_r.
  - by rewrite Z.leb_refl, orb_true_r.
Qed.

Lemma send_capable e sent pn :
  ecn_inv e sent → ecn_state e = ecnStateCapable → 0 ≤ pn → Forall (λ p, p.1 < pn) sent →
  ecn_inv (sentMarked (set_numSent e (numSentECT0 e + 1) (numSentECT1 e)) pn) ((pn, ECT0) :: sent).
Proof.
  intros [Hf Hs Hl Hc Hst] Ht Hpn Hall. rewrite Ht in Hst. unfold InvalidPacketNumber in *.
  destruct Hf as [[_ ?]|[Hf Hin]]; [lia|]. pose proof (sent_below sent pn _ Hall Hin).
  assert (lastTestingPacket e = -1 ∨ 0 ≤ lastTestingPacket e < pn) as Hlp.
  { destruct Hl as [->|Hlin]; [by left|right]. pose proof (sent_below sent pn _ Hall Hlin).
    rewrite Forall_forall in Hs. apply list_elem_of_fmap in Hlin as (p&Heq&Hp). specialize (Hs p Hp). lia. }
  assert (firstCapablePacket e = -1 ∨ firstCapablePacket e < pn) as Hcp.
  { destruct Hc as [?|[Hcin _]]; [by left|right]. by eapply sent_below. }
  rewrite sentMarked_capable by done. cbn [firstCapablePacket set_numSent].
  assert (∀ b : bool, b = true → ECT0 = if b then ECT0 else ECNNon) as Hb by (by intros []).
  rewrite Forall_forall in Hs.
  unfold InvalidPacketNumber. zcase; (split; unfold InvalidPacketNumber;
    [right; set_solver| |cbn; set_solver|cbn; set_solver|cbn; by rewrite ?Ht]);
    apply (sent_extend e); try done; try (cbn; lia); try (by apply Forall_forall);
    try (intros p Hp; split; [by apply Hs|]); try apply Hb; unfold marked, InvalidPacketNumber; cbn; lia.
Qed.

Lemma send_unmarked e sent pn :
  ecn_inv e sent → ecn_state e = ecnStateUnknown → 0 ≤ pn → Forall (λ p, p.1 < pn) sent →
  ecn_inv e ((pn, ECNNon) :: sent).
Proof.
  intros [Hf Hs Hl Hc Hst] Ht Hpn Hall. pose proof Hst as Hst'. rewrite Ht in Hst'.
  unfold InvalidPacketNumber in *. destruct Hst' as [Hl0 Hc0]. destruct Hl as [?|Hlin]; [lia|].
  pose proof (sent_below sent pn _ Hall Hlin).
  assert (0 ≤ firstTestingPacket e < pn ∧ firstTestingPacket e ∈ sent.*1) as [Hfirst Hin].
  { destruct Hf as [[-> _]|[Hf Hin]]; [by apply not_elem_of_nil in Hlin|].
    pose proof (sent_below sent pn _ Hall Hin). split; [lia|done]. }
  split; unfold InvalidPacketNumber; [right; set_solver| |set_solver|by left|done].
  apply (sent_extend e); try done; [|lia|].
  - intros p Hp. rewrite Forall_forall in Hs. split; [by apply Hs|done].
  - assert (marked e pn = false) as ->; [|done]. unfold marked, InvalidPacketNumber. lia.
Qed.

(** The fields that the markings depend on. *)
Definition same_packets (e e' : ecnTracker) : Prop :=
  firstTestingPacket e' = firstTestingPacket e ∧ lastTestingPacket e' = lastTestingPacket e ∧
  firstCapablePacket e' = firstCapablePacket e.

Lemma valid_same e e' sent :
  ecn_inv e sent → same_packets e e' →
  (ecn_state e' = ecn_state e ∨ ecn_state e' = ecnStateFailed ∨
   ecn_state e' = ecnStateCapable ∧ firstTestingPacket e ≠ InvalidPacketNumber) →
  ecn_valid e' sent.
Proof.
  intros [Hf Hs Hl Hc Hst] (E1&E2&E3) Hstate Hnf. unfold InvalidPacketNumber in *.
  assert (∀ pn, marked e' pn = marked e pn) as Hm by (intros; unfold marked; by rewrite E2, E3).
  split; unfold InvalidPacketNumber; rewrite ?E1, ?E2, ?E3; try done.
  - eapply Forall_impl; [exact Hs|]. cbn. intros p. by rewrite Hm.
  - destruct Hstate as [->|[?|[-> Hfirst]]]; [done..|]. destruct Hf as [[_ ?]|[? _]]; lia.
Qed.

Lemma failIfMangled_packets e :
  same_packets e (failIfMangled e) ∧
  (failIfMangled e = e ∨ ecn_state (failIfMangled e) = ecnStateFailed).
Proof. unfold failIfMangled. zcase; split; done || auto. Qed.

Lemma LostPacket_valid e sent pn : ecn_inv e sent → ecn_valid (LostPacket e pn) sent.
Proof.
  intros Hinv. unfold LostPacket. destruct (negb _ && _); [by intros ?|].
  destruct (negb (isTestingPacket e pn)); [by intros ?|]. cbn [ecn_state set_numLostTesting].
  case_bool_decide as Hu; cbn [negb]; [|eapply valid_same; [done|done|by left]].
  set (e1 := set_numLostTesting _ _). zcase; [eapply valid_same; [done|done|by right; left]|].
  destruct (failIfMangled_packets e1) as [Hp [->|Hf]];
    (eapply valid_same; [done|done|]); [by left|by right; left].
Qed.

Lemma HandleNewlyAcked_valid e sent packets ect0 ect1 ecnce :
  ecn_inv e sent → ecn_valid (HandleNewlyAcked e packets ect0 ect1 ecnce).1 sent.
Proof.
  intros Hinv. unfold HandleNewlyAcked. case_decide; [by intros ?|].
  destruct (countsValid _ _ _ _ _); cbn [negb]; [|eapply valid_same; [done|done|by right; left]].
  set (e1 := set_numAcked _ _ _ _).
  assert (same_packets e e1 ∧ ecn_state e1 = ecn_state e) as [Hp1 Hs1] by done.
  set (e2 := if decide _ then failIfMangled e1 else e1).
  assert (same_packets e e2 ∧ (ecn_state e2 = ecn_state e ∨ ecn_state e2 = ecnStateFailed)) as [Hp2 Hs2].
  { unfold e2. case_decide; [|by auto]. destruct (failIfMangled_packets e1) as [? [->|?]]; auto. }
  case_decide; [eapply valid_same; [done|done|by right; left]|].
  destruct Hs2 as [Hs2|?]; [|done]. cbn [fst].
  destruct (bool_decide _ || bool_decide _); [|eapply valid_same; [done|done|by left]].
  destruct (existsb (isTestingPacket e2) packets) eqn:He; cbn [andb];
    [|eapply valid_same; [done|done|by left]].
  destruct (_ || _); [|eapply valid_same; [done|done|by left]].
  eapply valid_same; [exact Hinv|done|]. right. right. split; [done|].
  apply existsb_exists in He as (pn&_&Ht). unfold isTestingPacket in Ht.
  destruct Hp2 as [<- _]. destruct (Z.eqb_spec (firstTestingPacket e2) InvalidPacketNumber); done.
Qed.

Lemma ecn_step_valid e sent op :
  ecn_valid e sent → ecn_allowed sent op →
  ∃ e' sent', ecn_step (e, sent) op = Ok (e', sent') ∧ ecn_valid e' sent' ∧
    (ecn_state e = ecnStateFailed → ecn_state e' = ecnStateFailed).
Proof.
  intros Hv Hal. destruct (decide (ecn_state e = ecnStateFailed)) as [Hf|Hf].
  { assert (∀ e' sent', ecn_state e' = ecnStateFailed → ecn_valid e' sent') as Hfail by (by intros ????).
    destruct op as [pn|pn|packets ect0 ect1 ecnce]; cbn [ecn_step].
    - unfold Mode. rewrite Hf. cbn. eexists _, _. split; [done|]. auto.
    - unfold LostPacket. rewrite !bool_decide_false by (by rewrite Hf). eexists _, _. split; [done|]. auto.
    - unfold HandleNewlyAcked. rewrite decide_True by done. eexists _, _. split; [done|]. auto. }
  specialize (Hv Hf). destruct op as [pn|pn|packets ect0 ect1 ecnce]; cbn [ecn_step].
  - destruct Hal as [Hpn Hall]. unfold Mode. destruct (ecn_state e) eqn:Hs; [..|done]; cbn [SentPacket mbind result_bind];
      eexists _, _; (split; [done|]); (split; [intros _|done]).
    + apply (send_testing (set_state e ecnStateTesting)); try done.
      destruct Hv as [? ? ? ? Hst]. split; try done. rewrite Hs in Hst. done.
    + by apply send_testing.
    + by apply send_unmarked.
    + by apply send_capable.
  - eexists _, _. split; [done|]. split; [by apply LostPacket_valid|done].
  - eexists _, _. split; [done|]. split; [by apply HandleNewlyAcked_valid|done].
Qed.

Lemma ecn_reachable_valid st : ecn_reachable st → ecn_valid st.1 st.2.
Proof.
  induction 1 as [|[e sent] op st' _ IH Hal Hst].
  - intros _. split; cbn; [by left|constructor|by left|by left|done].
  - destruct (ecn_step_valid e sent op IH Hal) as (e'&sent'&Hst'&Hv&_).
    rewrite Hst in Hst'. by injection Hst' as ->.
Qed.

Lemma ecnMarking_spec e sent pn m :
  ecn_inv e sent → (pn, m) ∈ sent →
  if pn =? lastTestingPacket e then ecnMarking e pn = ECNNon ∧ m = ECT0 else ecnMarking e pn = m.
Proof.
  intros [Hf Hs Hl Hc Hst] Hin. rewrite Forall_forall in Hs. destruct (Hs _ Hin) as (H0&H1&Hm).
  cbn in *. unfold ecnMarking, marked, InvalidPacketNumber in *.
  destruct Hf as [[-> _]|[Hf _]]; [by apply not_elem_of_nil in Hin|].
  assert (firstCapablePacket e = -1 ∨ lastTestingPacket e < firstCapablePacket e) as Hcap.
  { destruct Hc as [?|[Hcin Hc]]; [by left|right]. apply list_elem_of_fmap in Hcin as (p&Heq&Hp).
    destruct (Hs p Hp) as (?&_). lia. }
  destruct (Z.eqb_spec pn (lastTestingPacket e)); subst m; repeat zcase; done || lia.
Qed.

(** The counts that make a path pass the validation. *)
Lemma congested_spec e packets ect0 ect1 ecnce e' :
  HandleNewlyAcked e packets ect0 ect1 ecnce = (e', true) →
  ecn_state e' = ecnStateCapable ∧ numAckedECNCE e < ecnce ∧
  ect0 ≤ numSentECT0 e ∧ ect1 ≤ numSentECT1 e ∧ numAckedECT0 e ≤ ect0 ∧ numAckedECT1 e ≤ ect1 ∧
  countMarked e ECT0 packets ≤ (ect0 - numAckedECT0 e) + (ecnce - numAckedECNCE e).
Proof.
  unfold HandleNewlyAcked. case_decide; [done|]. destruct (countsValid _ _ _ _ _) eqn:Hv; [|done].
  cbn [negb]. case_decide; [done|]. intros [= <- [Hc%bool_decide_eq_true Hce%Z.ltb_lt]%andb_prop].
  split_and!; [done|lia|..]; unfold countsValid in Hv; repeat zcase_in Hv; done || lia.
Qed.

(** C38: ECN validation is sound.  Sending packets as [Mode] says never panics, a
    failed path stays failed, congestion is only reported on a validated path for
    an increased count of CE marks, and the tracker remembers the marking of every
    packet it sent, except for the last of the ten testing packets: that one was
    sent with ECT(0), but counts as unmarked when its acknowledgement is validated. *)
Theorem ecn_validation_sound e sent op :
  ecn_reachable (e, sent) → ecn_allowed sent op →
  (∃ e' sent', ecn_step (e, sent) op = Ok (e', sent') ∧
    (ecn_state e = ecnStateFailed → ecn_state e' = ecnStateFailed)) ∧
  (∀ packets ect0 ect1 ecnce e', HandleNewlyAcked e packets ect0 ect1 ecnce = (e', true) →
    ecn_state e' = ecnStateCapable ∧ numAckedECNCE e < ecnce ∧ ect0 ≤ numSentECT0 e ∧
    countMarked e ECT0 packets ≤ (ect0 - numAckedECT0 e) + (ecnce - numAckedECNCE e)) ∧
  (ecn_state e ≠ ecnStateFailed → ∀ pn m, (pn, m) ∈ sent →
    if pn =? lastTestingPacket e then ecnMarking e pn = ECNNon ∧ m = ECT0 else ecnMarking e pn = m).
Proof.
  intros Hr Hal. pose proof (ecn_reachable_valid _ Hr) as Hv. cbn in Hv. split_and!.
  - destruct (ecn_step_valid e sent op Hv Hal) as (e'&sent'&?&_&?). eauto.
  - intros * ?%congested_spec. naive_solver.
  - intros Hf pn m. by apply ecnMarking_spec, Hv.
Qed.

Lemma ecn_validation_sound_witness :
  ∃ e sent, ecn_reachable (e, sent) ∧ sent = [(1, ECT0); (0, ECT0)] ∧
    ∃ e' sent', ecn_step (e, sent) (OpSend 2) = Ok (e', sent').
Proof.
  pose proof ecn_new as H0.
  eapply (ecn_next _ (OpSend 0)) in H0; [|cbn; split; [done|constructor]|vm_compute; reflexivity].
  eapply (ecn_next _ (OpSend 1)) in H0;
    [|cbn; split; [done|repeat constructor]|vm_compute; reflexivity].
  eexists _, _. split; [exact H0|]. split; [done|].
  destruct (ecn_validation_sound _ _ (OpSend 2) H0) as ((e'&sent'&?&_)&_).
  - cbn. split; [done|repeat constructor].
  - eauto.
Defined.
