(* ===== verification/SentHistory.v ===== *)
(** * Packet numbers and the history of sent packets

    internal/ackhandler/packet_number_generator.go, packet.go and
    sent_packet_history.go.  The history is a slice with an entry for every packet
    number from the first packet that is not settled on; the entries of packets
    that are settled or do not elicit an ACK are nil.  A frame is a value of the
    parameter [F], its handler is [true] if it is not nil. *)

From S2P Require Import Prelude Protocol.

(** ** Random numbers (internal/utils/rand.go)

    The random words that [crypto/rand] delivers are an argument, of which
    [Int31n] consumes some. *)
Definition Int31 (word : Z) : Z := Z.land (u32 word) (Z.lnot (Z.shiftl 1 31)).

Fixpoint Int31n_loop (words : list Z) (max n : Z) : option (Z * list Z) :=
  match words with
  | [] => None
  | w :: words => if max <? Int31 w then Int31n_loop words max n else Some (Int31 w mod n, words)
  end.

Definition Int31n (words : list Z) (n : Z) : option (Z * list Z) :=
  if Z.land n (n - 1) =? 0 then
    match words with
    | [] => None
    | w :: words => Some (Z.land (Int31 w) (n - 1), words)
    end
  else Int31n_loop words (2 ^ 31 - 1 - 2 ^ 31 mod n) n.

(** ** Packet number generators

    [random] is the result of [Int31n] in case it is called. *)
Record skippingPacketNumberGenerator := mkSkipping {
  period : Z;
  maxPeriod : Z;
  gen_next : Z;
  nextToSkip : Z;
}.

Inductive packetNumberGenerator :=
| Sequential (next : Z)
| Skipping (g : skippingPacketNumberGenerator).

Definition generateNewSkip (g : skippingPacketNumberGenerator) (random : Z)
  : skippingPacketNumberGenerator :=
  mkSkipping (Z.min (2 * period g) (maxPeriod g)) (maxPeriod g) (gen_next g)
    (gen_next g + 3 + random).

Definition newSkippingPacketNumberGenerator (initial initialPeriod maxPeriod random : Z)
  : packetNumberGenerator :=
  Skipping (generateNewSkip (mkSkipping initialPeriod maxPeriod initial 0) random).

Definition Peek (p : packetNumberGenerator) : Z :=
  match p with
  | Sequential next => next
  | Skipping g => if gen_next g =? nextToSkip g then gen_next g + 1 else gen_next g
  end.

Definition Pop (p : packetNumberGenerator) (random : Z) : packetNumberGenerator * (bool * Z) :=
  match p with
  | Sequential next => (Sequential (next + 1), (false, next))
  | Skipping g =>
      if gen_next g =? nextToSkip g then
        (Skipping (generateNewSkip (mkSkipping (period g) (maxPeriod g) (gen_next g + 2) (nextToSkip g))
                     random), (true, gen_next g + 1))
      else
        (Skipping (mkSkipping (period g) (maxPeriod g) (gen_next g + 1) (nextToSkip g)),
         (false, gen_next g))
  end.

Section history.
Context {F : Type}.

Record Frame := mkFrame { frame : F; Handler : bool }.

Record packet := mkPacket {
  SendTime : Z;
  PacketNumber : Z;
  StreamFrames : list Frame;
  Frames : list Frame;
  pkt_LargestAcked : Z;
  Length_ : Z;
  pkt_EncryptionLevel : EncryptionLevel;
  IsPathMTUProbePacket : bool;
  includedInBytesInFlight : bool;
  declaredLost : bool;
  skippedPacket : bool;
  isPathProbePacket : bool;
}.

Definition outstanding (p : packet) : bool :=
  negb (declaredLost p) && negb (skippedPacket p) && negb (IsPathMTUProbePacket p) &&
  negb (isPathProbePacket p).

(** [&packet{PacketNumber: pn, ...}] for skipped numbers and path probes. *)
Definition placeholder (pn : Z) (skipped probe : bool) : packet :=
  mkPacket 0 pn [] [] 0 0 EncryptionInitial false false false skipped probe.

(** ** The history *)
Record sentPacketHistory := mkHistory {
  packets : list (option packet);
  pathProbePackets : list packet;
  numOutstanding : Z;
  highestPacketNumber : Z;
}.

Definition newSentPacketHistory : sentPacketHistory := mkHistory [] [] 0 InvalidPacketNumber.

Definition checkSequentialPacketNumberUse (h : sentPacketHistory) (pn : Z) : res sentPacketHistory :=
  if negb (highestPacketNumber h =? InvalidPacketNumber) && negb (pn =? highestPacketNumber h + 1)
  then Panic
  else Ok (mkHistory (packets h) (pathProbePackets h) (numOutstanding h) pn).

Definition SkippedPacket (h : sentPacketHistory) (pn : Z) : res sentPacketHistory :=
  h ← checkSequentialPacketNumberUse h pn;
  Ok (mkHistory (packets h ++ [Some (placeholder pn true false)]) (pathProbePackets h)
        (numOutstanding h) (highestPacketNumber h)).

Definition SentNonAckElicitingPacket (h : sentPacketHistory) (pn : Z) : res sentPacketHistory :=
  h ← checkSequentialPacketNumberUse h pn;
  if 0 <? len (packets h)
  then Ok (mkHistory (packets h ++ [None]) (pathProbePackets h) (numOutstanding h)
             (highestPacketNumber h))
  else Ok h.

Definition SentAckElicitingPacket (h : sentPacketHistory) (p : packet) : res sentPacketHistory :=
  h ← checkSequentialPacketNumberUse h (PacketNumber p);
  Ok (mkHistory (packets h ++ [Some p]) (pathProbePackets h)
        (if outstanding p then numOutstanding h + 1 else numOutstanding h) (highestPacketNumber h)).

Definition SentPathProbePacket (h : sentPacketHistory) (p : packet) : res sentPacketHistory :=
  h ← checkSequentialPacketNumberUse h (PacketNumber p);
  Ok (mkHistory (packets h ++ [Some (placeholder (PacketNumber p) false true)])
        (pathProbePackets h ++ [p]) (numOutstanding h) (highestPacketNumber h)).

(** The packets that an iteration visits.  The loops that remove packets while
    they iterate only set entries to nil that they have visited. *)
Definition Packets (h : sentPacketHistory) : list packet := omap id (packets h).

Definition HasOutstandingPackets (h : sentPacketHistory) : bool := 0 <? numOutstanding h.

Definition FirstOutstanding (h : sentPacketHistory) : option packet :=
  if negb (HasOutstandingPackets h) then None else head (filter outstanding (Packets h)).

Definition FirstOutstandingPathProbe (h : sentPacketHistory) : option packet :=
  head (pathProbePackets h).

Definition History_Len (h : sentPacketHistory) : Z := len (packets h).

Definition HasOutstandingPathProbes (h : sentPacketHistory) : bool := 0 <? len (pathProbePackets h).

(** [h.packets[0].PacketNumber] *)
Definition first_number (ps : list (option packet)) : res Z :=
  match ps with
  | Some p :: _ => Ok (PacketNumber p)
  | _ => Panic
  end.

Definition getIndex (h : sentPacketHistory) (p : Z) : res (option nat) :=
  if len (packets h) =? 0 then Ok None else
  first ← first_number (packets h);
  if p <? first then Ok None else
  let index := p - first in
  if len (packets h) - 1 <? index then Ok None else Ok (Some (Z.to_nat index)).

Fixpoint dropNils (ps : list (option packet)) : list (option packet) :=
  match ps with
  | None :: ps => dropNils ps
  | _ => ps
  end.

Definition cleanupStart (h : sentPacketHistory) : sentPacketHistory :=
  mkHistory (dropNils (packets h)) (pathProbePackets h) (numOutstanding h) (highestPacketNumber h).

Definition LowestPacketNumber (h : sentPacketHistory) : res Z :=
  if len (packets h) =? 0 then Ok InvalidPacketNumber else first_number (packets h).

(** The entry [h.packets[idx]] is set to nil. *)
Definition takeOut (h : sentPacketHistory) (idx : nat) : res sentPacketHistory :=
  match packets h !! idx with
  | Some (Some p) =>
      let n := if outstanding p then numOutstanding h - 1 else numOutstanding h in
      if outstanding p && (n <? 0) then Panic
      else Ok (mkHistory (<[idx := None]> (packets h)) (pathProbePackets h) n (highestPacketNumber h))
  | _ => Panic
  end.

(** Clean up the skipped packets directly before [idx]. *)
Fixpoint cleanSkipped (ps : list (option packet)) (idx : nat) : list (option packet) * nat :=
  match idx with
  | O => (ps, O)
  | S i =>
      match ps !! i with
      | Some (Some p) => if skippedPacket p then cleanSkipped (<[i := None]> ps) i else (ps, i)
      | _ => (ps, i)
      end
  end.

Definition Remove (h : sentPacketHistory) (pn : Z) : res sentPacketHistory :=
  i ← getIndex h pn;
  match i with
  | None => Err (ErrorString "packet %d not found in sent packet history" [pn])
  | Some idx =>
      h ← takeOut h idx;
      let '(ps, idx) := cleanSkipped (packets h) idx in
      let h := mkHistory ps (pathProbePackets h) (numOutstanding h) (highestPacketNumber h) in
      let h := if (idx =? 0)%nat then cleanupStart h else h in
      match packets h with
      | None :: _ => Panic
      | _ => Ok h
      end
  end.

Definition DeclareLost (h : sentPacketHistory) (pn : Z) : res sentPacketHistory :=
  i ← getIndex h pn;
  match i with
  | None => Ok h
  | Some idx =>
      h ← takeOut h idx;
      Ok (if (idx =? 0)%nat then cleanupStart h else h)
  end.

Fixpoint removeProbe (ps : list packet) (pn : Z) : option packet * list packet :=
  match ps with
  | [] => (None, [])
  | p :: ps =>
      if PacketNumber p =? pn then (Some p, ps)
      else let '(q, ps) := removeProbe ps pn in (q, p :: ps)
  end.

Definition RemovePathProbe (h : sentPacketHistory) (pn : Z) : sentPacketHistory * option packet :=
  let '(p, ps) := removeProbe (pathProbePackets h) pn in
  (mkHistory (packets h) ps (numOutstanding h) (highestPacketNumber h), p).

(** ** The invariant of the history *)
Implicit Types (ps a b : list (option packet)) (p q : packet) (h : sentPacketHistory).

(** The entries are for consecutive packet numbers up to [top]. *)
Definition numbered (top : Z) ps : Prop :=
  ∀ i p, ps !! i = Some (Some p) → PacketNumber p = top + 1 - len ps + Z.of_nat i.

Definition head_set ps : Prop := match ps with None :: _ => False | _ => True end.

Definition count_outstanding (l : list packet) : Z := len (filter outstanding l).

Record hist_inv h : Prop := {
  hist_numbered : numbered (highestPacketNumber h) (packets h);
  hist_head : head_set (packets h);
  hist_count : numOutstanding h = count_outstanding (Packets h);
  hist_top : highestPacketNumber h = InvalidPacketNumber ∧ packets h = [] ∨ 0 ≤ highestPacketNumber h;
}.

Lemma new_history_inv : hist_inv newSentPacketHistory.
Proof. split; [by intros i p|done|done|by left]. Qed.

Lemma count_app l l' : count_outstanding (l ++ l') = count_outstanding l + count_outstanding l'.
Proof. unfold count_outstanding. by rewrite filter_app, len_app. Qed.

Lemma count_cons p l : count_outstanding (p :: l) = (if outstanding p then 1 else 0) + count_outstanding l.
Proof.
  unfold count_outstanding. rewrite filter_cons.
  case_decide as Hp; destruct (outstanding p); try done; by rewrite ?len_cons.
Qed.

Lemma count_placeholder pn sk pr :
  sk || pr = true → count_outstanding (omap id [Some (placeholder pn sk pr)]) = 0.
Proof. by destruct sk, pr. Qed.

Lemma count_nonneg l : 0 ≤ count_outstanding l.
Proof. apply len_nonneg. Qed.

Lemma numbered_snoc top ps o :
  numbered top ps → (∀ p, o = Some p → PacketNumber p = top + 1) → numbered (top + 1) (ps ++ [o]).
Proof.
  intros Hn Ho i p [Hi|[Hi Hp]]%lookup_app_Some; rewrite len_app; change (len [o]) with 1.
  - rewrite (Hn i p Hi). lia.
  - apply list_lookup_singleton_Some in Hp as [Heq ->]. rewrite (Ho p) by done. unfold len. lia.
Qed.

Lemma numbered_suffix top a b : numbered top (a ++ b) → numbered top b.
Proof.
  intros Hn i p Hi. rewrite (Hn (length a + i)%nat p), len_app; [unfold len; lia|].
  by rewrite lookup_app_r, Nat.add_comm, Nat.add_sub by lia.
Qed.

Lemma numbered_update top a o o' b :
  numbered top (a ++ o :: b) → (∀ p, o' = Some p → o = Some p) → numbered top (a ++ o' :: b).
Proof.
  intros Hn Ho i p Hi. assert (len (a ++ o' :: b) = len (a ++ o :: b)) as -> by (rewrite !len_app, !len_cons; lia).
  apply Hn. rewrite lookup_app in *. destruct (a !! i); [done|].
  destruct (i - length a)%nat; cbn in *; [|done]. injection Hi as ->. by rewrite (Ho p).
Qed.

Lemma dropNils_suffix ps : ∃ k, ps = replicate k None ++ dropNils ps.
Proof.
  induction ps as [|[p|] ps [k IH]]; [by exists 0%nat|by exists 0%nat|]. exists (S k). cbn. by f_equal.
Qed.

Lemma dropNils_head ps : head_set (dropNils ps).
Proof. by induction ps as [|[p|] ps IH]. Qed.

Lemma omap_replicate_None k : omap id (replicate k (None : option packet)) = [].
Proof. by induction k. Qed.

Lemma dropNils_omap ps : omap id (dropNils ps) = omap id ps.
Proof.
  destruct (dropNils_suffix ps) as [k Hk]. rewrite Hk at 2. by rewrite omap_app, omap_replicate_None.
Qed.

Lemma dropNils_numbered top ps : numbered top ps → numbered top (dropNils ps).
Proof. destruct (dropNils_suffix ps) as [k Hk]. rewrite Hk at 1. apply numbered_suffix. Qed.

Lemma dropNils_id ps : head_set ps → dropNils ps = ps.
Proof. by destruct ps as [|[p|] ps]. Qed.

Lemma dropNils_length ps : (length (dropNils ps) ≤ length ps)%nat.
Proof. induction ps as [|[p|] ps IH]; cbn; lia. Qed.

(** A packet of the history and its entry. *)
Lemma Packets_split ps l1 p l2 :
  omap id ps = l1 ++ p :: l2 → ∃ a b, ps = a ++ Some p :: b ∧ omap id a = l1 ∧ omap id b = l2.
Proof.
  revert l1. induction ps as [|[q|] ps IH]; intros l1; cbn.
  - by destruct l1.
  - destruct l1 as [|q' l1]; cbn; intros [= -> Hl]; [by exists [], ps|].
    destruct (IH l1 Hl) as (a&b&->&<-&<-). by exists (Some q' :: a), b.
  - intros Hl. destruct (IH l1 Hl) as (a&b&->&<-&<-). by exists (None :: a), b.
Qed.

Lemma getIndex_entry h a p b :
  hist_inv h → packets h = a ++ Some p :: b → getIndex h (PacketNumber p) = Ok (Some (length a)).
Proof.
  intros [Hn Hh _ _] Hp. unfold getIndex. rewrite Hp. rewrite (proj2 (Z.eqb_neq _ _)) by len_lia.
  assert (∃ f, first_number (a ++ Some p :: b) = Ok f ∧ f = PacketNumber p - len a) as (f&->&->).
  { rewrite Hp in Hn, Hh. pose proof (Hn (length a) p ltac:(by apply list_lookup_middle)) as H1.
    destruct a as [|[q|] a]; cbn in *; [|..|done].
    - exists (PacketNumber p). split; [done|]. rewrite len_nil. lia.
    - exists (PacketNumber q). split; [done|].
      pose proof (Hn 0%nat q eq_refl) as H0. rewrite len_cons. unfold len in *. lia. }
  cbn [mbind result_bind]. rewrite (proj2 (Z.ltb_ge _ _)) by len_lia.
  replace (PacketNumber p - (PacketNumber p - len a)) with (len a) by lia.
  rewrite (proj2 (Z.ltb_ge _ _)) by len_lia. unfold len. by rewrite Nat2Z.id.
Qed.

Lemma takeOut_entry h a p b :
  hist_inv h → packets h = a ++ Some p :: b →
  takeOut h (length a) =
    Ok (mkHistory (a ++ None :: b) (pathProbePackets h)
          (count_outstanding (omap id a ++ omap id b)) (highestPacketNumber h)).
Proof.
  intros Hinv Hp. unfold takeOut. rewrite Hp, list_lookup_middle by done.
  rewrite insert_app_r_alt, Nat.sub_diag by lia. cbn [insert list_insert].
  assert ((if outstanding p then numOutstanding h - 1 else numOutstanding h) =
          count_outstanding (omap id a ++ omap id b)) as ->.
  { rewrite (hist_count h Hinv). unfold Packets. rewrite Hp, omap_app. cbn.
    rewrite !count_app, count_cons. destruct (outstanding p); lia. }
  pose proof (count_nonneg (omap id a ++ omap id b)).
  by rewrite (proj2 (Z.ltb_ge _ _)), andb_false_r by lia.
Qed.

(** ** Sending *)

(** The packet numbers that can be used next. *)
Definition next_number h (pn : Z) : Prop :=
  0 ≤ pn ∧ (highestPacketNumber h = InvalidPacketNumber ∨ pn = highestPacketNumber h + 1).

Lemma check_ok h pn :
  next_number h pn →
  checkSequentialPacketNumberUse h pn = Ok (mkHistory (packets h) (pathProbePackets h) (numOutstanding h) pn).
Proof.
  intros [_ [Hh | ->]]; unfold checkSequentialPacketNumberUse; [by rewrite Hh|].
  by rewrite Z.eqb_refl, andb_false_r.
Qed.

Lemma next_numbered h pn o :
  hist_inv h → next_number h pn → (∀ p, o = Some p → PacketNumber p = pn) →
  numbered pn (packets h ++ [o]).
Proof.
  intros [Hn _ _ Ht] [Hpn Hnext] Ho. replace pn with (pn - 1 + 1) by lia. apply numbered_snoc.
  - destruct Ht as [[_ ->]|?]; [by intros ??|]. destruct Hnext as [?| ->]; [unfold InvalidPacketNumber in *; lia|].
    by replace (highestPacketNumber h + 1 - 1) with (highestPacketNumber h) by lia.
  - intros p Hp. rewrite (Ho p Hp). lia.
Qed.

(** Appending an entry. *)
Lemma append_inv h pn o probes :
  hist_inv h → next_number h pn → (∀ p, o = Some p → PacketNumber p = pn) →
  (o = None → packets h ≠ []) →
  hist_inv (mkHistory (packets h ++ [o]) probes (count_outstanding (omap id (packets h ++ [o]))) pn).
Proof.
  intros Hinv Hnext Ho Hne. split; cbn.
  - by apply next_numbered.
  - pose proof (hist_head h Hinv). destruct (packets h) as [|[q|] ps]; [|done..].
    destruct o; [done|]. by apply Hne.
  - done.
  - right. apply Hnext.
Qed.

Lemma SkippedPacket_spec h pn :
  hist_inv h → next_number h pn →
  ∃ h', SkippedPacket h pn = Ok h' ∧ hist_inv h' ∧
    Packets h' = Packets h ++ [placeholder pn true false] ∧
    pathProbePackets h' = pathProbePackets h ∧ highestPacketNumber h' = pn.
Proof.
  intros Hinv Hnext. unfold SkippedPacket. rewrite check_ok by done. cbn.
  eexists. split; [done|]. split; [|unfold Packets; cbn; by rewrite omap_app].
  rewrite (hist_count h Hinv).
  replace (count_outstanding (Packets h))
    with (count_outstanding (omap id (packets h ++ [Some (placeholder pn true false)]))).
  - apply append_inv; try done. by intros p [= <-].
  - rewrite omap_app, count_app, count_placeholder by done. unfold Packets. lia.
Qed.

Lemma SentNonAckEliciting_spec h pn :
  hist_inv h → next_number h pn →
  ∃ h', SentNonAckElicitingPacket h pn = Ok h' ∧ hist_inv h' ∧ Packets h' = Packets h ∧
    pathProbePackets h' = pathProbePackets h ∧ highestPacketNumber h' = pn.
Proof.
  intros Hinv Hnext. unfold SentNonAckElicitingPacket. rewrite check_ok by done.
  cbn [mbind result_bind packets]. zcase; (eexists; split; [done|]).
  - split; [|unfold Packets; cbn; by rewrite omap_app, app_nil_r].
    rewrite (hist_count h Hinv).
    replace (count_outstanding (Packets h)) with (count_outstanding (omap id (packets h ++ [None])))
      by (unfold Packets; by rewrite omap_app, app_nil_r).
    apply append_inv; try done. intros _ Hp. rewrite Hp in H. by apply Z.lt_irrefl in H.
  - assert (packets h = []) as Hp by (apply len_0_nil; len_lia).
    split; [|done]. split; cbn; rewrite ?Hp; try done.
    + rewrite (hist_count h Hinv). unfold Packets. cbn. by rewrite Hp.
    + right. apply Hnext.
Qed.

Lemma SentAckEliciting_spec h p :
  hist_inv h → next_number h (PacketNumber p) →
  ∃ h', SentAckElicitingPacket h p = Ok h' ∧ hist_inv h' ∧ Packets h' = Packets h ++ [p] ∧
    pathProbePackets h' = pathProbePackets h ∧ highestPacketNumber h' = PacketNumber p.
Proof.
  intros Hinv Hnext. unfold SentAckElicitingPacket. rewrite check_ok by done.
  eexists. split; [done|]. split; [|unfold Packets; cbn; by rewrite omap_app].
  cbn [packets pathProbePackets numOutstanding highestPacketNumber].
  replace (if outstanding p then _ else _) with (count_outstanding (omap id (packets h ++ [Some p]))).
  - apply append_inv; try done. by intros q [= <-].
  - rewrite (hist_count h Hinv), omap_app, count_app. unfold Packets. cbn [omap list_omap id].
    rewrite count_cons. change (count_outstanding []) with 0. destruct (outstanding p); lia.
Qed.

Lemma SentPathProbe_spec h p :
  hist_inv h → next_number h (PacketNumber p) →
  ∃ h', SentPathProbePacket h p = Ok h' ∧ hist_inv h' ∧
    Packets h' = Packets h ++ [placeholder (PacketNumber p) false true] ∧
    pathProbePackets h' = pathProbePackets h ++ [p] ∧ highestPacketNumber h' = PacketNumber p.
Proof.
  intros Hinv Hnext. unfold SentPathProbePacket. rewrite check_ok by done.
  eexists. split; [done|]. split; [|unfold Packets; cbn; by rewrite omap_app].
  cbn [packets pathProbePackets numOutstanding highestPacketNumber].
  replace (numOutstanding h)
    with (count_outstanding (omap id (packets h ++ [Some (placeholder (PacketNumber p) false true)]))).
  - apply append_inv; try done. by intros q [= <-].
  - rewrite (hist_count h Hinv), omap_app, count_app, count_placeholder by done. unfold Packets. lia.
Qed.

(** ** Settling packets *)

(** The history after entries were set to nil. *)
Lemma cleared_inv h ps probes :
  hist_inv h → length ps = length (packets h) → (∀ i p, ps !! i = Some (Some p) → packets h !! i = Some (Some p)) →
  head_set ps →
  hist_inv (mkHistory ps probes (count_outstanding (omap id ps)) (highestPacketNumber h)).
Proof.
  intros [Hn _ _ Ht] Hlen Hsub Hh. split; cbn; try done.
  - intros i p Hi. rewrite (Hn i p) by auto. unfold len. by rewrite Hlen.
  - destruct Ht as [[? Hp]|?]; [left|by right]. split; [done|]. rewrite Hp in Hlen.
    by apply nil_length_inv.
Qed.

Lemma cleaned_inv h ps probes :
  hist_inv h → length ps = length (packets h) → (∀ i p, ps !! i = Some (Some p) → packets h !! i = Some (Some p)) →
  hist_inv (mkHistory (dropNils ps) probes (count_outstanding (omap id ps)) (highestPacketNumber h)).
Proof.
  intros [Hn _ _ Ht] Hlen Hsub. split; cbn.
  - apply dropNils_numbered. intros i p Hi. rewrite (Hn i p) by auto. unfold len. by rewrite Hlen.
  - apply dropNils_head.
  - unfold Packets. cbn. by rewrite dropNils_omap.
  - destruct Ht as [[? Hp]|?]; [left|by right]. split; [done|]. rewrite Hp in Hlen.
    by rewrite (nil_length_inv ps Hlen).
Qed.

Lemma cleared_lookup a p b i q :
  (a ++ None :: b) !! i = Some (Some q) → (a ++ Some p :: b) !! i = Some (Some q).
Proof. rewrite !lookup_app. destruct (a !! i); [done|]. by destruct (i - length a)%nat. Qed.

(** What settling a packet leaves alone. *)
Definition same_rest h h' : Prop :=
  pathProbePackets h' = pathProbePackets h ∧ highestPacketNumber h' = highestPacketNumber h.

Lemma DeclareLost_spec h l1 p l2 :
  hist_inv h → Packets h = l1 ++ p :: l2 →
  ∃ h', DeclareLost h (PacketNumber p) = Ok h' ∧ hist_inv h' ∧ Packets h' = l1 ++ l2 ∧ same_rest h h'.
Proof.
  intros Hinv (a&b&Hp&<-&<-)%Packets_split. unfold DeclareLost.
  rewrite (getIndex_entry h a p b Hinv Hp). cbn [mbind result_bind].
  rewrite (takeOut_entry h a p b Hinv Hp). cbn [mbind result_bind].
  assert (omap id a ++ omap id b = omap id (a ++ None :: b)) as -> by (by rewrite omap_app).
  eexists. split; [done|]. destruct a as [|o a]; cbn [length Nat.eqb].
  - split_and!; [|unfold Packets; cbn; by rewrite dropNils_omap|done].
    unfold cleanupStart. cbn [packets pathProbePackets numOutstanding highestPacketNumber].
    apply cleaned_inv; rewrite ?Hp; try done. apply cleared_lookup.
  - split_and!; [|done|done]. apply cleared_inv; rewrite ?Hp; try done.
    + by rewrite !length_app.
    + apply cleared_lookup.
    + pose proof (hist_head h Hinv) as Hh. by rewrite Hp in Hh.
Qed.

Lemma cleanSkipped_spec a rest :
  ∃ a' sk, a = a' ++ (Some <$> sk) ∧ Forall skippedPacket sk ∧
    cleanSkipped (a ++ rest) (length a) = (a' ++ replicate (length sk) None ++ rest, pred (length a')).
Proof.
  revert rest. induction a as [|o a IH] using rev_ind; intros rest.
  { exists [], []. done. }
  rewrite length_app, Nat.add_1_r. cbn [cleanSkipped].
  rewrite <-app_assoc. cbn [app]. rewrite list_lookup_middle by done.
  assert (∃ a' sk, a ++ [o] = a' ++ (Some <$> sk) ∧ Forall skippedPacket sk ∧
    (a ++ o :: rest, length a) = (a' ++ replicate (length sk) None ++ rest, pred (length a'))) as Hstop.
  { exists (a ++ [o]), []. rewrite app_nil_r. split_and!; [done..|].
    rewrite length_app, Nat.add_1_r, <-app_assoc. done. }
  destruct o as [p|]; [|done]. destruct (skippedPacket p) eqn:Hsk; [|done]. clear Hstop.
  rewrite insert_app_r_alt, Nat.sub_diag by lia. cbn [insert list_insert].
  destruct (IH (None :: rest)) as (a'&sk&->&Hall&->). exists a', (sk ++ [p]).
  rewrite fmap_app, <-app_assoc. split; [done|]. split.
  - apply Forall_app. split; [done|]. apply Forall_singleton. by rewrite Hsk.
  - rewrite length_app, Nat.add_1_r, replicate_S_end, <-!app_assoc. done.
Qed.

Lemma count_skipped sk : Forall skippedPacket sk → count_outstanding sk = 0.
Proof.
  induction 1 as [|p sk Hp _ IH]; [done|]. rewrite count_cons, IH. unfold outstanding.
  destruct (skippedPacket p); [|done]. by destruct (declaredLost p).
Qed.

Lemma omap_Some (l : list packet) : omap id (Some <$> l) = l.
Proof. induction l as [|p l IH]; cbn; congruence. Qed.

(** Some entries are set to nil. *)
Definition clearing ps ps' : Prop := Forall2 (λ o o', o' = None ∨ o' = o) ps ps'.

Lemma clearing_lookup ps ps' :
  clearing ps ps' → length ps' = length ps ∧ ∀ i p, ps' !! i = Some (Some p) → ps !! i = Some (Some p).
Proof.
  intros Hc. split; [by rewrite (Forall2_length _ _ _ Hc)|]. intros i p Hi.
  destruct (Forall2_lookup_r _ _ _ _ _ Hc Hi) as (o&Ho&[?| <-]); done.
Qed.

Lemma clearing_refl ps : clearing ps ps.
Proof. apply Forall_Forall2_diag, Forall_true. auto. Qed.

Lemma clearing_skipped sk : clearing (Some <$> sk) (replicate (length sk) None).
Proof. induction sk; cbn; constructor; auto. Qed.

(** Removing an acknowledged packet also removes the numbers skipped before it. *)
Lemma Remove_spec h l1 p l2 :
  hist_inv h → Packets h = l1 ++ p :: l2 →
  ∃ h' l1' sk, Remove h (PacketNumber p) = Ok h' ∧ hist_inv h' ∧ l1 = l1' ++ sk ∧
    Forall skippedPacket sk ∧ Packets h' = l1' ++ l2 ∧ same_rest h h'.
Proof.
  intros Hinv (a&b&Hp&<-&<-)%Packets_split. unfold Remove.
  rewrite (getIndex_entry h a p b Hinv Hp). cbn [mbind result_bind].
  rewrite (takeOut_entry h a p b Hinv Hp). cbn [mbind result_bind packets].
  destruct (cleanSkipped_spec a (None :: b)) as (a'&sk&Ha&Hsk&->).
  set (ps' := a' ++ replicate (length sk) None ++ None :: b).
  assert (clearing (packets h) ps') as [Hlen Hsub]%clearing_lookup.
  { rewrite Hp, Ha, <-app_assoc. apply Forall2_app; [apply clearing_refl|].
    apply Forall2_app; [apply clearing_skipped|]. constructor; [by left|apply clearing_refl]. }
  assert (omap id ps' = omap id a' ++ omap id b) as Hps'.
  { unfold ps'. by rewrite !omap_app, omap_replicate_None. }
  assert (count_outstanding (omap id a ++ omap id b) = count_outstanding (omap id ps')) as ->.
  { rewrite Hps', Ha, omap_app, omap_Some, !count_app, (count_skipped sk) by done. lia. }
  assert (omap id a = omap id a' ++ sk) as Hsplit by (by rewrite Ha, omap_app, omap_Some).
  pose proof (cleaned_inv h ps' (pathProbePackets h) Hinv Hlen Hsub) as Hclean.
  pose proof (hist_head h Hinv) as Hh. rewrite Hp, Ha in Hh.
  unfold cleanupStart. destruct a' as [|o [|o' a']]; cbn [length pred Nat.eqb];
    cbn [packets pathProbePackets numOutstanding highestPacketNumber].
  1,2: pose proof (dropNils_head ps') as Hd; destruct (dropNils ps') as [|[q|] ds] eqn:Hdn; [..|done];
    (eexists _, _, sk; split; [done|]; split; [exact Hclean|];
     split; [done|]; split; [done|]; split; [|done]; unfold Packets; cbn [packets];
     etransitivity; [|exact Hps']; by rewrite <-(dropNils_omap ps'), Hdn).
  destruct o as [q|]; [|done]. eexists _, _, sk. split; [done|]. by split_and!.
Qed.

(** ** The order of the packets *)
Lemma Packets_order h l1 p l2 :
  hist_inv h → Packets h = l1 ++ p :: l2 →
  Forall (λ q, PacketNumber q < PacketNumber p) l1 ∧ Forall (λ q, PacketNumber p < PacketNumber q) l2.
Proof.
  intros [Hn _ _ _] (a&b&Hp&<-&<-)%Packets_split. rewrite Hp in Hn.
  pose proof (Hn (length a) p ltac:(by apply list_lookup_middle)) as Hnp.
  split; apply Forall_forall; intros q (o&Ho&Heq)%list_elem_of_omap;
    unfold id in Heq; subst o; apply list_elem_of_lookup in Ho as [i Hi].
  - pose proof (lookup_lt_Some _ _ _ Hi).
    rewrite (Hn i q) by (by rewrite lookup_app_l). rewrite Hnp. lia.
  - rewrite (Hn (length a + S i)%nat q).
    + rewrite Hnp. lia.
    + rewrite lookup_app_r by lia. by replace (length a + S i - length a)%nat with (S i) by lia.
Qed.

Lemma Packets_below h p :
  hist_inv h → p ∈ Packets h → PacketNumber p ≤ highestPacketNumber h ∧ 0 ≤ highestPacketNumber h.
Proof.
  intros [Hn _ _ Ht] (o&Ho&Heq)%list_elem_of_omap. unfold id in Heq. subst o. apply list_elem_of_lookup in Ho as [i Hi].
  rewrite (Hn i p Hi). pose proof (lookup_lt_Some _ _ _ Hi). unfold len.
  destruct Ht as [[_ Hp]|?]; [|lia]. by rewrite Hp in Hi.
Qed.

Lemma removeProbe_spec (ps : list packet) pn :
  match removeProbe ps pn with
  | (Some p, ps') => PacketNumber p = pn ∧ ∃ l1 l2, ps = l1 ++ p :: l2 ∧ ps' = l1 ++ l2
  | (None, ps') => ps' = ps ∧ Forall (λ p, PacketNumber p ≠ pn) ps
  end.
Proof.
  induction ps as [|p ps IH]; cbn; [done|]. zcase.
  - split; [done|]. by exists [], ps.
  - destruct (removeProbe ps pn) as [[q|] ps'].
    + destruct IH as [Hq (l1&l2&->&->)]. split; [done|]. by exists (p :: l1), l2.
    + destruct IH as [-> Hall]. split; [done|]. by constructor.
Qed.
End history.
Arguments Frame : clear implicits.
Arguments packet : clear implicits.
Arguments sentPacketHistory : clear implicits.

(** ** Packet numbers *)
Definition next_of (p : packetNumberGenerator) : Z :=
  match p with Sequential next => next | Skipping g => gen_next g end.

(** Numbers are used in order, and [Pop] returns what [Peek] promises. *)
Lemma Pop_generates p random p' skipped pn :
  Pop p random = (p', (skipped, pn)) →
  pn = Peek p ∧ pn = next_of p + (if skipped then 1 else 0) ∧ next_of p' = pn + 1.
Proof.
  destruct p as [next|g]; cbn; [|zcase]; intros [= <- <- <-]; cbn; lia.
Qed.

(** Two consecutive numbers are never skipped: after a skip the next one is at
    least four numbers later. *)
Lemma Pop_no_double_skip p random p' pn r1 r2 :
  0 ≤ random → Pop p random = (p', (true, pn)) →
  (Pop p' r1).2.1 = false ∧ (Pop (Pop p' r1).1 r2).2.1 = false.
Proof.
  intros Hr. destruct p as [next|g]; cbn; [done|]. zcase; [|done]. intros [= <- _]. cbn.
  rewrite (proj2 (Z.eqb_neq _ _)) by lia. cbn. rewrite (proj2 (Z.eqb_neq _ _)) by lia. done.
Qed.

Lemma Int31_range w : 0 ≤ Int31 w < 2 ^ 31.
Proof.
  unfold Int31. rewrite Z.shiftl_1_l, <-Z.ldiff_land. split.
  - apply Z.ldiff_nonneg. left. unfold u32. apply Z.mod_pos_bound. lia.
  - assert (Z.ldiff (u32 w) (2 ^ 31) = u32 w mod 2 ^ 31) as ->; [|apply Z.mod_pos_bound; lia].
    apply Z.bits_inj'. intros i Hi. rewrite Z.ldiff_spec.
    destruct (decide (i < 31)).
    + rewrite Z.mod_pow2_bits_low, Z.pow2_bits_false by lia. by rewrite andb_true_r.
    + rewrite Z.mod_pow2_bits_high by lia. destruct (decide (i = 31)) as [->|].
      * by rewrite andb_comm.
      * assert (Z.testbit (u32 w) i = false) as ->; [|done]. unfold u32.
        apply Z.mod_pow2_bits_high. lia.
Qed.

Lemma Int31n_loop_range words max n r words' :
  0 < n → Int31n_loop words max n = Some (r, words') → 0 ≤ r < n.
Proof.
  intros Hn. induction words as [|w words IH]; cbn; [done|]. zcase; [done|]. intros [= <- _].
  by apply Z.mod_pos_bound.
Qed.

Lemma Int31n_range words n r words' : 0 < n → Int31n words n = Some (r, words') → 0 ≤ r < n.
Proof.
  intros Hn. unfold Int31n. zcase; [|by apply Int31n_loop_range]. destruct words as [|w words]; [done|].
  intros [= <- _]. pose proof (Int31_range w). split.
  - apply Z.land_nonneg. lia.
  - assert (0 ≤ n - 1 - Z.land (Int31 w) (n - 1)); [|lia]. rewrite Z.sub_nocarry_ldiff.
    + apply Z.ldiff_nonneg. left. lia.
    + apply Z.bits_inj'. intros i Hi. rewrite Z.ldiff_spec, Z.land_spec, Z.bits_0.
      by destruct (Z.testbit (Int31 w) i), (Z.testbit (n - 1) i).
Qed.
