(* ===== verification/SentPackets.v ===== *)
(** * Sent packets, loss detection and probe timeouts

    internal/ackhandler/sent_packet_handler.go and u_sent_packet_handler.go.  Times
    and durations are in nanoseconds, 0 is the zero [time.Time].  The congestion
    controller is an instance of the interface [SendAlgorithm].  The handlers of
    frames are other components: the calls of [OnAcked] and [OnLost] are collected
    in [events].  The zero [EncryptionLevel] of an alarm that is not set or of a
    placeholder appears as [EncryptionInitial]; the code does not look at it.
    Logging and tracing are left out, and the packets are values: the
    code changes a packet only after it has left the history. *)

From S2P Require Import Prelude Varint Protocol AckFrame Float RTTStats ECN SentHistory.

Definition timeThreshold := const64 9 3.
Definition packetThreshold : Z := 3.
Definition amplificationFactor : Z := 3.
Definition minRTTAfterRetry : Z := 5 * Millisecond.
Definition maxPTODuration : Z := 60000 * Millisecond.
Definition pathProbePacketLossTimeout : Z := 1000 * Millisecond.
Definition SkipPacketInitialPeriod : Z := 256.
Definition SkipPacketMaxPeriod : Z := 128 * 1024.
Definition MaxCongestionWindowPackets : Z := 10000.
Definition MaxOutstandingSentPackets : Z := 2 * MaxCongestionWindowPackets.
Definition MaxTrackedSentPackets : Z := MaxOutstandingSentPackets * 5 / 4.
Definition ProtocolViolation : Z := 10.

(** The congestion controller (internal/congestion/interface.go).  It holds a
    pointer to the RTT statistics, which are an argument here. *)
Class SendAlgorithm (C : Type) := {
  NewCubicSender : RTTStats → Z → C;
  TimeUntilSend_ : C → RTTStats → Z → res Z;
  HasPacingBudget : C → RTTStats → Z → res bool;
  OnPacketSent : C → RTTStats → Z → Z → Z → Z → bool → C;
  CanSend : C → Z → bool;
  MaybeExitSlowStart : C → RTTStats → C;
  OnPacketAcked : C → RTTStats → Z → Z → Z → Z → C;
  OnCongestionEvent : C → RTTStats → Z → Z → Z → C;
  SetMaxDatagramSize_ : C → Z → res C;
}.

Inductive SendMode_ :=
  SendNone | SendAck | SendPTOInitial | SendPTOHandshake | SendPTOAppData | SendPacingLimited | SendAny.
#[global] Instance SendMode_eq_dec : EqDecision SendMode_.
Proof. solve_decision. Defined.

Inductive TimerType := TimerTypeNone | TimerTypeACK | TimerTypePTO | TimerTypePathProbe.

Record alarmTimer := mkAlarm {
  alarm_Time : Z;
  alarm_TimerType : TimerType;
  alarm_EncryptionLevel : EncryptionLevel;
}.
Definition zeroAlarm : alarmTimer := mkAlarm 0 TimerTypeNone EncryptionInitial.

Section handler.
Context {F C : Type} `{!SendAlgorithm C}.
Abbreviation packet := (packet F).
Abbreviation Frame := (Frame F).
Abbreviation sentPacketHistory := (sentPacketHistory F).

Inductive event := OnAcked (f : F) | OnLost (f : F).

(** [for _, f := range frames { if f.Handler != nil { f.Handler.OnAcked(f.Frame) } }] *)
Definition handled (frames : list Frame) : list F := frame <$> filter Handler frames.

Record packetNumberSpace := mkSpace {
  history : sentPacketHistory;
  pns : packetNumberGenerator;
  lossTime : Z;
  lastAckElicitingPacketTime : Z;
  largestAcked : Z;
  largestSent : Z;
}.

Definition set_history (s : packetNumberSpace) (hist : sentPacketHistory) : packetNumberSpace :=
  mkSpace hist (pns s) (lossTime s) (lastAckElicitingPacketTime s) (largestAcked s) (largestSent s).
Definition set_pns (s : packetNumberSpace) (g : packetNumberGenerator) : packetNumberSpace :=
  mkSpace (history s) g (lossTime s) (lastAckElicitingPacketTime s) (largestAcked s) (largestSent s).
Definition set_lossTime (s : packetNumberSpace) (t : Z) : packetNumberSpace :=
  mkSpace (history s) (pns s) t (lastAckElicitingPacketTime s) (largestAcked s) (largestSent s).
Definition set_lastAckEliciting (s : packetNumberSpace) (t : Z) : packetNumberSpace :=
  mkSpace (history s) (pns s) (lossTime s) t (largestAcked s) (largestSent s).
Definition set_largestAcked (s : packetNumberSpace) (pn : Z) : packetNumberSpace :=
  mkSpace (history s) (pns s) (lossTime s) (lastAckElicitingPacketTime s) pn (largestSent s).
Definition set_largestSent (s : packetNumberSpace) (pn : Z) : packetNumberSpace :=
  mkSpace (history s) (pns s) (lossTime s) (lastAckElicitingPacketTime s) (largestAcked s) pn.

(** [random] is for the generator of the application data space. *)
Definition newPacketNumberSpace (initialPN : Z) (isAppData : bool) (random : Z) : packetNumberSpace :=
  let pns := if isAppData
             then newSkippingPacketNumberGenerator initialPN SkipPacketInitialPeriod
                    SkipPacketMaxPeriod random
             else Sequential initialPN in
  mkSpace newSentPacketHistory pns 0 0 InvalidPacketNumber InvalidPacketNumber.

Record sentPacketHandler := mkHandler {
  initialPackets : option packetNumberSpace;
  handshakePackets : option packetNumberSpace;
  appDataPackets : packetNumberSpace;
  peerCompletedAddressValidation : bool;
  bytesReceived : Z;
  bytesSent : Z;
  peerAddressValidated : bool;
  handshakeConfirmed : bool;
  lowestNotConfirmedAcked : Z;
  bytesInFlight : Z;
  congestion : C;
  rttStats : RTTStats;
  ptoCount : Z;
  ptoMode : SendMode_;
  numProbesToSend : Z;
  alarm : alarmTimer;
  enableECN : bool;
  ecn_tracker : option ecnTracker;
  perspective : Perspective;
  events : list event;
}.

(** ** Assignments to the fields *)
Section fields.
Variable (h : sentPacketHandler).
Definition set_initial (initialPackets' : option packetNumberSpace) := mkHandler
  initialPackets' (handshakePackets h) (appDataPackets h) (peerCompletedAddressValidation h)
  (bytesReceived h) (bytesSent h) (peerAddressValidated h) (handshakeConfirmed h)
  (lowestNotConfirmedAcked h) (bytesInFlight h) (congestion h) (rttStats h) (ptoCount h)
  (ptoMode h) (numProbesToSend h) (alarm h) (enableECN h) (ecn_tracker h) (perspective h)
  (events h).
Definition set_handshake (handshakePackets' : option packetNumberSpace) := mkHandler
  (initialPackets h) handshakePackets' (appDataPackets h) (peerCompletedAddressValidation h)
  (bytesReceived h) (bytesSent h) (peerAddressValidated h) (handshakeConfirmed h)
  (lowestNotConfirmedAcked h) (bytesInFlight h) (congestion h) (rttStats h) (ptoCount h)
  (ptoMode h) (numProbesToSend h) (alarm h) (enableECN h) (ecn_tracker h) (perspective h)
  (events h).
Definition set_appData (appDataPackets' : packetNumberSpace) := mkHandler (initialPackets h)
  (handshakePackets h) appDataPackets' (peerCompletedAddressValidation h) (bytesReceived h)
  (bytesSent h) (peerAddressValidated h) (handshakeConfirmed h) (lowestNotConfirmedAcked h)
  (bytesInFlight h) (congestion h) (rttStats h) (ptoCount h) (ptoMode h) (numProbesToSend h)
  (alarm h) (enableECN h) (ecn_tracker h) (perspective h) (events h).
Definition set_peerCompleted (peerCompletedAddressValidation' : bool) := mkHandler
  (initialPackets h) (handshakePackets h) (appDataPackets h) peerCompletedAddressValidation'
  (bytesReceived h) (bytesSent h) (peerAddressValidated h) (handshakeConfirmed h)
  (lowestNotConfirmedAcked h) (bytesInFlight h) (congestion h) (rttStats h) (ptoCount h)
  (ptoMode h) (numProbesToSend h) (alarm h) (enableECN h) (ecn_tracker h) (perspective h)
  (events h).
Definition set_received (bytesReceived' : Z) := mkHandler (initialPackets h)
  (handshakePackets h) (appDataPackets h) (peerCompletedAddressValidation h) bytesReceived'
  (bytesSent h) (peerAddressValidated h) (handshakeConfirmed h) (lowestNotConfirmedAcked h)
  (bytesInFlight h) (congestion h) (rttStats h) (ptoCount h) (ptoMode h) (numProbesToSend h)
  (alarm h) (enableECN h) (ecn_tracker h) (perspective h) (events h).
Definition set_sent (bytesSent' : Z) := mkHandler (initialPackets h) (handshakePackets h)
  (appDataPackets h) (peerCompletedAddressValidation h) (bytesReceived h) bytesSent'
  (peerAddressValidated h) (handshakeConfirmed h) (lowestNotConfirmedAcked h) (bytesInFlight h)
  (congestion h) (rttStats h) (ptoCount h) (ptoMode h) (numProbesToSend h) (alarm h)
  (enableECN h) (ecn_tracker h) (perspective h) (events h).
Definition set_validated (peerAddressValidated' : bool) := mkHandler (initialPackets h)
  (handshakePackets h) (appDataPackets h) (peerCompletedAddressValidation h) (bytesReceived h)
  (bytesSent h) peerAddressValidated' (handshakeConfirmed h) (lowestNotConfirmedAcked h)
  (bytesInFlight h) (congestion h) (rttStats h) (ptoCount h) (ptoMode h) (numProbesToSend h)
  (alarm h) (enableECN h) (ecn_tracker h) (perspective h) (events h).
Definition set_confirmed (handshakeConfirmed' : bool) := mkHandler (initialPackets h)
  (handshakePackets h) (appDataPackets h) (peerCompletedAddressValidation h) (bytesReceived h)
  (bytesSent h) (peerAddressValidated h) handshakeConfirmed' (lowestNotConfirmedAcked h)
  (bytesInFlight h) (congestion h) (rttStats h) (ptoCount h) (ptoMode h) (numProbesToSend h)
  (alarm h) (enableECN h) (ecn_tracker h) (perspective h) (events h).
Definition set_lowestNotConfirmedAcked (lowestNotConfirmedAcked' : Z) := mkHandler
  (initialPackets h) (handshakePackets h) (appDataPackets h) (peerCompletedAddressValidation h)
  (bytesReceived h) (bytesSent h) (peerAddressValidated h) (handshakeConfirmed h)
  lowestNotConfirmedAcked' (bytesInFlight h) (congestion h) (rttStats h) (ptoCount h)
  (ptoMode h) (numProbesToSend h) (alarm h) (enableECN h) (ecn_tracker h) (perspective h)
  (events h).
Definition set_bytesInFlight (bytesInFlight' : Z) := mkHandler (initialPackets h)
  (handshakePackets h) (appDataPackets h) (peerCompletedAddressValidation h) (bytesReceived h)
  (bytesSent h) (peerAddressValidated h) (handshakeConfirmed h) (lowestNotConfirmedAcked h)
  bytesInFlight' (congestion h) (rttStats h) (ptoCount h) (ptoMode h) (numProbesToSend h)
  (alarm h) (enableECN h) (ecn_tracker h) (perspective h) (events h).
Definition set_congestion (congestion' : C) := mkHandler (initialPackets h)
  (handshakePackets h) (appDataPackets h) (peerCompletedAddressValidation h) (bytesReceived h)
  (bytesSent h) (peerAddressValidated h) (handshakeConfirmed h) (lowestNotConfirmedAcked h)
  (bytesInFlight h) congestion' (rttStats h) (ptoCount h) (ptoMode h) (numProbesToSend h)
  (alarm h) (enableECN h) (ecn_tracker h) (perspective h) (events h).
Definition set_rttStats (rttStats' : RTTStats) := mkHandler (initialPackets h)
  (handshakePackets h) (appDataPackets h) (peerCompletedAddressValidation h) (bytesReceived h)
  (bytesSent h) (peerAddressValidated h) (handshakeConfirmed h) (lowestNotConfirmedAcked h)
  (bytesInFlight h) (congestion h) rttStats' (ptoCount h) (ptoMode h) (numProbesToSend h)
  (alarm h) (enableECN h) (ecn_tracker h) (perspective h) (events h).
Definition set_ptoCount (ptoCount' : Z) := mkHandler (initialPackets h) (handshakePackets h)
  (appDataPackets h) (peerCompletedAddressValidation h) (bytesReceived h) (bytesSent h)
  (peerAddressValidated h) (handshakeConfirmed h) (lowestNotConfirmedAcked h) (bytesInFlight h)
  (congestion h) (rttStats h) ptoCount' (ptoMode h) (numProbesToSend h) (alarm h) (enableECN h)
  (ecn_tracker h) (perspective h) (events h).
Definition set_ptoMode (ptoMode' : SendMode_) := mkHandler (initialPackets h)
  (handshakePackets h) (appDataPackets h) (peerCompletedAddressValidation h) (bytesReceived h)
  (bytesSent h) (peerAddressValidated h) (handshakeConfirmed h) (lowestNotConfirmedAcked h)
  (bytesInFlight h) (congestion h) (rttStats h) (ptoCount h) ptoMode' (numProbesToSend h)
  (alarm h) (enableECN h) (ecn_tracker h) (perspective h) (events h).
Definition set_numProbes (numProbesToSend' : Z) := mkHandler (initialPackets h)
  (handshakePackets h) (appDataPackets h) (peerCompletedAddressValidation h) (bytesReceived h)
  (bytesSent h) (peerAddressValidated h) (handshakeConfirmed h) (lowestNotConfirmedAcked h)
  (bytesInFlight h) (congestion h) (rttStats h) (ptoCount h) (ptoMode h) numProbesToSend'
  (alarm h) (enableECN h) (ecn_tracker h) (perspective h) (events h).
Definition set_alarm (alarm' : alarmTimer) := mkHandler (initialPackets h) (handshakePackets h)
  (appDataPackets h) (peerCompletedAddressValidation h) (bytesReceived h) (bytesSent h)
  (peerAddressValidated h) (handshakeConfirmed h) (lowestNotConfirmedAcked h) (bytesInFlight h)
  (congestion h) (rttStats h) (ptoCount h) (ptoMode h) (numProbesToSend h) alarm' (enableECN h)
  (ecn_tracker h) (perspective h) (events h).
Definition set_ecn (ecn_tracker' : option ecnTracker) := mkHandler (initialPackets h)
  (handshakePackets h) (appDataPackets h) (peerCompletedAddressValidation h) (bytesReceived h)
  (bytesSent h) (peerAddressValidated h) (handshakeConfirmed h) (lowestNotConfirmedAcked h)
  (bytesInFlight h) (congestion h) (rttStats h) (ptoCount h) (ptoMode h) (numProbesToSend h)
  (alarm h) (enableECN h) ecn_tracker' (perspective h) (events h).
Definition set_events (events' : list event) := mkHandler (initialPackets h)
  (handshakePackets h) (appDataPackets h) (peerCompletedAddressValidation h) (bytesReceived h)
  (bytesSent h) (peerAddressValidated h) (handshakeConfirmed h) (lowestNotConfirmedAcked h)
  (bytesInFlight h) (congestion h) (rttStats h) (ptoCount h) (ptoMode h) (numProbesToSend h)
  (alarm h) (enableECN h) (ecn_tracker h) (perspective h) events'.
End fields.


Definition newSentPacketHandler (initialPN initialMaxDatagramSize : Z) (rttStats : RTTStats)
    (clientAddressValidated enableECN : bool) (pers : Perspective) (random : Z) : sentPacketHandler :=
  mkHandler (Some (newPacketNumberSpace initialPN false 0)) (Some (newPacketNumberSpace 0 false 0))
    (newPacketNumberSpace 0 true random)
    (bool_decide (pers = PerspectiveServer)) 0 0
    (bool_decide (pers = PerspectiveClient) || clientAddressValidated) false 0 0
    (NewCubicSender rttStats initialMaxDatagramSize) rttStats 0 SendNone 0 zeroAlarm enableECN
    (if enableECN then Some newECNTracker else None) pers [].

(** A space that was dropped is nil, using it panics. *)
Definition getPacketNumberSpace (h : sentPacketHandler) (encLevel : EncryptionLevel)
  : res packetNumberSpace :=
  match encLevel with
  | EncryptionInitial => match initialPackets h with Some s => Ok s | None => Panic end
  | EncryptionHandshake => match handshakePackets h with Some s => Ok s | None => Panic end
  | Encryption0RTT | Encryption1RTT => Ok (appDataPackets h)
  end.

Definition set_space (h : sentPacketHandler) (encLevel : EncryptionLevel) (s : packetNumberSpace)
  : sentPacketHandler :=
  match encLevel with
  | EncryptionInitial => set_initial h (Some s)
  | EncryptionHandshake => set_handshake h (Some s)
  | Encryption0RTT | Encryption1RTT => set_appData h s
  end.

Definition removeFromBytesInFlight (h : sentPacketHandler) (p : packet) : res sentPacketHandler :=
  if includedInBytesInFlight p then
    if bytesInFlight h <? Length_ p then Panic else Ok (set_bytesInFlight h (bytesInFlight h - Length_ p))
  else Ok h.

(** ** The loss detection timer *)
Definition isAmplificationLimited (h : sentPacketHandler) : bool :=
  if peerAddressValidated h then false else amplificationFactor * bytesReceived h <=? bytesSent h.

Definition space_outstanding (s : option packetNumberSpace) : bool :=
  match s with Some s => HasOutstandingPackets (history s) | None => false end.

Definition hasOutstandingCryptoPackets (h : sentPacketHandler) : bool :=
  space_outstanding (initialPackets h) || space_outstanding (handshakePackets h).

(** An earlier time: [t.IsZero() || (!u.IsZero() && u.Before(t))]. *)
Definition earlier (t u : Z) : bool := (t =? 0) || (negb (u =? 0) && (u <? t)).

Definition getLossTimeAndSpace (h : sentPacketHandler) : Z * EncryptionLevel :=
  let '(t, l) := match initialPackets h with
                 | Some s => (lossTime s, EncryptionInitial)
                 | None => (0, EncryptionInitial)
                 end in
  let '(t, l) := match handshakePackets h with
                 | Some s => if earlier t (lossTime s) then (lossTime s, EncryptionHandshake) else (t, l)
                 | None => (t, l)
                 end in
  if earlier t (lossTime (appDataPackets h)) then (lossTime (appDataPackets h), Encryption1RTT)
  else (t, l).

Definition getScaledPTO (h : sentPacketHandler) (includeMaxAckDelay : bool) : Z :=
  let pto := i64 (Z.shiftl (PTO (rttStats h) includeMaxAckDelay) (ptoCount h)) in
  if (maxPTODuration <? pto) || (pto <=? 0) then maxPTODuration else pto.

Definition getPTOTimeAndSpace (h : sentPacketHandler) (now : Z) : Z * EncryptionLevel :=
  if negb (handshakeConfirmed h) && negb (hasOutstandingCryptoPackets h) then
    if peerCompletedAddressValidation h then (0, EncryptionInitial) else
    let t := now + getScaledPTO h false in
    match initialPackets h with
    | Some _ => (t, EncryptionInitial)
    | None => (t, EncryptionHandshake)
    end
  else
  let '(pto, l) :=
    match initialPackets h with
    | Some s => if HasOutstandingPackets (history s) && negb (lastAckElicitingPacketTime s =? 0)
                then (lastAckElicitingPacketTime s + getScaledPTO h false, EncryptionInitial)
                else (0, EncryptionInitial)
    | None => (0, EncryptionInitial)
    end in
  let '(pto, l) :=
    match handshakePackets h with
    | Some s =>
        if HasOutstandingPackets (history s) && negb (lastAckElicitingPacketTime s =? 0) then
          let t := lastAckElicitingPacketTime s + getScaledPTO h false in
          if earlier pto t then (t, EncryptionHandshake) else (pto, l)
        else (pto, l)
    | None => (pto, l)
    end in
  let s := appDataPackets h in
  if handshakeConfirmed h && HasOutstandingPackets (history s) &&
     negb (lastAckElicitingPacketTime s =? 0) then
    let t := lastAckElicitingPacketTime s + getScaledPTO h true in
    if earlier pto t then (t, Encryption1RTT) else (pto, l)
  else (pto, l).

Definition lossDetectionTime (h : sentPacketHandler) (now : Z) : alarmTimer :=
  let app := history (appDataPackets h) in
  if peerCompletedAddressValidation h && negb (hasOutstandingCryptoPackets h) &&
     negb (HasOutstandingPackets app) && negb (HasOutstandingPathProbes app) then zeroAlarm else
  if isAmplificationLimited h then zeroAlarm else
  let pathProbeLossTime :=
    if HasOutstandingPathProbes app then
      match FirstOutstandingPathProbe app with
      | Some p => SendTime p + pathProbePacketLossTimeout
      | None => 0
      end
    else 0 in
  let '(lossTime, encLevel) := getLossTimeAndSpace h in
  if negb (lossTime =? 0) && ((pathProbeLossTime =? 0) || (lossTime <? pathProbeLossTime))
  then mkAlarm lossTime TimerTypeACK encLevel else
  let '(ptoTime, encLevel) := getPTOTimeAndSpace h now in
  if negb (ptoTime =? 0) && ((pathProbeLossTime =? 0) || (ptoTime <? pathProbeLossTime))
  then mkAlarm ptoTime TimerTypePTO encLevel else
  if negb (pathProbeLossTime =? 0) then mkAlarm pathProbeLossTime TimerTypePathProbe encLevel
  else zeroAlarm.

Definition setLossDetectionTimer (h : sentPacketHandler) (now : Z) : sentPacketHandler :=
  set_alarm h (lossDetectionTime h now).

Definition GetLossDetectionTimeout (h : sentPacketHandler) : Z := alarm_Time (alarm h).

(** ** Sending *)
Definition PeekPacketNumber (h : sentPacketHandler) (encLevel : EncryptionLevel)
  : res (Z * Z) :=
  s ← getPacketNumberSpace h encLevel;
  let pn := Peek (pns s) in
  Ok (pn, PacketNumberLengthForHeader pn (largestAcked s)).

(** uSentPacketHandler: the length of Initial packet numbers can be fixed. *)
Definition U_PeekPacketNumber (h : sentPacketHandler) (initialPacketNumberLength : Z)
    (encLevel : EncryptionLevel) : res (Z * Z) :=
  s ← getPacketNumberSpace h encLevel;
  let pn := Peek (pns s) in
  if bool_decide (encLevel = EncryptionInitial) && negb (initialPacketNumberLength =? 0)
  then Ok (pn, initialPacketNumberLength)
  else Ok (pn, PacketNumberLengthForHeader pn (largestAcked s)).

Definition PopPacketNumber (h : sentPacketHandler) (encLevel : EncryptionLevel) (random : Z)
  : res (sentPacketHandler * Z) :=
  s ← getPacketNumberSpace h encLevel;
  let '(g, (skipped, pn)) := Pop (pns s) random in
  let s := set_pns s g in
  s ← (if skipped then hist ← SkippedPacket (history s) (pn - 1); Ok (set_history s hist) else Ok s);
  Ok (set_space h encLevel s, pn).

(** [h.ecnTracker.SentPacket(pn, ecn)] for 1-RTT packets *)
Definition sentECN (h : sentPacketHandler) (encLevel : EncryptionLevel) (pn : Z) (ecn : ECN)
  : res sentPacketHandler :=
  match encLevel, ecn_tracker h with
  | Encryption1RTT, Some e => e ← ECN.SentPacket e pn ecn; Ok (set_ecn h (Some e))
  | _, _ => Ok h
  end.

Definition SentPacket (h : sentPacketHandler) (t pn largestAcked : Z)
    (streamFrames frames : list Frame) (encLevel : EncryptionLevel) (ecn : ECN) (size : Z)
    (isPathMTUProbePacket isPathProbePacket : bool) : res sentPacketHandler :=
  let h := set_sent h (bytesSent h + size) in
  s ← getPacketNumberSpace h encLevel;
  let s := set_largestSent s pn in
  let isAckEliciting := (0 <? len streamFrames) || (0 <? len frames) in
  if isPathProbePacket then
    hist ← SentPathProbePacket (history s)
      (mkPacket t pn [] frames 0 size encLevel false false false false true);
    Ok (setLossDetectionTimer (set_space h encLevel (set_history s hist)) t)
  else
  let s := if isAckEliciting then set_lastAckEliciting s t else s in
  let h := if isAckEliciting then
             let h := set_bytesInFlight h (bytesInFlight h + size) in
             if 0 <? numProbesToSend h then set_numProbes h (numProbesToSend h - 1) else h
           else h in
  let h := set_congestion h
             (OnPacketSent (congestion h) (rttStats h) t (bytesInFlight h) pn size isAckEliciting) in
  h ← sentECN h encLevel pn ecn;
  if negb isAckEliciting then
    hist ← SentNonAckElicitingPacket (history s) pn;
    let h := set_space h encLevel (set_history s hist) in
    Ok (if negb (peerCompletedAddressValidation h) then setLossDetectionTimer h t else h)
  else
  hist ← SentAckElicitingPacket (history s)
    (mkPacket t pn streamFrames frames largestAcked size encLevel isPathMTUProbePacket true false
       false false);
  Ok (setLossDetectionTimer (set_space h encLevel (set_history s hist)) t).

Definition ReceivedBytes (h : sentPacketHandler) (n t : Z) : sentPacketHandler :=
  let wasAmplificationLimit := isAmplificationLimited h in
  let h := set_received h (bytesReceived h + n) in
  if wasAmplificationLimit && negb (isAmplificationLimited h) then setLossDetectionTimer h t else h.

Definition ReceivedPacket (h : sentPacketHandler) (l : EncryptionLevel) (t : Z) : sentPacketHandler :=
  if bool_decide (perspective h = PerspectiveServer) && bool_decide (l = EncryptionHandshake) &&
     negb (peerAddressValidated h)
  then setLossDetectionTimer (set_validated h true) t else h.

Definition space_len (s : option packetNumberSpace) : Z :=
  match s with Some s => History_Len (history s) | None => 0 end.

Definition SendMode (h : sentPacketHandler) (now : Z) : res SendMode_ :=
  let numTrackedPackets := History_Len (history (appDataPackets h)) +
    space_len (initialPackets h) + space_len (handshakePackets h) in
  if isAmplificationLimited h then Ok SendNone else
  if MaxTrackedSentPackets <=? numTrackedPackets then Ok SendNone else
  if 0 <? numProbesToSend h then Ok (ptoMode h) else
  if negb (CanSend (congestion h) (bytesInFlight h)) then Ok SendAck else
  if MaxOutstandingSentPackets <=? numTrackedPackets then Ok SendAck else
  budget ← HasPacingBudget (congestion h) (rttStats h) now;
  Ok (if negb budget then SendPacingLimited else SendAny).

Definition TimeUntilSend (h : sentPacketHandler) : res Z :=
  TimeUntilSend_ (congestion h) (rttStats h) (bytesInFlight h).

Definition SetMaxDatagramSize (h : sentPacketHandler) (s : Z) : res sentPacketHandler :=
  c ← SetMaxDatagramSize_ (congestion h) s; Ok (set_congestion h c).

Definition ECNMode (h : sentPacketHandler) (isShortHeaderPacket : bool) : res (sentPacketHandler * ECN) :=
  if negb (enableECN h) then Ok (h, ECNUnsupported) else
  if negb isShortHeaderPacket then Ok (h, ECNNon) else
  match ecn_tracker h with
  | Some e => let '(e, m) := Mode e in Ok (set_ecn h (Some e), m)
  | None => Panic
  end.

(** ** Lost packets *)

(** The frames go to their handlers; the packet has left the history. *)
Definition queueFramesForRetransmission (h : sentPacketHandler) (p : packet) : res sentPacketHandler :=
  if (len (Frames p) =? 0) && (len (StreamFrames p) =? 0) then Panic else
  Ok (set_events h (events h ++ (OnLost <$> handled (Frames p)) ++ (OnLost <$> handled (StreamFrames p)))).

Definition lostECN (h : sentPacketHandler) (encLevel : EncryptionLevel) (pn : Z) : sentPacketHandler :=
  match encLevel, ecn_tracker h with
  | Encryption1RTT, Some e => set_ecn h (Some (ECN.LostPacket e pn))
  | _, _ => h
  end.

Definition isRegularPacket (p : packet) : bool := negb (skippedPacket p) && negb (isPathProbePacket p).

Definition declareLost (h : sentPacketHandler) (encLevel : EncryptionLevel) (p : packet)
  : res sentPacketHandler :=
  s ← getPacketNumberSpace h encLevel;
  hist ← DeclareLost (history s) (PacketNumber p);
  Ok (set_space h encLevel (set_history s hist)).

(** What happens to a packet that is lost. *)
Definition packetLost (h : sentPacketHandler) (encLevel : EncryptionLevel) (priorInFlight : Z)
    (p : packet) : res sentPacketHandler :=
  h ← declareLost h encLevel p;
  if isRegularPacket p then
    h ← removeFromBytesInFlight h p;
    h ← queueFramesForRetransmission h p;
    let h := if negb (IsPathMTUProbePacket p)
             then set_congestion h (OnCongestionEvent (congestion h) (rttStats h) (PacketNumber p)
                                      (Length_ p) priorInFlight)
             else h in
    Ok (lostECN h encLevel (PacketNumber p))
  else Ok h.

(** The packet was sent too long ago, or too many later ones were acknowledged. *)
Definition is_lost (largestAcked lostSendTime : Z) (p : packet) : bool :=
  (SendTime p <=? lostSendTime) || (PacketNumber p + packetThreshold <=? largestAcked).

Fixpoint detectLostPackets_loop (h : sentPacketHandler) (encLevel : EncryptionLevel)
    (lossDelay lostSendTime priorInFlight : Z) (ps : list packet) : res sentPacketHandler :=
  match ps with
  | [] => Ok h
  | p :: ps =>
      s ← getPacketNumberSpace h encLevel;
      if largestAcked s <? PacketNumber p then Ok h else
      h ← (if is_lost (largestAcked s) lostSendTime p then packetLost h encLevel priorInFlight p
           else if lossTime s =? 0
           then Ok (set_space h encLevel (set_lossTime s (SendTime p + lossDelay)))
           else Ok h);
      detectLostPackets_loop h encLevel lossDelay lostSendTime priorInFlight ps
  end.

Definition getLossDelay (h : sentPacketHandler) : Z :=
  let maxRTT := float64 (Z.max (latestRTT (rttStats h)) (smoothedRTT (rttStats h))) in
  Z.max (int64_of_float (mul64 timeThreshold maxRTT)) TimerGranularity.

Definition detectLostPackets (h : sentPacketHandler) (now : Z) (encLevel : EncryptionLevel)
  : res sentPacketHandler :=
  s ← getPacketNumberSpace h encLevel;
  let h := set_space h encLevel (set_lossTime s 0) in
  let lossDelay := getLossDelay h in
  detectLostPackets_loop h encLevel lossDelay (now - lossDelay) (bytesInFlight h)
    (Packets (history s)).

(** The handlers of path probes are called without a check for nil. *)
Fixpoint lostProbeFrames (frames : list Frame) : res (list F) :=
  match frames with
  | [] => Ok []
  | f :: frames => if Handler f then fs ← lostProbeFrames frames; Ok (frame f :: fs) else Panic
  end.

Fixpoint detectLostPathProbes_loop (h : sentPacketHandler) (lost : list packet)
  : res sentPacketHandler :=
  match lost with
  | [] => Ok h
  | p :: lost =>
      fs ← lostProbeFrames (Frames p);
      let h := set_events h (events h ++ (OnLost <$> fs)) in
      let s := appDataPackets h in
      let h := set_appData h (set_history s (RemovePathProbe (history s) (PacketNumber p)).1) in
      detectLostPathProbes_loop h lost
  end.

Definition detectLostPathProbes (h : sentPacketHandler) (now : Z) : res sentPacketHandler :=
  let hist := history (appDataPackets h) in
  if negb (HasOutstandingPathProbes hist) then Ok h else
  let lossTime := now - pathProbePacketLossTimeout in
  detectLostPathProbes_loop h (filter (λ p, SendTime p ≤ lossTime) (pathProbePackets hist)).

(** ** Acknowledgements *)

(** The ranges from the lowest on, starting with the one at [ackRangeIndex]: move
    on to the range for the packet number. *)
Fixpoint advanceRange (pn : Z) (ranges : list AckRange) : list AckRange :=
  match ranges with
  | r :: (_ :: _) as rest => if Largest r <? pn then advanceRange pn rest else ranges
  | _ => ranges
  end.

(** The packets that the ACK frame acknowledges, in ascending order. *)
Fixpoint collectAcked (hist : sentPacketHistory) (lowestAcked largestAcked : Z)
    (hasMissingRanges : bool) (ranges : list AckRange) (acked ps : list packet)
  : res (sentPacketHistory * list packet) :=
  match ps with
  | [] => Ok (hist, acked)
  | p :: ps =>
      let pn := PacketNumber p in
      let continue := collectAcked hist lowestAcked largestAcked hasMissingRanges in
      if pn <? lowestAcked then continue ranges acked ps else
      if largestAcked <? pn then Ok (hist, acked) else
      let ranges := if hasMissingRanges then advanceRange pn ranges else ranges in
      match ranges with
      | [] => Panic
      | ackRange :: _ =>
          if hasMissingRanges && (pn <? Smallest ackRange) then continue ranges acked ps else
          if hasMissingRanges && (Largest ackRange <? pn) then
            Err (ErrorString "BUG: ackhandler would have acked wrong packet %d, while evaluating range %d -> %d"
                   [pn; Smallest ackRange; Largest ackRange])
          else if skippedPacket p then
            Err (TransportError ProtocolViolation 0
                   (ErrorString "received an ACK for skipped packet number: %d (%s)" [pn]))
          else if isPathProbePacket p then
            let '(hist, probePacket) := RemovePathProbe hist pn in
            let acked := match probePacket with Some q => acked ++ [q] | None => acked end in
            collectAcked hist lowestAcked largestAcked hasMissingRanges ranges acked ps
          else continue ranges (acked ++ [p]) ps
      end
  end.

Fixpoint processAcked (h : sentPacketHandler) (encLevel : EncryptionLevel) (acked : list packet)
  : res sentPacketHandler :=
  match acked with
  | [] => Ok h
  | p :: acked =>
      let h := if negb (pkt_LargestAcked p =? InvalidPacketNumber) && bool_decide (encLevel = Encryption1RTT)
               then set_lowestNotConfirmedAcked h
                      (Z.max (lowestNotConfirmedAcked h) (pkt_LargestAcked p + 1))
               else h in
      let h := set_events h (events h ++ (OnAcked <$> handled (Frames p)) ++
                               (OnAcked <$> handled (StreamFrames p))) in
      s ← getPacketNumberSpace h encLevel;
      hist ← Remove (history s) (PacketNumber p);
      processAcked (set_space h encLevel (set_history s hist)) encLevel acked
  end.

Definition detectAndRemoveAckedPackets (h : sentPacketHandler) (ack : AckFrame.t)
    (encLevel : EncryptionLevel) : res (sentPacketHandler * list packet) :=
  s ← getPacketNumberSpace h encLevel;
  lowestAcked ← AckFrame.LowestAcked ack;
  largestAcked ← AckFrame.LargestAcked ack;
  '(hist, acked) ← collectAcked (history s) lowestAcked largestAcked (AckFrame.HasMissingRanges ack)
                     (reverse (AckFrame.AckRanges ack)) [] (Packets (history s));
  h ← processAcked (set_space h encLevel (set_history s hist)) encLevel acked;
  Ok (h, acked).

(** The loop of [ReceivedAck] over the packets that are newly acknowledged. *)
Fixpoint onPacketsAcked (h : sentPacketHandler) (priorInFlight rcvTime : Z) (acked : list packet)
  : res sentPacketHandler :=
  match acked with
  | [] => Ok h
  | p :: acked =>
      let h := if includedInBytesInFlight p && negb (declaredLost p)
               then set_congestion h (OnPacketAcked (congestion h) (rttStats h) (PacketNumber p)
                                        (Length_ p) priorInFlight rcvTime)
               else h in
      h ← removeFromBytesInFlight h p;
      onPacketsAcked h priorInFlight rcvTime acked
  end.

(** The RTT, if the largest acked is newly acknowledged. *)
Definition updateRTT (h : sentPacketHandler) (ack : AckFrame.t) (largest : Z)
    (encLevel : EncryptionLevel) (rcvTime : Z) (acked : list packet) : sentPacketHandler :=
  match last acked with
  | Some p =>
      if (PacketNumber p =? largest) && negb (isPathProbePacket p) then
        let ackDelay := if bool_decide (encLevel = Encryption1RTT)
                        then Z.min (AckFrame.DelayTime ack) (rtt_maxAckDelay (rttStats h)) else 0 in
        let h := set_rttStats h (UpdateRTT (rttStats h) (time_Sub rcvTime (SendTime p)) ackDelay) in
        set_congestion h (MaybeExitSlowStart (congestion h) (rttStats h))
      else h
  | None => h
  end.

Definition ackedECN (h : sentPacketHandler) (ack : AckFrame.t) (largest oldLargest : Z)
    (encLevel : EncryptionLevel) (priorInFlight : Z) (acked : list packet) : sentPacketHandler :=
  match encLevel, ecn_tracker h with
  | Encryption1RTT, Some e =>
      if oldLargest <? largest then
        let '(e, congested) := HandleNewlyAcked e (PacketNumber <$> acked) (i64 (AckFrame.ECT0 ack))
                                 (i64 (AckFrame.ECT1 ack)) (i64 (AckFrame.ECNCE ack)) in
        let h := set_ecn h (Some e) in
        if congested
        then set_congestion h (OnCongestionEvent (congestion h) (rttStats h) largest 0 priorInFlight)
        else h
      else h
  | _, _ => h
  end.

(** Address validation is complete when the server acknowledges a protected
    packet. *)
Definition completeAddressValidation (h : sentPacketHandler) (encLevel : EncryptionLevel)
    (rcvTime : Z) : sentPacketHandler :=
  if bool_decide (perspective h = PerspectiveClient) && negb (peerCompletedAddressValidation h) &&
     (bool_decide (encLevel = EncryptionHandshake) || bool_decide (encLevel = Encryption1RTT))
  then setLossDetectionTimer (set_peerCompleted h true) rcvTime else h.

Definition ReceivedAck (h : sentPacketHandler) (ack : AckFrame.t) (encLevel : EncryptionLevel)
    (rcvTime : Z) : res (sentPacketHandler * bool) :=
  s ← getPacketNumberSpace h encLevel;
  largest ← AckFrame.LargestAcked ack;
  if largestSent s <? largest then
    Err (TransportError ProtocolViolation 0 (ErrorString "received ACK for an unsent packet" []))
  else
  let h := completeAddressValidation h encLevel rcvTime in
  let priorInFlight := bytesInFlight h in
  '(h, acked) ← detectAndRemoveAckedPackets h ack encLevel;
  if len acked =? 0 then Ok (h, false) else
  let h := updateRTT h ack largest encLevel rcvTime acked in
  s ← getPacketNumberSpace h encLevel;
  let h := ackedECN h ack largest (largestAcked s) encLevel priorInFlight acked in
  let h := set_space h encLevel (set_largestAcked s (Z.max (largestAcked s) largest)) in
  h ← detectLostPackets h rcvTime encLevel;
  h ← (if bool_decide (encLevel = Encryption1RTT) then detectLostPathProbes h rcvTime else Ok h);
  let acked1RTTPacket := existsb (λ p, bool_decide (pkt_EncryptionLevel p = Encryption1RTT)) acked in
  h ← onPacketsAcked h priorInFlight rcvTime acked;
  let h := if peerCompletedAddressValidation h then set_ptoCount h 0 else h in
  let h := set_numProbes h 0 in
  Ok (setLossDetectionTimer h rcvTime, acked1RTTPacket).

Definition GetLowestPacketNotConfirmedAcked (h : sentPacketHandler) : Z := lowestNotConfirmedAcked h.

(** ** Dropping packet number spaces *)
Fixpoint removeAllFromBytesInFlight (h : sentPacketHandler) (ps : list packet)
  : res sentPacketHandler :=
  match ps with
  | [] => Ok h
  | p :: ps => h ← removeFromBytesInFlight h p; removeAllFromBytesInFlight h ps
  end.

(** The error of [Remove] is ignored. *)
Fixpoint drop0RTT (h : sentPacketHandler) (ps : list packet) : res sentPacketHandler :=
  match ps with
  | [] => Ok h
  | p :: ps =>
      if negb (bool_decide (pkt_EncryptionLevel p = Encryption0RTT)) && negb (skippedPacket p)
      then Ok h else
      h ← removeFromBytesInFlight h p;
      let s := appDataPackets h in
      h ← match Remove (history s) (PacketNumber p) with
          | Ok hist => Ok (set_appData h (set_history s hist))
          | Err _ => Ok h
          | Panic => Panic
          end;
      drop0RTT h ps
  end.

Definition resetPTO (h : sentPacketHandler) (now : Z) : sentPacketHandler :=
  setLossDetectionTimer (set_ptoMode (set_numProbes (set_ptoCount h 0) 0) SendNone) now.

Definition DropPackets (h : sentPacketHandler) (encLevel : EncryptionLevel) (now : Z)
  : res sentPacketHandler :=
  let h := if bool_decide (perspective h = PerspectiveClient) &&
              bool_decide (encLevel = EncryptionHandshake)
           then set_peerCompleted h true else h in
  match encLevel with
  | EncryptionInitial =>
      match initialPackets h with
      | None => Ok h
      | Some s =>
          h ← removeAllFromBytesInFlight h (Packets (history s));
          Ok (resetPTO (set_initial h None) now)
      end
  | EncryptionHandshake =>
      match handshakePackets h with
      | None => Ok h
      | Some s =>
          h ← removeAllFromBytesInFlight h (Packets (history s));
          Ok (resetPTO (set_handshake (set_confirmed h true) None) now)
      end
  | Encryption0RTT =>
      h ← drop0RTT h (Packets (history (appDataPackets h))); Ok (resetPTO h now)
  | Encryption1RTT => Panic
  end.

(** ** Probe timeouts *)
Definition onPTO (h : sentPacketHandler) (now random : Z) : res sentPacketHandler :=
  if (bytesInFlight h =? 0) && negb (peerCompletedAddressValidation h) then
    let h := set_ptoCount h (u32 (ptoCount h + 1)) in
    let h := set_numProbes h (numProbesToSend h + 1) in
    match initialPackets h, handshakePackets h with
    | Some _, _ => Ok (set_ptoMode h SendPTOInitial)
    | None, Some _ => Ok (set_ptoMode h SendPTOHandshake)
    | None, None =>
        Err (ErrorString "sentPacketHandler BUG: PTO fired, but bytes_in_flight is 0 and Initial and Handshake already dropped" [])
    end
  else
  let '(ptoTime, encLevel) := getPTOTimeAndSpace h now in
  if ptoTime =? 0 then Ok h else
  s ← getPacketNumberSpace h encLevel;
  if negb (HasOutstandingPackets (history s)) && negb (HasOutstandingPathProbes (history s)) &&
     negb (peerCompletedAddressValidation h) then Ok h else
  let h := set_ptoCount h (u32 (ptoCount h + 1)) in
  let h := set_numProbes h (numProbesToSend h + 2) in
  match encLevel with
  | EncryptionInitial => Ok (set_ptoMode h SendPTOInitial)
  | EncryptionHandshake => Ok (set_ptoMode h SendPTOHandshake)
  | Encryption1RTT =>
      '(h, pn) ← PopPacketNumber h Encryption1RTT random;
      s ← getPacketNumberSpace h Encryption1RTT;
      hist ← SkippedPacket (history s) pn;
      Ok (set_ptoMode (set_space h Encryption1RTT (set_history s hist)) SendPTOAppData)
  | Encryption0RTT => Err (ErrorString "PTO timer in unexpected encryption level: %s" [])
  end.

(** The deferred [setLossDetectionTimer] also runs when an error is returned; the
    error closes the connection. *)
Definition OnLossDetectionTimeout (h : sentPacketHandler) (now random : Z) : res sentPacketHandler :=
  h ← (if handshakeConfirmed h then detectLostPathProbes h now else Ok h);
  let '(earliestLossTime, encLevel) := getLossTimeAndSpace h in
  h ← (if negb (earliestLossTime =? 0) then detectLostPackets h now encLevel else onPTO h now random);
  Ok (setLossDetectionTimer h now).

Definition QueueProbePacket (h : sentPacketHandler) (encLevel : EncryptionLevel)
  : res (sentPacketHandler * bool) :=
  s ← getPacketNumberSpace h encLevel;
  match FirstOutstanding (history s) with
  | None => Ok (h, false)
  | Some p =>
      h ← queueFramesForRetransmission h p;
      h ← removeFromBytesInFlight h p;
      h ← declareLost h encLevel p;
      Ok (h, true)
  end.

(** ** Retry and path migration *)
Fixpoint retransmitAll (h : sentPacketHandler) (ps : list packet) : res sentPacketHandler :=
  match ps with
  | [] => Ok h
  | p :: ps =>
      h ← (if negb (declaredLost p) && negb (skippedPacket p) then queueFramesForRetransmission h p
           else Ok h);
      retransmitAll h ps
  end.

(** The first time that is not zero. *)
Fixpoint firstSendTime (ps : list packet) : Z :=
  match ps with
  | [] => 0
  | p :: ps => if SendTime p =? 0 then firstSendTime ps else SendTime p
  end.

Definition ResetForRetry (h : sentPacketHandler) (now random : Z) : res sentPacketHandler :=
  let h := set_bytesInFlight h 0 in
  s ← getPacketNumberSpace h EncryptionInitial;
  let initials := Packets (history s) in
  h ← retransmitAll h initials;
  h ← retransmitAll h (Packets (history (appDataPackets h)));
  let h := if ptoCount h =? 0
           then set_rttStats h (UpdateRTT (rttStats h)
                  (Z.max minRTTAfterRetry (time_Sub now (firstSendTime initials))) 0)
           else h in
  let h := set_initial h (Some (newPacketNumberSpace (Peek (pns s)) false 0)) in
  let h := set_appData h (newPacketNumberSpace (Peek (pns (appDataPackets h))) true random) in
  Ok (set_ptoCount (set_alarm h zeroAlarm) 0).

Fixpoint migrateAll (h : sentPacketHandler) (ps : list packet) : res sentPacketHandler :=
  match ps with
  | [] => Ok h
  | p :: ps =>
      h ← declareLost h Encryption1RTT p;
      h ← (if isRegularPacket p then
             h ← removeFromBytesInFlight h p; queueFramesForRetransmission h p
           else Ok h);
      migrateAll h ps
  end.

(** [RemovePathProbe] in the loop over the path probes: the loop visits the [n]
    entries of the array, of which the first [m] are the current slice, while
    [RemovePathProbe] moves the entries behind the removed one. *)
Fixpoint removeAllProbes (arr : list packet) (m i n : nat) : list packet * nat :=
  match n with
  | O => (arr, m)
  | S n =>
      match arr !! i with
      | None => (arr, m)
      | Some p =>
          match removeProbe (take m arr) (PacketNumber p) with
          | (Some _, ps) => removeAllProbes (ps ++ drop (m - 1) arr) (m - 1) (S i) n
          | (None, _) => removeAllProbes arr m (S i) n
          end
      end
  end.

Definition MigratedPath (h : sentPacketHandler) (now initialMaxDatagramSize : Z)
  : res sentPacketHandler :=
  let h := set_rttStats h (ResetForPathMigration (rttStats h)) in
  h ← migrateAll h (Packets (history (appDataPackets h)));
  let s := appDataPackets h in
  let hist := history s in
  let probes := pathProbePackets hist in
  let '(arr, m) := removeAllProbes probes (length probes) 0 (length probes) in
  let h := set_appData h (set_history s
    (mkHistory (packets hist) (take m arr) (numOutstanding hist) (highestPacketNumber hist))) in
  let h := set_congestion h (NewCubicSender (rttStats h) initialMaxDatagramSize) in
  Ok (setLossDetectionTimer h now).

End handler.
