(* ===== verification/ReceivedRuns.v ===== *)
(** * Runs of the received packet handler
      (connection.go, internal/ackhandler: received_packet_handler.go)

    The handler as the connection uses it: a packet is dropped if it is potentially a
    duplicate; otherwise its frames are handled, which can confirm ACKs that were sent, and
    then the packet is registered.  Between packets, ACK frames are taken, packet number
    spaces are dropped and packets are sent.  The sent packet handler is any implementation
    of its interface. *)

From S2P Require Import Prelude Varint Protocol Wire AckFrame ReceivedHistory RTTStats ECN SentHistory SentPackets.
From S2P Require Import ReceivedPackets.

(** Registering a received packet does not confirm ACKs. *)
Class SentPacketTrackerOk (S : Type) `{SentPacketTracker S} :=
  received_keeps_lowest (s : S) l t :
    GetLowestPacketNotConfirmedAcked (sent_ReceivedPacket s l t) = GetLowestPacketNotConfirmedAcked s.

(** The packet number space of an encryption level. *)
Definition pnSpace (l : EncryptionLevel) : EncryptionLevel :=
  match l with Encryption0RTT => Encryption1RTT | l => l end.

Section runs.
Context {S : Type} `{SentPacketTrackerOk S}.

Record sys := mkSys {
  handler : receivedPacketHandler S;
  received : list (EncryptionLevel * Z);   (* the packets that were registered *)
  full : list EncryptionLevel;             (* spaces that got a packet while they had 32 ranges *)
  due : option Z;                          (* the deadline for the next ACK of application data *)
}.
Implicit Types (y : sys) (h : receivedPacketHandler S) (l : EncryptionLevel) (t : receivedPacketTracker).

(** [frames] is what the frames of a packet do to the sent packet handler; those of a
    Handshake packet can complete the handshake, so that its space is dropped. *)
Inductive op :=
| Packet (l : EncryptionLevel) (pn : Z) (ecn : ECN) (rcvTime : Z) (ackEliciting : bool)
    (frames : S → S) (drops : bool)
| Drop (l : EncryptionLevel)
| GetAck (l : EncryptionLevel) (now : Z) (onlyIfQueued : bool)
| Sent (f : S → S).

Definition set_sentPackets h (s : S) : receivedPacketHandler S :=
  mkHandler s (ReceivedPackets.initialPackets h) (ReceivedPackets.handshakePackets h)
    (ReceivedPackets.appDataPackets h) (lowest1RTTPacket h).

(** The packet after the test for duplicates. *)
Definition handleUnpackedPacket h l (pn : Z) (ecn : ECN) (rcvTime : Z) (ackEliciting : bool)
    (frames : S → S) (drops : bool) : res (receivedPacketHandler S) :=
  let h := set_sentPackets h (frames (sentPackets h)) in
  h ← (if drops then ReceivedPackets.DropPackets h EncryptionHandshake else Ok h);
  '(h, err) ← Handler_ReceivedPacket h pn ecn l rcvTime ackEliciting;
  match err with Some e => Err e | None => Ok h end.

Definition set_handler y h : sys := mkSys h (received y) (full y) (due y).

(** Packets of a space that was dropped are not decrypted. *)
Definition step y (o : op) : res sys :=
  match o with
  | Packet l pn ecn rcvTime ackEliciting frames drops =>
      match space (handler y) l with
      | None => Ok y
      | Some t =>
          dup ← Handler_IsPotentiallyDuplicate (handler y) pn l;
          if (dup : bool) then Ok y else
          h ← handleUnpackedPacket (handler y) l pn ecn rcvTime ackEliciting frames drops;
          Ok (mkSys h ((pnSpace l, pn) :: received y)
                (if MaxNumAckRanges <=? len (ranges (packetHistory t)) then pnSpace l :: full y else full y)
                (if bool_decide (pnSpace l = Encryption1RTT) && ackEliciting
                 then Some (default (rcvTime + MaxAckDelay) (due y)) else due y))
      end
  | Drop l => h ← ReceivedPackets.DropPackets (handler y) l; Ok (set_handler y h)
  | GetAck l now onlyIfQueued =>
      '(h, ack) ← Handler_GetAckFrame (handler y) l now onlyIfQueued;
      Ok (mkSys h (received y) (full y)
            (if ack is Some _ then if bool_decide (l = Encryption1RTT) then None else due y else due y))
  | Sent f => Ok (set_handler y (set_sentPackets (handler y) (f (sentPackets (handler y)))))
  end.

Fixpoint run y (ops : list op) : res sys :=
  match ops with
  | [] => Ok y
  | o :: ops => y ← step y o; run y ops
  end.

Definition start (s : S) : sys := mkSys (newReceivedPacketHandler s) [] [] None.

Abbreviation lowest := GetLowestPacketNotConfirmedAcked.

(** What the peer and the connection do.  Frames of a 1-RTT packet confirm ACKs of packets
    that the peer sent before this packet, hence with smaller packet numbers; no other step
    confirms ACKs.  The 1-RTT space is never dropped. *)
Definition allowed (o : op) : Prop :=
  match o with
  | Packet l pn _ rcvTime _ frames drops =>
      0 ≤ pn ≤ maxVarInt8 ∧ 0 < rcvTime ∧ (drops = true → l = EncryptionHandshake) ∧
      ∀ s, lowest s ≤ lowest (frames s) ≤ if l is Encryption1RTT then Z.max (lowest s) pn else lowest s
  | Drop l => l ≠ Encryption1RTT
  | GetAck _ _ _ => True
  | Sent f => ∀ s, lowest (f s) = lowest s
  end.

(** ** Invariant *)

(** The tracked packets are received ones; all of those above the limit, unless the number
    of ranges was exhausted. *)
Definition exact t (rcv : Z → Prop) (isFull : Prop) : Prop :=
  (∀ p, tracked t p → rcv p) ∧
  (¬ isFull → ∀ p, rcv p → deletedBelow (packetHistory t) ≤ p → tracked t p).

Record inv y : Prop := {
  i_handler : handler_inv (handler y);
  i_lowest : lowest (sentPackets (handler y)) = ignoreBelow (ReceivedPackets.appDataPackets (handler y));
  i_exact l t : space (handler y) l = Some t →
    exact t (λ p, (pnSpace l, p) ∈ received y) (pnSpace l ∈ full y) ∧
    (pnSpace l ≠ Encryption1RTT → deletedBelow (packetHistory t) = 0);
  i_delay : maxAckDelay (ReceivedPackets.appDataPackets (handler y)) = MaxAckDelay;
  i_pending : pending (ReceivedPackets.appDataPackets (handler y)) (due y);
}.

Lemma exact_iff t rcv rcv' (f f' : Prop) :
  (∀ p, rcv p ↔ rcv' p) → (f → f') → exact t rcv f → exact t rcv' f'.
Proof. intros Hr Hf [H1 H2]. split; [naive_solver|]. intros Hn p Hp%Hr. apply H2; auto. Qed.

Lemma exact_received t t' pn isNew rcv f :
  history_inv (packetHistory t) → 0 ≤ pn ≤ maxVarInt8 →
  ReceivedHistory.ReceivedPacket (packetHistory t) pn = Ok (packetHistory t', isNew) →
  exact t rcv f →
  exact t' (λ p, p = pn ∨ rcv p) (MaxNumAckRanges ≤ len (ranges (packetHistory t)) ∨ f) ∧
  deletedBelow (packetHistory t') = deletedBelow (packetHistory t).
Proof.
  intros Hh Hp Hrp [H1 H2]. destruct (ReceivedPacket_spec _ _ Hh Hp) as (h'&b&Hrp'&_&Hd&_&_&lo&_&Hlo&Hcov).
  rewrite Hrp in Hrp'. injection Hrp' as <- <-. split; [|done]. split.
  - intros p [[?|[-> _]] _]%Hcov; [right; auto|by left].
  - intros Hn p Hr Hdp. apply Hcov. rewrite Hlo by (apply Z.nle_gt; tauto). rewrite Hd in Hdp. split; [|done].
    destruct Hr as [->|Hr]; [by right|left]. apply H2; tauto.
Qed.

Lemma not_duplicate t pn :
  tracker_inv t → Tracker_IsPotentiallyDuplicate t pn = Ok false →
  deletedBelow (packetHistory t) ≤ pn ∧ ¬ tracked t pn.
Proof.
  intros (Hh&_) Hdup. destruct (IsPotentiallyDuplicate_spec _ pn Hh) as (b&Hb&Hb').
  unfold Tracker_IsPotentiallyDuplicate in Hdup. rewrite Hdup in Hb. injection Hb as <-.
  destruct (Z.le_gt_cases (deletedBelow (packetHistory t)) pn); [|exfalso]; naive_solver.
Qed.

(** A packet that is no duplicate, in the Initial or the Handshake space. *)
Lemma tracker_received t pn ecn rcvTime ae :
  tracker_inv t → 0 ≤ pn ≤ maxVarInt8 → Tracker_IsPotentiallyDuplicate t pn = Ok false →
  ∃ t', Tracker_ReceivedPacket t pn ecn rcvTime ae = Ok (t', None) ∧ tracker_inv t' ∧
    deletedBelow (packetHistory t') = deletedBelow (packetHistory t) ∧
    ∀ rcv f, exact t rcv f → exact t' (λ p, p = pn ∨ rcv p) (MaxNumAckRanges ≤ len (ranges (packetHistory t)) ∨ f).
Proof.
  intros Hi Hp Hdup. destruct (not_duplicate _ _ Hi Hdup) as [Hd Hn].
  destruct (Tracker_ReceivedPacket_spec t pn ecn rcvTime ae Hi Hp) as (t'&err&hist&isNew&Ht&Hrp&Hi'&<-&_&Herr&_).
  destruct (ReceivedPacket_spec _ _ (proj1 Hi) Hp) as (h'&b&Hrp'&_&Hd'&_&Hb&_). rewrite Hrp in Hrp'. injection Hrp' as <- <-.
  assert (err = None) as -> by (apply Herr, Hb; done).
  exists t'. split_and!; try done. intros rcv f Hex. by eapply exact_received; [apply Hi|..].
Qed.

(** A packet that is no duplicate, in the space of application data. *)
Lemma app_received a pn ecn rcvTime ae d :
  app_inv a → 0 ≤ pn ≤ maxVarInt8 → Tracker_IsPotentiallyDuplicate (tracker a) pn = Ok false →
  pending a d → 0 < rcvTime + maxAckDelay a →
  ∃ a', App_ReceivedPacket a pn ecn rcvTime ae = Ok (a', None) ∧ app_inv a' ∧
    ignoreBelow a' = ignoreBelow a ∧ ignoreBelow a ≤ pn ∧ maxAckDelay a' = maxAckDelay a ∧
    pending a' (if ae then Some (default (rcvTime + maxAckDelay a) d) else d) ∧
    (∃ q, pn ≤ q ∧ tracked (tracker a') q) ∧
    ∀ rcv f, exact (tracker a) rcv f →
      exact (tracker a') (λ p, p = pn ∨ rcv p) (MaxNumAckRanges ≤ len (ranges (packetHistory (tracker a))) ∨ f).
Proof.
  intros Ha Hp Hdup Hpe Hrt. pose proof Ha as [Hi Hig]. destruct (not_duplicate _ _ Hi Hdup) as [Hd Hn].
  destruct (App_ReceivedPacket_spec a pn ecn rcvTime ae d Ha Hp Hpe Hrt) as (a'&err&hist&isNew&Hr&Hrp&Ha'&<-&Herr&Hib&Hpe').
  destruct (ReceivedPacket_spec _ _ (proj1 Hi) Hp) as (h'&b&Hrp'&_&Hd'&_&Hb&_). rewrite Hrp in Hrp'. injection Hrp' as <- <-.
  assert (err = None) as -> by (apply Herr, Hb; done). destruct (Hpe' eq_refl) as [Hmd Hpe2].
  exists a'. split_and!; try done; [lia| |].
  - destruct (ReceivedPacket_above _ pn (proj1 Hi) Hp Hd) as (?&?&q&Hx&?&?). rewrite Hrp in Hx. injection Hx as <- <-. by exists q.
  - intros rcv f Hex. by eapply exact_received; [apply Hi|..].
Qed.

(** [IgnoreBelow] after a packet, with the packets that the peer knows to be acknowledged. *)
Lemma ignore_received a lo d :
  app_inv a → ignoreBelow a ≤ lo → (∃ q, lo ≤ q ∧ tracked (tracker a) q) → pending a d →
  ∃ a', IgnoreBelow a lo = Ok a' ∧ app_inv a' ∧ ignoreBelow a' = lo ∧ maxAckDelay a' = maxAckDelay a ∧
    pending a' d ∧ ∀ rcv f, exact (tracker a) rcv f → exact (tracker a') rcv f.
Proof.
  intros Ha Hle Hq Hpe. destruct (IgnoreBelow_spec a lo Ha) as (a'&Hig&Ha'&Hib&Hcov&_); [by right; right|].
  destruct (IgnoreBelow_pending _ _ _ d Hig) as [Hmd Hpe']. exists a'. split_and!; auto; [lia|].
  intros rcv f [H1 H2]. split; [intros p [? _]%Hcov; auto|]. intros Hn p Hr Hd. apply Hcov.
  rewrite (proj2 Ha') in Hd. split; [|lia]. apply H2; [done..|]. rewrite (proj2 Ha). lia.
Qed.

(** The spaces that a packet does not belong to. *)
Lemma exact_other l l' pn y t (full' : list EncryptionLevel) :
  pnSpace l ≠ pnSpace l' → (∀ x, x ∈ full y → x ∈ full') →
  exact t (λ p, (pnSpace l, p) ∈ received y) (pnSpace l ∈ full y) →
  exact t (λ p, (pnSpace l, p) ∈ (pnSpace l', pn) :: received y) (pnSpace l ∈ full').
Proof. intros Hne Hf. apply exact_iff; [|auto]. intros p. rewrite elem_of_cons. naive_solver. Qed.

Lemma exact_this l pn y t0 t (full' : list EncryptionLevel) :
  full' = (if MaxNumAckRanges <=? len (ranges (packetHistory t0)) then pnSpace l :: full y else full y) →
  exact t (λ p, p = pn ∨ (pnSpace l, p) ∈ received y) (MaxNumAckRanges ≤ len (ranges (packetHistory t0)) ∨ pnSpace l ∈ full y) →
  exact t (λ p, (pnSpace l, p) ∈ (pnSpace l, pn) :: received y) (pnSpace l ∈ full').
Proof.
  intros ->. apply exact_iff; [intros p; rewrite elem_of_cons; naive_solver|].
  zcase; [intros _; by left|]. intros [?|?]; [lia|done].
Qed.

(** What a step guarantees. *)
Definition step_ok l (r : res sys) : Prop :=
  match r with Ok y' => inv y' | Err _ => l = Encryption0RTT | Panic => False end.

(** The invariant after a packet of the level [l], from what happened in its space. *)
Lemma packet_inv y l pn t0 t' h' d' :
  inv y → space (handler y) l = Some t0 → handler_inv h' →
  (∀ l', pnSpace l' ≠ pnSpace l → ∀ t, space h' l' = Some t → space (handler y) l' = Some t) →
  (∀ l', pnSpace l' = pnSpace l → space h' l' = None ∨ space h' l' = Some t') →
  exact t' (λ p, p = pn ∨ (pnSpace l, p) ∈ received y)
    (MaxNumAckRanges ≤ len (ranges (packetHistory t0)) ∨ pnSpace l ∈ full y) →
  (pnSpace l ≠ Encryption1RTT → deletedBelow (packetHistory t') = 0) →
  lowest (sentPackets h') = ignoreBelow (ReceivedPackets.appDataPackets h') →
  maxAckDelay (ReceivedPackets.appDataPackets h') = MaxAckDelay →
  pending (ReceivedPackets.appDataPackets h') d' →
  inv (mkSys h' ((pnSpace l, pn) :: received y)
         (if MaxNumAckRanges <=? len (ranges (packetHistory t0)) then pnSpace l :: full y else full y) d').
Proof.
  intros Hy Hsp Hh Hother Hthis Hex Hz Hlow Hmd Hpe. split; try done. cbn [handler received full].
  intros l' t Ht. destruct (decide (pnSpace l' = pnSpace l)) as [Heq|Hne].
  - destruct (Hthis l' Heq) as [Hn|Hs]; [congruence|]. rewrite Ht in Hs. injection Hs as ->. rewrite Heq.
    split; [|done]. by eapply exact_this.
  - destruct (i_exact _ Hy l' t (Hother l' Hne t Ht)) as [He Hd]. split; [|done].
    eapply exact_other; [done| |done]. intros x Hx. zcase; [by right|done].
Qed.

Lemma duplicate_ok t pn : tracker_inv t → ∃ b, Tracker_IsPotentiallyDuplicate t pn = Ok b.
Proof. intros (Hh&_). destruct (IsPotentiallyDuplicate_spec _ pn Hh) as (b&Hb&_). by exists b. Qed.

Lemma step_initial y pn ecn rcvTime ae frames drops :
  inv y → allowed (Packet EncryptionInitial pn ecn rcvTime ae frames drops) →
  step_ok EncryptionInitial (step y (Packet EncryptionInitial pn ecn rcvTime ae frames drops)).
Proof.
  intros Hy (Hp&Hrt&Hdr&Hf). pose proof Hy as [(Hi&Hs&Ha) Hlow Hex Hmd Hpe]. cbn [step space].
  destruct (ReceivedPackets.initialPackets (handler y)) as [t|] eqn:Et; [|done]. cbn [Handler_IsPotentiallyDuplicate].
  rewrite Et. specialize (Hi t eq_refl). destruct (duplicate_ok t pn Hi) as [[|] Hdup]; rewrite Hdup; [done|].
  assert (drops = false) as -> by (destruct drops; [by specialize (Hdr eq_refl)|done]).
  unfold handleUnpackedPacket. cbn. rewrite Et. destruct (tracker_received t pn ecn rcvTime ae Hi Hp Hdup) as (t'&->&Hi'&Hd'&Hex').
  destruct (Hex EncryptionInitial t Et) as [He Hd0]. cbn. apply (packet_inv _ EncryptionInitial _ _ t'); try done.
  - by split_and!; [intros ? [= <-]|..].
  - by intros [] Hne.
  - intros [] Hne; try done. by right.
  - by apply Hex'.
  - intros _. rewrite Hd'. by apply Hd0.
  - cbn. rewrite received_keeps_lowest. specialize (Hf (sentPackets (handler y))). lia.
Qed.

Lemma step_handshake y pn ecn rcvTime ae frames drops :
  inv y → allowed (Packet EncryptionHandshake pn ecn rcvTime ae frames drops) →
  step_ok EncryptionHandshake (step y (Packet EncryptionHandshake pn ecn rcvTime ae frames drops)).
Proof.
  intros Hy (Hp&Hrt&Hdr&Hf). pose proof Hy as [(Hi&Hs&Ha) Hlow Hex Hmd Hpe]. cbn [step space].
  destruct (ReceivedPackets.handshakePackets (handler y)) as [t|] eqn:Et; [|done]. cbn [Handler_IsPotentiallyDuplicate].
  rewrite Et. specialize (Hs t eq_refl). destruct (duplicate_ok t pn Hs) as [[|] Hdup]; rewrite Hdup; [done|].
  destruct (tracker_received t pn ecn rcvTime ae Hs Hp Hdup) as (t'&Hr&Hi'&Hd'&Hex').
  destruct (Hex EncryptionHandshake t Et) as [He Hd0]. unfold handleUnpackedPacket.
  assert (lowest (sent_ReceivedPacket (frames (sentPackets (handler y))) EncryptionHandshake rcvTime) =
    ignoreBelow (ReceivedPackets.appDataPackets (handler y))) as Hlow'.
  { rewrite received_keeps_lowest. specialize (Hf (sentPackets (handler y))). lia. }
  destruct drops; cbn; rewrite ?Et, ?Hr; cbn; apply (packet_inv _ EncryptionHandshake _ _ t'); try done; try by apply Hex'.
  all: try (intros _; rewrite Hd'; by apply Hd0).
  - by intros [] Hne.
  - intros [] Hne; try done. by left.
  - by split_and!; [|intros ? [= <-]|].
  - by intros [] Hne.
  - intros [] Hne; try done. by right.
Qed.

Lemma step_0rtt y pn ecn rcvTime ae frames drops :
  inv y → allowed (Packet Encryption0RTT pn ecn rcvTime ae frames drops) →
  step_ok Encryption0RTT (step y (Packet Encryption0RTT pn ecn rcvTime ae frames drops)).
Proof.
  intros Hy (Hp&Hrt&Hdr&Hf). pose proof Hy as [(Hi&Hs&Ha) Hlow Hex Hmd Hpe]. cbn [step space Handler_IsPotentiallyDuplicate].
  destruct (duplicate_ok _ pn (proj1 Ha)) as [[|] Hdup]; rewrite Hdup; [done|].
  assert (drops = false) as -> by (destruct drops; [by specialize (Hdr eq_refl)|done]).
  unfold handleUnpackedPacket. cbn. destruct (negb _ && _); [done|]. assert (0 ≤ MaxAckDelay) by done.
  destruct (app_received _ pn ecn rcvTime ae (due y) Ha Hp Hdup Hpe ltac:(lia)) as (a'&->&Ha'&Hib&_&Hmd'&Hpe'&_&Hex').
  destruct (Hex Encryption0RTT _ eq_refl) as [He _]. cbn. apply (packet_inv _ Encryption0RTT _ _ (tracker a')); try done.
  - by intros [] Hne.
  - intros [] Hne; try done; by right.
  - by apply Hex'.
  - cbn. rewrite received_keeps_lowest. specialize (Hf (sentPackets (handler y))). lia.
  - cbn. congruence.
  - cbn. by rewrite Hmd in Hpe'.
Qed.

Lemma step_1rtt y pn ecn rcvTime ae frames drops :
  inv y → allowed (Packet Encryption1RTT pn ecn rcvTime ae frames drops) →
  step_ok Encryption1RTT (step y (Packet Encryption1RTT pn ecn rcvTime ae frames drops)).
Proof.
  intros Hy (Hp&Hrt&Hdr&Hf). pose proof Hy as [(Hi&Hs&Ha) Hlow Hex Hmd Hpe]. cbn [step space Handler_IsPotentiallyDuplicate].
  destruct (duplicate_ok _ pn (proj1 Ha)) as [[|] Hdup]; rewrite Hdup; [done|].
  assert (drops = false) as -> by (destruct drops; [by specialize (Hdr eq_refl)|done]).
  unfold handleUnpackedPacket. cbn. assert (0 ≤ MaxAckDelay) by done.
  destruct (app_received _ pn ecn rcvTime ae (due y) Ha Hp Hdup Hpe ltac:(lia)) as (a1&->&Ha1&Hib1&Hle&Hmd1&Hpe1&(q&Hq&Hqt)&Hex1).
  cbn. rewrite received_keeps_lowest. specialize (Hf (sentPackets (handler y))).
  edestruct (ignore_received a1 (lowest (frames (sentPackets (handler y))))) as (a2&->&Ha2&Hib2&Hmd2&Hpe2&Hex2);
    [done|lia|exists q; split; [lia|done]|exact Hpe1|].
  destruct (Hex Encryption1RTT _ eq_refl) as [He _]. cbn. apply (packet_inv _ Encryption1RTT _ _ (tracker a2)); try done.
  - by intros [] Hne.
  - intros [] Hne; try done; by right.
  - by apply Hex2, Hex1.
  - cbn. rewrite received_keeps_lowest. by rewrite Hib2.
  - cbn. congruence.
  - cbn. by rewrite Hmd in Hpe2.
Qed.

(** Steps that keep the histories. *)
Lemma same_history_inv y h' d' :
  inv y → handler_inv h' →
  (∀ l t, space h' l = Some t → ∃ t0, space (handler y) l = Some t0 ∧ packetHistory t = packetHistory t0) →
  lowest (sentPackets h') = ignoreBelow (ReceivedPackets.appDataPackets h') →
  maxAckDelay (ReceivedPackets.appDataPackets h') = MaxAckDelay →
  pending (ReceivedPackets.appDataPackets h') d' → inv (mkSys h' (received y) (full y) d').
Proof.
  intros Hy Hh Hsp Hlow Hmd Hpe. split; try done. intros l t (t0&Ht0&Heq)%Hsp. unfold exact. rewrite Heq.
  by apply (i_exact _ Hy).
Qed.

Lemma get_ack_frame_spec y l now onlyIfQueued :
  inv y →
  ∃ h' ack, Handler_GetAckFrame (handler y) l now onlyIfQueued = Ok (h', ack) ∧
    (∀ a, ack = Some a → ∃ t, space (handler y) l = Some t ∧ acknowledges a t) ∧
    inv (mkSys h' (received y) (full y)
           (if ack is Some _ then if bool_decide (l = Encryption1RTT) then None else due y else due y)) ∧
    (∀ d, l = Encryption1RTT → due y = Some d → onlyIfQueued = false ∨ d ≤ now → ∃ a, ack = Some a).
Proof.
  intros Hy. pose proof Hy as [(Hi&Hs&Ha) Hlow Hex Hmd Hpe]. destruct l; cbn [Handler_GetAckFrame space].
  - destruct (ReceivedPackets.initialPackets (handler y)) as [t|] eqn:E; [|exists (handler y), None; by destruct y].
    destruct (Tracker_GetAckFrame_spec t (Hi t eq_refl)) as (t'&ack&Hg&Hi'&Hh'&_).
    destruct (Tracker_GetAckFrame_exact t (Hi t eq_refl)) as (?&?&Hg'&_&Hack). rewrite Hg in Hg'. injection Hg' as <- <-.
    rewrite Hg. eexists _, _. split; [done|]. split; [naive_solver|]. split; [|done].
    apply same_history_inv; try done; [by split_and!; [intros ? [= <-]|..]| |by destruct ack].
    intros [] t0; cbn; [rewrite E; naive_solver|by eauto..].
  - destruct (ReceivedPackets.handshakePackets (handler y)) as [t|] eqn:E; [|exists (handler y), None; by destruct y].
    destruct (Tracker_GetAckFrame_spec t (Hs t eq_refl)) as (t'&ack&Hg&Hi'&Hh'&_).
    destruct (Tracker_GetAckFrame_exact t (Hs t eq_refl)) as (?&?&Hg'&_&Hack). rewrite Hg in Hg'. injection Hg' as <- <-.
    rewrite Hg. eexists _, _. split; [done|]. split; [naive_solver|]. split; [|done].
    apply same_history_inv; try done; [by split_and!; [|intros ? [= <-]|]| |by destruct ack].
    intros [] t0; cbn; [by eauto|rewrite E; naive_solver|by eauto..].
  - exists (handler y), None. by destruct y.
  - destruct (App_GetAckFrame_spec _ now onlyIfQueued _ Ha Hpe) as (a'&ack&->&Ha'&Hh'&Hack&Hdue&Hib&Hmd'&Hpe').
    eexists _, _. split; [done|]. split_and!.
    + intros a ->. destruct (Hack a eq_refl) as (?&_&?). eauto using acknowledges_intro.
    + apply same_history_inv; cbn; try done; [|by rewrite Hib|congruence].
      intros [] t0; cbn; [by eauto..|naive_solver|naive_solver].
    + intros d _ Hd. by apply Hdue.
Qed.

Definition op_level (o : op) : EncryptionLevel := if o is Packet l _ _ _ _ _ _ then l else EncryptionInitial.

Lemma received_step_ok y o : inv y → allowed o → step_ok (op_level o) (step y o).
Proof.
  intros Hy Ho. destruct o as [[] pn ecn rcvTime ae frames drops|l|l now q|f]; cbn [op_level].
  - by apply step_initial.
  - by apply step_handshake.
  - by apply step_0rtt.
  - by apply step_1rtt.
  - pose proof Hy as [(Hi&Hs&Ha) Hlow Hex Hmd Hpe]. destruct l; try done; cbn.
    + apply same_history_inv; try done. intros [] t; cbn; by eauto.
    + apply same_history_inv; try done. intros [] t; cbn; by eauto.
  - destruct (get_ack_frame_spec y l now q Hy) as (h'&ack&Hg&_&Hi'&_). cbn. by rewrite Hg.
  - pose proof Hy as [? Hlow Hex Hmd Hpe]. apply same_history_inv; try done; [|by cbn; rewrite Ho].
    intros [] t; cbn; by eauto.
Qed.

Lemma received_run_ok ops y :
  inv y → Forall allowed ops →
  match run y ops with
  | Ok y' => inv y'
  | Err _ => Exists (λ o, op_level o = Encryption0RTT) ops
  | Panic => False
  end.
Proof.
  revert y. induction ops as [|o ops IH]; intros y Hy Hops; [done|]. apply Forall_cons in Hops as [Ho Hops].
  pose proof (received_step_ok y o Hy Ho) as Hs. cbn [run]. destruct (step y o) as [y'|e|]; cbn in Hs |- *; [|by left|done].
  specialize (IH y' Hs Hops). destruct (run y' ops); [done|by right|done].
Qed.

Lemma received_start_inv (s : S) : lowest s = 0 → inv (start s).
Proof.
  intros Hs. assert (tracker_inv newReceivedPacketTracker) by (split_and!; try done; split_and!; try done; constructor).
  split; try done; [|intros l t Ht].
  - split_and!; try done; by intros ? [= <-].
  - assert (t = newReceivedPacketTracker) as -> by (destruct l; by injection Ht as <-). split; [|done].
    split; [intros p []%Exists_nil|]. intros _ p Hp. by apply not_elem_of_nil in Hp.
Qed.

(** The packets of the level from this number on have not been confirmed by the peer. *)
Definition unconfirmed y l : Z :=
  if bool_decide (l = Encryption1RTT) then lowest (sentPackets (handler y)) else 0.

Lemma acknowledges_received y l t a :
  inv y → l ≠ Encryption0RTT → space (handler y) l = Some t → acknowledges a t →
  (∀ p, ∃ b, AckFrame.AcksPacket a p = Ok b ∧ (b = true → (l, p) ∈ received y ∧ unconfirmed y l ≤ p)) ∧
  (l ∉ full y → ∀ p, AckFrame.AcksPacket a p = Ok (bool_decide ((l, p) ∈ received y ∧ unconfirmed y l ≤ p))).
Proof.
  intros Hy Hl Hsp [_ Hacks]. destruct (i_exact _ Hy l t Hsp) as [[H1 H2] Hz].
  assert (pnSpace l = l) as Hpl by by destruct l. rewrite Hpl in *.
  assert (tracker_inv t ∧ deletedBelow (packetHistory t) = unconfirmed y l) as [(Hh&_) Hd].
  { destruct (i_handler _ Hy) as (Hi&Hs&Ha). unfold unconfirmed. destruct l; cbn in Hsp |- *; try done.
    - split; [by apply Hi|by apply Hz].
    - split; [by apply Hs|by apply Hz].
    - injection Hsp as <-. split; [apply Ha|]. rewrite (i_lowest _ Hy). apply Ha. }
  assert (∀ p, tracked t p → (l, p) ∈ received y ∧ unconfirmed y l ≤ p) as Hfwd.
  { intros p Hp. split; [by apply H1|]. rewrite <-Hd. destruct Hh as (_&Hasc&_). by eapply covers_asc. }
  split.
  - intros p. eexists. split; [apply Hacks|]. intros ?%bool_decide_eq_true. auto.
  - intros Hf p. rewrite Hacks. f_equal. apply bool_decide_ext. split; [auto|].
    intros [Hr Hle]. apply H2; [done..|lia].
Qed.

(** C22: every ACK-eliciting packet of application data is acknowledged in time.  In every
    run in which the peer confirms, in a packet, only ACKs of packets that it sent before:
    from the arrival of an ACK-eliciting packet that is no duplicate until the next ACK
    frame is taken, an ACK is queued or the alarm is set to the maximum ACK delay after
    this arrival, and at that time or later [GetAckFrame] returns a frame.  The frame
    covers every packet that was received and not yet confirmed, unless packets arrived
    while 32 ranges were tracked (the lowest range can be dropped then). *)
Theorem ack_eliciting_packet_is_acked (s : S) ops y d now :
  lowest s = 0 → Forall allowed ops → run (start s) ops = Ok y → due y = Some d → d ≤ now →
  (ackQueued (ReceivedPackets.appDataPackets (handler y)) = true ∨ Handler_GetAlarmTimeout (handler y) = d) ∧
  ∃ h' ack, Handler_GetAckFrame (handler y) Encryption1RTT now true = Ok (h', Some ack) ∧
    (Encryption1RTT ∉ full y → ∀ p, (Encryption1RTT, p) ∈ received y →
      lowest (sentPackets (handler y)) ≤ p → AckFrame.AcksPacket ack p = Ok true).
Proof.
  intros Hs Hops Hrun Hdue Hnow. pose proof (received_run_ok ops _ (received_start_inv s Hs) Hops) as Hy. rewrite Hrun in Hy.
  destruct (get_ack_frame_spec y Encryption1RTT now true Hy) as (h'&ack&Hg&Hack&_&Hd).
  destruct (Hd d eq_refl Hdue) as [a ->]; [by right|]. destruct (Hack a eq_refl) as (t&Ht&Ha). split.
  - pose proof (i_pending _ Hy) as Hpe. rewrite Hdue in Hpe. destruct Hpe as (_&[?|(?&_)]); [by left|by right].
  - exists h', a. split; [done|]. intros Hf p Hp Hle.
    destruct (acknowledges_received y Encryption1RTT t a Hy ltac:(done) Ht Ha) as [_ ->]; [|done]. f_equal.
    by apply bool_decide_eq_true.
Qed.

(** C31: ACK frames are exact.  In every run in which the peer confirms, in a packet, only
    ACKs of packets that it sent before, nothing panics, and the only error is that of a
    0-RTT packet with a number above that of a 1-RTT packet.  At any time, the ACK frame
    of a packet number space is valid on the wire and acknowledges only packets that were
    received in this space and not yet confirmed; and all of those, unless packets arrived
    while 32 ranges were tracked.  (For a peer that reuses packet numbers this does not
    hold, see [reused_packet_number_empties_ack].) *)
Theorem ack_frame_exact (s : S) ops :
  lowest s = 0 → Forall allowed ops →
  match run (start s) ops with
  | Ok y => ∀ l now onlyIfQueued,
      ∃ h' ack, Handler_GetAckFrame (handler y) l now onlyIfQueued = Ok (h', ack) ∧
        ∀ a, ack = Some a → AckFrame.ranges_ok (AckFrame.AckRanges a) ∧
          (∀ p, ∃ b, AckFrame.AcksPacket a p = Ok b ∧ (b = true → (l, p) ∈ received y ∧ unconfirmed y l ≤ p)) ∧
          (l ∉ full y → ∀ p,
            AckFrame.AcksPacket a p = Ok (bool_decide ((l, p) ∈ received y ∧ unconfirmed y l ≤ p)))
  | Err _ => Exists (λ o, op_level o = Encryption0RTT) ops
  | Panic => False
  end.
Proof.
  intros Hs Hops. pose proof (received_run_ok ops _ (received_start_inv s Hs) Hops) as Hy.
  destruct (run (start s) ops) as [y| |]; [|done..]. intros l now q.
  destruct (get_ack_frame_spec y l now q Hy) as (h'&ack&Hg&Hack&_). exists h', ack. split; [done|]. intros a ->.
  destruct (Hack a eq_refl) as (t&Ht&Ha). split; [apply Ha|].
  eapply acknowledges_received; [done| |done..]. by intros ->.
Qed.
End runs.

(** ** The sent packet handler *)
#[global] Instance sentPacketHandler_tracker {F C : Type} `{!SendAlgorithm C} :
    SentPacketTracker (sentPacketHandler (F:=F) (C:=C)) :=
  {| GetLowestPacketNotConfirmedAcked := SentPackets.GetLowestPacketNotConfirmedAcked;
     sent_ReceivedPacket := SentPackets.ReceivedPacket |}.

#[global] Instance sentPacketHandler_tracker_ok {F C : Type} `{!SendAlgorithm C} :
    SentPacketTrackerOk (sentPacketHandler (F:=F) (C:=C)).
Proof. intros h l t. cbn. unfold SentPackets.ReceivedPacket. by destruct (_ && _). Qed.

#[global] Instance fixed_lowest_ok : SentPacketTrackerOk Z.
Proof. by intros s l t. Qed.

(** ** Witnesses

    Packets 3 and 5 arrive, an ACK frame is sent, packet 7 confirms the ACK of packet 3,
    packet 3 arrives again, and packet 8 arrives. *)
Definition example_run : list (op (S:=Z)) :=
  [Packet Encryption1RTT 3 ECNNon 100 true id false; Packet Encryption1RTT 5 ECNNon 200 true id false;
   GetAck Encryption1RTT 300 true; Packet Encryption1RTT 7 ECNNon 400 false (λ s, Z.max s 4) false;
   Packet Encryption1RTT 3 ECNNon 450 true id false; Packet Encryption1RTT 8 ECNNon 500 true id false].

Lemma example_run_allowed : Forall allowed example_run.
Proof.
  unfold example_run. repeat apply Forall_cons_2; try apply Forall_nil_2; cbn; try done.
  all: split_and!; try done; intros s; cbn; lia.
Qed.

Lemma ack_frame_exact_witness :
  ∃ y h' a, run (start 0) example_run = Ok y ∧
    Handler_GetAckFrame (handler y) Encryption1RTT 600 false = Ok (h', Some a) ∧
    AckFrame.AcksPacket a 5 = Ok (bool_decide ((Encryption1RTT, 5) ∈ received y ∧ unconfirmed y Encryption1RTT ≤ 5)).
Proof.
  pose proof (ack_frame_exact 0 example_run eq_refl example_run_allowed) as Hex.
  assert (∃ y h' a, run (start 0) example_run = Ok y ∧ full y = [] ∧
    Handler_GetAckFrame (handler y) Encryption1RTT 600 false = Ok (h', Some a)) as (y&h'&a&Hrun&Hf&Hg)
    by (eexists _, _, _; split; [vm_compute; reflexivity|]; split; vm_compute; reflexivity).
  rewrite Hrun in Hex. destruct (Hex Encryption1RTT 600 false) as (h2&ack&Hg2&Ha). rewrite Hg in Hg2. injection Hg2 as <- <-.
  exists y, h', a. split; [done|]. split; [done|]. destruct (Ha a eq_refl) as (_&_&H). apply H. rewrite Hf. apply not_elem_of_nil.
Defined.

Lemma ack_eliciting_packet_is_acked_witness :
  ∃ y h' a, run (start 0) example_run = Ok y ∧
    Handler_GetAckFrame (handler y) Encryption1RTT (500 + MaxAckDelay) true = Ok (h', Some a).
Proof.
  assert (∃ y, run (start 0) example_run = Ok y ∧ due y = Some (500 + MaxAckDelay)) as (y&Hrun&Hd)
    by (eexists; split; vm_compute; reflexivity).
  destruct (ack_eliciting_packet_is_acked 0 example_run y (500 + MaxAckDelay) (500 + MaxAckDelay))
    as (_&h'&a&Hg&_); [reflexivity|apply example_run_allowed|exact Hrun|exact Hd|reflexivity|].
  exists y, h', a. split; [exact Hrun|exact Hg].
Defined.
