(* ===== verification/SentSpec.v ===== *)
(** * Correctness of the sent packet handler

    Every packet that is in flight is tracked in one of the packet number spaces,
    and every frame that was sent is tracked, reported to its handler, or dropped
    with its keys.  Both are stated by one invariant, [acct], that all operations
    of SentPackets.v preserve. *)

From Stdlib Require Import Sorting.Sorted.
From S2P Require Import Prelude Varint Protocol AckFrame Float RTTStats ECN SentHistory SentPackets.

Section accounting.
Context {F C : Type} `{!SendAlgorithm C}.
Abbreviation packet := (packet F).
Abbreviation space := (packetNumberSpace (F:=F)).
Abbreviation handler := (sentPacketHandler (F:=F) (C:=C)).
Implicit Types (p q : packet) (s : space) (h : handler) (ps : list packet) (l : EncryptionLevel).

(** ** What a packet stands for *)
Definition weight p : Z := if includedInBytesInFlight p then Length_ p else 0.
Definition inflight ps : Z := foldr (λ p n, weight p + n) 0 ps.
Definition packet_frames p : list F := handled (Frames p) ++ handled (StreamFrames p).
Definition all_frames ps : list F := concat (packet_frames <$> ps).

(** A tracked packet: its bytes are in flight and it has frames, or it only stands
    for its packet number. *)
Definition tracked_ok p : Prop :=
  if isRegularPacket p
  then includedInBytesInFlight p = true ∧ declaredLost p = false ∧ 0 ≤ Length_ p ∧
       (Frames p ≠ [] ∨ StreamFrames p ≠ [])
  else includedInBytesInFlight p = false ∧ Frames p = [] ∧ StreamFrames p = [].

(** A path probe: all its frames have a handler. *)
Definition probe_ok p : Prop :=
  isPathProbePacket p = true ∧ includedInBytesInFlight p = false ∧ StreamFrames p = [] ∧
  Forall (λ f, Handler f = true) (Frames p) ∧ 0 < SendTime p.

(** The path probes have different numbers, none above [top]. *)
Definition probes_ok (top : Z) ps : Prop :=
  Forall (λ p, probe_ok p ∧ PacketNumber p ≤ top) ps ∧ NoDup (PacketNumber <$> ps).

(** The last number that was popped has been used, or is about to be. *)
Definition numbers_ok (top next : Z) : Prop :=
  0 ≤ next ∧ (top = InvalidPacketNumber ∨ top = next - 1 ∨ top = next - 2).

(** The time at which the last of the packets was sent is known. *)
Definition elicited (t : Z) ps : Prop := Forall (λ p, isRegularPacket p = true → 0 < t) ps.

Record space_inv s : Prop := {
  space_hist : hist_inv (history s);
  space_packets : Forall tracked_ok (Packets (history s));
  space_probes : probes_ok (highestPacketNumber (history s)) (pathProbePackets (history s));
  space_numbers : numbers_ok (highestPacketNumber (history s)) (next_of (pns s));
  space_time : elicited (lastAckElicitingPacketTime s) (Packets (history s));
}.

Definition space_frames s : list F :=
  all_frames (Packets (history s)) ++ all_frames (pathProbePackets (history s)).
Definition space_flight s : Z := inflight (Packets (history s)).

Definition spaces h : list space :=
  option_list (initialPackets h) ++ option_list (handshakePackets h) ++ [appDataPackets h].

Definition event_frame (e : event (F:=F)) : F := match e with OnAcked f | OnLost f => f end.

Definition tracked_frames h : list F := concat (space_frames <$> spaces h).
Definition settled_frames h : list F := event_frame <$> events h.
Definition tracked_flight h : Z := foldr (λ s n, space_flight s + n) 0 (spaces h).

(** [x] bytes are not accounted for yet and the frames [E] are in transit; [L] are
    all frames. *)
Record acct (x : Z) (E L : list F) h : Prop := {
  acct_spaces : Forall space_inv (spaces h);
  acct_flight : bytesInFlight h = tracked_flight h + x;
  acct_frames : settled_frames h ++ tracked_frames h ++ E ≡ₚ L;
}.

(** ** Sums *)
Lemma inflight_cons p ps : inflight (p :: ps) = weight p + inflight ps.
Proof. done. Qed.

Lemma inflight_app ps ps' : inflight (ps ++ ps') = inflight ps + inflight ps'.
Proof. induction ps as [|p ps IH]; cbn [app]; rewrite ?inflight_cons; [done|lia]. Qed.

Lemma all_frames_cons p ps : all_frames (p :: ps) = packet_frames p ++ all_frames ps.
Proof. done. Qed.

Lemma all_frames_app ps ps' : all_frames (ps ++ ps') = all_frames ps ++ all_frames ps'.
Proof. unfold all_frames. by rewrite fmap_app, concat_app. Qed.

Lemma all_frames_perm ps ps' : ps ≡ₚ ps' → all_frames ps ≡ₚ all_frames ps'.
Proof.
  unfold all_frames. induction 1; cbn; [done|by f_equiv| |by etransitivity].
  rewrite !app_assoc. f_equiv. apply Permutation_app_comm.
Qed.

Lemma weight_nonneg p : tracked_ok p → 0 ≤ weight p.
Proof.
  unfold tracked_ok, weight. destruct (isRegularPacket p); [intros (->&_&?&_); done|intros (->&_); done].
Qed.

Lemma inflight_nonneg ps : Forall tracked_ok ps → 0 ≤ inflight ps.
Proof.
  induction 1 as [|p ps Hp _ IH]; [done|]. rewrite inflight_cons. pose proof (weight_nonneg p Hp). lia.
Qed.

Lemma irregular_empty p : tracked_ok p → isRegularPacket p = false → weight p = 0 ∧ packet_frames p = [].
Proof.
  unfold tracked_ok, weight, packet_frames. intros Hp Hr. rewrite Hr in Hp. destruct Hp as (->&->&->). done.
Qed.

Lemma skipped_empty ps :
  Forall tracked_ok ps → Forall skippedPacket ps → inflight ps = 0 ∧ all_frames ps = [].
Proof.
  induction 1 as [|p ps Hp _ IH]; intros Hs; [done|]. apply Forall_cons in Hs as [Hsk Hs].
  destruct (irregular_empty p Hp) as [Hw Hf].
  { unfold isRegularPacket. by destruct (skippedPacket p). }
  destruct (IH Hs) as [IH1 IH2]. by rewrite inflight_cons, all_frames_cons, Hw, Hf, IH1, IH2.
Qed.

(** ** Spaces *)
Lemma space_split h l s :
  getPacketNumberSpace h l = Ok s →
  ∃ a b, spaces h = a ++ s :: b ∧ ∀ s', spaces (set_space h l s') = a ++ s' :: b.
Proof.
  unfold spaces. destruct l; cbn.
  - destruct (initialPackets h); [|done]. intros [= ->]. by exists [], (option_list (handshakePackets h) ++ [appDataPackets h]).
  - destruct (handshakePackets h); [|done]. intros [= ->]. by exists (option_list (initialPackets h)), [appDataPackets h].
  - intros [= <-]. exists (option_list (initialPackets h) ++ option_list (handshakePackets h)), [].
    split; [|intros s']; by rewrite app_assoc.
  - intros [= <-]. exists (option_list (initialPackets h) ++ option_list (handshakePackets h)), [].
    split; [|intros s']; by rewrite app_assoc.
Qed.

Lemma get_set_space h l s s' : getPacketNumberSpace h l = Ok s → getPacketNumberSpace (set_space h l s') l = Ok s'.
Proof. by destruct l. Qed.

Lemma acct_space x E L h l s : acct x E L h → getPacketNumberSpace h l = Ok s → space_inv s.
Proof.
  intros [Hs _ _] (a&b&Heq&_)%space_split. rewrite Heq in Hs. by apply Forall_app in Hs as [_ [? _]%Forall_cons].
Qed.

Lemma flight_split (a b : list space) s :
  foldr (λ s n, space_flight s + n) 0 (a ++ s :: b) =
  foldr (λ s n, space_flight s + n) 0 (a ++ b) + space_flight s.
Proof. induction a as [|s' a IH]; cbn [foldr app] in *; lia. Qed.

(** The other fields do not matter. *)
Definition same_acct h h' : Prop :=
  initialPackets h' = initialPackets h ∧ handshakePackets h' = handshakePackets h ∧
  appDataPackets h' = appDataPackets h ∧ bytesInFlight h' = bytesInFlight h ∧ events h' = events h.

Lemma acct_ext x E L h h' : same_acct h h' → acct x E L h → acct x E L h'.
Proof.
  intros (Hi&Hh&Ha&Hb&He) [Hs Hf Hp]. assert (spaces h' = spaces h) as Hsp by (unfold spaces; congruence).
  split; unfold tracked_flight, tracked_frames, settled_frames in *; rewrite ?Hsp, ?Hb, ?He; done.
Qed.

Lemma get_ext h h' l : same_acct h h' → getPacketNumberSpace h' l = getPacketNumberSpace h l.
Proof. unfold getPacketNumberSpace. intros (->&->&->&_). done. Qed.

Lemma same_acct_trans h h' h'' : same_acct h h' → same_acct h' h'' → same_acct h h''.
Proof. unfold same_acct. intuition congruence. Qed.

Lemma acct_perm x E E' L L' h : E ≡ₚ E' → L ≡ₚ L' → acct x E L h → acct x E' L' h.
Proof. intros HE HL [Hs Hf Hp]. split; [done..|]. by rewrite <-HE, <-HL. Qed.

Lemma acct_bytes x y E L h b :
  acct x E L h → b - bytesInFlight h = y - x → acct y E L (set_bytesInFlight h b).
Proof. intros [Hs Hf Hp] Hb. split; [done| |done]. cbn. change (tracked_flight _) with (tracked_flight h). lia. Qed.

(** A space changes: the frames [D] leave it and [N] are new. *)
Lemma acct_set_space x y E D N L h l s s' :
  acct x E L h → getPacketNumberSpace h l = Ok s → space_inv s' →
  y = x + space_flight s - space_flight s' → space_frames s ++ N ≡ₚ space_frames s' ++ D →
  acct y (E ++ D) (L ++ N) (set_space h l s').
Proof.
  intros [Hs Hf Hp] Hget Hs' -> HD. destruct (space_split h l s Hget) as (a&b&Heq&Hset).
  assert (bytesInFlight (set_space h l s') = bytesInFlight h) as Hb by (by destruct l).
  assert (events (set_space h l s') = events h) as He by (by destruct l).
  unfold tracked_flight, tracked_frames, settled_frames in *.
  split; unfold tracked_flight, tracked_frames, settled_frames; rewrite ?Hset, ?Hb, ?He.
  - rewrite Heq in Hs. apply Forall_app in Hs as [? [_ ?]%Forall_cons]. apply Forall_app. split; [done|]. by constructor.
  - rewrite Hf, Heq, !flight_split. lia.
  - rewrite <-Hp, Heq, !fmap_app, !concat_app. cbn.
    rewrite <-!app_assoc. f_equiv. f_equiv.
    transitivity ((space_frames s' ++ D) ++ concat (space_frames <$> b) ++ E); [solve_Permutation|].
    rewrite <-HD. solve_Permutation.
Qed.

Lemma acct_set_fields x E L h l s s' :
  acct x E L h → getPacketNumberSpace h l = Ok s → history s' = history s → pns s' = pns s →
  lastAckElicitingPacketTime s' = lastAckElicitingPacketTime s → acct x E L (set_space h l s').
Proof.
  intros Ha Hget Hh Hp Hl. pose proof (acct_set_space x x E [] [] L h l s s' Ha Hget) as Hset.
  rewrite !app_nil_r in Hset. unfold space_flight, space_frames in Hset. rewrite Hh in Hset.
  apply Hset; [|lia|done].
  destruct (acct_space _ _ _ _ _ _ Ha Hget). by split; rewrite ?Hh, ?Hp, ?Hl.
Qed.

Lemma events_set_space h l s : events (set_space h l s) = events h.
Proof. by destruct l. Qed.

Lemma event_frames (ev : F → event) (fs : list F) :
  (∀ f, event_frame (ev f) = f) → event_frame <$> (ev <$> fs) = fs.
Proof. intros Hev. induction fs as [|f fs IH]; cbn; [done|]. by rewrite Hev, IH. Qed.

(** Frames in transit reach their handlers. *)
Lemma acct_events x E fs L h (ev : F → event) :
  (∀ f, event_frame (ev f) = f) → acct x (E ++ fs) L h → acct x E L (set_events h (events h ++ (ev <$> fs))).
Proof.
  intros Hev [Hs Hf Hp]. split; [done..|]. unfold settled_frames in *. cbn.
  rewrite fmap_app, event_frames by done.
  change (tracked_frames (set_events _ _)) with (tracked_frames h). rewrite <-Hp. solve_Permutation.
Qed.

(** ** Lost packets *)

(** What stays the same in a space when packets are settled. *)
Definition same_space s s' : Prop :=
  same_rest (history s) (history s') ∧ pns s' = pns s ∧ largestAcked s' = largestAcked s ∧
  largestSent s' = largestSent s ∧ lastAckElicitingPacketTime s' = lastAckElicitingPacketTime s.

Lemma same_space_refl s : same_space s s.
Proof. done. Qed.

Lemma same_space_trans s s' s'' : same_space s s' → same_space s' s'' → same_space s s''.
Proof. unfold same_space, same_rest. intuition congruence. Qed.

Lemma space_inv_settled s s' :
  space_inv s → same_space s s' → hist_inv (history s') →
  (∀ p, p ∈ Packets (history s') → p ∈ Packets (history s)) → space_inv s'.
Proof.
  intros [_ Hp Hpr Hn Ht] ([Hprobes Htop]&Hpns&_&_&Hlast) Hh Hsub. split; [done| | |by rewrite Htop, Hpns|].
  - rewrite Forall_forall in *. auto.
  - by rewrite Hprobes, Htop.
  - rewrite Hlast. unfold elicited in *. rewrite Forall_forall in *. eauto.
Qed.

Lemma tracked_flight_nonneg h : Forall space_inv (spaces h) → 0 ≤ tracked_flight h.
Proof.
  unfold tracked_flight. induction 1 as [|s ss Hs _ IH]; cbn [foldr]; [done|].
  assert (0 ≤ space_flight s) by exact (inflight_nonneg _ (space_packets s Hs)). lia.
Qed.

Lemma remove_ok h p :
  weight p ≤ bytesInFlight h →
  removeFromBytesInFlight h p = Ok (set_bytesInFlight h (bytesInFlight h - weight p)).
Proof.
  unfold removeFromBytesInFlight, weight. destruct (includedInBytesInFlight p); intros Hle.
  - by rewrite (proj2 (Z.ltb_ge _ _)) by lia.
  - destruct h; cbn. by rewrite Z.sub_0_r.
Qed.

Lemma acct_remove x E L h p :
  acct x E L h → weight p ≤ x →
  removeFromBytesInFlight h p = Ok (set_bytesInFlight h (bytesInFlight h - weight p)) ∧
  acct (x - weight p) E L (set_bytesInFlight h (bytesInFlight h - weight p)).
Proof.
  intros Ha Hw. split; [|apply (acct_bytes x); [done|lia]]. apply remove_ok.
  pose proof (tracked_flight_nonneg h (acct_spaces _ _ _ _ Ha)). pose proof (acct_flight _ _ _ _ Ha). lia.
Qed.

Lemma acct_declareLost x E L h l s ps1 p ps2 :
  acct x E L h → getPacketNumberSpace h l = Ok s → Packets (history s) = ps1 ++ p :: ps2 →
  ∃ s', declareLost h l p = Ok (set_space h l s') ∧ acct (x + weight p) (E ++ packet_frames p) L (set_space h l s') ∧
    Packets (history s') = ps1 ++ ps2 ∧ same_space s s' ∧ lossTime s' = lossTime s.
Proof.
  intros Ha Hget Hp. pose proof (acct_space _ _ _ _ _ _ Ha Hget) as Hs.
  destruct (DeclareLost_spec (history s) ps1 p ps2 (space_hist s Hs) Hp) as (hist&Hd&Hinv&Hps&Hrest).
  unfold declareLost. rewrite Hget. cbn [mbind result_bind]. rewrite Hd. cbn [mbind result_bind].
  exists (set_history s hist). split; [done|].
  assert (same_space s (set_history s hist)) as Hsame by done.
  split_and!; try done. rewrite <-(app_nil_r L). eapply acct_set_space; try done.
  - apply (space_inv_settled s); try done. cbn. intros q. rewrite Hps, Hp. set_solver.
  - unfold space_flight. cbn. rewrite Hps, Hp, !inflight_app, inflight_cons. lia.
  - unfold space_frames. cbn. rewrite Hps, Hp, (proj1 Hrest), !all_frames_app, all_frames_cons.
    rewrite app_nil_r. solve_Permutation.
Qed.

Lemma queue_regular h p :
  tracked_ok p → isRegularPacket p = true →
  queueFramesForRetransmission h p = Ok (set_events h (events h ++ (OnLost <$> packet_frames p))).
Proof.
  unfold tracked_ok, queueFramesForRetransmission, packet_frames. intros Hp Hr. rewrite Hr in Hp.
  destruct Hp as (_&_&_&Hne). rewrite fmap_app.
  destruct (Frames p), (StreamFrames p); try done; naive_solver.
Qed.

Lemma lostECN_same h l pn : same_acct h (lostECN h l pn).
Proof. unfold lostECN. by destruct l, (ecn_tracker h). Qed.

(** A packet leaves its space and its frames are reported lost. *)
Lemma acct_lose x E L h l s ps1 p ps2 :
  0 ≤ x → acct x E L h → getPacketNumberSpace h l = Ok s → Packets (history s) = ps1 ++ p :: ps2 →
  ∃ h1 h2 s', declareLost h l p = Ok h1 ∧
    (if isRegularPacket p then h ← removeFromBytesInFlight h1 p; queueFramesForRetransmission h p else Ok h1) = Ok h2 ∧
    acct x E L h2 ∧ getPacketNumberSpace h2 l = Ok s' ∧
    Packets (history s') = ps1 ++ ps2 ∧ same_space s s' ∧ lossTime s' = lossTime s ∧
    events h2 = events h ++ (OnLost <$> packet_frames p).
Proof.
  intros Hx Ha Hget Hp. pose proof (acct_space _ _ _ _ _ _ Ha Hget) as Hs.
  assert (tracked_ok p) as Hok.
  { pose proof (space_packets s Hs) as Hall. rewrite Forall_forall in Hall. apply Hall. rewrite Hp. set_solver. }
  destruct (acct_declareLost x E L h l s ps1 p ps2 Ha Hget Hp) as (s'&Hd&Ha'&Hps&Hsame&Hlt).
  pose proof (weight_nonneg p Hok). rewrite Hd.
  assert (getPacketNumberSpace (set_space h l s') l = Ok s') as Hg' by (by eapply get_set_space).
  destruct (isRegularPacket p) eqn:Hr.
  - destruct (acct_remove _ _ _ _ p Ha') as [Hrm Ha'']; [lia|]. eexists _, _, s'. split; [done|].
    rewrite Hrm. cbn [mbind result_bind]. rewrite queue_regular by done. split; [done|].
    apply (acct_events _ _ _ _ _ OnLost) in Ha''; [|done].
    replace (x + weight p - weight p) with x in Ha'' by lia. split_and!; try done.
    cbn. by rewrite events_set_space.
  - destruct (irregular_empty p Hok Hr) as [Hw Hf]. rewrite Hw, Hf, Z.add_0_r, app_nil_r in *.
    eexists _, _, s'. split; [done|]. split_and!; try done. by rewrite events_set_space.
Qed.

Lemma acct_packetLost x E L h l s ps1 p ps2 prior :
  0 ≤ x → acct x E L h → getPacketNumberSpace h l = Ok s → Packets (history s) = ps1 ++ p :: ps2 →
  ∃ h' s', packetLost h l prior p = Ok h' ∧ acct x E L h' ∧ getPacketNumberSpace h' l = Ok s' ∧
    Packets (history s') = ps1 ++ ps2 ∧ same_space s s' ∧ lossTime s' = lossTime s ∧
    events h' = events h ++ (OnLost <$> packet_frames p).
Proof.
  intros Hx Ha Hget Hp. destruct (acct_lose x E L h l s ps1 p ps2 Hx Ha Hget Hp) as (h1&h2&s'&Hd&Hq&Ha2&Hg2&?&?&?&He2).
  unfold packetLost. rewrite Hd. cbn [mbind result_bind]. destruct (isRegularPacket p).
  - destruct (removeFromBytesInFlight h1 p) as [h1'| |]; try done. cbn [mbind result_bind] in *. rewrite Hq.
    cbn [mbind result_bind]. set (h3 := if negb _ then _ else h2).
    assert (same_acct h2 (lostECN h3 l (PacketNumber p))) as Hh.
    { eapply same_acct_trans; [|apply lostECN_same]. unfold h3. by destruct (IsPathMTUProbePacket p). }
    eexists _, s'. split; [done|].
    split_and!; try done; [by eapply acct_ext|by rewrite (get_ext _ _ _ Hh)|by destruct Hh as (_&_&_&_&->)].
  - injection Hq as <-. by exists h1, s'.
Qed.

(** The packets that the loss detection declares lost, and the time for the first
    of those that may be lost later. *)
Definition lost_now (la lostSendTime : Z) p : bool :=
  (PacketNumber p <=? la) && is_lost la lostSendTime p.
Definition lost_later (la lostSendTime : Z) p : bool :=
  (PacketNumber p <=? la) && negb (is_lost la lostSendTime p).
Definition next_loss (la lostSendTime lossDelay : Z) ps : Z :=
  match filter (lost_later la lostSendTime) ps with
  | p :: _ => SendTime p + lossDelay
  | [] => 0
  end.

Lemma lost_above la t p ps :
  la < PacketNumber p → Forall (λ q, PacketNumber p < PacketNumber q) ps →
  filter (lost_now la t) (p :: ps) = [] ∧ filter (lost_later la t) (p :: ps) = [] ∧
  filter (λ p, lost_now la t p = false) (p :: ps) = p :: ps.
Proof.
  intros Hp Hps. assert (Forall (λ q, la < PacketNumber q) (p :: ps)) as Hall.
  { constructor; [done|]. eapply Forall_impl; [done|]. cbn. lia. }
  split_and!; induction Hall as [|q qs Hq _ IH]; try done; rewrite filter_cons; unfold lost_now, lost_later in *;
    rewrite (proj2 (Z.leb_gt _ _)) by lia; cbn; rewrite ?IH; done.
Qed.

Lemma detectLost_loop_spec x E L l lossDelay lst prior ps : 0 ≤ x → ∀ h s kept,
  acct x E L h → getPacketNumberSpace h l = Ok s → Packets (history s) = kept ++ ps →
  0 ≤ lst + lossDelay →
  ∃ h' s', detectLostPackets_loop h l lossDelay lst prior ps = Ok h' ∧ acct x E L h' ∧
    getPacketNumberSpace h' l = Ok s' ∧ same_space s s' ∧
    Packets (history s') = kept ++ filter (λ p, lost_now (largestAcked s) lst p = false) ps ∧
    events h' = events h ++ (OnLost <$> all_frames (filter (lost_now (largestAcked s) lst) ps)) ∧
    lossTime s' = if lossTime s =? 0 then next_loss (largestAcked s) lst lossDelay ps else lossTime s.
Proof.
  intros Hx. induction ps as [|p ps IH]; intros h s kept Ha Hget Hps Hd; cbn [detectLostPackets_loop].
  { exists h, s. cbn. rewrite !app_nil_r in *. split_and!; try done. zcase; lia. }
  rewrite Hget. cbn [mbind result_bind]. pose proof (acct_space _ _ _ _ _ _ Ha Hget) as Hs.
  destruct (Packets_order _ _ _ _ (space_hist s Hs) Hps) as [_ Hord].
  destruct (Z.ltb_spec (largestAcked s) (PacketNumber p)) as [Hla|Hla].
  { destruct (lost_above (largestAcked s) lst p ps Hla Hord) as (H1&H2&H3).
    exists h, s. unfold next_loss. rewrite H1, H2, H3. cbn. rewrite app_nil_r. split_and!; try done. zcase; lia. }
  assert (lost_now (largestAcked s) lst p = is_lost (largestAcked s) lst p) as Hnow
    by (unfold lost_now; by rewrite (proj2 (Z.leb_le _ _) Hla)).
  assert (lost_later (largestAcked s) lst p = negb (is_lost (largestAcked s) lst p)) as Hlater
    by (unfold lost_later; by rewrite (proj2 (Z.leb_le _ _) Hla)).
  unfold next_loss. rewrite !filter_cons, Hnow, Hlater.
  destruct (is_lost (largestAcked s) lst p) eqn:Hlost; cbn [negb];
    repeat (case_decide; try done).
  - destruct (acct_packetLost x E L h l s kept p ps prior Hx Ha Hget Hps) as (h1&s1&->&Ha1&Hg1&Hp1&Hsame&Hlt&He1).
    cbn [mbind result_bind]. destruct (IH h1 s1 kept Ha1 Hg1 Hp1 Hd) as (h'&s'&Hrun&Ha'&Hg'&Hsame'&Hps'&He'&Hlt').
    pose proof Hsame as (_&_&Hla1&_). rewrite Hla1, ?Hlt in *. exists h', s'.
    split_and!; try done; [by eapply same_space_trans|].
    by rewrite He', He1, all_frames_cons, fmap_app, app_assoc.
  - set (s1 := if lossTime s =? 0 then set_lossTime s (SendTime p + lossDelay) else s).
    set (h1 := if lossTime s =? 0 then set_space h l s1 else h).
    assert ((if lossTime s =? 0 then Ok (set_space h l (set_lossTime s (SendTime p + lossDelay))) else Ok h)
            = Ok h1 :> res _) as -> by (unfold h1, s1; by destruct (_ =? 0)).
    cbn [mbind result_bind].
    assert (same_space s s1 ∧ history s1 = history s) as [Hsame Hhist] by (unfold s1; by destruct (_ =? 0)).
    assert (acct x E L h1 ∧ getPacketNumberSpace h1 l = Ok s1 ∧ events h1 = events h) as (Ha1&Hg1&He1).
    { unfold h1. assert (pns s1 = pns s ∧ lastAckElicitingPacketTime s1 = lastAckElicitingPacketTime s) as [? ?] by (split; apply Hsame). destruct (Z.eqb_spec (lossTime s) 0) as [Hz|Hz].
      - split_and!; [by eapply acct_set_fields|by eapply get_set_space|apply events_set_space].
      - done. }
    destruct (IH h1 s1 (kept ++ [p])) as (h'&s'&Hrun&Ha'&Hg'&Hsame'&Hps'&He'&Hlt'); try done.
    { by rewrite Hhist, <-app_assoc. }
    pose proof Hsame as (_&_&Hla1&_). rewrite Hla1, He1, <-?app_assoc in *. exists h', s'.
    split_and!; try done; [by eapply same_space_trans|].
    rewrite Hlt'. unfold s1. unfold is_lost in Hlost. apply orb_false_iff in Hlost as [Hst%Z.leb_gt _].
    destruct (Z.eqb_spec (lossTime s) 0) as [Hz|Hz]; cbn; [rewrite (proj2 (Z.eqb_neq _ _)) by lia; done|].
    by rewrite (proj2 (Z.eqb_neq _ _) Hz).
Qed.

Lemma detectLost_spec x E L h l s now :
  0 ≤ x → acct x E L h → getPacketNumberSpace h l = Ok s → 0 ≤ now →
  let lst := now - getLossDelay h in
  ∃ h' s', detectLostPackets h now l = Ok h' ∧ acct x E L h' ∧
    getPacketNumberSpace h' l = Ok s' ∧ same_space s s' ∧
    Packets (history s') = filter (λ p, lost_now (largestAcked s) lst p = false) (Packets (history s)) ∧
    events h' = events h ++ (OnLost <$> all_frames (filter (lost_now (largestAcked s) lst) (Packets (history s)))) ∧
    lossTime s' = next_loss (largestAcked s) lst (getLossDelay h) (Packets (history s)).
Proof.
  intros Hx Ha Hget Hnow lst. unfold detectLostPackets. rewrite Hget. cbn [mbind result_bind].
  set (h1 := set_space h l (set_lossTime s 0)).
  assert (getLossDelay h1 = getLossDelay h) as -> by (by destruct l).
  destruct (detectLost_loop_spec x E L l (getLossDelay h) lst (bytesInFlight h1) (Packets (history s)) Hx
    h1 (set_lossTime s 0) []) as (h'&s'&Hrun&Ha'&Hg'&Hsame&Hps&He&Hlt); try done.
  - by eapply acct_set_fields.
  - by eapply get_set_space.
  - unfold lst. lia.
  - exists h', s'. unfold h1 in He. rewrite events_set_space in He. by split_and!.
Qed.

(** ** Path probes *)
Lemma lostProbeFrames_ok (fs : list (Frame F)) :
  Forall (λ f, Handler f = true) fs → lostProbeFrames fs = Ok (handled fs).
Proof.
  unfold handled. induction 1 as [|f fs Hf _ IH]; [done|]. cbn [lostProbeFrames]. rewrite Hf, IH.
  rewrite filter_cons, Hf. done.
Qed.

Lemma probes_ok_perm top ps ps' r : ps ≡ₚ ps' ++ r → probes_ok top ps → probes_ok top ps'.
Proof.
  intros Hp [Hall Hnd]. rewrite Hp in Hall, Hnd. apply Forall_app in Hall as [? _].
  rewrite fmap_app in Hnd. by apply NoDup_app in Hnd as [? _].
Qed.

Lemma probes_unique top ps p q :
  probes_ok top ps → p ∈ ps → q ∈ ps → PacketNumber p = PacketNumber q → p = q.
Proof.
  intros [_ Hnd] [i Hi]%list_elem_of_lookup [j Hj]%list_elem_of_lookup Heq.
  assert (i = j) as ->; [|congruence]. apply (NoDup_lookup (PacketNumber <$> ps) i j (PacketNumber p)); [done|..].
  - by rewrite list_lookup_fmap, Hi.
  - by rewrite list_lookup_fmap, Hj, Heq.
Qed.

Lemma acct_probes x E L h l s ps D N :
  acct x E L h → getPacketNumberSpace h l = Ok s → probes_ok (highestPacketNumber (history s)) ps →
  all_frames (pathProbePackets (history s)) ++ N ≡ₚ all_frames ps ++ D →
  let hist := history s in
  acct x (E ++ D) (L ++ N) (set_space h l (set_history s
    (mkHistory (packets hist) ps (numOutstanding hist) (highestPacketNumber hist)))).
Proof.
  intros Ha Hget Hps HD hist. pose proof (acct_space _ _ _ _ _ _ Ha Hget) as [Hh Hp _ Hn Ht].
  eapply acct_set_space; try done.
  - split; try done. by destruct Hh.
  - change (space_flight (set_history _ _)) with (space_flight s). lia.
  - change (space_frames (set_history _ _)) with (all_frames (Packets hist) ++ all_frames ps).
    unfold space_frames. rewrite <-!app_assoc. by f_equiv.
Qed.

Lemma removeProbe_perm ps pn : ∃ r,
  removeProbe ps pn = r ∧ ps ≡ₚ r.2 ++ option_list r.1 ∧
  (∀ p, r.1 = Some p → p ∈ ps ∧ PacketNumber p = pn) ∧ (r.1 = None → ∀ p, p ∈ ps → PacketNumber p ≠ pn).
Proof.
  exists (removeProbe ps pn). split; [done|]. pose proof (removeProbe_spec ps pn) as Hspec.
  destruct (removeProbe ps pn) as [[q|] ps']; cbn.
  - destruct Hspec as [Hq (ps1&ps2&->&->)]. split_and!; [|intros p [= <-]; split; [set_solver|done]|done].
    rewrite <-app_assoc. f_equiv. by rewrite Permutation_app_comm.
  - destruct Hspec as [-> Hall]. rewrite app_nil_r, Forall_forall in *. done.
Qed.

(** A path probe is removed and its frames are in transit. *)
Lemma acct_RemovePathProbe x E L h l s pn : ∃ hist o,
  acct x E L h → getPacketNumberSpace h l = Ok s →
  RemovePathProbe (history s) pn = (hist, o) ∧
  acct x (E ++ from_option packet_frames [] o) L (set_space h l (set_history s hist)) ∧
  packets hist = packets (history s) ∧ highestPacketNumber hist = highestPacketNumber (history s) ∧
  pathProbePackets (history s) ≡ₚ pathProbePackets hist ++ option_list o ∧
  (∀ p, o = Some p → p ∈ pathProbePackets (history s) ∧ PacketNumber p = pn) ∧
  (o = None → ∀ p, p ∈ pathProbePackets (history s) → PacketNumber p ≠ pn).
Proof.
  destruct (RemovePathProbe (history s) pn) as [hist o] eqn:Hrm. exists hist, o. intros Ha Hget.
  unfold RemovePathProbe in Hrm. destruct (removeProbe_perm (pathProbePackets (history s)) pn) as ([o' ps]&Hr&Hperm&Hq&Hn).
  rewrite Hr in Hrm. injection Hrm as <- <-. cbn in *. split_and!; try done.
  rewrite <-(app_nil_r L). apply acct_probes; try done.
  - eapply probes_ok_perm; [done|]. exact (space_probes s (acct_space _ _ _ _ _ _ Ha Hget)).
  - rewrite app_nil_r, (all_frames_perm _ _ Hperm), all_frames_app. destruct o' as [q|]; cbn; [|done].
    by rewrite app_nil_r.
Qed.

Lemma probe_frames p : probe_ok p → lostProbeFrames (Frames p) = Ok (packet_frames p).
Proof.
  intros (_&_&Hs&Hf&_). unfold packet_frames. rewrite Hs, lostProbeFrames_ok by done. cbn. by rewrite app_nil_r.
Qed.

Lemma acct_lostProbes x E L ps : ∀ h,
  acct x E L h → NoDup (PacketNumber <$> ps) →
  (∀ p, p ∈ ps → p ∈ pathProbePackets (history (appDataPackets h))) →
  ∃ h' hist, detectLostPathProbes_loop h ps = Ok h' ∧ acct x E L h' ∧
    appDataPackets h' = set_history (appDataPackets h) hist ∧ Packets hist = Packets (history (appDataPackets h)) ∧
    pathProbePackets (history (appDataPackets h)) ≡ₚ pathProbePackets hist ++ ps ∧
    highestPacketNumber hist = highestPacketNumber (history (appDataPackets h)) ∧
    initialPackets h' = initialPackets h ∧ handshakePackets h' = handshakePackets h ∧
    events h' = events h ++ (OnLost <$> all_frames ps).
Proof.
  induction ps as [|p ps IH]; intros h Ha Hnd Hin; cbn [detectLostPathProbes_loop].
  { exists h, (history (appDataPackets h)). cbn. rewrite !app_nil_r. split_and!; try done. by destruct (appDataPackets h). }
  apply NoDup_cons in Hnd as [Hp Hnd]. set (s := appDataPackets h) in *.
  assert (getPacketNumberSpace h Encryption1RTT = Ok s) as Hget by done.
  pose proof (space_probes s (acct_space _ _ _ _ _ _ Ha Hget)) as Hpo.
  assert (probe_ok p) as Hok.
  { destruct Hpo as [Hall _]. rewrite Forall_forall in Hall. apply Hall, Hin. set_solver. }
  rewrite probe_frames by done. cbn [mbind result_bind].
  destruct (acct_RemovePathProbe x E L h Encryption1RTT s (PacketNumber p)) as (hist&o&Hrm).
  destruct (Hrm Ha Hget) as (Hrm'&Ha'&Hpk&Htop&Hperm&Hsome&Hnone).
  destruct o as [q|]; [|destruct (Hnone eq_refl p); [apply Hin; set_solver|done]].
  destruct (Hsome q eq_refl) as [Hq1 Hq2]. cbn in Hperm, Ha'.
  assert (q = p) as -> by (eapply probes_unique; [exact Hpo|done|apply Hin; set_solver|done]).
  change (appDataPackets (set_events _ _)) with s. rewrite Hrm'. cbn [fst].
  apply (acct_events _ _ _ _ _ OnLost) in Ha'; [|done].
  set (h1 := set_appData _ _).
  destruct (IH h1) as (h'&hist'&Hrun&Ha''&Happ&Hps&Hprobes&Htop'&Hi&Hh&He).
  - eapply acct_ext; [|exact Ha']. done.
  - done.
  - intros q Hq. change (q ∈ pathProbePackets hist).
    assert (q ∈ pathProbePackets (history s)) as Hqs by (apply Hin; set_solver). rewrite Hperm in Hqs.
    apply elem_of_app in Hqs as [?| ->%list_elem_of_singleton]; [done|]. destruct Hp. by apply list_elem_of_fmap_2.
  - exists h', hist'. split_and!; try done.
    + rewrite Hps. unfold Packets. by rewrite <-Hpk.
    + rewrite Hperm. change (pathProbePackets (history (appDataPackets h1))) with (pathProbePackets hist) in Hprobes.
      rewrite Hprobes. solve_Permutation.
    + by rewrite Htop'.
    + by rewrite He, all_frames_cons, fmap_app, app_assoc.
Qed.

(** The path probes that are lost. *)
Definition lost_probes (now : Z) s : list packet :=
  filter (λ p, SendTime p ≤ now - pathProbePacketLossTimeout) (pathProbePackets (history s)).

Lemma detectLostProbes_spec x E L h now :
  acct x E L h →
  ∃ h' hist, detectLostPathProbes h now = Ok h' ∧ acct x E L h' ∧
    appDataPackets h' = set_history (appDataPackets h) hist ∧ Packets hist = Packets (history (appDataPackets h)) ∧
    highestPacketNumber hist = highestPacketNumber (history (appDataPackets h)) ∧
    initialPackets h' = initialPackets h ∧ handshakePackets h' = handshakePackets h ∧
    events h' = events h ++ (OnLost <$> all_frames (lost_probes now (appDataPackets h))).
Proof.
  intros Ha. unfold detectLostPathProbes, lost_probes, HasOutstandingPathProbes. set (s := appDataPackets h).
  destruct (Z.ltb_spec 0 (len (pathProbePackets (history s)))) as [_|Hz]; cbn [negb].
  - set (ps := filter _ _). pose proof (space_probes _ (acct_space _ _ _ _ Encryption1RTT _ Ha eq_refl)) as [_ Hnd].
    destruct (acct_lostProbes x E L ps h Ha) as (h'&hist&?&?&?&?&_&?&?&?&?).
    + eapply sublist_NoDup; [exact Hnd|]. apply fmap_sublist, sublist_filter.
    + intros p Hp. unfold ps in Hp. by apply list_elem_of_filter in Hp as [_ ?].
    + by exists h', hist.
  - assert (pathProbePackets (history s) = []) as -> by (destruct (pathProbePackets (history s)); [done|len_lia]).
    exists h, (history s). cbn. rewrite app_nil_r. split_and!; try done. unfold s. by destruct (appDataPackets h).
Qed.

(** ** Acknowledged packets *)
Import AckFrame.

#[local] Instance acked_dec rs pn : Decision (acked rs pn).
Proof. unfold acked. apply list_exist_dec. intros r. apply _. Defined.

(** The ranges in ascending order. *)
Fixpoint ranges_up (lo : Z) (rs : list AckRange) : Prop :=
  match rs with
  | [] => True
  | r :: rs => lo ≤ Smallest r ≤ Largest r ∧ ranges_up (Largest r + 1) rs
  end.

Lemma ranges_up_snoc lo rs r :
  ranges_up lo rs → Forall (λ r', Largest r' < Smallest r) rs → lo ≤ Smallest r ≤ Largest r →
  ranges_up lo (rs ++ [r]).
Proof.
  revert lo. induction rs as [|r' rs IH]; intros lo; cbn; [done|].
  intros [? Hup] [? Hall]%Forall_cons ?. split; [done|]. apply IH; try done. lia.
Qed.

Lemma ranges_below_Forall m rs : ranges_below m rs → Forall (λ r, Largest r < m) rs.
Proof.
  revert m. induction rs as [|r rs IH]; intros m; cbn; [by constructor|]. intros (?&?&Hb).
  constructor; [lia|]. eapply Forall_impl; [by apply IH|]. cbn. lia.
Qed.

Lemma ranges_up_reverse m rs : ranges_below m rs → ranges_up 0 (reverse rs).
Proof.
  revert m. induction rs as [|r rs IH]; intros m; cbn [ranges_below]; [done|]. intros (?&?&Hb).
  rewrite reverse_cons. apply ranges_up_snoc; [by eapply IH| |lia].
  apply Forall_reverse. by apply ranges_below_Forall.
Qed.

Lemma acked_reverse rs pn : acked (reverse rs) pn ↔ acked rs pn.
Proof. unfold acked. by setoid_rewrite elem_of_reverse. Qed.

Lemma acked_cons r rs pn : acked (r :: rs) pn ↔ Smallest r ≤ pn ≤ Largest r ∨ acked rs pn.
Proof. unfold acked. setoid_rewrite elem_of_cons. naive_solver. Qed.

Lemma acked_up lo rs pn : ranges_up lo rs → acked rs pn → lo ≤ pn.
Proof.
  revert lo. induction rs as [|r rs IH]; intros lo; cbn; [by intros _ (?&?%elem_of_nil&_)|].
  intros [? Hup] [?|Ha]%acked_cons; [lia|]. specialize (IH _ Hup Ha). lia.
Qed.

(** Moving on to the range for a number only leaves ranges below it behind. *)
Lemma advanceRange_spec lo rs pn r0 :
  ranges_up lo rs → last rs = Some r0 → pn ≤ Largest r0 →
  ∃ lo' r rest, advanceRange pn rs = r :: rest ∧ ranges_up lo' (r :: rest) ∧ last (r :: rest) = Some r0 ∧
    pn ≤ Largest r ∧ ∀ n, pn ≤ n → acked (r :: rest) n ↔ acked rs n.
Proof.
  revert lo. induction rs as [|r rs IH]; intros lo Hup Hlast Hpn; [done|].
  destruct rs as [|r' rs]; [injection Hlast as ->; by exists lo, r0, []|].
  change (advanceRange pn (r :: r' :: rs))
    with (if Largest r <? pn then advanceRange pn (r' :: rs) else r :: r' :: rs).
  destruct (Z.ltb_spec (Largest r) pn) as [Hr|Hr]; [|by exists lo, r, (r' :: rs)].
  destruct Hup as [Hr' Hup].
  destruct (IH (Largest r + 1) Hup Hlast Hpn) as (lo'&r1&rest&->&?&?&?&Hq).
  exists lo', r1, rest. split_and!; try done. intros q Hle. rewrite (Hq q Hle), (acked_cons r).
  split; [by right|]. intros [?|?]; [lia|done].
Qed.

Lemma filter_none {A} (P : A → Prop) `{!∀ x, Decision (P x)} (xs : list A) :
  Forall (λ x, ¬ P x) xs → filter P xs = [].
Proof. induction 1 as [|x xs Hx _ IH]; [done|]. by rewrite filter_cons, decide_False. Qed.

(** The packets behind a list of entries of the history. *)
Fixpoint takeAcked (hist : sentPacketHistory F) ps : sentPacketHistory F * list packet :=
  match ps with
  | [] => (hist, [])
  | p :: ps =>
      if isPathProbePacket p then
        let '(hist, o) := RemovePathProbe hist (PacketNumber p) in
        let '(hist, acked) := takeAcked hist ps in (hist, option_list o ++ acked)
      else let '(hist, acked) := takeAcked hist ps in (hist, p :: acked)
  end.

Definition skipped_error p : error :=
  TransportError ProtocolViolation 0
    (ErrorString "received an ACK for skipped packet number: %d (%s)" [PacketNumber p]).

Definition ascending ps : Prop := StronglySorted (λ p q, PacketNumber p < PacketNumber q) ps.

Lemma Packets_ascending (hist : sentPacketHistory F) : hist_inv hist → ascending (Packets hist).
Proof.
  intros Hinv. assert (∀ ps2 ps1, Packets hist = ps1 ++ ps2 → ascending ps2) as H; [|by apply (H _ [])].
  induction ps2 as [|p ps IH]; intros ps1 Heq; [by constructor|]. constructor.
  - apply (IH (ps1 ++ [p])). by rewrite <-app_assoc.
  - exact (proj2 (Packets_order _ _ _ _ Hinv Heq)).
Qed.

Lemma ascending_filter (P : packet → Prop) `{!∀ p, Decision (P p)} ps : ascending ps → ascending (filter P ps).
Proof.
  induction 1 as [|p ps _ IH Hp]; [constructor|]. rewrite filter_cons. case_decide; [|done].
  constructor; [done|]. rewrite Forall_forall in *. intros q [_ ?]%list_elem_of_filter. by apply Hp.
Qed.

(** What an ACK with the given ranges acknowledges. *)
Definition collected (rs : list AckRange) (hist : sentPacketHistory F) (acc ps : list packet)
  : res (sentPacketHistory F * list packet) :=
  let cov := filter (λ p, acked rs (PacketNumber p)) ps in
  match filter skippedPacket cov with
  | p :: _ => Err (skipped_error p)
  | [] => let '(hist, r) := takeAcked hist cov in Ok (hist, acc ++ r)
  end.

(** The range that [collectAcked] compares a packet number with. *)
Lemma current_range hm low lo cur r0 pn :
  ranges_up lo cur → last cur = Some r0 → pn ≤ Largest r0 → low ≤ pn →
  (hm = false → cur = [r0] ∧ Smallest r0 = low) →
  ∃ lo' r rest, (if hm then advanceRange pn cur else cur) = r :: rest ∧ ranges_up lo' (r :: rest) ∧
    last (r :: rest) = Some r0 ∧ (hm = false → r :: rest = [r0] ∧ Smallest r0 = low) ∧
    (∀ n, pn ≤ n → acked (r :: rest) n ↔ acked cur n) ∧
    hm && (pn <? Smallest r) = negb (bool_decide (acked cur pn)) ∧ hm && (Largest r <? pn) = false.
Proof.
  intros Hup Hlast Hpn Hlow Hhm.
  assert (∃ lo' r rest, (if hm then advanceRange pn cur else cur) = r :: rest ∧ ranges_up lo' (r :: rest) ∧
    last (r :: rest) = Some r0 ∧ (hm = false → r :: rest = [r0] ∧ Smallest r0 = low) ∧ pn ≤ Largest r ∧
    (∀ n, pn ≤ n → acked (r :: rest) n ↔ acked cur n)) as (lo'&r&rest&Heq&Hup'&Hl&Hhm'&Hr&Hq).
  { destruct hm.
    - destruct (advanceRange_spec lo cur pn r0 Hup Hlast Hpn) as (lo'&r&rest&?&?&?&?&?). by exists lo', r, rest.
    - destruct (Hhm eq_refl) as [-> Hs]. by exists lo, r0, []. }
  exists lo', r, rest. split_and!; try done; [|rewrite (proj2 (Z.ltb_ge _ _) Hr); apply andb_false_r].
  assert (acked cur pn ↔ Smallest r ≤ pn) as Hac.
  { rewrite <-Hq, acked_cons by done. destruct Hup' as [_ Hup'].
    split; [intros [?|Ha]; [lia|]|by left]. pose proof (acked_up _ _ _ Hup' Ha). lia. }
  destruct hm; cbn.
  - destruct (Z.ltb_spec pn (Smallest r)); [rewrite bool_decide_eq_false_2|rewrite bool_decide_eq_true_2]; try done;
      rewrite Hac; lia.
  - destruct (Hhm' eq_refl) as [[= -> ->] Hs]. rewrite bool_decide_eq_true_2; [done|]. apply Hac. lia.
Qed.

Lemma collect_spec full low large hm r0 ps : ∀ hist cur lo acc,
  ascending ps → ranges_up lo cur → last cur = Some r0 → Largest r0 = large →
  (hm = false → cur = [r0] ∧ Smallest r0 = low) →
  (∀ pn, acked full pn → low ≤ pn ≤ large) →
  (∀ p, p ∈ ps → acked full (PacketNumber p) ↔ acked cur (PacketNumber p)) →
  collectAcked hist low large hm cur acc ps = collected full hist acc ps.
Proof.
  induction ps as [|p ps IH]; intros hist cur lo acc Hasc Hup Hlast Hlarge Hhm Hfull Hiff;
    cbn [collectAcked]; [unfold collected; cbn; by rewrite app_nil_r|].
  inversion Hasc as [|? ? Hasc' Hlt]; subst. unfold collected. rewrite filter_cons.
  destruct (Z.ltb_spec (PacketNumber p) low) as [Hlow|Hlow].
  { rewrite decide_False by (intros ?%Hfull; lia). eapply IH; try done. set_solver. }
  destruct (Z.ltb_spec (Largest r0) (PacketNumber p)) as [Hhigh|Hhigh].
  { rewrite decide_False by (intros ?%Hfull; lia).
    assert (filter (λ p, acked full (PacketNumber p)) ps = []) as ->; [|cbn; by rewrite app_nil_r].
    apply filter_none. eapply Forall_impl; [exact Hlt|]. intros q Hq Ha%Hfull. cbn in Hq. lia. }
  destruct (current_range hm low lo cur r0 (PacketNumber p)) as (lo'&r&rest&->&Hup'&Hl'&Hhm'&Hq&->&->); try done.
  assert (∀ hist acc, collectAcked hist low (Largest r0) hm (r :: rest) acc ps = collected full hist acc ps) as IH'.
  { intros hist' acc'. apply (IH hist' (r :: rest) lo' acc'); try done. intros q Hqin.
    rewrite Forall_forall in Hlt. specialize (Hlt q Hqin). rewrite Hq by lia. apply Hiff. set_solver. }
  pose proof (Hiff p ltac:(set_solver)) as Hp.
  destruct (decide (acked full (PacketNumber p))) as [Hac|Hac].
  - rewrite bool_decide_eq_true_2 by (by apply Hp). cbn [negb]. rewrite filter_cons.
    destruct (skippedPacket p) eqn:Hsk; [done|]. cbn [takeAcked Is_true].
    case_decide as Hd; [done|clear Hd].
    destruct (isPathProbePacket p).
    + destruct (RemovePathProbe hist (PacketNumber p)) as [hist' o]. rewrite IH'. unfold collected.
      destruct (filter skippedPacket _); [|done]. destruct (takeAcked hist' _) as [hist'' racked].
      destruct o; cbn; by rewrite ?app_assoc, <-?app_assoc.
    + rewrite IH'. unfold collected. destruct (filter skippedPacket _); [|done].
      destruct (takeAcked hist _) as [hist'' racked]. by rewrite <-app_assoc.
  - rewrite bool_decide_eq_false_2 by (by rewrite <-Hp). cbn [negb]. apply IH'.
Qed.

(** The entry [e] of the history for an acknowledged packet. *)
Definition entry e p : Prop :=
  PacketNumber e = PacketNumber p ∧
  if isPathProbePacket p then isPathProbePacket e = true ∧ weight p = 0 else e = p ∧ skippedPacket p = false.

Lemma entry_frames e p :
  tracked_ok e → entry e p →
  weight e = weight p ∧ packet_frames p = packet_frames e ++ (if isPathProbePacket p then packet_frames p else []).
Proof.
  intros He [_ Hent]. destruct (isPathProbePacket p).
  - destruct Hent as [Hpr Hw]. destruct (irregular_empty e He) as [-> ->]; [|done].
    unfold isRegularPacket. rewrite Hpr. apply andb_false_r.
  - destruct Hent as [-> _]. by rewrite app_nil_r.
Qed.

Lemma acct_Remove x E L h l s e p :
  acct x (E ++ (if isPathProbePacket p then packet_frames p else [])) L h → getPacketNumberSpace h l = Ok s →
  e ∈ Packets (history s) → entry e p →
  ∃ hist, Remove (history s) (PacketNumber p) = Ok hist ∧
    acct (x + weight p) (E ++ packet_frames p) L (set_space h l (set_history s hist)) ∧
    same_space s (set_history s hist) ∧
    (∀ q, q ∈ Packets hist → q ∈ Packets (history s) ∧ PacketNumber q ≠ PacketNumber p) ∧
    (∀ q, q ∈ Packets (history s) → skippedPacket q = false ∨ PacketNumber p < PacketNumber q →
       PacketNumber q ≠ PacketNumber p → q ∈ Packets hist).
Proof.
  intros Ha Hget He Hent. pose proof (acct_space _ _ _ _ _ _ Ha Hget) as Hs.
  pose proof (space_packets s Hs) as Hok. assert (tracked_ok e) as Hoke by (by rewrite Forall_forall in Hok; apply Hok).
  apply list_elem_of_split in He as (ps1&ps2&Hps). pose proof Hent as [Hn _].
  destruct (Packets_order _ _ _ _ (space_hist s Hs) Hps) as [Hbelow Habove].
  destruct (Remove_spec (history s) ps1 e ps2 (space_hist s Hs) Hps) as (hist&ps1'&sk&Hrm&Hinv&->&Hsk&Hps'&Hrest).
  rewrite Hn in Hrm, Hbelow, Habove. exists hist. rewrite Forall_forall in Hbelow, Habove, Hsk.
  assert (same_space s (set_history s hist)) as Hsame by done.
  split_and!; try done.
  - destruct (entry_frames e p Hoke Hent) as [Hw Hf].
    rewrite Hps in Hok. rewrite !Forall_app in Hok. destruct Hok as [[_ Hok] _].
    destruct (skipped_empty sk Hok) as [Hfl Hfr]; [by rewrite Forall_forall|].
    assert (space_inv (set_history s hist)) as Hs'.
    { apply (space_inv_settled s); try done. cbn. intros q. rewrite Hps', Hps. set_solver. }
    set (D := if isPathProbePacket p then packet_frames p else []) in *.
    pose proof (acct_set_space x (x + weight p) (E ++ D) (packet_frames e) [] L h l s (set_history s hist)
      Ha Hget Hs') as Hset. rewrite !app_nil_r in Hset.
    eapply acct_perm; [|done|apply Hset].
    + rewrite Hf. solve_Permutation.
    + unfold space_flight. cbn [history set_history]. rewrite Hps', Hps, !inflight_app, inflight_cons. lia.
    + unfold space_frames. cbn [history set_history]. rewrite Hps', Hps, (proj1 Hrest), !all_frames_app, all_frames_cons, Hfr.
      rewrite ?app_nil_r. solve_Permutation.
  - intros q Hq. rewrite Hps' in Hq. rewrite Hps. split; [set_solver|].
    apply elem_of_app in Hq as [Hq|Hq]; [specialize (Hbelow q ltac:(set_solver))|specialize (Habove q Hq)]; lia.
  - intros q Hq Hcase Hne. rewrite Hps in Hq. rewrite Hps'.
    rewrite !elem_of_app, elem_of_cons in Hq. destruct Hq as [[Hq|Hq]|[->|Hq]]; [set_solver| |done|set_solver].
    specialize (Hsk q Hq). specialize (Hbelow q ltac:(set_solver)). destruct Hcase as [Hc|?]; [by rewrite Hc in Hsk|lia].
Qed.

(** The path probes of the entries [cov]. *)
Definition probe_of (cov probes : list packet) p : Prop :=
  p ∈ probes ∧ ∃ e, e ∈ cov ∧ isPathProbePacket e = true ∧ PacketNumber p = PacketNumber e.

Lemma probe_of_cons top e cov probes probes' o p :
  probes_ok top probes → probes ≡ₚ probes' ++ option_list o →
  (∀ q, o = Some q → q ∈ probes ∧ PacketNumber q = PacketNumber e) →
  (o = None → ∀ q, q ∈ probes → PacketNumber q ≠ PacketNumber e) →
  (∀ e', e' ∈ cov → PacketNumber e < PacketNumber e') →
  probe_of (e :: cov) probes p → o = Some p ∨ probe_of cov probes' p.
Proof.
  intros Hok Hperm Hsome Hnone Hlt [Hp (e'&He'&Hpr&Hn)]. apply elem_of_cons in He' as [->|He'].
  - left. destruct o as [q|]; [|by destruct (Hnone eq_refl p Hp)]. destruct (Hsome q eq_refl) as [Hq Hqn].
    f_equal. eapply probes_unique; [done..|congruence].
  - right. split; [|by exists e']. rewrite Hperm in Hp. apply elem_of_app in Hp as [?|Hp]; [done|].
    destruct o as [q|]; [|by apply not_elem_of_nil in Hp]. apply list_elem_of_singleton in Hp as ->.
    destruct (Hsome q eq_refl) as [_ Hqn]. specialize (Hlt e' He'). lia.
Qed.

Lemma takeAcked_spec top cov : ∀ hist,
  probes_ok top (pathProbePackets hist) → ascending cov → Forall (λ e, skippedPacket e = false) cov →
  ∃ probes r, takeAcked hist cov =
      (mkHistory (packets hist) probes (numOutstanding hist) (highestPacketNumber hist), r) ∧
    pathProbePackets hist ≡ₚ probes ++ filter isPathProbePacket r ∧ ascending r ∧
    (∀ p, p ∈ r → ∃ e, e ∈ cov ∧ entry e p) ∧
    (∀ e, e ∈ cov → isPathProbePacket e = false → e ∈ r) ∧
    (∀ p, probe_of cov (pathProbePackets hist) p → p ∈ r).
Proof.
  induction cov as [|e cov IH]; intros hist Hok Hasc Hsk.
  { exists (pathProbePackets hist), []. cbn. rewrite app_nil_r. unfold probe_of.
    split_and!; [by destruct hist|done|constructor|set_solver..]. }
  inversion Hasc as [|? ? Hasc' Hlt]; subst. apply Forall_cons in Hsk as [He Hsk]. cbn [takeAcked].
  rewrite Forall_forall in Hlt.
  assert (∀ r p, PacketNumber p = PacketNumber e → ascending r → (∀ p, p ∈ r → ∃ e, e ∈ cov ∧ entry e p) →
    ascending (p :: r)) as Hcons.
  { intros r p Hp Hr Hent. constructor; [done|]. apply Forall_forall. intros q (e'&He'&Hq)%Hent.
    specialize (Hlt e' He'). destruct Hq as [Hq _]. lia. }
  destruct (isPathProbePacket e) eqn:Hpr.
  - unfold RemovePathProbe. destruct (removeProbe_perm (pathProbePackets hist) (PacketNumber e)) as ([o ps]&->&Hperm&Hsome&Hnone).
    cbn in Hperm, Hsome, Hnone. set (hist1 := mkHistory _ _ _ _).
    destruct (IH hist1) as (probes&r&->&Hprobes&Hr&Hent&Hreg&Hpo); try done; [by eapply probes_ok_perm|].
    change (pathProbePackets hist1) with ps in Hprobes, Hpo.
    pose proof (λ p, probe_of_cons top e cov _ ps o p Hok Hperm Hsome Hnone Hlt) as Hpc.
    destruct o as [p|]; cbn [option_list app]; [|exists probes, r; split_and!; try done].
    + destruct (Hsome p eq_refl) as [Hin Hpn].
      assert (probe_ok p) as Hp by (destruct Hok as [Hall _]; rewrite Forall_forall in Hall; by apply Hall).
      exists probes, (p :: r). pose proof Hp as (Hpp&Hinc&_). split_and!; try done.
      * rewrite filter_cons, decide_True by (by rewrite Hpp). rewrite Hperm, Hprobes. cbn. solve_Permutation.
      * by apply Hcons.
      * intros q [->|Hq]%elem_of_cons; [|destruct (Hent q Hq) as (e'&?&?); exists e'; set_solver].
        exists e. split; [set_solver|]. split; [done|]. unfold weight. by rewrite Hpp, Hinc.
      * intros e' [->|?]%elem_of_cons ?; [congruence|]. right. by apply Hreg.
      * intros q [[= <-]|Hq]%Hpc; [by left|]. right. by apply Hpo.
    + rewrite Hperm, Hprobes. cbn. by rewrite app_nil_r.
    + intros q (e'&?&?)%Hent. exists e'. set_solver.
    + intros e' [->|?]%elem_of_cons ?; [congruence|]. by apply Hreg.
    + intros q [?|Hq]%Hpc; [done|by apply Hpo].
  - destruct (IH hist) as (probes&r&->&Hprobes&Hr&Hent&Hreg&Hpo); try done. exists probes, (e :: r). split_and!; try done.
    + rewrite filter_cons, Hpr. by case_decide.
    + by apply Hcons.
    + intros q [->|Hq]%elem_of_cons; [|destruct (Hent q Hq) as (e'&?&?); exists e'; set_solver].
      exists e. split; [set_solver|]. split; [done|]. by rewrite Hpr.
    + intros e' [->|?]%elem_of_cons ?; [left|]. right. by apply Hreg.
    + intros q [Hq (e'&[->|He']%elem_of_cons&Hp'&Hn)]; [congruence|]. right. apply Hpo. split; [done|by exists e'].
Qed.

(** Only the packets that are acknowledged, and skipped numbers, leave the space. *)
Definition removed_from s s' ps : Prop :=
  (∀ q, q ∈ Packets (history s') → q ∈ Packets (history s) ∧ PacketNumber q ∉ PacketNumber <$> ps) ∧
  (∀ q, q ∈ Packets (history s) → skippedPacket q = false → PacketNumber q ∉ PacketNumber <$> ps →
     q ∈ Packets (history s')).

Lemma processAcked_spec E L l ps : ∀ x h s,
  acct x (E ++ all_frames (filter isPathProbePacket ps)) L h → getPacketNumberSpace h l = Ok s → ascending ps →
  (∀ p, p ∈ ps → ∃ e, e ∈ Packets (history s) ∧ entry e p) →
  ∃ h' s', processAcked h l ps = Ok h' ∧ acct (x + inflight ps) E L h' ∧ getPacketNumberSpace h' l = Ok s' ∧
    same_space s s' ∧ removed_from s s' ps ∧ events h' = events h ++ (OnAcked <$> all_frames ps) ∧
    rttStats h' = rttStats h.
Proof.
  induction ps as [|p ps IH]; intros x h s Ha Hget Hasc Hent; cbn [processAcked].
  { exists h, s. cbn in *. rewrite Z.add_0_r, !app_nil_r in *. split_and!; try done. split; set_solver. }
  inversion Hasc as [|? ? Hasc' Hlt]; subst. rewrite Forall_forall in Hlt.
  set (h1 := if negb _ && _ then set_lowestNotConfirmedAcked h _ else h).
  assert (same_acct h h1) as Hh1 by (unfold h1; by destruct (_ && _)).
  destruct (Hent p) as (e&He&Hep); [set_solver|].
  destruct (acct_Remove x (E ++ all_frames (filter isPathProbePacket ps)) L h1 l s e p)
    as (hist&Hrm&Ha'&Hsame&Hsub&Hkeep); try done.
  { eapply acct_ext, acct_perm, Ha; [done| |done]. rewrite filter_cons.
    destruct (isPathProbePacket p); case_decide; try done; rewrite ?all_frames_cons, ?app_nil_r; solve_Permutation. }
  { by rewrite (get_ext _ _ _ Hh1). }
  set (h2 := set_events h1 _).
  assert (getPacketNumberSpace h2 l = Ok s) as -> by (rewrite <-Hget, <-(get_ext _ _ _ Hh1); by destruct l).
  cbn [mbind result_bind]. rewrite Hrm. cbn [mbind result_bind].
  destruct (IH (x + weight p) (set_space h2 l (set_history s hist)) (set_history s hist))
    as (h'&s'&Hrun&Ha''&Hget'&Hsame'&[Hsub' Hkeep']&He'&Hb').
  - apply (acct_events _ _ _ _ _ OnAcked) in Ha'; [|done]. eapply acct_ext; [|exact Ha'].
    unfold packet_frames. rewrite fmap_app. by destruct l.
  - apply (get_set_space _ _ s). by rewrite <-Hget, <-(get_ext _ _ _ Hh1); destruct l.
  - done.
  - intros q Hq. destruct (Hent q) as (e'&He'&Hq'); [set_solver|]. exists e'. split; [|done]. cbn.
    pose proof (Hlt q Hq). destruct Hq' as [Hn _]. apply Hkeep; [done|right; lia|lia].
  - exists h', s'. cbn [history set_history] in *.
    rewrite inflight_cons, all_frames_cons. split_and!; try done.
    + by rewrite Z.add_assoc.
    + by eapply same_space_trans.
    + split; [intros q [[? ?]%Hsub ?]%Hsub'; set_solver|]. intros q Hq Hsk Hn. cbn in Hn.
      apply Hkeep'; [apply Hkeep; [done|by left|set_solver]|done|set_solver].
    + rewrite He', events_set_space. unfold h2. cbn. destruct Hh1 as (_&_&_&_&->).
      unfold packet_frames. by rewrite !fmap_app, <-!app_assoc.
    + rewrite Hb'. transitivity (rttStats h1); [by destruct l|unfold h1; by destruct (_ && _)].
Qed.

(** The frame that [collectAcked] looks at. *)
Lemma collect_frame ack (hist : sentPacketHistory F) :
  ranges_ok (AckRanges ack) → hist_inv hist →
  ∃ low large, LowestAcked ack = Ok low ∧ AckFrame.LargestAcked ack = Ok large ∧
    acked (AckRanges ack) large ∧
    collectAcked hist low large (HasMissingRanges ack) (reverse (AckRanges ack)) [] (Packets hist) =
    collected (AckRanges ack) hist [] (Packets hist).
Proof.
  intros Hok Hinv. pose proof (proj1 (ranges_ok_below _) Hok) as [Hne Hb].
  set (rs := AckRanges ack) in *. destruct rs as [|r rs'] eqn:Hrs; [done|]. rewrite <-Hrs in *.
  destruct (last rs) as [rl|] eqn:Hlast; [|by rewrite Hrs, last_cons in Hlast; destruct (last rs')].
  assert (LowestAcked ack = Ok (Smallest rl)) as Hlow.
  { unfold LowestAcked. fold rs. apply last_Some in Hlast as [l' Hl']. rewrite Hl', len_app, len_cons, len_nil.
    rewrite idx_middle by lia. done. }
  assert (AckFrame.LargestAcked ack = Ok (Largest r)) as Hlarge by (unfold AckFrame.LargestAcked; fold rs; by rewrite Hrs).
  assert (acked rs (Largest r)) as Hacked.
  { exists r. rewrite Hrs. split; [set_solver|]. rewrite Hrs in Hok. cbn in Hok. lia. }
  exists (Smallest rl), (Largest r). split_and!; try done.
  pose proof (ranges_up_reverse _ _ Hb) as Hup.
  apply (collect_spec rs _ _ _ r _ _ _ 0); try done.
  - by apply Packets_ascending.
  - rewrite last_reverse, Hrs. done.
  - unfold HasMissingRanges. fold rs. rewrite Hrs, len_cons. intros Hmiss%Z.ltb_ge.
    destruct rs'; [|len_lia]. rewrite Hrs in Hlast. injection Hlast as ->. done.
  - intros pn Hpn. split.
    + apply acked_reverse in Hpn. apply last_Some in Hlast as [l' Hl']. rewrite Hl', reverse_snoc in Hup, Hpn.
      apply (acked_up (Smallest rl) (rl :: reverse l')); [|done]. cbn in *. intuition lia.
    + rewrite Hrs in Hok, Hpn. cbn in Hok. destruct Hok as (?&_&Hb').
      apply acked_cons in Hpn as [?|(r'&Hr'&?)]; [lia|].
      apply ranges_below_Forall in Hb'. rewrite Forall_forall in Hb'. specialize (Hb' r' Hr'). lia.
  - intros p _. by rewrite acked_reverse.
Qed.

Lemma onPacketsAcked_spec E L prior t ps : ∀ x h,
  acct x E L h → inflight ps ≤ x → Forall (λ p, 0 ≤ weight p) ps →
  ∃ h', onPacketsAcked h prior t ps = Ok h' ∧ acct (x - inflight ps) E L h' ∧
    (∀ l, getPacketNumberSpace h' l = getPacketNumberSpace h l) ∧ events h' = events h.
Proof.
  induction ps as [|p ps IH]; intros x h Ha Hle Hw; cbn [onPacketsAcked].
  { exists h. cbn. by rewrite Z.sub_0_r. }
  apply Forall_cons in Hw as [Hp Hw]. rewrite inflight_cons in *.
  assert (0 ≤ inflight ps) by (clear -Hw; induction Hw; [done|]; rewrite inflight_cons; lia).
  set (h1 := if includedInBytesInFlight p && _ then _ else h).
  assert (same_acct h h1) as Hh1 by (unfold h1; by destruct (_ && _)).
  destruct (acct_remove x E L h1 p) as [-> Ha1]; [by eapply acct_ext|lia|]. cbn [mbind result_bind].
  destruct (IH (x - weight p) _ Ha1) as (h'&Hrun&Ha'&Hget&He); [lia|done|].
  exists h'. split_and!; try done.
  - by replace (x - (weight p + inflight ps)) with (x - weight p - inflight ps) by lia.
  - intros l. rewrite Hget, <-(get_ext _ _ _ Hh1). by destruct l.
  - rewrite He. apply Hh1.
Qed.

Lemma entry_weight e p : tracked_ok e → entry e p → 0 ≤ weight p.
Proof.
  intros He [_ Hent]. destruct (isPathProbePacket p); [lia|]. destruct Hent as [<- _]. by apply weight_nonneg.
Qed.

(** The packets of a space that an ACK frame covers. *)
Definition covered ack s : list packet := filter (λ p, acked (AckRanges ack) (PacketNumber p)) (Packets (history s)).

(** [ps] are the packets that are acknowledged. *)
Record acknowledges ack s s' ps : Prop := {
  acked_order : ascending ps;
  acked_entries : ∀ p, p ∈ ps → ∃ e, e ∈ covered ack s ∧ entry e p;
  acked_all : ∀ e, e ∈ covered ack s → isPathProbePacket e = false → e ∈ ps;
  acked_path : ∀ p, probe_of (covered ack s) (pathProbePackets (history s)) p → p ∈ ps;
  acked_rest : removed_from s s' ps;
  acked_probes : pathProbePackets (history s) ≡ₚ pathProbePackets (history s') ++ filter isPathProbePacket ps;
  acked_same : pns s' = pns s ∧ largestAcked s' = largestAcked s ∧ largestSent s' = largestSent s ∧
    highestPacketNumber (history s') = highestPacketNumber (history s);
}.

Lemma acked_weights x E L h l s s' ack ps :
  acct x E L h → getPacketNumberSpace h l = Ok s → acknowledges ack s s' ps → Forall (λ p, 0 ≤ weight p) ps.
Proof.
  intros Ha Hget Hack. pose proof (space_packets s (acct_space _ _ _ _ _ _ Ha Hget)) as Hok.
  rewrite Forall_forall in *. intros p (e&He&Hent)%(acked_entries _ _ _ _ Hack).
  apply list_elem_of_filter in He as [_ He]. by apply (entry_weight e); auto.
Qed.

Lemma detectAndRemove_spec E L h l s ack :
  acct 0 E L h → getPacketNumberSpace h l = Ok s → ranges_ok (AckRanges ack) →
  match filter skippedPacket (covered ack s) with
  | p :: _ => detectAndRemoveAckedPackets h ack l = Err (skipped_error p)
  | [] => ∃ h' s' ps, detectAndRemoveAckedPackets h ack l = Ok (h', ps) ∧ acct (inflight ps) E L h' ∧
      getPacketNumberSpace h' l = Ok s' ∧ acknowledges ack s s' ps ∧
      events h' = events h ++ (OnAcked <$> all_frames ps) ∧ rttStats h' = rttStats h
  end.
Proof.
  intros Ha Hget Hok. pose proof (acct_space _ _ _ _ _ _ Ha Hget) as Hs.
  destruct (collect_frame ack (history s) Hok (space_hist s Hs)) as (low&large&Hlow&Hlarge&_&Hcol).
  unfold detectAndRemoveAckedPackets. rewrite Hget, Hlow, Hlarge. cbn [mbind result_bind]. rewrite Hcol.
  unfold collected. fold (covered ack s). set (cov := covered ack s).
  assert (∀ e, e ∈ cov → e ∈ Packets (history s)) as Hcov by (intros e [_ ?]%list_elem_of_filter; done).
  destruct (filter skippedPacket cov) as [|p ps] eqn:Hsk; [|done].
  assert (Forall (λ e, skippedPacket e = false) cov) as Hnsk.
  { apply Forall_forall. intros e He. destruct (skippedPacket e) eqn:Hse; [|done].
    exfalso. revert He. apply (filter_nil_not_elem_of (λ p, skippedPacket p)); [done|by rewrite Hse]. }
  destruct (takeAcked_spec (highestPacketNumber (history s)) cov (history s)) as (probes&r&->&Hpr&Hasc&Hent&Hall&Hpath);
    [apply Hs| |done|].
  { apply ascending_filter. exact (Packets_ascending _ (space_hist s Hs)). }
  cbn [mbind result_bind app]. set (hist := mkHistory _ _ _ _).
  destruct (processAcked_spec E L l r 0 (set_space h l (set_history s hist)) (set_history s hist))
    as (h'&s'&->&Ha'&Hget'&Hsame&Hrem&He&Hrtt).
  - rewrite <-(app_nil_r L). apply acct_probes; try done.
    + eapply probes_ok_perm; [exact Hpr|apply Hs].
    + by rewrite app_nil_r, (all_frames_perm _ _ Hpr), all_frames_app.
  - by eapply get_set_space.
  - done.
  - intros p (e&?&?)%Hent. exists e. split; [by apply Hcov|done].
  - cbn [mbind result_bind]. exists h', s', r. rewrite events_set_space in He. split_and!; try done; [|rewrite Hrtt; by destruct l].
    destruct Hsame as ([Hp1 Hp2]&?&?&?&?). split; try done. by rewrite Hp1.
Qed.

Lemma updateRTT_same h ack large l t ps : same_acct h (updateRTT h ack large l t ps).
Proof. unfold updateRTT. destruct (last ps); [|done]. by destruct (_ && _). Qed.

Lemma updateRTT_rtt h h' ack large l t ps :
  rttStats h' = rttStats h → rttStats (updateRTT h' ack large l t ps) = rttStats (updateRTT h ack large l t ps).
Proof. unfold updateRTT. intros Heq. destruct (last ps); [|done]. destruct (_ && _); cbn; by rewrite ?Heq. Qed.

Lemma ackedECN_same h ack large old l prior ps :
  same_acct h (ackedECN h ack large old l prior ps) ∧ rttStats (ackedECN h ack large old l prior ps) = rttStats h.
Proof.
  unfold ackedECN. destruct l, (ecn_tracker h); try done. destruct (_ <? _); [|done].
  destruct (HandleNewlyAcked _ _ _ _ _) as [e' [|]]; done.
Qed.

Lemma completeValidation_same h l t :
  same_acct h (completeAddressValidation h l t) ∧ rttStats (completeAddressValidation h l t) = rttStats h.
Proof. unfold completeAddressValidation. by destruct (_ && _ && _). Qed.

(** [detectLostPathProbes] for 1-RTT packets. *)
Lemma lostProbes_level x E L h l s now :
  acct x E L h → getPacketNumberSpace h l = Ok s →
  ∃ h' s', (if bool_decide (l = Encryption1RTT) then detectLostPathProbes h now else Ok h) = Ok h' ∧
    acct x E L h' ∧ getPacketNumberSpace h' l = Ok s' ∧ Packets (history s') = Packets (history s) ∧
    largestAcked s' = largestAcked s ∧
    events h' = events h ++
      (OnLost <$> all_frames (if bool_decide (l = Encryption1RTT) then lost_probes now s else [])).
Proof.
  intros Ha Hget. case_bool_decide as Hl.
  - subst l. injection Hget as <-. destruct (detectLostProbes_spec x E L h now Ha) as (h'&hist&?&?&Happ&?&?&?&?&?).
    exists h', (appDataPackets h'). rewrite Happ. cbn. rewrite Happ. done.
  - exists h, s. cbn. rewrite app_nil_r. done.
Qed.

Definition unsent_error : error :=
  TransportError ProtocolViolation 0 (ErrorString "received ACK for an unsent packet" []).

(** What a valid ACK frame that acknowledges the packets [ps] does to a space. *)
Definition ack_effect h h' ack large l t s s1 s' ps : Prop :=
  let la := Z.max (largestAcked s) large in
  let lst := t - getLossDelay (updateRTT h ack large l t ps) in
  largestAcked s' = la ∧
  Packets (history s') = filter (λ p, lost_now la lst p = false) (Packets (history s1)) ∧
  events h' = events h ++ (OnAcked <$> all_frames ps) ++
    (OnLost <$> all_frames (filter (lost_now la lst) (Packets (history s1)))) ++
    (OnLost <$> all_frames (if bool_decide (l = Encryption1RTT) then lost_probes t s1 else [])).

Lemma ReceivedAck_tail {A} (k : handler → res A) E L h h1 ack large l t s s1 prior ps :
  acct (inflight ps) E L h1 → getPacketNumberSpace h1 l = Ok s1 → 0 ≤ t → ps ≠ [] →
  acknowledges ack s s1 ps → Forall (λ p, 0 ≤ weight p) ps →
  events h1 = events h ++ (OnAcked <$> all_frames ps) → rttStats h1 = rttStats h →
  ∃ h' s', (let h := updateRTT h1 ack large l t ps in
      s ← getPacketNumberSpace h l;
      let h := ackedECN h ack large (largestAcked s) l prior ps in
      let h := set_space h l (set_largestAcked s (Z.max (largestAcked s) large)) in
      h ← detectLostPackets h t l;
      h ← (if bool_decide (l = Encryption1RTT) then detectLostPathProbes h t else Ok h);
      h ← onPacketsAcked h prior t ps; k h) = k h' ∧
    acct 0 E L h' ∧ getPacketNumberSpace h' l = Ok s' ∧ ack_effect h h' ack large l t s s1 s' ps.
Proof.
  intros Ha Hget Ht Hne Hack Hw He Hrtt. pose proof (acked_same _ _ _ _ Hack) as (_&Hla&_).
  assert (0 ≤ inflight ps) as Hx by (clear -Hw; induction Hw; [done|]; rewrite inflight_cons; lia).
  pose proof (updateRTT_same h1 ack large l t ps) as Hs2. set (h2 := updateRTT h1 ack large l t ps) in *.
  cbv zeta. rewrite (get_ext _ _ _ Hs2), Hget. cbn [mbind result_bind].
  destruct (ackedECN_same h2 ack large (largestAcked s1) l prior ps) as [Hs3 Hr3].
  set (h3 := ackedECN h2 _ _ _ _ _ _) in *. pose proof (same_acct_trans _ _ _ Hs2 Hs3) as Hs13.
  assert (getPacketNumberSpace h3 l = Ok s1) as Hg3 by (by rewrite (get_ext _ _ _ Hs13)).
  set (s2 := set_largestAcked s1 _). set (h4 := set_space h3 l s2).
  assert (acct (inflight ps) E L h4) as Ha4.
  { eapply acct_set_fields; [by eapply acct_ext|done..]. }
  destruct (detectLost_spec (inflight ps) E L h4 l s2 t Hx Ha4) as (h5&s5&->&Ha5&Hg5&Hsame5&Hp5&He5&_);
    [by eapply get_set_space|done|]. cbn [mbind result_bind].
  destruct (lostProbes_level (inflight ps) E L h5 l s5 t Ha5 Hg5) as (h6&s6&->&Ha6&Hg6&Hp6&Hla6&He6).
  cbn [mbind result_bind].
  destruct (onPacketsAcked_spec E L prior t ps (inflight ps) h6 Ha6) as (h7&->&Ha7&Hg7&He7); [lia|done|].
  rewrite Z.sub_diag in Ha7. exists h7, s6. rewrite Hg7. split_and!; try done.
  assert (getLossDelay h4 = getLossDelay (updateRTT h ack large l t ps)) as Hdelay.
  { unfold getLossDelay. rewrite <-(updateRTT_rtt _ _ ack large l t ps Hrtt).
    fold h2. replace (rttStats h4) with (rttStats h3) by (by destruct l). by rewrite Hr3. }
  destruct Hsame5 as ([Hpr5 _]&_&Hla5&_). unfold ack_effect. rewrite <-Hdelay, <-Hla. split_and!.
  - by rewrite Hla6, Hla5.
  - by rewrite Hp6, Hp5.
  - rewrite He7, He6, He5. unfold h4, lost_probes. rewrite events_set_space, Hpr5.
    destruct Hs13 as (_&_&_&_&->). by rewrite He, <-!app_assoc.
Qed.

Lemma ReceivedAck_spec E L h l s ack t :
  acct 0 E L h → getPacketNumberSpace h l = Ok s → ranges_ok (AckRanges ack) → 0 ≤ t →
  ∃ large, AckFrame.LargestAcked ack = Ok large ∧
  if largestSent s <? large then ReceivedAck h ack l t = Err unsent_error else
  match filter skippedPacket (covered ack s) with
  | p :: _ => ReceivedAck h ack l t = Err (skipped_error p)
  | [] => ∃ h' s1 s' ps,
      ReceivedAck h ack l t = Ok (h', existsb (λ p, bool_decide (pkt_EncryptionLevel p = Encryption1RTT)) ps) ∧
      acct 0 E L h' ∧ getPacketNumberSpace h' l = Ok s' ∧ acknowledges ack s s1 ps ∧
      if decide (ps = []) then s' = s1 ∧ events h' = events h
      else ack_effect h h' ack large l t s s1 s' ps
  end.
Proof.
  intros Ha Hget Hok Ht. pose proof (acct_space _ _ _ _ _ _ Ha Hget) as Hs.
  destruct (collect_frame ack (history s) Hok (space_hist s Hs)) as (low&large&_&Hlarge&_).
  exists large. split; [done|]. unfold ReceivedAck. rewrite Hget, Hlarge. cbn [mbind result_bind].
  destruct (largestSent s <? large); [done|].
  destruct (completeValidation_same h l t) as [Hh0 Hr0]. set (h0 := completeAddressValidation h l t) in *.
  assert (getPacketNumberSpace h0 l = Ok s) as Hget0 by (by rewrite (get_ext _ _ _ Hh0)).
  pose proof (acct_ext _ _ _ _ _ Hh0 Ha) as Ha0.
  pose proof (detectAndRemove_spec E L h0 l s ack Ha0 Hget0 Hok) as Hdet.
  destruct (filter skippedPacket (covered ack s)) as [|p rest]; [|by rewrite Hdet].
  destruct Hdet as (h1&s1&ps&->&Ha1&Hg1&Hack&He1&Hr1). cbn [mbind result_bind].
  assert (events h1 = events h ++ (OnAcked <$> all_frames ps)) as He1'
    by (rewrite He1; destruct Hh0 as (_&_&_&_&->); done).
  pose proof (acked_weights _ _ _ _ _ _ _ _ _ Ha0 Hget0 Hack) as Hw.
  destruct (decide (ps = [])) as [->|Hne].
  - exists h1, s1, s1, []. cbn in *. rewrite app_nil_r in He1'. split_and!; try done.
  - rewrite (proj2 (Z.eqb_neq _ _)) by (destruct ps; [done|len_lia]).
    edestruct (ReceivedAck_tail (A:=handler * bool)) as (h'&s'&Hrun&Ha'&Hg'&Heff);
      [exact Ha1|exact Hg1|exact Ht|exact Hne|exact Hack|exact Hw|exact He1'|by rewrite Hr1, Hr0|].
    eexists _, s1, s', ps. split; [etransitivity; [exact Hrun|reflexivity]|].
    set (h2 := if peerCompletedAddressValidation h' then _ else h').
    assert (same_acct h' (setLossDetectionTimer (set_numProbes h2 0) t)) as Hsame
      by (unfold h2; by destruct (peerCompletedAddressValidation h')).
    split_and!; [by eapply acct_ext|by rewrite (get_ext _ _ _ Hsame)|done|].
    rewrite decide_False by done. destruct Heff as (?&?&?). split_and!; try done.
    by destruct Hsame as (_&_&_&_&->).
Qed.

(** ** Sending *)
Definition can_pop s : Prop :=
  highestPacketNumber (history s) = InvalidPacketNumber ∨ highestPacketNumber (history s) = next_of (pns s) - 1.
Definition can_send s (pn : Z) : Prop :=
  0 ≤ pn ∧ pn = next_of (pns s) - 1 ∧ highestPacketNumber (history s) ≠ pn.

Lemma can_send_next s pn : space_inv s → can_send s pn → next_number (history s) pn.
Proof. intros [_ _ _ [? [?|[?|?]]] _] (?&?&?); split; try done; [by left|lia|right; lia]. Qed.

Lemma skip_next s pn : space_inv s → can_pop s → pn = next_of (pns s) → next_number (history s) pn.
Proof. intros [_ _ _ [? _] _] [?|?] ->; (split; [done|]); [by left|right; lia]. Qed.

Lemma probes_ok_top top top' ps : top ≤ top' → probes_ok top ps → probes_ok top' ps.
Proof. intros ? [Hall ?]. split; [|done]. eapply Forall_impl; [done|]. cbn. intuition lia. Qed.

Lemma next_number_above (hist : sentPacketHistory F) pn :
  hist_inv hist → next_number hist pn → highestPacketNumber hist < pn.
Proof. intros _ [? [->| ->]]; unfold InvalidPacketNumber in *; lia. Qed.

(** A number is recorded as skipped. *)
Lemma acct_skip x E L h l s s1 pn :
  acct x E L h → getPacketNumberSpace h l = Ok s → history s1 = history s →
  lastAckElicitingPacketTime s1 = lastAckElicitingPacketTime s →
  next_number (history s) pn → numbers_ok pn (next_of (pns s1)) →
  ∃ hist, SkippedPacket (history s1) pn = Ok hist ∧ highestPacketNumber hist = pn ∧
    acct x E L (set_space h l (set_history s1 hist)).
Proof.
  intros Ha Hget Hs1 Hl1 Hnext Hnum. destruct (acct_space _ _ _ _ _ _ Ha Hget) as [Hh Hp Hpr _ Ht].
  rewrite Hs1. destruct (SkippedPacket_spec (history s) pn Hh Hnext) as (hist&->&Hh'&Hps&Hprobes&Htop).
  exists hist. split; [done|]. split; [done|].
  pose proof (acct_set_space x x E [] [] L h l s (set_history s1 hist) Ha Hget) as Hset.
  rewrite !app_nil_r in Hset. apply Hset; clear Hset.
  - split; cbn; rewrite ?Htop; try done.
    + rewrite Hps. apply Forall_app. split; [done|]. by apply Forall_singleton.
    + rewrite Hprobes. eapply probes_ok_top; [|done]. pose proof (next_number_above _ _ Hh Hnext). lia.
    + rewrite Hps, Hl1. apply Forall_app. split; [done|]. by apply Forall_singleton.
  - unfold space_flight. cbn [history set_history]. rewrite Hps, inflight_app. cbn. lia.
  - unfold space_frames. cbn [history set_history]. rewrite Hps, Hprobes, all_frames_app. cbn. by rewrite app_nil_r.
Qed.

Lemma PopPacketNumber_spec x E L h l s random :
  acct x E L h → getPacketNumberSpace h l = Ok s → can_pop s →
  ∃ h' s' pn, PopPacketNumber h l random = Ok (h', pn) ∧ acct x E L h' ∧ getPacketNumberSpace h' l = Ok s' ∧
    can_send s' pn ∧ (∃ s1, h' = set_space h l s1).
Proof.
  intros Ha Hget Hpop. unfold PopPacketNumber. rewrite Hget. cbn [mbind result_bind].
  destruct (Pop (pns s) random) as [g [skipped pn]] eqn:HP. destruct (Pop_generates _ _ _ _ _ HP) as (_&Hpn&Hg).
  pose proof (acct_space _ _ _ _ _ _ Ha Hget) as Hs. pose proof (space_numbers s Hs) as [Hn0 _].
  destruct skipped.
  - destruct (acct_skip x E L h l s (set_pns s g) (pn - 1) Ha Hget eq_refl eq_refl) as (hist&Hsk&Htop&Ha').
    + apply (skip_next s); try done. lia.
    + cbn. split; lia.
    + cbn [history set_pns] in Hsk. cbn [mbind result_bind history set_pns]. rewrite Hsk. cbn [mbind result_bind].
      eexists _, _, pn. split; [done|]. split; [done|]. split; [by eapply get_set_space|].
      split; [|by eexists]. split; cbn; [lia|]. rewrite Htop. split; lia.
  - cbn [mbind result_bind]. eexists _, _, pn. split; [done|]. split.
    + pose proof (acct_set_space x x E [] [] L h l s (set_pns s g) Ha Hget) as Hset.
      rewrite !app_nil_r in Hset. apply Hset; [|unfold space_flight; cbn; lia|done].
      destruct Hs as [Hh Hp Hpr _ Ht]. split; try done. cbn. split; [lia|].
      destruct Hpop as [?|?]; [by left|right; right; lia].
    + split; [by eapply get_set_space|]. split; [|by eexists]. split; cbn; [lia|]. split; [lia|].
      destruct Hpop as [Heq|Heq]; rewrite Heq; unfold InvalidPacketNumber in *; lia.
Qed.

(** What the connection passes to [SentPacket]. *)
Definition sends_ok h l (t : Z) (streamFrames frames : list (Frame F)) (ecn : ECN) (size : Z) (probe : bool) : Prop :=
  0 < t ∧ 0 ≤ size ∧ (probe = true → streamFrames = [] ∧ Forall (λ f, Handler f = true) frames) ∧
  (l = Encryption1RTT → ecn_tracker h ≠ None → ecn = ECNNon ∨ ecn = Protocol.ECT0 ∨ ecn = Protocol.ECT1).

Lemma sentECN_same h l pn ecn :
  (l = Encryption1RTT → ecn_tracker h ≠ None → ecn = ECNNon ∨ ecn = Protocol.ECT0 ∨ ecn = Protocol.ECT1) →
  ∃ h', sentECN h l pn ecn = Ok h' ∧ same_acct h h'.
Proof.
  unfold sentECN. intros He. destruct l, (ecn_tracker h); try (by exists h).
  destruct He as [->|[->| ->]]; try done; cbn; by eexists.
Qed.

Lemma hd_packet_inv s s' (hist : sentPacketHistory F) :
  space_inv s → hist_inv hist → Forall tracked_ok (Packets hist) →
  probes_ok (highestPacketNumber hist) (pathProbePackets hist) →
  history s' = hist → pns s' = pns s → highestPacketNumber hist = next_of (pns s) - 1 →
  elicited (lastAckElicitingPacketTime s') (Packets hist) → space_inv s'.
Proof.
  intros [_ _ _ [? _] _] Hh Hp Hpr <- Hpns Htop Ht. split; try done. rewrite Hpns. split; [done|]. right. by left.
Qed.

Lemma acct_sent x y E N L h l s s' p hist :
  acct x E L h → getPacketNumberSpace h l = Ok s → can_send s (PacketNumber p) →
  history s' = hist → pns s' = pns s →
  hist_inv hist → highestPacketNumber hist = PacketNumber p → y = x - (inflight (Packets hist) - space_flight s) →
  Forall tracked_ok (Packets hist) → probes_ok (PacketNumber p) (pathProbePackets hist) →
  all_frames (Packets hist) ++ all_frames (pathProbePackets hist) ≡ₚ space_frames s ++ N →
  elicited (lastAckElicitingPacketTime s') (Packets hist) → acct y E (L ++ N) (set_space h l s').
Proof.
  intros Ha Hget (?&Hpn&_) Hhist Hpns Hh Htop -> Hp Hpr HN Ht.
  pose proof (acct_space _ _ _ _ _ _ Ha Hget) as Hs.
  pose proof (acct_set_space x (x - (inflight (Packets hist) - space_flight s)) E [] N L h l s s' Ha Hget) as Hset.
  rewrite !app_nil_r in Hset. apply Hset; clear Hset.
  - apply (hd_packet_inv s s' hist); try done; rewrite Htop; done.
  - unfold space_flight at 3. rewrite Hhist. lia.
  - unfold space_frames at 2. by rewrite Hhist, HN.
Qed.

Lemma probes_ok_snoc top pn ps p :
  probes_ok top ps → top < pn → probe_ok p → PacketNumber p = pn → probes_ok pn (ps ++ [p]).
Proof.
  intros Hok Hlt Hp Hpn. pose proof (probes_ok_top top pn ps ltac:(lia) Hok) as [Hall Hnd]. split.
  - apply Forall_app. split; [done|]. apply Forall_singleton. split; [done|lia].
  - rewrite fmap_app. apply NoDup_app. split_and!; [done| |apply NoDup_singleton].
    intros n (q&->&Hq)%list_elem_of_fmap. cbn. rewrite list_elem_of_singleton.
    destruct Hok as [Hall' _]. rewrite Forall_forall in Hall'. specialize (Hall' q Hq). lia.
Qed.

Lemma sent_probe E L h l s s1 (p : packet) :
  acct 0 E L h → getPacketNumberSpace h l = Ok s → history s1 = history s → pns s1 = pns s →
  lastAckElicitingPacketTime s1 = lastAckElicitingPacketTime s → can_send s (PacketNumber p) → probe_ok p →
  ∃ hist, SentPathProbePacket (history s1) p = Ok hist ∧ highestPacketNumber hist = PacketNumber p ∧
    acct 0 E (L ++ packet_frames p) (set_space h l (set_history s1 hist)).
Proof.
  intros Ha Hget Hs1 Hpns Hl1 Hsend Hp. pose proof (acct_space _ _ _ _ _ _ Ha Hget) as Hs.
  pose proof (can_send_next s _ Hs Hsend) as Hnext. pose proof Hs as [Hh Hps Hpr Hn Ht]. rewrite Hs1.
  destruct (SentPathProbe_spec (history s) p Hh Hnext) as (hist&->&Hh'&Hps'&Hpr'&Htop).
  exists hist. split; [done|]. split; [done|]. eapply (acct_sent 0 0 E _ L h l s _ p hist); try done.
  - rewrite Hps', inflight_app. unfold space_flight. cbn. lia.
  - rewrite Hps'. apply Forall_app. split; [done|]. by apply Forall_singleton.
  - rewrite Hpr'. eapply probes_ok_snoc; [done|by apply next_number_above|done..].
  - rewrite Hps', Hpr', !all_frames_app. unfold space_frames, all_frames at 2 4. cbn. rewrite !app_nil_r. by rewrite <-app_assoc.
  - cbn. rewrite Hps', Hl1. apply Forall_app. split; [done|]. by apply Forall_singleton.
Qed.

Lemma sent_regular E L h l s s1 (p : packet) :
  acct (Length_ p) E L h → getPacketNumberSpace h l = Ok s → history s1 = history s → pns s1 = pns s →
  can_send s (PacketNumber p) → tracked_ok p → isRegularPacket p = true → 0 < lastAckElicitingPacketTime s1 →
  ∃ hist, SentAckElicitingPacket (history s1) p = Ok hist ∧ highestPacketNumber hist = PacketNumber p ∧
    acct 0 E (L ++ packet_frames p) (set_space h l (set_history s1 hist)).
Proof.
  intros Ha Hget Hs1 Hpns Hsend Hp Hreg Hl1. pose proof (acct_space _ _ _ _ _ _ Ha Hget) as Hs.
  pose proof (can_send_next s _ Hs Hsend) as Hnext. pose proof Hs as [Hh Hps Hpr Hn Ht]. rewrite Hs1.
  destruct (SentAckEliciting_spec (history s) p Hh Hnext) as (hist&->&Hh'&Hps'&Hpr'&Htop).
  exists hist. split; [done|]. split; [done|]. eapply (acct_sent (Length_ p) 0 E _ L h l s _ p hist); try done.
  - rewrite Hps', inflight_app, inflight_cons. unfold space_flight, weight, tracked_ok in *.
    rewrite Hreg in Hp. destruct Hp as (->&_). cbn. lia.
  - rewrite Hps'. apply Forall_app. split; [done|]. by apply Forall_singleton.
  - rewrite Hpr'. eapply probes_ok_top; [|done]. pose proof (next_number_above _ _ Hh Hnext). lia.
  - rewrite Hps', Hpr', !all_frames_app. unfold space_frames, all_frames at 2. cbn. rewrite app_nil_r. solve_Permutation.
  - apply Forall_forall. cbn. lia.
Qed.

Lemma sent_unreliable E L h l s s1 pn :
  acct 0 E L h → getPacketNumberSpace h l = Ok s → history s1 = history s → pns s1 = pns s →
  lastAckElicitingPacketTime s1 = lastAckElicitingPacketTime s → can_send s pn →
  ∃ hist, SentNonAckElicitingPacket (history s1) pn = Ok hist ∧ highestPacketNumber hist = pn ∧
    acct 0 E L (set_space h l (set_history s1 hist)).
Proof.
  intros Ha Hget Hs1 Hpns Hl1 Hsend. pose proof (acct_space _ _ _ _ _ _ Ha Hget) as Hs.
  pose proof (can_send_next s _ Hs Hsend) as Hnext. pose proof Hs as [Hh Hps Hpr Hn Ht]. rewrite Hs1.
  destruct (SentNonAckEliciting_spec (history s) pn Hh Hnext) as (hist&->&Hh'&Hps'&Hpr'&Htop).
  exists hist. split; [done|]. split; [done|]. rewrite <-(app_nil_r L).
  eapply (acct_sent 0 0 E [] L h l s _ (placeholder pn false false) hist); try done.
  - rewrite Hps'. unfold space_flight. lia.
  - by rewrite Hps'.
  - rewrite Hpr'. eapply probes_ok_top; [|done]. pose proof (next_number_above _ _ Hh Hnext). cbn. lia.
  - by rewrite Hps', Hpr', app_nil_r.
  - cbn. by rewrite Hps', Hl1.
Qed.

Lemma timer_same h t : same_acct h (setLossDetectionTimer h t).
Proof. done. Qed.

Lemma SentPacket_spec E L h l s t pn la streamFrames frames ecn size mtu probe :
  acct 0 E L h → getPacketNumberSpace h l = Ok s → can_send s pn → sends_ok h l t streamFrames frames ecn size probe →
  ∃ h' s', SentPacket h t pn la streamFrames frames l ecn size mtu probe = Ok h' ∧
    acct 0 E (L ++ handled frames ++ handled streamFrames) h' ∧ getPacketNumberSpace h' l = Ok s' ∧ can_pop s'.
Proof.
  intros Ha Hget Hsend (Ht&Hsize&Hprobe&Hecn). unfold SentPacket. set (h0 := set_sent h _).
  assert (same_acct h h0) as Hh0 by done. rewrite (get_ext _ _ _ Hh0), Hget. cbn [mbind result_bind].
  pose proof (acct_ext _ _ _ _ _ Hh0 Ha) as Ha0.
  assert (∀ s1 hist h1, pns s1 = pns s → highestPacketNumber hist = pn → getPacketNumberSpace h1 l = Ok s →
    ∃ s', getPacketNumberSpace (set_space h1 l (set_history s1 hist)) l = Ok s' ∧ can_pop s') as Hdone.
  { intros s1 hist h1 Hp1 Htop Hg1. eexists. split; [by eapply get_set_space|]. right. cbn. rewrite Htop, Hp1. apply Hsend. }
  destruct probe.
  - destruct (Hprobe eq_refl) as [-> Hf].
    destruct (sent_probe E L h0 l s (set_largestSent s pn) (mkPacket t pn [] frames 0 size l false false false false true))
      as (hist&->&Htop&Ha1); try done. cbn [mbind result_bind].
    destruct (Hdone (set_largestSent s pn) hist h0) as (s'&Hg'&Hpop); try done.
    eexists _, s'. split; [done|]. split_and!; [eapply acct_ext; [apply timer_same|exact Ha1]|by rewrite (get_ext _ _ _ (timer_same _ _))|done].
  - set (elicits := (0 <? len streamFrames) || (0 <? len frames)).
    set (s1 := if elicits then _ else set_largestSent s pn). set (h1 := if elicits then _ else h0).
    set (h2 := set_congestion h1 _).
    assert (acct (if elicits then size else 0) E L h2 ∧ getPacketNumberSpace h2 l = Ok s ∧ ecn_tracker h2 = ecn_tracker h ∧
      history s1 = history s ∧ pns s1 = pns s ∧
      lastAckElicitingPacketTime s1 = if elicits then t else lastAckElicitingPacketTime s) as (Ha2&Hg2&He2&Hs1&Hp1&Hl1).
    { split_and!; try (unfold h2, h1, s1; destruct elicits; [destruct (0 <? _)|]; rewrite <-?Hget; by destruct l).
      unfold h2, h1. destruct elicits; [|by eapply acct_ext].
      eapply (acct_ext _ _ _ (set_bytesInFlight h0 (bytesInFlight h0 + size))); [by destruct (0 <? _)|].
      apply (acct_bytes 0); [done|]. lia. }
    destruct (sentECN_same h2 l pn ecn) as (h3&->&Hh3); [by rewrite He2|]. cbn [mbind result_bind].
    pose proof (acct_ext _ _ _ _ _ Hh3 Ha2) as Ha3. rewrite <-(get_ext _ _ l Hh3) in Hg2.
    destruct elicits eqn:Hel; cbn [negb].
    + destruct (sent_regular E L h3 l s s1 (mkPacket t pn streamFrames frames la size l mtu true false false false))
        as (hist&->&Htop&Ha4); try done.
      { split_and!; try done. cbn. unfold elicits in Hel. destruct streamFrames, frames; [done|..]; auto. }
      cbn [mbind result_bind]. destruct (Hdone s1 hist h3) as (s'&Hg'&Hpop); try done.
      eexists _, s'. split; [done|]. split_and!; [eapply acct_ext; [apply timer_same|exact Ha4]|by rewrite (get_ext _ _ _ (timer_same _ _))|done].
    + destruct (sent_unreliable E L h3 l s s1 pn) as (hist&->&Htop&Ha4); try done. cbn [mbind result_bind].
      destruct (Hdone s1 hist h3) as (s'&Hg'&Hpop); try done.
      assert (streamFrames = [] ∧ frames = []) as [-> ->].
      { unfold elicits in Hel. apply orb_false_iff in Hel as [?%Z.ltb_ge ?%Z.ltb_ge].
        split; [destruct streamFrames|destruct frames]; try done; len_lia. }
      set (h4 := set_space h3 l _) in *. eexists _, s'. split; [done|].
      assert (same_acct h4 (if negb (peerCompletedAddressValidation h4) then setLossDetectionTimer h4 t else h4)) as Hh4
        by (by destruct (peerCompletedAddressValidation h4)).
      cbn. rewrite app_nil_r. split_and!; [by eapply acct_ext|by rewrite (get_ext _ _ _ Hh4)|done].
Qed.

(** ** Dropping packet number spaces *)
Lemma space_flight_le x E L h l s :
  acct x E L h → getPacketNumberSpace h l = Ok s → 0 ≤ space_flight s ≤ tracked_flight h.
Proof.
  intros [Hs _ _] (a&b&Heq&_)%space_split. unfold tracked_flight. rewrite Heq, flight_split.
  rewrite Heq in Hs. apply Forall_app in Hs as [Ha [Hs Hb]%Forall_cons].
  assert (0 ≤ space_flight s) by exact (inflight_nonneg _ (space_packets s Hs)).
  assert (Forall space_inv (a ++ b)) as Hab by (by apply Forall_app).
  assert (0 ≤ foldr (λ s n, space_flight s + n) 0 (a ++ b)); [|lia].
  clear -Hab. induction Hab as [|s' ss Hs' _ IH]; cbn [foldr]; [done|].
  assert (0 ≤ space_flight s') by exact (inflight_nonneg _ (space_packets s' Hs')). lia.
Qed.

Lemma removeAll_ok ps : ∀ h,
  Forall tracked_ok ps → inflight ps ≤ bytesInFlight h →
  removeAllFromBytesInFlight h ps = Ok (set_bytesInFlight h (bytesInFlight h - inflight ps)).
Proof.
  induction ps as [|p ps IH]; intros h Hok Hle; cbn [removeAllFromBytesInFlight].
  { cbn. rewrite Z.sub_0_r. by destruct h. }
  apply Forall_cons in Hok as [Hp Hok]. rewrite inflight_cons in *.
  pose proof (weight_nonneg p Hp). pose proof (inflight_nonneg ps Hok).
  rewrite remove_ok by lia.
  cbn [mbind result_bind]. rewrite IH by (try done; cbn; lia). cbn. by rewrite Z.sub_add_distr.
Qed.

(** The packet number space [s] is gone. *)
Lemma acct_drop E L h h' s a b :
  acct 0 E L h → spaces h = a ++ s :: b → spaces h' = a ++ b → events h' = events h →
  bytesInFlight h' = bytesInFlight h - space_flight s → acct 0 (E ++ space_frames s) L h'.
Proof.
  intros [Hs Hf Hp] Hsp Hsp' He Hb. unfold tracked_flight, tracked_frames, settled_frames in *.
  split; unfold tracked_flight, tracked_frames, settled_frames; rewrite ?Hsp', ?He.
  - rewrite Hsp in Hs. apply Forall_app in Hs as [? [_ ?]%Forall_cons]. by apply Forall_app.
  - rewrite Hb, Hf, Hsp, flight_split. lia.
  - rewrite <-Hp, Hsp, !fmap_app, !concat_app. cbn. solve_Permutation.
Qed.

(** The packets at the start of the history that are dropped with the 0-RTT keys. *)
Fixpoint zeroRTT ps : list packet :=
  match ps with
  | p :: ps =>
      if negb (bool_decide (pkt_EncryptionLevel p = Encryption0RTT)) && negb (skippedPacket p)
      then [] else p :: zeroRTT ps
  | [] => []
  end.

Lemma acct_drop0RTT L ps : ∀ E h,
  acct 0 E L h → Packets (history (appDataPackets h)) = ps →
  ∃ h' hist, drop0RTT h ps = Ok h' ∧ acct 0 (E ++ all_frames (zeroRTT ps)) L h' ∧
    appDataPackets h' = set_history (appDataPackets h) hist ∧ same_rest (history (appDataPackets h)) hist ∧
    initialPackets h' = initialPackets h ∧ handshakePackets h' = handshakePackets h ∧ events h' = events h.
Proof.
  induction ps as [|p ps IH]; intros E h Ha Hps; cbn [drop0RTT zeroRTT].
  { exists h, (history (appDataPackets h)). cbn. rewrite app_nil_r. split_and!; try done. by destruct (appDataPackets h). }
  destruct (negb _ && negb _).
  { exists h, (history (appDataPackets h)). cbn. rewrite app_nil_r. split_and!; try done. by destruct (appDataPackets h). }
  set (s := appDataPackets h) in *. assert (getPacketNumberSpace h Encryption1RTT = Ok s) as Hget by done.
  pose proof (acct_space _ _ _ _ _ _ Ha Hget) as Hs. pose proof (space_flight_le _ _ _ _ _ _ Ha Hget) as Hle.
  pose proof (space_packets s Hs) as Hok. rewrite Hps in Hok. apply Forall_cons in Hok as [Hp Hok].
  pose proof (inflight_nonneg ps Hok) as Hnn.
  assert (weight p ≤ bytesInFlight h) as Hw.
  { rewrite (acct_flight _ _ _ _ Ha). unfold space_flight in Hle. rewrite Hps, inflight_cons in Hle. lia. }
  rewrite (remove_ok h p Hw). cbn [mbind result_bind].
  destruct (Remove_spec (history s) [] p ps (space_hist s Hs) Hps) as (hist&ps1&sk&Hrem&Hinv&Hnil&_&Hps'&Hrest).
  symmetry in Hnil. apply app_nil in Hnil as [-> ->]. cbn in Hps'.
  change (appDataPackets (set_bytesInFlight h (bytesInFlight h - weight p))) with s. rewrite Hrem. cbn [mbind result_bind].
  destruct (IH (E ++ packet_frames p) (set_appData (set_bytesInFlight h (bytesInFlight h - weight p)) (set_history s hist)))
    as (h'&hist'&Hrun&Ha'&Happ&Hrest'&?&?&?); [|done|].
  - assert (same_space s (set_history s hist)) as Hsame by done.
    assert (acct (0 + weight p) (E ++ packet_frames p) L (set_space h Encryption1RTT (set_history s hist))) as Ha1.
    { rewrite <-(app_nil_r L). eapply acct_set_space; try done.
      - apply (space_inv_settled s); try done. cbn. intros q. rewrite Hps', Hps. set_solver.
      - unfold space_flight. cbn [history set_history]. rewrite Hps', Hps, inflight_cons. lia.
      - unfold space_frames. cbn [history set_history]. rewrite Hps', Hps, (proj1 Hrest), all_frames_cons.
        rewrite app_nil_r. solve_Permutation. }
    eapply acct_ext; [|apply (acct_bytes _ 0 _ _ _ (bytesInFlight h - weight p) Ha1); cbn; lia]. done.
  - exists h', hist'. rewrite all_frames_cons, app_assoc. split_and!; try done.
    unfold same_rest in *. cbn in *. intuition congruence.
Qed.

Lemma resetPTO_same h t : same_acct h (resetPTO h t).
Proof. done. Qed.

(** The frames that are dropped with the keys. *)
Definition dropped_frames h l : list F :=
  match l with
  | EncryptionInitial => from_option space_frames [] (initialPackets h)
  | EncryptionHandshake => from_option space_frames [] (handshakePackets h)
  | Encryption0RTT => all_frames (zeroRTT (Packets (history (appDataPackets h))))
  | Encryption1RTT => []
  end.

Lemma DropPackets_spec E L h l t :
  acct 0 E L h → l ≠ Encryption1RTT →
  ∃ h', DropPackets h l t = Ok h' ∧ acct 0 (E ++ dropped_frames h l) L h'.
Proof.
  intros Ha Hl. unfold DropPackets. set (h0 := if _ && _ then set_peerCompleted h true else h).
  assert (same_acct h h0) as Hh0 by (unfold h0; by destruct (_ && _)).
  pose proof (acct_ext _ _ _ _ _ Hh0 Ha) as Ha0. pose proof Hh0 as (Hi&Hh&Happ&_).
  destruct l; [..|done].
  - unfold dropped_frames. rewrite <-Hi. destruct (initialPackets h0) as [s|] eqn:Hs; cbn; [|exists h0; by rewrite app_nil_r].
    assert (getPacketNumberSpace h0 EncryptionInitial = Ok s) as Hget by (cbn; by rewrite Hs).
    pose proof (space_flight_le _ _ _ _ _ _ Ha0 Hget). pose proof (acct_flight _ _ _ _ Ha0).
    rewrite removeAll_ok; [|exact (space_packets s (acct_space _ _ _ _ _ _ Ha0 Hget))|unfold space_flight in *; lia].
    cbn [mbind result_bind]. eexists. split; [done|]. eapply acct_ext; [apply resetPTO_same|].
    eapply (acct_drop E L h0 _ s []); [done| |done..]. unfold spaces. by rewrite Hs.
  - unfold dropped_frames. rewrite <-Hh. destruct (handshakePackets h0) as [s|] eqn:Hs; cbn; [|exists h0; by rewrite app_nil_r].
    assert (getPacketNumberSpace h0 EncryptionHandshake = Ok s) as Hget by (cbn; by rewrite Hs).
    pose proof (space_flight_le _ _ _ _ _ _ Ha0 Hget). pose proof (acct_flight _ _ _ _ Ha0).
    rewrite removeAll_ok; [|exact (space_packets s (acct_space _ _ _ _ _ _ Ha0 Hget))|unfold space_flight in *; lia].
    cbn [mbind result_bind]. eexists. split; [done|]. eapply acct_ext; [apply resetPTO_same|].
    eapply (acct_drop E L h0 _ s (option_list (initialPackets h0))); [done| |done..]. unfold spaces. by rewrite Hs.
  - unfold dropped_frames. rewrite <-Happ. destruct (acct_drop0RTT L _ E h0 Ha0 eq_refl) as (h'&hist&->&Ha'&_).
    cbn [mbind result_bind]. eexists. split; [done|]. by eapply acct_ext; [apply resetPTO_same|].
Qed.

(** ** Probes, Retry and migration *)
Lemma FirstOutstanding_spec (hist : sentPacketHistory F) p :
  FirstOutstanding hist = Some p → p ∈ Packets hist ∧ isRegularPacket p = true.
Proof.
  unfold FirstOutstanding. destruct (negb _); [done|]. intros Hh.
  assert (p ∈ filter outstanding (Packets hist)) as [Ho ?]%list_elem_of_filter.
  { destruct (filter outstanding (Packets hist)); [done|]. injection Hh as ->. left. }
  split; [done|]. unfold outstanding, isRegularPacket in *.
  by destruct (declaredLost p), (skippedPacket p), (IsPathMTUProbePacket p), (isPathProbePacket p).
Qed.

Lemma weight_le x E L h l s p :
  acct x E L h → getPacketNumberSpace h l = Ok s → p ∈ Packets (history s) → weight p ≤ tracked_flight h.
Proof.
  intros Ha Hget Hp. destruct (space_flight_le _ _ _ _ _ _ Ha Hget) as [_ Hle].
  pose proof (space_packets s (acct_space _ _ _ _ _ _ Ha Hget)) as Hok.
  apply list_elem_of_split in Hp as (ps1&ps2&Heq). unfold space_flight in Hle.
  rewrite Heq in Hle, Hok. rewrite inflight_app, inflight_cons in Hle.
  apply Forall_app in Hok as [H1 [_ H2]%Forall_cons].
  pose proof (inflight_nonneg _ H1). pose proof (inflight_nonneg _ H2). lia.
Qed.

Lemma QueueProbePacket_spec E L h l s :
  acct 0 E L h → getPacketNumberSpace h l = Ok s →
  ∃ h' sent, QueueProbePacket h l = Ok (h', sent) ∧ acct 0 E L h' ∧
    match FirstOutstanding (history s) with
    | Some p => sent = true ∧ events h' = events h ++ (OnLost <$> packet_frames p)
    | None => sent = false ∧ h' = h
    end.
Proof.
  intros Ha Hget. unfold QueueProbePacket. rewrite Hget. cbn [mbind result_bind].
  destruct (FirstOutstanding (history s)) as [p|] eqn:Hfirst; [|by exists h, false].
  apply FirstOutstanding_spec in Hfirst as [Hp Hr]. pose proof (acct_space _ _ _ _ _ _ Ha Hget) as Hs.
  assert (tracked_ok p) as Hok by (pose proof (space_packets s Hs) as Hall; rewrite Forall_forall in Hall; auto).
  pose proof (weight_le _ _ _ _ _ _ _ Ha Hget Hp) as Hw. pose proof (acct_flight _ _ _ _ Ha) as Hb.
  rewrite queue_regular by done. cbn [mbind result_bind]. rewrite remove_ok by (cbn; lia). cbn [mbind result_bind].
  set (h2 := set_bytesInFlight _ _). apply list_elem_of_split in Hp as (ps1&ps2&Heq).
  destruct (acct_declareLost 0 E L h l s ps1 p ps2 Ha Hget Heq) as (s'&Hd&Ha'&_).
  assert (declareLost h2 l p = Ok (set_space h2 l s')) as ->.
  { unfold declareLost in *. assert (getPacketNumberSpace h2 l = Ok s) as -> by (by rewrite <-Hget; destruct l).
    rewrite Hget in Hd. cbn [mbind result_bind] in *. destruct (DeclareLost _ _) as [hist| |]; [|done..].
    cbn [mbind result_bind] in *. injection Hd as Hd.
    assert (Ok (set_history s hist) = Ok s' :> res _) as [= ->]; [|done].
    rewrite <-(get_set_space h l s (set_history s hist) Hget), Hd. by apply (get_set_space h l s). }
  cbn [mbind result_bind]. eexists _, true. split; [done|]. split; [|split; [done|by destruct l]].
  apply (acct_events _ _ _ _ _ OnLost) in Ha'; [|done].
  eapply acct_ext; [|apply (acct_bytes _ 0 _ _ _ (bytesInFlight h - weight p) Ha'); destruct l; cbn; lia].
  by destruct l.
Qed.

Lemma acct_migrateAll E L ps : ∀ h,
  acct 0 E L h → Packets (history (appDataPackets h)) = ps →
  ∃ h', migrateAll h ps = Ok h' ∧ acct 0 E L h' ∧ Packets (history (appDataPackets h')) = [] ∧
    events h' = events h ++ (OnLost <$> all_frames ps) ∧
    pathProbePackets (history (appDataPackets h')) = pathProbePackets (history (appDataPackets h)).
Proof.
  induction ps as [|p ps IH]; intros h Ha Hps; cbn [migrateAll].
  { exists h. cbn. by rewrite app_nil_r. }
  destruct (acct_lose 0 E L h Encryption1RTT (appDataPackets h) [] p ps) as (h1&h2&s'&->&Hq&Ha2&[= Hg2]&Hps2&[[Hpr _] _]&_&He2);
    [done..|]. cbn [mbind result_bind].
  assert ((if isRegularPacket p then h ← removeFromBytesInFlight h1 p; queueFramesForRetransmission h p else Ok h1) = Ok h2) as -> by done.
  cbn [mbind result_bind]. subst s'. destruct (IH h2 Ha2 Hps2) as (h'&?&?&?&He&Hpr').
  exists h'. split_and!; try done.
  - by rewrite He, He2, all_frames_cons, fmap_app, app_assoc.
  - by rewrite Hpr', Hpr.
Qed.

(** The removal while iterating only removes path probes; which of them depends
    on how [RemovePathProbe] moves the others. *)
Lemma removeAllProbes_perm n : ∀ (arr : list packet) m i arr' m',
  (m ≤ length arr)%nat → removeAllProbes arr m i n = (arr', m') →
  ∃ removed, take m arr ≡ₚ take m' arr' ++ removed.
Proof.
  induction n as [|n IH]; intros arr m i arr' m' Hm; cbn [removeAllProbes].
  { intros [= <- <-]. exists []. by rewrite app_nil_r. }
  destruct (arr !! i) as [p|]; [|intros [= <- <-]; exists []; by rewrite app_nil_r].
  destruct (removeProbe_perm (take m arr) (PacketNumber p)) as ([o ps]&Hr&Hperm&_). rewrite Hr. cbn in Hperm.
  destruct o as [q|]; [|by apply IH]. cbn in Hperm. pose proof (Permutation_length Hperm) as Hlen.
  rewrite length_take_le, length_app in Hlen by done. cbn in Hlen. intros Hrun. apply IH in Hrun.
  - destruct Hrun as [r Hr']. exists (r ++ [q]). rewrite Hperm, app_assoc, <-Hr'.
    rewrite take_app_length' by lia. done.
  - rewrite length_app, length_drop. lia.
Qed.

Lemma MigratedPath_spec E L h now size :
  acct 0 E L h →
  ∃ h' D, MigratedPath h now size = Ok h' ∧ acct 0 (E ++ all_frames D) L h' ∧
    Packets (history (appDataPackets h')) = [] ∧
    pathProbePackets (history (appDataPackets h)) ≡ₚ pathProbePackets (history (appDataPackets h')) ++ D ∧
    events h' = events h ++ (OnLost <$> all_frames (Packets (history (appDataPackets h)))).
Proof.
  intros Ha. unfold MigratedPath. set (h0 := set_rttStats h _).
  destruct (acct_migrateAll E L (Packets (history (appDataPackets h))) h0) as (h1&Hrun&Ha1&Hps&He&Hpr); [by eapply (acct_ext _ _ _ h)|done|].
  change (appDataPackets h0) with (appDataPackets h). rewrite Hrun. cbn [mbind result_bind].
  set (s := appDataPackets h1). set (probes := pathProbePackets (history s)).
  destruct (removeAllProbes probes (length probes) 0 (length probes)) as [arr m] eqn:Hrm.
  destruct (removeAllProbes_perm _ _ _ _ _ _ (le_n _) Hrm) as [D HD]. rewrite take_ge in HD by done.
  assert (getPacketNumberSpace h1 Encryption1RTT = Ok s) as Hget by done.
  eexists _, D. split; [done|]. split_and!; try done.
  - rewrite <-(app_nil_r L).
    eapply acct_ext; [|apply (acct_probes 0 E L h1 Encryption1RTT s (take m arr) (all_frames D) [] Ha1 Hget)]; [done| |].
    + eapply probes_ok_perm; [exact HD|]. exact (space_probes s (acct_space _ _ _ _ _ _ Ha1 Hget)).
    + rewrite app_nil_r, <-all_frames_app. by apply all_frames_perm.
  - change (pathProbePackets (history (appDataPackets h0))) with (pathProbePackets (history (appDataPackets h))) in Hpr.
    rewrite <-Hpr. exact HD.
Qed.

(** A Retry arrives before anything but Initial and 0-RTT packets were sent. *)
Definition retry_ok h : Prop :=
  initialPackets h ≠ None ∧
  (∀ s, initialPackets h = Some s ∨ s = appDataPackets h →
     pathProbePackets (history s) = [] ∧ Forall (λ p, isPathProbePacket p = false) (Packets (history s))) ∧
  (∀ s, handshakePackets h = Some s → Packets (history s) = []).

Lemma retransmitAll_ok ps : ∀ h,
  Forall tracked_ok ps → Forall (λ p, isPathProbePacket p = false) ps →
  retransmitAll h ps = Ok (set_events h (events h ++ (OnLost <$> all_frames ps))).
Proof.
  induction ps as [|p ps IH]; intros h Hok Hpr; cbn [retransmitAll].
  { cbn. rewrite app_nil_r. by destruct h. }
  apply Forall_cons in Hok as [Hp Hok]. apply Forall_cons in Hpr as [Hpp Hpr]. rewrite all_frames_cons, fmap_app.
  destruct (isRegularPacket p) eqn:Hr.
  - rewrite queue_regular by done. unfold tracked_ok in Hp. rewrite Hr in Hp. destruct Hp as (_&->&_).
    unfold isRegularPacket in Hr. apply andb_true_iff in Hr as [-> _]. cbn [negb andb mbind result_bind].
    rewrite IH by done. cbn. by rewrite <-app_assoc.
  - destruct (irregular_empty p Hp Hr) as [_ ->]. unfold isRegularPacket in Hr. rewrite Hpp, andb_true_r in Hr.
    rewrite Hr, andb_false_r. cbn [mbind result_bind]. by rewrite IH.
Qed.

Lemma new_space_inv next isAppData random :
  0 ≤ next → space_inv (newPacketNumberSpace next isAppData random).
Proof.
  intros Hn. split; cbn; [apply new_history_inv|constructor| | |constructor].
  - split; constructor.
  - split; [by destruct isAppData|by left].
Qed.

Lemma Peek_nonneg s : space_inv s → 0 ≤ Peek (pns s).
Proof. intros [_ _ _ [Hn _] _]. destruct (pns s); cbn in *; [done|]. zcase; lia. Qed.

Lemma ResetForRetry_spec E L h now random :
  acct 0 E L h → retry_ok h → ∃ h', ResetForRetry h now random = Ok h' ∧ acct 0 E L h' ∧ bytesInFlight h' = 0.
Proof.
  intros Ha (Hi&Hpr&Hhs). destruct (initialPackets h) as [s|] eqn:Hs; [clear Hi|done].
  destruct (Hpr s (or_introl eq_refl)) as [Hp1 Hf1]. destruct (Hpr _ (or_intror eq_refl)) as [Hp2 Hf2].
  pose proof (acct_space _ _ _ _ EncryptionInitial s Ha ltac:(cbn; by rewrite Hs)) as Hinv1.
  pose proof (acct_space _ _ _ _ Encryption1RTT _ Ha eq_refl) as Hinv2.
  unfold ResetForRetry. cbn [getPacketNumberSpace initialPackets set_bytesInFlight]. rewrite Hs. cbn [mbind result_bind].
  rewrite retransmitAll_ok by (try done; apply Hinv1). cbn [mbind result_bind appDataPackets set_events set_bytesInFlight].
  rewrite retransmitAll_ok by (try done; apply Hinv2). cbn [mbind result_bind].
  set (h1 := set_events _ _). set (h2 := if _ =? 0 then _ else h1).
  assert (same_acct h1 h2) as (_&Hh2&Happ2&Hb2&He2) by (unfold h2; by destruct (_ =? 0)).
  eexists. split; [done|]. split; [|exact Hb2]. destruct Ha as [Hsp Hf Hp]. unfold spaces in *. rewrite Hs in *. cbn in Hsp, Hf, Hp.
  assert (Forall (λ s, space_flight s = 0 ∧ Packets (history s) = []) (option_list (handshakePackets h))) as Hempty.
  { destruct (handshakePackets h) as [s'|]; [|constructor]. apply Forall_singleton. unfold space_flight. by rewrite (Hhs s' eq_refl). }
  apply Forall_cons in Hsp as [_ Hsp]. apply Forall_app in Hsp as [Hsp _].
  split; unfold tracked_flight, tracked_frames, settled_frames, spaces in *;
    cbn [initialPackets handshakePackets appDataPackets bytesInFlight events set_initial set_appData set_alarm set_ptoCount set_events
         option_list app] in *;
    rewrite ?Hh2, ?Hb2, ?He2, ?Happ2.
  - constructor; [by apply new_space_inv, Peek_nonneg|]. apply Forall_app. split; [done|].
    apply Forall_singleton. by apply new_space_inv, Peek_nonneg.
  - unfold h1. cbn. destruct (handshakePackets h); cbn in *; [|done]. apply Forall_singleton in Hempty as [-> _]. done.
  - rewrite <-Hp. unfold h1. cbn [initialPackets handshakePackets appDataPackets events set_bytesInFlight set_events].
    rewrite Hs, !fmap_app, !concat_app.
    assert (∀ s, concat (space_frames <$> option_list (Some s)) = space_frames s ∧
                 concat (space_frames <$> [s]) = space_frames s) as Hone
      by (intros s'; split; apply app_nil_r).
    rewrite !(proj1 (Hone _)), !(proj2 (Hone _)).
    change (space_frames (newPacketNumberSpace (Peek (pns s)) _ _)) with (@nil F).
    change (space_frames (newPacketNumberSpace (Peek (pns (appDataPackets h))) _ _)) with (@nil F).
    assert (∀ s, pathProbePackets (history s) = [] → space_frames s = all_frames (Packets (history s))) as Hsf
      by (intros s' Hs'; unfold space_frames; rewrite Hs'; apply app_nil_r).
    rewrite (Hsf s Hp1), (Hsf _ Hp2).
    rewrite !(event_frames OnLost) by done. rewrite ?app_nil_r. solve_Permutation.
Qed.

End accounting.
