(* ===== verification/SentSafety.v ===== *)
(** * Safety of the sent packet handler

    The operations of SentPackets.v as the connection calls them: in every
    reachable state they succeed or fail with a protocol error, the bytes in flight
    are those of the tracked packets, and every frame is settled exactly once. *)

From S2P Require Import Prelude Varint Protocol AckFrame Float RTTStats ECN SentHistory SentPackets SentSpec.

Section safety.
Context {F C : Type} `{!SendAlgorithm C}.
Abbreviation packet := (packet F).
Abbreviation space := (packetNumberSpace (F:=F)).
Abbreviation handler := (sentPacketHandler (F:=F) (C:=C)).
Implicit Types (p q : packet) (s : space) (h : handler) (ps : list packet) (l : EncryptionLevel).

(** ** Address validation *)

(** The Handshake space is dropped when the handshake is confirmed; then no side
    waits for the validation of an address. *)
Record validation_inv h : Prop := {
  validation_handshake :
    handshakePackets h = None → handshakeConfirmed h = true ∧ peerCompletedAddressValidation h = true;
  validation_confirmed : handshakeConfirmed h = true → peerCompletedAddressValidation h = true;
  validation_server : perspective h = PerspectiveServer → peerCompletedAddressValidation h = true;
}.

(** The counters for the amplification limit do not change. *)
Definition quiet h h' : Prop :=
  bytesSent h' = bytesSent h ∧ bytesReceived h' = bytesReceived h ∧ peerAddressValidated h' = peerAddressValidated h.

(** What the calls of the handler preserve of the congestion controller. *)
Record controller_inv (I : C → Prop) : Prop := {
  inv_sent c rtt t inFlight pn size retransmittable :
    I c → 0 < t → 0 ≤ size → I (OnPacketSent c rtt t inFlight pn size retransmittable);
  inv_acked c rtt pn size inFlight t : I c → I (OnPacketAcked c rtt pn size inFlight t);
  inv_event c rtt pn size inFlight : I c → I (OnCongestionEvent c rtt pn size inFlight);
  inv_exit c rtt : I c → I (MaybeExitSlowStart c rtt);
}.

(** Nothing of this is taken back. *)
Definition progress h h' : Prop :=
  (handshakePackets h' = None → handshakePackets h = None) ∧
  handshakeConfirmed h' = handshakeConfirmed h ∧
  (peerCompletedAddressValidation h = true → peerCompletedAddressValidation h' = true) ∧
  perspective h' = perspective h ∧ quiet h h' ∧
  ∀ I, controller_inv I → I (congestion h) → I (congestion h').

#[local] Instance progress_preorder : PreOrder progress.
Proof.
  split; [done|]. unfold progress. intros h1 h2 h3 (?&?&?&?&(?&?&?)&?) (?&?&?&?&(?&?&?)&?).
  split_and!; auto; try congruence; [split_and!; congruence|naive_solver].
Qed.

Lemma validation_progress h h' : progress h h' → validation_inv h → validation_inv h'.
Proof.
  intros (Hh&Hc&Hp&Hpers&_) [H1 H2 H3]. split.
  - intros [? ?]%Hh%H1. rewrite Hc. auto.
  - rewrite Hc. auto.
  - rewrite Hpers. auto.
Qed.

Lemma set_space_progress h l s : progress h (set_space h l s).
Proof. by destruct l. Qed.

Lemma event_progress h pn size prior :
  progress h (set_congestion h (OnCongestionEvent (congestion h) (rttStats h) pn size prior)).
Proof. split_and!; try done. intros I HI. by apply (inv_event I HI). Qed.

Lemma timer_progress h l s t : progress h (setLossDetectionTimer (set_space h l s) t).
Proof. by destruct l. Qed.

Lemma remove_progress h h' p : removeFromBytesInFlight h p = Ok h' → progress h h'.
Proof.
  unfold removeFromBytesInFlight. destruct (includedInBytesInFlight p); [destruct (_ <? _); [done|]|]; by intros [= <-].
Qed.

Lemma queue_progress h h' p : queueFramesForRetransmission h p = Ok h' → progress h h'.
Proof. unfold queueFramesForRetransmission. destruct (_ && _); [done|]. by intros [= <-]. Qed.

Lemma declareLost_progress h h' l p : declareLost h l p = Ok h' → progress h h'.
Proof. unfold declareLost. intros H. do 2 bind_inv H. injection H as <-. apply set_space_progress. Qed.

Lemma packetLost_progress h h' l prior p : packetLost h l prior p = Ok h' → progress h h'.
Proof.
  unfold packetLost. intros H. bind_inv H. apply declareLost_progress in Hm. etransitivity; [exact Hm|].
  destruct (isRegularPacket p); [|by injection H as <-].
  bind_inv H. apply remove_progress in Hm0. bind_inv H. apply queue_progress in Hm1. injection H as <-.
  etransitivity; [exact Hm0|]. etransitivity; [exact Hm1|]. set (h1 := if negb _ then _ else a1).
  transitivity h1; [unfold h1; destruct (negb _); [apply event_progress|done]|].
  unfold lostECN. destruct l; try done. by destruct (ecn_tracker h1).
Qed.

Lemma detectLost_loop_progress l delay lst prior ps : ∀ h h',
  detectLostPackets_loop h l delay lst prior ps = Ok h' → progress h h'.
Proof.
  induction ps as [|p ps IH]; intros h h' H; cbn in H; [by injection H as <-|].
  bind_inv H. destruct (_ <? _); [by injection H as <-|]. bind_inv H. etransitivity; [|by eapply IH].
  destruct (is_lost _ _ _); [by eapply packetLost_progress|].
  destruct (_ =? _); injection Hm0 as <-; [apply set_space_progress|done].
Qed.

Lemma detectLost_progress h h' now l : detectLostPackets h now l = Ok h' → progress h h'.
Proof.
  unfold detectLostPackets. intros H. bind_inv H. apply detectLost_loop_progress in H.
  etransitivity; [|exact H]. apply set_space_progress.
Qed.

Lemma lostProbes_progress h h' now : detectLostPathProbes h now = Ok h' → progress h h'.
Proof.
  unfold detectLostPathProbes. destruct (negb _); [by intros [= <-]|]. generalize (filter (λ p, SendTime p ≤ now - pathProbePacketLossTimeout)
    (pathProbePackets (history (appDataPackets h)))) as ps. intros ps. revert h.
  induction ps as [|p ps IH]; intros h H; cbn in H; [by injection H as <-|].
  bind_inv H. apply IH in H. done.
Qed.

Lemma processAcked_progress l ps : ∀ h h', processAcked h l ps = Ok h' → progress h h'.
Proof.
  induction ps as [|p ps IH]; intros h h' H; cbn in H; [by injection H as <-|].
  do 2 bind_inv H. etransitivity; [|by eapply IH]. etransitivity; [|apply set_space_progress].
  by destruct (_ && _).
Qed.

Lemma onPacketsAcked_progress prior t ps : ∀ h h', onPacketsAcked h prior t ps = Ok h' → progress h h'.
Proof.
  induction ps as [|p ps IH]; intros h h' H; cbn in H; [by injection H as <-|].
  bind_inv H. etransitivity; [|by eapply IH]. etransitivity; [|by eapply remove_progress].
  destruct (_ && _); [|done]. split_and!; try done. intros I HI. by apply (inv_acked I HI).
Qed.

Lemma updateRTT_progress h ack largest l t acked : progress h (updateRTT h ack largest l t acked).
Proof.
  unfold updateRTT. destruct (last acked); [|done]. destruct (_ && _); [|done].
  split_and!; try done. intros I HI. by apply (inv_exit I HI).
Qed.

Lemma ReceivedAck_progress h ack l t h' b : ReceivedAck h ack l t = Ok (h', b) → progress h h'.
Proof.
  unfold ReceivedAck. intros H. do 2 bind_inv H. destruct (_ <? _); [done|].
  assert (progress h (completeAddressValidation h l t)) as H0 by (unfold completeAddressValidation; by destruct (_ && _ && _)).
  etransitivity; [exact H0|]. set (h0 := completeAddressValidation h l t) in *. clearbody h0. clear H0.
  bind_inv H. destruct a1 as [h1 ps]. unfold detectAndRemoveAckedPackets in Hm1.
  do 3 bind_inv Hm1. bind_inv Hm1. destruct a4 as [hist acked]. bind_inv Hm1. injection Hm1 as <- <-.
  apply processAcked_progress in Hm6. etransitivity; [apply set_space_progress|]. etransitivity; [exact Hm6|].
  destruct (len _ =? 0); [by injection H as <- _|]. bind_inv H. bind_inv H. bind_inv H. bind_inv H. injection H as <- _.
  transitivity (updateRTT a4 ack a0 l t acked); [apply updateRTT_progress|].
  set (h2 := updateRTT a4 ack a0 l t acked) in *. set (h3 := ackedECN h2 _ _ _ _ _ _) in *.
  transitivity h3; [unfold h3, ackedECN; destruct l, (ecn_tracker h2); try done; destruct (_ <? _); try done;
    destruct (HandleNewlyAcked _ _ _ _ _) as [? [|]]; [|done]; apply (event_progress (set_ecn h2 _))|].
  etransitivity; [apply set_space_progress|]. etransitivity; [by eapply detectLost_progress|].
  transitivity a7; [|etransitivity; [by eapply onPacketsAcked_progress|by destruct (peerCompletedAddressValidation _)]].
  destruct (bool_decide _); [by eapply lostProbes_progress|by simplify_eq].
Qed.

(** ** The loss detection timer *)
Lemma loss_space h t l :
  getLossTimeAndSpace h = (t, l) → t ≠ 0 → ∃ s, getPacketNumberSpace h l = Ok s ∧ lossTime s = t.
Proof.
  unfold getLossTimeAndSpace. destruct (initialPackets h) as [si|] eqn:Hi, (handshakePackets h) as [sh|] eqn:Hh;
    repeat destruct (earlier _ _); intros [= <- <-] ?; cbn; rewrite ?Hi, ?Hh; try done; by eexists.
Qed.

Lemma pto_space h now t l :
  validation_inv h → getPTOTimeAndSpace h now = (t, l) → t ≠ 0 →
  (∃ s, getPacketNumberSpace h l = Ok s) ∧ l ≠ Encryption0RTT.
Proof.
  intros Hv. unfold getPTOTimeAndSpace. destruct (negb _ && negb _).
  { destruct (peerCompletedAddressValidation h) eqn:Hp; [by intros [= <- <-]|].
    destruct (initialPackets h) as [s|] eqn:Hi; intros [= <- <-] _; cbn; rewrite ?Hi; [by split; [eexists|]|].
    destruct (handshakePackets h) as [s|] eqn:Hh; [by split; [eexists|]|].
    destruct (validation_handshake h Hv Hh). congruence. }
  destruct (initialPackets h) as [si|] eqn:Hi, (handshakePackets h) as [sh|] eqn:Hh;
    repeat (destruct (HasOutstandingPackets _ && negb _)); repeat (destruct (_ && negb _));
    repeat destruct (earlier _ _); intros [= <- <-] ?; cbn; rewrite ?Hi, ?Hh; try done; (split; [by eexists|done]).
Qed.

Lemma Pop_progress h h' l random pn : PopPacketNumber h l random = Ok (h', pn) → progress h h'.
Proof.
  unfold PopPacketNumber. intros H. bind_inv H. destruct (Pop _ _) as [g [[|] n]]; bind_inv H; injection H as <- _;
    apply set_space_progress.
Qed.

Lemma onPTO_spec E L h now random :
  acct 0 E L h → validation_inv h → can_pop (appDataPackets h) →
  ∃ h', onPTO h now random = Ok h' ∧ acct 0 E L h' ∧ progress h h' ∧ can_pop (appDataPackets h').
Proof.
  intros Ha Hv Hpop. unfold onPTO. destruct (_ && _) eqn:Hb.
  { apply andb_true_iff in Hb as [_ Hcomp].
    assert (handshakePackets h ≠ None) as Hh.
    { intros Hh. destruct (validation_handshake h Hv Hh) as [_ Hc]. by rewrite Hc in Hcomp. }
    cbn [initialPackets handshakePackets set_numProbes set_ptoCount].
    destruct (initialPackets h), (handshakePackets h) as [s|] eqn:Hhs; try done;
      (eexists; split; [done|]; split; [eapply acct_ext; [|exact Ha]; done|]; split_and!; try done; cbn; congruence). }
  destruct (getPTOTimeAndSpace h now) as [t l] eqn:Hpto. destruct (Z.eqb_spec t 0) as [|Ht]; [by exists h|].
  destruct (pto_space h now t l Hv Hpto Ht) as [[s Hs] Hl]. rewrite Hs. cbn [mbind result_bind].
  destruct (_ && _ && _); [by exists h|]. set (h1 := set_numProbes _ _).
  assert (same_acct h h1) as Hh1 by done. pose proof (acct_ext _ _ _ _ _ Hh1 Ha) as Ha1.
  destruct l; try done; [by exists (set_ptoMode h1 SendPTOInitial); split; [|split; [eapply acct_ext; [|exact Ha1]; done|]]
    |by exists (set_ptoMode h1 SendPTOHandshake); split; [|split; [eapply acct_ext; [|exact Ha1]; done|]]|].
  destruct (PopPacketNumber_spec 0 E L h1 Encryption1RTT (appDataPackets h1) random Ha1 eq_refl Hpop)
    as (h2&s2&pn&Hrun&Ha2&Hg2&Hsend&_).
  rewrite Hrun. cbn [mbind result_bind]. rewrite Hg2. cbn [mbind result_bind].
  destruct (acct_skip 0 E L h2 Encryption1RTT s2 s2 pn Ha2 Hg2 eq_refl eq_refl) as (hist&->&Htop&Ha3).
  - by apply can_send_next; [exact (acct_space _ _ _ _ _ _ Ha2 Hg2)|].
  - destruct Hsend as (?&?&_). split; lia.
  - cbn [mbind result_bind]. eexists. split; [done|]. split; [eapply acct_ext; [|exact Ha3]; done|]. split.
    + by apply Pop_progress in Hrun.
    + right. cbn. rewrite Htop. apply Hsend.
Qed.

(** The timer never fires in a state that the handler does not expect. *)
Lemma OnLossDetectionTimeout_spec E L h now random :
  acct 0 E L h → validation_inv h → can_pop (appDataPackets h) → 0 ≤ now →
  ∃ h', OnLossDetectionTimeout h now random = Ok h' ∧ acct 0 E L h' ∧ progress h h'.
Proof.
  intros Ha Hv Hpop Hnow. unfold OnLossDetectionTimeout.
  assert (∃ h1, (if handshakeConfirmed h then detectLostPathProbes h now else Ok h) = Ok h1 ∧ acct 0 E L h1 ∧
    progress h h1 ∧ can_pop (appDataPackets h1)) as (h1&->&Ha1&Hp1&Hpop1).
  { destruct (handshakeConfirmed h); [|by exists h].
    destruct (detectLostProbes_spec 0 E L h now Ha) as (h1&hist&Hrun&Ha1&Happ&_&Htop&_).
    exists h1. split_and!; try done; [by eapply lostProbes_progress|]. rewrite Happ. unfold can_pop in *. cbn. by rewrite Htop. }
  cbn [mbind result_bind]. destruct (getLossTimeAndSpace h1) as [t l] eqn:Hlt.
  destruct (Z.eqb_spec t 0) as [|Ht]; cbn [negb].
  - destruct (onPTO_spec E L h1 now random Ha1) as (h2&->&Ha2&Hp2&_); [by eapply validation_progress|done|].
    cbn [mbind result_bind]. eexists. split; [done|]. split; [eapply acct_ext; [|exact Ha2]; done|].
    etransitivity; [exact Hp1|]. done.
  - destruct (loss_space h1 t l Hlt Ht) as (s&Hs&_).
    destruct (detectLost_spec 0 E L h1 l s now) as (h2&s2&Hrun&Ha2&_); [done..|].
    rewrite Hrun. cbn [mbind result_bind]. eexists. split; [done|]. split; [eapply acct_ext; [|exact Ha2]; done|].
    etransitivity; [exact Hp1|]. by apply detectLost_progress in Hrun.
Qed.

(** ** The remaining operations make progress *)
Lemma SentPacket_progress h t pn la streamFrames frames l ecn size mtu probe h' :
  SentPacket h t pn la streamFrames frames l ecn size mtu probe = Ok h' →
  ∃ c, progress (set_congestion (set_sent h (bytesSent h + size)) c) h' ∧
    (c = congestion h ∨ ∃ inFlight b, c = OnPacketSent (congestion h) (rttStats h) t inFlight pn size b).
Proof.
  unfold SentPacket. intros H. bind_inv H. destruct probe.
  { bind_inv H. injection H as <-. eexists. split; [|by left]. by apply (timer_progress (set_sent h _)). }
  set (elicits := (0 <? len streamFrames) || (0 <? len frames)) in *. set (h0 := set_sent h _) in *.
  set (h1 := if elicits then _ else h0) in *.
  assert (congestion h1 = congestion h ∧ rttStats h1 = rttStats h ∧ ∀ c, progress (set_congestion h0 c) (set_congestion h1 c))
    as (Hc&Hr&H1) by (unfold h1; destruct elicits; [by destruct (0 <? _)|done]).
  bind_inv H. set (c := OnPacketSent _ _ _ _ _ _ _) in *. exists c.
  split; [|right; unfold c; rewrite Hc, Hr; by eexists _, _]. etransitivity; [exact (H1 c)|].
  clearbody h1 c. transitivity a0.
  { unfold sentECN in Hm0. destruct l; cbn in Hm0; try (by injection Hm0 as <-).
    destruct (ecn_tracker h1); [bind_inv Hm0|]; by injection Hm0 as <-. }
  destruct (negb elicits); bind_inv H; injection H as <-.
  - destruct (negb _); [apply timer_progress|apply set_space_progress].
  - apply timer_progress.
Qed.

Lemma QueueProbe_progress h l h' b : QueueProbePacket h l = Ok (h', b) → progress h h'.
Proof.
  unfold QueueProbePacket. intros H. bind_inv H. destruct (FirstOutstanding _) as [p|]; [|by injection H as <- _].
  bind_inv H. bind_inv H. bind_inv H. injection H as <- _.
  etransitivity; [by eapply queue_progress|]. etransitivity; [by eapply remove_progress|]. by eapply declareLost_progress.
Qed.

Lemma retransmitAll_progress ps : ∀ h h', retransmitAll h ps = Ok h' → progress h h'.
Proof.
  induction ps as [|p ps IH]; intros h h' H; cbn in H; [by injection H as <-|]. bind_inv H.
  etransitivity; [|by eapply IH]. destruct (_ && _); [by eapply queue_progress|by injection Hm as <-].
Qed.

Lemma Retry_progress h now random h' : ResetForRetry h now random = Ok h' → progress h h'.
Proof.
  unfold ResetForRetry. intros H. bind_inv H. bind_inv H. bind_inv H. injection H as <-.
  transitivity (set_bytesInFlight h 0); [done|]. etransitivity; [by eapply retransmitAll_progress|].
  etransitivity; [by eapply retransmitAll_progress|]. by destruct (_ =? 0).
Qed.

Lemma migrateAll_progress ps : ∀ h h', migrateAll h ps = Ok h' → progress h h'.
Proof.
  induction ps as [|p ps IH]; intros h h' H; cbn [migrateAll] in H; [by injection H as <-|]. bind_inv H. bind_inv H.
  etransitivity; [by eapply declareLost_progress|]. etransitivity; [|by eapply IH].
  destruct (isRegularPacket p); [|by injection Hm0 as <-]. bind_inv Hm0.
  etransitivity; [by eapply remove_progress|by eapply queue_progress].
Qed.

Lemma Migrated_progress h now size h' :
  MigratedPath h now size = Ok h' → ∃ rtt, progress (set_congestion h (NewCubicSender rtt size)) h'.
Proof.
  unfold MigratedPath. intros H. bind_inv H. apply migrateAll_progress in Hm.
  destruct (removeAllProbes _ _ _ _) as [arr m]. injection H as <-. exists (rttStats a).
  destruct Hm as (?&?&?&?&(?&?&?)&_). unfold progress, quiet. by split_and!.
Qed.

Lemma drop0RTT_progress ps : ∀ h h', drop0RTT h ps = Ok h' → progress h h'.
Proof.
  induction ps as [|p ps IH]; intros h h' H; cbn in H; [by injection H as <-|].
  destruct (_ && _); [by injection H as <-|]. bind_inv H. bind_inv H.
  etransitivity; [by eapply remove_progress|]. etransitivity; [|by eapply IH].
  destruct (Remove _ _); [|by injection Hm0 as <-..|done]. by injection Hm0 as <-.
Qed.

Lemma removeAll_progress ps : ∀ h h', removeAllFromBytesInFlight h ps = Ok h' → progress h h'.
Proof.
  induction ps as [|p ps IH]; intros h h' H; cbn in H; [by injection H as <-|]. bind_inv H.
  etransitivity; [by eapply remove_progress|by eapply IH].
Qed.

(** Dropping the Handshake space confirms the handshake. *)
Lemma Drop_validation h l now h' :
  DropPackets h l now = Ok h' →
  quiet h h' ∧ (∀ I, controller_inv I → I (congestion h) → I (congestion h')) ∧ (validation_inv h → validation_inv h').
Proof.
  unfold DropPackets. set (h0 := if _ && _ then _ else h). intros H.
  assert (progress h h0) as H0 by (unfold h0; by destruct (_ && _)).
  assert (∀ h1, progress h h1 → quiet h h1 ∧ (∀ I, controller_inv I → I (congestion h) → I (congestion h1)) ∧
    (validation_inv h → validation_inv h1)) as Hdone
    by (intros h1 Hp; split_and!; [apply Hp..|by eapply validation_progress]).
  destruct l.
  - apply Hdone. etransitivity; [exact H0|].
    destruct (initialPackets h0); [bind_inv H|]; injection H as <-; [|done]. by apply removeAll_progress in Hm.
  - destruct (handshakePackets h0); [bind_inv H|]; injection H as <-; [|by apply Hdone].
    apply removeAll_progress in Hm. pose proof (transitivity H0 Hm) as Hp.
    destruct (Hdone _ Hp) as (Hq&Hc&Hv). split; [exact Hq|]. split; [exact Hc|]. intros [_ _ Hs]%Hv.
    assert (peerCompletedAddressValidation a = true) as Hcomp.
    { destruct Hm as (_&_&Hcm&Hpers&_). destruct (perspective a) eqn:Hpa; [by apply Hs|]. apply Hcm.
      destruct H0 as (_&_&_&Hpers0&_). unfold h0. rewrite bool_decide_eq_true_2 by congruence. done. }
    by split.
  - apply Hdone. bind_inv H. injection H as <-. apply drop0RTT_progress in Hm.
    etransitivity; [exact H0|]. etransitivity; [exact Hm|done].
  - done.
Qed.

(** ** Sequences of operations *)
Inductive op :=
| OpPop (l : EncryptionLevel) (random : Z)
| OpSent (l : EncryptionLevel) (t pn largestAcked : Z) (streamFrames frames : list (Frame F)) (ecn : ECN) (size : Z)
    (mtu probe : bool)
| OpBytes (n t : Z)
| OpPacket (l : EncryptionLevel) (t : Z)
| OpAck (ack : AckFrame.t) (l : EncryptionLevel) (t : Z)
| OpDrop (l : EncryptionLevel) (t : Z)
| OpTimeout (t random : Z)
| OpProbe (l : EncryptionLevel)
| OpRetry (t random : Z)
| OpMigrate (t size : Z)
| OpSize (size : Z).

Definition exec h (o : op) : res handler :=
  match o with
  | OpPop l random => '(h, _) ← PopPacketNumber h l random; Ok h
  | OpSent l t pn la sf fs ecn size mtu probe => SentPacket h t pn la sf fs l ecn size mtu probe
  | OpBytes n t => Ok (ReceivedBytes h n t)
  | OpPacket l t => Ok (ReceivedPacket h l t)
  | OpAck ack l t => '(h, _) ← ReceivedAck h ack l t; Ok h
  | OpDrop l t => DropPackets h l t
  | OpTimeout t random => OnLossDetectionTimeout h t random
  | OpProbe l => '(h, _) ← QueueProbePacket h l; Ok h
  | OpRetry t random => ResetForRetry h t random
  | OpMigrate t size => MigratedPath h t size
  | OpSize size => SetMaxDatagramSize h size
  end.

(** How the connection uses the handler: a number that was popped is used before
    the next one is, packets of dropped spaces are not processed, ACK frames come
    from the parser, and the congestion controller accepts a new packet size. *)
Definition allowed h (o : op) : Prop :=
  match o with
  | OpPop l _ => ∃ s, getPacketNumberSpace h l = Ok s ∧ can_pop s
  | OpSent l t pn _ sf fs ecn size _ probe =>
      ∃ s, getPacketNumberSpace h l = Ok s ∧ can_send s pn ∧ sends_ok h l t sf fs ecn size probe
  | OpBytes _ _ | OpPacket _ _ | OpMigrate _ _ => True
  | OpAck ack l t => (∃ s, getPacketNumberSpace h l = Ok s) ∧ AckFrame.ranges_ok (AckFrame.AckRanges ack) ∧ 0 ≤ t
  | OpDrop l _ => l ≠ Encryption1RTT
  | OpTimeout t _ => can_pop (appDataPackets h) ∧ 0 ≤ t
  | OpProbe l => ∃ s, getPacketNumberSpace h l = Ok s
  | OpRetry _ _ => retry_ok h
  | OpSize size => ∃ c, SetMaxDatagramSize_ (congestion h) size = Ok c
  end.

Definition sent_by (o : op) : list F :=
  match o with OpSent _ _ _ _ sf fs _ _ _ _ => handled fs ++ handled sf | _ => [] end.

(** The frames [D] are forgotten: those of a dropped space, and those of path probes
    that are removed when the connection migrates. *)
Definition drops h (o : op) h' (D : list F) : Prop :=
  match o with
  | OpDrop l _ => D = dropped_frames h l
  | OpMigrate _ _ => ∃ ps, pathProbePackets (history (appDataPackets h)) ≡ₚ
                           pathProbePackets (history (appDataPackets h')) ++ ps ∧ D = all_frames ps
  | _ => D = []
  end.

Inductive reachable : handler → list F → list F → Prop :=
| reach_new initialPN size rtt validated ecn pers random :
    0 ≤ initialPN → reachable (newSentPacketHandler initialPN size rtt validated ecn pers random) [] []
| reach_step h sent dropped o h' D :
    reachable h sent dropped → allowed h o → exec h o = Ok h' → drops h o h' D →
    reachable h' (sent ++ sent_by o) (dropped ++ D).

(** The errors that a peer can provoke. *)
Definition ack_error (e : error) : Prop := e = unsent_error ∨ ∃ p, e = skipped_error p.

Definition exec_post E L h (o : op) : Prop :=
  match exec h o with
  | Ok h' => validation_inv h' ∧ ∀ D, drops h o h' D → acct 0 (E ++ D) (L ++ sent_by o) h'
  | Err e => (∃ ack l t, o = OpAck ack l t) ∧ ack_error e
  | Panic => False
  end.

(** An operation that sends and drops nothing. *)
Lemma exec_plain E L h o h' :
  exec h o = Ok h' → validation_inv h → progress h h' → sent_by o = [] → (∀ D, drops h o h' D → D = []) →
  acct 0 E L h' → exec_post E L h o.
Proof.
  intros Hrun Hv Hp Hs Hd Ha. unfold exec_post. rewrite Hrun. split; [by eapply validation_progress|].
  intros D ->%Hd. by rewrite Hs, !app_nil_r.
Qed.

Lemma exec_ack E L h ack l t :
  acct 0 E L h → validation_inv h → allowed h (OpAck ack l t) → exec_post E L h (OpAck ack l t).
Proof.
  intros Ha Hv ([s Hs]&Hok&Ht). destruct (ReceivedAck_spec E L h l s ack t Ha Hs Hok Ht) as (large&_&Hspec).
  assert (∀ e, ReceivedAck h ack l t = Err e → ack_error e → exec_post E L h (OpAck ack l t)) as Herr.
  { intros e He Hae. unfold exec_post. cbn [exec]. rewrite He. split; [by eexists _, _, _|done]. }
  destruct (_ <? _); [by eapply Herr; [|left]|].
  destruct (filter _ _) as [|p rest]; [|by eapply Herr; [|right; eexists]].
  destruct Hspec as (h'&s1&s'&ps&Hrun&Ha'&_).
  eapply exec_plain; [cbn [exec]; by rewrite Hrun|done|by eapply ReceivedAck_progress|done|done|done].
Qed.

Lemma exec_spec E L h o : acct 0 E L h → validation_inv h → allowed h o → exec_post E L h o.
Proof.
  intros Ha Hv Hal. destruct o as [l random|l t pn la sf fs ecn size mtu probe|n t|l t|ack l t|l t|t random|l|t random|t size|size].
  - destruct Hal as (s&Hs&Hpop). destruct (PopPacketNumber_spec 0 E L h l s random Ha Hs Hpop) as (h'&s'&pn&Hrun&Ha'&_).
    eapply exec_plain; [cbn [exec]; by rewrite Hrun|done|by eapply Pop_progress|done..].
  - destruct Hal as (s&Hs&Hsend&Hok). destruct (SentPacket_spec E L h l s t pn la sf fs ecn size mtu probe Ha Hs Hsend Hok)
      as (h'&s'&Hrun&Ha'&_). unfold exec_post. cbn [exec]. rewrite Hrun.
    destruct (SentPacket_progress _ _ _ _ _ _ _ _ _ _ _ _ Hrun) as (c&Hp&_).
    split; [eapply validation_progress; [exact Hp|by destruct Hv]|]. intros D ->. by rewrite app_nil_r.
  - split; [unfold ReceivedBytes; destruct (_ && _); by destruct Hv|]. intros D ->. rewrite !app_nil_r.
    eapply acct_ext; [|exact Ha]. unfold ReceivedBytes. by destruct (_ && _).
  - split; [unfold ReceivedPacket; destruct (_ && _ && _); by destruct Hv|]. intros D ->. rewrite !app_nil_r.
    eapply acct_ext; [|exact Ha]. unfold ReceivedPacket. by destruct (_ && _ && _).
  - by apply exec_ack.
  - destruct (DropPackets_spec E L h l t Ha Hal) as (h'&Hrun&Ha'). unfold exec_post. cbn [exec]. rewrite Hrun.
    split; [by eapply Drop_validation|]. intros D ->. by rewrite app_nil_r.
  - destruct Hal as [Hpop Ht]. destruct (OnLossDetectionTimeout_spec E L h t random Ha Hv Hpop Ht) as (h'&Hrun&Ha'&Hp).
    by eapply exec_plain.
  - destruct Hal as [s Hs]. destruct (QueueProbePacket_spec E L h l s Ha Hs) as (h'&b&Hrun&Ha'&_).
    eapply exec_plain; [cbn [exec]; by rewrite Hrun|done|by eapply QueueProbe_progress|done..].
  - destruct (ResetForRetry_spec E L h t random Ha Hal) as (h'&Hrun&Ha'&_).
    eapply exec_plain; [done|done|by eapply Retry_progress|done..].
  - destruct (MigratedPath_spec E L h t size Ha) as (h'&D&Hrun&Ha'&_&Hpr&_). unfold exec_post. cbn [exec]. rewrite Hrun.
    destruct (Migrated_progress _ _ _ _ Hrun) as (rtt&Hp).
    split; [eapply validation_progress; [exact Hp|by destruct Hv]|]. intros D' (ps&Hps&->). rewrite app_nil_r.
    eapply acct_perm; [|done|exact Ha']. f_equiv. apply all_frames_perm. rewrite Hpr in Hps. by apply Permutation_app_inv_l in Hps.
  - destruct Hal as [c Hc]. unfold exec_post. cbn [exec]. unfold SetMaxDatagramSize. rewrite Hc. cbn.
    split; [by destruct Hv|]. intros D ->. rewrite !app_nil_r. by eapply acct_ext; [|exact Ha].
Qed.

Lemma reachable_acct h sent dropped : reachable h sent dropped → acct 0 dropped sent h ∧ validation_inv h.
Proof.
  induction 1 as [initialPN size rtt validated ecn pers random Hpn|h sent dropped o h' D _ [Ha Hv] Hal Hrun HD].
  - split; [split; [|done|done]|split; [done|done|cbn; by intros ->]].
    repeat constructor; by apply new_space_inv.
  - pose proof (exec_spec _ _ _ _ Ha Hv Hal) as Hpost. unfold exec_post in Hpost. rewrite Hrun in Hpost.
    destruct Hpost as [Hv' Ha']. split; [by apply Ha'|done].
Qed.

(** ** The timer is armed *)
Lemma scaled_bounds h b : 0 < getScaledPTO h b ≤ maxPTODuration.
Proof. unfold getScaledPTO. zcase; [split; done|]. zcase; [split; done|]. lia. Qed.

(** The exponential backoff is exact unless the shift overflows. *)
Lemma scaled_backoff h b :
  let x := PTO (rttStats h) b in
  0 < x → 0 ≤ ptoCount h → x * 2 ^ ptoCount h < 2 ^ 63 ∨ 36 ≤ ptoCount h →
  getScaledPTO h b = Z.min maxPTODuration (x * 2 ^ ptoCount h).
Proof.
  intros x Hx Hn Hor. unfold getScaledPTO. fold x. rewrite Z.shiftl_mul_pow2 by done.
  set (n := ptoCount h) in *. destruct (Z.le_gt_cases 36 n) as [Hbig|Hsmall].
  - assert (2 ^ 36 ≤ 2 ^ n) by (apply Z.pow_le_mono_r; lia).
    replace (Z.min maxPTODuration (x * 2 ^ n)) with maxPTODuration by (change maxPTODuration with 60000000000; nia).
    assert (i64 (x * 2 ^ n) ≤ 0 ∨ maxPTODuration < i64 (x * 2 ^ n)) as Hi.
    { replace (x * 2 ^ n) with (x * 2 ^ (n - 36) * 2 ^ 36) by (rewrite <-Z.mul_assoc, <-Z.pow_add_r by lia; do 2 f_equal; lia).
      unfold i64. set (k := x * 2 ^ (n - 36)).
      replace (k * 2 ^ 36 + 2 ^ 63) with ((k + 2 ^ 27) * 2 ^ 36) by lia.
      change (2 ^ 64) with (2 ^ 28 * 2 ^ 36). rewrite Z.mul_mod_distr_r by lia.
      change maxPTODuration with 60000000000. lia. }
    destruct (Z.ltb_spec maxPTODuration (i64 (x * 2 ^ n))), (Z.leb_spec (i64 (x * 2 ^ n)) 0); cbn; lia.
  - rewrite i64_small by nia.
    destruct (Z.ltb_spec maxPTODuration (x * 2 ^ n)), (Z.leb_spec (x * 2 ^ n) 0); cbn; nia.
Qed.

Lemma outstanding_time s :
  space_inv s → HasOutstandingPackets (history s) = true → 0 < lastAckElicitingPacketTime s.
Proof.
  intros [Hh _ _ _ Ht] Hout%Z.ltb_lt. rewrite (hist_count _ Hh) in Hout. unfold count_outstanding in Hout.
  destruct (filter outstanding (Packets (history s))) as [|p ps] eqn:Hf; [done|].
  assert (p ∈ filter outstanding (Packets (history s))) as [Ho Hp]%list_elem_of_filter by (rewrite Hf; left).
  unfold elicited in Ht. rewrite Forall_forall in Ht. apply (Ht p Hp). unfold outstanding, isRegularPacket in *.
  by destruct (declaredLost p), (skippedPacket p), (IsPathMTUProbePacket p), (isPathProbePacket p).
Qed.

(** Something is outstanding that a probe timeout is for. *)
Definition awaits h : bool :=
  hasOutstandingCryptoPackets h || (handshakeConfirmed h && HasOutstandingPackets (history (appDataPackets h))) ||
  negb (peerCompletedAddressValidation h).

Lemma pto_armed h now :
  Forall space_inv (spaces h) → validation_inv h → 0 ≤ now → awaits h = true → (getPTOTimeAndSpace h now).1 ≠ 0.
Proof.
  intros Hsp Hv Hnow Hw. pose proof (scaled_bounds h false) as Hf. pose proof (scaled_bounds h true) as Ht.
  unfold spaces in Hsp. rewrite !Forall_app, Forall_singleton in Hsp. destruct Hsp as (Hi&Hh&Ha).
  pose proof (outstanding_time _ Ha) as Hta. pose proof (validation_confirmed h Hv) as Hconf.
  unfold getPTOTimeAndSpace, awaits, hasOutstandingCryptoPackets in *.
  assert (∀ o s, Forall space_inv (option_list o) → o = Some s → HasOutstandingPackets (history s) = true →
    0 < lastAckElicitingPacketTime s) as Htime.
  { intros o s Ho ->. apply outstanding_time. cbn in Ho. by inversion Ho. }
  destruct (initialPackets h) as [si|] eqn:Hsi, (handshakePackets h) as [sh|] eqn:Hsh; cbn [space_outstanding] in *;
    try pose proof (Htime _ si Hi eq_refl); try pose proof (Htime _ sh Hh eq_refl);
    try destruct (HasOutstandingPackets (history si)); try destruct (HasOutstandingPackets (history sh));
    destruct (handshakeConfirmed h), (HasOutstandingPackets (history (appDataPackets h))), (peerCompletedAddressValidation h);
    cbn in *; try done; try (specialize (Hconf eq_refl); done).
  all: unfold earlier; repeat (zcase; cbn); cbn; try lia; intuition lia.
Qed.

(** ** The amplification limit *)
Definition size_of (o : op) : Z := match o with OpSent _ _ _ _ _ _ _ size _ _ => size | _ => 0 end.
Definition received_by (o : op) : Z := match o with OpBytes n _ => n | _ => 0 end.

Lemma onPTO_progress h now random h' : onPTO h now random = Ok h' → progress h h'.
Proof.
  unfold onPTO. intros H. destruct (_ && _).
  { cbn [initialPackets handshakePackets set_numProbes set_ptoCount] in H.
    destruct (initialPackets h); [|destruct (handshakePackets h) eqn:Hh]; try done; by injection H as <-. }
  destruct (getPTOTimeAndSpace h now) as [u l]. destruct (u =? 0); [by injection H as <-|]. bind_inv H.
  destruct (_ && _ && _); [by injection H as <-|]. destruct l; try done; try (by injection H as <-).
  bind_inv H. destruct a0 as [h1 pn]. bind_inv H. bind_inv H. injection H as <-. by apply Pop_progress in Hm0.
Qed.

Lemma Timeout_progress h now random h' : OnLossDetectionTimeout h now random = Ok h' → progress h h'.
Proof.
  unfold OnLossDetectionTimeout. intros H. bind_inv H. destruct (getLossTimeAndSpace a) as [u l].
  bind_inv H. injection H as <-. transitivity a.
  - destruct (handshakeConfirmed h); [by eapply lostProbes_progress|by injection Hm as <-].
  - transitivity a0; [|done]. destruct (negb _); [by eapply detectLost_progress|by eapply onPTO_progress].
Qed.

(** What the operations do to the congestion controller. *)
Lemma exec_controller (I : C → Prop) h o h' :
  controller_inv I → allowed h o → exec h o = Ok h' →
  (∀ t size rtt, o = OpMigrate t size → I (NewCubicSender rtt size)) →
  (∀ size c, o = OpSize size → I (congestion h) → SetMaxDatagramSize_ (congestion h) size = Ok c → I c) →
  I (congestion h) → I (congestion h').
Proof.
  intros HI Hal Hrun Hmig Hsize Hc.
  assert (∀ h1, progress h h1 → I (congestion h1)) as Hp by (intros h1 (_&_&_&_&_&Hp); by apply Hp).
  destruct o as [l random|l t pn la sf fs ecn size mtu probe|n t|l t|ack l t|l t|t random|l|t random|t size|size];
    cbn [exec] in Hrun.
  - bind_inv Hrun. destruct a. injection Hrun as <-. by eapply Hp, Pop_progress.
  - destruct Hal as (_&_&_&Ht&Hs&_).
    destruct (SentPacket_progress _ _ _ _ _ _ _ _ _ _ _ _ Hrun) as (c&(_&_&_&_&_&Hpc)&Hcc). apply Hpc; [done|]. cbn.
    destruct Hcc as [->|(f&b&->)]; [done|]. by apply (inv_sent I HI).
  - injection Hrun as <-. unfold ReceivedBytes. by destruct (_ && _).
  - injection Hrun as <-. unfold ReceivedPacket. by destruct (_ && _ && _).
  - bind_inv Hrun. destruct a. injection Hrun as <-. by eapply Hp, ReceivedAck_progress.
  - apply Drop_validation in Hrun as (_&Hd&_). by apply Hd.
  - by eapply Hp, Timeout_progress.
  - bind_inv Hrun. destruct a. injection Hrun as <-. by eapply Hp, QueueProbe_progress.
  - by eapply Hp, Retry_progress.
  - apply Migrated_progress in Hrun as (rtt&_&_&_&_&_&Hm). apply Hm; [done|]. cbn. by eapply Hmig.
  - unfold SetMaxDatagramSize in Hrun. bind_inv Hrun. injection Hrun as <-. cbn. by eapply Hsize.
Qed.

Lemma exec_counters h o h' :
  exec h o = Ok h' →
  bytesSent h' = bytesSent h + size_of o ∧ bytesReceived h' = bytesReceived h + received_by o ∧
  (peerAddressValidated h = true → peerAddressValidated h' = true).
Proof.
  assert (∀ h0 h1, quiet h0 h1 → bytesSent h1 = bytesSent h0 + 0 ∧ bytesReceived h1 = bytesReceived h0 + 0 ∧
    (peerAddressValidated h0 = true → peerAddressValidated h1 = true)) as Hq.
  { intros h0 h1 (->&->&->). rewrite !Z.add_0_r. done. }
  destruct o; cbn [exec size_of received_by]; intros H.
  - bind_inv H. destruct a. injection H as <-. apply Hq. apply Pop_progress in Hm. apply Hm.
  - apply SentPacket_progress in H as (c&(_&_&_&_&(H1&H2&H3)&_)&_). cbn in *. rewrite H1, H2, H3, Z.add_0_r. done.
  - injection H as <-. unfold ReceivedBytes. destruct (_ && _); cbn; rewrite Z.add_0_r; done.
  - injection H as <-. unfold ReceivedPacket. destruct (_ && _ && _); cbn; rewrite !Z.add_0_r; done.
  - bind_inv H. destruct a. injection H as <-. apply Hq. apply ReceivedAck_progress in Hm. apply Hm.
  - apply Hq. by eapply Drop_validation.
  - apply Hq. apply Timeout_progress in H. apply H.
  - bind_inv H. destruct a. injection H as <-. apply Hq. apply QueueProbe_progress in Hm. apply Hm.
  - apply Hq. apply Retry_progress in H. apply H.
  - apply Hq. apply Migrated_progress in H as (rtt&_&_&_&_&H&_). done.
  - apply Hq. unfold SetMaxDatagramSize in H. bind_inv H. by injection H as <-.
Qed.

Fixpoint exec_all h (os : list op) : res handler :=
  match os with [] => Ok h | o :: os => h ← exec h o; exec_all h os end.

(** Packets are sent in datagrams of at most [M] bytes, and only when [SendMode]
    allows it. *)
Inductive limited (M : Z) : handler → Prop :=
| limited_new initialPN size rtt validated ecn pers random :
    limited M (newSentPacketHandler initialPN size rtt validated ecn pers random)
| limited_datagram h now os h' :
    limited M h → SendMode h now ≠ Ok SendNone → Forall (λ o, 0 ≤ size_of o ∧ received_by o = 0) os →
    foldr (λ o n, size_of o + n) 0 os ≤ M → exec_all h os = Ok h' → limited M h'
| limited_other h o h' :
    limited M h → size_of o = 0 → 0 ≤ received_by o → exec h o = Ok h' → limited M h'.

Lemma exec_all_counters os : ∀ h h',
  exec_all h os = Ok h' → Forall (λ o, 0 ≤ size_of o ∧ received_by o = 0) os →
  bytesSent h' = bytesSent h + foldr (λ o n, size_of o + n) 0 os ∧ bytesReceived h' = bytesReceived h ∧
  (peerAddressValidated h = true → peerAddressValidated h' = true).
Proof.
  induction os as [|o os IH]; intros h h' H Hos; cbn [exec_all foldr] in *.
  { injection H as <-. by rewrite Z.add_0_r. }
  bind_inv H. apply Forall_cons in Hos as [[_ Hr] Hos]. apply exec_counters in Hm as (Hs&Hb&Hv).
  destruct (IH _ _ H Hos) as (IH1&IH2&IH3). split_and!; [lia|lia|auto].
Qed.

Lemma limited_bound M h :
  0 ≤ M → limited M h →
  0 ≤ bytesReceived h ∧ (peerAddressValidated h = false → bytesSent h ≤ Z.max 0 (3 * bytesReceived h - 1 + M)).
Proof.
  intros HM. induction 1 as [|h now os h' _ [IH0 IH] Hmode Hos Hsum Hrun|h o h' _ [IH0 IH] Hsz Hrc Hrun].
  - cbn. split; [done|]. lia.
  - apply exec_all_counters in Hrun as (Hs&Hb&Hv); [|done]. split; [lia|]. intros Hval.
    destruct (peerAddressValidated h) eqn:Hvh; [by rewrite Hv in Hval|].
    unfold SendMode, isAmplificationLimited in Hmode. rewrite Hvh in Hmode.
    destruct (Z.leb_spec (amplificationFactor * bytesReceived h) (bytesSent h)) as [|Hlt]; [done|].
    unfold amplificationFactor in Hlt. lia.
  - apply exec_counters in Hrun as (Hs&Hb&Hv). split; [lia|]. intros Hval.
    destruct (peerAddressValidated h) eqn:Hvh; [by rewrite Hv in Hval|]. specialize (IH eq_refl). lia.
Qed.

(** ** The loss delay *)
Lemma loss_delay_exact h :
  let m := Z.max (latestRTT (rttStats h)) (smoothedRTT (rttStats h)) in
  0 ≤ m < 2 ^ 49 → getLossDelay h = Z.max (9 * m / 8) TimerGranularity.
Proof.
  intros m Hm. unfold getLossDelay. fold m. f_equal.
  assert (is_dyadic (mul64 timeThreshold (float64 m)) (9 * m) (3 + 0)) as Hf.
  { apply mul_exact; try lia; [apply float_of_exact; unfold small; lia..|]. unfold small. lia. }
  rewrite (int64_exact _ _ _ Hf) by (lia || (change (2 ^ (3 + 0)) with 8; dmlia)). done.
Qed.

(** The rule of RFC 9002 for lost packets. *)
Definition lost_rule (la now delay : Z) p : Prop :=
  PacketNumber p ≤ la ∧ (SendTime p ≤ now - delay ∨ PacketNumber p + 3 ≤ la).

Lemma lost_now_rule la now delay p : lost_now la (now - delay) p = true ↔ lost_rule la now delay p.
Proof.
  unfold lost_now, is_lost, lost_rule, packetThreshold. rewrite andb_true_iff, orb_true_iff, !Z.leb_le. done.
Qed.

(** The time at which the next packet is lost. *)
Lemma next_loss_spec la now delay ps :
  ascending ps →
  let t := next_loss la (now - delay) delay ps in
  let rest p := p ∈ ps ∧ ¬ lost_rule la now delay p ∧ PacketNumber p ≤ la in
  (t = 0 ∧ ∀ p, ¬ rest p) ∨
  (∃ p, rest p ∧ t = SendTime p + delay ∧ now < t ∧ ∀ q, rest q → PacketNumber p ≤ PacketNumber q).
Proof.
  intros Hasc t rest. unfold t, next_loss.
  assert (∀ p, p ∈ filter (lost_later la (now - delay)) ps ↔ rest p) as Hrest.
  { intros p. rewrite list_elem_of_filter. unfold rest, lost_later. rewrite <-lost_now_rule. unfold lost_now.
    destruct (Z.leb_spec (PacketNumber p) la); destruct (is_lost la (now - delay) p); cbn; intuition (done || lia). }
  destruct (filter (lost_later la (now - delay)) ps) as [|p rps] eqn:Hf.
  - left. split; [done|]. intros p Hp%Hrest. set_solver.
  - right. exists p. assert (rest p) as Hp by (apply Hrest; left). split_and!; try done.
    + destruct Hp as (_&Hn&?). unfold lost_rule in Hn. lia.
    + intros q Hq%Hrest. assert (ascending (p :: rps)) as Ha by (rewrite <-Hf; by apply ascending_filter).
      inversion Ha as [|? ? _ Hall]; subst. rewrite Forall_forall in Hall.
      apply elem_of_cons in Hq as [->|Hq]; [done|]. specialize (Hall q Hq). lia.
Qed.

(** ** Correctness *)

(** C4: in every state that the connection can bring the handler into, the bytes in
    flight are the sum of the sizes of the ack-eliciting packets that are tracked, and
    every operation succeeds or is an ACK frame for packets that were not sent; none
    panics. *)
Theorem sent_packets_safe h sent dropped o :
  reachable h sent dropped → allowed h o →
  bytesInFlight h = tracked_flight h ∧
  ((∃ h', exec h o = Ok h') ∨
   (∃ ack l t e, o = OpAck ack l t ∧ exec h o = Err e ∧ ack_error e)).
Proof.
  intros [Ha Hv]%reachable_acct Hal. pose proof (exec_spec _ _ _ _ Ha Hv Hal) as Hpost.
  split; [rewrite (acct_flight _ _ _ _ Ha); lia|]. unfold exec_post in Hpost.
  destruct (exec h o) as [h'|e|]; [left; by eexists| |done].
  destruct Hpost as [(ack&l&t&->) He]. right. by exists ack, l, t, e.
Qed.

(** C5: no frame gets lost or is settled twice.  The frames with a handler that were
    sent are exactly those reported acknowledged or lost, those of tracked packets and
    those that were dropped with their keys or when the connection migrated. *)
Theorem frames_settled_once h sent dropped :
  reachable h sent dropped → sent ≡ₚ settled_frames h ++ tracked_frames h ++ dropped.
Proof. intros [Ha _]%reachable_acct. symmetry. exact (acct_frames _ _ _ _ Ha). Qed.


(** C25: the loss detection declares exactly those packets lost that are not above the
    largest acknowledged one and were sent 9/8 of the RTT (at least 1 ms) ago or three
    packets before it.  Their frames are reported lost once, in order, and the loss
    timer is set for the first of the packets that may be lost later. *)
Theorem loss_detection_exact h sent dropped l s now :
  reachable h sent dropped → getPacketNumberSpace h l = Ok s → 0 ≤ now →
  let m := Z.max (latestRTT (rttStats h)) (smoothedRTT (rttStats h)) in
  0 ≤ m < 2 ^ 49 →
  let delay := Z.max (9 * m / 8) Millisecond in
  let la := largestAcked s in
  ∃ h' s' lost, detectLostPackets h now l = Ok h' ∧ getPacketNumberSpace h' l = Ok s' ∧
    ascending lost ∧ (∀ p, p ∈ lost ↔ p ∈ Packets (history s) ∧ lost_rule la now delay p) ∧
    (∀ p, p ∈ Packets (history s') ↔ p ∈ Packets (history s) ∧ ¬ lost_rule la now delay p) ∧
    events h' = events h ++ (OnLost <$> all_frames lost) ∧
    ((lossTime s' = 0 ∧ ∀ p, p ∈ Packets (history s') → la < PacketNumber p) ∨
     (∃ p, p ∈ Packets (history s') ∧ PacketNumber p ≤ la ∧ lossTime s' = SendTime p + delay ∧ now < lossTime s' ∧
        ∀ q, q ∈ Packets (history s') → PacketNumber p ≤ PacketNumber q)).
Proof.
  intros [Ha _]%reachable_acct Hs Hnow m Hm delay la.
  pose proof (space_hist s (acct_space _ _ _ _ _ _ Ha Hs)) as Hh. pose proof (Packets_ascending _ Hh) as Hasc.
  assert (getLossDelay h = delay) as Hd by (by apply loss_delay_exact).
  destruct (detectLost_spec 0 _ _ h l s now ltac:(lia) Ha Hs Hnow) as (h'&s'&Hrun&_&Hg&_&Hps&He&Hlt).
  rewrite Hd in *. fold la in Hps, He, Hlt.
  assert (∀ p, p ∈ Packets (history s') ↔ p ∈ Packets (history s) ∧ ¬ lost_rule la now delay p) as Hkeep.
  { intros p. rewrite Hps, list_elem_of_filter, <-lost_now_rule. destruct (lost_now _ _ p); naive_solver. }
  exists h', s', (filter (lost_now la (now - delay)) (Packets (history s))). split_and!; [done|done|by apply ascending_filter| |done|exact He|].
  - intros p. rewrite list_elem_of_filter, <-lost_now_rule. destruct (lost_now la (now - delay) p); naive_solver.
  - destruct (next_loss_spec la now delay _ Hasc) as [[Ht Hno]|(p&(Hp&Hn&Hle)&Ht&Hlater&Hmin)]; rewrite Hlt.
    + left. split; [done|]. intros p [Hp Hr]%Hkeep. destruct (Z.le_gt_cases (PacketNumber p) la); [|done].
      by destruct (Hno p).
    + right. exists p. split_and!; try done; [by apply Hkeep|]. intros q [Hq Hr]%Hkeep.
      destruct (Z.le_gt_cases (PacketNumber q) la); [by apply Hmin|]. lia.
Qed.

(** C36: a server that has not validated the client's address sends at most three times
    what it received, up to one datagram, if it obeys [SendMode]. *)
Theorem amplification_limit M h :
  0 ≤ M → limited M h → peerAddressValidated h = false →
  bytesSent h ≤ Z.max 0 (3 * bytesReceived h - 1 + M).
Proof. intros HM Hl Hv. destruct (limited_bound M h HM Hl) as [_ Hb]. by apply Hb. Qed.

(** C37: the loss detection timer.  It is armed whenever a packet is outstanding that can
    be probed for, a path probe is outstanding or the client waits for the validation of
    its address, unless the amplification limit is reached; the probe timeout doubles
    with every timeout up to 60 seconds. *)
Theorem loss_timer_armed h sent dropped now :
  reachable h sent dropped → 0 ≤ now →
  let a := alarm_Time (alarm (setLossDetectionTimer h now)) in
  (isAmplificationLimited h = true → a = 0) ∧
  (isAmplificationLimited h = false → awaits h || HasOutstandingPathProbes (history (appDataPackets h)) = true → a ≠ 0) ∧
  (∀ b, 0 < getScaledPTO h b ≤ maxPTODuration) ∧
  (∀ b, let x := PTO (rttStats h) b in
     0 < x → 0 ≤ ptoCount h → x * 2 ^ ptoCount h < 2 ^ 63 ∨ 36 ≤ ptoCount h →
     getScaledPTO h b = Z.min maxPTODuration (x * 2 ^ ptoCount h)).
Proof.
  intros [Ha Hv]%reachable_acct Hnow a. split_and!; [| |apply scaled_bounds|apply scaled_backoff].
  - intros Hl. unfold a. cbn. unfold lossDetectionTime. rewrite Hl. by destruct (_ && _).
  - intros Hl Hw. unfold a. cbn. unfold lossDetectionTime. rewrite Hl.
    pose proof (acct_spaces _ _ _ _ Ha) as Hsp. pose proof (pto_armed h now Hsp Hv Hnow) as Hpto.
    pose proof (space_probes _ (acct_space _ _ _ _ Encryption1RTT _ Ha eq_refl)) as [Hpr _].
    set (idle := _ && _ && _ && _). assert (idle = false) as ->.
    { unfold idle, awaits in *. destruct (hasOutstandingCryptoPackets h), (handshakeConfirmed h),
        (HasOutstandingPackets _), (peerCompletedAddressValidation h), (HasOutstandingPathProbes _); done. }
    set (probe := if HasOutstandingPathProbes _ then _ else 0).
    assert (HasOutstandingPathProbes (history (appDataPackets h)) = true → 0 < probe) as Hprobe.
    { unfold probe, HasOutstandingPathProbes, FirstOutstandingPathProbe. intros Hp. rewrite Hp.
      destruct (pathProbePackets (history (appDataPackets h))) as [|p ps]; [done|].
      apply Forall_cons in Hpr as [[(_&_&_&_&?) _] _]. cbn. unfold pathProbePacketLossTimeout, Millisecond. lia. }
    destruct (getLossTimeAndSpace h) as [lt ll]. destruct (getPTOTimeAndSpace h now) as [pt pl]. cbn in Hpto.
    destruct (awaits h); [specialize (Hpto eq_refl)|specialize (Hprobe Hw)]; repeat (zcase; cbn); lia.
Qed.

End safety.

(** ** An example *)

(** A congestion controller with a fixed window. *)
#[global] Instance fixed_window : SendAlgorithm Z := {|
  NewCubicSender _ size := 10 * size;
  TimeUntilSend_ _ _ _ := Ok 0;
  HasPacingBudget _ _ _ := Ok true;
  OnPacketSent c _ _ _ _ _ _ := c;
  CanSend c inFlight := inFlight <? c;
  MaybeExitSlowStart c _ := c;
  OnPacketAcked c _ _ _ _ _ := c;
  OnCongestionEvent c _ _ _ _ := c;
  SetMaxDatagramSize_ c _ := Ok c;
|}.

Definition example_new : sentPacketHandler (F:=Z) (C:=Z) :=
  newSentPacketHandler 0 1200 zeroRTTStats true false PerspectiveClient 50.

Definition example_send (pn f : Z) : op :=
  OpSent Encryption1RTT (1000 + pn) pn InvalidPacketNumber [] [mkFrame f true] ECNNon 100 false false.

(** Two packets are sent. *)
Definition example_ops : list op :=
  [OpPop Encryption1RTT 0; example_send 0 7; OpPop Encryption1RTT 0; example_send 1 8].

Definition example_handler : sentPacketHandler (F:=Z) (C:=Z) :=
  match exec_all example_new example_ops with Ok h => h | _ => example_new end.

Lemma reach_plain {F C} `{!SendAlgorithm C} (h : sentPacketHandler (F:=F) (C:=C)) sent dropped o h' :
  reachable h sent dropped → allowed h o → exec h o = Ok h' → drops h o h' [] →
  reachable h' (sent ++ sent_by o) dropped.
Proof. intros. rewrite <-(app_nil_r dropped). by eapply reach_step. Qed.

Lemma example_handler_reachable : reachable example_handler [7; 8] [].
Proof.
  assert (reachable example_new [] []) as H0 by (apply reach_new; lia).
  eapply (reach_plain _ _ _ (OpPop Encryption1RTT 0)) in H0; [|eexists; split; [done|by left]|vm_compute; reflexivity|done].
  eapply (reach_plain _ _ _ (example_send 0 7)) in H0; [| |vm_compute; reflexivity|done].
  2: { eexists. split; [done|]. split; by split_and!. }
  eapply (reach_plain _ _ _ (OpPop Encryption1RTT 0)) in H0; [|eexists; split; [done|by right]|vm_compute; reflexivity|done].
  eapply (reach_plain _ _ _ (example_send 1 8)) in H0; [| |vm_compute; reflexivity|done].
  2: { eexists. split; [done|]. split; by split_and!. }
  vm_compute in H0. vm_compute. exact H0.
Qed.

Definition example_ack : AckFrame.t := AckFrame.mk [mkAckRange 0 0] 0 0 0 0.

Lemma sent_packets_safe_witness :
  bytesInFlight example_handler = 200 ∧
  ((∃ h', exec example_handler (OpAck example_ack Encryption1RTT 3000) = Ok h') ∨
   (∃ ack l t e, OpAck example_ack Encryption1RTT 3000 = OpAck (F:=Z) ack l t ∧
      exec example_handler (OpAck example_ack Encryption1RTT 3000) = Err e ∧ ack_error (F:=Z) e)).
Proof.
  apply (sent_packets_safe example_handler [7; 8] [] (OpAck example_ack Encryption1RTT 3000)).
  - exact example_handler_reachable.
  - split; [by eexists|]. split; [cbn; unfold maxVarInt8; lia|lia].
Defined.

Lemma frames_settled_once_witness :
  [7; 8] ≡ₚ settled_frames example_handler ++ tracked_frames example_handler ++ [].
Proof. apply (frames_settled_once example_handler [7; 8] []). exact example_handler_reachable. Defined.


Lemma loss_detection_exact_witness :
  let s := appDataPackets example_handler in
  let delay := Z.max (9 * 0 / 8) Millisecond in
  let la := largestAcked s in
  ∃ h' s' lost, detectLostPackets example_handler 3000 Encryption1RTT = Ok h' ∧
    getPacketNumberSpace h' Encryption1RTT = Ok s' ∧
    ascending lost ∧ (∀ p, p ∈ lost ↔ p ∈ Packets (history s) ∧ lost_rule la 3000 delay p) ∧
    (∀ p, p ∈ Packets (history s') ↔ p ∈ Packets (history s) ∧ ¬ lost_rule la 3000 delay p) ∧
    events h' = events example_handler ++ (OnLost <$> all_frames lost) ∧
    ((lossTime s' = 0 ∧ ∀ p, p ∈ Packets (history s') → la < PacketNumber p) ∨
     (∃ p, p ∈ Packets (history s') ∧ PacketNumber p ≤ la ∧ lossTime s' = SendTime p + delay ∧ 3000 < lossTime s' ∧
        ∀ q, q ∈ Packets (history s') → PacketNumber p ≤ PacketNumber q)).
Proof.
  apply (loss_detection_exact example_handler [7; 8] [] Encryption1RTT (appDataPackets example_handler) 3000).
  - exact example_handler_reachable.
  - done.
  - lia.
  - split; [done|]. vm_compute. done.
Defined.

(** A server that has received one datagram. *)
Definition example_server : sentPacketHandler (F:=Z) (C:=Z) :=
  ReceivedBytes (newSentPacketHandler 0 1200 zeroRTTStats false false PerspectiveServer 50) 1200 500.

Lemma amplification_limit_witness : bytesSent example_server ≤ Z.max 0 (3 * bytesReceived example_server - 1 + 1200).
Proof.
  apply (amplification_limit 1200 example_server).
  - lia.
  - apply (limited_other 1200 (newSentPacketHandler 0 1200 zeroRTTStats false false PerspectiveServer 50) (OpBytes 1200 500));
      [apply limited_new|done|done|done].
  - done.
Defined.

Lemma loss_timer_armed_witness :
  let a := alarm_Time (alarm (setLossDetectionTimer example_handler 3000)) in
  (isAmplificationLimited example_handler = true → a = 0) ∧
  (isAmplificationLimited example_handler = false →
     awaits example_handler || HasOutstandingPathProbes (history (appDataPackets example_handler)) = true → a ≠ 0) ∧
  (∀ b, 0 < getScaledPTO example_handler b ≤ maxPTODuration) ∧
  (∀ b, let x := PTO (rttStats example_handler) b in
     0 < x → 0 ≤ ptoCount example_handler → x * 2 ^ ptoCount example_handler < 2 ^ 63 ∨ 36 ≤ ptoCount example_handler →
     getScaledPTO example_handler b = Z.min maxPTODuration (x * 2 ^ ptoCount example_handler)).
Proof.
  apply (loss_timer_armed example_handler [7; 8] []).
  - exact example_handler_reachable.
  - lia.
Defined.

(** ** Path probes *)
Definition example_probe (pn f : Z) : packet Z :=
  mkPacket 1000 pn [] [mkFrame f true] 0 100 Encryption1RTT false false false false true.

(** [MigratedPath] removes path probes while it iterates over them: the second of three
    stays. *)
Lemma migration_keeps_path_probe :
  let '(arr, m) := removeAllProbes [example_probe 0 7; example_probe 1 8; example_probe 2 9] 3 0 3 in
  PacketNumber <$> take m arr = [1].
Proof. reflexivity. Qed.

(** A packet that is sent after ten seconds. *)
Definition late_send (pn f : Z) (probe : bool) : op :=
  OpSent Encryption1RTT (10000 * Millisecond) pn InvalidPacketNumber [] [mkFrame f true] ECNNon 100 false probe.

(** The entry for a path probe has no send time, so that it is gone as soon as a later
    packet is acknowledged.  An acknowledgement of the path probe that arrives afterwards
    is ignored, and its frame is reported lost. *)
Lemma acked_path_probe_is_reported_lost :
  ∃ h, exec_all example_new
         [OpPop Encryption1RTT 0; late_send 0 7 true; OpPop Encryption1RTT 0; late_send 1 8 false;
          OpAck (AckFrame.mk [mkAckRange 1 1] 0 0 0 0) Encryption1RTT (10020 * Millisecond);
          OpAck (AckFrame.mk [mkAckRange 0 1] 0 0 0 0) Encryption1RTT (10030 * Millisecond);
          OpDrop EncryptionHandshake (10040 * Millisecond); OpTimeout (11000 * Millisecond) 0] = Ok h ∧
    events h = [OnAcked 8; OnLost 7].
Proof. eexists. split; [vm_compute; reflexivity|done]. Qed.

(** A path probe counts as a packet with an ACK of packet 0. *)
Lemma path_probe_confirms_ack :
  ∃ h, exec_all example_new
         [OpPop Encryption1RTT 0; late_send 0 7 true;
          OpAck (AckFrame.mk [mkAckRange 0 0] 0 0 0 0) Encryption1RTT (10020 * Millisecond)] = Ok h ∧
    GetLowestPacketNotConfirmedAcked h = 1.
Proof. eexists. split; [vm_compute; reflexivity|done]. Qed.
