(* ===== verification/Congestion.v ===== *)
(** * Congestion control (internal/congestion)

    Hybrid slow start, the pacer, Cubic and the sender that combines them.  The
    RTT statistics, to which the sender of the code has a pointer, are an argument.
    The sender is created with [reno = true] by the sent packet handler.  The
    tracing of state changes is left out.  [math.Cbrt] is an argument of Cubic. *)

From Stdlib Require Import Floats.SpecFloat.
From S2P Require Import Prelude Protocol Float RTTStats SentPackets.

Definition Second : Z := 1000000000.
Definition InitialPacketSize : Z := 1280.
Definition MinPacingDelay : Z := Millisecond.

(** ** Bandwidth *)
Definition infBandwidth : Z := 2 ^ 64 - 1.
Definition BytesPerSecond : Z := 8.

Definition BandwidthFromDelta (bytes delta : Z) : res Z :=
  if delta =? 0 then Panic
  else Ok (u64 (u64 (u64 bytes * Second) / u64 delta * BytesPerSecond)).

(** ** Hybrid slow start *)
Module HybridSlowStart.

Definition hybridStartLowWindow : Z := 16.
Definition hybridStartMinSamples : Z := 8.
Definition hybridStartDelayFactorExp : Z := 3.
Definition hybridStartDelayMinThresholdUs : Z := 4000.
Definition hybridStartDelayMaxThresholdUs : Z := 16000.

Record HybridSlowStart := mk {
  endPacketNumber : Z;
  lastSentPacketNumber : Z;
  started : bool;
  currentMinRTT : Z;
  rttSampleCount : Z;
  hystartFound : bool;
}.
Definition zero : HybridSlowStart := mk 0 0 false 0 0 false.

Definition StartReceiveRound (s : HybridSlowStart) (lastSent : Z) : HybridSlowStart :=
  mk lastSent (lastSentPacketNumber s) true 0 0 (hystartFound s).

Definition IsEndOfRound (s : HybridSlowStart) (ack : Z) : bool := endPacketNumber s <? ack.

Definition ShouldExitSlowStart (s : HybridSlowStart) (latestRTT minRTT congestionWindow : Z)
  : HybridSlowStart * bool :=
  let s := if negb (started s) then StartReceiveRound s (lastSentPacketNumber s) else s in
  if hystartFound s then (s, true) else
  let count := u32 (rttSampleCount s + 1) in
  let currentMin :=
    if (count <=? hybridStartMinSamples) && ((currentMinRTT s =? 0) || (latestRTT <? currentMinRTT s))
    then latestRTT else currentMinRTT s in
  let found :=
    if count =? hybridStartMinSamples then
      let us := Z.shiftr (Z.quot minRTT Microsecond) hybridStartDelayFactorExp in
      let us := Z.min us hybridStartDelayMaxThresholdUs in
      let threshold := Z.max us hybridStartDelayMinThresholdUs * Microsecond in
      i64 (minRTT + threshold) <? currentMin
    else false in
  (mk (endPacketNumber s) (lastSentPacketNumber s) (started s) currentMin count found,
   (hybridStartLowWindow <=? congestionWindow) && found).

Definition OnPacketSent (s : HybridSlowStart) (packetNumber : Z) : HybridSlowStart :=
  mk (endPacketNumber s) packetNumber (started s) (currentMinRTT s) (rttSampleCount s) (hystartFound s).

Definition OnPacketAcked (s : HybridSlowStart) (ackedPacketNumber : Z) : HybridSlowStart :=
  if IsEndOfRound s ackedPacketNumber
  then mk (endPacketNumber s) (lastSentPacketNumber s) false (currentMinRTT s) (rttSampleCount s) (hystartFound s)
  else s.

Definition Started (s : HybridSlowStart) : bool := started s.

Definition Restart (s : HybridSlowStart) : HybridSlowStart :=
  mk (endPacketNumber s) (lastSentPacketNumber s) false (currentMinRTT s) (rttSampleCount s) false.
End HybridSlowStart.

(** ** The pacer

    A token bucket.  The bandwidth that the closure [getBandwidth] of the code
    returns is an argument. *)
Module Pacer.

Definition maxBurstSizePackets : Z := 10.

Record pacer := mk {
  budgetAtLastSent : Z;
  maxDatagramSize : Z;
  lastSentTime : Z;
}.

Definition adjustedBandwidth (getBandwidth : Z) : Z :=
  u64 (getBandwidth / BytesPerSecond * 5) / 4.

Definition maxBurstSize (p : pacer) (bandwidth : Z) : Z :=
  Z.max (Z.quot (i64 (u64 (u64 (MinPacingDelay + TimerGranularity) * adjustedBandwidth bandwidth))) Second)
        (i64 (maxBurstSizePackets * maxDatagramSize p)).

Definition newPacer (bandwidth : Z) : pacer :=
  let p := mk 0 InitialPacketSize 0 in
  mk (maxBurstSize p bandwidth) (maxDatagramSize p) (lastSentTime p).

Definition Budget (p : pacer) (bandwidth now : Z) : Z :=
  if lastSentTime p =? 0 then maxBurstSize p bandwidth else
  let budget := i64 (budgetAtLastSent p +
    Z.quot (i64 (i64 (adjustedBandwidth bandwidth) * time_Sub now (lastSentTime p))) Second) in
  let budget := if budget <? 0 then MaxByteCount else budget in
  Z.min (maxBurstSize p bandwidth) budget.

Definition SentPacket (p : pacer) (bandwidth sendTime size : Z) : pacer :=
  let budget := Budget p bandwidth sendTime in
  mk (if budget <=? size then 0 else i64 (budget - size)) (maxDatagramSize p) sendTime.

Definition TimeUntilSend (p : pacer) (bandwidth : Z) : res Z :=
  if maxDatagramSize p <=? budgetAtLastSent p then Ok 0 else
  let diff := u64 (Second * u64 (maxDatagramSize p - budgetAtLastSent p)) in
  let bw := adjustedBandwidth bandwidth in
  if bw =? 0 then Panic else
  let d := diff / bw in
  let d := if 0 <? diff mod bw then u64 (d + 1) else d in
  Ok (lastSentTime p + Z.max MinPacingDelay (i64 d)).

Definition SetMaxDatagramSize (p : pacer) (s : Z) : pacer :=
  mk (budgetAtLastSent p) s (lastSentTime p).
End Pacer.

(** ** Cubic *)
Module Cubic.

Definition cubeScale : Z := 40.
Definition cubeCongestionWindowScale : Z := 410.
Definition maxDatagramSize : Z := InitialPacketSize.
Definition cubeFactor : Z := Z.shiftl 1 cubeScale / cubeCongestionWindowScale / maxDatagramSize.
Definition defaultNumConnections : Z := 1.
(** The constants 0.7 and 0.85. *)
Definition beta_const : spec_float := div32 (float32 7) (float32 10).
Definition betaLastMax_const : spec_float := div32 (float32 85) (float32 100).

Record Cubic := mk {
  numConnections : Z;
  epoch : Z;
  lastMaxCongestionWindow : Z;
  ackedBytesCount : Z;
  estimatedTCPcongestionWindow : Z;
  originPointCongestionWindow : Z;
  timeToOriginPoint : Z;
  lastTargetCongestionWindow : Z;
}.

Definition Reset (c : Cubic) : Cubic := mk (numConnections c) 0 0 0 0 0 0 0.
Definition NewCubic : Cubic := Reset (mk defaultNumConnections 0 0 0 0 0 0 0).

Definition beta (c : Cubic) : spec_float :=
  div32 (add32 (sub32 (float32 (numConnections c)) (float32 1)) beta_const) (float32 (numConnections c)).

Definition betaLastMax (c : Cubic) : spec_float :=
  div32 (add32 (sub32 (float32 (numConnections c)) (float32 1)) betaLastMax_const) (float32 (numConnections c)).

Definition alpha (c : Cubic) : spec_float :=
  let b := beta c in
  div32 (mul32 (mul32 (mul32 (float32 3) (float32 (numConnections c))) (float32 (numConnections c)))
               (sub32 (float32 1) b))
        (add32 (float32 1) b).

Definition OnApplicationLimited (c : Cubic) : Cubic :=
  mk (numConnections c) 0 (lastMaxCongestionWindow c) (ackedBytesCount c) (estimatedTCPcongestionWindow c)
     (originPointCongestionWindow c) (timeToOriginPoint c) (lastTargetCongestionWindow c).

Definition CongestionWindowAfterPacketLoss (c : Cubic) (currentCongestionWindow : Z) : Cubic * Z :=
  let lastMax :=
    if i64 (currentCongestionWindow + maxDatagramSize) <? lastMaxCongestionWindow c
    then int64_of_float (mul32 (betaLastMax c) (float32 currentCongestionWindow))
    else currentCongestionWindow in
  (mk (numConnections c) 0 lastMax (ackedBytesCount c) (estimatedTCPcongestionWindow c)
      (originPointCongestionWindow c) (timeToOriginPoint c) (lastTargetCongestionWindow c),
   int64_of_float (mul32 (float32 currentCongestionWindow) (beta c))).

Definition SetNumConnections (c : Cubic) (n : Z) : Cubic :=
  mk n (epoch c) (lastMaxCongestionWindow c) (ackedBytesCount c) (estimatedTCPcongestionWindow c)
     (originPointCongestionWindow c) (timeToOriginPoint c) (lastTargetCongestionWindow c).

Section ack.
Context (Cbrt : spec_float → spec_float).

(** The first ACK after a loss event starts an epoch. *)
Definition startEpoch (c : Cubic) (ackedBytes currentCongestionWindow eventTime : Z) : Cubic :=
  let '(toOrigin, origin) :=
    if lastMaxCongestionWindow c <=? currentCongestionWindow then (0, currentCongestionWindow) else
    (u32 (int64_of_float (Cbrt (float64
       (i64 (cubeFactor * (lastMaxCongestionWindow c - currentCongestionWindow)))))), lastMaxCongestionWindow c) in
  mk (numConnections c) eventTime (lastMaxCongestionWindow c) ackedBytes currentCongestionWindow
     origin toOrigin (lastTargetCongestionWindow c).

Definition CongestionWindowAfterAck (c : Cubic) (ackedBytes currentCongestionWindow delayMin eventTime : Z)
  : Cubic * Z :=
  let c := mk (numConnections c) (epoch c) (lastMaxCongestionWindow c) (i64 (ackedBytesCount c + ackedBytes))
              (estimatedTCPcongestionWindow c) (originPointCongestionWindow c) (timeToOriginPoint c)
              (lastTargetCongestionWindow c) in
  let c := if epoch c =? 0 then startEpoch c ackedBytes currentCongestionWindow eventTime else c in
  let elapsedTime :=
    Z.quot (i64 (Z.shiftl (Z.quot (time_Sub (eventTime + delayMin) (epoch c)) Microsecond) 10)) (1000 * 1000) in
  let offset := i64 (timeToOriginPoint c - elapsedTime) in
  let offset := if offset <? 0 then i64 (- offset) else offset in
  let delta := Z.shiftr (i64 (i64 (cubeCongestionWindowScale * offset * offset * offset) * maxDatagramSize)) cubeScale in
  let target := if timeToOriginPoint c <? elapsedTime
                then i64 (originPointCongestionWindow c + delta)
                else i64 (originPointCongestionWindow c - delta) in
  let target := Z.min target (i64 (currentCongestionWindow + Z.quot (ackedBytesCount c) 2)) in
  let estimated := i64 (estimatedTCPcongestionWindow c +
    int64_of_float (div32 (mul32 (mul32 (float32 (ackedBytesCount c)) (alpha c)) (float32 maxDatagramSize))
                          (float32 (estimatedTCPcongestionWindow c)))) in
  (mk (numConnections c) (epoch c) (lastMaxCongestionWindow c) 0 estimated
      (originPointCongestionWindow c) (timeToOriginPoint c) target,
   if target <? estimated then estimated else target).
End ack.
End Cubic.

(** ** The sender *)
Module Sender.
Import HybridSlowStart Pacer Cubic.

Definition maxBurstPackets : Z := 3.
Definition renoBeta : spec_float := div64 (float64 7) (float64 10).
Definition minCongestionWindowPackets : Z := 2.
Definition initialCongestionWindowPackets : Z := 32.

Record cubicSender := mk {
  hybridSlowStart : HybridSlowStart;
  cubic : Cubic;
  sender_pacer : pacer;
  reno : bool;
  largestSentPacketNumber : Z;
  largestAckedPacketNumber : Z;
  largestSentAtLastCutback : Z;
  lastCutbackExitedSlowstart : bool;
  congestionWindow : Z;
  slowStartThreshold : Z;
  numAckedPackets : Z;
  initialCongestionWindow : Z;
  initialMaxCongestionWindow : Z;
  sender_maxDatagramSize : Z;
}.

Section fields.
Context (c : cubicSender).
Definition set_hybrid (h : HybridSlowStart) : cubicSender :=
  mk h (cubic c) (sender_pacer c) (reno c) (largestSentPacketNumber c) (largestAckedPacketNumber c)
     (largestSentAtLastCutback c) (lastCutbackExitedSlowstart c) (congestionWindow c) (slowStartThreshold c)
     (numAckedPackets c) (initialCongestionWindow c) (initialMaxCongestionWindow c) (sender_maxDatagramSize c).
Definition set_cubic (cu : Cubic) : cubicSender :=
  mk (hybridSlowStart c) cu (sender_pacer c) (reno c) (largestSentPacketNumber c) (largestAckedPacketNumber c)
     (largestSentAtLastCutback c) (lastCutbackExitedSlowstart c) (congestionWindow c) (slowStartThreshold c)
     (numAckedPackets c) (initialCongestionWindow c) (initialMaxCongestionWindow c) (sender_maxDatagramSize c).
Definition set_pacer (p : pacer) : cubicSender :=
  mk (hybridSlowStart c) (cubic c) p (reno c) (largestSentPacketNumber c) (largestAckedPacketNumber c)
     (largestSentAtLastCutback c) (lastCutbackExitedSlowstart c) (congestionWindow c) (slowStartThreshold c)
     (numAckedPackets c) (initialCongestionWindow c) (initialMaxCongestionWindow c) (sender_maxDatagramSize c).
Definition set_largestSent (pn : Z) : cubicSender :=
  mk (hybridSlowStart c) (cubic c) (sender_pacer c) (reno c) pn (largestAckedPacketNumber c)
     (largestSentAtLastCutback c) (lastCutbackExitedSlowstart c) (congestionWindow c) (slowStartThreshold c)
     (numAckedPackets c) (initialCongestionWindow c) (initialMaxCongestionWindow c) (sender_maxDatagramSize c).
Definition set_largestAcked (pn : Z) : cubicSender :=
  mk (hybridSlowStart c) (cubic c) (sender_pacer c) (reno c) (largestSentPacketNumber c) pn
     (largestSentAtLastCutback c) (lastCutbackExitedSlowstart c) (congestionWindow c) (slowStartThreshold c)
     (numAckedPackets c) (initialCongestionWindow c) (initialMaxCongestionWindow c) (sender_maxDatagramSize c).
Definition set_cutback (pn : Z) (exited : bool) : cubicSender :=
  mk (hybridSlowStart c) (cubic c) (sender_pacer c) (reno c) (largestSentPacketNumber c) (largestAckedPacketNumber c)
     pn exited (congestionWindow c) (slowStartThreshold c)
     (numAckedPackets c) (initialCongestionWindow c) (initialMaxCongestionWindow c) (sender_maxDatagramSize c).
Definition set_window (w : Z) : cubicSender :=
  mk (hybridSlowStart c) (cubic c) (sender_pacer c) (reno c) (largestSentPacketNumber c) (largestAckedPacketNumber c)
     (largestSentAtLastCutback c) (lastCutbackExitedSlowstart c) w (slowStartThreshold c)
     (numAckedPackets c) (initialCongestionWindow c) (initialMaxCongestionWindow c) (sender_maxDatagramSize c).
Definition set_threshold (t : Z) : cubicSender :=
  mk (hybridSlowStart c) (cubic c) (sender_pacer c) (reno c) (largestSentPacketNumber c) (largestAckedPacketNumber c)
     (largestSentAtLastCutback c) (lastCutbackExitedSlowstart c) (congestionWindow c) t
     (numAckedPackets c) (initialCongestionWindow c) (initialMaxCongestionWindow c) (sender_maxDatagramSize c).
Definition set_numAcked (n : Z) : cubicSender :=
  mk (hybridSlowStart c) (cubic c) (sender_pacer c) (reno c) (largestSentPacketNumber c) (largestAckedPacketNumber c)
     (largestSentAtLastCutback c) (lastCutbackExitedSlowstart c) (congestionWindow c) (slowStartThreshold c)
     n (initialCongestionWindow c) (initialMaxCongestionWindow c) (sender_maxDatagramSize c).
Definition set_size (s : Z) : cubicSender :=
  mk (hybridSlowStart c) (cubic c) (sender_pacer c) (reno c) (largestSentPacketNumber c) (largestAckedPacketNumber c)
     (largestSentAtLastCutback c) (lastCutbackExitedSlowstart c) (congestionWindow c) (slowStartThreshold c)
     (numAckedPackets c) (initialCongestionWindow c) (initialMaxCongestionWindow c) s.
End fields.

Section sender.
Context (Cbrt : spec_float → spec_float).
Implicit Types (c : cubicSender) (rtt : RTTStats).

Definition GetCongestionWindow c : Z := congestionWindow c.

Definition BandwidthEstimate c rtt : res Z :=
  if smoothedRTT rtt =? 0 then Ok infBandwidth
  else BandwidthFromDelta (GetCongestionWindow c) (smoothedRTT rtt).

Definition newCubicSender rtt (reno : bool) (initialMaxDatagramSize initialCongestionWindow
    initialMaxCongestionWindow : Z) : res cubicSender :=
  let c := mk zero NewCubic (Pacer.mk 0 0 0) reno InvalidPacketNumber InvalidPacketNumber InvalidPacketNumber
              false initialCongestionWindow MaxByteCount 0 initialCongestionWindow
              initialMaxCongestionWindow initialMaxDatagramSize in
  bandwidth ← BandwidthEstimate c rtt;
  Ok (set_pacer c (newPacer bandwidth)).

Definition NewCubicSender rtt (initialMaxDatagramSize : Z) (reno : bool) : res cubicSender :=
  newCubicSender rtt reno initialMaxDatagramSize (initialCongestionWindowPackets * initialMaxDatagramSize)
    (MaxCongestionWindowPackets * initialMaxDatagramSize).

Definition TimeUntilSend c rtt : res Z :=
  bandwidth ← BandwidthEstimate c rtt; Pacer.TimeUntilSend (sender_pacer c) bandwidth.

Definition HasPacingBudget c rtt (now : Z) : res bool :=
  bandwidth ← BandwidthEstimate c rtt;
  Ok (sender_maxDatagramSize c <=? Budget (sender_pacer c) bandwidth now).

Definition maxCongestionWindow c : Z := sender_maxDatagramSize c * MaxCongestionWindowPackets.
Definition minCongestionWindow c : Z := sender_maxDatagramSize c * minCongestionWindowPackets.

Definition OnPacketSent c rtt (sentTime packetNumber bytes : Z) (isRetransmittable : bool) : res cubicSender :=
  bandwidth ← BandwidthEstimate c rtt;
  let c := set_pacer c (SentPacket (sender_pacer c) bandwidth sentTime bytes) in
  if negb isRetransmittable then Ok c else
  let c := set_largestSent c packetNumber in
  Ok (set_hybrid c (HybridSlowStart.OnPacketSent (hybridSlowStart c) packetNumber)).

Definition CanSend c (bytesInFlight : Z) : bool := bytesInFlight <? GetCongestionWindow c.

Definition InRecovery c : bool :=
  negb (largestAckedPacketNumber c =? InvalidPacketNumber) &&
  (largestAckedPacketNumber c <=? largestSentAtLastCutback c).

Definition InSlowStart c : bool := GetCongestionWindow c <? slowStartThreshold c.

(** [a / b] on integers *)
Definition int_div (a b : Z) : res Z := if b =? 0 then Panic else Ok (Z.quot a b).

Definition MaybeExitSlowStart c rtt : res cubicSender :=
  if negb (InSlowStart c) then Ok c else
  packets ← int_div (GetCongestionWindow c) (sender_maxDatagramSize c);
  let '(h, exit) := ShouldExitSlowStart (hybridSlowStart c) (latestRTT rtt) (minRTT rtt) packets in
  let c := set_hybrid c h in
  Ok (if exit then set_threshold c (congestionWindow c) else c).

Definition isCwndLimited c (bytesInFlight : Z) : bool :=
  let congestionWindow := GetCongestionWindow c in
  if congestionWindow <=? bytesInFlight then true else
  let availableBytes := congestionWindow - bytesInFlight in
  let slowStartLimited := InSlowStart c && (Z.quot congestionWindow 2 <? bytesInFlight) in
  slowStartLimited || (availableBytes <=? maxBurstPackets * sender_maxDatagramSize c).

Definition maybeIncreaseCwnd c rtt (ackedBytes priorInFlight eventTime : Z) : res cubicSender :=
  if negb (isCwndLimited c priorInFlight) then Ok (set_cubic c (OnApplicationLimited (cubic c))) else
  if maxCongestionWindow c <=? congestionWindow c then Ok c else
  if InSlowStart c then Ok (set_window c (i64 (congestionWindow c + sender_maxDatagramSize c))) else
  if reno c then
    let c := set_numAcked c (u64 (numAckedPackets c + 1)) in
    packets ← int_div (congestionWindow c) (sender_maxDatagramSize c);
    if u64 packets <=? numAckedPackets c
    then Ok (set_numAcked (set_window c (i64 (congestionWindow c + sender_maxDatagramSize c))) 0)
    else Ok c
  else
    let '(cu, w) := CongestionWindowAfterAck Cbrt (cubic c) ackedBytes (congestionWindow c) (minRTT rtt) eventTime in
    Ok (set_window (set_cubic c cu) (Z.min (maxCongestionWindow c) w)).

Definition OnPacketAcked c rtt (ackedPacketNumber ackedBytes priorInFlight eventTime : Z) : res cubicSender :=
  let c := set_largestAcked c (Z.max ackedPacketNumber (largestAckedPacketNumber c)) in
  if InRecovery c then Ok c else
  c ← maybeIncreaseCwnd c rtt ackedBytes priorInFlight eventTime;
  Ok (if InSlowStart c then set_hybrid c (HybridSlowStart.OnPacketAcked (hybridSlowStart c) ackedPacketNumber) else c).

Definition OnCongestionEvent c (packetNumber : Z) : cubicSender :=
  if packetNumber <=? largestSentAtLastCutback c then c else
  let exited := InSlowStart c in
  let c := if reno c
           then set_window c (int64_of_float (mul64 (float64 (congestionWindow c)) renoBeta))
           else let '(cu, w) := CongestionWindowAfterPacketLoss (cubic c) (congestionWindow c) in
                set_window (set_cubic c cu) w in
  let minCwnd := minCongestionWindow c in
  let c := if congestionWindow c <? minCwnd then set_window c minCwnd else c in
  let c := set_threshold c (congestionWindow c) in
  let c := set_cutback c (largestSentPacketNumber c) exited in
  set_numAcked c 0.

Definition OnRetransmissionTimeout c (packetsRetransmitted : bool) : cubicSender :=
  let c := set_cutback c InvalidPacketNumber (lastCutbackExitedSlowstart c) in
  if negb packetsRetransmitted then c else
  let c := set_hybrid c (Restart (hybridSlowStart c)) in
  let c := set_cubic c (Reset (cubic c)) in
  let c := set_threshold c (Z.quot (congestionWindow c) 2) in
  set_window c (minCongestionWindow c).

Definition OnConnectionMigration c : cubicSender :=
  let c := set_hybrid c (Restart (hybridSlowStart c)) in
  let c := set_largestAcked (set_largestSent c InvalidPacketNumber) InvalidPacketNumber in
  let c := set_cutback c InvalidPacketNumber false in
  let c := set_numAcked (set_cubic c (Reset (cubic c))) 0 in
  set_threshold (set_window c (initialCongestionWindow c)) (initialMaxCongestionWindow c).

Definition SetMaxDatagramSize c (s : Z) : res cubicSender :=
  if s <? sender_maxDatagramSize c then Panic else
  let cwndIsMinCwnd := congestionWindow c =? minCongestionWindow c in
  let c := set_size c s in
  let c := if cwndIsMinCwnd then set_window c (minCongestionWindow c) else c in
  Ok (set_pacer c (Pacer.SetMaxDatagramSize (sender_pacer c) s)).
End sender.
End Sender.

(** ** Proofs *)
Import Pacer.

(** *** Pacing *)
Lemma adjusted_range bw : 0 ≤ bw < 2 ^ 64 → 0 ≤ adjustedBandwidth bw < 2 ^ 62.
Proof.
  intros Hbw. unfold adjustedBandwidth, BytesPerSecond. pose proof (u64_range (bw / 8 * 5)). dmlia.
Qed.

(** A datagram fits into 64 KiB. *)
Definition size_ok (s : Z) : Prop := 0 < s < 2 ^ 16.

Record pacer_ok (p : pacer) : Prop := {
  pacer_budget : 0 ≤ budgetAtLastSent p < 2 ^ 62;
  pacer_size : size_ok (maxDatagramSize p);
  pacer_time : 0 ≤ lastSentTime p;
}.

Lemma burst_bounds p bw : size_ok (maxDatagramSize p) → 10 * maxDatagramSize p ≤ maxBurstSize p bw < 2 ^ 62.
Proof.
  intros [Hlo Hhi]. unfold maxBurstSize, maxBurstSizePackets. rewrite (i64_small (10 * _)) by lia.
  split; [lia|]. apply Z.max_lub_lt; [|lia]. set (x := i64 _).
  assert (x < 2 ^ 63) as Hx by (unfold x, i64; dmlia). unfold Second.
  destruct (Z.le_gt_cases 0 x).
  - rewrite Z.quot_div_nonneg by lia. dmlia.
  - pose proof (Z.quot_opp_l x 1000000000 ltac:(lia)). pose proof (Z.quot_pos (- x) 1000000000 ltac:(lia) ltac:(lia)). lia.
Qed.

(** The budget without overflow. *)
Lemma budget_exact p bw now :
  pacer_ok p → 0 ≤ bw < 2 ^ 64 → 0 < lastSentTime p ≤ now → adjustedBandwidth bw * (now - lastSentTime p) < 2 ^ 63 →
  now - lastSentTime p < 2 ^ 63 →
  Budget p bw now = Z.min (maxBurstSize p bw)
    (budgetAtLastSent p + adjustedBandwidth bw * (now - lastSentTime p) / Second).
Proof.
  intros [Hb Hs _] Hbw Ht Hov Hd. pose proof (adjusted_range bw Hbw). unfold Budget. zcase.
  assert (time_Sub now (lastSentTime p) = now - lastSentTime p) as -> by (unfold time_Sub; lia).
  set (x := adjustedBandwidth bw * (now - lastSentTime p)) in *. assert (0 ≤ x) by (apply Z.mul_nonneg_nonneg; lia).
  rewrite (i64_small (adjustedBandwidth bw)) by lia. fold x. rewrite (i64_small x) by lia.
  rewrite Z.quot_div_nonneg by (done || lia).
  assert (0 ≤ x / Second < 2 ^ 62) by (unfold Second; dmlia).
  rewrite i64_small by lia. zcase. done.
Qed.

Lemma budget_bounds p bw now : pacer_ok p → 0 ≤ Budget p bw now ≤ maxBurstSize p bw.
Proof.
  intros Hp. pose proof (burst_bounds p bw (pacer_size p Hp)). destruct Hp as [_ [? _] _].
  unfold Budget. zcase; [lia|]. cbv zeta. zcase; [unfold MaxByteCount|]; lia.
Qed.

Lemma newPacer_ok bw : pacer_ok (newPacer bw).
Proof.
  assert (size_ok InitialPacketSize) as Hs by (unfold size_ok, InitialPacketSize; lia).
  pose proof (burst_bounds (mk 0 InitialPacketSize 0) bw Hs). destruct Hs. cbn in *. split; cbn; [lia|by split|lia].
Qed.

Lemma SentPacket_ok p bw t size : pacer_ok p → 0 ≤ t → 0 ≤ size → pacer_ok (SentPacket p bw t size).
Proof.
  intros Hp Ht Hsize. pose proof (budget_bounds p bw t Hp). pose proof (burst_bounds p bw (pacer_size p Hp)).
  destruct Hp as [? ? ?]. split; [|done|done]. cbn. zcase; [lia|]. rewrite i64_small by lia. lia.
Qed.

(** Packets that are sent in this order, each when the budget covers it, and close
    enough that the computation of the budget does not overflow. *)
Fixpoint paced (p : pacer) (bw : Z) (sends : list (Z * Z)) : Prop :=
  match sends with
  | [] => True
  | (t, size) :: sends =>
      lastSentTime p ≤ t < 2 ^ 63 ∧ 0 < t ∧ 0 ≤ size ≤ Budget p bw t ∧
      (lastSentTime p ≠ 0 → adjustedBandwidth bw * (t - lastSentTime p) < 2 ^ 63) ∧
      paced (SentPacket p bw t size) bw sends
  end.

Definition total (sends : list (Z * Z)) : Z := foldr (λ s n, s.2 + n) 0 sends.
Definition last_time (t : Z) (sends : list (Z * Z)) : Z := from_option fst t (last sends).

Lemma last_time_cons t s sends : last_time t (s :: sends) = last_time s.1 sends.
Proof. unfold last_time. rewrite last_cons. by destruct (last sends). Qed.

Lemma paced_total sends : ∀ p bw,
  pacer_ok p → 0 ≤ bw < 2 ^ 64 → 0 < lastSentTime p → paced p bw sends →
  lastSentTime p ≤ last_time (lastSentTime p) sends ∧
  total sends * Second ≤
  budgetAtLastSent p * Second + adjustedBandwidth bw * (last_time (lastSentTime p) sends - lastSentTime p).
Proof.
  induction sends as [|[t size] sends IH]; intros p bw Hp Hbw Hl Hs.
  { cbn. pose proof (pacer_budget p Hp). unfold Second, last_time. cbn. lia. }
  destruct Hs as (Ht&Ht0&Hsz&Hov&Hs). specialize (Hov ltac:(lia)).
  pose proof (SentPacket_ok p bw t size Hp ltac:(lia) ltac:(lia)) as Hp'.
  destruct (IH _ bw Hp' Hbw Ht0 Hs) as [IHt IH']. rewrite last_time_cons. cbn [fst snd lastSentTime SentPacket] in *.
  split; [lia|]. change (total ((t, size) :: sends)) with (size + total sends).
  pose proof (budget_exact p bw t Hp Hbw ltac:(lia) Hov ltac:(lia)) as HB.
  assert (budgetAtLastSent (SentPacket p bw t size) = Budget p bw t - size) as Hb.
  { pose proof (budget_bounds p bw t Hp). pose proof (burst_bounds p bw (pacer_size p Hp)).
    cbn. zcase; [lia|]. apply i64_small. lia. }
  rewrite Hb, HB in IH'. set (x := adjustedBandwidth bw * (t - lastSentTime p)) in *.
  set (T := last_time t sends) in *.
  assert (adjustedBandwidth bw * (T - lastSentTime p) = x + adjustedBandwidth bw * (T - t)) as -> by (unfold x; lia).
  unfold Second in *. pose proof (Z.mul_div_le x 1000000000 ltac:(lia)). lia.
Qed.

(** The pacer is a token bucket.  Packets that are only sent when the budget covers
    them amount to at most a burst plus what the bandwidth (increased by a quarter) allows
    since the first of them. *)
Theorem pacer_rate_limit bw t size sends :
  0 ≤ bw < 2 ^ 64 → paced (newPacer bw) bw ((t, size) :: sends) →
  total ((t, size) :: sends) ≤
  maxBurstSize (newPacer bw) bw + adjustedBandwidth bw * (last_time t sends - t) / Second.
Proof.
  intros Hbw (Ht&Ht0&Hsz&_&Hs). pose proof (newPacer_ok bw) as Hp.
  pose proof (SentPacket_ok _ bw t size Hp ltac:(lia) ltac:(lia)) as Hp'.
  destruct (paced_total sends _ bw Hp' Hbw Ht0 Hs) as [Hlt Htot]. cbn [lastSentTime SentPacket] in *.
  change (Budget (newPacer bw) bw t) with (maxBurstSize (newPacer bw) bw) in Hsz.
  assert (budgetAtLastSent (SentPacket (newPacer bw) bw t size) = maxBurstSize (newPacer bw) bw - size) as Hb.
  { pose proof (burst_bounds (newPacer bw) bw (pacer_size _ Hp)). cbn [budgetAtLastSent SentPacket].
    change (Budget (newPacer bw) bw t) with (maxBurstSize (newPacer bw) bw). zcase; [lia|]. apply i64_small.
    destruct (pacer_size _ Hp). lia. }
  rewrite Hb in Htot. change (total ((t, size) :: sends)) with (size + total sends).
  set (x := adjustedBandwidth bw * _) in *. unfold Second in *.
  enough (total sends - (maxBurstSize (newPacer bw) bw - size) ≤ x / 1000000000) by lia.
  apply Z.div_le_lower_bound; lia.
Qed.

(** The pacing timer is late enough.  When it expires, the budget covers a datagram;
    if the pacer does not ask to wait, it does so at once. *)
Theorem pacer_timer_sufficient p bw now :
  pacer_ok p → 0 < lastSentTime p → 0 ≤ bw < 2 ^ 64 → 0 < adjustedBandwidth bw →
  ∃ t, TimeUntilSend p bw = Ok t ∧
    (t = 0 ∨ lastSentTime p + MinPacingDelay ≤ t) ∧
    (t ≤ now → lastSentTime p ≤ now < 2 ^ 63 → adjustedBandwidth bw * (now - lastSentTime p) < 2 ^ 63 →
     maxDatagramSize p ≤ Budget p bw now).
Proof.
  intros Hp Hl Hbw Hpos. pose proof (burst_bounds p bw (pacer_size p Hp)) as Hburst.
  pose proof (adjusted_range bw Hbw). pose proof Hp as [Hb [Hs0 Hs] _].
  assert (∀ d, maxDatagramSize p * Second ≤ budgetAtLastSent p * Second + adjustedBandwidth bw * d →
    d ≤ now - lastSentTime p → lastSentTime p ≤ now < 2 ^ 63 → adjustedBandwidth bw * (now - lastSentTime p) < 2 ^ 63 →
    maxDatagramSize p ≤ Budget p bw now) as Hfill.
  { intros d Hd Hdn Hnow Hov. rewrite budget_exact by (done || lia). apply Z.min_glb; [lia|].
    assert (adjustedBandwidth bw * d ≤ adjustedBandwidth bw * (now - lastSentTime p)) by (apply Z.mul_le_mono_nonneg_l; lia).
    enough (maxDatagramSize p - budgetAtLastSent p ≤ adjustedBandwidth bw * (now - lastSentTime p) / Second) by lia.
    apply Z.div_le_lower_bound; unfold Second in *; lia. }
  unfold TimeUntilSend. zcase.
  { exists 0. split; [done|]. split; [by left|]. intros _ Hnow Hov. apply (Hfill 0); try done; unfold Second; lia. }
  rewrite (u64_small (maxDatagramSize p - _)) by lia. rewrite u64_small by (unfold Second; lia).
  set (diff := Second * (maxDatagramSize p - budgetAtLastSent p)). set (a := adjustedBandwidth bw) in *.
  assert (0 ≤ diff < 2 ^ 46) by (unfold diff, Second; lia). zcase.
  set (d := if 0 <? diff mod a then u64 (diff / a + 1) else diff / a).
  assert (diff ≤ a * d ∧ 0 ≤ d < 2 ^ 62) as [Hd Hdr].
  { unfold d. pose proof (Z.div_mod diff a ltac:(lia)). pose proof (Z.mod_pos_bound diff a ltac:(lia)).
    assert (0 ≤ diff / a < 2 ^ 46) by (split; [apply Z.div_pos; lia|apply Z.div_lt_upper_bound; [lia|]; nia]).
    zcase; [rewrite u64_small by lia|]; nia. }
  rewrite i64_small by lia. eexists. split; [done|]. split; [right; lia|]. intros Hnow. apply (Hfill d); [|lia].
  unfold diff in Hd. lia.
Qed.

(** Before the first RTT measurement the bandwidth is infinite, and the product with the
    elapsed time overflows: after exactly the time that the pacer asks to wait, the
    budget is still empty. *)
Lemma unknown_bandwidth_does_not_refill :
  let p := mk 0 1280 1000 in
  TimeUntilSend p infBandwidth = Ok 1001000 ∧ Budget p infBandwidth 1001000 = 0.
Proof. by vm_compute. Qed.

Definition example_bandwidth : Z := 8 * 10 ^ 6.

Lemma pacer_rate_limit_witness :
  total [(1000, 1280); (500000, 1280)] ≤
  maxBurstSize (newPacer example_bandwidth) example_bandwidth +
  adjustedBandwidth example_bandwidth * (last_time 1000 [(500000, 1280)] - 1000) / Second.
Proof.
  apply (pacer_rate_limit example_bandwidth 1000 1280 [(500000, 1280)]).
  - by vm_compute.
  - vm_compute. intuition congruence.
Defined.

Lemma pacer_timer_sufficient_witness :
  ∃ t, TimeUntilSend (mk 0 1280 1000) example_bandwidth = Ok t ∧
    (t = 0 ∨ 1000 + MinPacingDelay ≤ t) ∧
    (t ≤ 2000000 → 1000 ≤ 2000000 < 2 ^ 63 → adjustedBandwidth example_bandwidth * (2000000 - 1000) < 2 ^ 63 →
     1280 ≤ Budget (mk 0 1280 1000) example_bandwidth 2000000).
Proof.
  apply (pacer_timer_sufficient (mk 0 1280 1000) example_bandwidth 2000000).
  - split; cbn; unfold size_ok; lia.
  - by cbn.
  - by vm_compute.
  - by vm_compute.
Defined.

(** *** The window *)
Import Sender.

Lemma reno_backoff w :
  0 < w < 2 ^ 40 → let r := int64_of_float (mul64 (float64 w) renoBeta) in 7 * w - 10 ≤ 10 * r ≤ 7 * w.
Proof.
  intros Hw r. assert (renoBeta = S754_finite false 6305039478318694 (-53)) as Hbeta by by vm_compute.
  destruct (mul_trunc 53 1024 ltac:(lia) ltac:(lia) (float64 w) w 6305039478318694 (-53)) as (v&Hv&Hv0&Hlo&Hhi);
    try lia; [|done|].
  { apply float_of_exact; unfold small; lia. }
  assert (r = v) as ->; [|lia]. unfold r, mul64. rewrite Hbeta. unfold int64_of_float. rewrite Hv.
  rewrite (proj2 (Z.leb_le _ _)), (proj2 (Z.ltb_lt _ _)) by lia. done.
Qed.

(** The sender was created for packets of [m] bytes; the size can grow. *)
Record sender_ok (m : Z) (c : cubicSender) : Prop := {
  sender_size : 0 < m ≤ sender_maxDatagramSize c ∧ sender_maxDatagramSize c < 2 ^ 16;
  sender_window : 2 * m ≤ congestionWindow c ≤ (MaxCongestionWindowPackets + 1) * sender_maxDatagramSize c;
  sender_reno : reno c = true;
  sender_pacing : pacer_ok (sender_pacer c);
}.

Lemma estimate_ok c rtt : ∃ bw, BandwidthEstimate c rtt = Ok bw ∧ 0 ≤ bw < 2 ^ 64.
Proof.
  unfold BandwidthEstimate, BandwidthFromDelta. destruct (smoothedRTT rtt =? 0); [by exists infBandwidth|].
  eexists. split; [done|]. apply u64_range.
Qed.

(** The window after a loss. *)
Lemma event_window m c pn :
  sender_ok m c → largestSentAtLastCutback c < pn →
  ∃ r, 7 * congestionWindow c - 10 ≤ 10 * r ≤ 7 * congestionWindow c ∧
    let w := Z.max (minCongestionWindow c) r in
    OnCongestionEvent c pn =
      set_numAcked (set_cutback (set_threshold (set_window c w) w) (largestSentPacketNumber c) (InSlowStart c)) 0.
Proof.
  intros [Hs Hw Hr _] Hpn. unfold MaxCongestionWindowPackets in Hw.
  set (r := int64_of_float (mul64 (float64 (congestionWindow c)) renoBeta)).
  exists r. split; [apply reno_backoff; lia|].
  unfold OnCongestionEvent. zcase. rewrite Hr. fold r.
  change (minCongestionWindow (set_window c r)) with (minCongestionWindow c). cbn [congestionWindow set_window].
  zcase; [rewrite Z.max_l by lia|rewrite Z.max_r by lia]; done.
Qed.

Lemma event_ok m c pn : sender_ok m c → sender_ok m (OnCongestionEvent c pn).
Proof.
  intros Hc. destruct (Z.le_gt_cases pn (largestSentAtLastCutback c)) as [Hle|Hlt].
  { unfold OnCongestionEvent. by zcase. }
  destruct (event_window m c pn Hc Hlt) as (r&Hr&->). destruct Hc as [Hs Hw Hre Hp].
  unfold MaxCongestionWindowPackets in *. split; try done.
  cbn. unfold minCongestionWindow, minCongestionWindowPackets, MaxCongestionWindowPackets. lia.
Qed.

Lemma sent_ok m c rtt t pn size b :
  sender_ok m c → 0 < t → 0 ≤ size → ∃ c', OnPacketSent c rtt t pn size b = Ok c' ∧ sender_ok m c' ∧
    congestionWindow c' = congestionWindow c ∧ slowStartThreshold c' = slowStartThreshold c ∧
    largestAckedPacketNumber c' = largestAckedPacketNumber c ∧ largestSentAtLastCutback c' = largestSentAtLastCutback c.
Proof.
  intros [Hs Hw Hr Hp] Ht Hsz. unfold OnPacketSent. destruct (estimate_ok c rtt) as (bw&->&Hbw). cbn.
  pose proof (SentPacket_ok _ bw t size Hp ltac:(lia) Hsz).
  destruct b; cbn [negb]; eexists; (split; [done|]); (split; [by split|done]).
Qed.

Lemma exit_ok m c rtt : sender_ok m c → ∃ c', MaybeExitSlowStart c rtt = Ok c' ∧ sender_ok m c'.
Proof.
  intros Hc. unfold MaybeExitSlowStart. destruct (InSlowStart c); cbn [negb]; [|by exists c].
  destruct Hc as [Hs Hw Hr Hp]. unfold int_div. zcase. cbn [mbind result_bind].
  destruct (HybridSlowStart.ShouldExitSlowStart _ _ _ _) as [h [|]]; eexists; (split; [done|]); by split.
Qed.

Section acks.
Context (Cbrt : spec_float → spec_float).

(** An acknowledgement outside of recovery, in Reno mode and without overflow. *)
Definition increase (c : cubicSender) (inFlight : Z) : cubicSender :=
  let w := congestionWindow c in let s := sender_maxDatagramSize c in
  let n := u64 (numAckedPackets c + 1) in
  if negb (isCwndLimited c inFlight) then set_cubic c (Cubic.OnApplicationLimited (cubic c)) else
  if maxCongestionWindow c <=? w then c else
  if InSlowStart c then set_window c (w + s) else
  if w / s <=? n then set_numAcked (set_window c (w + s)) 0 else set_numAcked c n.

Lemma increase_spec m c rtt bytes inFlight t :
  sender_ok m c → maybeIncreaseCwnd Cbrt c rtt bytes inFlight t = Ok (increase c inFlight).
Proof.
  intros [Hs Hw Hr Hp]. unfold MaxCongestionWindowPackets in Hw.
  unfold maybeIncreaseCwnd, increase. destruct (negb _); [done|]. destruct (_ <=? congestionWindow c); [done|].
  rewrite i64_small by lia. destruct (InSlowStart c); [done|]. rewrite Hr. unfold int_div.
  cbn [sender_maxDatagramSize set_numAcked congestionWindow numAckedPackets]. zcase. cbn [mbind result_bind].
  rewrite Z.quot_div_nonneg by lia.
  assert (0 ≤ congestionWindow c / sender_maxDatagramSize c < 2 ^ 40).
  { split; [apply Z.div_pos; lia|]. apply Z.div_lt_upper_bound; nia. }
  rewrite u64_small by lia. rewrite i64_small by lia. by destruct (_ <=? u64 _).
Qed.

Lemma increase_ok m c inFlight : sender_ok m c → sender_ok m (increase c inFlight).
Proof.
  intros Hc. pose proof Hc as [Hs Hw Hr Hp]. unfold increase, maxCongestionWindow, MaxCongestionWindowPackets in *.
  destruct (negb _); [by split|]. zcase; [done|].
  assert (∀ n, sender_ok m (set_numAcked (set_window c (congestionWindow c + sender_maxDatagramSize c)) n)) as Hgrow.
  { intros n. split; cbn; try done. unfold MaxCongestionWindowPackets. lia. }
  destruct (InSlowStart c); [exact (Hgrow (numAckedPackets c))|]. destruct (_ <=? u64 _); [apply Hgrow|by split].
Qed.

(** An acknowledgement. *)
Definition acked (c : cubicSender) (pn inFlight : Z) : cubicSender :=
  let c := set_largestAcked c (Z.max pn (largestAckedPacketNumber c)) in
  if InRecovery c then c else
  let c := increase c inFlight in
  if InSlowStart c then set_hybrid c (HybridSlowStart.OnPacketAcked (hybridSlowStart c) pn) else c.

Lemma acked_spec m c rtt pn bytes inFlight t :
  sender_ok m c → OnPacketAcked Cbrt c rtt pn bytes inFlight t = Ok (acked c pn inFlight).
Proof.
  intros Hc. unfold OnPacketAcked, acked. destruct (InRecovery _); [done|].
  rewrite (increase_spec m) by (destruct Hc; by split). done.
Qed.

Lemma acked_ok m c pn inFlight : sender_ok m c → sender_ok m (acked c pn inFlight).
Proof.
  intros Hc. unfold acked. set (c1 := set_largestAcked c _). assert (sender_ok m c1) as H1 by (destruct Hc; by split).
  destruct (InRecovery c1); [done|]. pose proof (increase_ok m c1 inFlight H1) as H2.
  destruct (InSlowStart _); [|done]. destruct H2; by split.
Qed.

(** *** Recovery *)
Inductive sender_event :=
| EvSent (rtt : RTTStats) (t pn size : Z) (retransmittable : bool)
| EvAcked (rtt : RTTStats) (pn bytes inFlight t : Z)
| EvLost (pn : Z)
| EvExit (rtt : RTTStats).

Definition handle (c : cubicSender) (e : sender_event) : res cubicSender :=
  match e with
  | EvSent rtt t pn size b => OnPacketSent c rtt t pn size b
  | EvAcked rtt pn bytes inFlight t => OnPacketAcked Cbrt c rtt pn bytes inFlight t
  | EvLost pn => Ok (OnCongestionEvent c pn)
  | EvExit rtt => MaybeExitSlowStart c rtt
  end.

Fixpoint handle_all (c : cubicSender) (es : list sender_event) : res cubicSender :=
  match es with [] => Ok c | e :: es => c ← handle c e; handle_all c es end.

(** Nothing in these events tells about packets after [n]. *)
Definition before (n : Z) (e : sender_event) : Prop :=
  match e with
  | EvSent _ t _ size _ => 0 < t ∧ 0 ≤ size
  | EvAcked _ pn _ _ _ => 0 ≤ pn ≤ n
  | EvLost pn => pn ≤ n
  | EvExit _ => True
  end.

Record recovering (n w : Z) (c : cubicSender) : Prop := {
  recovering_window : congestionWindow c = w;
  recovering_threshold : slowStartThreshold c = w;
  recovering_cutback : largestSentAtLastCutback c = n;
  recovering_acked : largestAckedPacketNumber c ≤ n;
}.

Lemma handle_recovering m n w c e :
  sender_ok m c → recovering n w c → before n e →
  ∃ c', handle c e = Ok c' ∧ sender_ok m c' ∧ recovering n w c'.
Proof.
  intros Hc Hrec He. destruct e as [rtt t pn size b|rtt pn bytes inFlight t|pn|rtt]; cbn in He |- *.
  - destruct (sent_ok m c rtt t pn size b Hc) as (c'&->&Hc'&H1&H2&H3&H4); [lia..|].
    exists c'. split_and!; try done. destruct Hrec. split; congruence.
  - rewrite (acked_spec m) by done. exists (acked c pn inFlight). split_and!; [done|by apply acked_ok|].
    destruct Hrec as [H1 H2 H3 H4]. unfold acked, InRecovery, InvalidPacketNumber. cbn.
    assert (Z.max pn (largestAckedPacketNumber c) =? -1 = false) as -> by (apply Z.eqb_neq; lia).
    rewrite (proj2 (Z.leb_le _ _)) by lia. cbn. split; cbn; lia.
  - exists (OnCongestionEvent c pn). split_and!; [done|by apply event_ok|].
    unfold OnCongestionEvent. rewrite (recovering_cutback n w c Hrec), (proj2 (Z.leb_le _ _)) by lia. done.
  - destruct Hrec as [H1 H2 H3 H4]. exists c. unfold MaybeExitSlowStart, InSlowStart, GetCongestionWindow.
    rewrite H1, H2, Z.ltb_irrefl. by split_and!.
Qed.

Lemma handle_all_recovering m n w es : ∀ c,
  sender_ok m c → recovering n w c → Forall (before n) es →
  ∃ c', handle_all c es = Ok c' ∧ sender_ok m c' ∧ recovering n w c'.
Proof.
  induction es as [|e es IH]; intros c Hc Hrec Hes; [by exists c|].
  apply Forall_cons in Hes as [He Hes]. destruct (handle_recovering m n w c e Hc Hrec He) as (c1&Hrun&H1&H2).
  cbn. rewrite Hrun. cbn. by apply IH.
Qed.

(** *** Correctness of the window *)

(** Losses of one window of packets reduce the window once.  A loss of a packet that
    was sent after the last reduction sets the window to seven tenths (rounded down to
    whole bytes, at least two datagrams) and the slow start threshold to the same value;
    until a packet is acknowledged or lost that was sent after the reduction, no
    acknowledgement and no further loss changes the window. *)
Theorem one_reduction_per_window m c pn es :
  sender_ok m c → largestAckedPacketNumber c ≤ largestSentPacketNumber c → largestSentAtLastCutback c < pn →
  Forall (before (largestSentPacketNumber c)) es →
  ∃ r c', 7 * congestionWindow c - 10 ≤ 10 * r ≤ 7 * congestionWindow c ∧
    handle_all c (EvLost pn :: es) = Ok c' ∧ sender_ok m c' ∧
    congestionWindow c' = Z.max (2 * sender_maxDatagramSize c) r ∧
    slowStartThreshold c' = congestionWindow c'.
Proof.
  intros Hc Hla Hpn Hes. destruct (event_window m c pn Hc Hpn) as (r&Hr&Hev). set (w := Z.max _ r) in Hev.
  destruct (handle_all_recovering m (largestSentPacketNumber c) w es (OnCongestionEvent c pn)) as (c'&Hrun&Hc'&[Hw Ht _ _]).
  - by apply event_ok.
  - rewrite Hev. by split.
  - done.
  - exists r, c'. split; [done|]. split; [done|]. split; [done|]. split; [|congruence].
    rewrite Hw. unfold w, minCongestionWindow, minCongestionWindowPackets. lia.
Qed.

(** The sender is close to using its window and out of recovery. *)
Definition growing (c : cubicSender) (e : Z * Z) : Prop :=
  largestSentAtLastCutback c < e.1 ∧ congestionWindow c - maxBurstPackets * sender_maxDatagramSize c ≤ e.2.

Lemma limited_near c inFlight :
  congestionWindow c - maxBurstPackets * sender_maxDatagramSize c ≤ inFlight → isCwndLimited c inFlight = true.
Proof.
  intros Hf. unfold isCwndLimited, GetCongestionWindow. zcase; [done|].
  rewrite (proj2 (Z.leb_le (congestionWindow c - inFlight) _)) by lia. by rewrite orb_true_r.
Qed.

Definition acked_all (c : cubicSender) (es : list (Z * Z)) : cubicSender :=
  foldl (λ c e, acked c e.1 e.2) c es.

Lemma acked_growing c e :
  growing c e → ∃ h la, acked c e.1 e.2 = set_hybrid (set_largestAcked (increase c e.2) la) h.
Proof.
  intros [Hpn Hf]. unfold acked. set (c1 := set_largestAcked c _).
  assert (InRecovery c1 = false) as ->.
  { unfold InRecovery, c1. cbn. rewrite (proj2 (Z.leb_gt _ _)) by lia. by rewrite andb_false_r. }
  assert (increase c1 e.2 = set_largestAcked (increase c e.2) (largestAckedPacketNumber c1)) as ->.
  { unfold increase, c1. change (isCwndLimited (set_largestAcked c _) e.2) with (isCwndLimited c e.2).
    change (maxCongestionWindow (set_largestAcked c _)) with (maxCongestionWindow c).
    change (InSlowStart (set_largestAcked c _)) with (InSlowStart c). cbn [congestionWindow set_largestAcked].
    destruct (negb _); [done|]. destruct (_ <=? congestionWindow c); [done|]. destruct (InSlowStart c); [done|].
    cbn [sender_maxDatagramSize numAckedPackets set_largestAcked]. by destruct (_ <=? u64 _). }
  destruct (InSlowStart _); [by eexists _, _|].
  by exists (hybridSlowStart (increase c e.2)), (largestAckedPacketNumber c1).
Qed.

Lemma handle_acks m rtt bytes t es : ∀ c,
  sender_ok m c →
  handle_all c ((λ e, EvAcked rtt e.1 bytes e.2 t) <$> es) = Ok (acked_all c es) ∧ sender_ok m (acked_all c es).
Proof.
  induction es as [|e es IH]; intros c Hc; [done|]. cbn. rewrite (acked_spec m) by done. cbn. apply IH. by apply acked_ok.
Qed.

(** [n] acknowledgements in congestion avoidance, not yet a window of them. *)
Lemma avoidance_count m es : ∀ c,
  sender_ok m c → InSlowStart c = false → congestionWindow c < maxCongestionWindow c → Forall (growing c) es →
  0 ≤ numAckedPackets c → numAckedPackets c + len es < congestionWindow c / sender_maxDatagramSize c →
  ∃ h la, acked_all c es = set_numAcked (set_hybrid (set_largestAcked c la) h) (numAckedPackets c + len es).
Proof.
  induction es as [|e es IH]; intros c Hc Hss Hmax Hes Hn0 Hn.
  { exists (hybridSlowStart c), (largestAckedPacketNumber c). rewrite len_nil, Z.add_0_r. by destruct c. }
  apply Forall_cons in Hes as [He Hes]. rewrite len_cons in *. pose proof (len_nonneg es).
  change (acked_all c (e :: es)) with (acked_all (acked c e.1 e.2) es).
  pose proof (acked_ok m c e.1 e.2 Hc) as Hc'. destruct (acked_growing c e He) as (h&la&Heq). rewrite Heq in Hc' |- *.
  assert (congestionWindow c / sender_maxDatagramSize c < 2 ^ 62) as Hq.
  { destruct Hc as [? Hw _ _]. unfold MaxCongestionWindowPackets in Hw. apply Z.div_lt_upper_bound; nia. }
  assert (increase c e.2 = set_numAcked c (numAckedPackets c + 1)) as Hinc.
  { unfold increase. rewrite limited_near by apply He. cbn [negb]. zcase. rewrite Hss, u64_small by lia. by zcase. }
  rewrite Hinc in Hc' |- *. destruct (IH _ Hc') as (h'&la'&->); try done; [|cbn; lia..|].
  - cbn. lia.
  - cbn. exists h', la'. unfold set_numAcked, set_hybrid, set_largestAcked. cbn. f_equal. lia.
Qed.

(** The window grows as in NewReno.  While the sender uses its window and outside of
    recovery, every acknowledgement adds a datagram to the window in slow start; in
    congestion avoidance a window of acknowledgements does, and fewer leave it as it is. *)
Theorem reno_window_growth m c rtt bytes t es :
  sender_ok m c → sender_maxDatagramSize c ≤ congestionWindow c < maxCongestionWindow c → numAckedPackets c = 0 →
  Forall (growing c) es →
  let s := sender_maxDatagramSize c in
  ∃ c', handle_all c ((λ e, EvAcked rtt e.1 bytes e.2 t) <$> es) = Ok c' ∧
    (InSlowStart c = true → len es = 1 → congestionWindow c' = congestionWindow c + s) ∧
    (InSlowStart c = false → len es < congestionWindow c / s → congestionWindow c' = congestionWindow c) ∧
    (InSlowStart c = false → len es = congestionWindow c / s →
     congestionWindow c' = congestionWindow c + s ∧ numAckedPackets c' = 0).
Proof.
  intros Hc [Hlo Hmax] Hn Hes s. destruct (handle_acks m rtt bytes t es c Hc) as [Hrun _].
  exists (acked_all c es). split; [done|]. split_and!.
  - intros Hss Hlen. destruct es as [|e [|]]; cbn in Hlen; try (rewrite ?len_cons in Hlen; len_lia).
    rewrite Forall_singleton in Hes. change (acked_all c [e]) with (acked c e.1 e.2). destruct (acked_growing c e Hes) as (h&la&->).
    unfold increase. rewrite limited_near by apply Hes. cbn [negb]. zcase. by rewrite Hss.
  - intros Hss Hlen. unfold s in Hlen. destruct (avoidance_count m es c) as (h&la&->); [done..|lia|lia|done].
  - intros Hss Hlen. destruct Hc as [Hs0 Hw Hr Hp] eqn:HHc. clear HHc.
    assert (0 < congestionWindow c / s) by (apply Z.div_str_pos; lia).
    destruct es as [|e es _] using rev_ind; [rewrite len_nil in Hlen; lia|].
    rewrite len_app in Hlen. change (len [e]) with 1 in Hlen. rewrite Forall_app, Forall_singleton in Hes. destruct Hes as [Hes He].
    unfold acked_all. rewrite foldl_app. fold (acked_all c es). cbn [foldl].
    destruct (avoidance_count m es c) as (h&la&Heq); [done..|lia|fold s; lia|]. rewrite Heq. clear Heq.
    set (c1 := set_numAcked _ _). destruct (acked_growing c1 e) as (h'&la'&->); [done|].
    unfold increase. rewrite limited_near by apply He. change (InSlowStart c1) with (InSlowStart c). rewrite Hss.
    change (maxCongestionWindow c1) with (maxCongestionWindow c). cbn [negb congestionWindow c1 set_numAcked set_hybrid set_largestAcked].
    zcase. fold s. unfold c1. cbn [numAckedPackets set_numAcked].
    assert (congestionWindow c / s < 2 ^ 62) by (unfold MaxCongestionWindowPackets in Hw; apply Z.div_lt_upper_bound; nia).
    rewrite u64_small by lia. cbn. fold s. zcase. done.
Qed.
End acks.

Definition example_sender (window threshold sent : Z) : cubicSender :=
  Sender.mk HybridSlowStart.zero Cubic.NewCubic (newPacer example_bandwidth) true sent 0 (-1) false
    window threshold 0 (32 * 1280) (10000 * 1280) 1280.

Lemma example_sender_ok window threshold sent :
  2560 ≤ window ≤ 12801280 → sender_ok 1280 (example_sender window threshold sent).
Proof.
  intros Hw. split; cbn; [lia|unfold MaxCongestionWindowPackets; lia|done|].
  split; cbn; [by vm_compute|unfold size_ok, InitialPacketSize; lia|lia].
Qed.

Definition example_losses : list sender_event :=
  [EvAcked example_rtt 3 1280 5000 1000; EvLost 4; EvSent example_rtt 2000 9 1280 true; EvAcked example_rtt 8 1280 5000 3000].

Lemma one_reduction_per_window_witness :
  ∃ r c', 7 * 40960 - 10 ≤ 10 * r ≤ 7 * 40960 ∧
    handle_all id (example_sender 40960 MaxByteCount 8) (EvLost 2 :: example_losses) = Ok c' ∧ sender_ok 1280 c' ∧
    congestionWindow c' = Z.max (2 * 1280) r ∧ slowStartThreshold c' = congestionWindow c'.
Proof.
  apply (one_reduction_per_window id 1280 (example_sender 40960 MaxByteCount 8) 2 example_losses).
  - apply example_sender_ok. lia.
  - by vm_compute.
  - by vm_compute.
  - unfold example_losses. repeat (apply Forall_cons_2; [by vm_compute|]). apply Forall_nil_2.
Defined.

Lemma reno_window_growth_witness :
  let c := example_sender 3840 3840 8 in
  ∃ c', handle_all id c ((λ e, EvAcked example_rtt e.1 1280 e.2 1000) <$> [(5, 3840); (6, 3840); (7, 3840)]) = Ok c' ∧
    (InSlowStart c = true → len [(5, 3840); (6, 3840); (7, 3840)] = 1 → congestionWindow c' = 3840 + 1280) ∧
    (InSlowStart c = false → len [(5, 3840); (6, 3840); (7, 3840)] < 3840 / 1280 → congestionWindow c' = 3840) ∧
    (InSlowStart c = false → len [(5, 3840); (6, 3840); (7, 3840)] = 3840 / 1280 →
     congestionWindow c' = 3840 + 1280 ∧ numAckedPackets c' = 0).
Proof.
  intros c. apply (reno_window_growth id 1280 c example_rtt 1280 1000 [(5, 3840); (6, 3840); (7, 3840)]).
  - apply example_sender_ok. lia.
  - by vm_compute.
  - done.
  - repeat (apply Forall_cons_2; [by vm_compute|]). apply Forall_nil_2.
Defined.

(** A smoothed RTT of more than a second per byte of the window makes the pacer divide
    by zero. *)
Lemma pacer_divides_by_zero :
  Sender.TimeUntilSend (set_pacer (example_sender 2560 2560 8) (Pacer.mk 0 1280 1000))
    (mkRTTStats true (2561 * Second) (2561 * Second) (2561 * Second) 0 0) = Panic.
Proof. by vm_compute. Qed.

(** The pacer of a new sender assumes packets of 1280 bytes, whatever the sender is
    created for: with 1400 bytes it does not ask to wait although the budget is too
    small for a packet. *)
Lemma pacer_ignores_packet_size :
  ∃ c c', NewCubicSender example_rtt 1400 true = Ok c ∧
    OnPacketSent c example_rtt 1000 0 (Budget (sender_pacer c) example_bandwidth 1000 - 1300) true = Ok c' ∧
    Sender.TimeUntilSend c' example_rtt = Ok 0 ∧ HasPacingBudget c' example_rtt 1000 = Ok false.
Proof. eexists _, _. split; [by vm_compute|]. split; [by vm_compute|]. by vm_compute. Qed.
