(* ===== verification/SentCongestion.v ===== *)
(** * The sent packet handler with its congestion controller

    The sender of Congestion.v as the instance of [SendAlgorithm] that the sent packet
    handler uses, and what holds for it in every state of the handler.  A sender that
    has panicked is the value [Panic]. *)

From Stdlib Require Import Floats.SpecFloat.
From S2P Require Import Prelude Protocol AckFrame RTTStats ECN SentHistory SentPackets SentSpec SentSafety Congestion.
Import Sender.

Section composition.
Context (Cbrt : spec_float → spec_float) {F : Type}.

(** The calls of sent_packet_handler.go; the sender is created with [reno = true]. *)
#[local] Instance reno_sender : SendAlgorithm (res cubicSender) := {|
  SentPackets.NewCubicSender rtt size := Sender.NewCubicSender rtt size true;
  TimeUntilSend_ c rtt _ := c ← c; Sender.TimeUntilSend c rtt;
  SentPackets.HasPacingBudget c rtt now := c ← c; Sender.HasPacingBudget c rtt now;
  SentPackets.OnPacketSent c rtt t _ pn size b := c ← c; Sender.OnPacketSent c rtt t pn size b;
  SentPackets.CanSend c inFlight := match c with Ok c => Sender.CanSend c inFlight | _ => false end;
  SentPackets.MaybeExitSlowStart c rtt := c ← c; Sender.MaybeExitSlowStart c rtt;
  SentPackets.OnPacketAcked c rtt pn size inFlight t := c ← c; Sender.OnPacketAcked Cbrt c rtt pn size inFlight t;
  SentPackets.OnCongestionEvent c _ pn _ _ := c ← c; Ok (Sender.OnCongestionEvent c pn);
  SetMaxDatagramSize_ c size := c ← c; c ← Sender.SetMaxDatagramSize c size; Ok (Ok c);
|}.

Abbreviation handler := (sentPacketHandler (F:=F) (C:=res cubicSender)).
Implicit Types (h : handler).

(** The sender works, for packets of at least [m] bytes. *)
Definition working (m : Z) (c : res cubicSender) : Prop := ∃ c', c = Ok c' ∧ sender_ok m c'.

Lemma working_inv m : controller_inv (working m).
Proof.
  split; intros c rtt; [intros t inFlight pn size b|intros pn size inFlight t|intros pn size inFlight|]; intros (c'&->&Hc); cbn.
  - intros Ht Hs. destruct (sent_ok m c' rtt t pn size b Hc Ht Hs) as (c2&->&Hc2&_). by exists c2.
  - rewrite (acked_spec Cbrt m) by done. eexists. split; [done|]. by apply acked_ok.
  - eexists. split; [done|]. by apply event_ok.
  - destruct (exit_ok m c' rtt Hc) as (c2&->&Hc2). by exists c2.
Qed.

Lemma working_weaken m m' c : 0 < m ≤ m' → working m' c → working m c.
Proof. intros Hm (c'&->&[Hs Hw Hr Hp]). exists c'. split; [done|]. split; try done; lia. Qed.

Lemma new_working rtt size : size_ok size → working size (SentPackets.NewCubicSender rtt size).
Proof.
  intros [Hs Hs']. cbn. unfold NewCubicSender, newCubicSender. set (c := Sender.mk _ _ _ _ _ _ _ _ _ _ _ _ _ _).
  destruct (estimate_ok c rtt) as (bw&->&Hr). eexists. split; [done|]. split; try done; cbn.
  - unfold initialCongestionWindowPackets, MaxCongestionWindowPackets. lia.
  - apply newPacer_ok.
Qed.

Lemma resize_working m c size c' :
  working m c → size < 2 ^ 16 → SetMaxDatagramSize_ c size = Ok c' → working m c'.
Proof.
  intros (c1&->&[Hs Hw Hr Hp]) Hlt. cbn. unfold SetMaxDatagramSize. destruct (Z.ltb_spec size (sender_maxDatagramSize c1)); [done|].
  intros [= <-]. eexists. split; [done|]. unfold MaxCongestionWindowPackets in *.
  destruct (Z.eqb_spec (congestionWindow c1) (minCongestionWindow c1));
    (split; cbn; [lia|unfold minCongestionWindow, minCongestionWindowPackets, MaxCongestionWindowPackets in *; cbn; lia|done|]);
    destruct Hp as [? ? ?]; split; cbn; try done; split; lia.
Qed.

(** The sizes of packets that the connection uses: at least [m] bytes and within 64 KiB. *)
Definition sizes_ok (m : Z) (o : op (F:=F)) : Prop :=
  match o with OpMigrate _ size | OpSize size => m ≤ size < 2 ^ 16 | _ => True end.

Inductive running (m : Z) : handler → Prop :=
| running_new initialPN size rtt validated ecn pers random :
    m ≤ size < 2 ^ 16 → running m (newSentPacketHandler initialPN size rtt validated ecn pers random)
| running_step h o h' : running m h → allowed h o → sizes_ok m o → exec h o = Ok h' → running m h'.

Lemma running_working m h : 0 < m → running m h → working m (congestion h).
Proof.
  intros Hm. induction 1 as [initialPN size rtt validated ecn pers random Hs|h o h' _ IH Hal Hs Hrun].
  - eapply working_weaken; [|apply new_working]; [lia|]. split; lia.
  - eapply exec_controller; [apply working_inv|exact Hal|exact Hrun|..|exact IH].
    + intros t size rtt ->. cbn in Hs. eapply working_weaken; [|apply new_working]; [lia|]. split; lia.
    + intros size c -> Hc Hset. cbn in Hs. by eapply resize_working; [| |exact Hset]; [|lia].
Qed.

(** C40: the congestion window is bounded.  In every state into which the connection can
    bring the sent packet handler, the congestion controller has not panicked, its window
    is at least two packets of the smallest size in use and at most 10001 of the current
    size, an idle connection may send, and the decision about sending and a larger packet
    size do not fail. *)
Theorem congestion_window_bounded m h :
  0 < m → running m h →
  ∃ c, congestion h = Ok c ∧
    2 * m ≤ congestionWindow c ≤ 10001 * sender_maxDatagramSize c ∧
    SentPackets.CanSend (congestion h) 0 = true ∧
    (∀ now, ∃ mode, SendMode h now = Ok mode) ∧
    (∀ size, sender_maxDatagramSize c ≤ size → ∃ h', SentPackets.SetMaxDatagramSize h size = Ok h').
Proof.
  intros Hm Hrun. destruct (running_working m h Hm Hrun) as (c&Hc&Hok). pose proof Hok as [Hs Hw Hr Hp].
  exists c. rewrite Hc. unfold MaxCongestionWindowPackets in Hw. split; [done|]. split; [lia|]. split_and!.
  - cbn. unfold CanSend, GetCongestionWindow. apply Z.ltb_lt. lia.
  - intros now. unfold SendMode. rewrite Hc. cbn. unfold HasPacingBudget.
    destruct (estimate_ok c (rttStats h)) as (bw&->&_). cbn.
    repeat match goal with |- context [if ?b then Ok _ else _] => destruct b end; by eexists.
  - intros size Hsz. unfold SentPackets.SetMaxDatagramSize. rewrite Hc. cbn. unfold SetMaxDatagramSize.
    destruct (Z.ltb_spec size (sender_maxDatagramSize c)); [lia|]. by eexists.
Qed.
End composition.

(** A client whose packets have grown to 1400 bytes. *)
Definition example_run : sentPacketHandler (F:=Z) (C:=res cubicSender) :=
  newSentPacketHandler (SendAlgorithm0:=reno_sender id) 0 1200 zeroRTTStats true false PerspectiveClient 50.
Definition example_resized : sentPacketHandler (F:=Z) (C:=res cubicSender) :=
  match exec (SendAlgorithm0:=reno_sender id) example_run (OpSize 1400) with Ok h => h | _ => example_run end.

Lemma congestion_window_bounded_witness :
  ∃ c, congestion example_resized = Ok c ∧
    2 * 1200 ≤ congestionWindow c ≤ 10001 * sender_maxDatagramSize c ∧
    SentPackets.CanSend (SendAlgorithm:=reno_sender id) (congestion example_resized) 0 = true ∧
    (∀ now, ∃ mode, SendMode (SendAlgorithm0:=reno_sender id) example_resized now = Ok mode) ∧
    (∀ size, sender_maxDatagramSize c ≤ size →
       ∃ h', SentPackets.SetMaxDatagramSize (SendAlgorithm0:=reno_sender id) example_resized size = Ok h').
Proof.
  apply (congestion_window_bounded id 1200 example_resized).
  - lia.
  - apply (running_step id 1200 example_run (OpSize 1400)).
    + apply running_new. lia.
    + by eexists.
    + cbn. lia.
    + by vm_compute.
Defined.
