(* ===== verification/SendStream.v ===== *)
(** * The sending half of a stream (send_stream.go)

    Every method holds the mutex of the stream while it works, so that a method is a
    step of the stream's state.  [Write] blocks: it runs until it waits for [writeChan]
    or its timer, and is continued by [Write_resume].  The calls of the [streamSender]
    are collected as events, and the flow controller is an instance of the interface
    [SendFlowController].  Frames from the pool come with the contents of their buffer
    ([pool]) and an old FIN bit ([stale]). *)

From S2P Require Import Prelude Varint Protocol Wire ControlFrames DataFrames FlowControl.

(** What the stream uses of its flow controller (internal/flowcontrol/interface.go). *)
Class SendFlowController (C : Type) := {
  SendWindowSize_ : C → Z;
  AddBytesSent_ : C → Z → C;
  IsNewlyBlocked_ : C → C * bool;
  UpdateSendWindow_ : C → Z → C * bool;
}.

(** What a controller promises: [flow_sent] bytes were sent and the peer allows
    [flow_limit]; the window does not exceed the difference. *)
Class SendFlowLaws (C : Type) `{!SendFlowController C} := {
  flow_sent : C → Z;
  flow_limit : C → Z;
  flow_window c : 0 ≤ SendWindowSize_ c ∧ (0 < SendWindowSize_ c → flow_sent c + SendWindowSize_ c ≤ flow_limit c);
  flow_add c n : flow_sent (AddBytesSent_ c n) = flow_sent c + n ∧ flow_limit (AddBytesSent_ c n) = flow_limit c;
  flow_blocked c : flow_sent (IsNewlyBlocked_ c).1 = flow_sent c ∧ flow_limit (IsNewlyBlocked_ c).1 = flow_limit c;
  flow_update c l : flow_sent (UpdateSendWindow_ c l).1 = flow_sent c ∧
    flow_limit (UpdateSendWindow_ c l).1 = Z.max (flow_limit c) l;
}.

(** The controllers of the stream and of the connection implement it. *)
#[global] Instance stream_flow : SendFlowController (streamFlowController * connectionFlowController) := {|
  SendWindowSize_ c := Stream_SendWindowSize c.1 c.2;
  AddBytesSent_ c n := Stream_AddBytesSent c.1 c.2 n;
  IsNewlyBlocked_ c := let '(s, b) := Stream_IsNewlyBlocked c.1 in ((s, c.2), b);
  UpdateSendWindow_ c limit := let '(b, updated) := UpdateSendWindow (base c.1) limit in ((set_base c.1 b, c.2), updated);
|}.

#[global, refine] Instance stream_flow_laws : SendFlowLaws (streamFlowController * connectionFlowController) := {|
  flow_sent c := bytesSent (base c.1);
  flow_limit c := sendWindow (base c.1);
|}.
Proof.
  - intros [s c]. unfold SendWindowSize_, stream_flow, Stream_SendWindowSize, SendWindowSize. simpl.
    repeat zcase; lia.
  - done.
  - intros [s c]. unfold IsNewlyBlocked_, stream_flow, Stream_IsNewlyBlocked, IsNewlyBlocked. simpl.
    by destruct (negb _ || _).
  - intros [s c] l. unfold UpdateSendWindow_, stream_flow, UpdateSendWindow. simpl.
    zcase; simpl; lia.
Defined.

(** The notifications of the [streamSender] (stream.go). *)
Inductive stream_event := onHasConnectionData | onHasStreamData | onHasStreamControlFrame | onStreamCompleted.
#[global] Instance stream_event_eq_dec : EqDecision stream_event.
Proof. solve_decision. Defined.

(** Number of [onStreamCompleted] in a list of notifications. *)
Definition completions (evs : list stream_event) : Z :=
  len (filter (λ e, e = onStreamCompleted) evs).

Lemma completions_app evs evs' : completions (evs ++ evs') = completions evs + completions evs'.
Proof. unfold completions. by rewrite filter_app, len_app. Qed.

Lemma completions_if (b : bool) e :
  completions (if b then [e] else []) = if b && bool_decide (e = onStreamCompleted) then 1 else 0.
Proof. by destruct b, e. Qed.

Lemma completions_elem evs : onStreamCompleted ∈ evs → 0 < completions evs.
Proof.
  intros Hev. apply len_pos. intros Hnil.
  assert (onStreamCompleted ∈ filter (λ e, e = onStreamCompleted) evs) as Hin by (by apply list_elem_of_filter).
  rewrite Hnil in Hin. by apply not_elem_of_nil in Hin.
Qed.

Module SendStream.
Abbreviation frame := StreamFrame.t.

Section stream.
Context {FC : Type} `{!SendFlowController FC}.
Record sendStream := mk {
  numOutstandingFrames : Z;
  retransmissionQueue : list StreamFrame.t;
  ctx : option (option error);
  streamID : Z;
  writeOffset : Z;
  finalError : option error;
  queuedResetStreamFrame : option ResetStreamFrame.t;
  finishedWriting : bool;
  finSent : bool;
  cancellationFlagged : bool;
  cancelled : bool;
  closedForShutdown : bool;
  completed : bool;
  dataForWriting : list byte;
  nextFrame : option StreamFrame.t;
  writeChan : bool;
  deadline : Z;
  flowController : FC;
}.

Section fields.
Context (s : sendStream).
Definition set_numOutstandingFrames (x : Z) : sendStream := mk x (retransmissionQueue s) (ctx s)
  (streamID s) (writeOffset s) (finalError s) (queuedResetStreamFrame s) (finishedWriting s)
  (finSent s) (cancellationFlagged s) (cancelled s) (closedForShutdown s) (completed s)
  (dataForWriting s) (nextFrame s) (writeChan s) (deadline s) (flowController s).
Definition set_retransmissionQueue (x : list StreamFrame.t) : sendStream := mk (numOutstandingFrames
  s) x (ctx s) (streamID s) (writeOffset s) (finalError s) (queuedResetStreamFrame s)
  (finishedWriting s) (finSent s) (cancellationFlagged s) (cancelled s) (closedForShutdown s)
  (completed s) (dataForWriting s) (nextFrame s) (writeChan s) (deadline s) (flowController s).
Definition set_ctx (x : option (option error)) : sendStream := mk (numOutstandingFrames s)
  (retransmissionQueue s) x (streamID s) (writeOffset s) (finalError s) (queuedResetStreamFrame s)
  (finishedWriting s) (finSent s) (cancellationFlagged s) (cancelled s) (closedForShutdown s)
  (completed s) (dataForWriting s) (nextFrame s) (writeChan s) (deadline s) (flowController s).
Definition set_writeOffset (x : Z) : sendStream := mk (numOutstandingFrames s) (retransmissionQueue
  s) (ctx s) (streamID s) x (finalError s) (queuedResetStreamFrame s) (finishedWriting s) (finSent
  s) (cancellationFlagged s) (cancelled s) (closedForShutdown s) (completed s) (dataForWriting s)
  (nextFrame s) (writeChan s) (deadline s) (flowController s).
Definition set_finalError (x : option error) : sendStream := mk (numOutstandingFrames s)
  (retransmissionQueue s) (ctx s) (streamID s) (writeOffset s) x (queuedResetStreamFrame s)
  (finishedWriting s) (finSent s) (cancellationFlagged s) (cancelled s) (closedForShutdown s)
  (completed s) (dataForWriting s) (nextFrame s) (writeChan s) (deadline s) (flowController s).
Definition set_queuedResetStreamFrame (x : option ResetStreamFrame.t) : sendStream := mk
  (numOutstandingFrames s) (retransmissionQueue s) (ctx s) (streamID s) (writeOffset s) (finalError
  s) x (finishedWriting s) (finSent s) (cancellationFlagged s) (cancelled s) (closedForShutdown s)
  (completed s) (dataForWriting s) (nextFrame s) (writeChan s) (deadline s) (flowController s).
Definition set_finishedWriting (x : bool) : sendStream := mk (numOutstandingFrames s)
  (retransmissionQueue s) (ctx s) (streamID s) (writeOffset s) (finalError s)
  (queuedResetStreamFrame s) x (finSent s) (cancellationFlagged s) (cancelled s) (closedForShutdown
  s) (completed s) (dataForWriting s) (nextFrame s) (writeChan s) (deadline s) (flowController s).
Definition set_finSent (x : bool) : sendStream := mk (numOutstandingFrames s) (retransmissionQueue
  s) (ctx s) (streamID s) (writeOffset s) (finalError s) (queuedResetStreamFrame s) (finishedWriting
  s) x (cancellationFlagged s) (cancelled s) (closedForShutdown s) (completed s) (dataForWriting s)
  (nextFrame s) (writeChan s) (deadline s) (flowController s).
Definition set_cancellationFlagged (x : bool) : sendStream := mk (numOutstandingFrames s)
  (retransmissionQueue s) (ctx s) (streamID s) (writeOffset s) (finalError s)
  (queuedResetStreamFrame s) (finishedWriting s) (finSent s) x (cancelled s) (closedForShutdown s)
  (completed s) (dataForWriting s) (nextFrame s) (writeChan s) (deadline s) (flowController s).
Definition set_cancelled (x : bool) : sendStream := mk (numOutstandingFrames s) (retransmissionQueue
  s) (ctx s) (streamID s) (writeOffset s) (finalError s) (queuedResetStreamFrame s) (finishedWriting
  s) (finSent s) (cancellationFlagged s) x (closedForShutdown s) (completed s) (dataForWriting s)
  (nextFrame s) (writeChan s) (deadline s) (flowController s).
Definition set_closedForShutdown (x : bool) : sendStream := mk (numOutstandingFrames s)
  (retransmissionQueue s) (ctx s) (streamID s) (writeOffset s) (finalError s)
  (queuedResetStreamFrame s) (finishedWriting s) (finSent s) (cancellationFlagged s) (cancelled s) x
  (completed s) (dataForWriting s) (nextFrame s) (writeChan s) (deadline s) (flowController s).
Definition set_completed (x : bool) : sendStream := mk (numOutstandingFrames s) (retransmissionQueue
  s) (ctx s) (streamID s) (writeOffset s) (finalError s) (queuedResetStreamFrame s) (finishedWriting
  s) (finSent s) (cancellationFlagged s) (cancelled s) (closedForShutdown s) x (dataForWriting s)
  (nextFrame s) (writeChan s) (deadline s) (flowController s).
Definition set_dataForWriting (x : list byte) : sendStream := mk (numOutstandingFrames s)
  (retransmissionQueue s) (ctx s) (streamID s) (writeOffset s) (finalError s)
  (queuedResetStreamFrame s) (finishedWriting s) (finSent s) (cancellationFlagged s) (cancelled s)
  (closedForShutdown s) (completed s) x (nextFrame s) (writeChan s) (deadline s) (flowController s).
Definition set_nextFrame (x : option StreamFrame.t) : sendStream := mk (numOutstandingFrames s)
  (retransmissionQueue s) (ctx s) (streamID s) (writeOffset s) (finalError s)
  (queuedResetStreamFrame s) (finishedWriting s) (finSent s) (cancellationFlagged s) (cancelled s)
  (closedForShutdown s) (completed s) (dataForWriting s) x (writeChan s) (deadline s)
  (flowController s).
Definition set_writeChan (x : bool) : sendStream := mk (numOutstandingFrames s) (retransmissionQueue
  s) (ctx s) (streamID s) (writeOffset s) (finalError s) (queuedResetStreamFrame s) (finishedWriting
  s) (finSent s) (cancellationFlagged s) (cancelled s) (closedForShutdown s) (completed s)
  (dataForWriting s) (nextFrame s) x (deadline s) (flowController s).
Definition set_deadline (x : Z) : sendStream := mk (numOutstandingFrames s) (retransmissionQueue s)
  (ctx s) (streamID s) (writeOffset s) (finalError s) (queuedResetStreamFrame s) (finishedWriting s)
  (finSent s) (cancellationFlagged s) (cancelled s) (closedForShutdown s) (completed s)
  (dataForWriting s) (nextFrame s) (writeChan s) x (flowController s).
Definition set_flowController (x : FC) : sendStream := mk (numOutstandingFrames s)
  (retransmissionQueue s) (ctx s) (streamID s) (writeOffset s) (finalError s)
  (queuedResetStreamFrame s) (finishedWriting s) (finSent s) (cancellationFlagged s) (cancelled s)
  (closedForShutdown s) (completed s) (dataForWriting s) (nextFrame s) (writeChan s) (deadline s) x.
End fields.

Implicit Types (s : sendStream) (f : frame).

Definition newSendStream (streamID : Z) (flowController : FC) : sendStream :=
  mk 0 [] None streamID 0 None None false false false false false false [] None false 0 flowController.

(** [s.ctxCancel(cause)] *)
Definition ctxCancel s (cause : option error) : sendStream :=
  match ctx s with None => set_ctx s (Some cause) | Some _ => s end.

Definition signalWrite s : sendStream := set_writeChan s true.

Definition isNewlyCompleted s : sendStream * bool :=
  if completed s then (s, false) else
  if (0 <? numOutstandingFrames s) || (0 <? len (retransmissionQueue s)) ||
     bool_decide (queuedResetStreamFrame s ≠ None) then (s, false) else
  if finSent s then (set_completed s true, true) else
  if cancelled s && (cancellationFlagged s || finishedWriting s) then (set_completed s true, true) else
  (s, false).

(** [if completed { s.sender.onStreamCompleted(s.streamID) }] *)
Definition notifyCompleted (completed : bool) : list stream_event := if completed then [onStreamCompleted] else [].

(** ** Writing *)
Definition canBufferStreamFrame s : bool :=
  let l := match nextFrame s with Some f => StreamFrame.DataLen f | None => 0 end in
  l + len (dataForWriting s) <=? MaxPacketBufferSize.

Inductive write_result := Returned (n : Z) (err : option error) | Blocked.

(** A return with [finalError]. *)
Definition returnFinalError s (n : Z) (err : error) : sendStream * list stream_event * write_result :=
  let s := if cancelled s then set_cancellationFlagged s true else s in
  let '(s, c) := isNewlyCompleted s in
  (s, notifyCompleted c, Returned n (Some err)).

(** The data is copied to [nextFrame]. *)
Definition bufferData (pool : list byte) (stale : bool) s : res sendStream :=
  let data := dataForWriting s in
  match nextFrame s with
  | None =>
      d ← reslice pool (len data);
      Ok (set_dataForWriting (set_nextFrame s (Some
            (StreamFrame.mk (streamID s) (writeOffset s) (copy_into d data) stale true true (len pool)))) [])
  | Some f =>
      let l := StreamFrame.DataLen f in
      if StreamFrame.DataCap f <? l + len data then Panic else
      Ok (set_dataForWriting (set_nextFrame s (Some
            (StreamFrame.mk (StreamFrame.StreamID f) (StreamFrame.Offset f) (StreamFrame.Data f ++ data)
               (StreamFrame.Fin f) (StreamFrame.DataLenPresent f) (StreamFrame.fromPool f)
               (StreamFrame.DataCap f)))) [])
  end.

(** An iteration of the loop in [write] for a slice of [plen] bytes, up to the point
    where the goroutine waits or returns. *)
Definition write_loop (pool : list byte) (stale : bool) s (now plen : Z) (notifiedSender : bool)
  : res (sendStream * list stream_event * write_result) :=
  let notify := if notifiedSender then [] else [onHasStreamData] in
  if canBufferStreamFrame s && (0 <? len (dataForWriting s)) then
    s ← bufferData pool stale s; Ok (s, notify, Returned plen None)
  else
  let bytesWritten := plen - len (dataForWriting s) in
  if negb (deadline s =? 0) && (deadline s <=? now)
  then Ok (set_dataForWriting s [], [], Returned bytesWritten (Some errDeadline)) else
  if (len (dataForWriting s) =? 0) || bool_decide (finalError s ≠ None) then
    if bytesWritten =? plen then Ok (s, [], Returned bytesWritten None) else
    match finalError s with
    | Some e => Ok (returnFinalError s bytesWritten e)
    | None => Ok (s, [], Returned bytesWritten None)
    end
  else Ok (s, notify, Blocked).

Definition Write (pool : list byte) (stale : bool) s (now : Z) (p : list byte)
  : res (sendStream * list stream_event * write_result) :=
  match finalError s with
  | Some e => Ok (returnFinalError s 0 e)
  | None =>
      if finishedWriting s
      then Ok (s, [], Returned 0 (Some (ErrorString "write on closed stream %d" [streamID s]))) else
      if negb (deadline s =? 0) && (deadline s <=? now) then Ok (s, [], Returned 0 (Some errDeadline)) else
      if len p =? 0 then Ok (s, [], Returned 0 None) else
      write_loop pool stale (set_dataForWriting s p) now (len p) false
  end.

(** The goroutine continues, because of [writeChan] or because its timer fired. *)
Definition Write_resume (pool : list byte) (stale : bool) s (now plen : Z) (signalled : bool)
  : res (sendStream * list stream_event * write_result) :=
  write_loop pool stale (if signalled then set_writeChan s false else s) now plen true.

Definition hasData s : bool := 0 <? len (dataForWriting s).

(** ** Sending *)
Definition getDataForWriting s (arr : list byte) (maxBytes : Z) : res (sendStream * list byte) :=
  let data := dataForWriting s in
  if len data <=? maxBytes then
    d ← reslice arr (len data);
    Ok (signalWrite (set_dataForWriting s []), copy_into d data)
  else
    d ← reslice arr maxBytes;
    rest ← slice_from data maxBytes;
    let s := set_dataForWriting s rest in
    Ok (if canBufferStreamFrame s then signalWrite s else s, copy_into d data).

Definition hasMore s : bool :=
  (0 <? len (dataForWriting s)) || bool_decide (nextFrame s ≠ None) || finishedWriting s.

(** The frame [f] has a buffer with the contents [arr]. *)
Definition popNewStreamFrameWithoutBuffer s f (arr : list byte) (maxBytes sendWindow : Z)
  : res (sendStream * frame * bool) :=
  maxDataLen ← StreamFrame.MaxDataLen f maxBytes;
  if maxDataLen =? 0 then Ok (s, f, hasMore s) else
  '(s, d) ← getDataForWriting s arr (Z.min maxDataLen sendWindow);
  Ok (s, StreamFrame.mk (StreamFrame.StreamID f) (StreamFrame.Offset f) d (StreamFrame.Fin f)
           (StreamFrame.DataLenPresent f) (StreamFrame.fromPool f) (StreamFrame.DataCap f), hasMore s).

(** The part of [nextFrame] behind [maxDataLen] goes to a new frame. *)
Definition splitNextFrame (pool : list byte) (stale : bool) s f (maxDataLen : Z) : res (sendStream * frame) :=
  d ← reslice pool (StreamFrame.DataLen f - maxDataLen);
  rest ← slice_from (StreamFrame.Data f) maxDataLen;
  first ← slice_to (StreamFrame.Data f) maxDataLen;
  Ok (set_nextFrame s (Some (StreamFrame.mk (streamID s) (writeOffset s + maxDataLen) (copy_into d rest)
                               stale true true (len pool))),
      StreamFrame.mk (StreamFrame.StreamID f) (StreamFrame.Offset f) first (StreamFrame.Fin f)
        (StreamFrame.DataLenPresent f) (StreamFrame.fromPool f) (StreamFrame.DataCap f)).

Definition popNewStreamFrame (pool : list byte) (stale : bool) s (maxBytes sendWindow : Z)
  : res (sendStream * option frame * bool) :=
  match nextFrame s with
  | Some f =>
      m ← StreamFrame.MaxDataLen f maxBytes;
      let maxDataLen := Z.min sendWindow m in
      if maxDataLen =? 0 then Ok (s, None, true) else
      let s := set_nextFrame s None in
      '(s, f) ← (if maxDataLen <? StreamFrame.DataLen f
                 then splitNextFrame pool stale s f maxDataLen
                 else Ok (signalWrite s, f));
      Ok (s, Some f, bool_decide (nextFrame s ≠ None) || (0 <? len (dataForWriting s)))
  | None =>
      let f := StreamFrame.mk (streamID s) (writeOffset s) [] false true true (len pool) in
      '(s, f, more) ← popNewStreamFrameWithoutBuffer s f pool maxBytes sendWindow;
      if (len (StreamFrame.Data f) =? 0) && negb (StreamFrame.Fin f)
      then _ ← StreamFrame.putStreamFrame f; Ok (s, None, more)
      else Ok (s, Some f, more)
  end.

(** The frame to send and whether there are more; the first frame of the queue is
    split if it does not fit. *)
Definition maybeGetRetransmission (pool : list byte) s (maxBytes : Z)
  : res (sendStream * option frame * bool) :=
  match retransmissionQueue s with
  | [] => Panic
  | f :: q =>
      '(newFrame, needsSplit, f) ← StreamFrame.MaybeSplitOffFrame pool f maxBytes;
      if (needsSplit : bool) then Ok (set_retransmissionQueue s (f :: q), newFrame, true) else
      Ok (set_retransmissionQueue s q, Some f, 0 <? len q)
  end.

Definition set_Fin f (fin : bool) : frame :=
  StreamFrame.mk (StreamFrame.StreamID f) (StreamFrame.Offset f) (StreamFrame.Data f) fin
    (StreamFrame.DataLenPresent f) (StreamFrame.fromPool f) (StreamFrame.DataCap f).

(** The frame that was popped is accounted for, the stream may be blocked by it. *)
Definition accountFrame s f (sendWindow : Z) : sendStream * option StreamDataBlockedFrame.t :=
  let n := StreamFrame.DataLen f in
  let s := if 0 <? n
           then set_flowController (set_writeOffset s (writeOffset s + n)) (AddBytesSent_ (flowController s) n)
           else s in
  if n =? sendWindow then
    let '(fc, b) := IsNewlyBlocked_ (flowController s) in
    (set_flowController s fc, if b then Some (StreamDataBlockedFrame.mk (streamID s) (writeOffset s)) else None)
  else (s, None).

(** Whether the frame that was popped gets the FIN bit. *)
Definition needsFin s : bool :=
  finishedWriting s && (len (dataForWriting s) =? 0) && bool_decide (nextFrame s = None) && negb (finSent s).

Definition finishNewFrame s f (sendWindow : Z) (more : bool)
  : sendStream * option frame * option StreamDataBlockedFrame.t * bool :=
  let '(s, blocked) := accountFrame s f sendWindow in
  let fin := needsFin s in
  (if fin then set_finSent s true else s, Some (set_Fin f fin), blocked, more).

(** The stream has new data: without data it may still have to send the FIN. *)
Definition popNewFrame (pool : list byte) (stale : bool) s (maxBytes : Z)
  : res (sendStream * option frame * option StreamDataBlockedFrame.t * bool) :=
  if (len (dataForWriting s) =? 0) && bool_decide (nextFrame s = None) then
    if finishedWriting s && negb (finSent s)
    then Ok (set_finSent s true, Some (StreamFrame.mk (streamID s) (writeOffset s) [] true true false 0), None, false)
    else Ok (s, None, None, false)
  else
  let sendWindow := SendWindowSize_ (flowController s) in
  if sendWindow =? 0 then Ok (s, None, None, true) else
  '(s, f, more) ← popNewStreamFrame pool stale s maxBytes sendWindow;
  match f with
  | None => Ok (s, None, None, more)
  | Some f => Ok (finishNewFrame s f sendWindow more)
  end.

Definition popNewOrRetransmittedStreamFrame (pool : list byte) (stale : bool) s (maxBytes : Z)
  : res (sendStream * option frame * option StreamDataBlockedFrame.t * bool) :=
  if bool_decide (finalError s ≠ None) then Ok (s, None, None, false) else
  if 0 <? len (retransmissionQueue s) then
    '(s, f, moreRetransmissions) ← maybeGetRetransmission pool s maxBytes;
    match f with
    | Some f => Ok (s, Some f, None, true)
    | None => if (moreRetransmissions : bool) then Ok (s, None, None, true) else popNewFrame pool stale s maxBytes
    end
  else popNewFrame pool stale s maxBytes.

Definition popStreamFrame (pool : list byte) (stale : bool) s (maxBytes : Z)
  : res (sendStream * option frame * option StreamDataBlockedFrame.t * bool) :=
  '(s, f, blocked, more) ← popNewOrRetransmittedStreamFrame pool stale s maxBytes;
  let s := match f with
           | Some _ => set_numOutstandingFrames s (numOutstandingFrames s + 1)
           | None => s
           end in
  Ok (s, f, blocked, more).

(** ** Closing *)
Definition Close s : sendStream * list stream_event * option error :=
  if closedForShutdown s || finishedWriting s then (s, [], None) else
  let s := set_finishedWriting s true in
  let wasCancelled := cancelled s in
  let s := if wasCancelled then set_cancellationFlagged s true else s in
  let '(s, c) := isNewlyCompleted s in
  if wasCancelled then
    (s, notifyCompleted c, Some (ErrorString "close called for canceled stream %d" [streamID s]))
  else (ctxCancel s None, notifyCompleted c ++ [onHasStreamData], None).

Definition cancelWrite s (errorCode : Z) (remote : bool) : sendStream * list stream_event :=
  if closedForShutdown s then (s, []) else
  let s := if negb remote then set_cancellationFlagged s true else s in
  if cancelled s then
    if negb remote then let '(s, c) := isNewlyCompleted s in (s, notifyCompleted c) else (s, [])
  else
  let err := StreamError (streamID s) errorCode remote in
  let s := set_finalError (set_cancelled s true) (Some err) in
  let s := ctxCancel s (Some err) in
  let s := set_retransmissionQueue (set_numOutstandingFrames s 0) [] in
  let s := set_queuedResetStreamFrame s
             (Some (ResetStreamFrame.mk (streamID s) errorCode (writeOffset s))) in
  (signalWrite s, [onHasStreamControlFrame]).

Definition CancelWrite s (errorCode : Z) : sendStream * list stream_event := cancelWrite s errorCode false.

Definition handleStopSendingFrame s (frame : StopSendingFrame.t) : sendStream * list stream_event :=
  cancelWrite s (StopSendingFrame.ErrorCode frame) true.

Definition updateSendWindow s (limit : Z) : sendStream * list stream_event :=
  let '(fc, updated) := UpdateSendWindow_ (flowController s) limit in
  let s := set_flowController s fc in
  if negb updated then (s, []) else
  (s, if (0 <? len (dataForWriting s)) || bool_decide (nextFrame s ≠ None) then [onHasStreamData] else []).

Definition getControlFrame s : sendStream * option ResetStreamFrame.t :=
  match queuedResetStreamFrame s with
  | None => (s, None)
  | Some f => (set_queuedResetStreamFrame (set_numOutstandingFrames s (numOutstandingFrames s + 1)) None, Some f)
  end.

Definition SetWriteDeadline s (t : Z) : sendStream := signalWrite (set_deadline s t).

Definition closeForShutdown s (err : error) : sendStream :=
  let s := set_closedForShutdown s true in
  let s := if bool_decide (finalError s = None) && negb (finishedWriting s)
           then set_finalError s (Some err) else s in
  signalWrite s.

(** ** Acknowledgements and losses *)

(** [s.numOutstandingFrames--], which must not become negative *)
Definition settleFrame s : res sendStream :=
  let s := set_numOutstandingFrames s (numOutstandingFrames s - 1) in
  if numOutstandingFrames s <? 0 then Panic else Ok s.

Definition OnAcked s f : res (sendStream * list stream_event) :=
  _ ← StreamFrame.putStreamFrame f;
  if cancelled s then Ok (s, []) else
  s ← settleFrame s;
  let '(s, c) := isNewlyCompleted s in
  Ok (s, notifyCompleted c).

Definition OnLost s f : res (sendStream * list stream_event) :=
  if cancelled s then Ok (s, []) else
  let f := StreamFrame.mk (StreamFrame.StreamID f) (StreamFrame.Offset f) (StreamFrame.Data f) (StreamFrame.Fin f)
             true (StreamFrame.fromPool f) (StreamFrame.DataCap f) in
  s ← settleFrame (set_retransmissionQueue s (retransmissionQueue s ++ [f]));
  Ok (s, [onHasStreamData]).

Definition Reset_OnAcked s : res (sendStream * list stream_event) :=
  s ← settleFrame s;
  let '(s, c) := isNewlyCompleted s in
  Ok (s, notifyCompleted c).

Definition Reset_OnLost s (f : ResetStreamFrame.t) : sendStream * list stream_event :=
  let s := set_queuedResetStreamFrame s (Some f) in
  (set_numOutstandingFrames s (numOutstandingFrames s - 1), [onHasStreamControlFrame]).
End stream.
Arguments sendStream FC : clear implicits.

(** ** What popping a frame does *)
Section pop_specs.
Context {FC : Type} `{!SendFlowController FC, !SendFlowLaws FC}.
Implicit Types (s : sendStream FC) (f : frame).

(** The bytes that wait to be sent: those in [nextFrame], then those of [Write]. *)
Definition buffered s : list byte :=
  match nextFrame s with Some f => StreamFrame.Data f | None => [] end.
Definition unsent s : list byte := buffered s ++ dataForWriting s.

Record next_ok s f : Prop := {
  next_id : StreamFrame.StreamID f = streamID s;
  next_offset : StreamFrame.Offset f = writeOffset s;
  next_len : 0 < StreamFrame.DataLen f ≤ MaxPacketBufferSize;
  next_present : StreamFrame.DataLenPresent f = true;
  next_cap : StreamFrame.DataCap f = MaxPacketBufferSize;
}.

Record stream_ok s : Prop := {
  ok_id : is_varint (streamID s);
  ok_offset : 0 ≤ writeOffset s ≤ flow_limit (flowController s);
  ok_sent : flow_sent (flowController s) = writeOffset s;
  ok_limit : flow_limit (flowController s) ≤ MaxByteCount;
  ok_next : ∀ f, nextFrame s = Some f → next_ok s f;
  ok_fin : finSent s = true → finishedWriting s = true ∧ nextFrame s = None ∧ dataForWriting s = [];
}.

Lemma stream_ok_eq s s' :
  stream_ok s → streamID s' = streamID s → writeOffset s' = writeOffset s → flowController s' = flowController s →
  nextFrame s' = nextFrame s → dataForWriting s' = dataForWriting s → finSent s' = finSent s →
  finishedWriting s' = finishedWriting s → stream_ok s'.
Proof.
  intros [? ? ? ? Hn Hf] Eid Eo Ef En Ed Efin Efw.
  split; rewrite ?Eid, ?Eo, ?Ef, ?En, ?Ed, ?Efin, ?Efw; try done.
  intros f Hf'. destruct (Hn f Hf'). by split; rewrite ?Eid, ?Eo.
Qed.

(** The fields that popping new data leaves alone. *)
Record same_rest s s' : Prop := {
  same_outstanding : numOutstandingFrames s' = numOutstandingFrames s;
  same_queue : retransmissionQueue s' = retransmissionQueue s;
  same_id : streamID s' = streamID s;
  same_finalError : finalError s' = finalError s;
  same_reset : queuedResetStreamFrame s' = queuedResetStreamFrame s;
  same_finished : finishedWriting s' = finishedWriting s;
  same_flagged : cancellationFlagged s' = cancellationFlagged s;
  same_cancelled : cancelled s' = cancelled s;
  same_shutdown : closedForShutdown s' = closedForShutdown s;
  same_completed : completed s' = completed s;
  same_deadline : deadline s' = deadline s;
  same_ctx : ctx s' = ctx s;
}.

(** [f] carries the next bytes of [s], which are no longer unsent in [s']. *)
Record takes s f s' : Prop := {
  takes_id : StreamFrame.StreamID f = streamID s;
  takes_offset : StreamFrame.Offset f = writeOffset s;
  takes_data : unsent s = StreamFrame.Data f ++ unsent s';
  takes_rest : ∃ d, dataForWriting s = d ++ dataForWriting s';
  takes_present : StreamFrame.DataLenPresent f = true;
  takes_pool : StreamFrame.pool_inv f;
  takes_next : ∀ g, nextFrame s' = Some g → StreamFrame.StreamID g = streamID s ∧
    StreamFrame.Offset g = writeOffset s + StreamFrame.DataLen f ∧
    0 < StreamFrame.DataLen g ≤ MaxPacketBufferSize ∧
    StreamFrame.DataLenPresent g = true ∧ StreamFrame.DataCap g = MaxPacketBufferSize;
  takes_chan : writeChan s = true → writeChan s' = true;
  takes_signal : dataForWriting s ≠ [] → writeChan s' = false →
    nextFrame s' ≠ None ∧ dataForWriting s' = dataForWriting s ∨ canBufferStreamFrame s' = false;
}.

Lemma reslice_len arr n : 0 ≤ n ≤ len arr → reslice arr n = Ok (take (Z.to_nat n) arr).
Proof. intros. unfold reslice, slice_to. by repeat zcase. Qed.

(** Filling a part of a buffer with the first bytes of [src]. *)
Lemma copy_prefix arr src n :
  0 ≤ n ≤ len arr → n ≤ len src → copy_into (take (Z.to_nat n) arr) src = take (Z.to_nat n) src.
Proof.
  intros. rewrite copy_into_full by (rewrite len_take; lia). f_equal.
  rewrite length_take. unfold len in *. lia.
Qed.

Lemma getDataForWriting_spec s arr n :
  0 < n ≤ len arr → dataForWriting s ≠ [] → nextFrame s = None →
  returns (getDataForWriting s arr n) (λ '(s', d),
    same_rest s s' ∧ dataForWriting s = d ++ dataForWriting s' ∧ 0 < len d ≤ n ∧
    (dataForWriting s' ≠ [] → len d = n) ∧
    nextFrame s' = None ∧ writeOffset s' = writeOffset s ∧ flowController s' = flowController s ∧
    finSent s' = finSent s ∧
    (writeChan s = true → writeChan s' = true) ∧
    (writeChan s' = false → canBufferStreamFrame s' = false)).
Proof.
  intros Hn Hd Hnext. assert (0 < len (dataForWriting s)).
  { by apply len_pos. }
  unfold getDataForWriting, slice_from. zcase.
  - rewrite reslice_len by lia. simpl. rewrite copy_prefix by lia.
    rewrite take_ge by (unfold len; lia). rewrite app_nil_r. split_and!; try done; lia.
  - rewrite reslice_len by lia. simpl. repeat zcase. simpl. rewrite copy_prefix by lia.
    assert (len (take (Z.to_nat n) (dataForWriting s)) = n) by (apply len_take; lia).
    destruct (canBufferStreamFrame _) eqn:E; simpl; rewrite take_drop; split_and!; try done; lia.
Qed.

(** The sizes that the framer asks for: two bytes more than a packet, for the length
    field that the last frame does not need. *)
Definition size_ok (maxBytes : Z) : Prop := MinStreamFrameSize ≤ maxBytes ≤ MaxPacketBufferSize + 2.

(** The length of the encoding of [f], with [n] bytes of data. *)
Definition size_with f (n : Z) : Z :=
  1 + len (StreamFrame.header f) + lenField (StreamFrame.DataLenPresent f) n + n.

Lemma header_len f :
  is_varint (StreamFrame.StreamID f) → is_varint (StreamFrame.Offset f) →
  1 ≤ len (StreamFrame.header f) ≤ 16.
Proof.
  intros. unfold StreamFrame.header. rewrite len_app, len_venc.
  pose proof (vlen_pos (StreamFrame.StreamID f)).
  destruct (StreamFrame.Offset f =? 0); rewrite ?len_venc; [len_lia|].
  pose proof (vlen_pos (StreamFrame.Offset f)). lia.
Qed.

Lemma max_data_len_pos f maxBytes :
  is_varint (StreamFrame.StreamID f) → is_varint (StreamFrame.Offset f) →
  StreamFrame.DataLenPresent f = true → size_ok maxBytes →
  ∃ n, StreamFrame.MaxDataLen f maxBytes = Ok n ∧ 0 < n ≤ MaxPacketBufferSize ∧
    ∀ m, m ≤ n → size_with f m ≤ maxBytes.
Proof.
  unfold size_ok, MinStreamFrameSize, MaxPacketBufferSize. intros Hid Hoff Hp Hmax.
  destruct (StreamFrame.max_data_len f maxBytes Hid Hoff ltac:(lia)) as (n & Hn & Hn0 & Hfit & Hopt).
  pose proof (header_len f Hid Hoff).
  assert (1 ≤ n).
  { apply Hopt; [lia|]. rewrite Hp. unfold lenField. rewrite (vlen_1 1) by lia. lia. }
  specialize (Hfit ltac:(lia)). exists n. split; [done|]. split.
  - rewrite Hp in Hfit. unfold lenField in Hfit. pose proof (vlen_pos n). lia.
  - intros m Hm. unfold size_with. pose proof (StreamFrame.lenField_mono (StreamFrame.DataLenPresent f) m n Hm). lia.
Qed.

Lemma same_rest_trans s1 s2 s3 : same_rest s1 s2 → same_rest s2 s3 → same_rest s1 s3.
Proof. intros [] []. split; congruence. Qed.

Lemma unsent_nil s :
  (∀ f, nextFrame s = Some f → 0 < StreamFrame.DataLen f) →
  unsent s = [] ↔ nextFrame s = None ∧ dataForWriting s = [].
Proof.
  intros Hok. unfold unsent, buffered. destruct (nextFrame s) as [f|] eqn:Hn; [|naive_solver].
  specialize (Hok f eq_refl). unfold StreamFrame.DataLen in *. split; [|naive_solver].
  intros [Hd _]%app_nil. exfalso. by rewrite Hd in Hok.
Qed.

Lemma ok_unsent_nil s : stream_ok s → unsent s = [] ↔ nextFrame s = None ∧ dataForWriting s = [].
Proof. intros Hok. apply unsent_nil. intros f Hf. apply (ok_next _ Hok f Hf). Qed.

Lemma fin_unsent s : stream_ok s → finSent s = true → unsent s = [].
Proof. intros Hok (_&?&?)%(ok_fin _ Hok). by apply ok_unsent_nil. Qed.

(** The result of [popNewStreamFrame]: a frame with new data. *)
Definition popped s (maxBytes w : Z) (r : sendStream FC * option frame * bool) : Prop :=
  let '(s', o, more) := r in
  ∃ f, o = Some f ∧ same_rest s s' ∧ takes s f s' ∧
    0 < StreamFrame.DataLen f ≤ w ∧ size_with f (StreamFrame.DataLen f) ≤ maxBytes ∧
    writeOffset s' = writeOffset s ∧ flowController s' = flowController s ∧ finSent s' = finSent s ∧
    (more = false → unsent s' = []).

Lemma splitNextFrame_spec pool stale s f n :
  len pool = MaxPacketBufferSize → next_ok s f → 0 < n < StreamFrame.DataLen f →
  splitNextFrame pool stale s f n = Ok
    (set_nextFrame s (Some (StreamFrame.mk (streamID s) (writeOffset s + n)
       (drop (Z.to_nat n) (StreamFrame.Data f)) stale true true MaxPacketBufferSize)),
     StreamFrame.mk (streamID s) (writeOffset s) (take (Z.to_nat n) (StreamFrame.Data f))
       (StreamFrame.Fin f) true (StreamFrame.fromPool f) MaxPacketBufferSize).
Proof.
  intros Hpool [Hid Hoff Hlen Hp Hcap] Hn. unfold splitNextFrame, slice_from, slice_to, StreamFrame.DataLen in *.
  rewrite reslice_len by lia. simpl. repeat zcase. simpl.
  rewrite copy_prefix by (rewrite ?len_drop; lia).
  rewrite take_ge by (rewrite length_drop; unfold len in *; lia). by rewrite Hid, Hoff, Hp, Hcap, Hpool.
Qed.

Lemma popNewStreamFrame_buffered pool stale s maxBytes w f :
  len pool = MaxPacketBufferSize → size_ok maxBytes → stream_ok s → nextFrame s = Some f → 0 < w →
  returns (popNewStreamFrame pool stale s maxBytes w) (popped s maxBytes w).
Proof.
  intros Hpool Hmax [Hid Hoff Hsent Hlim Hnext Hfin] Hn Hw.
  assert (is_varint (writeOffset s)) by (unfold is_varint, maxVarInt8, MaxByteCount in *; lia).
  pose proof (Hnext f Hn) as Hok. destruct (Hok) as [Hfid Hfoff Hflen Hfp Hfcap].
  unfold popNewStreamFrame. rewrite Hn.
  destruct (max_data_len_pos f maxBytes) as (n & -> & Hn0 & Hfit); [by rewrite ?Hfid, ?Hfoff..|done|done|].
  cbn [mbind result_bind]. zcase. zcase.
  - rewrite splitNextFrame_spec; [|done|by split|lia].
    set (m := Z.min w n) in *. simpl. eexists. split; [done|].
    assert (0 < m < StreamFrame.DataLen f ∧ m ≤ w ∧ m ≤ n) as (?&?&?) by lia. clearbody m.
    unfold size_with, StreamFrame.DataLen, StreamFrame.header in *. simpl.
    rewrite len_take by lia. split_and!; try done; try lia; [..|by rewrite Hfid, Hfoff, Hfp in Hfit; apply Hfit].
    split; simpl; try done.
    + unfold unsent, buffered. simpl. rewrite Hn. by rewrite app_assoc, take_drop.
    + by exists [].
    + intros g [= <-]. simpl. unfold StreamFrame.DataLen. simpl.
      rewrite len_take, len_drop by lia. split_and!; try done; lia.
    + by left.
  - simpl. eexists. split; [done|]. split_and!; try done; try lia.
    + split; simpl; try done.
      * unfold unsent, buffered. simpl. by rewrite Hn.
      * by exists [].
      * by intros _.
    + by apply Hfit; lia.
    + unfold unsent, buffered. simpl. by intros ->%len_ltb.
Qed.

Lemma popNewStreamFrame_write pool stale s maxBytes w :
  len pool = MaxPacketBufferSize → size_ok maxBytes → stream_ok s → nextFrame s = None →
  dataForWriting s ≠ [] → 0 < w →
  returns (popNewStreamFrame pool stale s maxBytes w) (popped s maxBytes w).
Proof.
  intros Hpool Hmax [Hid Hoff Hsent Hlim Hnext Hfin] Hn Hd Hw.
  assert (is_varint (writeOffset s)) by (unfold is_varint, maxVarInt8, MaxByteCount in *; lia).
  unfold popNewStreamFrame, popNewStreamFrameWithoutBuffer. rewrite Hn.
  set (f := StreamFrame.mk (streamID s) (writeOffset s) [] false true true (len pool)).
  destruct (max_data_len_pos f maxBytes) as (n & -> & Hn0 & Hfit); [done..|].
  cbn [mbind result_bind]. zcase.
  pose proof (getDataForWriting_spec s pool (Z.min n w) ltac:(lia) Hd Hn) as Hg.
  apply returns_iff in Hg as ([s' d] & -> & Hsame & Hdata & Hlen & _ & Hn' & Ho' & Hf' & Hfin' & Hc1 & Hc2).
  cbn [mbind result_bind]. zcase; [simpl in *; lia|]. simpl. eexists. split; [done|].
  unfold size_with, StreamFrame.DataLen, unsent, buffered in *. simpl. rewrite Hn'.
  split_and!; try done; try lia; [..|by apply Hfit; lia|].
  - split; simpl; try done.
    + unfold unsent, buffered. by rewrite Hn, Hn'.
    + by exists d.
    + by intros _.
    + intros g. by rewrite Hn'.
    + intros. right. auto.
  - unfold hasMore. by intros [[->%len_ltb _]%orb_false_iff _]%orb_false_iff.
Qed.

(** Everything that the application wrote was sent, with the FIN if it closed the stream. *)
Definition all_sent s : Prop := unsent s = [] ∧ (finishedWriting s = true → finSent s = true).

(** The result of popping a frame with new data. *)
Definition sends s (maxBytes : Z) (r : sendStream FC * option frame * option StreamDataBlockedFrame.t * bool) : Prop :=
  let '(s', o, blocked, more) := r in
  same_rest s s' ∧ stream_ok s' ∧ (more = false → all_sent s') ∧
  match o with
  | None => s' = s ∧ (all_sent s ∨ SendWindowSize_ (flowController s) = 0)
  | Some f =>
      takes s f s' ∧ StreamFrame.valid f ∧ len (StreamFrame.bytes f) ≤ maxBytes ∧
      writeOffset s' = writeOffset s + StreamFrame.DataLen f ∧
      flow_limit (flowController s') = flow_limit (flowController s) ∧
      finSent s' = finSent s || StreamFrame.Fin f ∧
      (StreamFrame.Fin f = true → finSent s = false ∧ unsent s' = [])
  end.

Lemma accountFrame_spec s f w s' blocked :
  0 < StreamFrame.DataLen f → accountFrame s f w = (s', blocked) →
  same_rest s s' ∧ dataForWriting s' = dataForWriting s ∧ nextFrame s' = nextFrame s ∧
  writeChan s' = writeChan s ∧ finSent s' = finSent s ∧ writeOffset s' = writeOffset s + StreamFrame.DataLen f ∧
  flow_sent (flowController s') = flow_sent (flowController s) + StreamFrame.DataLen f ∧
  flow_limit (flowController s') = flow_limit (flowController s).
Proof.
  intros Hn. unfold accountFrame. rewrite (proj2 (Z.ltb_lt _ _) Hn).
  pose proof (flow_add (flowController s) (StreamFrame.DataLen f)) as [Hs Hl].
  pose proof (flow_blocked (AddBytesSent_ (flowController s) (StreamFrame.DataLen f))) as [Hs' Hl'].
  cbn [flowController set_flowController].
  destruct (IsNewlyBlocked_ _) as [fc b]. simpl in Hs', Hl'. rewrite Hs in Hs'. rewrite Hl in Hl'.
  zcase; intros [= <- <-]; done.
Qed.

Lemma needsFin_true s :
  needsFin s = true ↔ finishedWriting s = true ∧ dataForWriting s = [] ∧ nextFrame s = None ∧ finSent s = false.
Proof.
  unfold needsFin. rewrite !andb_true_iff, len_eqb, bool_decide_eq_true, negb_true_iff. tauto.
Qed.

Lemma takes_finish s0 f s s' fin :
  takes s0 f s → dataForWriting s' = dataForWriting s → nextFrame s' = nextFrame s →
  writeChan s' = writeChan s → takes s0 (set_Fin f fin) s'.
Proof.
  intros [] Hd Hn Hc. split; unfold unsent, buffered, canBufferStreamFrame in *; rewrite ?Hd, ?Hn, ?Hc; done.
Qed.

Lemma finishNewFrame_spec s0 s f maxBytes more :
  stream_ok s0 → let w := SendWindowSize_ (flowController s0) in 0 < w →
  same_rest s0 s → takes s0 f s → 0 < StreamFrame.DataLen f ≤ w →
  size_with f (StreamFrame.DataLen f) ≤ maxBytes →
  writeOffset s = writeOffset s0 → flowController s = flowController s0 → finSent s = finSent s0 →
  (more = false → unsent s = []) →
  sends s0 maxBytes (finishNewFrame s f w more).
Proof.
  intros Hok w Hw Hsame Ht Hlen Hsize Ho Hfc Hfs Hmore. destruct (Hok) as [Hid Hoff Hsent Hlim Hnext Hfin].
  destruct (flow_window (flowController s0)) as [_ Hwin]. specialize (Hwin Hw). fold w in Hwin.
  assert (finSent s0 = false) as Hnofin.
  { apply not_true_iff_false. intros Hf%fin_unsent; [|done]. rewrite (takes_data _ _ _ Ht) in Hf.
    apply app_nil in Hf as [Hf _]. unfold StreamFrame.DataLen in Hlen. rewrite Hf in Hlen. by destruct Hlen. }
  unfold finishNewFrame. destruct (accountFrame s f w) as [s' blocked] eqn:Ha.
  apply accountFrame_spec in Ha as (Hs & Hd & Hn & Hc & Hf & Hw' & Hsent' & Hlim'); [|lia].
  rewrite Hfs, Hnofin in Hf. rewrite Hfc in *. set (fin := needsFin s').
  assert (needsFin s' = fin) as Hfin' by done. clearbody fin.
  set (s'' := if fin then set_finSent s' true else s').
  assert (same_rest s' s'' ∧ dataForWriting s'' = dataForWriting s ∧ nextFrame s'' = nextFrame s ∧
    writeChan s'' = writeChan s ∧ writeOffset s'' = writeOffset s' ∧ flowController s'' = flowController s' ∧
    finSent s'' = fin) as (Hs'' & Hd'' & Hn'' & Hc'' & Hw'' & Hf'' & Hfin'').
  { unfold s''. destruct fin; split_and!; simpl; done. }
  clearbody s''. assert (same_rest s0 s'') as Hsame' by (by eauto using same_rest_trans).
  assert (unsent s'' = unsent s) as Hun by (unfold unsent, buffered; by rewrite Hd'', Hn'').
  assert (fin = true ↔ finishedWriting s'' = true ∧ unsent s'' = []) as Hfin3.
  { rewrite unsent_nil, (same_finished _ _ Hs''), Hd'', Hn''.
    - rewrite <-Hfin', needsFin_true, Hd, Hn, Hf. tauto.
    - intros g. rewrite Hn''. intros Hg. apply (takes_next _ _ _ Ht g Hg). }
  split_and!; [done|..].
  - rewrite <-Hf'', <-Hw'' in *. split; rewrite ?(same_id _ _ Hsame'); try done; try lia.
    + rewrite Hn''. intros g Hg. destruct (takes_next _ _ _ Ht g Hg) as (?&?&?&?&?).
      split; rewrite ?(same_id _ _ Hsame'); try done. congruence.
    + rewrite Hfin''. intros [? (?&?)%unsent_nil]%Hfin3; [done|].
      intros g. rewrite Hn''. intros Hg. apply (takes_next _ _ _ Ht g Hg).
  - intros Hm%Hmore. split; [by rewrite Hun|]. intros Hfw. rewrite Hfin''. apply Hfin3. by rewrite Hun.
  - by apply (takes_finish _ _ s).
  - unfold StreamFrame.valid, StreamFrame.fits, set_Fin, StreamFrame.DataLen in *. simpl.
    rewrite (takes_id _ _ _ Ht), (takes_offset _ _ _ Ht). split_and!; try done; lia.
  - by rewrite StreamFrame.len_bytes.
  - rewrite Hw'', Hw', Ho. done.
  - congruence.
  - rewrite Hnofin, Hfin''. done.
  - intros Hfin4. split; [done|]. by apply Hfin3.
Qed.

(** The frame that has the FIN bit and no data. *)
Lemma finOnly_spec s maxBytes :
  size_ok maxBytes → stream_ok s → dataForWriting s = [] → nextFrame s = None →
  finishedWriting s = true → finSent s = false →
  sends s maxBytes (set_finSent s true,
    Some (StreamFrame.mk (streamID s) (writeOffset s) [] true true false 0), None, false).
Proof.
  intros Hmax [] Hd Hn Hfw Hfs. assert (unsent s = []) as Hun by (unfold unsent, buffered; by rewrite Hn, Hd).
  assert (is_varint (writeOffset s)) by (unfold is_varint, maxVarInt8, MaxByteCount in *; lia).
  set (f := StreamFrame.mk _ _ _ _ _ _ _). split; [done|].
  split; [split; simpl; try done; intros g; by rewrite Hn|]. split; [done|].
  assert (takes s f (set_finSent s true)).
  { split; simpl; try done; [by exists []|by rewrite Hn]. }
  split_and!; try done.
  - unfold StreamFrame.valid, StreamFrame.fits, StreamFrame.DataLen. simpl. change (len []) with 0.
    split; [|by right]. split_and!; [done|lia..].
  - rewrite StreamFrame.len_bytes. pose proof (header_len f ltac:(done) ltac:(done)).
    unfold size_ok, MinStreamFrameSize in Hmax. simpl. change (vlen _) with 1. change (StreamFrame.DataLen f) with 0. lia.
  - simpl. change (StreamFrame.DataLen f) with 0. lia.
  - simpl. by rewrite orb_true_r.
Qed.

Lemma popNewFrame_spec pool stale s maxBytes :
  len pool = MaxPacketBufferSize → size_ok maxBytes → stream_ok s →
  returns (popNewFrame pool stale s maxBytes) (sends s maxBytes).
Proof.
  intros Hpool Hmax Hok. unfold popNewFrame.
  destruct (_ && bool_decide (nextFrame s = None)) eqn:Hempty.
  - apply andb_true_iff in Hempty as [Hd%len_eqb Hn%bool_decide_eq_true].
    assert (unsent s = []) as Hun by (unfold unsent, buffered; by rewrite Hn, Hd).
    destruct (finishedWriting s && _) eqn:Hf.
    + apply andb_true_iff in Hf as [Hfw Hfs%negb_true_iff]. by apply finOnly_spec.
    + assert (all_sent s).
      { split; [done|]. intros Hfw. rewrite Hfw in Hf. by apply negb_false_iff. }
      simpl. split_and!; try done. by left.
  - zcase; [simpl; split_and!; try done; by right|].
    destruct (flow_window (flowController s)) as [Hw0 _].
    assert (returns (popNewStreamFrame pool stale s maxBytes (SendWindowSize_ (flowController s)))
      (popped s maxBytes (SendWindowSize_ (flowController s)))) as Hp.
    { destruct (nextFrame s) as [f|] eqn:Hn.
      - apply (popNewStreamFrame_buffered _ _ _ _ _ f); [done..|lia].
      - apply popNewStreamFrame_write; try done; [|lia]. intros Hd. by rewrite Hd in Hempty. }
    apply returns_iff in Hp as ([[s' o] more] & -> & f & -> & ?&?&?&?&?&?&?&?).
    cbn [mbind result_bind returns]. apply finishNewFrame_spec; try done. lia.
Qed.

(** [Write] moves its data to [nextFrame]. *)
Lemma bufferData_spec pool stale s :
  len pool = MaxPacketBufferSize → stream_ok s → canBufferStreamFrame s = true → dataForWriting s ≠ [] →
  ∃ f, bufferData pool stale s = Ok (set_dataForWriting (set_nextFrame s (Some f)) []) ∧
    next_ok s f ∧ StreamFrame.Data f = unsent s.
Proof.
  intros Hpool Hok Hcan%Z.leb_le Hd%len_pos. unfold bufferData, unsent, buffered.
  destruct (nextFrame s) as [f|] eqn:Hn.
  - destruct (ok_next _ Hok f Hn) as [? ? ? ? Hcap]. unfold StreamFrame.DataLen in *. rewrite Hcap. zcase.
    eexists. split; [done|]. split; [|done]. split; try done. unfold StreamFrame.DataLen. simpl. len_lia.
  - rewrite reslice_len by lia. cbn [mbind result_bind]. rewrite copy_prefix by lia.
    rewrite take_ge by (unfold len; lia). eexists. split; [done|]. split; [|done].
    split; simpl; try done.
Qed.
End pop_specs.
End SendStream.
