(* ===== verification/SendSystem.v ===== *)
(** * A sending stream and its users (send_stream.go)

    The application, the framer, the sent packet handler and the peer call the methods
    of a stream in any order.  [step] performs one call and keeps the books: the bytes
    that [Write] accepted, the bytes that were sent, the frames that are on the way, those
    that were acknowledged, and the slice of a blocked [Write].  The theorems hold after
    every sequence of calls that respects what the callers guarantee ([allowed]). *)

From S2P Require Import Prelude Varint Protocol Wire ControlFrames DataFrames FlowControl SendStream.

Import SendStream.

Module SendRuns.
Section system.
Context {FC : Type} `{!SendFlowController FC, !SendFlowLaws FC}.

Record sys := mkSys {
  str : sendStream FC;
  writing : option (list byte);
  app : list byte;
  sent : list byte;
  outstanding : list frame;
  resets : list ResetStreamFrame.t;
  acked : list frame;
}.

Implicit Types (y : sys) (s : sendStream FC) (f : frame).

Inductive call :=
| CWrite (now : Z) (p pool : list byte) (stale : bool)
| CResume (now : Z) (pool : list byte) (stale signalled : bool)
| CPop (maxBytes : Z) (pool : list byte) (stale : bool)
| CControl
| CClose
| CCancelWrite (errorCode : Z)
| CStopSending (frame : StopSendingFrame.t)
| CWindow (limit : Z)
| CConnection (fc : FC)
| CDeadline (t : Z)
| CShutdown (err : error)
| CAcked (i : nat) (present : bool)
| CLost (i : nat) (present : bool)
| CResetAcked
| CResetLost.

(** What the callers guarantee: buffers of the pool have their size, the framer asks for
    sizes that fit a packet, limits come from the parser, and the controller changes
    between calls only by what other streams do to the connection's window. *)
Definition allowed y (c : call) : Prop :=
  match c with
  | CWrite _ _ pool _ | CResume _ pool _ _ => len pool = MaxPacketBufferSize
  | CPop maxBytes pool _ => len pool = MaxPacketBufferSize ∧ size_ok maxBytes
  | CWindow limit => limit ≤ MaxByteCount
  | CConnection fc => flow_sent fc = flow_sent (flowController (str y)) ∧
                      flow_limit fc = flow_limit (flowController (str y))
  | _ => True
  end.

Definition with_str y s : sys :=
  mkSys s (writing y) (app y) (sent y) (outstanding y) (resets y) (acked y).

(** The end of a call of [Write], or its continuation. *)
Definition wrote y (p : list byte) (r : sendStream FC * list stream_event * write_result)
  : sys * list stream_event * option frame :=
  let '(s, evs, w) := r in
  let y' := match w with
            | Returned n _ => mkSys s None (app y ++ take (Z.to_nat n) p) (sent y) (outstanding y) (resets y) (acked y)
            | Blocked => mkSys s (Some p) (app y) (sent y) (outstanding y) (resets y) (acked y)
            end in
  (y', evs, None).

(** The packet with the frame may have been sent without the length of the data. *)
Definition set_present f (present : bool) : frame :=
  StreamFrame.mk (StreamFrame.StreamID f) (StreamFrame.Offset f) (StreamFrame.Data f) (StreamFrame.Fin f)
    present (StreamFrame.fromPool f) (StreamFrame.DataCap f).

Definition step y (c : call) : res (sys * list stream_event * option frame) :=
  let s := str y in
  match c with
  | CWrite now p pool stale =>
      match writing y with
      | Some _ => Ok (y, [], None)
      | None => r ← Write pool stale s now p; Ok (wrote y p r)
      end
  | CResume now pool stale signalled =>
      match writing y with
      | None => Ok (y, [], None)
      | Some p => r ← Write_resume pool stale s now (len p) signalled; Ok (wrote y p r)
      end
  | CPop maxBytes pool stale =>
      '(s', o, _, _) ← popStreamFrame pool stale s maxBytes;
      match o with
      | None => Ok (with_str y s', [], None)
      | Some f =>
          Ok (mkSys s' (writing y) (app y)
                (sent y ++ take (Z.to_nat (writeOffset s' - writeOffset s)) (StreamFrame.Data f))
                (outstanding y ++ [f]) (resets y) (acked y), [], Some f)
      end
  | CControl =>
      let '(s, o) := getControlFrame s in
      Ok (mkSys s (writing y) (app y) (sent y) (outstanding y) (resets y ++ option_list o) (acked y), [], None)
  | CClose => let '(s, evs, _) := Close s in Ok (with_str y s, evs, None)
  | CCancelWrite errorCode => let '(s, evs) := CancelWrite s errorCode in Ok (with_str y s, evs, None)
  | CStopSending frame => let '(s, evs) := handleStopSendingFrame s frame in Ok (with_str y s, evs, None)
  | CWindow limit => let '(s, evs) := updateSendWindow s limit in Ok (with_str y s, evs, None)
  | CConnection fc => Ok (with_str y (set_flowController s fc), [], None)
  | CDeadline t => Ok (with_str y (SetWriteDeadline s t), [], None)
  | CShutdown err => Ok (with_str y (closeForShutdown s err), [], None)
  | CAcked i present =>
      match outstanding y !! i with
      | None => Ok (y, [], None)
      | Some f =>
          '(s, evs) ← OnAcked s (set_present f present);
          Ok (mkSys s (writing y) (app y) (sent y) (delete i (outstanding y)) (resets y) (acked y ++ [f]), evs, None)
      end
  | CLost i present =>
      match outstanding y !! i with
      | None => Ok (y, [], None)
      | Some f =>
          '(s, evs) ← OnLost s (set_present f present);
          Ok (mkSys s (writing y) (app y) (sent y) (delete i (outstanding y)) (resets y) (acked y), evs, None)
      end
  | CResetAcked =>
      match resets y with
      | [] => Ok (y, [], None)
      | f :: l => '(s, evs) ← Reset_OnAcked s;
                  Ok (mkSys s (writing y) (app y) (sent y) (outstanding y) l (acked y), evs, None)
      end
  | CResetLost =>
      match resets y with
      | [] => Ok (y, [], None)
      | f :: l => let '(s, evs) := Reset_OnLost s f in
                  Ok (mkSys s (writing y) (app y) (sent y) (outstanding y) l (acked y), evs, None)
      end
  end.

Definition start (streamID : Z) (fc : FC) : sys := mkSys (newSendStream streamID fc) None [] [] [] [] [].

(** A sequence of calls: the state, the notifications and the frames at the end. *)
Fixpoint run y (cs : list call) : res (sys * list stream_event * list frame) :=
  match cs with
  | [] => Ok (y, [], [])
  | c :: cs =>
      '(y, evs, o) ← step y c;
      '(y, evs', fs) ← run y cs;
      Ok (y, evs ++ evs', option_list o ++ fs)
  end.

Fixpoint all_allowed y (cs : list call) : Prop :=
  match cs with
  | [] => True
  | c :: cs => allowed y c ∧ match step y c with Ok (y', _, _) => all_allowed y' cs | _ => True end
  end.
End system.
Arguments sys FC : clear implicits.
Arguments call FC : clear implicits.

(** ** The invariant *)
Section invariant.
Context {FC : Type} `{!SendFlowController FC, !SendFlowLaws FC}.
Implicit Types (y : sys FC) (s : sendStream FC) (f : frame).

(** [f] carries the bytes of [total] at its offset, a FIN is at the end. *)
Record chunk (id : Z) (total : list byte) (fin : bool) f : Prop := {
  chunk_valid : StreamFrame.valid f;
  chunk_pool : StreamFrame.pool_inv f;
  chunk_len : StreamFrame.DataLen f ≤ MaxPacketBufferSize;
  chunk_id : StreamFrame.StreamID f = id;
  chunk_present : StreamFrame.DataLenPresent f = true;
  chunk_data : ∃ a b, total = a ++ StreamFrame.Data f ++ b ∧ len a = StreamFrame.Offset f ∧
    (StreamFrame.Fin f = true → b = [] ∧ fin = true);
}.

Definition covers (i : Z) f : Prop := StreamFrame.Offset f ≤ i < StreamFrame.Offset f + StreamFrame.DataLen f.

(** The frames that were sent: acknowledged, on the way, or lost. *)
Definition frames y : list frame := acked y ++ outstanding y ++ retransmissionQueue (str y).

(** Every byte that was sent is in one of [fs], and so is the FIN. *)
Definition covered (n : Z) (fin : bool) (fs : list frame) : Prop :=
  (∀ i, 0 ≤ i < n → ∃ f, f ∈ fs ∧ covers i f) ∧
  (fin = true → ∃ f, f ∈ fs ∧ StreamFrame.Fin f = true).

(** The bytes that [Write] accepted are those that were sent or wait in [nextFrame]; while
    a call is blocked, the rest of its slice follows. *)
Definition content_ok y : Prop :=
  let s := str y in
  match writing y with
  | Some p => sent y ++ unsent s = app y ++ p ∧ len (dataForWriting s) ≤ len p
  | None => sent y ++ buffered s = app y ∧ (finalError s = None → dataForWriting s = [])
  end.

(** The counter of a stream counts STREAM frames, or RESET_STREAM frames after a
    cancellation. *)
Definition count_ok y : Prop :=
  let s := str y in
  if cancelled s then
    finalError s ≠ None ∧ retransmissionQueue s = [] ∧ numOutstandingFrames s = len (resets y) ∧
    len (resets y) + (if bool_decide (queuedResetStreamFrame s = None) then 0 else 1) ≤ 1
  else resets y = [] ∧ queuedResetStreamFrame s = None ∧ numOutstandingFrames s = len (outstanding y).

(** A [Write] that waits without a signal has nothing to do: its data does not fit
    [nextFrame], or [nextFrame] has to be sent first. *)
Definition wake_ok y : Prop :=
  let s := str y in
  is_Some (writing y) → writeChan s = false →
  finalError s = None ∧ dataForWriting s ≠ [] ∧ (nextFrame s ≠ None ∨ canBufferStreamFrame s = false).

Record inv y : Prop := {
  inv_ok : stream_ok (str y);
  inv_offset : writeOffset (str y) = len (sent y);
  inv_content : content_ok y;
  inv_frames : Forall (chunk (streamID (str y)) (sent y) (finSent (str y))) (frames y);
  inv_cover : cancelled (str y) = false → covered (len (sent y)) (finSent (str y)) (frames y);
  inv_count : count_ok y;
  inv_wake : wake_ok y;
  inv_done : completed (str y) = true → cancelled (str y) = false →
    finSent (str y) = true ∧ outstanding y = [] ∧ retransmissionQueue (str y) = [];
}.

Definition flag s : Z := if completed s then 1 else 0.

(** Changes of a stream that the invariant does not see. *)
Record similar s s' : Prop := {
  sim_id : streamID s' = streamID s;
  sim_offset : writeOffset s' = writeOffset s;
  sim_flow : flow_sent (flowController s') = flow_sent (flowController s) ∧
    flow_limit (flowController s) ≤ flow_limit (flowController s') ≤ MaxByteCount;
  sim_next : nextFrame s' = nextFrame s;
  sim_data : dataForWriting s' = dataForWriting s;
  sim_fin : finSent s' = finSent s;
  sim_finished : finishedWriting s = true → finishedWriting s' = true;
  sim_queue : retransmissionQueue s' = retransmissionQueue s;
  sim_out : numOutstandingFrames s' = numOutstandingFrames s;
  sim_reset : queuedResetStreamFrame s' = queuedResetStreamFrame s;
  sim_cancelled : cancelled s' = cancelled s;
  sim_completed : completed s' = completed s;
  sim_error : finalError s ≠ None → finalError s' ≠ None;
  sim_chan : writeChan s' = false → writeChan s = false ∧ finalError s' = finalError s;
}.

Lemma similar_ok s s' : stream_ok s → similar s s' → stream_ok s'.
Proof.
  intros [? ? ? ? Hn Hf] [Hid Ho [? ?] Hn' Hd Hfin Hfw _ _ _ _ _ _ _].
  split; rewrite ?Hid, ?Ho, ?Hn', ?Hd, ?Hfin; try done; try lia.
  - intros f Hf'. destruct (Hn f Hf'). by split; rewrite ?Hid, ?Ho.
  - intros Hs. destruct (Hf Hs) as (?&?&?). auto.
Qed.

Lemma similar_inv y s' : inv y → similar (str y) s' → inv (with_str y s').
Proof.
  intros [Hok Ho Hc Hf Hcov Hn Hw Hd] Hs. pose proof (similar_ok _ _ Hok Hs).
  destruct Hs as [Eid Eo _ En Ed Efin Efw Eq Eout Er Ecan Ecom Ee Ech].
  unfold content_ok, count_ok, wake_ok, frames, unsent, buffered, canBufferStreamFrame in *.
  split; unfold content_ok, count_ok, wake_ok, frames, unsent, buffered, canBufferStreamFrame; simpl;
    rewrite ?Eid, ?Eo, ?En, ?Ed, ?Efin, ?Eq, ?Eout, ?Er, ?Ecan, ?Ecom; try done.
  - destruct (writing y); [done|]. destruct Hc as [Hc1 Hc2]. split; [done|].
    intros He. apply Hc2. destruct (finalError (str y)); [|done]. by apply Ee in He.
  - destruct (cancelled (str y)); naive_solver.
  - intros Hwr [Hch He]%Ech. rewrite He. auto.
Qed.

(** ** The calls preserve it *)

(** What a call does to a state that satisfies the invariant. *)
Definition kept y (r : sys FC * list stream_event * option frame) : Prop :=
  let '(y', evs, _) := r in inv y' ∧ flag (str y') = flag (str y) + completions evs.

Lemma isNewlyCompleted_spec s s' c :
  isNewlyCompleted s = (s', c) →
  c = false ∧ s' = s ∨
  c = true ∧ completed s = false ∧ s' = set_completed s true ∧ numOutstandingFrames s ≤ 0 ∧
  retransmissionQueue s = [] ∧ queuedResetStreamFrame s = None ∧ (finSent s = true ∨ cancelled s = true).
Proof.
  unfold isNewlyCompleted. destruct (completed s) eqn:Hc; [intros [= <- <-]; by left|].
  destruct (_ || bool_decide (queuedResetStreamFrame s ≠ None)) eqn:Ho; [intros [= <- <-]; by left|].
  apply orb_false_iff in Ho as [[Hn%Z.ltb_ge Hq%len_ltb]%orb_false_iff Hr%bool_decide_eq_false%dec_stable].
  destruct (finSent s) eqn:Hf; [intros [= <- <-]; right; by split_and!; auto|].
  destruct (cancelled s && _) eqn:Hca; intros [= <- <-]; [right|by left].
  apply andb_true_iff in Hca as [? _]. by split_and!; auto.
Qed.

Lemma completions_notify c : completions (notifyCompleted c) = if c then 1 else 0.
Proof. by destruct c. Qed.

Lemma completed_inv y s' c :
  inv y → isNewlyCompleted (str y) = (s', c) →
  inv (with_str y s') ∧ flag s' = flag (str y) + completions (notifyCompleted c).
Proof.
  intros Hi [[-> ->]|(-> & Hc & -> & Hn & Hq & Hr & Hf)]%isNewlyCompleted_spec; rewrite completions_notify.
  { destruct y. split; [done|lia]. }
  unfold flag. simpl. rewrite Hc. split; [|done]. destruct Hi as [Hok Ho Hco Hfr Hcov Hcnt Hw Hd].
  split; try done; [by apply (stream_ok_eq (str y))|]. simpl. intros _ Hca. unfold count_ok in Hcnt.
  rewrite Hca in Hcnt. destruct Hcnt as (_&_&Hcnt). destruct Hf as [Hf|]; [|congruence].
  split_and!; [done| |done]. apply len_0_nil. len_lia.
Qed.

(** A change that the invariant does not see, then the test for completion. *)
Lemma similar_completed y s1 s2 c :
  inv y → similar (str y) s1 → isNewlyCompleted s1 = (s2, c) →
  inv (with_str y s2) ∧ flag s2 = flag (str y) + completions (notifyCompleted c).
Proof.
  intros Hi Hs Hc. destruct (completed_inv (with_str y s1) s2 c) as [H1 H2]; [by apply similar_inv|done|].
  split; [done|]. rewrite H2. simpl. unfold flag. by rewrite (sim_completed _ _ Hs).
Qed.

Lemma kept_similar y s' evs o :
  inv y → similar (str y) s' → completions evs = 0 → kept y (with_str y s', evs, o).
Proof.
  intros Hi Hs He. split; [by apply similar_inv|]. simpl. unfold flag. rewrite (sim_completed _ _ Hs). lia.
Qed.

Ltac sim := split; simpl; try done; try lia; try (by intros; split).

Lemma similar_refl s : stream_ok s → similar s s.
Proof. intros []. sim. Qed.

Lemma similar_trans s1 s2 s3 : similar s1 s2 → similar s2 s3 → similar s1 s3.
Proof.
  intros [? ? [? ?] ? ? ? ? ? ? ? ? ? ? Hc1] [? ? [? ?] ? ? ? ? ? ? ? ? ? ? Hc2].
  split; try congruence; try (by eauto); [split; [congruence|lia]|].
  intros [? ?]%Hc2. destruct Hc1; [done|]. split; congruence.
Qed.

Lemma similar_flagged s : stream_ok s → similar s (set_cancellationFlagged s true).
Proof. intros []. sim. Qed.

Lemma kept_close y s evs err : inv y → Close (str y) = (s, evs, err) → kept y (with_str y s, evs, None).
Proof.
  intros Hi. unfold Close. pose proof (inv_ok _ Hi) as Hok.
  destruct (_ || _); [intros [= <- <- <-]; apply kept_similar; [done|by apply similar_refl|done]|].
  set (s1 := set_finishedWriting (str y) true). change (cancelled s1) with (cancelled (str y)).
  set (s2 := if cancelled (str y) then set_cancellationFlagged s1 true else s1).
  assert (similar (str y) s2) as Hs by (unfold s2, s1; destruct (cancelled (str y)); destruct Hok; sim).
  destruct (isNewlyCompleted s2) as [s3 c] eqn:Hc.
  destruct (similar_completed y s2 s3 c Hi Hs Hc) as [Hi' Hf].
  destruct (cancelled (str y)); intros [= <- <- <-]; [done|].
  assert (similar s3 (ctxCancel s3 None)) as Hs3.
  { destruct (inv_ok _ Hi'). unfold ctxCancel. destruct (ctx s3); sim. }
  split; [by apply (similar_inv (with_str y s3))|]. simpl. unfold flag in *.
  rewrite (sim_completed _ _ Hs3), Hf. rewrite completions_app. simpl. change (completions [_]) with 0. lia.
Qed.

Lemma kept_window y limit s evs :
  inv y → limit ≤ MaxByteCount → updateSendWindow (str y) limit = (s, evs) → kept y (with_str y s, evs, None).
Proof.
  intros Hi Hl. unfold updateSendWindow. pose proof (inv_ok _ Hi) as [].
  pose proof (flow_update (flowController (str y)) limit) as [Hs Hu].
  destruct (UpdateSendWindow_ _ _) as [fc b]. simpl in Hs, Hu.
  assert (similar (str y) (set_flowController (str y) fc)) by sim.
  destruct b; intros [= <- <-]; apply kept_similar; try done. by destruct (_ || _).
Qed.

Lemma kept_shutdown y err : inv y → kept y (with_str y (closeForShutdown (str y) err), [], None).
Proof.
  intros Hi. apply kept_similar; [done| |done]. destruct (inv_ok _ Hi). unfold closeForShutdown.
  simpl. destruct (finalError (str y)) eqn:He; simpl; [sim; by rewrite He|].
  destruct (finishedWriting (str y)); simpl; sim.
Qed.

(** The first cancellation of a stream. *)
Lemma cancel_inv y s err r :
  inv y → cancelled (str y) = false → similar (str y) s →
  inv (with_str y (signalWrite (set_queuedResetStreamFrame
    (set_retransmissionQueue (set_numOutstandingFrames
      (ctxCancel (set_finalError (set_cancelled s true) (Some err)) (Some err)) 0) []) (Some r)))).
Proof.
  intros Hi Hca Hs. pose proof (similar_inv y s Hi Hs) as [Hok Ho Hco Hfr Hcov Hcnt Hw Hd].
  unfold count_ok in Hcnt. simpl in Hcnt. rewrite (sim_cancelled _ _ Hs), Hca in Hcnt.
  destruct Hcnt as (Hr & _ & _). unfold ctxCancel. simpl. destruct (ctx s).
  all: split; simpl; try done.
  all: try (by apply (stream_ok_eq s)).
  all: try (unfold content_ok in *; simpl in *; destruct (writing y); [done|by destruct Hco]).
  all: try (unfold frames in *; simpl in *; rewrite !Forall_app in *; by destruct Hfr as (?&?&?)).
  all: by unfold count_ok; simpl; rewrite Hr.
Qed.

Lemma kept_cancel y code remote s evs :
  inv y → cancelWrite (str y) code remote = (s, evs) → kept y (with_str y s, evs, None).
Proof.
  intros Hi. pose proof (inv_ok _ Hi) as Hok. unfold cancelWrite.
  destruct (closedForShutdown _); [intros [= <- <-]; apply kept_similar; [done|by apply similar_refl|done]|].
  set (s1 := if negb remote then set_cancellationFlagged (str y) true else str y).
  assert (similar (str y) s1) as Hs by (unfold s1; destruct remote; [by apply similar_refl|by apply similar_flagged]).
  clearbody s1. rewrite (sim_cancelled _ _ Hs). destruct (cancelled (str y)) eqn:Hca.
  - destruct remote; cbn [negb]; [intros [= <- <-]; by apply kept_similar|].
    destruct (isNewlyCompleted s1) as [s2 c] eqn:Hc. intros [= <- <-]. by apply (similar_completed y s1).
  - intros [= <- <-]. split; [by apply (cancel_inv y s1)|].
    simpl. unfold ctxCancel. simpl. destruct (ctx s1); simpl; unfold flag; simpl;
      rewrite (sim_completed _ _ Hs); by rewrite Z.add_0_r.
Qed.

Lemma kept_control y s o :
  inv y → getControlFrame (str y) = (s, o) →
  kept y (mkSys s (writing y) (app y) (sent y) (outstanding y) (resets y ++ option_list o) (acked y), [], None).
Proof.
  intros Hi. unfold getControlFrame.
  destruct (queuedResetStreamFrame (str y)) as [r|] eqn:Hr; intros [= <- <-]; simpl.
  2: { rewrite app_nil_r. destruct y. split; [done|]. simpl. by rewrite Z.add_0_r. }
  split; [|unfold flag; simpl; by rewrite Z.add_0_r]. destruct Hi as [Hok Ho Hco Hfr Hcov Hcnt Hw Hd].
  unfold count_ok in Hcnt. split; simpl; try done; [by apply (stream_ok_eq (str y))|].
  unfold count_ok. simpl. rewrite Hr in Hcnt. destruct (cancelled (str y)); [|by destruct Hcnt as (_&?&_)].
  rewrite len_app. simpl in *. destruct Hcnt as (?&?&?&?). split_and!; try done; len_lia.
Qed.

(** The reset was acknowledged or lost: it is no longer on the way. *)
Lemma settle_reset y r l s :
  inv y → resets y = r :: l → cancelled (str y) = true → similar (str y) s →
  ∀ q, inv (mkSys (set_numOutstandingFrames (set_queuedResetStreamFrame s q) (numOutstandingFrames s - 1))
    (writing y) (app y) (sent y) (outstanding y) l (acked y)).
Proof.
  intros Hi Hr Hca Hs q. pose proof (similar_inv y s Hi Hs) as [Hok Ho Hco Hfr Hcov Hcnt Hw Hd].
  unfold count_ok in Hcnt. simpl in Hcnt. rewrite (sim_cancelled _ _ Hs), Hca, Hr in Hcnt.
  split; simpl; try done; [by apply (stream_ok_eq s)|]. unfold count_ok. simpl.
  rewrite (sim_cancelled _ _ Hs), Hca. rewrite len_cons in Hcnt. destruct Hcnt as (?&?&?&?).
  split_and!; try done; [lia|]. pose proof (len_nonneg l). repeat case_bool_decide; lia.
Qed.

Lemma reset_cancelled y r l : inv y → resets y = r :: l → cancelled (str y) = true.
Proof.
  intros Hi Hr. pose proof (inv_count _ Hi) as Hc. unfold count_ok in Hc. rewrite Hr in Hc.
  destruct (cancelled (str y)); [done|]. by destruct Hc.
Qed.

Lemma kept_reset_acked y r l :
  inv y → resets y = r :: l →
  returns ('(s, evs) ← Reset_OnAcked (str y);
           Ok (mkSys s (writing y) (app y) (sent y) (outstanding y) l (acked y), evs, None)) (kept y).
Proof.
  intros Hi Hr. pose proof (reset_cancelled y r l Hi Hr) as Hca.
  pose proof (settle_reset y r l (str y) Hi Hr Hca (similar_refl _ (inv_ok _ Hi)) (queuedResetStreamFrame (str y))) as Hi'.
  pose proof (inv_count _ Hi) as Hc. unfold count_ok in Hc. rewrite Hca, Hr, len_cons in Hc.
  unfold Reset_OnAcked, settleFrame. cbn [numOutstandingFrames set_numOutstandingFrames].
  destruct Hc as (_&_&Hn&_). zcase; [len_lia|]. cbn [mbind result_bind].
  destruct (isNewlyCompleted _) as [s c] eqn:Hc. by apply (completed_inv _ s c Hi').
Qed.

Lemma kept_reset_lost y r l s evs :
  inv y → resets y = r :: l → Reset_OnLost (str y) r = (s, evs) →
  kept y (mkSys s (writing y) (app y) (sent y) (outstanding y) l (acked y), evs, None).
Proof.
  intros Hi Hr [= <- <-]. pose proof (reset_cancelled y r l Hi Hr) as Hca. split.
  - apply (settle_reset y r l (str y) Hi Hr Hca (similar_refl _ (inv_ok _ Hi))).
  - unfold flag. simpl. by rewrite Z.add_0_r.
Qed.

(** The lists of frames change. *)
Lemma frames_inv y q n out' acked' :
  inv y → let s' := set_numOutstandingFrames (set_retransmissionQueue (str y) q) n in
  Forall (chunk (streamID (str y)) (sent y) (finSent (str y))) (acked' ++ out' ++ q) →
  (if cancelled (str y) then n = numOutstandingFrames (str y) ∧ q = []
   else covered (len (sent y)) (finSent (str y)) (acked' ++ out' ++ q) ∧ n = len out' ∧ completed (str y) = false) →
  inv (mkSys s' (writing y) (app y) (sent y) out' (resets y) acked').
Proof.
  intros [Hok Ho Hco Hfr Hcov Hcnt Hw Hd] s' Hfr' Hmove.
  split; simpl; try done; [by apply (stream_ok_eq (str y))|..].
  - intros Hca. rewrite Hca in Hmove. apply Hmove.
  - unfold count_ok in *. simpl. destruct (cancelled (str y)).
    + destruct Hmove as [-> ->]. by destruct Hcnt as (?&?&?&?).
    + destruct Hmove as (_&->&_). by destruct Hcnt as (?&?&_).
  - intros Hc Hca. rewrite Hca in Hmove. destruct Hmove as (_&_&?). congruence.
Qed.

(** Frames move from one of the lists to another. *)
Lemma move_inv y q n out' acked' :
  inv y → let s' := set_numOutstandingFrames (set_retransmissionQueue (str y) q) n in
  acked' ++ out' ++ q ⊆ frames y →
  (if cancelled (str y) then n = numOutstandingFrames (str y) ∧ q = []
   else frames y ⊆ acked' ++ out' ++ q ∧ n = len out' ∧ completed (str y) = false) →
  inv (mkSys s' (writing y) (app y) (sent y) out' (resets y) acked').
Proof.
  intros Hi s' Hsub Hmove. apply frames_inv; [done|..].
  - pose proof (inv_frames _ Hi) as Hfr. rewrite Forall_forall in *. intros f Hf. apply Hfr, Hsub, Hf.
  - destruct (cancelled (str y)) eqn:Hca; [done|]. destruct Hmove as (Hmove & ? & ?). split_and!; try done.
    destruct (inv_cover _ Hi Hca) as [H1 H2]. split.
    + intros i Hin. destruct (H1 i Hin) as (f & Hf & ?). exists f. split; [by apply Hmove|done].
    + intros Hfin. destruct (H2 Hfin) as (f & Hf & ?). exists f. split; [by apply Hmove|done].
Qed.

Lemma delete_sub i (l : list frame) : delete i l ⊆ l.
Proof. intros f. apply sublist_subseteq, sublist_delete. Qed.

(** An outstanding frame of a stream that was not cancelled: it is counted, and the
    stream is not completed. *)
Lemma outstanding_live y i f :
  inv y → outstanding y !! i = Some f → cancelled (str y) = false →
  numOutstandingFrames (str y) = 1 + len (delete i (outstanding y)) ∧ completed (str y) = false ∧
  outstanding y ⊆ f :: delete i (outstanding y).
Proof.
  intros Hi Hf Hca. pose proof (inv_count _ Hi) as Hc. unfold count_ok in Hc. rewrite Hca in Hc.
  destruct Hc as (_&_&->). pose proof (delete_Permutation _ _ _ Hf) as Hp. split_and!.
  - unfold len. rewrite (Permutation_length Hp) at 1. simpl. lia.
  - destruct (completed (str y)) eqn:Hc; [|done]. destruct (inv_done _ Hi Hc Hca) as (_&Ho&_). by rewrite Ho in Hf.
  - by rewrite Hp at 1.
Qed.

Lemma stream_eta s :
  set_numOutstandingFrames (set_retransmissionQueue s (retransmissionQueue s)) (numOutstandingFrames s) = s.
Proof. by destruct s. Qed.

(** A frame leaves a stream that was cancelled. *)
Lemma drop_frame y i f acked' :
  inv y → outstanding y !! i = Some f → cancelled (str y) = true → acked' ⊆ acked y ++ [f] →
  inv (mkSys (str y) (writing y) (app y) (sent y) (delete i (outstanding y)) (resets y) acked').
Proof.
  intros Hi Hf Hca Ha. pose proof (inv_count _ Hi) as Hc. unfold count_ok in Hc. rewrite Hca in Hc.
  destruct Hc as (_&Hq&_). rewrite <-(stream_eta (str y)) at 1. apply move_inv; [done|..].
  - unfold frames. apply list_elem_of_lookup_2 in Hf. pose proof (delete_sub i (outstanding y)) as Hd.
    intros g. rewrite !elem_of_app. intros [Hg%Ha|[Hg%Hd|Hg]]; [|tauto..].
    apply elem_of_app in Hg as [?| ->%list_elem_of_singleton]; tauto.
  - by rewrite Hca.
Qed.

Lemma put_back f b : StreamFrame.pool_inv f → ∃ r, StreamFrame.putStreamFrame (set_present f b) = Ok r.
Proof.
  intros Hp. unfold StreamFrame.putStreamFrame, StreamFrame.pool_inv, set_present in *. simpl in *.
  destruct (StreamFrame.fromPool f); [|eauto]. rewrite Hp by done. eauto.
Qed.

Lemma outstanding_chunk y i f :
  inv y → outstanding y !! i = Some f → chunk (streamID (str y)) (sent y) (finSent (str y)) f.
Proof.
  intros Hi Hf%list_elem_of_lookup_2. pose proof (inv_frames _ Hi) as Hfr. rewrite Forall_forall in Hfr.
  apply Hfr. unfold frames. rewrite !elem_of_app. tauto.
Qed.

Lemma kept_acked y i f present :
  inv y → outstanding y !! i = Some f →
  returns ('(s, evs) ← OnAcked (str y) (set_present f present);
           Ok (mkSys s (writing y) (app y) (sent y) (delete i (outstanding y)) (resets y) (acked y ++ [f]), evs, None))
    (kept y).
Proof.
  intros Hi Hf. destruct (outstanding_chunk y i f Hi Hf) as [_ Hp _ _ _ _].
  destruct (put_back f present Hp) as [r Hr]. unfold OnAcked. rewrite Hr. cbn [mbind result_bind].
  destruct (cancelled (str y)) eqn:Hca; cbn [mbind result_bind].
  - split; [by apply (drop_frame y i f)|]. by rewrite Z.add_0_r.
  - destruct (outstanding_live y i f Hi Hf Hca) as (Hn & Hc & Hsub).
    unfold settleFrame. cbn [numOutstandingFrames set_numOutstandingFrames]. zcase; [len_lia|].
    cbn [mbind result_bind]. destruct (isNewlyCompleted _) as [s c] eqn:Hnew. cbn [mbind result_bind].
    assert (inv (mkSys (set_numOutstandingFrames (set_retransmissionQueue (str y) (retransmissionQueue (str y)))
      (numOutstandingFrames (str y) - 1)) (writing y) (app y) (sent y) (delete i (outstanding y)) (resets y)
      (acked y ++ [f]))) as Hi'.
    { apply move_inv; [done|..].
      - unfold frames. apply list_elem_of_lookup_2 in Hf. pose proof (delete_sub i (outstanding y)) as Hd.
        set_solver.
      - rewrite Hca. unfold frames. split_and!; [set_solver|lia|done]. }
    by apply (completed_inv _ s c Hi').
Qed.

Lemma set_present_eq f : StreamFrame.DataLenPresent f = true → set_present f true = f.
Proof. intros H. destruct f. simpl in H. by subst. Qed.

Lemma kept_lost y i f present :
  inv y → outstanding y !! i = Some f →
  returns ('(s, evs) ← OnLost (str y) (set_present f present);
           Ok (mkSys s (writing y) (app y) (sent y) (delete i (outstanding y)) (resets y) (acked y), evs, None))
    (kept y).
Proof.
  intros Hi Hf. destruct (outstanding_chunk y i f Hi Hf) as [_ _ _ _ Hp _].
  unfold OnLost. destruct (cancelled (str y)) eqn:Hca; cbn [mbind result_bind].
  - split; [|by rewrite Z.add_0_r]. apply (drop_frame y i f); [done..|]. set_solver.
  - destruct (outstanding_live y i f Hi Hf Hca) as (Hn & Hc & Hsub). change (StreamFrame.mk _ _ _ _ _ _ _) with (set_present f true).
    rewrite set_present_eq by done.
    unfold settleFrame. cbn [numOutstandingFrames set_numOutstandingFrames set_retransmissionQueue]. zcase; [len_lia|].
    cbn [mbind result_bind]. split; [|unfold flag; simpl; by rewrite Z.add_0_r].
    apply (move_inv y (retransmissionQueue (str y) ++ [f]) _ (delete i (outstanding y))); [done|..].
    + unfold frames. apply list_elem_of_lookup_2 in Hf. pose proof (delete_sub i (outstanding y)) as Hd.
      set_solver.
    + rewrite Hca. unfold frames. split_and!; [set_solver|lia|done].
Qed.

(** *** Write *)
Lemma take_rest {A} (a b d p : list A) :
  a ++ d = b ++ p → len d ≤ len p → a = b ++ take (Z.to_nat (len p - len d)) p.
Proof.
  unfold len. intros He Hl. apply (f_equal (take (length a))) in He as Ha.
  rewrite take_app_length in Ha. rewrite Ha. apply (f_equal length) in He. rewrite !length_app in He.
  rewrite take_app_ge by lia. do 2 f_equal. lia.
Qed.

(** [inv] of a state in which [Write] is about to run its loop, except for the signal. *)
Definition loop_inv y s (p : list byte) : Prop :=
  inv (mkSys (signalWrite s) (Some p) (app y) (sent y) (outstanding y) (resets y) (acked y)).

Lemma data_eta s : set_dataForWriting s (dataForWriting s) = s.
Proof. by destruct s. Qed.

(** The call returns: what it did not use of its slice is dropped, or left in a stream
    that failed. *)
Lemma loop_returns y s p d :
  loop_inv y s p → d = [] ∨ d = dataForWriting s ∧ finalError s ≠ None →
  inv (mkSys (set_dataForWriting s d) None
    (app y ++ take (Z.to_nat (len p - len (dataForWriting s))) p) (sent y) (outstanding y) (resets y) (acked y)).
Proof.
  intros [Hok Ho [Hco Hlen] Hfr Hcov Hcnt Hw Hdone] Hd. simpl in *. split; simpl; try done.
  - destruct Hok as [? ? ? ? Hn Hf]. split; try done; simpl in *.
    + intros f Hf'. destruct (Hn f Hf'). by split.
    + intros Hfin. destruct (Hf Hfin) as (?&?&Hdata). split_and!; try done. destruct Hd as [->|[-> _]]; done.
  - unfold content_ok, unsent, buffered in *. simpl in *. rewrite app_assoc in Hco. split.
    + by apply take_rest.
    + destruct Hd as [->|[_ ?]]; done.
  - intros [? [=]].
Qed.

(** The data fits into [nextFrame]. *)
Lemma buffer_inv y s p pool stale :
  len pool = MaxPacketBufferSize → loop_inv y s p → canBufferStreamFrame s = true → dataForWriting s ≠ [] →
  returns (bufferData pool stale s) (λ s', completed s' = completed s ∧
    inv (mkSys s' None (app y ++ p) (sent y) (outstanding y) (resets y) (acked y))).
Proof.
  intros Hpool [Hok Ho [Hco Hlen] Hfr Hcov Hcnt Hw Hdone] Hcan Hd. simpl in *.
  assert (finSent s = false) as Hnofin.
  { apply not_true_iff_false. intros Hf. by destruct (ok_fin _ Hok Hf) as (_&_&?). }
  destruct (bufferData_spec pool stale s) as (f & -> & Hnext & Hf); [done|by apply (stream_ok_eq (signalWrite s))|done..|].
  split; [done|]. split; simpl; try done.
  - destruct Hok. split; try done; simpl in *; [|congruence].
    intros g [= <-]. destruct Hnext. by split.
  - unfold content_ok, buffered. simpl. by rewrite Hf.
  - intros [? [=]].
Qed.

Lemma finalError_kept y s p n err :
  loop_inv y s p → finalError s = Some err → n = len p - len (dataForWriting s) →
  let '(s', evs, w) := returnFinalError s n err in
  let '(y', _, _) := wrote y p (s', evs, w) in
  inv y' ∧ flag (str y') = flag s + completions evs.
Proof.
  intros Hl He ->. pose proof (loop_returns y s p (dataForWriting s) Hl) as Hi.
  rewrite data_eta in Hi. specialize (Hi ltac:(right; by rewrite He)).
  unfold returnFinalError. set (s1 := if cancelled s then set_cancellationFlagged s true else s).
  assert (similar s s1) as Hs.
  { pose proof (inv_ok _ Hi) as Hok. unfold s1. destruct (cancelled s); [by apply similar_flagged|by apply similar_refl]. }
  destruct (isNewlyCompleted s1) as [s2 c] eqn:Hc. simpl.
  by apply (similar_completed (mkSys s None _ _ _ _ _) s1 s2 c Hi Hs).
Qed.

Lemma write_loop_kept y s p pool stale now notified :
  len pool = MaxPacketBufferSize → loop_inv y s p →
  returns (write_loop pool stale s now (len p) notified) (λ r,
    let '(y', evs, _) := wrote y p r in inv y' ∧ flag (str y') = flag s + completions evs).
Proof.
  intros Hpool Hl. unfold write_loop. destruct (canBufferStreamFrame s && _) eqn:Hcan.
  { apply andb_true_iff in Hcan as [Hcan Hd%Z.ltb_lt].
    pose proof (buffer_inv y s p pool stale Hpool Hl Hcan) as Hb.
    apply returns_iff in Hb as (s' & -> & Hc & Hi); [|by intros Hn; rewrite Hn in Hd].
    simpl. rewrite take_ge by (unfold len; lia). split; [done|]. unfold flag. rewrite Hc. destruct notified; by rewrite Z.add_0_r. }
  destruct (negb _ && _).
  { simpl. split; [|by rewrite Z.add_0_r]. apply loop_returns; [done|by left]. }
  destruct (_ || _) eqn:Hend.
  - zcase.
    + simpl. split; [|by rewrite Z.add_0_r]. assert (dataForWriting s = []) as Hd by (apply len_0_nil; lia).
      pose proof (loop_returns y s p [] Hl (or_introl eq_refl)) as Hi. rewrite <-Hd, data_eta, Hd in Hi at 1.
      by rewrite Hd.
    + destruct (finalError s) as [err|] eqn:He.
      * pose proof (finalError_kept y s p _ err Hl He eq_refl) as Hk. by destruct (returnFinalError _ _ _) as [[??]?].
      * exfalso. apply orb_true_iff in Hend as [Hd%len_eqb|]; [|done]. rewrite Hd in *. unfold len in *. simpl in *. lia.
  - apply orb_false_iff in Hend as [Hd He%bool_decide_eq_false%dec_stable]. simpl.
    split; [|by destruct notified; rewrite Z.add_0_r]. destruct Hl as [Hok Ho Hco Hfr Hcov Hcnt Hw Hdone].
    split; simpl; try done; [by apply (stream_ok_eq (signalWrite s))|]. intros _ _. simpl. split; [done|].
    assert (dataForWriting s ≠ []) by (by intros Hn; rewrite Hn in Hd). split; [done|]. right.
    destruct (canBufferStreamFrame s); [|done]. exfalso. apply len_ltb in Hcan. done.
Qed.

Lemma kept_wrote y s p (m : res (sendStream FC * list stream_event * write_result)) :
  flag s = flag (str y) →
  returns m (λ r, let '(y', evs, _) := wrote y p r in inv y' ∧ flag (str y') = flag s + completions evs) →
  returns (r ← m; Ok (wrote y p r)) (kept y).
Proof.
  intros Hf Hm. apply returns_bind. eapply returns_mono; [done|]. intros r. simpl. unfold kept.
  destruct (wrote y p r) as [[??]?]. by rewrite Hf.
Qed.

Lemma kept_resume y p pool stale now signalled :
  len pool = MaxPacketBufferSize → inv y → writing y = Some p →
  returns (r ← Write_resume pool stale (str y) now (len p) signalled; Ok (wrote y p r)) (kept y).
Proof.
  intros Hpool Hi Hw. apply (kept_wrote y (if signalled then set_writeChan (str y) false else str y)).
  { by destruct signalled. }
  apply write_loop_kept; [done|]. unfold loop_inv. rewrite <-Hw. apply similar_inv; [done|].
  destruct (inv_ok _ Hi). destruct signalled; sim.
Qed.

(** A call that returns an error at once. *)
Lemma return_now y err p :
  inv y → writing y = None →
  returns (E:=error) (Ok (str y, [], Returned 0 err)) (λ r,
    let '(y', evs, _) := wrote y p r in inv y' ∧ flag (str y') = flag (str y) + completions evs).
Proof.
  intros Hi Hw. simpl. rewrite app_nil_r. split; [|by rewrite Z.add_0_r]. destruct y. simpl in *. by subst.
Qed.

Lemma kept_write y p pool stale now :
  len pool = MaxPacketBufferSize → inv y → writing y = None →
  returns (r ← Write pool stale (str y) now p; Ok (wrote y p r)) (kept y).
Proof.
  intros Hpool Hi Hw. apply (kept_wrote y (str y)); [done|]. unfold Write.
  pose proof (inv_content _ Hi) as Hco. unfold content_ok in Hco. rewrite Hw in Hco.
  destruct (finalError (str y)) as [err|] eqn:He.
  { unfold returnFinalError.
    set (s1 := if cancelled (str y) then set_cancellationFlagged (str y) true else str y).
    assert (similar (str y) s1) as Hs.
    { pose proof (inv_ok _ Hi). unfold s1. destruct (cancelled _); [by apply similar_flagged|by apply similar_refl]. }
    destruct (isNewlyCompleted s1) as [s2 c] eqn:Hc. simpl. rewrite app_nil_r, <-Hw.
    by apply (similar_completed y s1 s2 c Hi Hs). }
  destruct (finishedWriting (str y)) eqn:Hfw; [by apply return_now|].
  destruct (negb _ && _); [by apply return_now|]. destruct (len p =? 0); [by apply return_now|].
  apply (write_loop_kept y (set_dataForWriting (str y) p)); [done|].
  destruct Hi as [Hok Ho _ Hfr Hcov Hcnt _ Hdone]. destruct Hco as [Hco _]. split; simpl; try done.
  - destruct Hok as [? ? ? ? Hn Hf]. split; simpl; try done.
    + intros f Hf'. destruct (Hn f Hf'). by split.
    + intros [? _]%Hf. congruence.
  - unfold content_ok, unsent, buffered in *. simpl. split; [|done]. by rewrite app_assoc, Hco.
Qed.

(** *** Frames *)
Lemma chunk_split id total fin pool f n :
  chunk id total fin f → len pool = MaxPacketBufferSize → 0 < n < StreamFrame.DataLen f →
  let '(g, f') := StreamFrame.split_at pool f n in
  chunk id total fin g ∧ chunk id total fin f' ∧ (∀ i, covers i f → covers i g ∨ covers i f') ∧
  StreamFrame.Fin f' = StreamFrame.Fin f ∧ StreamFrame.header g = StreamFrame.header f ∧ StreamFrame.DataLen g = n.
Proof.
  intros [[Hfits Hne] Hp Hl Hid Hpr (a & b & -> & Ha & Hfin)] Hpool Hn.
  pose proof (StreamFrame.split_at_spec pool f n Hfits Hpool Hp Hn) as Hs.
  assert (StreamFrame.DataLenPresent (StreamFrame.split_at pool f n).2 = StreamFrame.DataLenPresent f) as Hpr' by done.
  destruct (StreamFrame.split_at pool f n) as [g f']. simpl in Hpr'.
  destruct Hs as (?&?&?&?&?&?&Hd&Hg&Hh&Hpg&Hog&Hof&Hfg&Hff).
  assert (StreamFrame.DataLen f = StreamFrame.DataLen g + StreamFrame.DataLen f') as Hlen.
  { unfold StreamFrame.DataLen. rewrite Hd. len_lia. }
  split_and!; try done; [split; try congruence; try lia; try done..|].
  - exists a, (StreamFrame.Data f' ++ b). rewrite Hd, <-app_assoc. split_and!; [done|congruence|congruence].
  - exists (a ++ StreamFrame.Data g), b. rewrite Hd, <-!app_assoc, len_app.
    split_and!; [done| |by rewrite Hff]. unfold StreamFrame.DataLen in Hg. lia.
  - intros i. unfold covers. lia.
Qed.

Lemma live y : inv y → finalError (str y) = None →
  cancelled (str y) = false ∧ numOutstandingFrames (str y) = len (outstanding y).
Proof.
  intros Hi He. pose proof (inv_count _ Hi) as Hc. unfold count_ok in Hc.
  destruct (cancelled (str y)); [by destruct Hc|]. by destruct Hc as (_&_&?).
Qed.

(** The first frame of the queue fits, or the part that is split off does. *)
Lemma split_fits pool f maxBytes id total fin :
  len pool = MaxPacketBufferSize → size_ok maxBytes → chunk id total fin f →
  len (StreamFrame.bytes f) ≤ maxBytes ∧ StreamFrame.MaybeSplitOffFrame pool f maxBytes = Ok (None, false, f) ∨
  ∃ n, let '(g, f') := StreamFrame.split_at pool f n in 0 < n < StreamFrame.DataLen f ∧
    StreamFrame.MaybeSplitOffFrame pool f maxBytes = Ok (Some g, true, f') ∧ len (StreamFrame.bytes g) ≤ maxBytes.
Proof.
  intros Hpool Hmax Hf. destruct (Hf) as [[Hfits _] _ Hlen _ Hpr _].
  unfold size_ok, MinStreamFrameSize, MaxPacketBufferSize in *.
  destruct (StreamFrame.split_eq pool f maxBytes Hfits ltac:(lia) ltac:(lia)) as (n & -> & Hn0 & Hfit & Hopt).
  rewrite StreamFrame.len_bytes. zcase; [by left|right]. exists n.
  destruct (StreamFrame.fits_varints f Hfits) as (Hid & Hoff & _).
  assert (1 ≤ n).
  { apply Hopt; [lia|]. pose proof (header_len f Hid Hoff). rewrite Hpr. change (lenField true 1) with 1. lia. }
  assert (0 < n < StreamFrame.DataLen f) as Hn by (split; [lia|apply (StreamFrame.split_smaller f n maxBytes); [done|lia..]]).
  pose proof (chunk_split id total fin pool f n Hf Hpool Hn) as Hs.
  assert (StreamFrame.DataLenPresent (StreamFrame.split_at pool f n).1 = StreamFrame.DataLenPresent f) as Hp by done.
  rewrite (proj2 (Z.eqb_neq n 0)) by lia.
  destruct (StreamFrame.split_at pool f n) as [g f']. simpl in *. destruct Hs as (_&_&_&_&Hh&Hg).
  split; [done|]. split; [done|]. rewrite StreamFrame.len_bytes, Hh, Hg, Hp. apply Hfit. lia.
Qed.

Lemma covered_replace n fin fs fs' :
  covered n fin fs → (∀ f, f ∈ fs → ∀ i, covers i f → ∃ g, g ∈ fs' ∧ covers i g) →
  (∀ f, f ∈ fs → StreamFrame.Fin f = true → ∃ g, g ∈ fs' ∧ StreamFrame.Fin g = true) → covered n fin fs'.
Proof.
  intros [H1 H2] Hc Hf. split.
  - intros i Hi. destruct (H1 i Hi) as (f & Hin & Hcov). by apply (Hc f).
  - intros Hfin. destruct (H2 Hfin) as (f & Hin & Hff). by apply (Hf f).
Qed.

Lemma split_elem {A} (h f : A) (l k q : list A) : h ∈ l ++ k ++ f :: q → h = f ∨ h ∈ l ++ k ++ q.
Proof. set_solver. Qed.

(** Retransmission of the first frame of the queue, or of a part of it. *)
Lemma retransmission_spec y pool maxBytes f q :
  len pool = MaxPacketBufferSize → size_ok maxBytes → inv y → finalError (str y) = None →
  retransmissionQueue (str y) = f :: q →
  returns (maybeGetRetransmission pool (str y) maxBytes) (λ '(s', o, more), ∃ g q',
    o = Some g ∧ s' = set_retransmissionQueue (str y) q' ∧ len (StreamFrame.bytes g) ≤ maxBytes ∧
    inv (mkSys (set_numOutstandingFrames s' (numOutstandingFrames s' + 1)) (writing y) (app y) (sent y)
      (outstanding y ++ [g]) (resets y) (acked y))).
Proof.
  intros Hpool Hmax Hi He Hq. destruct (live y Hi He) as [Hca Hn].
  pose proof (inv_frames _ Hi) as Hfr. unfold frames in Hfr. rewrite Hq in Hfr.
  rewrite !Forall_app, Forall_cons in Hfr. destruct Hfr as (Hacked & Hout & Hf & Hrest).
  assert (completed (str y) = false) as Hc.
  { destruct (completed (str y)) eqn:Hc; [|done]. destruct (inv_done _ Hi Hc Hca) as (_&_&?). congruence. }
  unfold maybeGetRetransmission. rewrite Hq.
  destruct (split_fits pool f maxBytes _ _ _ Hpool Hmax Hf) as [[Hfit ->]|(n & Hs)].
  - cbn [mbind result_bind]. exists f, q. split_and!; try done.
    apply move_inv; [done|..]; unfold frames; rewrite Hq, ?Hca; [set_solver|].
    split_and!; [set_solver|rewrite len_app; simpl; rewrite Hn; done|done].
  - pose proof (chunk_split _ _ _ pool f n Hf Hpool) as Hsplit.
    destruct (StreamFrame.split_at pool f n) as [g f']. destruct Hs as (Hlen & -> & Hsize).
    destruct (Hsplit Hlen) as (Hg & Hf' & Hcov & Hfin & _). cbn [mbind result_bind].
    exists g, (f' :: q). split_and!; try done. apply frames_inv; [done|..].
    + repeat first [apply Forall_app; split | apply Forall_cons; split]; done.
    + rewrite Hca. split_and!; [|rewrite len_app; simpl; rewrite Hn; done|done].
      apply (covered_replace _ _ (frames y)); [by apply inv_cover|..]; unfold frames; rewrite Hq.
      * intros h Hh i Hi'. apply split_elem in Hh as [->|Hh].
        -- destruct (Hcov i Hi'); [exists g|exists f']; set_solver.
        -- exists h. set_solver.
      * intros h Hh Hi'. apply split_elem in Hh as [->|Hh]; [exists f'|exists h]; [rewrite Hfin|]; set_solver.
Qed.

Lemma chunk_extend id total fin fin' d f :
  chunk id total fin f → (fin = true → d = [] ∧ fin' = true) → chunk id (total ++ d) fin' f.
Proof.
  intros [? ? ? ? ? (a & b & -> & Ha & Hfin)] Hd. split; try done. exists a, (b ++ d).
  rewrite <-!app_assoc. split_and!; try done. intros [-> Hf]%Hfin. by destruct (Hd Hf) as [-> ->].
Qed.

(** *** A frame with new data *)

Lemma valid_len f maxBytes :
  size_ok maxBytes → StreamFrame.valid f → len (StreamFrame.bytes f) ≤ maxBytes →
  StreamFrame.DataLenPresent f = true → StreamFrame.DataLen f ≤ MaxPacketBufferSize.
Proof.
  intros Hmax [Hfits _] Hlen Hp. apply StreamFrame.fits_varints in Hfits as (?&?&_).
  rewrite StreamFrame.len_bytes, Hp in Hlen. unfold lenField in Hlen.
  pose proof (header_len f ltac:(done) ltac:(done)). pose proof (vlen_pos (StreamFrame.DataLen f)).
  unfold size_ok in *. lia.
Qed.

Lemma takes_content y s' f :
  content_ok y → takes (str y) f s' → finalError (str y) = None → finalError s' = None →
  content_ok (mkSys s' (writing y) (app y) (sent y ++ StreamFrame.Data f) (outstanding y) (resets y) (acked y)).
Proof.
  intros Hco Ht He He'. unfold content_ok in *. simpl. destruct (takes_rest _ _ _ Ht) as [d Hd].
  pose proof (takes_data _ _ _ Ht) as Hun. destruct (writing y) as [p|].
  - rewrite <-app_assoc, <-Hun. split; [apply Hco|]. rewrite Hd in Hco. destruct Hco as [_ Hco]. len_lia.
  - destruct Hco as [Hco Hnone]. specialize (Hnone He). rewrite Hnone in Hd.
    symmetry in Hd. apply app_nil in Hd as [_ Hd]. unfold unsent in Hun. rewrite Hnone, Hd, !app_nil_r in Hun.
    split; [by rewrite <-app_assoc, <-Hun|done].
Qed.

Lemma takes_wake y s' f :
  wake_ok y → stream_ok s' → takes (str y) f s' → finalError s' = finalError (str y) →
  wake_ok (mkSys s' (writing y) (app y) (sent y ++ StreamFrame.Data f) (outstanding y) (resets y) (acked y)).
Proof.
  intros Hw Hok Ht He Hwr Hch. simpl in *. rewrite He.
  assert (writeChan (str y) = false) as Hch0.
  { destruct (writeChan (str y)) eqn:E; [|done]. apply (takes_chan _ _ _ Ht) in E. congruence. }
  destruct (Hw Hwr Hch0) as (?&Hd&_). destruct (takes_signal _ _ _ Ht Hd Hch) as [[Hn Hd']|Hcan].
  - rewrite Hd'. split_and!; try done. by left.
  - split_and!; [done| |by right]. intros Hnil. apply Z.leb_gt in Hcan. rewrite Hnil in Hcan. change (len []) with 0 in Hcan.
    destruct (nextFrame s') as [g|] eqn:Hg; [|done]. pose proof (next_len _ _ (ok_next _ Hok g Hg)). lia.
Qed.

Lemma covered_new n fin fs k f fin' l1 l2 :
  covered n fin (l1 ++ fs ++ l2) → StreamFrame.Offset f = n → k = n + StreamFrame.DataLen f →
  fin' = fin || StreamFrame.Fin f → covered k fin' (l1 ++ (fs ++ [f]) ++ l2).
Proof.
  intros [H1 H2] Ho -> ->. split.
  - intros i Hi. destruct (decide (i < n)) as [Hn|].
    + destruct (H1 i ltac:(lia)) as (g & Hg & ?). exists g. set_solver.
    + exists f. split; [set_solver|]. unfold covers. lia.
  - destruct fin; simpl.
    + intros _. destruct (H2 eq_refl) as (g & Hg & ?). exists g. set_solver.
    + intros Hf. exists f. set_solver.
Qed.

Lemma new_frame_inv y s' f maxBytes blocked more :
  inv y → finalError (str y) = None → size_ok maxBytes → sends (str y) maxBytes (s', Some f, blocked, more) →
  inv (mkSys (set_numOutstandingFrames s' (numOutstandingFrames s' + 1)) (writing y) (app y)
    (sent y ++ StreamFrame.Data f) (outstanding y ++ [f]) (resets y) (acked y)).
Proof.
  intros Hi He Hmax (Hsame & Hok' & _ & Ht & Hv & Hsize & Ho' & _ & Hfin' & Hlast).
  destruct (live y Hi He) as [Hca Hn]. destruct Hi as [Hok Ho Hco Hfr Hcov Hcnt Hw Hdone].
  assert (finSent (str y) = false) as Hnotsent.
  { destruct (finSent (str y)) eqn:Hf; [|done]. destruct Hv as [_ [Hv|Hv]]; [|by destruct (Hlast Hv)].
    pose proof (fin_unsent _ Hok Hf) as Hun. rewrite (takes_data _ _ _ Ht) in Hun.
    apply app_nil in Hun as [Hun _]. unfold StreamFrame.DataLen in Hv. by rewrite Hun in Hv. }
  pose proof (takes_offset _ _ _ Ht) as Hoff. pose proof (same_finalError _ _ Hsame) as He'.
  assert (chunk (streamID (str y)) (sent y ++ StreamFrame.Data f) (finSent s') f) as Hf.
  { destruct (Ht). split; try done; [by apply (valid_len f maxBytes)|].
    exists (sent y), []. rewrite app_nil_r. split_and!; try done; [congruence|]. intros Hf.
    split; [done|]. rewrite Hfin', Hf. apply orb_true_r. }
  split; simpl.
  - by apply (stream_ok_eq s').
  - rewrite len_app, <-Ho. done.
  - apply (takes_content y s' f Hco Ht He). congruence.
  - unfold frames in *. simpl. rewrite (same_queue _ _ Hsame), (same_id _ _ Hsame).
    rewrite !Forall_app in *. destruct Hfr as (?&?&?).
    repeat split; try (by constructor); eapply Forall_impl; try done; intros g Hg; apply (chunk_extend _ _ _ _ _ _ Hg); congruence.
  - intros _. unfold frames. simpl. rewrite (same_queue _ _ Hsame).
    apply (covered_new (len (sent y)) (finSent (str y))); [by apply Hcov|congruence| |done]. by rewrite len_app.
  - unfold count_ok in *. simpl. rewrite (same_cancelled _ _ Hsame), Hca, (same_reset _ _ Hsame), (same_outstanding _ _ Hsame), len_app, Hn.
    rewrite Hca in Hcnt. destruct Hcnt as (?&?&_). done.
  - by apply (takes_wake y s' f).
  - rewrite (same_completed _ _ Hsame). intros Hc _. destruct (Hdone Hc Hca). congruence.
Qed.

(** What a call of [popStreamFrame] returns: a frame of the stream that fits, or nothing
    because everything was sent, the stream failed, or flow control forbids to send. *)
Definition pop_result y (maxBytes : Z)
    (r : sendStream FC * option frame * option StreamDataBlockedFrame.t * bool) : Prop :=
  let '(s', o, _, more) := r in
  completed s' = completed (str y) ∧
  match o with
  | Some f =>
      let total := sent y ++ take (Z.to_nat (writeOffset s' - writeOffset (str y))) (StreamFrame.Data f) in
      len (StreamFrame.bytes f) ≤ maxBytes ∧ chunk (streamID (str y)) total (finSent s') f ∧
      (finSent (str y) = true → total = sent y ∧ finSent s' = true) ∧
      inv (mkSys s' (writing y) (app y) total (outstanding y ++ [f]) (resets y) (acked y))
  | None => s' = str y ∧
      (finalError (str y) ≠ None ∨
       retransmissionQueue (str y) = [] ∧ (all_sent (str y) ∨ SendWindowSize_ (flowController (str y)) = 0))
  end ∧
  (more = false → finalError s' ≠ None ∨ retransmissionQueue s' = [] ∧ all_sent s').

Lemma last_chunk y f :
  inv y → (∃ l, outstanding y = l ++ [f]) → chunk (streamID (str y)) (sent y) (finSent (str y)) f.
Proof.
  intros Hi [l Hl]. pose proof (inv_frames _ Hi) as Hf. unfold frames in Hf. rewrite Hl, Forall_forall in Hf.
  apply Hf. set_solver.
Qed.

Lemma pop_new pool stale y maxBytes :
  len pool = MaxPacketBufferSize → size_ok maxBytes → inv y → finalError (str y) = None →
  retransmissionQueue (str y) = [] →
  returns ('(s, f, blocked, more) ← popNewFrame pool stale (str y) maxBytes;
    Ok (match f with Some _ => set_numOutstandingFrames s (numOutstandingFrames s + 1) | None => s end, f, blocked, more))
    (pop_result y maxBytes).
Proof.
  intros Hpool Hmax Hi He Hq. apply returns_bind.
  eapply returns_mono; [by apply popNewFrame_spec, inv_ok|]. intros [[[s' o] blocked] more] Hs.
  pose proof (new_frame_inv y s') as Hnew. pose proof Hs as (Hsame & _ & Hmore & Hcase).
  destruct o as [f|]; simpl in *.
  - specialize (Hnew f maxBytes blocked more Hi He Hmax Hs).
    destruct Hcase as (Ht & Hv & Hsize & Ho & _ & Hfin & _). split; [apply Hsame|].
    replace (take _ _) with (StreamFrame.Data f).
    2: { rewrite Ho, take_ge; [done|]. unfold StreamFrame.DataLen, len. lia. }
    split; [split_and!; [done| | |done]|].
    + rewrite <-(same_id _ _ Hsame). apply (last_chunk (mkSys _ _ _ _ _ _ _) f Hnew). simpl. eauto.
    + intros Hf. rewrite Hfin, Hf. split; [|done]. pose proof (fin_unsent _ (inv_ok _ Hi) Hf) as Hun.
      rewrite (takes_data _ _ _ Ht) in Hun. apply app_nil in Hun as [-> _]. apply app_nil_r.
    + intros Hm. right. split; [by rewrite (same_queue _ _ Hsame)|by apply Hmore].
  - destruct Hcase as [-> Hcase]. split_and!; try done; [by right|]. intros Hm. right. auto.
Qed.

Lemma pop_spec pool stale y maxBytes :
  len pool = MaxPacketBufferSize → size_ok maxBytes → inv y →
  returns (popStreamFrame pool stale (str y) maxBytes) (pop_result y maxBytes).
Proof.
  intros Hpool Hmax Hi. unfold popStreamFrame, popNewOrRetransmittedStreamFrame.
  case_bool_decide as He; [simpl; split_and!; try done; by left|].
  destruct (retransmissionQueue (str y)) as [|f q] eqn:Hq; [by apply pop_new|].
  rewrite (proj2 (Z.ltb_lt _ _)) by (rewrite len_cons; len_lia).
  pose proof (retransmission_spec y pool maxBytes f q Hpool Hmax Hi He Hq) as Hr.
  apply returns_iff in Hr as ([[s' o] more] & -> & g & q' & -> & -> & Hsize & Hi'). simpl.
  rewrite Z.sub_diag, app_nil_r. split; [done|]. split; [|done]. split_and!; [done| |done|done].
  apply (last_chunk (mkSys _ _ _ _ _ _ _) g Hi'). simpl. eauto.
Qed.

Lemma step_kept y c : inv y → allowed y c → returns (step y c) (kept y).
Proof.
  intros Hi Ha. assert (kept y (y, [], None)) as Hrefl by (split; [done|by rewrite Z.add_0_r]).
  destruct c as [now p pool stale|now pool stale sg|maxBytes pool stale| | |code|fr|limit|fc|t|err|i b|i b| |]; simpl in Ha |- *.
  - destruct (writing y) eqn:Hw; [done|]. by apply kept_write.
  - destruct (writing y) as [p|] eqn:Hw; [|done]. by apply kept_resume.
  - destruct Ha as [Hpool Hmax]. apply returns_bind. eapply returns_mono; [by apply pop_spec|].
    intros [[[s' [f|]] blocked] more] (Hc & Hp & _); simpl in Hp.
    + destruct Hp as (_&_&_&Hp). split; [done|]. simpl. unfold flag. by rewrite Hc, Z.add_0_r.
    + destruct Hp as [-> _]. by destruct y.
  - destruct (getControlFrame (str y)) as [s o] eqn:E. by apply kept_control.
  - destruct (Close (str y)) as [[s evs] err] eqn:E. by eapply kept_close.
  - destruct (CancelWrite (str y) code) as [s evs] eqn:E. by eapply kept_cancel.
  - destruct (handleStopSendingFrame (str y) fr) as [s evs] eqn:E. by eapply kept_cancel.
  - destruct (updateSendWindow (str y) limit) as [s evs] eqn:E. by eapply kept_window.
  - apply (kept_similar y _ [] None); try done. destruct (inv_ok _ Hi). destruct Ha. sim.
  - apply (kept_similar y _ [] None); try done. destruct (inv_ok _ Hi). sim.
  - by apply kept_shutdown.
  - destruct (outstanding y !! i) as [f|] eqn:Hf; [|done]. by apply kept_acked.
  - destruct (outstanding y !! i) as [f|] eqn:Hf; [|done]. by apply kept_lost.
  - destruct (resets y) as [|r l] eqn:Hr; [done|]. by eapply kept_reset_acked.
  - destruct (resets y) as [|r l] eqn:Hr; [done|]. destruct (Reset_OnLost (str y) r) as [s evs] eqn:E.
    by eapply kept_reset_lost.
Qed.
End invariant.

(** ** Sequences of calls *)
Section runs.
Context {FC : Type} `{!SendFlowController FC, !SendFlowLaws FC}.
Implicit Types (y : sys FC) (s : sendStream FC) (f : frame).

(** A stream as the streams map creates it. *)
Definition fresh (id : Z) (fc : FC) : Prop :=
  is_varint id ∧ flow_sent fc = 0 ∧ 0 ≤ flow_limit fc ≤ MaxByteCount.

Lemma start_inv id fc : fresh id fc → inv (start id fc).
Proof.
  intros (Hid & Hsent & Hlim). split; simpl; try done.
  - split; simpl; rewrite ?Hsent; try done; lia.
  - intros _. split; [|done]. intros i Hi. change (len []) with 0 in Hi. lia.
  - intros [? [=]].
Qed.

(** The bytes of the application: what [Write] accepted and the slice of a call in progress. *)
Definition written y : list byte := app y ++ default [] (writing y).

(** Bytes are only added to what was sent, and none after the FIN. *)
Definition grows y y' : Prop :=
  streamID (str y') = streamID (str y) ∧
  ∃ d, sent y' = sent y ++ d ∧ (finSent (str y) = true → d = [] ∧ finSent (str y') = true).

Lemma grows_refl y : grows y y.
Proof. split; [done|]. exists []. by rewrite app_nil_r. Qed.

Lemma grows_trans y1 y2 y3 : grows y1 y2 → grows y2 y3 → grows y1 y3.
Proof.
  intros [Hid (d & Hd & Hf)] [Hid' (d' & Hd' & Hf')]. split; [congruence|]. exists (d ++ d').
  rewrite Hd', Hd, <-app_assoc. split; [done|]. intros [-> H2]%Hf. by destruct (Hf' H2) as [-> ?].
Qed.

Lemma grows_same y y' :
  sent y' = sent y → finSent (str y') = finSent (str y) → streamID (str y') = streamID (str y) → grows y y'.
Proof. intros Hs Hf Hid. split; [done|]. exists []. rewrite app_nil_r, Hf. done. Qed.

(** The FIN is not touched but by popping frames. *)
Definition same_fin s s' : Prop := finSent s' = finSent s ∧ streamID s' = streamID s.

Lemma isNewlyCompleted_fin s s' c : isNewlyCompleted s = (s', c) → same_fin s s'.
Proof. unfold isNewlyCompleted. intros. by res_cases. Qed.

Lemma returnFinalError_fin s n err s' evs w : returnFinalError s n err = (s', evs, w) → same_fin s s'.
Proof.
  unfold returnFinalError. destruct (isNewlyCompleted _) as [s2 c] eqn:Hc. intros [= <- _ _].
  apply isNewlyCompleted_fin in Hc. by destruct (cancelled s).
Qed.

Lemma write_loop_fin pool stale s now n b s' evs w :
  write_loop pool stale s now n b = Ok (s', evs, w) → same_fin s s'.
Proof.
  unfold write_loop, bufferData. intros. res_cases; try done. by eapply returnFinalError_fin.
Qed.

Lemma Write_fin pool stale s now p s' evs w : Write pool stale s now p = Ok (s', evs, w) → same_fin s s'.
Proof.
  unfold Write. intros. res_cases; try done; [by eapply returnFinalError_fin|].
  by apply (write_loop_fin _ _ (set_dataForWriting s p)) in H.
Qed.

Lemma Write_resume_fin pool stale s now n b s' evs w :
  Write_resume pool stale s now n b = Ok (s', evs, w) → same_fin s s'.
Proof. unfold Write_resume. intros Hw%write_loop_fin. by destruct b. Qed.

Lemma Close_fin s s' evs err : Close s = (s', evs, err) → same_fin s s'.
Proof.
  unfold Close, ctxCancel. intros. res_cases; try done;
    match goal with H : isNewlyCompleted _ = _ |- _ => by apply isNewlyCompleted_fin in H end.
Qed.

Lemma cancelWrite_fin s code remote s' evs : cancelWrite s code remote = (s', evs) → same_fin s s'.
Proof.
  unfold cancelWrite, ctxCancel. intros. res_cases; try done;
    match goal with H : isNewlyCompleted _ = _ |- _ => by apply isNewlyCompleted_fin in H end.
Qed.

Lemma settle_fin s s' evs :
  (s ← settleFrame s; let '(s, c) := isNewlyCompleted s in Ok (s, notifyCompleted c)) = Ok (s', evs) → same_fin s s'.
Proof.
  unfold settleFrame. intros. res_cases. match goal with H : isNewlyCompleted _ = _ |- _ => by apply isNewlyCompleted_fin in H end.
Qed.

Lemma OnAcked_fin s f s' evs : OnAcked s f = Ok (s', evs) → same_fin s s'.
Proof. unfold OnAcked. intros H. bind_inv H. destruct (cancelled s); [by simplify_eq|]. by eapply settle_fin. Qed.

Lemma pop_grows pool stale y maxBytes y' evs o :
  len pool = MaxPacketBufferSize → size_ok maxBytes → inv y →
  step y (CPop maxBytes pool stale) = Ok (y', evs, o) →
  grows y y' ∧ ∀ f, o = Some f →
    chunk (streamID (str y')) (sent y') (finSent (str y')) f ∧ len (StreamFrame.bytes f) ≤ maxBytes.
Proof.
  intros Hpool Hmax Hi Hs. simpl in Hs. pose proof (pop_spec pool stale y maxBytes Hpool Hmax Hi) as Hp.
  apply returns_iff in Hp as ([[[s' r] blocked] more] & Hpop & _ & Hp & _).
  rewrite Hpop in Hs. destruct r as [f|]; simplify_eq/=.
  - destruct Hp as (Hsize & Hc & Hfin & Hi').
    assert (streamID s' = streamID (str y)) as Hid.
    { pose proof (last_chunk (mkSys _ _ _ _ _ _ _) f Hi' ltac:(simpl; eauto)) as Hc'. simpl in Hc'.
      rewrite <-(chunk_id _ _ _ _ Hc), <-(chunk_id _ _ _ _ Hc'). done. }
    split; [split; [done|]|].
    + eexists. split; [done|]. simpl. intros [Ht ?]%Hfin. split; [|done].
      rewrite <-(app_nil_r (sent y)) in Ht at 2. by apply app_inv_head in Ht.
    + intros ? [= <-]. simpl. by rewrite Hid.
  - destruct Hp as [-> _]. split; [|done]. by apply grows_same.
Qed.

Lemma step_same y c y' evs o :
  (∀ maxBytes pool stale, c ≠ CPop maxBytes pool stale) → step y c = Ok (y', evs, o) →
  same_fin (str y) (str y') ∧ sent y' = sent y ∧ o = None.
Proof.
  intros Hc Hs. destruct c as [now p pool stale|now pool stale sg|maxBytes pool stale| | |code|fr|limit|fc|t|err|i b|i b| |];
    [..|simpl in Hs]; simpl in Hs.
  - destruct (writing y); [by simplify_eq|]. bind_inv Hs. destruct a as [[s' evs'] w].
    apply Write_fin in Hm. destruct w; by simplify_eq/=.
  - destruct (writing y); [|by simplify_eq]. bind_inv Hs. destruct a as [[s' evs'] w].
    apply Write_resume_fin in Hm. destruct w; by simplify_eq/=.
  - by destruct (Hc maxBytes pool stale).
  - unfold getControlFrame in Hs. by res_cases.
  - destruct (Close (str y)) as [[s' evs'] err] eqn:E. apply Close_fin in E. by simplify_eq/=.
  - destruct (CancelWrite (str y) code) as [s' evs'] eqn:E. apply cancelWrite_fin in E. by simplify_eq/=.
  - destruct (handleStopSendingFrame (str y) fr) as [s' evs'] eqn:E. apply cancelWrite_fin in E. by simplify_eq/=.
  - unfold updateSendWindow in Hs. by res_cases.
  - by simplify_eq.
  - by simplify_eq.
  - unfold closeForShutdown in Hs. by res_cases.
  - destruct (outstanding y !! i) as [f|]; [|by simplify_eq]. bind_inv Hs. destruct a as [s' evs'].
    apply OnAcked_fin in Hm. by simplify_eq/=.
  - unfold OnLost, settleFrame in Hs. by res_cases.
  - destruct (resets y); [by simplify_eq|]. bind_inv Hs. destruct a as [s' evs']. apply settle_fin in Hm. by simplify_eq/=.
  - by res_cases.
Qed.

Lemma step_grows y c y' evs o :
  inv y → allowed y c → step y c = Ok (y', evs, o) →
  grows y y' ∧ ∀ f, o = Some f → chunk (streamID (str y')) (sent y') (finSent (str y')) f.
Proof.
  intros Hi Ha Hs.
  assert ((∃ m pool stale, c = CPop m pool stale) ∨ ∀ m pool stale, c ≠ CPop m pool stale) as [(m & pool & stale & ->)|Hc].
  { destruct c; try (by right). left. eauto. }
  - destruct Ha. apply pop_grows in Hs as [Hg Hf]; [|done..]. split; [done|]. intros f Hf'. by apply Hf.
  - apply step_same in Hs as ((Hf & Hid) & Hsent & ->); [|done]. split; [by apply grows_same|done].
Qed.

Lemma chunk_grows y y' f :
  grows y y' → chunk (streamID (str y)) (sent y) (finSent (str y)) f → chunk (streamID (str y')) (sent y') (finSent (str y')) f.
Proof. intros [-> (d & -> & Hd)] Hf. by apply (chunk_extend _ _ _ _ _ _ Hf). Qed.

(** Every sequence of calls keeps the invariant; the frames that it produced carry the
    bytes that were sent. *)
Lemma run_kept y cs :
  inv y → all_allowed y cs →
  returns (run y cs) (λ '(y', evs, fs), inv y' ∧ flag (str y') = flag (str y) + completions evs ∧ grows y y' ∧
    Forall (chunk (streamID (str y')) (sent y') (finSent (str y'))) fs).
Proof.
  revert y. induction cs as [|c cs IH]; intros y Hi Ha; simpl.
  { split_and!; [done|by rewrite Z.add_0_r|apply grows_refl|by constructor]. }
  destruct Ha as [Ha Hrest]. pose proof (step_kept y c Hi Ha) as Hk.
  apply returns_iff in Hk as ([[y1 evs] o] & Hs & Hi1 & Hf1). rewrite Hs in *. cbn [mbind result_bind].
  destruct (step_grows y c y1 evs o Hi Ha Hs) as [Hg Hc].
  specialize (IH y1 Hi1 Hrest). apply returns_iff in IH as ([[y2 evs'] fs] & -> & Hi2 & Hf2 & Hg2 & Hfs).
  cbn [mbind result_bind returns]. split_and!; [done| |by eapply grows_trans|].
  - rewrite Hf2, Hf1, completions_app. lia.
  - apply Forall_app. split; [|done]. destruct o as [f|]; [|by constructor]. apply Forall_singleton.
    apply (chunk_grows y1 y2); [done|]. by apply Hc.
Qed.

(** What was sent is a prefix of what the application wrote; all of it, if the FIN was sent. *)
Lemma sent_written y : inv y →
  ∃ rest, written y = sent y ++ rest ∧ (finSent (str y) = true → rest = []).
Proof.
  intros Hi. pose proof (inv_content _ Hi) as Hc. unfold content_ok in Hc. unfold written.
  pose proof (fin_unsent _ (inv_ok _ Hi)) as Hf. destruct (writing y) as [p|]; simpl.
  - exists (unsent (str y)). by destruct Hc as [-> _].
  - rewrite app_nil_r. exists (buffered (str y)). destruct Hc as [-> _]. split; [done|].
    intros Hu%Hf. unfold unsent in Hu. by apply app_nil in Hu as [? _].
Qed.

(** [f] carries the bytes of [total] at its offset. *)
Definition carries (total : list byte) f : Prop :=
  ∃ a b, total = a ++ StreamFrame.Data f ++ b ∧ len a = StreamFrame.Offset f ∧
    (StreamFrame.Fin f = true → b = []).

Lemma chunk_carries y f :
  inv y → chunk (streamID (str y)) (sent y) (finSent (str y)) f → carries (written y) f.
Proof.
  intros Hi [_ _ _ _ _ (a & b & Hs & Ha & Hfin)]. destruct (sent_written y Hi) as (rest & -> & Hr).
  exists a, (b ++ rest). rewrite Hs, <-!app_assoc. split_and!; try done. intros [-> Hf]%Hfin. by rewrite Hr.
Qed.

(** A FIN is at the end of everything that was written, after [Close]. *)
Lemma fin_written y f :
  inv y → chunk (streamID (str y)) (sent y) (finSent (str y)) f → StreamFrame.Fin f = true →
  len (written y) = StreamFrame.Offset f + StreamFrame.DataLen f ∧ finishedWriting (str y) = true.
Proof.
  intros Hi Hf Hfin. destruct (chunk_data _ _ _ _ Hf) as (a & b & Hs & Hlen & Hb). destruct (Hb Hfin) as [-> Hsent].
  destruct (sent_written y Hi) as (rest & Hw & Hr). rewrite (Hr Hsent), app_nil_r in Hw. split.
  - rewrite Hw, Hs, app_nil_r, len_app, Hlen. done.
  - by destruct (ok_fin _ (inv_ok _ Hi) Hsent).
Qed.

Lemma run_inv id fc cs y evs fs :
  fresh id fc → all_allowed (start id fc) cs → run (start id fc) cs = Ok (y, evs, fs) → inv y.
Proof. intros Hf Ha Hrun. pose proof (run_kept _ cs (start_inv id fc Hf) Ha) as Hr. rewrite Hrun in Hr. apply Hr. Qed.

(** C7: the sending half of a stream is safe: whatever the application, the framer, the
    loss detection and the peer do, in any order, no call panics (no slice out of range,
    no buffer of a wrong size for the pool, no negative number of outstanding frames), the
    stream is reported as completed at most once, and never sends beyond the limit that
    the peer gave. *)
Theorem send_stream_safe id fc cs :
  fresh id fc → all_allowed (start id fc) cs →
  ∃ y evs fs, run (start id fc) cs = Ok (y, evs, fs) ∧ completions evs ≤ 1 ∧
    0 ≤ numOutstandingFrames (str y) ∧ len (sent y) = writeOffset (str y) ∧
    writeOffset (str y) ≤ flow_limit (flowController (str y)).
Proof.
  intros Hfresh Ha. pose proof (run_kept _ cs (start_inv id fc Hfresh) Ha) as Hr.
  apply returns_iff in Hr as ([[y evs] fs] & Hrun & Hi & Hf & _). exists y, evs, fs. split; [done|].
  simpl in Hf. change (flag (newSendStream id fc)) with 0 in Hf. split_and!.
  - unfold flag in Hf. destruct (completed (str y)); lia.
  - pose proof (inv_count _ Hi) as Hc. unfold count_ok in Hc.
    destruct (cancelled (str y)); [destruct Hc as (_&_&->&_)|destruct Hc as (_&_&->)]; len_lia.
  - symmetry. apply inv_offset, Hi.
  - apply (ok_offset _ (inv_ok _ Hi)).
Qed.

(** C8: the frames that a stream produces, new ones, retransmissions and the parts of
    frames that were split, carry exactly the bytes of the application: each can be
    encoded, belongs to the stream, has at its offset the bytes that were written there,
    and a FIN bit is at the end of all that was written, after [Close]. *)
Theorem stream_frames_carry_data id fc cs y evs fs :
  fresh id fc → all_allowed (start id fc) cs → run (start id fc) cs = Ok (y, evs, fs) →
  Forall (λ f, StreamFrame.valid f ∧ StreamFrame.StreamID f = id ∧ carries (written y) f ∧
    (StreamFrame.Fin f = true → finishedWriting (str y) = true)) fs.
Proof.
  intros Hfresh Ha Hrun. pose proof (run_kept _ cs (start_inv id fc Hfresh) Ha) as Hr.
  rewrite Hrun in Hr. destruct Hr as (Hi & _ & [Hid _] & Hfs). eapply Forall_impl; [done|].
  intros f Hf. simpl. split_and!; [apply Hf|by rewrite (chunk_id _ _ _ _ Hf)|by apply chunk_carries|].
  intros Hfin. by destruct (fin_written y f Hi Hf Hfin).
Qed.

(** C9: a stream that is reported as completed without having been cancelled has
    delivered everything: each byte that the application wrote is in a frame that the peer
    acknowledged, and so is the FIN. *)
Theorem completed_stream_delivered id fc cs y evs fs :
  fresh id fc → all_allowed (start id fc) cs → run (start id fc) cs = Ok (y, evs, fs) →
  onStreamCompleted ∈ evs → cancelled (str y) = false →
  sent y = written y ∧
  (∀ i, 0 ≤ i < len (written y) → ∃ f, f ∈ acked y ∧ carries (written y) f ∧ covers i f) ∧
  (∃ f, f ∈ acked y ∧ StreamFrame.Fin f = true ∧ StreamFrame.Offset f + StreamFrame.DataLen f = len (written y)).
Proof.
  intros Hfresh Ha Hrun Hev Hca. pose proof (run_kept _ cs (start_inv id fc Hfresh) Ha) as Hr.
  rewrite Hrun in Hr. destruct Hr as (Hi & Hflag & _ & _).
  assert (completed (str y) = true) as Hc.
  { unfold flag in Hflag. destruct (completed (str y)); [done|]. simpl in Hflag.
    apply completions_elem in Hev. lia. }
  destruct (inv_done _ Hi Hc Hca) as (Hfin & Ho & Hq). destruct (inv_cover _ Hi Hca) as [Hcov1 Hcov2].
  destruct (sent_written y Hi) as (rest & Hw & Hr). rewrite (Hr Hfin), app_nil_r in Hw.
  pose proof (inv_frames _ Hi) as Hfr. unfold frames in *. rewrite Ho, Hq, app_nil_r in *. rewrite Forall_forall in Hfr.
  split; [done|]. split.
  - intros i Hin. rewrite Hw in Hin. destruct (Hcov1 i Hin) as (f & Hf & Hc'). exists f.
    split_and!; [done|by apply chunk_carries, Hfr|done].
  - destruct (Hcov2 Hfin) as (f & Hf & Hff). exists f. split_and!; [done..|].
    by destruct (fin_written y f Hi (Hfr f Hf) Hff) as [-> _].
Qed.

(** C10: no lost wake-up and no forgotten data. While [Write] waits and was not signalled,
    the stream has not failed and, unless flow control forbids it, the next call of
    [popStreamFrame] returns a frame; and when that call reports that there is nothing
    more, all the data and the FIN of a closed stream were sent. *)
Theorem blocked_write_progress id fc cs y evs fs pool stale maxBytes :
  fresh id fc → all_allowed (start id fc) cs → run (start id fc) cs = Ok (y, evs, fs) →
  len pool = MaxPacketBufferSize → size_ok maxBytes →
  ∃ s' o blocked more, popStreamFrame pool stale (str y) maxBytes = Ok (s', o, blocked, more) ∧
    (is_Some (writing y) → writeChan (str y) = false → 0 < SendWindowSize_ (flowController (str y)) →
     is_Some o) ∧
    (more = false → finalError s' ≠ None ∨
       retransmissionQueue s' = [] ∧ unsent s' = [] ∧ (finishedWriting s' = true → finSent s' = true)).
Proof.
  intros Hfresh Ha Hrun Hpool Hmax. pose proof (run_kept _ cs (start_inv id fc Hfresh) Ha) as Hr.
  rewrite Hrun in Hr. destruct Hr as (Hi & _). pose proof (pop_spec pool stale y maxBytes Hpool Hmax Hi) as Hp.
  apply returns_iff in Hp as ([[[s' o] blocked] more] & Hpop & _ & Hp & Hmore).
  exists s', o, blocked, more. split; [done|]. split; [|done].
  intros Hw Hch Hwin. destruct (inv_wake _ Hi Hw Hch) as (He & Hd & _). destruct o as [f|]; [eauto|].
  exfalso. destruct Hp as [_ [|(_ & [[Hu _]|Hz])]]; [done| |lia]. unfold unsent in Hu. by apply app_nil in Hu as [_ ?].
Qed.
End runs.

(** ** An example *)
Definition example_flow (limit : Z) : streamFlowController * connectionFlowController :=
  (NewStreamFlowController 4 1000 1000 limit, set_sendWindow (NewConnectionFlowController 1000 1000 None) 5000).

Definition example_pool : list byte := replicate 1452 x00.

(** A short message that is lost and retransmitted. *)
Definition example_calls : list (call (streamFlowController * connectionFlowController)) :=
  [CWrite 1 [x61; x62; x63] example_pool true; CClose; CPop 200 example_pool false; CLost 0 false;
   CPop 200 example_pool false; CAcked 0 true].

(** 3000 bytes, of which the call waits for the last 2100. *)
Definition example_blocked : list (call (streamFlowController * connectionFlowController)) :=
  [CWrite 1 (replicate 3000 x61) example_pool true; CPop 900 example_pool false].

Lemma send_stream_safe_witness :
  ∃ y evs fs, run (start 4 (example_flow 100)) example_calls = Ok (y, evs, fs) ∧ completions evs ≤ 1 ∧
    0 ≤ numOutstandingFrames (str y) ∧ len (sent y) = writeOffset (str y) ∧
    writeOffset (str y) ≤ flow_limit (flowController (str y)).
Proof. apply (send_stream_safe 4 (example_flow 100) example_calls); vm_compute; intuition discriminate. Defined.

Lemma stream_frames_carry_data_witness :
  ∃ y evs fs, run (start 4 (example_flow 100)) example_calls = Ok (y, evs, fs) ∧ length fs = 2%nat ∧
  Forall (λ f, StreamFrame.valid f ∧ StreamFrame.StreamID f = 4 ∧ carries (written y) f ∧
    (StreamFrame.Fin f = true → finishedWriting (str y) = true)) fs.
Proof.
  eexists _, _, _. split; [vm_compute; reflexivity|]. split; [reflexivity|].
  apply (stream_frames_carry_data 4 (example_flow 100) example_calls _ [onHasStreamData; onHasStreamData; onHasStreamData; onStreamCompleted]);
    [vm_compute; intuition discriminate..|vm_compute; reflexivity].
Defined.

Lemma completed_stream_delivered_witness :
  ∃ y evs fs, run (start 4 (example_flow 100)) example_calls = Ok (y, evs, fs) ∧
  sent y = written y ∧
  (∀ i, 0 ≤ i < len (written y) → ∃ f, f ∈ acked y ∧ carries (written y) f ∧ covers i f) ∧
  (∃ f, f ∈ acked y ∧ StreamFrame.Fin f = true ∧ StreamFrame.Offset f + StreamFrame.DataLen f = len (written y)).
Proof.
  eexists _, _, _. split; [vm_compute; reflexivity|].
  eapply (completed_stream_delivered 4 (example_flow 100) example_calls);
    [vm_compute; intuition discriminate..|vm_compute; reflexivity| |reflexivity].
  set_solver.
Defined.

Lemma blocked_write_progress_witness :
  ∃ y evs fs, run (start 4 (example_flow 4000)) example_blocked = Ok (y, evs, fs) ∧
  (is_Some (writing y) ∧ writeChan (str y) = false ∧ 0 < SendWindowSize_ (flowController (str y))) ∧
  ∃ s' o blocked more, popStreamFrame example_pool true (str y) 900 = Ok (s', o, blocked, more) ∧
    (is_Some (writing y) → writeChan (str y) = false → 0 < SendWindowSize_ (flowController (str y)) →
     is_Some o) ∧
    (more = false → finalError s' ≠ None ∨
       retransmissionQueue s' = [] ∧ unsent s' = [] ∧ (finishedWriting s' = true → finSent s' = true)).
Proof.
  eexists _, _, _. split; [vm_compute; reflexivity|]. split; [vm_compute; eauto|].
  eapply (blocked_write_progress 4 (example_flow 4000) example_blocked);
    first [vm_compute; reflexivity | vm_compute; intuition discriminate].
Defined.
End SendRuns.
