(* ===== verification/ReceiveStream.v ===== *)
(** * The receiving half of a stream (receive_stream.go)

    Every method holds the mutex of the stream while it works, so that a method is a step
    of the stream's state.  [Read] blocks: it runs until it waits for [readChan] or its
    timer, and is continued by [Read_resume].  The buffer of a frame is returned to the
    pool by a callback, which has a name; the methods return the callbacks they call.  The
    calls of the [streamSender] are collected as events, the flow controller is an instance
    of the interface [ReceiveFlowController]. *)

From S2P Require Import Prelude Protocol ControlFrames DataFrames FrameSorter RTTStats FlowControl SendStream.

(** What the stream uses of its flow controller (internal/flowcontrol/interface.go). *)
Class ReceiveFlowController (C : Type) := {
  UpdateHighestReceived_ : C → Z → bool → Z → C * option error;
  AddBytesRead_ : C → Z → C * (bool * bool);
  Abandon_ : C → C;
  GetWindowUpdate_ : C → Z → res (C * Z);
}.

(** What a controller promises: it knows the highest offset, and whether that is the final
    one; an update that succeeds is consistent with them. *)
Class ReceiveFlowLaws (C : Type) `{!ReceiveFlowController C} := {
  flow_ok : C → Prop;
  flow_highest : C → Z;
  flow_final : C → bool;
  flow_receive c offset final now c' :
    flow_ok c → UpdateHighestReceived_ c offset final now = (c', None) →
    flow_ok c' ∧ flow_highest c' = Z.max (flow_highest c) offset ∧ flow_final c' = flow_final c || final ∧
    (flow_final c = true → offset ≤ flow_highest c) ∧ (final = true → flow_highest c' = offset);
  flow_read c n : flow_ok c → flow_ok (AddBytesRead_ c n).1 ∧
    flow_highest (AddBytesRead_ c n).1 = flow_highest c ∧ flow_final (AddBytesRead_ c n).1 = flow_final c;
  flow_abandon c : flow_ok c → flow_ok (Abandon_ c) ∧
    flow_highest (Abandon_ c) = flow_highest c ∧ flow_final (Abandon_ c) = flow_final c;
  flow_window_update c now : flow_ok c →
    returns (GetWindowUpdate_ c now) (λ '(c', _), flow_ok c' ∧
      flow_highest c' = flow_highest c ∧ flow_final c' = flow_final c);
}.

(** The controllers of the stream and of the connection, with the RTT statistics of the
    connection, implement it. *)
Abbreviation receive_flow := (streamFlowController * connectionFlowController * RTTStats)%type.
#[global] Instance stream_receive_flow : ReceiveFlowController receive_flow := {|
  UpdateHighestReceived_ '(s, c, rtt) offset final now :=
    let '(s, c, err) := UpdateHighestReceived s c offset final now in ((s, c, rtt), err);
  AddBytesRead_ '(s, c, rtt) n := let '(s, c, r) := Stream_AddBytesRead s c n in ((s, c, rtt), r);
  Abandon_ '(s, c, rtt) := let '(s, c) := Abandon s c in (s, c, rtt);
  GetWindowUpdate_ '(s, c, rtt) now :=
    '(s, c, offset) ← Stream_GetWindowUpdate s c rtt now; Ok ((s, c, rtt), offset);
|}.

(** The connection passes a callback for increases of its window. *)
Definition has_callback (c : connectionFlowController) : Prop := is_Some (allowWindowIncrease c).

Lemma ensure_callback c inc now :
  has_callback c → returns (EnsureMinimumWindowSize c inc now) has_callback.
Proof.
  intros [allow Ha]. unfold EnsureMinimumWindowSize. rewrite Ha. zcase; [by exists allow|]. zcase.
  - destruct (allow _); by exists allow.
  - by exists allow.
Qed.

Lemma getWindowUpdate_highest c rtt now c' offset :
  getWindowUpdate c rtt now = (c', offset) → highestReceived c' = highestReceived c.
Proof.
  unfold getWindowUpdate. destruct (hasWindowUpdate c); simpl; intros [= <- _]; [|done].
  apply (same_highest _ _ (proj1 (maybeAdjustWindowSize_spec c rtt now))).
Qed.

#[global, refine] Instance stream_receive_laws : ReceiveFlowLaws receive_flow := {|
  flow_ok '(s, c, _) := has_callback c;
  flow_highest '(s, _, _) := highestReceived (base s);
  flow_final '(s, _, _) := receivedFinalOffset s;
|}.
Proof.
  - intros [[s c] rtt] offset final now [[s' c'] rtt'] Hok. simpl.
    destruct (UpdateHighestReceived s c offset final now) as [[s1 c1] err] eqn:Hu. intros [= -> -> -> ->].
    apply UpdateHighestReceived_spec in Hu as (Hf & _ & [Hh _ Hfin _ Hc]). unfold final_size_violation in Hf.
    apply only_highest_fields in Hc as (_&_&_&_&_&_&Hc). unfold has_callback. rewrite Hc, Hh, Hfin.
    split_and!; try done; [intros ?; apply Z.le_ngt; tauto|]. intros ->.
    assert (¬ offset < highestReceived (base s)) by tauto. lia.
  - intros [[s c] rtt] n Hok. unfold AddBytesRead_, stream_receive_flow, Stream_AddBytesRead, Conn_AddBytesRead. simpl. done.
  - intros [[s c] rtt] Hok. unfold Abandon_, stream_receive_flow, Abandon. zcase; done.
  - intros [[s c] rtt] now Hok. unfold GetWindowUpdate_, stream_receive_flow, Stream_GetWindowUpdate. simpl.
    destruct (receivedFinalOffset s) eqn:Hf; [done|].
    destruct (getWindowUpdate (base s) rtt now) as [c' offset] eqn:Hg. apply getWindowUpdate_highest in Hg.
    zcase.
    + match goal with |- context [EnsureMinimumWindowSize c ?inc now] => pose proof (ensure_callback c inc now Hok) as He end.
      apply returns_iff in He as (c1 & -> & Hc1). done.
    + done.
Defined.

Module ReceiveStream.
Section stream.
Context {FC : Type} `{!ReceiveFlowController FC}.

(** [cancelErr] is the error code and whether the cancellation was remote. *)
Record receiveStream := mk {
  streamID : Z;
  frameQueue : frameSorter;
  finalOffset : Z;
  currentFrame : option (list byte);
  currentFrameDone : option Z;
  readPosInFrame : Z;
  currentFrameIsLast : bool;
  queuedStopSending : bool;
  queuedMaxStreamData : bool;
  errorRead : bool;
  completed : bool;
  cancelledRemotely : bool;
  cancelledLocally : bool;
  cancelErr : option (Z * bool);
  closeForShutdownErr : option error;
  readChan : bool;
  deadline : Z;
  flowController : FC;
}.

Section fields.
Context (s : receiveStream).
Definition set_frameQueue (x : frameSorter) : receiveStream := mk (streamID s) x (finalOffset s)
  (currentFrame s) (currentFrameDone s) (readPosInFrame s) (currentFrameIsLast s) (queuedStopSending
  s) (queuedMaxStreamData s) (errorRead s) (completed s) (cancelledRemotely s) (cancelledLocally s)
  (cancelErr s) (closeForShutdownErr s) (readChan s) (deadline s) (flowController s).
Definition set_finalOffset (x : Z) : receiveStream := mk (streamID s) (frameQueue s) x (currentFrame
  s) (currentFrameDone s) (readPosInFrame s) (currentFrameIsLast s) (queuedStopSending s)
  (queuedMaxStreamData s) (errorRead s) (completed s) (cancelledRemotely s) (cancelledLocally s)
  (cancelErr s) (closeForShutdownErr s) (readChan s) (deadline s) (flowController s).
Definition set_currentFrame (x : option (list byte)) : receiveStream := mk (streamID s) (frameQueue
  s) (finalOffset s) x (currentFrameDone s) (readPosInFrame s) (currentFrameIsLast s)
  (queuedStopSending s) (queuedMaxStreamData s) (errorRead s) (completed s) (cancelledRemotely s)
  (cancelledLocally s) (cancelErr s) (closeForShutdownErr s) (readChan s) (deadline s)
  (flowController s).
Definition set_readPosInFrame (x : Z) : receiveStream := mk (streamID s) (frameQueue s) (finalOffset
  s) (currentFrame s) (currentFrameDone s) x (currentFrameIsLast s) (queuedStopSending s)
  (queuedMaxStreamData s) (errorRead s) (completed s) (cancelledRemotely s) (cancelledLocally s)
  (cancelErr s) (closeForShutdownErr s) (readChan s) (deadline s) (flowController s).
Definition set_currentFrameIsLast (x : bool) : receiveStream := mk (streamID s) (frameQueue s)
  (finalOffset s) (currentFrame s) (currentFrameDone s) (readPosInFrame s) x (queuedStopSending s)
  (queuedMaxStreamData s) (errorRead s) (completed s) (cancelledRemotely s) (cancelledLocally s)
  (cancelErr s) (closeForShutdownErr s) (readChan s) (deadline s) (flowController s).
Definition set_queuedStopSending (x : bool) : receiveStream := mk (streamID s) (frameQueue s)
  (finalOffset s) (currentFrame s) (currentFrameDone s) (readPosInFrame s) (currentFrameIsLast s) x
  (queuedMaxStreamData s) (errorRead s) (completed s) (cancelledRemotely s) (cancelledLocally s)
  (cancelErr s) (closeForShutdownErr s) (readChan s) (deadline s) (flowController s).
Definition set_queuedMaxStreamData (x : bool) : receiveStream := mk (streamID s) (frameQueue s)
  (finalOffset s) (currentFrame s) (currentFrameDone s) (readPosInFrame s) (currentFrameIsLast s)
  (queuedStopSending s) x (errorRead s) (completed s) (cancelledRemotely s) (cancelledLocally s)
  (cancelErr s) (closeForShutdownErr s) (readChan s) (deadline s) (flowController s).
Definition set_errorRead (x : bool) : receiveStream := mk (streamID s) (frameQueue s) (finalOffset
  s) (currentFrame s) (currentFrameDone s) (readPosInFrame s) (currentFrameIsLast s)
  (queuedStopSending s) (queuedMaxStreamData s) x (completed s) (cancelledRemotely s)
  (cancelledLocally s) (cancelErr s) (closeForShutdownErr s) (readChan s) (deadline s)
  (flowController s).
Definition set_completed (x : bool) : receiveStream := mk (streamID s) (frameQueue s) (finalOffset
  s) (currentFrame s) (currentFrameDone s) (readPosInFrame s) (currentFrameIsLast s)
  (queuedStopSending s) (queuedMaxStreamData s) (errorRead s) x (cancelledRemotely s)
  (cancelledLocally s) (cancelErr s) (closeForShutdownErr s) (readChan s) (deadline s)
  (flowController s).
Definition set_cancelledRemotely (x : bool) : receiveStream := mk (streamID s) (frameQueue s)
  (finalOffset s) (currentFrame s) (currentFrameDone s) (readPosInFrame s) (currentFrameIsLast s)
  (queuedStopSending s) (queuedMaxStreamData s) (errorRead s) (completed s) x (cancelledLocally s)
  (cancelErr s) (closeForShutdownErr s) (readChan s) (deadline s) (flowController s).
Definition set_cancelledLocally (x : bool) : receiveStream := mk (streamID s) (frameQueue s)
  (finalOffset s) (currentFrame s) (currentFrameDone s) (readPosInFrame s) (currentFrameIsLast s)
  (queuedStopSending s) (queuedMaxStreamData s) (errorRead s) (completed s) (cancelledRemotely s) x
  (cancelErr s) (closeForShutdownErr s) (readChan s) (deadline s) (flowController s).
Definition set_cancelErr (x : option (Z * bool)) : receiveStream := mk (streamID s) (frameQueue s)
  (finalOffset s) (currentFrame s) (currentFrameDone s) (readPosInFrame s) (currentFrameIsLast s)
  (queuedStopSending s) (queuedMaxStreamData s) (errorRead s) (completed s) (cancelledRemotely s)
  (cancelledLocally s) x (closeForShutdownErr s) (readChan s) (deadline s) (flowController s).
Definition set_closeForShutdownErr (x : option error) : receiveStream := mk (streamID s) (frameQueue
  s) (finalOffset s) (currentFrame s) (currentFrameDone s) (readPosInFrame s) (currentFrameIsLast s)
  (queuedStopSending s) (queuedMaxStreamData s) (errorRead s) (completed s) (cancelledRemotely s)
  (cancelledLocally s) (cancelErr s) x (readChan s) (deadline s) (flowController s).
Definition set_readChan (x : bool) : receiveStream := mk (streamID s) (frameQueue s) (finalOffset s)
  (currentFrame s) (currentFrameDone s) (readPosInFrame s) (currentFrameIsLast s) (queuedStopSending
  s) (queuedMaxStreamData s) (errorRead s) (completed s) (cancelledRemotely s) (cancelledLocally s)
  (cancelErr s) (closeForShutdownErr s) x (deadline s) (flowController s).
Definition set_deadline (x : Z) : receiveStream := mk (streamID s) (frameQueue s) (finalOffset s)
  (currentFrame s) (currentFrameDone s) (readPosInFrame s) (currentFrameIsLast s) (queuedStopSending
  s) (queuedMaxStreamData s) (errorRead s) (completed s) (cancelledRemotely s) (cancelledLocally s)
  (cancelErr s) (closeForShutdownErr s) (readChan s) x (flowController s).
Definition set_flowController (x : FC) : receiveStream := mk (streamID s) (frameQueue s)
  (finalOffset s) (currentFrame s) (currentFrameDone s) (readPosInFrame s) (currentFrameIsLast s)
  (queuedStopSending s) (queuedMaxStreamData s) (errorRead s) (completed s) (cancelledRemotely s)
  (cancelledLocally s) (cancelErr s) (closeForShutdownErr s) (readChan s) (deadline s) x.
Definition set_current (q : frameSorter) (frame : option (list byte)) (done : option Z) (isLast :
  bool) : receiveStream := mk (streamID s) q (finalOffset s) frame done 0 isLast (queuedStopSending
  s) (queuedMaxStreamData s) (errorRead s) (completed s) (cancelledRemotely s) (cancelledLocally s)
  (cancelErr s) (closeForShutdownErr s) (readChan s) (deadline s) (flowController s).
End fields.

Implicit Types (s : receiveStream).

Definition newReceiveStream (streamID : Z) (flowController : FC) : receiveStream :=
  mk streamID newFrameSorter MaxByteCount None None 0 false false false false false false false None None
    false 0 flowController.

Definition signalRead s : receiveStream := set_readChan s true.

Definition isNewlyCompleted s : receiveStream * bool :=
  if completed s then (s, false) else
  if finalOffset s =? MaxByteCount then (s, false) else
  if cancelledLocally s then (set_completed s true, true) else
  if errorRead s then (set_completed s true, true) else
  (s, false).

(** ** Reading *)
Definition dequeueNextFrame s : res (receiveStream * list Z) :=
  let called := invoke (currentFrameDone s) in
  '(q, offset, frame, done) ← Pop (frameQueue s);
  Ok (set_current s q frame done (finalOffset s <=? offset + len (default [] frame)), called).

(** [s.cancelErr] as an [error]; a nil pointer is not a nil error. *)
Definition cancelError s : error :=
  match cancelErr s with
  | Some (code, remote) => StreamError (streamID s) code remote
  | None => ErrorString "<nil>" []
  end.

(** The state of a call of [Read] for [plen] bytes: the bytes in the slice and the updates
    that have to be sent. *)
Record reading := mkReading { plen : Z; got : list byte; hasStreamWindowUpdate : bool; hasConnWindowUpdate : bool }.

(** It waits, or it returns bytes and an error. *)
Inductive read_result := ReadBlocked (r : reading) | ReadReturned (r : reading) (n : Z) (err : option error).

(** Flow control learns about bytes that were read. *)
Definition bytesWereRead s (n : Z) : receiveStream * (bool * bool) :=
  if negb (cancelledRemotely s) then
    let '(fc, (hasStream, hasConn)) := AddBytesRead_ (flowController s) n in
    let s := set_flowController s fc in
    (if hasStream then set_queuedMaxStreamData s true else s, (hasStream, hasConn))
  else (s, (false, false)).

(** Bytes of the current frame are copied to the slice. *)
Definition copyFrame s (r : reading) : receiveStream * reading :=
  let frame := default [] (currentFrame s) in
  let d := take (Z.to_nat (plen r - len (got r))) (drop (Z.to_nat (readPosInFrame s)) frame) in
  let s := set_readPosInFrame s (readPosInFrame s + len d) in
  let '(s, (hasStream, hasConn)) := bytesWereRead s (len d) in
  (s, mkReading (plen r) (got r ++ d) (hasStream || hasStreamWindowUpdate r) (hasConn || hasConnWindowUpdate r)).

(** The inner loop up to the point where it waits or returns ([None]: it breaks). *)
Definition waitForFrame s (now : Z) (r : reading) : option (receiveStream * read_result) :=
  if bool_decide (closeForShutdownErr s ≠ None)
  then Some (s, ReadReturned r (len (got r)) (closeForShutdownErr s)) else
  if cancelledRemotely s || cancelledLocally s
  then Some (set_errorRead s true, ReadReturned r 0 (Some (cancelError s))) else
  if negb (deadline s =? 0) && (deadline s <=? now)
  then Some (s, ReadReturned r (len (got r)) (Some errDeadline)) else
  if bool_decide (currentFrame s = None) && negb (currentFrameIsLast s) then Some (s, ReadBlocked r) else
  None.

(** The frame was read to its end, and it is the last one. *)
Definition atEnd s : bool := (len (default [] (currentFrame s)) <=? readPosInFrame s) && currentFrameIsLast s.

(** The part of an iteration behind the wait, which goes on with [next]. *)
Definition readFrame (next : receiveStream → reading → list Z → res (receiveStream * list Z * read_result))
    s (r : reading) (called : list Z) : res (receiveStream * list Z * read_result) :=
  let frame := default [] (currentFrame s) in
  if plen r <? len (got r)
  then Ok (s, called, ReadReturned r (len (got r))
             (Some (ErrorString "BUG: bytesRead (%d) > len(p) (%d) in stream.Read" [len (got r); plen r]))) else
  if len frame <? readPosInFrame s
  then Ok (s, called, ReadReturned r (len (got r))
             (Some (ErrorString "BUG: readPosInFrame (%d) > frame.DataLen (%d) in stream.Read"
                      [readPosInFrame s; len frame]))) else
  let '(s, r) := copyFrame s r in
  if atEnd s then
    Ok (set_errorRead (set_currentFrame s None) true, called ++ invoke (currentFrameDone s),
        ReadReturned r (len (got r)) (Some io_EOF))
  else next s r called.

(** An iteration of the loop of [readImpl], which goes on with [next]; [woken] if it
    continues behind the wait of the inner loop. *)
Definition readIteration (next : receiveStream → reading → list Z → res (receiveStream * list Z * read_result))
    s (now : Z) (r : reading) (called : list Z) (woken : bool) : res (receiveStream * list Z * read_result) :=
  if negb woken && negb (len (got r) <? plen r) then Ok (s, called, ReadReturned r (len (got r)) None) else
  let needsFrame := bool_decide (currentFrame s = None) ||
    negb woken && (len (default [] (currentFrame s)) <=? readPosInFrame s) in
  '(s, c) ← (if needsFrame then dequeueNextFrame s else Ok (s, []));
  let called := called ++ c in
  if negb woken && bool_decide (currentFrame s = None) && (0 <? len (got r))
  then Ok (s, called, ReadReturned r (len (got r)) (closeForShutdownErr s)) else
  match waitForFrame s now r with
  | Some (s, result) => Ok (s, called, result)
  | None => readFrame next s r called
  end.

(** Every iteration that goes on copies at least a byte, their number is the fuel. *)
Fixpoint readLoop (fuel : nat) s (now : Z) (r : reading) (called : list Z) (woken : bool)
  : res (receiveStream * list Z * read_result) :=
  readIteration (match fuel with
                 | O => λ _ _ _, Panic
                 | S fuel => λ s r called, readLoop fuel s now r called false
                 end) s now r called woken.

Definition readFuel (r : reading) : nat := Z.to_nat (plen r - len (got r)).

Definition readImpl s (now n : Z) : res (receiveStream * list Z * read_result) :=
  let r := mkReading n [] false false in
  if currentFrameIsLast s && bool_decide (currentFrame s = None)
  then Ok (set_errorRead s true, [], ReadReturned r 0 (Some io_EOF)) else
  if cancelledRemotely s || cancelledLocally s
  then Ok (set_errorRead s true, [], ReadReturned r 0 (Some (cancelError s))) else
  match closeForShutdownErr s with
  | Some e => Ok (s, [], ReadReturned r 0 (Some e))
  | None => readLoop (readFuel r) s now r [] false
  end.

(** The part of [Read] behind [readImpl]. *)
Definition finishRead (m : receiveStream * list Z * read_result)
  : receiveStream * list Z * list stream_event * read_result :=
  let '(s, called, result) := m in
  match result with
  | ReadBlocked _ => (s, called, [], result)
  | ReadReturned r _ _ =>
      let '(s, completed) := isNewlyCompleted s in
      (s, called, (if completed then [onStreamCompleted] else []) ++
                  (if hasStreamWindowUpdate r then [onHasStreamControlFrame] else []) ++
                  (if hasConnWindowUpdate r then [onHasConnectionData] else []), result)
  end.

Definition Read s (now n : Z) : res (receiveStream * list Z * list stream_event * read_result) :=
  m ← readImpl s now n; Ok (finishRead m).

(** The goroutine continues, because of [readChan] or because its timer fired. *)
Definition Read_resume s (now : Z) (r : reading) (signalled : bool)
  : res (receiveStream * list Z * list stream_event * read_result) :=
  let s := if signalled then set_readChan s false else s in
  m ← readLoop (readFuel r) s now r [] true; Ok (finishRead m).

(** ** Cancelling *)
Definition cancelReadImpl s (errorCode : Z) : receiveStream * bool :=
  if cancelledLocally s then (s, false) else
  if bool_decide (closeForShutdownErr s ≠ None) then (s, false) else
  let s := set_cancelledLocally s true in
  if errorRead s || cancelledRemotely s then (s, false) else
  let s := set_queuedStopSending s true in
  (signalRead (set_cancelErr s (Some (errorCode, false))), true).

(** [s.flowController.Abandon(); s.sender.onStreamCompleted(s.streamID)] *)
Definition abandonCompleted s (completed : bool) : receiveStream * list stream_event :=
  if completed then (set_flowController s (Abandon_ (flowController s)), [onStreamCompleted]) else (s, []).

Definition CancelRead s (errorCode : Z) : receiveStream * list stream_event :=
  let '(s, queuedNewControlFrame) := cancelReadImpl s errorCode in
  let '(s, completed) := isNewlyCompleted s in
  let '(s, evs) := abandonCompleted s completed in
  (s, (if queuedNewControlFrame then [onHasStreamControlFrame] else []) ++ evs).

(** ** Receiving *)

(** An error is returned beside the state, which may have changed; [done] is the name of
    the callback [frame.PutBack]. *)
Definition handleStreamFrameImpl s (frame : StreamFrame.t) (done : Z) (now : Z)
  : res (receiveStream * list Z * option error) :=
  let maxOffset := StreamFrame.Offset frame + StreamFrame.DataLen frame in
  let '(fc, err) := UpdateHighestReceived_ (flowController s) maxOffset (StreamFrame.Fin frame) now in
  let s := set_flowController s fc in
  match err with
  | Some e => Ok (s, [], Some e)
  | None =>
      let s := if StreamFrame.Fin frame then set_finalOffset s maxOffset else s in
      if cancelledLocally s then Ok (s, [], None) else
      '(q, called, err) ← Push (frameQueue s) (StreamFrame.Data frame) (StreamFrame.Offset frame) (Some done);
      let s := set_frameQueue s q in
      match err with
      | Some e => Ok (s, called, Some e)
      | None => Ok (signalRead s, called, None)
      end
  end.

Definition handleStreamFrame s (frame : StreamFrame.t) (done : Z) (now : Z)
  : res (receiveStream * list Z * list stream_event * option error) :=
  '(s, called, err) ← handleStreamFrameImpl s frame done now;
  let '(s, completed) := isNewlyCompleted s in
  let '(s, evs) := abandonCompleted s completed in
  Ok (s, called, evs, err).

Definition handleResetStreamFrameImpl s (frame : ResetStreamFrame.t) (now : Z) : receiveStream * option error :=
  if bool_decide (closeForShutdownErr s ≠ None) then (s, None) else
  let '(fc, err) := UpdateHighestReceived_ (flowController s) (ResetStreamFrame.FinalSize frame) true now in
  let s := set_flowController s fc in
  match err with
  | Some e => (s, Some e)
  | None =>
      let s := set_finalOffset s (ResetStreamFrame.FinalSize frame) in
      if cancelledRemotely s then (s, None) else
      let s := set_flowController s (Abandon_ (flowController s)) in
      if cancelledLocally s then (s, None) else
      let s := set_cancelledRemotely s true in
      let s := set_cancelErr s (Some (ResetStreamFrame.ErrorCode frame, true)) in
      (signalRead s, None)
  end.

Definition handleResetStreamFrame s (frame : ResetStreamFrame.t) (now : Z)
  : receiveStream * list stream_event * option error :=
  let '(s, err) := handleResetStreamFrameImpl s frame now in
  let '(s, completed) := isNewlyCompleted s in
  (s, if completed then [onStreamCompleted] else [], err).

(** ** Control frames *)
Inductive controlFrame := CStopSending (f : StopSendingFrame.t) | CMaxStreamData (f : MaxStreamDataFrame.t).

(** The frame and whether there are more. *)
Definition getControlFrame s (now : Z) : res (receiveStream * option controlFrame * bool) :=
  if negb (queuedStopSending s) && negb (queuedMaxStreamData s) then Ok (s, None, false) else
  if queuedStopSending s then
    let s := set_queuedStopSending s false in
    match cancelErr s with
    | None => Panic
    | Some (code, _) => Ok (s, Some (CStopSending (StopSendingFrame.mk (streamID s) code)), queuedMaxStreamData s)
    end
  else
  let s := set_queuedMaxStreamData s false in
  '(fc, limit) ← GetWindowUpdate_ (flowController s) now;
  Ok (set_flowController s fc, Some (CMaxStreamData (MaxStreamDataFrame.mk (streamID s) limit)), false).

Definition SetReadDeadline s (t : Z) : receiveStream := signalRead (set_deadline s t).

Definition closeForShutdown s (err : error) : receiveStream := signalRead (set_closeForShutdownErr s (Some err)).
End stream.
Arguments receiveStream FC : clear implicits.

(** ** The invariant of a stream *)
Section invariant.
Context {FC : Type} `{!ReceiveFlowController FC, !ReceiveFlowLaws FC}.
Implicit Types (s : receiveStream FC) (ops : list sorter_op) (rd : list byte) (released : list Z).

(** The bytes of the current frame that were not read yet, and its callback. *)
Definition rest s : list byte := drop (Z.to_nat (readPosInFrame s)) (default [] (currentFrame s)).
Definition held s : list Z := if currentFrame s then invoke (currentFrameDone s) else [].

(** The end of the stream was reached. *)
Definition ended s : Prop := currentFrameIsLast s = true ∧ currentFrame s = None.
Definition cancelledBy s : bool := cancelledRemotely s || cancelledLocally s.

Definition op_end (op : sorter_op) : Z := if op is OpPush data offset _ then offset + len data else 0.

(** The frames [ops] were pushed to the sorter, the application read [rd] so far, and
    [released] are the buffers that were returned. *)
Record core s ops rd released (fin : option Z) : Prop := {
  core_flow : flow_ok (flowController s);
  core_sorter : ∃ ops' out rel, filter is_push ops' = ops ∧ delivered ops' (frameQueue s) out rel ∧
    out = rd ++ rest s ∧ rel ≡ₚ released ++ held s;
  core_pos : 0 ≤ readPosInFrame s ∧ (readPosInFrame s ≤ len (default [] (currentFrame s)) ∨ ended s);
  core_ops : Forall (λ op, op_end op ≤ flow_highest (flowController s)) ops;
  core_highest : 0 ≤ flow_highest (flowController s) < MaxByteCount;
  core_final : if finalOffset s =? MaxByteCount then flow_final (flowController s) = false
    else flow_final (flowController s) = true ∧ flow_highest (flowController s) = finalOffset s;
  core_last : currentFrameIsLast s = true → finalOffset s ≤ readPos (frameQueue s);
  core_done : currentFrame s = None → currentFrameIsLast s = false → currentFrameDone s = None;
  core_cancel : cancelledBy s = true → cancelErr s ≠ None ∨ ended s;
  core_stop : queuedStopSending s = true → cancelErr s ≠ None;
  core_shutdown : closeForShutdownErr s ≠ Some io_EOF;
  core_read : errorRead s = true → ended s ∨ cancelledBy s = true;
  core_fin : cancelledBy s = false → finalOffset s ≠ MaxByteCount → fin = Some (finalOffset s);
  core_fin_final : ∀ n, fin = Some n → finalOffset s = n ∧ n ≠ MaxByteCount;
}.

(** The fields that reading leaves alone. *)
Record same_rest s s' : Prop := {
  same_id : streamID s' = streamID s;
  same_finalOffset : finalOffset s' = finalOffset s;
  same_stop : queuedStopSending s' = queuedStopSending s;
  same_completed : completed s' = completed s;
  same_remotely : cancelledRemotely s' = cancelledRemotely s;
  same_locally : cancelledLocally s' = cancelledLocally s;
  same_cancelErr : cancelErr s' = cancelErr s;
  same_shutdown : closeForShutdownErr s' = closeForShutdownErr s;
  same_chan : readChan s' = readChan s;
  same_deadline : deadline s' = deadline s;
}.

Lemma rest_none s : currentFrame s = None → rest s = [].
Proof. intros Hn. unfold rest. rewrite Hn. apply drop_nil. Qed.

Lemma same_rest_refl s : same_rest s s.
Proof. by split. Qed.

Lemma recv_same_rest_trans s1 s2 s3 : same_rest s1 s2 → same_rest s2 s3 → same_rest s1 s3.
Proof. intros [] []. split; congruence. Qed.

(** All positions below the read position of the sorter were received. *)
Lemma read_pos_le s ops rd released fin :
  core s ops rd released fin → readPos (frameQueue s) ≤ flow_highest (flowController s).
Proof.
  intros Hc. destruct (core_sorter _ _ _ _ _ Hc) as (ops' & out & rel & Hops & Hd & _).
  pose proof (core_highest _ _ _ _ _ Hc). destruct (decide (readPos (frameQueue s) ≤ 0)); [lia|].
  assert (Exists (op_contains (readPos (frameQueue s) - 1)) ops') as He.
  { apply (del_received _ _ _ _ Hd); [lia|]. left. lia. }
  apply Exists_exists in He as (op & Hin & Hop). pose proof (core_ops _ _ _ _ _ Hc) as Ho.
  rewrite Forall_forall in Ho. destruct op as [data offset cb|]; [|done].
  specialize (Ho (OpPush data offset cb)). simpl in Ho, Hop. rewrite <-Hops in Ho.
  pose proof (Ho ltac:(by apply list_elem_of_filter)). lia.
Qed.

(** At the end everything up to the final offset was read from the sorter. *)
Lemma last_complete s ops rd released fin :
  core s ops rd released fin → currentFrameIsLast s = true →
  finalOffset s ≠ MaxByteCount ∧ readPos (frameQueue s) = finalOffset s.
Proof.
  intros Hc Hl. pose proof (core_last _ _ _ _ _ Hc Hl). pose proof (read_pos_le _ _ _ _ _ Hc).
  pose proof (core_highest _ _ _ _ _ Hc). pose proof (core_final _ _ _ _ _ Hc) as Hf.
  revert Hf. zcase. intros [_ ?]. lia.
Qed.

(** ** Reading *)
Definition no_current s : Prop := currentFrame s = None ∧ ¬ covered (queue (frameQueue s)) (readPos (frameQueue s)).

Lemma filter_pop ops' : filter is_push (ops' ++ [OpPop]) = filter is_push ops'.
Proof. rewrite filter_app, filter_cons, filter_nil. rewrite decide_False by auto. apply app_nil_r. Qed.

(** Popping from the sorter, seen from the stream: the next frame, or nothing. *)
Lemma dequeue_pop s ops' out rel :
  delivered ops' (frameQueue s) out rel →
  ∃ q d cb, Pop (frameQueue s) = Ok (q, readPos (frameQueue s), d, cb) ∧
    delivered (ops' ++ [OpPop]) q (out ++ default [] d) (rel ++ invoke cb) ∧
    readPos q = readPos (frameQueue s) + len (default [] d) ∧
    (d = None ∧ cb = None ∧ ¬ covered (queue q) (readPos q) ∨ default [] d ≠ [] ∧ is_Some d).
Proof.
  intros Hd. pose proof (Pop_spec (frameQueue s) (del_inv _ _ _ _ Hd)) as Hp.
  destruct (queue (frameQueue s) !! readPos (frameQueue s)) as [e|] eqn:He.
  - destruct Hp as (-> & Hinv & Hlen). eexists _, _, _. split; [done|].
    split; [by apply delivered_pop|]. split; [done|]. right. split; [|eauto]. simpl.
    intros Hnil. unfold entry_len in Hlen. by rewrite Hnil in Hlen.
  - destruct Hp as [-> Hnc]. eexists _, _, _. split; [done|]. simpl. rewrite !app_nil_r.
    split; [by apply delivered_idle|]. split; [by rewrite Z.add_0_r|]. by left.
Qed.

Lemma dequeue_core s ops rd released fin :
  core s ops rd released fin → rest s = [] → ¬ ended s →
  returns (dequeueNextFrame s) (λ '(s', c), core s' ops rd (released ++ c) fin ∧ same_rest s s' ∧
    readPosInFrame s' = 0 ∧ (currentFrame s' = None → currentFrameDone s' = None) ∧
    (currentFrameIsLast s' = false → readPos (frameQueue s') < finalOffset s') ∧
    (no_current s' ∨ default [] (currentFrame s') ≠ [] ∧ is_Some (currentFrame s'))).
Proof.
  intros Hc Hr He. destruct Hc as [Hflow (ops' & out & rel & Hops & Hd & Hout & Hrel) Hpos Hends Hh Hfin Hlast Hdone Hca Hst Hsd Hrd Hf Hff].
  destruct (dequeue_pop s ops' out rel Hd) as (q & d & cb & Hpop & Hd' & Hq & Hnext).
  unfold dequeueNextFrame. rewrite Hpop. cbn [mbind result_bind returns]. rewrite <-Hq.
  assert (held s = invoke (currentFrameDone s)) as Hheld.
  { unfold held. destruct (currentFrame s) eqn:Hcur; [done|]. rewrite Hdone; [done|done|].
    apply not_true_iff_false. intros Hl. by apply He. }
  split_and!.
  - split; simpl; try done.
    + exists (ops' ++ [OpPop]), (out ++ default [] d), (rel ++ invoke cb). rewrite filter_pop.
      split_and!; [done..| |].
      * unfold rest. simpl. by rewrite Hout, Hr, app_nil_r, drop_0.
      * rewrite Hrel, Hheld. unfold held. simpl. rewrite <-!app_assoc. f_equiv. f_equiv.
        destruct Hnext as [(-> & -> & _)|[_ [? ->]]]; done.
    + split; [done|]. left. len_lia.
    + apply Z.leb_le.
    + intros Hn _. destruct Hnext as [(_ & ? & _)|[_ [? Hs]]]; [done|congruence].
    + intros Hb. left. destruct (Hca Hb); [done|by destruct He].
    + intros Her. right. destruct (Hrd Her); [by destruct He|done].
  - by split.
  - done.
  - simpl. intros Hn. destruct Hnext as [(_ & ? & _)|[_ [? Hs]]]; [done|congruence].
  - simpl. apply Z.leb_gt.
  - simpl. destruct Hnext as [(-> & _ & ?)|Hn]; [by left|by right].
Qed.

(** The bytes that are copied come from the rest of the frame. *)
Lemma take_drop_len {A} (l : list A) m : take m l ++ drop (Z.to_nat (len (take m l))) l = l.
Proof.
  unfold len. rewrite Nat2Z.id, length_take. destruct (decide (m ≤ length l)%nat).
  - rewrite Nat.min_l by lia. apply take_drop.
  - rewrite Nat.min_r, take_ge, drop_ge by lia. apply app_nil_r.
Qed.

Lemma bytesWereRead_core s n ops rd released fin s' hs hc :
  core s ops rd released fin → bytesWereRead s n = (s', (hs, hc)) →
  core s' ops rd released fin ∧ same_rest s s' ∧ currentFrame s' = currentFrame s ∧
  currentFrameDone s' = currentFrameDone s ∧ currentFrameIsLast s' = currentFrameIsLast s ∧
  frameQueue s' = frameQueue s ∧ readPosInFrame s' = readPosInFrame s.
Proof.
  intros Hc. unfold bytesWereRead. destruct (cancelledRemotely s); simpl; [by intros [= <- _ _]|].
  pose proof (flow_read (flowController s) n (core_flow _ _ _ _ _ Hc)) as (Hok & Hhigh & Hfin).
  destruct (AddBytesRead_ (flowController s) n) as [fc [hs' hc']]. simpl in Hok, Hhigh, Hfin.
  intros [= <- <- <-]. assert (core (set_flowController s fc) ops rd released fin) as Hc'.
  { destruct Hc. split; simpl; rewrite ?Hhigh, ?Hfin; try done. }
  destruct hs'; [|done]. split; [|done]. by destruct Hc'.
Qed.

Lemma copyFrame_core s r ops rd released fin s' r' :
  core s ops rd released fin → ¬ ended s ∨ readPosInFrame s = 0 →
  len (got r) ≤ plen r → copyFrame s r = (s', r') →
  ∃ d, got r' = got r ++ d ∧ plen r' = plen r ∧ rest s = d ++ rest s' ∧ len (got r') ≤ plen r ∧
    (rest s' = [] ∨ len (got r') = plen r) ∧
    core s' ops (rd ++ d) released fin ∧ same_rest s s' ∧
    currentFrame s' = currentFrame s ∧ currentFrameDone s' = currentFrameDone s ∧
    currentFrameIsLast s' = currentFrameIsLast s ∧ frameQueue s' = frameQueue s ∧
    (len (default [] (currentFrame s)) <= readPosInFrame s' ↔ rest s' = []).
Proof.
  intros Hc Hne Hl. unfold copyFrame. set (d := take _ _). fold (rest s) in d.
  set (s1 := set_readPosInFrame s (readPosInFrame s + len d)).
  assert (0 ≤ readPosInFrame s ≤ len (default [] (currentFrame s))) as Hpos.
  { destruct (core_pos _ _ _ _ _ Hc) as [? [?|He]]; [lia|]. destruct Hne as [|E]; [done|]. rewrite E. len_lia. }
  assert (rest s = d ++ rest s1) as Hrest.
  { unfold s1, rest at 2. simpl. rewrite Z2Nat.inj_add by len_lia. rewrite <-drop_drop. symmetry. apply take_drop_len. }
  assert (len (rest s) = len (default [] (currentFrame s)) - readPosInFrame s) as Hlen by (by apply len_drop).
  assert (len d = Z.min (plen r - len (got r)) (len (rest s))) as Hd.
  { unfold d, len. rewrite length_take. unfold len in Hl. lia. }
  assert (len (rest s) = len d + len (rest s1)) as Hlen1 by (rewrite Hrest at 1; apply len_app).
  assert (core s1 ops (rd ++ d) released fin) as Hc1.
  { destruct Hc as [? (ops' & out & rel & Hops & Hdel & Hout & Hrel)]. split; try done; simpl.
    - exists ops', out, rel. by rewrite <-app_assoc, <-Hrest.
    - len_lia. }
  destruct (bytesWereRead s1 (len d)) as [s2 [hs hc]] eqn:Hb.
  destruct (bytesWereRead_core _ _ _ _ _ _ _ _ _ Hc1 Hb) as (Hc2 & Hs & E1 & E2 & E3 & E4 & E5).
  intros [= <- <-]. exists d. simpl. assert (rest s2 = rest s1) as -> by (unfold rest; by rewrite E1, E5).
  split_and!; try done; try congruence.
  - len_lia.
  - destruct (decide (plen r - len (got r) ≤ len (rest s))); [right; len_lia|left; apply len_0_nil; lia].
  - by destruct Hs.
  - rewrite E5. simpl. split; [intros; apply len_0_nil; len_lia|]. intros Hn. rewrite Hn in Hlen1. len_lia.
Qed.

(** What the reader waits for. *)
Record waits s : Prop := {
  waits_current : no_current s;
  waits_last : currentFrameIsLast s = false;
  waits_final : readPos (frameQueue s) < finalOffset s;
  waits_shutdown : closeForShutdownErr s = None;
  waits_cancel : cancelledBy s = false;
}.

(** The result of [readImpl] in a state with [rd] read before the call. *)
Definition read_post s ops rd rel0 fin (n : Z) (m : receiveStream FC * list Z * read_result) : Prop :=
  let '(s', called, result) := m in
  same_rest s s' ∧
  match result with
  | ReadBlocked r => core s' ops rd (rel0 ++ called) fin ∧ waits s' ∧ got r = [] ∧ plen r = n ∧ 0 < n
  | ReadReturned r k err =>
      core s' ops (rd ++ got r) (rel0 ++ called) fin ∧ k = len (got r) ∧ k ≤ n ∧
      (err = Some io_EOF → ended s' ∧ errorRead s' = true) ∧ (err = None → 0 < n → 0 < k)
  end.

Lemma core_error s ops rd released fin :
  core s ops rd released fin → cancelledBy s = true → core (set_errorRead s true) ops rd released fin.
Proof. intros [] Hca. split; try done. intros _. by right. Qed.

Lemma post_returned s s' ops rd rel0 called fin n r err :
  core s' ops (rd ++ got r) (rel0 ++ called) fin → same_rest s s' → len (got r) ≤ n →
  err ≠ Some io_EOF → (err = None → 0 < len (got r)) →
  read_post s ops rd rel0 fin n (s', called, ReadReturned r (len (got r)) err).
Proof. intros. split; [done|]. split_and!; try done; auto. Qed.

(** The inner loop stops, or there is a frame to read from. *)
Lemma waitForFrame_spec s s1 ops rd rel0 called fin now r :
  same_rest s s1 → core s1 ops (rd ++ got r) (rel0 ++ called) fin → len (got r) < plen r →
  (cancelledBy s1 = true ∨ currentFrame s1 = None → got r = []) →
  (currentFrame s1 = None → currentFrameIsLast s1 = false →
    no_current s1 ∧ readPos (frameQueue s1) < finalOffset s1) →
  match waitForFrame s1 now r with
  | Some (s', result) => read_post s ops rd rel0 fin (plen r) (s', called, result)
  | None => cancelledBy s1 = false ∧ (currentFrame s1 ≠ None ∨ currentFrameIsLast s1 = true)
  end.
Proof.
  intros Hs Hc Hl Hgot Hnone. unfold waitForFrame.
  case_bool_decide as Hsd; [apply post_returned; try done; [lia|apply (core_shutdown _ _ _ _ _ Hc)]|].
  fold (cancelledBy s1). destruct (cancelledBy s1) eqn:Hca.
  { pose proof (Hgot (or_introl eq_refl)) as Hg. change 0 with (len (@nil byte)). rewrite <-Hg.
    apply post_returned; try done; [by apply core_error|by destruct Hs|lia|].
    unfold cancelError. by destruct (cancelErr s1) as [[??]|]. }
  destruct (negb _ && _); [apply post_returned; try done; lia|].
  destruct (bool_decide (currentFrame s1 = None) && _) eqn:Hb.
  - apply andb_true_iff in Hb as [Hcur%bool_decide_eq_true Hlast%negb_true_iff].
    destruct (Hnone Hcur Hlast) as [Hn Hf]. split; [done|]. pose proof (Hgot (or_intror Hcur)) as Hg.
    rewrite Hg in Hl, Hc. rewrite app_nil_r in Hc. by split_and!.
  - split; [done|]. apply andb_false_iff in Hb as [?%bool_decide_eq_false|?%negb_false_iff]; auto.
Qed.

(** A frame that ends the stream was read. *)
Lemma core_end s ops rd released fin :
  core s ops rd released fin → currentFrameIsLast s = true → rest s = [] → currentFrame s ≠ None ∨ currentFrameDone s = None →
  core (set_errorRead (set_currentFrame s None) true) ops rd (released ++ invoke (currentFrameDone s)) fin.
Proof.
  intros [? (ops' & out & rel & Hops & Hdel & Hout & Hrel) [? ?]] Hl Hr Hd. split; try done; simpl; try (by intros; right).
  - exists ops', out, rel. split_and!; try done.
    + unfold rest in *. simpl. rewrite Hr in Hout. by rewrite drop_nil.
    + rewrite Hrel. unfold held. simpl. rewrite app_nil_r. f_equiv. destruct (currentFrame s); [done|].
      by destruct Hd as [| ->].
  - split; [done|]. by right.
  - by rewrite Hl.
  - by intros _; left.
Qed.

(** The frame to read from, after the test at the start of an iteration. *)
Lemma next_frame s ops rd released fin woken :
  core s ops rd released fin → ¬ ended s → (woken = true → currentFrame s = None) →
  let needsFrame := bool_decide (currentFrame s = None) ||
    negb woken && (len (default [] (currentFrame s)) <=? readPosInFrame s) in
  returns (if needsFrame then dequeueNextFrame s else Ok (s, [])) (λ '(s', c),
    core s' ops rd (released ++ c) fin ∧ same_rest s s' ∧
    (currentFrame s' = None → readPosInFrame s' = 0 ∧ currentFrameDone s' = None ∧
      no_current s' ∧ (currentFrameIsLast s' = false → readPos (frameQueue s') < finalOffset s')) ∧
    (currentFrame s' ≠ None → rest s' ≠ [])).
Proof.
  intros Hc He Hw needsFrame. destruct needsFrame eqn:Hn; unfold needsFrame in Hn.
  - assert (rest s = []) as Hr.
    { unfold rest. apply orb_true_iff in Hn as [->%bool_decide_eq_true|[_ Hp%Z.leb_le]%andb_true_iff].
      - apply drop_nil.
      - apply drop_ge. unfold len in Hp. lia. }
    eapply returns_mono; [by apply (dequeue_core s ops rd released fin)|].
    intros [s' c] (Hc' & Hs & Hp & Hd & Hl & Hcur). split_and!; try done.
    + intros Hnone. split_and!; auto. destruct Hcur as [|[_ [? ?]]]; [done|congruence].
    + intros Hsome. destruct Hcur as [[? _]|[Hne _]]; [done|]. unfold rest. by rewrite Hp.
  - simpl. rewrite app_nil_r. apply orb_false_iff in Hn as [Hcur%bool_decide_eq_false Hlen].
    split_and!; try done.
    intros _ Hr. apply (f_equal len) in Hr. destruct woken; [by destruct (Hcur (Hw eq_refl))|].
    apply Z.leb_gt in Hlen. pose proof (core_pos _ _ _ _ _ Hc) as [? _].
    unfold rest in Hr. rewrite len_drop in Hr by lia. change (len []) with 0 in Hr. lia.
Qed.

(** The second half of an iteration: bytes are copied. *)
Lemma read_copy next s0 s1 ops rd rel0 called fin r :
  same_rest s0 s1 → core s1 ops (rd ++ got r) (rel0 ++ called) fin → cancelledBy s1 = false →
  len (got r) < plen r → (currentFrame s1 ≠ None ∨ currentFrameIsLast s1 = true) →
  (currentFrame s1 = None → readPosInFrame s1 = 0 ∧ currentFrameDone s1 = None ∧
      no_current s1 ∧ (currentFrameIsLast s1 = false → readPos (frameQueue s1) < finalOffset s1)) →
  (currentFrame s1 ≠ None → rest s1 ≠ []) →
  (∀ s' r' called', same_rest s0 s' → core s' ops (rd ++ got r') (rel0 ++ called') fin → ¬ ended s' →
    cancelledBy s' = false → plen r' = plen r → len (got r) < len (got r') ≤ plen r →
    returns (next s' r' called') (read_post s0 ops rd rel0 fin (plen r))) →
  returns (readFrame next s1 r called) (read_post s0 ops rd rel0 fin (plen r)).
Proof.
  intros Hs01 Hc1 Hnc Hlt Hcur Hnone Hsome Hnext. unfold readFrame. set (frame := default [] (currentFrame s1)).
  assert (¬ ended s1 ∨ readPosInFrame s1 = 0) as Hend.
  { destruct (currentFrame s1) eqn:E; [left; intros [_ ?]; congruence|right]. by apply Hnone. }
  zcase. destruct (Z.ltb_spec (len frame) (readPosInFrame s1)) as [Hbug|_].
  { exfalso. unfold frame in Hbug. destruct (core_pos _ _ _ _ _ Hc1) as [? [?|?]]; [lia|]. destruct Hend as [|Hz]; [done|]. len_lia. }
  destruct (copyFrame s1 r) as [s2 r2] eqn:Hcopy.
  destruct (copyFrame_core _ _ _ _ _ _ _ _ Hc1 Hend (Z.lt_le_incl _ _ Hlt) Hcopy)
    as (d & Hg & Hp & Hrest & Hle & Hfull & Hc2 & Hs2 & E1 & E2 & E3 & E4 & Hiff).
  rewrite <-app_assoc, <-Hg in Hc2. assert (same_rest s0 s2) as Hs02 by (by eapply recv_same_rest_trans).
  unfold atEnd. rewrite E1. fold frame. destruct (_ && currentFrameIsLast s2) eqn:Hat.
  - apply andb_true_iff in Hat as [Hr%Z.leb_le%Hiff Hlast]. split; [by destruct Hs02|].
    split_and!; try done. rewrite app_assoc. apply core_end; try done.
    rewrite E1, E2. destruct (currentFrame s1); [by left|right]. by apply Hnone.
  - assert (currentFrame s1 ≠ None) as Hc1'.
    { intros Hn. destruct Hcur as [|Hlast]; [done|]. rewrite E3, Hlast, andb_true_r in Hat.
      apply Z.leb_gt in Hat. apply (Z.lt_irrefl (len frame)). unfold frame in *. rewrite Hn in *.
      assert (rest s2 = []) as Hr2; [|apply Hiff in Hr2; lia]. by apply rest_none. }
    apply Hnext; try done.
    + intros [_ ?]. congruence.
    + unfold cancelledBy. rewrite (same_remotely _ _ Hs2), (same_locally _ _ Hs2). done.
    + split; [|done]. rewrite Hg, len_app. assert (d ≠ []) as Hd%len_pos; [|lia].
      intros ->. rewrite app_nil_r in Hg. rewrite Hg in Hfull. destruct Hfull as [Hr|]; [|lia].
      apply Hsome; [done|]. by rewrite Hrest, Hr.
Qed.

Lemma readIteration_spec next s0 s ops rd rel0 called fin now r woken :
  same_rest s0 s → core s ops (rd ++ got r) (rel0 ++ called) fin → ¬ ended s → len (got r) ≤ plen r →
  (woken = true → currentFrame s = None ∧ got r = [] ∧ 0 < plen r) →
  (cancelledBy s = true → got r = []) →
  (∀ s' r' called', same_rest s0 s' → core s' ops (rd ++ got r') (rel0 ++ called') fin → ¬ ended s' →
    cancelledBy s' = false → plen r' = plen r → len (got r) < len (got r') ≤ plen r →
    returns (next s' r' called') (read_post s0 ops rd rel0 fin (plen r))) →
  returns (readIteration next s now r called woken) (read_post s0 ops rd rel0 fin (plen r)).
Proof.
  intros Hs0 Hc He Hl Hw Hca Hnext. unfold readIteration.
  destruct (negb woken && negb _) eqn:Hfull.
  { apply andb_true_iff in Hfull as [_ Hlen%negb_true_iff%Z.ltb_ge]. split; [done|].
    split_and!; try done. intros. lia. }
  pose proof (next_frame s ops (rd ++ got r) (rel0 ++ called) fin woken Hc He ltac:(by intros [? _]%Hw)) as Hn.
  cbv zeta in Hn. apply returns_iff in Hn as ([s1 c] & -> & Hc1 & Hs1 & Hnone & Hsome). cbn [mbind result_bind].
  rewrite <-app_assoc in Hc1. assert (same_rest s0 s1) as Hs01 by (by eapply recv_same_rest_trans).
  assert (cancelledBy s1 = cancelledBy s) as Hcb by (unfold cancelledBy; by destruct Hs1 as [? ? ? ? -> -> ? ? ? ?]).
  destruct (negb woken && _ && _) eqn:Hearly.
  { apply andb_true_iff in Hearly as [_ Hpos%Z.ltb_lt].
    apply post_returned; try done; apply (core_shutdown _ _ _ _ _ Hc1). }
  assert (currentFrame s1 = None → got r = []) as Hgot.
  { intros Hn1. rewrite Hn1 in Hearly. destruct woken; [by destruct (Hw eq_refl) as (_&?&_)|]. by apply len_ltb. }
  assert (len (got r) < plen r) as Hlt.
  { destruct woken; [destruct (Hw eq_refl) as (_&->&?); done|]. by apply negb_false_iff, Z.ltb_lt in Hfull. }
  pose proof (waitForFrame_spec s0 s1 ops rd rel0 (called ++ c) fin now r Hs01 Hc1 Hlt) as Hwait.
  assert (match waitForFrame s1 now r with
    | Some (s', result) => read_post s0 ops rd rel0 fin (plen r) (s', called ++ c, result)
    | None => cancelledBy s1 = false ∧ (currentFrame s1 ≠ None ∨ currentFrameIsLast s1 = true) end) as Hwait'.
  { apply Hwait; [|intros Hn1 Hl1; by destruct (Hnone Hn1) as (?&?&?&?); auto].
    intros [Hb|Hn1]; [apply Hca; congruence|auto]. }
  destruct (waitForFrame s1 now r) as [[s' result]|]; [done|]. destruct Hwait' as [Hnc Hcur].
  by apply (read_copy next s0 s1 ops rd rel0 (called ++ c) fin r).
Qed.

(** The loop has enough fuel and gives a result. *)
Lemma readLoop_spec fuel s0 s ops rd rel0 called fin now r woken :
  same_rest s0 s → core s ops (rd ++ got r) (rel0 ++ called) fin → ¬ ended s → len (got r) ≤ plen r →
  (woken = true → currentFrame s = None ∧ got r = [] ∧ 0 < plen r) →
  (cancelledBy s = true → got r = []) → (readFuel r ≤ fuel)%nat →
  returns (readLoop fuel s now r called woken) (read_post s0 ops rd rel0 fin (plen r)).
Proof.
  revert s called r woken. induction fuel as [|fuel IH]; intros s called r woken Hs0 Hc He Hl Hw Hca Hfuel;
    unfold readFuel in Hfuel; apply readIteration_spec; try done;
    intros s' r' called' Hs' Hc' He' Hnc Hp Hlen; [lia|].
  rewrite <-Hp. apply IH; try done; [lia|congruence|]. unfold readFuel. lia.
Qed.

Lemma readImpl_spec s ops rd released fin now n :
  core s ops rd released fin → 0 ≤ n → returns (readImpl s now n) (read_post s ops rd released fin n).
Proof.
  intros Hc Hn. unfold readImpl. set (r := mkReading n [] false false).
  destruct (currentFrameIsLast s && _) eqn:He.
  { apply andb_true_iff in He as [Hl Hcur%bool_decide_eq_true]. split; [done|]. simpl. rewrite !app_nil_r.
    split_and!; try done. destruct Hc. split; try done. by intros _; left. }
  assert (¬ ended s) as Hne.
  { intros [Hl Hcur]. rewrite Hl, Hcur in He. done. }
  fold (cancelledBy s). destruct (cancelledBy s) eqn:Hca.
  { apply (post_returned s (set_errorRead s true) ops rd released [] fin n r); try done.
    - simpl. rewrite !app_nil_r. by apply core_error.
    - unfold cancelError. by destruct (cancelErr s) as [[??]|]. }
  destruct (closeForShutdownErr s) as [e|] eqn:Hsd.
  - apply (post_returned s s ops rd released [] fin n r (Some e)); try done.
    + simpl. by rewrite !app_nil_r.
    + rewrite <-Hsd. apply (core_shutdown _ _ _ _ _ Hc).
  - apply readLoop_spec; try done. simpl. by rewrite !app_nil_r.
Qed.
End invariant.
End ReceiveStream.
