(* ===== verification/ReceiveSystem.v ===== *)
(** * A receiving stream and its users (receive_stream.go)

    The application, the peer and the framer call the methods of a stream in any order.
    [step] performs one call and keeps the books: the frames that arrived, the bytes that
    the application read, the buffers that were returned to the pool, the final size and
    a [Read] that waits.  A step that returns an error closes the connection. *)

From S2P Require Import Prelude Protocol ControlFrames DataFrames FrameSorter RTTStats FlowControl SendStream ReceiveStream.

Import ReceiveStream.

Module ReceiveRuns.
Section system.
Context {FC : Type} `{!ReceiveFlowController FC, !ReceiveFlowLaws FC}.

Record sys := mkSys {
  str : receiveStream FC;
  pending : option reading;
  ops : list sorter_op;
  rd : list byte;
  released : list Z;
  fin : option Z;
  ignored : list Z;   (* buffers of frames that arrived after [CancelRead] *)
}.

Implicit Types (y : sys) (s : receiveStream FC).

(** [done] is the name of the callback that returns the buffer of the frame. *)
Inductive call :=
| CRead (now n : Z)
| CResume (now : Z) (signalled : bool)
| CFrame (f : StreamFrame.t) (done now : Z)
| CReset (f : ResetStreamFrame.t) (now : Z)
| CCancelRead (errorCode : Z)
| CControl (now : Z)
| CDeadline (t : Z)
| CShutdown (err : error).

(** What the callers guarantee: frames come from the parser and the windows are below the
    largest offset; the connection is not closed with [io.EOF]. *)
Definition allowed (c : call) : Prop :=
  match c with
  | CRead _ n => 0 ≤ n
  | CFrame f _ _ => 0 ≤ StreamFrame.Offset f ∧ StreamFrame.Offset f + StreamFrame.DataLen f < MaxByteCount
  | CReset f _ => 0 ≤ ResetStreamFrame.FinalSize f < MaxByteCount
  | CShutdown err => err ≠ io_EOF
  | _ => True
  end.

(** What a call of [Read] returned: the bytes and the error. *)
Abbreviation output := (list byte * option error)%type.

Definition with_str y s : sys := mkSys s (pending y) (ops y) (rd y) (released y) (fin y) (ignored y).

Definition readDone y (m : receiveStream FC * list Z * list stream_event * read_result)
  : sys * list stream_event * option output :=
  let '(s, called, evs, result) := m in
  match result with
  | ReadBlocked r => (mkSys s (Some r) (ops y) (rd y) (released y ++ called) (fin y) (ignored y), evs, None)
  | ReadReturned r n err =>
      let d := take (Z.to_nat n) (got r) in
      (mkSys s None (ops y) (rd y ++ d) (released y ++ called) (fin y) (ignored y), evs, Some (d, err))
  end.

Definition step y (c : call) : res (sys * list stream_event * option output) :=
  let s := str y in
  match c with
  | CRead now n =>
      match pending y with
      | Some _ => Ok (y, [], None)
      | None => m ← Read s now n; Ok (readDone y m)
      end
  | CResume now signalled =>
      match pending y with
      | None => Ok (y, [], None)
      | Some r => m ← Read_resume s now r signalled; Ok (readDone y m)
      end
  | CFrame f done now =>
      '(s', called, evs, err) ← handleStreamFrame s f done now;
      match err with
      | Some e => Err e
      | None =>
          Ok (mkSys s' (pending y)
                (ops y ++ if cancelledLocally s then []
                          else [OpPush (StreamFrame.Data f) (StreamFrame.Offset f) (Some done)])
                (rd y) (released y ++ called)
                (if StreamFrame.Fin f then Some (StreamFrame.Offset f + StreamFrame.DataLen f) else fin y)
                (ignored y ++ if cancelledLocally s then [done] else []), evs, None)
      end
  | CReset f now =>
      let '(s, evs, err) := handleResetStreamFrame s f now in
      match err with Some e => Err e | None => Ok (with_str y s, evs, None) end
  | CCancelRead errorCode => let '(s, evs) := CancelRead s errorCode in Ok (with_str y s, evs, None)
  | CControl now => '(s, _, _) ← getControlFrame s now; Ok (with_str y s, [], None)
  | CDeadline t => Ok (with_str y (SetReadDeadline s t), [], None)
  | CShutdown err => Ok (with_str y (closeForShutdown s err), [], None)
  end.

Definition start (streamID : Z) (fc : FC) : sys := mkSys (newReceiveStream streamID fc) None [] [] [] None [].

Fixpoint run y (cs : list call) : res (sys * list stream_event * list output) :=
  match cs with
  | [] => Ok (y, [], [])
  | c :: cs =>
      '(y, evs, o) ← step y c;
      '(y, evs', os) ← run y cs;
      Ok (y, evs ++ evs', option_list o ++ os)
  end.

(** ** The invariant *)
Record inv y : Prop := {
  inv_core : core (str y) (ops y) (rd y) (released y) (fin y);
  inv_pending : ∀ r, pending y = Some r → got r = [] ∧ 0 < plen r ∧
    currentFrame (str y) = None ∧ currentFrameIsLast (str y) = false ∧
    (readChan (str y) = false → waits (str y));
}.

Definition flag s : Z := if completed s then 1 else 0.

Definition kept y (r : sys * list stream_event * option output) : Prop :=
  let '(y', evs, _) := r in inv y' ∧ flag (str y') = flag (str y) + completions evs.

(** The invariant of the stream does not see the flags [completed] and [readChan]. *)
Lemma core_eq s s' o d rel fi :
  core s o d rel fi → flow_ok (flowController s') →
  flow_highest (flowController s') = flow_highest (flowController s) →
  flow_final (flowController s') = flow_final (flowController s) →
  frameQueue s' = frameQueue s → currentFrame s' = currentFrame s → currentFrameDone s' = currentFrameDone s →
  readPosInFrame s' = readPosInFrame s → currentFrameIsLast s' = currentFrameIsLast s →
  finalOffset s' = finalOffset s → errorRead s' = errorRead s → cancelledRemotely s' = cancelledRemotely s →
  cancelledLocally s' = cancelledLocally s → cancelErr s' = cancelErr s →
  (queuedStopSending s' = true → queuedStopSending s = true) → closeForShutdownErr s' ≠ Some io_EOF →
  core s' o d rel fi.
Proof.
  intros [] Hok Eh Ef Eq Ec Ed Ep El Efo Ee Er Elo Ece Hst Hsd.
  split; unfold rest, held, ended, cancelledBy in *;
    rewrite ?Eh, ?Ef, ?Eq, ?Ec, ?Ed, ?Ep, ?El, ?Efo, ?Ee, ?Er, ?Elo, ?Ece; try done. auto.
Qed.

Lemma recv_isNewlyCompleted_spec s s' c o d rel fi :
  isNewlyCompleted s = (s', c) → core s o d rel fi →
  core s' o d rel fi ∧ same_rest s (set_completed s' (completed s)) ∧ flag s' = flag s + (if c then 1 else 0) ∧
  flowController s' = flowController s ∧ currentFrame s' = currentFrame s ∧ frameQueue s' = frameQueue s ∧
  currentFrameIsLast s' = currentFrameIsLast s.
Proof.
  intros Hn Hc. assert (s' = s ∧ c = false ∨ s' = set_completed s true ∧ c = true ∧ completed s = false) as Hcase.
  { unfold isNewlyCompleted in Hn. repeat case_match; simplify_eq; auto. }
  destruct Hcase as [[-> ->]|(-> & -> & Hcom)].
  - split_and!; try done. lia.
  - unfold flag. simpl. rewrite Hcom. split_and!; try done. eapply core_eq; try done; apply Hc.
Qed.

Lemma waits_eq s s' :
  waits s → frameQueue s' = frameQueue s → currentFrame s' = currentFrame s →
  currentFrameIsLast s' = currentFrameIsLast s → finalOffset s' = finalOffset s →
  closeForShutdownErr s' = closeForShutdownErr s → cancelledRemotely s' = cancelledRemotely s →
  cancelledLocally s' = cancelledLocally s → waits s'.
Proof.
  intros [] Eq Ec El Ef Es Er Elo. split; unfold no_current, cancelledBy in *; rewrite ?Eq, ?Ec, ?El, ?Ef, ?Es, ?Er, ?Elo; done.
Qed.

(** ** The calls preserve it *)
Lemma kept_read y s0 m n :
  read_post s0 (ops y) (rd y) (released y) (fin y) n m → completed s0 = completed (str y) →
  kept y (readDone y (finishRead m)).
Proof.
  destruct m as [[s' called] result]. intros [Hs Hr] Hcom.
  assert (flag s' = flag (str y)) as Hf by (unfold flag; by rewrite (same_completed _ _ Hs), Hcom).
  destruct result as [r|r k err]; simpl.
  - destruct Hr as (Hc & Hw & Hg & Hp & Hn). split; [|simpl; rewrite Hf; by rewrite Z.add_0_r].
    split; [done|]. simpl. intros ? [= <-]. split_and!; try done; [lia|by destruct Hw as [[? _] _ _ _ _]|by destruct Hw].
  - destruct Hr as (Hc & -> & Hk & _). destruct (isNewlyCompleted s') as [s2 c] eqn:Hn.
    destruct (recv_isNewlyCompleted_spec _ _ _ _ _ _ _ Hn Hc) as (Hc2 & _ & Hf2 & _). simpl.
    rewrite take_ge by (unfold len; lia). split; [split; [done|by intros ? [=]]|].
    simpl. rewrite Hf2, Hf, !completions_app, !completions_if.
    destruct c, (hasStreamWindowUpdate r), (hasConnWindowUpdate r); simpl; lia.
Qed.

Lemma inv_not_ended y r : inv y → pending y = Some r → ¬ ended (str y).
Proof. intros Hi Hp [Hl _]. destruct (inv_pending _ Hi r Hp) as (_&_&_&?&_). congruence. Qed.

Lemma resume_post y r now signalled :
  inv y → pending y = Some r →
  ∃ m s0, Read_resume (str y) now r signalled = Ok (finishRead m) ∧
    read_post s0 (ops y) (rd y) (released y) (fin y) (plen r) m ∧ completed s0 = completed (str y) ∧
    cancelledLocally s0 = cancelledLocally (str y) ∧ finalOffset s0 = finalOffset (str y).
Proof.
  intros Hi Hp. destruct (inv_pending _ Hi r Hp) as (Hg & Hn & Hcur & Hlast & _).
  unfold Read_resume. set (s := if signalled then _ else _).
  assert (core s (ops y) (rd y) (released y) (fin y)) as Hc.
  { unfold s. destruct signalled; [|apply inv_core, Hi]. pose proof (inv_core _ Hi) as Hc. eapply core_eq; try done; apply Hc. }
  assert (currentFrame s = None ∧ currentFrameIsLast s = false ∧ completed s = completed (str y)) as (Hcur' & Hlast' & Hcom).
  { unfold s. by destruct signalled. }
  assert (returns (readLoop (readFuel r) s now r [] true)
    (read_post s (ops y) (rd y) (released y) (fin y) (plen r))) as Hr.
  { apply readLoop_spec; try done.
    - by rewrite Hg, !app_nil_r.
    - intros [? _]. congruence.
    - rewrite Hg. change (len []) with 0. lia. }
  apply returns_iff in Hr as (m & -> & Hm). exists m, s. split_and!; try done; unfold s; by destruct signalled.
Qed.

Lemma recv_kept_resume y r now signalled :
  inv y → pending y = Some r → returns (m ← Read_resume (str y) now r signalled; Ok (readDone y m)) (kept y).
Proof.
  intros Hi Hp. destruct (resume_post y r now signalled Hi Hp) as (m & s0 & -> & Hm & Hcom & _).
  by apply (kept_read y s0 m (plen r)).
Qed.

(** Flow control accepts an offset, and perhaps learns that it is the final one. *)
Lemma update_core s o d rel fi fi' off (final : bool) now fc :
  core s o d rel fi → 0 ≤ off < MaxByteCount →
  UpdateHighestReceived_ (flowController s) off final now = (fc, None) →
  fi' = (if final then Some off else fi) ∨ fi' = fi ∧ cancelledBy s = true →
  let s1 := set_flowController s fc in
  core (if final then set_finalOffset s1 off else s1) o d rel fi' ∧ off ≤ flow_highest fc.
Proof.
  intros Hc Hoff Hu Hfi s1. pose proof (last_complete _ _ _ _ _ Hc) as Hlc.
  destruct Hc as [Hok Hsort Hpos Hops Hh Hfin Hlast Hdone Hca Hst Hsd Hrd Hf Hff].
  destruct (flow_receive _ _ _ _ _ Hok Hu) as (Hok' & Hh' & Hfin' & Hle & Heq).
  assert (finalOffset s ≠ MaxByteCount → flow_final (flowController s) = true ∧ flow_highest fc = finalOffset s) as Hknown.
  { intros Hk. revert Hfin. zcase. intros [Hf1 Hf2]. split; [done|]. specialize (Hle Hf1). lia. }
  assert (final = true → finalOffset s ≠ MaxByteCount → finalOffset s = off) as Hsame.
  { intros Hf1 [_ Hk]%Hknown. rewrite <-Hk. by apply Heq. }
  split; [|lia]. destruct final.
  - split; simpl; try done.
    + eapply Forall_impl; [done|]. simpl. intros op Hop. lia.
    + lia.
    + zcase. rewrite Hfin', orb_true_r. split; [done|]. by apply Heq.
    + intros Hl. destruct (Hlc Hl) as [Hk Hp]. rewrite <-(Hsame eq_refl Hk). lia.
    + intros Hb _. destruct Hfi as [->|[_ Hb']]; [done|]. unfold cancelledBy in *. simpl in Hb. congruence.
    + intros n Hn. destruct Hfi as [->|[-> _]]; [simplify_eq; split; [done|lia]|].
      destruct (Hff n Hn) as [Hk Hm]. rewrite <-Hk in Hm. split; [by rewrite <-(Hsame eq_refl Hm)|congruence].
  - assert (fi' = fi) as -> by tauto. split; simpl; try done.
    + eapply Forall_impl; [done|]. simpl. intros op Hop. lia.
    + lia.
    + rewrite Hfin', orb_false_r. destruct (Z.eqb_spec (finalOffset s) MaxByteCount); [done|by apply Hknown].
Qed.

(** The frame goes to the sorter. *)
Lemma push_core s o d rel fi data off done :
  core s o d rel fi → 0 ≤ off → off + len data < MaxByteCount → off + len data ≤ flow_highest (flowController s) →
  wp (Push (frameQueue s) data off (Some done)) (λ '(q, called, err), err = None →
    core (set_frameQueue s q) (o ++ [OpPush data off (Some done)]) d (rel ++ called) fi).
Proof.
  intros Hc Hoff Hmax Hhigh. destruct Hc as [Hok (ops' & out & r & Hops & Hd & Hout & Hr) Hpos Hends Hh Hfin Hlast Hdone Hca Hst Hsd Hrd Hf Hff].
  destruct (Push_spec (frameQueue s) data off (Some done) (del_inv _ _ _ _ Hd) Hoff Hmax)
    as [(q & called & -> & Hp)|(q & called & -> & _)]; [|done].
  intros _. pose proof (pushed_pos _ _ _ _ _ _ Hp) as Eq. split; simpl; try done.
  - exists (ops' ++ [OpPush data off (Some done)]), out, (r ++ called).
    rewrite filter_app, filter_cons, filter_nil, decide_True by done. rewrite Hops.
    split_and!; [done|by eapply delivered_push|done|]. rewrite Hr, <-!app_assoc. f_equiv. apply Permutation_app_comm.
  - apply Forall_app. split; [done|]. by apply Forall_singleton.
  - by rewrite Eq.
Qed.

(** The test for completion. *)
Lemma complete_inv y s1 s2 c o rel fi ig :
  inv y → core s1 o (rd y) rel fi → completed s1 = completed (str y) → isNewlyCompleted s1 = (s2, c) →
  (∀ r, pending y = Some r → currentFrame s1 = None ∧ currentFrameIsLast s1 = false ∧
    (readChan s1 = false → waits s1)) →
  inv (mkSys s2 (pending y) o (rd y) rel fi ig) ∧ flag s2 = flag (str y) + (if c then 1 else 0).
Proof.
  intros Hi Hc Hcom Hn Hp. destruct (recv_isNewlyCompleted_spec _ _ _ _ _ _ _ Hn Hc) as (Hc2 & Hs & Hf & _ & E1 & E2 & E3).
  split; [|unfold flag in *; by rewrite Hf, Hcom]. split; [done|]. simpl. intros r Hr.
  destruct (inv_pending _ Hi r Hr) as (Hg & Hpl & _). destruct (Hp r Hr) as (Hcur & Hl & Hw).
  destruct Hs as [_ G1 _ _ G2 G3 _ G4 G5 _]. simpl in *. split_and!; try done; try congruence. intros Hch.
  apply (waits_eq s1); try congruence. apply Hw. congruence.
Qed.

(** The data of the stream is abandoned. *)
Lemma recv_abandon_inv y :
  inv y → inv (with_str y (set_flowController (str y) (Abandon_ (flowController (str y))))).
Proof.
  intros [Hc Hp]. destruct (flow_abandon (flowController (str y)) (core_flow _ _ _ _ _ Hc)) as (?&?&?).
  split; simpl; [eapply core_eq; try done; apply Hc|]. intros r Hr. destruct (Hp r Hr) as (?&?&?&?&Hw).
  split_and!; try done. intros Hch. by apply (waits_eq (str y)); [apply Hw|..].
Qed.

Lemma complete_kept y s1 s2 s3 c evs o rel fi ig :
  inv y → core s1 o (rd y) rel fi → completed s1 = completed (str y) →
  isNewlyCompleted s1 = (s2, c) → abandonCompleted s2 c = (s3, evs) →
  (∀ r, pending y = Some r → currentFrame s1 = None ∧ currentFrameIsLast s1 = false ∧
    (readChan s1 = false → waits s1)) →
  inv (mkSys s3 (pending y) o (rd y) rel fi ig) ∧ flag s3 = flag (str y) + completions evs.
Proof.
  intros Hi Hc Hcom Hn Ha Hp. destruct (complete_inv y s1 s2 c o rel fi ig Hi Hc Hcom Hn Hp) as [Hi2 Hf].
  unfold abandonCompleted in Ha. destruct c; simplify_eq.
  - split; [by apply (recv_abandon_inv (mkSys s2 _ _ _ _ _ _))|]. done.
  - by split.
Qed.

Lemma pending_cancelled y r : inv y → pending y = Some r → cancelledBy (str y) = true → readChan (str y) = true.
Proof.
  intros Hi Hp Hca. destruct (inv_pending _ Hi r Hp) as (_&_&_&_&Hw). apply not_false_iff_true.
  intros Hch. destruct (Hw Hch). congruence.
Qed.

(** [handleStreamFrameImpl] *)
Lemma frameImpl_core y f done now :
  inv y → allowed (CFrame f done now) →
  wp (handleStreamFrameImpl (str y) f done now) (λ '(s', called, err), err = None →
    core s' (ops y ++ if cancelledLocally (str y) then []
                      else [OpPush (StreamFrame.Data f) (StreamFrame.Offset f) (Some done)])
      (rd y) (released y ++ called)
      (if StreamFrame.Fin f then Some (StreamFrame.Offset f + StreamFrame.DataLen f) else fin y) ∧
    completed s' = completed (str y) ∧ currentFrame s' = currentFrame (str y) ∧
    currentFrameIsLast s' = currentFrameIsLast (str y) ∧
    (readChan s' = true ∨ readChan s' = readChan (str y) ∧ cancelledLocally (str y) = true)).
Proof.
  intros Hi [Hoff Hmax]. unfold handleStreamFrameImpl. pose proof (inv_core _ Hi) as Hc.
  destruct (UpdateHighestReceived_ _ _ _ _) as [fc [e|]] eqn:Hu; [done|].
  assert (0 ≤ StreamFrame.Offset f + StreamFrame.DataLen f < MaxByteCount) as Hrange.
  { unfold StreamFrame.DataLen in *. len_lia. }
  destruct (update_core _ _ _ _ _ _ _ _ _ _ Hc Hrange Hu (or_introl eq_refl)) as [Hc' Hle].
  set (s2 := if StreamFrame.Fin f then _ else _) in *.
  assert (cancelledLocally s2 = cancelledLocally (str y) ∧ completed s2 = completed (str y) ∧
    currentFrame s2 = currentFrame (str y) ∧ currentFrameIsLast s2 = currentFrameIsLast (str y) ∧
    readChan s2 = readChan (str y) ∧ flowController s2 = fc) as (E1 & E2 & E3 & E4 & E5 & E6).
  { unfold s2. by destruct (StreamFrame.Fin f). }
  clearbody s2. rewrite E1. destruct (cancelledLocally (str y)) eqn:Hca.
  { simpl. intros _. rewrite !app_nil_r. split_and!; try done. by right. }
  apply wp_bind. eapply wp_mono.
  { apply (push_core s2 _ _ _ _ (StreamFrame.Data f) (StreamFrame.Offset f) done Hc'); [done|done|]. by rewrite E6. }
  intros [[q called] err] Hp. destruct err as [e|]; [done|]. simpl. intros _. specialize (Hp eq_refl).
  split_and!; try done; [|by left]. eapply core_eq; try done; apply Hp.
Qed.

Lemma kept_frame y f done now :
  inv y → allowed (CFrame f done now) → wp (step y (CFrame f done now)) (kept y).
Proof.
  intros Hi Ha. simpl. unfold handleStreamFrame. apply wp_bind, wp_bind.
  eapply wp_mono; [by apply frameImpl_core|]. intros [[s1 called] err] Hs1.
  destruct (isNewlyCompleted s1) as [s2 c] eqn:Hn. destruct (abandonCompleted s2 c) as [s3 evs] eqn:Hab. simpl.
  destruct err as [e|]; [done|]. destruct (Hs1 eq_refl) as (Hc & Hcom & Ecur & El & Hch).
  apply (complete_kept y s1 s2 s3 c evs); try done.
  intros r Hr. destruct (inv_pending _ Hi r Hr) as (_&_&Hcur&Hl&_). split_and!; [congruence..|].
  intros Hch1. destruct Hch as [|[Hch2 Hca]]; [congruence|].
  rewrite (pending_cancelled y r Hi Hr) in Hch2; [congruence|]. unfold cancelledBy. rewrite Hca. apply orb_true_r.
Qed.

(** The first RESET_STREAM of a stream. *)
Lemma cancel_remote_core s o d rel fi code :
  core s o d rel fi → core (set_cancelErr (set_cancelledRemotely s true) (Some (code, true))) o d rel fi.
Proof. intros []. split; simpl; try done; [by left|]. intros _. by right. Qed.

Lemma resetImpl_core y f now s' :
  inv y → allowed (CReset f now) → handleResetStreamFrameImpl (str y) f now = (s', None) →
  core s' (ops y) (rd y) (released y) (fin y) ∧ completed s' = completed (str y) ∧
  currentFrame s' = currentFrame (str y) ∧ currentFrameIsLast s' = currentFrameIsLast (str y) ∧
  (s' = str y ∨ readChan s' = true ∨ readChan s' = readChan (str y) ∧ cancelledBy (str y) = true).
Proof.
  intros Hi Hoff. pose proof (inv_core _ Hi) as Hc. unfold handleResetStreamFrameImpl. simpl in Hoff.
  case_bool_decide; [intros [= <-]; split_and!; try done; by left|].
  destruct (UpdateHighestReceived_ _ _ _ _) as [fc [e|]] eqn:Hu; [done|].
  cbn [cancelledRemotely cancelledLocally set_finalOffset set_flowController flowController].
  destruct (cancelledRemotely (str y)) eqn:Hcr.
  { intros [= <-]. assert (cancelledBy (str y) = true) as Hcb by (unfold cancelledBy; by rewrite Hcr).
    pose proof (update_core _ _ _ _ _ (fin y) _ true _ _ Hc Hoff Hu (or_intror (conj eq_refl Hcb))) as [Hc' _].
    simpl in Hc'. split_and!; try done. right. right. done. }
  destruct (cancelledLocally (str y)) eqn:Hcl; intros [= <-].
  - assert (cancelledBy (str y) = true) as Hcb by (unfold cancelledBy; by rewrite Hcl, orb_true_r).
    pose proof (update_core _ _ _ _ _ (fin y) _ true _ _ Hc Hoff Hu (or_intror (conj eq_refl Hcb))) as [Hc' _].
    simpl in Hc'. destruct (flow_abandon fc (core_flow _ _ _ _ _ Hc')) as (?&?&?).
    split_and!; try done; [eapply core_eq; try done; apply Hc'|]. right. by right.
  - pose proof (cancel_remote_core (str y) _ _ _ _ (ResetStreamFrame.ErrorCode f) Hc) as Hc0.
    pose proof (update_core _ _ _ _ _ (fin y) _ true _ _ Hc0 Hoff Hu (or_intror (conj eq_refl eq_refl))) as [Hc' _].
    simpl in Hc'. destruct (flow_abandon fc (core_flow _ _ _ _ _ Hc')) as (?&?&?).
    split_and!; try done; [eapply core_eq; try done; apply Hc'|]. by right; left.
Qed.

Lemma kept_reset y f now :
  inv y → allowed (CReset f now) → wp (step y (CReset f now)) (kept y).
Proof.
  intros Hi Ha. cbn [step]. unfold handleResetStreamFrame.
  destruct (handleResetStreamFrameImpl (str y) f now) as [s1 [e|]] eqn:Hr.
  { by destruct (isNewlyCompleted s1). }
  destruct (resetImpl_core y f now s1 Hi Ha Hr) as (Hc & Hcom & Ecur & El & Hch).
  destruct (isNewlyCompleted s1) as [s2 c] eqn:Hn. simpl.
  destruct (complete_inv y s1 s2 c (ops y) (released y) (fin y) (ignored y) Hi Hc Hcom Hn) as [Hi2 Hf].
  { intros r Hr'. destruct (inv_pending _ Hi r Hr') as (_&_&Hcur&Hl&Hw). split_and!; [congruence..|].
    intros Hch1. destruct Hch as [->|[|[Hch2 Hca]]]; [auto|congruence|].
    rewrite (pending_cancelled y r Hi Hr' Hca) in Hch2. congruence. }
  split; [done|]. rewrite Hf, completions_if. by destruct c.
Qed.

Lemma cancelReadImpl_core y code s' b :
  inv y → cancelReadImpl (str y) code = (s', b) →
  core s' (ops y) (rd y) (released y) (fin y) ∧ completed s' = completed (str y) ∧
  currentFrame s' = currentFrame (str y) ∧ currentFrameIsLast s' = currentFrameIsLast (str y) ∧
  (s' = str y ∨ readChan s' = true ∨ readChan s' = readChan (str y) ∧ (errorRead (str y) = true ∨ cancelledBy (str y) = true)).
Proof.
  intros Hi. pose proof (inv_core _ Hi) as Hc. unfold cancelReadImpl.
  destruct (cancelledLocally (str y)) eqn:Hcl; [intros [= <- <-]; split_and!; try done; by left|].
  case_bool_decide; [intros [= <- <-]; split_and!; try done; by left|].
  cbn [errorRead cancelledRemotely set_cancelledLocally].
  destruct (errorRead (str y) || cancelledRemotely (str y)) eqn:He; intros [= <- <-]; simpl.
  - split_and!; try done.
    + destruct Hc as [Hok Hsort Hpos Hops Hh Hfin Hlast Hdone Hca Hst Hsd Hrd Hf Hff].
      split; try done; simpl; unfold cancelledBy; simpl; rewrite ?orb_true_r; [|by right..|done].
      intros _. apply orb_true_iff in He as [He|He].
      * destruct (Hrd He) as [|Hb]; [by right|by apply Hca].
      * apply Hca. unfold cancelledBy. by rewrite He.
    + right. right. split; [done|]. unfold cancelledBy. apply orb_true_iff in He as [He|He]; [by left|].
      right. by rewrite He.
  - split_and!; try done; [|by right; left]. destruct Hc. split; try done; simpl; try (by intros; left).
    + intros Her. exfalso. by rewrite Her in He.
    + unfold cancelledBy. simpl. by rewrite orb_true_r.
Qed.

Lemma recv_kept_cancel y code s evs :
  inv y → CancelRead (str y) code = (s, evs) → kept y (with_str y s, evs, None).
Proof.
  intros Hi. unfold CancelRead. destruct (cancelReadImpl (str y) code) as [s1 b] eqn:Hr.
  destruct (cancelReadImpl_core y code s1 b Hi Hr) as (Hc & Hcom & Ecur & El & Hch).
  destruct (isNewlyCompleted s1) as [s2 c] eqn:Hn. destruct (abandonCompleted s2 c) as [s3 evs'] eqn:Ha.
  intros [= <- <-]. destruct (complete_kept y s1 s2 s3 c evs' (ops y) (released y) (fin y) (ignored y) Hi Hc Hcom Hn Ha) as [Hi2 Hf].
  { intros r Hr'. destruct (inv_pending _ Hi r Hr') as (_&_&Hcur&Hl&Hw). split_and!; [congruence..|].
    intros Hch1. destruct Hch as [->|[|[Hch2 Hca]]]; [auto|congruence|]. exfalso.
    assert (readChan (str y) = true); [|congruence]. apply (pending_cancelled y r Hi Hr').
    destruct Hca as [He|]; [|done]. destruct (core_read _ _ _ _ _ (inv_core _ Hi) He) as [|]; [|done].
    by destruct (inv_not_ended y r Hi Hr'). }
  split; [done|]. rewrite completions_app, completions_if. simpl. rewrite Hf. by destruct b.
Qed.

Lemma kept_same y s' :
  inv y → core s' (ops y) (rd y) (released y) (fin y) → completed s' = completed (str y) →
  currentFrame s' = currentFrame (str y) → currentFrameIsLast s' = currentFrameIsLast (str y) →
  (readChan s' = true ∨ (waits (str y) → waits s') ∧ readChan s' = readChan (str y)) →
  kept y (with_str y s', [], None).
Proof.
  intros Hi Hc Hcom Ecur El Hch. split; [|simpl; unfold flag; rewrite Hcom; by rewrite Z.add_0_r].
  split; [done|]. simpl. intros r Hr. destruct (inv_pending _ Hi r Hr) as (?&?&?&?&Hw).
  split_and!; try done; [congruence..|]. intros Hch1. destruct Hch as [|[Hw' Hch2]]; [congruence|].
  apply Hw', Hw. congruence.
Qed.

Lemma recv_kept_control y now : inv y → wp (step y (CControl now)) (kept y).
Proof.
  intros Hi. pose proof (inv_core _ Hi) as Hc. cbn [step]. apply wp_bind. unfold getControlFrame.
  destruct (negb _ && _); [by apply kept_same; try done; [right]|].
  destruct (queuedStopSending (str y)) eqn:Hq.
  - cbn [cancelErr set_queuedStopSending]. destruct (cancelErr (str y)) as [[code ?]|] eqn:He.
    + apply kept_same; try done; [eapply core_eq; try done; apply Hc|]. right. split; [|done]. intros Hw. by apply (waits_eq (str y)).
    + by destruct (core_stop _ _ _ _ _ Hc Hq).
  - apply wp_bind. cbn [flowController set_queuedMaxStreamData].
    pose proof (flow_window_update (flowController (str y)) now (core_flow _ _ _ _ _ Hc)) as Hu.
    apply returns_iff in Hu as ([fc limit] & -> & ? & ? & ?).
    apply kept_same; try done; [eapply core_eq; try done; apply Hc|]. right. split; [|done]. intros Hw. by apply (waits_eq (str y)).
Qed.

Lemma recv_step_kept y c : inv y → allowed c → wp (step y c) (kept y).
Proof.
  intros Hi Ha. assert (kept y (y, [], None)) as Hrefl by (split; [done|by rewrite Z.add_0_r]).
  assert (∀ (m : res (sys * list stream_event * option output)), returns m (kept y) → wp m (kept y)) as Hwp.
  { by intros [?|?|]. }
  pose proof (inv_core _ Hi) as Hc.
  destruct c as [now n|now sg|f done now|f now|code|now|t|err].
  - cbn [step]. destruct (pending y) eqn:Hp; [done|]. apply Hwp. unfold Read. apply returns_bind, returns_bind.
    eapply returns_mono; [by apply readImpl_spec|]. intros m Hm. by eapply kept_read.
  - cbn [step]. destruct (pending y) as [r|] eqn:Hp; [|done]. apply Hwp. by apply recv_kept_resume.
  - by apply kept_frame.
  - by apply kept_reset.
  - cbn [step]. destruct (CancelRead (str y) code) as [s evs] eqn:E. by eapply recv_kept_cancel.
  - by apply recv_kept_control.
  - apply kept_same; try done; [eapply core_eq; try done; apply Hc|]. by left.
  - apply kept_same; try done; [|by left]. simpl in Ha. eapply core_eq; try done; [apply Hc|]. simpl. congruence.
Qed.

(** A stream as the streams map creates it. *)
Definition fresh_flow (fc : FC) : Prop := flow_ok fc ∧ flow_highest fc = 0 ∧ flow_final fc = false.

Lemma recv_start_inv id fc : fresh_flow fc → inv (start id fc).
Proof.
  intros (Hok & Hh & Hf). split; [|by intros ? [=]]. split; simpl; rewrite ?Hh; try done.
  - exists [], [], []. split_and!; try done. apply new_delivered.
  - split; [done|]. by left.
Qed.

(** ** Sequences of calls *)

(** The end of the stream is final. *)
Lemma ended_stable y c y' evs o : inv y → ended (str y) → step y c = Ok (y', evs, o) → ended (str y').
Proof.
  intros Hi He Hs. destruct c as [now n|now sg|f done now|f now|code|now|t|err]; cbn [step] in Hs.
  - destruct (pending y); [by simplify_eq|]. unfold Read, readImpl in Hs. destruct (He) as [Hl Hcur].
    rewrite Hl, Hcur in Hs. simpl in Hs.
    destruct (isNewlyCompleted (set_errorRead (str y) true)) as [s2 c] eqn:Hn. simplify_eq/=.
    unfold isNewlyCompleted in Hn. repeat case_match; simplify_eq/=; done.
  - destruct (pending y) as [r|] eqn:Hp; [|by simplify_eq]. by destruct (inv_not_ended y r Hi Hp).
  - unfold handleStreamFrame, handleStreamFrameImpl, isNewlyCompleted, abandonCompleted in Hs.
    res_cases; done.
  - unfold handleResetStreamFrame, handleResetStreamFrameImpl, isNewlyCompleted in Hs.
    res_cases; done.
  - unfold CancelRead, cancelReadImpl, isNewlyCompleted, abandonCompleted in Hs.
    res_cases; done.
  - unfold getControlFrame in Hs. by res_cases.
  - by simplify_eq.
  - by simplify_eq.
Qed.

(** What the application gets, and the end of the stream. *)
Lemma step_output y c y' evs o :
  inv y → allowed c → step y c = Ok (y', evs, o) →
  rd y' = rd y ++ match o with Some (d, _) => d | None => [] end ∧
  (∀ d, o = Some (d, Some io_EOF) → ended (str y')).
Proof.
  intros Hi Ha Hs. assert (∀ m n s0, readDone y (finishRead m) = (y', evs, o) →
    read_post s0 (ops y) (rd y) (released y) (fin y) n m →
    rd y' = rd y ++ match o with Some (d, _) => d | None => [] end ∧
    (∀ d, o = Some (d, Some io_EOF) → ended (str y'))) as Hread.
  { intros [[s' called] [r|r k err]] n s0 Hd [_ Hp]; simpl in Hd; simplify_eq/=.
    - by rewrite app_nil_r.
    - destruct (isNewlyCompleted s') as [s2 c2] eqn:Hn. simplify_eq/=. split; [done|].
      intros d [= _ ->]. destruct Hp as (_&_&_&He&_). destruct (He eq_refl) as [He' _].
      unfold isNewlyCompleted in Hn. repeat case_match; simplify_eq/=; done. }
  pose proof (inv_core _ Hi) as Hc. destruct c as [now n|now sg|f done now|f now|code|now|t|err]; cbn [step] in Hs.
  - destruct (pending y) eqn:Hp; [simplify_eq; by rewrite app_nil_r|]. bind_inv Hs. unfold Read in Hm. bind_inv Hm.
    pose proof (readImpl_spec (str y) (ops y) (rd y) (released y) (fin y) now n Hc Ha) as Hr. rewrite Hm0 in Hr.
    simplify_eq. by apply (Hread _ _ _ Hs Hr).
  - destruct (pending y) as [r|] eqn:Hp; [|simplify_eq; by rewrite app_nil_r]. bind_inv Hs.
    destruct (resume_post y r now sg Hi Hp) as (m & s0 & Hm0 & Hpost & _). rewrite Hm0 in Hm. simplify_eq.
    by apply (Hread _ _ _ Hs Hpost).
  - bind_inv Hs. destruct a as [[[s' called] evs'] [e|]]; simplify_eq/=. by rewrite app_nil_r.
  - destruct (handleResetStreamFrame (str y) f now) as [[s' evs'] [e|]]; simplify_eq/=. by rewrite app_nil_r.
  - destruct (CancelRead (str y) code); simplify_eq/=. by rewrite app_nil_r.
  - bind_inv Hs. destruct a as [[s' f] more]. simplify_eq/=. by rewrite app_nil_r.
  - simplify_eq/=. by rewrite app_nil_r.
  - simplify_eq/=. by rewrite app_nil_r.
Qed.

(** The frames among the calls, as operations on the sorter. *)
Definition push_of (f : StreamFrame.t) (done : Z) : sorter_op :=
  OpPush (StreamFrame.Data f) (StreamFrame.Offset f) (Some done).
Definition frame_end (f : StreamFrame.t) : Z := StreamFrame.Offset f + StreamFrame.DataLen f.

(** What the sorter holds, and the final size, come from frames that were received. *)
Definition from_calls y (cs : list call) y' : Prop :=
  (∀ op, op ∈ ops y' → op ∈ ops y ∨ ∃ f done now, CFrame f done now ∈ cs ∧ op = push_of f done) ∧
  (∀ n, fin y' = Some n → fin y = Some n ∨
    ∃ f done now, CFrame f done now ∈ cs ∧ StreamFrame.Fin f = true ∧ n = frame_end f).

Lemma step_from y c y' evs o : step y c = Ok (y', evs, o) → from_calls y [c] y'.
Proof.
  intros Hs. assert (ops y' = ops y ∧ fin y' = fin y ∨ ∃ f done now, c = CFrame f done now) as [[E1 E2]|(f & done & now & ->)].
  { destruct c as [now n|now sg|f done now|f now|code|now|t|err]; cbn [step] in Hs; [| |right; by eauto|..]; left.
    1, 2: destruct (pending y); try (by simplify_eq); [].
    1, 2: bind_inv Hs; destruct a as [[[s called] evs'] [?|???]]; by simplify_eq/=.
    all: res_cases; done. }
  - split; [rewrite E1|rewrite E2]; auto.
  - cbn [step] in Hs. bind_inv Hs. destruct a as [[[s' called] evs'] [e|]]; simplify_eq/=. split; simpl.
    + intros op [|Hop]%elem_of_app; [by left|right]. destruct (cancelledLocally (str y)); [by apply not_elem_of_nil in Hop|].
      apply list_elem_of_singleton in Hop as ->. exists f, done, now. split; [by left|done].
    + destruct (StreamFrame.Fin f) eqn:Hf; [|by left]. intros n [= <-]. right. exists f, done, now. by split; [left|].
Qed.

Lemma from_calls_app y cs y' cs' y'' : from_calls y cs y' → from_calls y' cs' y'' → from_calls y (cs ++ cs') y''.
Proof.
  intros [H1 H2] [H3 H4]. split.
  - intros op [Hop|(f & done & now & ? & ?)]%H3.
    + apply H1 in Hop as [|(f & done & now & ? & ?)]; [by left|right]. exists f, done, now. set_solver.
    + right. exists f, done, now. set_solver.
  - intros n [Hn|(f & done & now & ? & ?)]%H4.
    + apply H2 in Hn as [|(f & done & now & ? & ?)]; [by left|right]. exists f, done, now. set_solver.
    + right. exists f, done, now. set_solver.
Qed.

(** The buffers of the frames among the calls. *)
Definition buffer_of (c : call) : list Z := if c is CFrame _ done _ then [done] else [].
Definition buffers (cs : list call) : list Z := cs ≫= buffer_of.

(** Reading does not change what was cancelled. *)
Lemma read_cancelled y m s0 n y' evs o :
  read_post s0 (ops y) (rd y) (released y) (fin y) n m → cancelledLocally s0 = cancelledLocally (str y) →
  finalOffset s0 = finalOffset (str y) → readDone y (finishRead m) = (y', evs, o) →
  ops y' = ops y ∧ ignored y' = ignored y ∧ cancelledLocally (str y') = cancelledLocally (str y) ∧
  finalOffset (str y') = finalOffset (str y).
Proof.
  destruct m as [[s' called] [r|r k err]]; intros [Hs _] Hl Hf Hd; simpl in Hd; simplify_eq/=.
  - split_and!; try done; [by rewrite (same_locally _ _ Hs)|by rewrite (same_finalOffset _ _ Hs)].
  - destruct (isNewlyCompleted s') as [s2 c2] eqn:Hn. simplify_eq/=. rewrite <-Hl, <-Hf, <-(same_locally _ _ Hs), <-(same_finalOffset _ _ Hs).
    unfold isNewlyCompleted in Hn. repeat case_match; simplify_eq/=; done.
Qed.

(** The final size comes from the FIN bit of a frame or from a RESET_STREAM frame. *)
Definition final_from y (cs : list call) y' : Prop :=
  finalOffset (str y') = finalOffset (str y) ∨
  (∃ f done now, CFrame f done now ∈ cs ∧ StreamFrame.Fin f = true ∧ finalOffset (str y') = frame_end f) ∨
  (∃ f now, CReset f now ∈ cs ∧ finalOffset (str y') = ResetStreamFrame.FinalSize f).

Lemma final_from_cons y c y1 cs y2 : final_from y [c] y1 → final_from y1 cs y2 → final_from y (c :: cs) y2.
Proof.
  intros H1 [E|[(f & d & n & Hin & ?)|(f & n & Hin & ?)]].
  - unfold final_from in *. rewrite E. destruct H1 as [?|[(f & d & n & ?%list_elem_of_singleton & ?)|(f & n & ?%list_elem_of_singleton & ?)]]; [by left|..]; subst.
    + right. left. exists f, d, n. by split; [left|].
    + right. right. exists f, n. by split; [left|].
  - right. left. exists f, d, n. by split; [right|].
  - right. right. exists f, n. by split; [right|].
Qed.

(** A call adds the buffer of its frame to those of the sorter or, once reading was
    cancelled, to those that are ignored. *)
Lemma step_buffers y c y' evs o : inv y → allowed c → step y c = Ok (y', evs, o) →
  (ops y' ≫= op_callback) = (ops y ≫= op_callback) ++ (if cancelledLocally (str y) then [] else buffer_of c) ∧
  ignored y' = ignored y ++ (if cancelledLocally (str y) then buffer_of c else []) ∧
  (cancelledLocally (str y') = cancelledLocally (str y) ∨ ∃ code, c = CCancelRead code) ∧
  final_from y [c] y'.
Proof.
  intros Hi Ha Hs. pose proof (inv_core _ Hi) as Hc.
  assert (∀ (b : bool) (l : list Z), l ++ (if b then [] else []) = l) as Hnil by (intros [] l; by rewrite app_nil_r).
  assert (∀ (c : call), finalOffset (str y') = finalOffset (str y) → final_from y [c] y') as Hsame by (by left).
  destruct c as [now n|now sg|f done now|f now|code|now|t|err]; cbn [step buffer_of] in *; rewrite ?Hnil.
  - destruct (pending y) eqn:Hp; [simplify_eq; by auto|]. bind_inv Hs. unfold Read in Hm. bind_inv Hm.
    pose proof (readImpl_spec (str y) (ops y) (rd y) (released y) (fin y) now n Hc Ha) as Hr. rewrite Hm0 in Hr.
    simplify_eq. destruct (read_cancelled y _ _ _ _ _ _ Hr eq_refl eq_refl Hs) as (-> & -> & -> & ?). auto.
  - destruct (pending y) as [r|] eqn:Hp; [|simplify_eq; by auto]. bind_inv Hs.
    destruct (resume_post y r now sg Hi Hp) as (m & s0 & Hm0 & Hpost & _ & Hl & Hfo). rewrite Hm0 in Hm. simplify_eq.
    destruct (read_cancelled y _ _ _ _ _ _ Hpost Hl Hfo Hs) as (-> & -> & -> & ?). auto.
  - bind_inv Hs. destruct a as [[[s' called] evs'] [e|]]; simplify_eq/=. rewrite bind_app. split_and!.
    + by destruct (cancelledLocally (str y)).
    + done.
    + left. unfold handleStreamFrame, handleStreamFrameImpl, isNewlyCompleted, abandonCompleted in Hm. res_cases; done.
    + assert (finalOffset s' = if StreamFrame.Fin f then frame_end f else finalOffset (str y)) as E.
      { unfold handleStreamFrame, handleStreamFrameImpl, isNewlyCompleted, abandonCompleted in Hm. destruct (StreamFrame.Fin f); res_cases; done. }
      destruct (StreamFrame.Fin f) eqn:Hfin; [|by left]. right. left. exists f, done, now. by split; [left|].
  - assert (str y' = (handleResetStreamFrame (str y) f now).1.1 ∧ ops y' = ops y ∧ ignored y' = ignored y) as (E & -> & ->).
    { destruct (handleResetStreamFrame (str y) f now) as [[s' evs'] [e|]]; by simplify_eq/=. }
    assert (finalOffset (str y') = finalOffset (str y) ∨ finalOffset (str y') = ResetStreamFrame.FinalSize f) as Ef.
    { rewrite E. unfold handleResetStreamFrame, handleResetStreamFrameImpl, isNewlyCompleted. repeat (case_match; simplify_eq/=); auto. }
    assert (cancelledLocally (str y') = cancelledLocally (str y)) as El.
    { rewrite E. unfold handleResetStreamFrame, handleResetStreamFrameImpl, isNewlyCompleted. repeat (case_match; simplify_eq/=); auto. }
    split_and!; [done|done|by left|]. destruct Ef as [Ef|Ef]; [by left|right; right]. exists f, now. by split; [left|].
  - destruct (CancelRead (str y) code) as [s' evs'] eqn:E; simplify_eq/=. split_and!; [done..|right; by eexists|]. left. simpl.
    unfold CancelRead, cancelReadImpl, isNewlyCompleted, abandonCompleted in E. res_cases; done.
  - unfold getControlFrame in Hs. split_and!; [..|left|apply Hsame]; res_cases; done.
  - simplify_eq/=. auto.
  - simplify_eq/=. auto.
Qed.

(** Where the buffers of all frames are, and which of them are ignored. *)
Definition buffers_kept y (cs : list call) y' : Prop :=
  (ops y' ≫= op_callback) ++ ignored y' ≡ₚ (ops y ≫= op_callback) ++ ignored y ++ buffers cs ∧
  ∃ new, ignored y' = ignored y ++ new ∧ sublist new (buffers cs) ∧
    (cancelledLocally (str y) = false → new = [] ∨
       ∃ pre code post, cs = pre ++ CCancelRead code :: post ∧ sublist new (buffers post)).

Lemma buffers_cons y c y1 cs y2 evs o : inv y → allowed c → step y c = Ok (y1, evs, o) →
  buffers_kept y1 cs y2 → buffers_kept y (c :: cs) y2.
Proof.
  intros Hi Ha Hs [Hp (new & Hn & Hsub & Hpost)]. destruct (step_buffers y c y1 evs o Hi Ha Hs) as (E1 & E2 & E3 & _). split.
  - rewrite Hp, E1, E2. change (buffers (c :: cs)) with (buffer_of c ++ buffers cs).
    destruct (cancelledLocally (str y)); rewrite ?app_nil_r; solve_Permutation.
  - rewrite Hn, E2, <-app_assoc. eexists. split; [done|]. change (buffers (c :: cs)) with (buffer_of c ++ buffers cs). split.
    + apply sublist_app; [|done]. destruct (cancelledLocally (str y)); [done|apply sublist_nil_l].
    + intros Hca. rewrite Hca. simpl. destruct E3 as [E3|[code ->]].
      * destruct Hpost as [->|(pre & code & post & -> & Hsub')]; [congruence|by left|right]. by exists (c :: pre), code, post.
      * right. by exists [], code, cs.
Qed.

Definition data_of (os : list output) : list byte := os ≫= fst.
Definition eof_read (os : list output) : Prop := ∃ d, (d, Some io_EOF) ∈ os.

Lemma recv_run_kept y cs :
  inv y → Forall allowed cs →
  wp (run y cs) (λ '(y', evs, os), inv y' ∧ flag (str y') = flag (str y) + completions evs ∧
    rd y' = rd y ++ data_of os ∧ (eof_read os ∨ ended (str y) → ended (str y')) ∧ from_calls y cs y' ∧ buffers_kept y cs y' ∧ final_from y cs y').
Proof.
  intros Hi Hall. revert y Hi. induction Hall as [|c cs Ha Hall IH]; intros y Hi; cbn [run].
  { assert (buffers_kept y [] y) as Hb.
    { split; [by rewrite !app_nil_r|]. exists []. rewrite app_nil_r. auto. }
    simpl. rewrite app_nil_r. split_and!; try done; [by rewrite Z.add_0_r| | |].
    - intros [[d []%not_elem_of_nil]|]; done.
    - split; auto.
    - by left. }
  pose proof (recv_step_kept y c Hi Ha) as Hk. destruct (step y c) as [[[y1 evs] o]|e|] eqn:Hs; [|done..].
  cbn [mbind result_bind]. destruct Hk as [Hi1 Hf1]. destruct (step_output y c y1 evs o Hi Ha Hs) as [Hrd Heof].
  specialize (IH y1 Hi1). destruct (run y1 cs) as [[[y2 evs'] os]|e|]; [|done..]. cbn [mbind result_bind wp].
  destruct IH as (Hi2 & Hf2 & Hrd2 & Hend & Hfrom & Hbuf & Hfi). split_and!; [done|..].
  - rewrite Hf2, Hf1, completions_app. lia.
  - rewrite Hrd2, Hrd, <-app_assoc. unfold data_of. rewrite bind_app. do 2 f_equal.
    destruct o as [[d err]|]; simpl; by rewrite ?app_nil_r.
  - intros He. apply Hend. destruct He as [[d Hd]|He]; [|right; by apply (ended_stable y c y1 evs o)].
    apply elem_of_app in Hd as [Hd|Hd]; [right|left; by exists d].
    destruct o as [out|]; simpl in Hd; [|by apply not_elem_of_nil in Hd].
    apply list_elem_of_singleton in Hd as <-. by eapply Heof.
  - apply (from_calls_app y [c] y1 cs y2); [by eapply step_from|done].
  - by eapply buffers_cons.
  - eapply final_from_cons; [|done]. by destruct (step_buffers y c y1 evs o Hi Ha Hs) as (_ & _ & _ & ?).
Qed.

(** ** The theorems *)
Lemma end_of_stream y :
  inv y → ended (str y) → len (rd y) = finalOffset (str y) ∧ finalOffset (str y) ≠ MaxByteCount.
Proof.
  intros Hi [Hl Hcur]. pose proof (inv_core _ Hi) as Hc. destruct (last_complete _ _ _ _ _ Hc Hl) as [Hk Hp].
  destruct (core_sorter _ _ _ _ _ Hc) as (ops' & out & rel & _ & Hd & Hout & _).
  pose proof (del_len _ _ _ _ Hd) as Hlen. rewrite (rest_none _ Hcur), app_nil_r in Hout.
  subst out. split; [lia|done].
Qed.

(** Every byte that was read was at its position in a frame. *)
Lemma read_byte y0 y cs i c :
  inv y → from_calls y0 cs y → ops y0 = [] → rd y !! i = Some c →
  ∃ f done now, CFrame f done now ∈ cs ∧ StreamFrame.Offset f ≤ Z.of_nat i ∧
    StreamFrame.Data f !! Z.to_nat (Z.of_nat i - StreamFrame.Offset f) = Some c.
Proof.
  intros Hi [Hops _] Hnil Hc. destruct (core_sorter _ _ _ _ _ (inv_core _ Hi)) as (ops' & out & rel & Ho & Hd & Hout & _).
  assert (out !! i = Some c) as Hc' by (rewrite Hout; by apply lookup_app_l_Some).
  apply (del_out _ _ _ _ Hd), Exists_exists in Hc' as ([data off cb|] & Hin & Hb); [|done].
  destruct (Hops (OpPush data off cb)) as [Hn|(f & done & now & Hin' & [= -> -> _])].
  - rewrite <-Ho. by apply list_elem_of_filter.
  - rewrite Hnil in Hn. by apply not_elem_of_nil in Hn.
  - exists f, done, now. by destruct Hb.
Qed.

(** C11: the receiving half of a stream is safe: whatever frames the peer sends, however
    [Read], cancellations, deadlines and a shutdown interleave with them, no call panics;
    unless the connection is closed with an error, the stream is reported as completed at
    most once, and every buffer of a frame that arrived is accounted for exactly once: it
    was returned to the pool, or is being read, or waits in the queue, or its frame arrived
    after [CancelRead], which drops it without returning it. *)
Theorem receive_stream_safe id fc cs :
  fresh_flow fc → Forall allowed cs →
  run (start id fc) cs ≠ Panic ∧
  ∀ y evs os, run (start id fc) cs = Ok (y, evs, os) →
    completions evs ≤ 1 ∧
    buffers cs ≡ₚ released y ++ held (str y) ++ callbacks (queue (frameQueue (str y))) ++ ignored y ∧
    (ignored y = [] ∨ ∃ pre code post, cs = pre ++ CCancelRead code :: post ∧ sublist (ignored y) (buffers post)).
Proof.
  intros Hfresh Hall. pose proof (recv_run_kept _ cs (recv_start_inv id fc Hfresh) Hall) as Hr.
  destruct (run (start id fc) cs) as [[[y evs] os]|e|]; [|done..]. split; [done|]. intros ??? [= -> -> ->].
  destruct Hr as (Hi & Hf & _ & _ & _ & (Hp & new & Hn & _ & Hpost) & _). change (flag (str (start id fc))) with 0 in Hf.
  simpl in Hp, Hn, Hpost. rewrite <-Hp, Hn. split_and!; [unfold flag in Hf; destruct (completed _); lia| |by apply Hpost].
  destruct (core_sorter _ _ _ _ _ (inv_core _ Hi)) as (ops' & out & rel & <- & Hd & _ & Hrel).
  rewrite !app_assoc. f_equiv. rewrite <-Hrel, <-(del_callbacks _ _ _ _ Hd).
  clear. induction ops' as [|[|] ops' IH]; [done|..]; rewrite filter_cons; simpl; [|done].
  by f_equiv.
Qed.

(** C12: [Read] delivers the stream. If the frames of the peer belong to a stream with the
    contents [F], then the bytes that the calls of [Read] returned, one after the other,
    are the bytes of [F] from the start, without gaps or repetitions; and if a call
    returned [io.EOF], then a frame with the FIN bit was received and they are all bytes up
    to it, or the stream was cancelled and a RESET_STREAM frame was received whose final
    size is the number of bytes that were read. *)
Theorem read_delivers_stream (F : Z → byte) id fc cs y evs os :
  fresh_flow fc → Forall allowed cs →
  (∀ f done now, CFrame f done now ∈ cs → ∀ i c, StreamFrame.Data f !! i = Some c → c = F (StreamFrame.Offset f + Z.of_nat i)) →
  run (start id fc) cs = Ok (y, evs, os) →
  data_of os = F <$> seqZ 0 (len (data_of os)) ∧
  (eof_read os →
    (∃ f done now, CFrame f done now ∈ cs ∧ StreamFrame.Fin f = true ∧ len (data_of os) = frame_end f) ∨
    cancelledBy (str y) = true ∧ ∃ f now, CReset f now ∈ cs ∧ len (data_of os) = ResetStreamFrame.FinalSize f).
Proof.
  intros Hfresh Hall HF Hrun. pose proof (recv_run_kept _ cs (recv_start_inv id fc Hfresh) Hall) as Hr.
  rewrite Hrun in Hr. destruct Hr as (Hi & _ & Hrd & Hend & (Hops & Hfin) & _ & Hfi). simpl in Hrd. rewrite <-Hrd.
  pose proof (inv_core _ Hi) as Hc. split.
  - apply list_eq. intros i. rewrite list_lookup_fmap. destruct (rd y !! i) as [c|] eqn:Hc'.
    + pose proof (lookup_lt_Some _ _ _ Hc'). unfold len. rewrite lookup_seqZ_lt by lia. simpl. f_equal.
      destruct (read_byte (start id fc) y cs i c Hi (conj Hops Hfin) eq_refl Hc') as (f & done & now & Hin & Hle & Hd).
      rewrite (HF f done now Hin _ _ Hd). f_equal. lia.
    + apply lookup_ge_None in Hc'. unfold len. rewrite lookup_seqZ_ge by lia. done.
  - intros He. specialize (Hend (or_introl He)). destruct (end_of_stream y Hi Hend) as [Hl Hk]. rewrite Hl.
    destruct (cancelledBy (str y)) eqn:Hca.
    + destruct Hfi as [E|[?|?]]; [by rewrite E in Hk|by left|by right].
    + left. pose proof (core_fin _ _ _ _ _ Hc Hca Hk) as Hf. apply Hfin in Hf as [[=]|(f & done & now & ? & ? & Hn)].
      by exists f, done, now.
Qed.

(** C13: [Read] does not wait in vain. While a call waits and was not signalled, the byte
    that comes next was not received, the end of the stream was not reached, and the stream
    was neither cancelled nor shut down. *)
Theorem read_waits_for_data id fc cs y evs os r :
  fresh_flow fc → Forall allowed cs → run (start id fc) cs = Ok (y, evs, os) →
  pending y = Some r → readChan (str y) = false →
  ¬ Exists (op_contains (len (data_of os))) (ops y) ∧ fin y ≠ Some (len (data_of os)) ∧
  cancelledBy (str y) = false ∧ closeForShutdownErr (str y) = None.
Proof.
  intros Hfresh Hall Hrun Hp Hch. pose proof (recv_run_kept _ cs (recv_start_inv id fc Hfresh) Hall) as Hr.
  rewrite Hrun in Hr. destruct Hr as (Hi & _ & Hrd & _). simpl in Hrd. rewrite <-Hrd.
  destruct (inv_pending _ Hi r Hp) as (_&_&_&_&Hw). destruct (Hw Hch) as [[Hcur Hnc] Hl Hf Hs Hca].
  destruct (core_sorter _ _ _ _ _ (inv_core _ Hi)) as (ops' & out & rel & Ho & Hd & Hout & _).
  rewrite (rest_none _ Hcur), app_nil_r in Hout. subst out.
  pose proof (del_len _ _ _ _ Hd) as Hlen. split_and!; try done.
  - rewrite <-Ho, Exists_exists. intros (op & [_ Hin]%list_elem_of_filter & Hop). apply Hnc.
    rewrite Hlen in Hop. pose proof (inv_pos _ (del_inv _ _ _ _ Hd)).
    assert (Exists (op_contains (readPos (frameQueue (str y)))) ops') as He by (apply Exists_exists; eauto).
    apply (del_received _ _ _ _ Hd) in He; [|done]. destruct He; [lia|done].
  - intros Hfin. destruct (core_fin_final _ _ _ _ _ (inv_core _ Hi) _ Hfin). lia.
Qed.
End system.
Arguments sys FC : clear implicits.
Arguments call : clear implicits.

(** ** An example *)
Definition example_flow : receive_flow :=
  (NewStreamFlowController 4 1000 1000 0, NewConnectionFlowController 1000 1000 (Some (λ _, true)),
   mkRTTStats false 0 0 0 0 0).

Definition example_frame (off : Z) (data : list byte) (fin : bool) : StreamFrame.t :=
  StreamFrame.mk 4 off data fin true false (len data).

(** "abc" arrives in two frames, the second one first, while [Read] waits. *)
Definition example_calls : list call :=
  [CRead 1 10; CFrame (example_frame 1 [x62; x63] true) 7 2; CResume 2 true;
   CFrame (example_frame 0 [x61] false) 8 3; CResume 3 true].

Lemma example_allowed : Forall allowed example_calls.
Proof. repeat constructor; done. Qed.

Lemma example_fresh : fresh_flow example_flow.
Proof. repeat split. by eexists. Qed.

(** Reading is cancelled; a frame that arrives later is dropped. *)
Definition cancel_calls : list call :=
  [CFrame (example_frame 1 [x62] false) 7 1; CCancelRead 5; CFrame (example_frame 0 [x61] false) 8 2].

Lemma receive_stream_safe_witness :
  Forall allowed cancel_calls ∧
  run (start 4 example_flow) cancel_calls ≠ Panic ∧
  ∀ y evs os, run (start 4 example_flow) cancel_calls = Ok (y, evs, os) →
    completions evs ≤ 1 ∧
    buffers cancel_calls ≡ₚ released y ++ held (str y) ++ callbacks (queue (frameQueue (str y))) ++ ignored y ∧
    (ignored y = [] ∨ ∃ pre code post, cancel_calls = pre ++ CCancelRead code :: post ∧ sublist (ignored y) (buffers post)).
Proof.
  assert (Forall allowed cancel_calls) as Ha by (repeat constructor; done).
  exact (conj Ha (receive_stream_safe 4 example_flow cancel_calls example_fresh Ha)).
Defined.

Lemma read_delivers_stream_witness :
  ∃ y evs os, run (start 4 example_flow) example_calls = Ok (y, evs, os) ∧
  os = [([x61; x62; x63], Some io_EOF)] ∧
  data_of os = (λ i, z2b (0x61 + i)) <$> seqZ 0 (len (data_of os)) ∧
  (eof_read os →
    (∃ f done now, CFrame f done now ∈ example_calls ∧ StreamFrame.Fin f = true ∧ len (data_of os) = frame_end f) ∨
    cancelledBy (str y) = true ∧ ∃ f now, CReset f now ∈ example_calls ∧ len (data_of os) = ResetStreamFrame.FinalSize f).
Proof.
  eexists _, _, _. split; [vm_compute; reflexivity|]. split; [reflexivity|].
  eapply (read_delivers_stream (λ i, z2b (0x61 + i)) 4 example_flow example_calls).
  - apply example_fresh.
  - apply example_allowed.
  - intros f done now Hin i c Hi. unfold example_calls in Hin.
    repeat (apply elem_of_cons in Hin as [Hin|Hin]; [simplify_eq; repeat (destruct i as [|i]; [by injection Hi as <-|]); done|]).
    by apply not_elem_of_nil in Hin.
  - vm_compute. reflexivity.
Defined.

Lemma read_waits_for_data_witness :
  ∃ y evs os r, run (start 4 example_flow) (take 3 example_calls) = Ok (y, evs, os) ∧ pending y = Some r ∧
  ¬ Exists (op_contains (len (data_of os))) (ops y) ∧ fin y ≠ Some (len (data_of os)) ∧
  cancelledBy (str y) = false ∧ closeForShutdownErr (str y) = None.
Proof.
  eexists _, _, _, _. split; [vm_compute; reflexivity|]. split; [reflexivity|].
  eapply (read_waits_for_data 4 example_flow (take 3 example_calls)).
  - apply example_fresh.
  - apply Forall_take, example_allowed.
  - vm_compute. reflexivity.
  - reflexivity.
  - reflexivity.
Defined.

(** A stream is reset at the offset up to which it was read, while [Read] waits: that call
    returns the error of the reset, but the next one returns [io.EOF], as if the stream had
    ended regularly. *)
Lemma reset_is_forgotten :
  ∃ y evs, run (start 4 example_flow)
    [CRead 1 10; CReset (ResetStreamFrame.mk 4 42 0) 2; CResume 3 true; CRead 4 10] =
      Ok (y, evs, [([], Some (StreamError 4 42 true)); ([], Some io_EOF)]).
Proof. eexists _, _. vm_compute. reflexivity. Qed.
End ReceiveRuns.
