(* ===== verification/Stream.v ===== *)
(** * Streams (stream.go), from end to end

    A bidirectional stream is a sending and a receiving half that share a flow
    controller.  It is completed when both halves are.  The last theorem connects the two
    halves of a stream at both ends of a connection: what is read is what was written. *)

From S2P Require Import Prelude Varint Protocol Wire ControlFrames DataFrames FrameSorter RTTStats FlowControl.
From S2P Require Import SendStream SendSystem ReceiveStream ReceiveSystem.

Module Stream.
Section stream.
Context {FC : Type} `{!SendFlowController FC, !ReceiveFlowController FC}.

Record stream := mk {
  receiveHalf : ReceiveStream.receiveStream FC;
  sendHalf : SendStream.sendStream FC;
  receiveStreamCompleted : bool;
  sendStreamCompleted : bool;
}.
Implicit Types (s : stream).

Definition newStream (streamID : Z) (flowController : FC) : stream :=
  mk (ReceiveStream.newReceiveStream streamID flowController)
     (SendStream.newSendStream streamID flowController) false false.

(** The controller is one object: what a half does to it, the other one sees. *)
Definition set_sendHalf s (h : SendStream.sendStream FC) : stream :=
  mk (ReceiveStream.set_flowController (receiveHalf s) (SendStream.flowController h)) h
     (receiveStreamCompleted s) (sendStreamCompleted s).
Definition set_receiveHalf s (h : ReceiveStream.receiveStream FC) : stream :=
  mk h (SendStream.set_flowController (sendHalf s) (ReceiveStream.flowController h))
     (receiveStreamCompleted s) (sendStreamCompleted s).

Definition checkIfCompleted s : list stream_event :=
  if sendStreamCompleted s && receiveStreamCompleted s then [onStreamCompleted] else [].

(** The [uniStreamSender] of a half: its completion is noted, the rest is passed on. *)
Definition forward s (sending : bool) (e : stream_event) : stream * list stream_event :=
  match e with
  | onStreamCompleted =>
      let s := if sending then mk (receiveHalf s) (sendHalf s) (receiveStreamCompleted s) true
               else mk (receiveHalf s) (sendHalf s) true (sendStreamCompleted s) in
      (s, checkIfCompleted s)
  | _ => (s, [e])
  end.

Fixpoint forwardAll s (sending : bool) (evs : list stream_event) : stream * list stream_event :=
  match evs with
  | [] => (s, [])
  | e :: evs =>
      let '(s, out) := forward s sending e in
      let '(s, out') := forwardAll s sending evs in
      (s, out ++ out')
  end.

(** A method of the sending half that returns notifications. *)
Definition on_send s (r : SendStream.sendStream FC * list stream_event) : stream * list stream_event :=
  forwardAll (set_sendHalf s r.1) true r.2.
Definition on_receive s (r : ReceiveStream.receiveStream FC * list stream_event) : stream * list stream_event :=
  forwardAll (set_receiveHalf s r.1) false r.2.

Definition Close s : stream * list stream_event * option error :=
  let '(h, evs, err) := SendStream.Close (sendHalf s) in (on_send s (h, evs), err).

Definition closeForShutdown s (err : error) : stream :=
  let s := set_sendHalf s (SendStream.closeForShutdown (sendHalf s) err) in
  set_receiveHalf s (ReceiveStream.closeForShutdown (receiveHalf s) err).

Definition SetDeadline s (t : Z) : stream :=
  let s := set_receiveHalf s (ReceiveStream.SetReadDeadline (receiveHalf s) t) in
  set_sendHalf s (SendStream.SetWriteDeadline (sendHalf s) t).

(** The frame, and whether there are more. *)
Definition getControlFrame s (now : Z)
  : res (stream * option (ResetStreamFrame.t + ReceiveStream.controlFrame) * bool) :=
  let '(h, f) := SendStream.getControlFrame (sendHalf s) in
  let s := set_sendHalf s h in
  match f with
  | Some f => Ok (s, Some (inl f), true)
  | None =>
      '(h, f, more) ← ReceiveStream.getControlFrame (receiveHalf s) now;
      Ok (set_receiveHalf s h, option_map inr f, more)
  end.
End stream.
Arguments stream FC : clear implicits.

(** ** Completion *)
Section completion.
Context {FC : Type} `{!SendFlowController FC, !ReceiveFlowController FC}.
Implicit Types (s : stream FC).

(** Notifications of the two halves, in the order in which they happen. *)
Fixpoint forwardBoth s (evs : list (bool * stream_event)) : stream FC * list stream_event :=
  match evs with
  | [] => (s, [])
  | (sending, e) :: evs =>
      let '(s, out) := forward s sending e in
      let '(s, out') := forwardBoth s evs in
      (s, out ++ out')
  end.

(** How often a half reports its completion. *)
Definition reports (sending : bool) (evs : list (bool * stream_event)) : Z :=
  len (filter (λ e, e = (sending, onStreamCompleted)) evs).

Definition flags s : Z * Z :=
  (if sendStreamCompleted s then 1 else 0, if receiveStreamCompleted s then 1 else 0).

Lemma reports_cons sending b e evs :
  reports sending ((b, e) :: evs) =
    (if bool_decide ((b, e) = (sending, onStreamCompleted)) then 1 else 0) + reports sending evs.
Proof.
  unfold reports. rewrite filter_cons. case_decide; [rewrite bool_decide_true by done|by rewrite bool_decide_false].
  apply len_cons.
Qed.

Lemma reports_nonneg sending evs : 0 ≤ reports sending evs.
Proof. apply len_nonneg. Qed.

Lemma forward_flags s b e :
  let '(s', out) := forward s b e in
  (e = onStreamCompleted ∧
     (flags s').1 = (if b then 1 else (flags s).1) ∧ (flags s').2 = (if b then (flags s).2 else 1) ∧
     completions out = (flags s').1 * (flags s').2) ∨
  (e ≠ onStreamCompleted ∧ flags s' = flags s ∧ completions out = 0).
Proof.
  destruct e; simpl; try (by right). left. split; [done|].
  unfold checkIfCompleted, flags. destruct b; simpl; destruct (sendStreamCompleted s), (receiveStreamCompleted s); done.
Qed.

Lemma forwardBoth_completions s evs :
  (flags s).1 + reports true evs ≤ 1 → (flags s).2 + reports false evs ≤ 1 →
  completions (forwardBoth s evs).2 + (flags s).1 * (flags s).2 =
    ((flags s).1 + reports true evs) * ((flags s).2 + reports false evs).
Proof.
  revert s. induction evs as [|[b e] evs IH]; intros s; simpl.
  { change (completions []) with 0. change (reports _ []) with 0. intros. lia. }
  rewrite !reports_cons. intros H1 H2. pose proof (forward_flags s b e) as Hf.
  destruct (forward s b e) as [s' out]. specialize (IH s').
  destruct (forwardBoth s' evs) as [s'' out'] eqn:Hrest. simpl in *. rewrite completions_app.
  pose proof (reports_nonneg true evs). pose proof (reports_nonneg false evs).
  destruct Hf as [(-> & F1 & F2 & Hout)|(He & [= F1 F2] & Hout)].
  - unfold flags in *. simpl in *. rewrite F1, F2 in *.
    destruct b; simpl in *.
    + destruct (sendStreamCompleted s); [lia|]. assert (reports true evs = 0) as E by lia. rewrite E in *.
      destruct (receiveStreamCompleted s); lia.
    + destruct (receiveStreamCompleted s); [lia|]. assert (reports false evs = 0) as E by lia. rewrite E in *.
      destruct (sendStreamCompleted s); lia.
  - unfold flags in *. simpl in *. rewrite F1, F2 in IH. rewrite !bool_decide_false in * by naive_solver. lia.
Qed.

(** A bidirectional stream reports its completion exactly once when both halves have
    reported theirs (which they do at most once), and not before. *)
Theorem stream_completed_once id fc evs :
  reports true evs ≤ 1 → reports false evs ≤ 1 →
  completions (forwardBoth (newStream id fc) evs).2 = reports true evs * reports false evs.
Proof.
  intros H1 H2. pose proof (forwardBoth_completions (newStream id fc) evs) as H. simpl in H. lia.
Qed.

End completion.

Lemma stream_completed_once_witness :
  let evs := [(true, onHasStreamData); (false, onStreamCompleted); (true, onStreamCompleted)] in
  completions (forwardBoth (newStream 4 tt) evs).2 = reports true evs * reports false evs.
Proof. intros evs. by apply (stream_completed_once 4 tt evs). Defined.
End Stream.

(** ** From the writer to the reader *)
Section end_to_end.
Context {FS FR : Type} `{!SendFlowController FS, !SendFlowLaws FS, !ReceiveFlowController FR, !ReceiveFlowLaws FR}.

(** The receiver got the frame [f] that the sender sent as [g], perhaps in another buffer
    and without its length field. *)
Definition transmitted (g f : StreamFrame.t) : Prop :=
  StreamFrame.Offset f = StreamFrame.Offset g ∧ StreamFrame.Data f = StreamFrame.Data g ∧
  StreamFrame.Fin f = StreamFrame.Fin g.

Lemma carries_lookup total f i c :
  SendRuns.carries total f → StreamFrame.Offset f ≤ Z.of_nat i →
  StreamFrame.Data f !! Z.to_nat (Z.of_nat i - StreamFrame.Offset f) = Some c → total !! i = Some c.
Proof.
  intros (a & b & -> & Ha & _) Hle Hc. unfold len in Ha. rewrite lookup_app_r by lia.
  apply lookup_app_l_Some. rewrite <-Hc. f_equal. lia.
Qed.

(** C1: a stream is a reliable byte stream. Let an application write to a stream, in any
    way, and the network lose, reorder, repeat and split its frames, so that the receiver
    gets some of the frames that the sender produced. Then the bytes that the other
    application has read are a prefix of the bytes that were written; and if it read
    [io.EOF] from a stream that was not cancelled, then the writer closed the stream and
    it has read everything. *)
Theorem stream_end_to_end id fs0 cs y evs fs fr0 cs' z evs' os :
  SendRuns.fresh id fs0 → SendRuns.all_allowed (SendRuns.start id fs0) cs →
  SendRuns.run (SendRuns.start id fs0) cs = Ok (y, evs, fs) →
  ReceiveRuns.fresh_flow (FC:=FR) fr0 → Forall ReceiveRuns.allowed cs' →
  (∀ f done now, ReceiveRuns.CFrame f done now ∈ cs' → ∃ g, g ∈ fs ∧ transmitted g f) →
  ReceiveRuns.run (ReceiveRuns.start id fr0) cs' = Ok (z, evs', os) →
  (∃ rest, SendRuns.written y = ReceiveRuns.data_of os ++ rest) ∧
  (ReceiveRuns.eof_read os → ReceiveStream.cancelledBy (ReceiveRuns.str z) = false →
    ReceiveRuns.data_of os = SendRuns.written y ∧ SendStream.finishedWriting (SendRuns.str y) = true).
Proof.
  intros Hfresh Ha Hrun Hfresh' Ha' Hnet Hrun'.
  pose proof (SendRuns.run_kept _ cs (SendRuns.start_inv id fs0 Hfresh) Ha) as Hs. rewrite Hrun in Hs.
  destruct Hs as (Hi & _ & _ & Hfs). rewrite Forall_forall in Hfs.
  pose proof (ReceiveRuns.recv_run_kept _ cs' (ReceiveRuns.recv_start_inv id fr0 Hfresh') Ha') as Hr. rewrite Hrun' in Hr.
  destruct Hr as (Hi' & _ & Hrd & Hend & Hfrom & _). simpl in Hrd. rewrite <-Hrd.
  assert (∃ rest, SendRuns.written y = ReceiveRuns.rd z ++ rest) as [rest Hrest].
  { apply prefix_lookup. intros i c Hc.
    destruct (ReceiveRuns.read_byte _ z cs' i c Hi' Hfrom eq_refl Hc) as (f & done & now & Hin & Hle & Hd).
    destruct (Hnet f done now Hin) as (g & Hg & Hoff & Hdata & _). rewrite Hoff in *. rewrite Hdata in Hd.
    apply (carries_lookup _ g); [|done..]. by apply SendRuns.chunk_carries, Hfs. }
  split; [by exists rest|]. intros He Hca. specialize (Hend (or_introl He)).
  destruct (ReceiveRuns.end_of_stream z Hi' Hend) as [Hl Hk].
  pose proof (ReceiveStream.core_fin _ _ _ _ _ (ReceiveRuns.inv_core _ Hi') Hca Hk) as Hf.
  apply Hfrom in Hf as [[=]|(f & done & now & Hin & Hfin & Hn)].
  destruct (Hnet f done now Hin) as (g & Hg & Hoff & Hdata & Hfin'). rewrite Hfin' in Hfin.
  destruct (SendRuns.fin_written y g Hi (Hfs g Hg) Hfin) as [Hlen Hclosed]. split; [|done].
  assert (len rest = 0) as ->%len_0_nil; [|by rewrite app_nil_r in Hrest].
  apply (f_equal len) in Hrest. rewrite len_app, Hl, Hn in Hrest.
  unfold ReceiveRuns.frame_end, StreamFrame.DataLen in Hrest. rewrite Hoff, Hdata in Hrest.
  unfold StreamFrame.DataLen in Hlen. lia.
Qed.
End end_to_end.

Lemma stream_end_to_end_witness :
  let f := ReceiveRuns.example_frame 0 [x61; x62; x63] true in
  let cs' := [ReceiveRuns.CRead 1 10; ReceiveRuns.CFrame f 7 2; ReceiveRuns.CResume 3 true] in
  ∃ y evs fs z evs' os,
  SendRuns.run (SendRuns.start 4 (SendRuns.example_flow 100)) SendRuns.example_calls = Ok (y, evs, fs) ∧
  ReceiveRuns.run (ReceiveRuns.start 4 ReceiveRuns.example_flow) cs' = Ok (z, evs', os) ∧
  (∃ rest, SendRuns.written y = ReceiveRuns.data_of os ++ rest) ∧
  (ReceiveRuns.eof_read os → ReceiveStream.cancelledBy (ReceiveRuns.str z) = false →
    ReceiveRuns.data_of os = SendRuns.written y ∧ SendStream.finishedWriting (SendRuns.str y) = true).
Proof.
  intros f cs'. eexists _, _, _, _, _, _. split; [vm_compute; reflexivity|]. split; [vm_compute; reflexivity|].
  eapply (stream_end_to_end 4 (SendRuns.example_flow 100) SendRuns.example_calls _ _ _ ReceiveRuns.example_flow cs').
  - vm_compute. intuition discriminate.
  - vm_compute. intuition discriminate.
  - vm_compute. reflexivity.
  - apply ReceiveRuns.example_fresh.
  - repeat constructor; done.
  - intros g done now Hin. unfold cs' in Hin.
    apply elem_of_cons in Hin as [[=]|[[= -> -> ->]|[[=]|[]%not_elem_of_nil]%elem_of_cons]%elem_of_cons].
    eexists. split; [apply elem_of_cons; by left|]. repeat split.
  - vm_compute. reflexivity.
Defined.
