(* ===== verification/Framer.v ===== *)
(** * Scheduling of frames (framer.go)

    The framer collects control frames and the streams that have something to send, and
    fills packets with them.  Streams are reached by pointers, through the interfaces
    [sendStreamI] and [streamControlFrameGetter]: the type class [StreamSource] of a world
    of streams that the framer's calls change.  The order in which a loop over a Go map
    visits its entries is an argument. *)

From S2P Require Import Prelude Varint Protocol Wire ControlFrames DataFrames FrameParser RingBuffer.
From S2P Require Import FlowControl SendStream SendSystem.

Abbreviation ptr := Z (only parsing).

(** A frame with its handler, if it is not handled by the retransmission queue. *)
Abbreviation ctl := (frame * option ptr)%type (only parsing).

Class StreamSource (W : Type) := {
  src_popStreamFrame : W → ptr → Z → res (W * option StreamFrame.t * option StreamDataBlockedFrame.t * bool);
  src_getControlFrame : W → ptr → Z → res (W * option ctl * bool);
  src_IsNewlyBlocked : W → W * (bool * Z);   (* of the connection's flow controller *)
}.

Definition maxPathResponses : Z := 256.
Definition maxControlFrames : Z := Z.shiftl 16 10.
Definition maxStreamControlFrameSize : Z := 25.

Record framer := mkFramer {
  activeStreams : gmap Z ptr;
  streamQueue : RingBuffer Z;
  streamsWithControlFrames : gmap Z ptr;
  controlFrames : list frame;
  pathResponses : list PathResponseFrame.t;
  queuedTooManyControlFrames : bool;
}.
Implicit Types (f : framer) (id p : Z).

Definition newFramer : framer := mkFramer ∅ emptyRing ∅ [] [] false.

Definition set_streams f (active : gmap Z ptr) (q : RingBuffer Z) : framer :=
  mkFramer active q (streamsWithControlFrames f) (controlFrames f) (pathResponses f) (queuedTooManyControlFrames f).
Definition set_streamsWithControlFrames f (m : gmap Z ptr) : framer :=
  mkFramer (activeStreams f) (streamQueue f) m (controlFrames f) (pathResponses f) (queuedTooManyControlFrames f).
Definition set_controlFrames f (l : list frame) : framer :=
  mkFramer (activeStreams f) (streamQueue f) (streamsWithControlFrames f) l (pathResponses f) (queuedTooManyControlFrames f).
Definition set_pathResponses f (l : list PathResponseFrame.t) : framer :=
  mkFramer (activeStreams f) (streamQueue f) (streamsWithControlFrames f) (controlFrames f) l (queuedTooManyControlFrames f).

Definition HasData f : bool :=
  negb (Empty (streamQueue f)) ||
  (negb (bool_decide (streamsWithControlFrames f = ∅)) || (0 <? len (controlFrames f)) || (0 <? len (pathResponses f))).

Definition QueueControlFrame f (fr : frame) : framer :=
  match fr with
  | FPathResponse pr =>
      if maxPathResponses <=? len (pathResponses f) then f
      else set_pathResponses f (pathResponses f ++ [pr])
  | _ =>
      if maxControlFrames <=? len (controlFrames f) then
        mkFramer (activeStreams f) (streamQueue f) (streamsWithControlFrames f) (controlFrames f) (pathResponses f) true
      else set_controlFrames f (controlFrames f ++ [fr])
  end.

Definition AddActiveStream f id p : res framer :=
  match activeStreams f !! id with
  | Some _ => Ok f
  | None => q ← PushBack 0 (streamQueue f) id; Ok (set_streams f (<[id := p]> (activeStreams f)) q)
  end.

Definition AddStreamWithControlFrames f id p : framer :=
  match streamsWithControlFrames f !! id with
  | Some _ => f
  | None => set_streamsWithControlFrames f (<[id := p]> (streamsWithControlFrames f))
  end.

Definition RemoveActiveStream f id : framer := set_streams f (delete id (activeStreams f)) (streamQueue f).

(** The control frames that a rejection of 0-RTT makes obsolete. *)
Definition isLimitFrame (fr : frame) : bool :=
  match fr with
  | FMaxData _ | FMaxStreamData _ | FMaxStreams _ | FDataBlocked _ | FStreamDataBlocked _ | FStreamsBlocked _ => true
  | _ => false
  end.

Definition Handle0RTTRejection f : framer :=
  set_controlFrames (set_streams f ∅ (Clear 0 (streamQueue f)))
    (filter (λ fr, isLimitFrame fr = false) (controlFrames f)).

(** ** Filling a packet *)
Section append.
Context {W : Type} `{!StreamSource W}.
Implicit Types (w : W) (frames : list ctl).

(** The first PATH_RESPONSE frame, if it fits. *)
Definition appendPathResponse f frames (maxLen : Z) : res (framer * list ctl * Z) :=
  match pathResponses f with
  | [] => Ok (f, frames, 0)
  | fr :: rest =>
      frameLen ← frame_length (FPathResponse fr);
      if frameLen <=? maxLen then Ok (set_pathResponses f rest, frames ++ [(FPathResponse fr, None)], frameLen)
      else Ok (f, frames, 0)
  end.

(** The control frames of one stream; the result says if the packet is full.  A frame has
    at least one byte: the number of free bytes is enough fuel. *)
Fixpoint streamControlFrames (fuel : nat) f w id p frames (length maxLen now : Z)
  : res (framer * W * list ctl * Z * bool) :=
  if maxLen - length <=? maxStreamControlFrameSize then Ok (f, w, frames, length, true)
  else match fuel with
  | O => Panic
  | S fuel =>
      '(w, o, more) ← src_getControlFrame w p now;
      let f := if (more : bool) then f
               else set_streamsWithControlFrames f (delete id (streamsWithControlFrames f)) in
      match o with
      | None => Ok (f, w, frames, length, false)
      | Some fr =>
          l ← frame_length fr.1;
          if more then streamControlFrames fuel f w id p (frames ++ [fr]) (length + l) maxLen now
          else Ok (f, w, frames ++ [fr], length + l, false)
      end
  end.

(** The loop over [streamsWithControlFrames], whose keys are visited in some [order]. *)
Fixpoint appendStreamControlFrames f w (order : list Z) frames (length maxLen now : Z)
  : res (framer * W * list ctl * Z) :=
  match order with
  | [] => Ok (f, w, frames, length)
  | id :: order =>
      match streamsWithControlFrames f !! id with
      | None => appendStreamControlFrames f w order frames length maxLen now
      | Some p =>
          '(f, w, frames, length, full) ←
            streamControlFrames (Z.to_nat (maxLen - length)) f w id p frames length maxLen now;
          if (full : bool) then Ok (f, w, frames, length)
          else appendStreamControlFrames f w order frames length maxLen now
      end
  end.

(** The queued control frames, from the last one. *)
Fixpoint popControlFrames (rev_queue : list frame) frames (length maxLen : Z) : res (list frame * list ctl * Z) :=
  match rev_queue with
  | [] => Ok ([], frames, length)
  | fr :: rest =>
      frameLen ← frame_length fr;
      if maxLen <? length + frameLen then Ok (rev_queue, frames, length)
      else popControlFrames rest (frames ++ [(fr, None)]) (length + frameLen) maxLen
  end.

Definition appendControlFrames f w frames (maxLen now : Z) (order : list Z)
  : res (framer * W * list ctl * Z) :=
  '(f, frames, length) ← appendPathResponse f frames maxLen;
  '(f, w, frames, length) ← appendStreamControlFrames f w order frames length maxLen now;
  '(queue, frames, length) ← popControlFrames (reverse (controlFrames f)) frames length maxLen;
  Ok (set_controlFrames f (reverse queue), w, frames, length).

(** A stream that has more data is put back at the end of the queue. *)
Definition requeue f (q : RingBuffer Z) id (more : bool) : res framer :=
  if more then q ← PushBack 0 q id; Ok (set_streams f (activeStreams f) q)
  else Ok (set_streams f (delete id (activeStreams f)) q).

(** The next frame of the stream at [p], which was taken from the queue.  The last STREAM
    frame of a packet will lose its length field, so that it may be larger. *)
Definition popActiveStream f w (q : RingBuffer Z) id p (maxLen : Z)
  : res (framer * W * option (ptr * StreamFrame.t) * option StreamDataBlockedFrame.t) :=
  n ← Varint.Len maxLen;
  '(w, o, blocked, more) ← src_popStreamFrame w p (maxLen + n);
  f' ← requeue f q id more;
  Ok (f', w, match o with Some fr => Some (p, fr) | None => None end, blocked).

Definition getNextStreamFrame f w (maxLen : Z)
  : res (framer * W * option (ptr * StreamFrame.t) * option StreamDataBlockedFrame.t) :=
  '(q, id) ← PopFront 0 (streamQueue f);
  match activeStreams f !! id with
  | None => Ok (set_streams f (activeStreams f) q, w, None, None)
  | Some p => popActiveStream f w q id p maxLen
  end.

(** The local variables of [Append]. *)
Record packing := mkPacking {
  pk_frames : list ctl;
  pk_streamFrames : list (ptr * StreamFrame.t);
  pk_maxLen : Z;
  pk_lastFrame : option StreamFrame.t;
  pk_streamFrameLen : Z;
  pk_controlFrameLen : Z;
}.

(** One iteration of the loop over the active streams; the result says if it is left. *)
Definition appendStreamFrame f w (k : packing) : res (framer * W * packing * bool) :=
  '(f, w, sf, blocked) ← getNextStreamFrame f w (pk_maxLen k);
  k ← match sf with
      | None => Ok k
      | Some sf =>
          l ← StreamFrame.Length sf.2;
          Ok (mkPacking (pk_frames k) (pk_streamFrames k ++ [sf]) (pk_maxLen k - l) (Some sf.2)
                (pk_streamFrameLen k + l) (pk_controlFrameLen k))
      end;
  match blocked with
  | None => Ok (f, w, k, false)
  | Some b =>
      l ← StreamDataBlockedFrame.Length b;
      if pk_maxLen k <? l then
        Ok (set_controlFrames f (controlFrames f ++ [FStreamDataBlocked b]), w, k, true)
      else
        Ok (f, w, mkPacking (pk_frames k ++ [(FStreamDataBlocked b, None)]) (pk_streamFrames k) (pk_maxLen k - l)
                    (pk_lastFrame k) (pk_streamFrameLen k) (pk_controlFrameLen k + l), false)
  end.

Fixpoint appendStreamFrames (n : nat) f w (k : packing) : res (framer * W * packing) :=
  match n with
  | O => Ok (f, w, k)
  | S n =>
      if pk_maxLen k <? MinStreamFrameSize then Ok (f, w, k)
      else
        '(f, w, k, stop) ← appendStreamFrame f w k;
        if (stop : bool) then Ok (f, w, k) else appendStreamFrames n f w k
  end.

(** A DATA_BLOCKED frame, if the connection has just become blocked. *)
Definition appendDataBlocked f w (k : packing) : res (framer * W * packing) :=
  let '(w, (isBlocked, offset)) := src_IsNewlyBlocked w in
  if (isBlocked : bool) then
    let blocked := DataBlockedFrame.mk offset in
    l ← DataBlockedFrame.Length blocked;
    if l <=? pk_maxLen k then
      Ok (f, w, mkPacking (pk_frames k ++ [(FDataBlocked blocked, None)]) (pk_streamFrames k) (pk_maxLen k)
                  (pk_lastFrame k) (pk_streamFrameLen k) (pk_controlFrameLen k + l))
    else Ok (set_controlFrames f (controlFrames f ++ [FDataBlocked blocked]), w, k)
  else Ok (f, w, k).

(** The last STREAM frame of the packet loses its length field.  The frame is shared with
    [streamFrames], whose last element it is. *)
Definition dropLastLength (k : packing) : res (list (ptr * StreamFrame.t) * Z) :=
  match pk_lastFrame k, last (pk_streamFrames k) with
  | Some lf, Some (p, _) =>
      l ← StreamFrame.Length lf;
      let lf := SendRuns.set_present lf false in
      l' ← StreamFrame.Length lf;
      Ok (removelast (pk_streamFrames k) ++ [(p, lf)], pk_streamFrameLen k - l + l')
  | _, _ => Ok (pk_streamFrames k, pk_streamFrameLen k)
  end.

Definition Append f w frames (streamFrames : list (ptr * StreamFrame.t)) (maxLen now : Z) (order : list Z)
  : res (framer * W * list ctl * list (ptr * StreamFrame.t) * Z) :=
  '(f, w, frames, controlFrameLen) ← appendControlFrames f w frames maxLen now order;
  let k := mkPacking frames streamFrames (maxLen - controlFrameLen) None 0 controlFrameLen in
  '(f, w, k) ← appendStreamFrames (Z.to_nat (RingBuffer.Len (streamQueue f))) f w k;
  '(f, w, k) ← appendDataBlocked f w k;
  '(streamFrames, streamFrameLen) ← dropLastLength k;
  Ok (f, w, pk_frames k, streamFrames, pk_controlFrameLen k + streamFrameLen).
End append.

(** ** What the framer promises *)

(** What the framer relies on: a stream returns valid frames that fit the size it is asked
    for, and control frames of at most [maxStreamControlFrameSize] bytes. *)
Class StreamSourceLaws (W : Type) `{!StreamSource W} := {
  src_ok : W → Prop;
  src_has : W → ptr → Prop;
  src_pop w p n : src_ok w → src_has w p → SendStream.size_ok n →
    returns (src_popStreamFrame w p n) (λ '(w', o, blocked, _),
      src_ok w' ∧ (∀ q, src_has w q → src_has w' q) ∧
      (∀ fr, o = Some fr → StreamFrame.valid fr ∧ StreamFrame.DataLenPresent fr = true ∧
         len (StreamFrame.bytes fr) ≤ n) ∧
      (∀ b, blocked = Some b → StreamDataBlockedFrame.valid b));
  src_control w p now : src_ok w → src_has w p →
    returns (src_getControlFrame w p now) (λ '(w', o, _),
      src_ok w' ∧ (∀ q, src_has w q → src_has w' q) ∧
      (∀ fr, o = Some fr → frame_valid fr.1 ∧ len (frame_bytes fr.1) ≤ maxStreamControlFrameSize));
  src_blocked w : src_ok w →
    let '(w', (blocked, offset)) := src_IsNewlyBlocked w in
    src_ok w' ∧ (∀ q, src_has w q → src_has w' q) ∧ (blocked = true → is_varint offset);
}.

(** Sizes on the wire. *)
Definition size (fr : frame) : Z := len (frame_bytes fr).
Definition total (l : list ctl) : Z := foldr (λ fr n, size fr.1 + n) 0 l.
Definition stream_total (l : list (ptr * StreamFrame.t)) : Z :=
  foldr (λ fr n, len (StreamFrame.bytes fr.2) + n) 0 l.

Lemma size_pos fr : 0 < size fr.
Proof. unfold size, frame_bytes, encode. rewrite len_cons. len_lia. Qed.

Lemma frame_length_size fr : frame_valid fr → frame_length fr = Ok (size fr).
Proof. apply frame_length_valid. Qed.

Lemma stream_length fr : StreamFrame.valid fr → StreamFrame.Length fr = Ok (len (StreamFrame.bytes fr)).
Proof. apply (frame_length_valid (FrameLaws:=StreamFrame.stream_laws) fr). Qed.

Lemma total_cons fr l : total (fr :: l) = size fr.1 + total l.
Proof. done. Qed.

Lemma total_app l k : total (l ++ k) = total l + total k.
Proof. induction l as [|x l IH]; simpl; [done|]. rewrite IH. lia. Qed.

Lemma stream_total_app l k : stream_total (l ++ k) = stream_total l + stream_total k.
Proof. induction l as [|x l IH]; simpl; [done|]. rewrite IH. lia. Qed.

Lemma total_nonneg l : 0 ≤ total l.
Proof. induction l as [|x l IH]; simpl; [done|]. pose proof (size_pos x.1). lia. Qed.

Abbreviation ctl_valid := (Forall (λ fr : ctl, frame_valid fr.1)).

Section specs.
Context {W : Type} `{!StreamSource W, !StreamSourceLaws W}.
Implicit Types (w : W) (frames new : list ctl) (q : list Z).

(** [q] is the queue of streams: every active stream is in it. *)
Record framer_ok f w q : Prop := {
  fr_src : src_ok w;
  fr_queue : holds (streamQueue f) q;
  fr_active id p : activeStreams f !! id = Some p → id ∈ q ∧ src_has w p;
  fr_control id p : streamsWithControlFrames f !! id = Some p → src_has w p;
  fr_frames : Forall frame_valid (controlFrames f);
  fr_paths : Forall PathResponseFrame.valid (pathResponses f);
}.

(** The framer's streams and queues of frames, which the loop over the control frames of
    streams does not change. *)
Definition same_queues f f' : Prop :=
  activeStreams f' = activeStreams f ∧ streamQueue f' = streamQueue f ∧
  controlFrames f' = controlFrames f ∧ pathResponses f' = pathResponses f.

(** The frames [new] were added to [frames], in [n] bytes. *)
Definition added frames new frames' (n : Z) : Prop :=
  frames' = frames ++ new ∧ ctl_valid new ∧ n = total new.

Lemma added_nil frames n : n = 0 → added frames [] frames n.
Proof. intros ->. split_and!; [by rewrite app_nil_r|constructor|done]. Qed.
#[local] Hint Extern 1 (added _ [] _ _) => apply added_nil; lia : core.

Lemma world_ok f w w' q :
  framer_ok f w q → src_ok w' → (∀ p, src_has w p → src_has w' p) → framer_ok f w' q.
Proof.
  intros [] Hw Hh. split; try done; [|by eauto].
  intros id p Hp. destruct (fr_active0 id p Hp). auto.
Qed.

Lemma appendPathResponse_spec f w q frames maxLen :
  framer_ok f w q → 0 ≤ maxLen →
  returns (appendPathResponse f frames maxLen) (λ '(f', frames', n),
    ∃ sent, pathResponses f = sent ++ pathResponses f' ∧ f' = set_pathResponses f (pathResponses f') ∧
      len sent ≤ 1 ∧ (sent = [] → ∀ fr rest, pathResponses f = fr :: rest → maxLen < size (FPathResponse fr)) ∧
      added frames ((λ fr, (FPathResponse fr, None)) <$> sent) frames' n ∧ n ≤ maxLen ∧ framer_ok f' w q).
Proof.
  intros Hok Hmax. unfold appendPathResponse.
  assert ((∀ fr rest, pathResponses f = fr :: rest → maxLen < size (FPathResponse fr)) →
    ∃ sent, pathResponses f = sent ++ pathResponses f ∧ f = set_pathResponses f (pathResponses f) ∧
      len sent ≤ 1 ∧ (sent = [] → ∀ fr rest, pathResponses f = fr :: rest → maxLen < size (FPathResponse fr)) ∧
      added frames ((λ fr, (FPathResponse fr, None)) <$> sent) frames 0 ∧ 0 ≤ maxLen ∧ framer_ok f w q) as Hnone.
  { intros Hlarge. exists []. split_and!; try done. { by destruct f. }
    split_and!; [by rewrite app_nil_r|by constructor|done]. }
  destruct Hok as [Hs Hq Ha Hc Hf Hp]. revert Hnone. destruct (pathResponses f) as [|fr rest] eqn:Hpr; intros Hnone.
  { cbn [returns]. rewrite Hpr. by apply Hnone. }
  inversion Hp as [|?? Hv Hp']; subst. rewrite frame_length_size by done. cbn [mbind result_bind returns].
  zcase; cbn [returns]; [|rewrite Hpr; apply Hnone; by intros ?? [= <- <-]]. exists [fr]. cbn [pathResponses set_pathResponses]. split_and!; try done.
  - split_and!; [done|by repeat constructor|]. simpl. lia.
Qed.

(** [asks m w left order m' w' left' new]: the streams with control frames are asked in
    some order, each until it has no more, as long as more than [maxStreamControlFrameSize]
    bytes are left in the packet; those that have no more are removed. *)
Inductive asks (now : Z) : gmap Z ptr → W → Z → list Z → gmap Z ptr → W → Z → list ctl → Prop :=
| asks_nil m w l : asks now m w l [] m w l []
| asks_gone m w l id order m' w' l' new :
    m !! id = None → asks now m w l order m' w' l' new → asks now m w l (id :: order) m' w' l' new
| asks_full m w l id order :
    is_Some (m !! id) → l ≤ maxStreamControlFrameSize → asks now m w l (id :: order) m w l []
| asks_last m w l id order p w1 o (more : bool) m' w' l' new :
    m !! id = Some p → maxStreamControlFrameSize < l → src_getControlFrame w p now = Ok (w1, o, more) →
    more = false ∨ o = None →
    asks now (if more then m else delete id m) w1 (l - total (option_list o)) order m' w' l' new →
    asks now m w l (id :: order) m' w' l' (option_list o ++ new)
| asks_more m w l id order p w1 fr m' w' l' new :
    m !! id = Some p → maxStreamControlFrameSize < l → src_getControlFrame w p now = Ok (w1, Some fr, true) →
    asks now m w1 (l - size fr.1) (id :: order) m' w' l' new →
    asks now m w l (id :: order) m' w' l' (fr :: new).

Lemma streamControlFrames_spec fuel f w q id p frames n maxLen now :
  framer_ok f w q → streamsWithControlFrames f !! id = Some p → maxLen - n ≤ Z.of_nat fuel → n ≤ maxLen →
  returns (streamControlFrames fuel f w id p frames n maxLen now) (λ '(f', w', frames', n', full),
    framer_ok f' w' q ∧ same_queues f f' ∧
    ∃ new, added frames new frames' (n' - n) ∧ n' ≤ maxLen ∧
      ∀ order m2 w2 l2 new2,
        (if (full : bool) then m2 = streamsWithControlFrames f' ∧ w2 = w' ∧ l2 = maxLen - n' ∧ new2 = []
         else asks now (streamsWithControlFrames f') w' (maxLen - n') order m2 w2 l2 new2) →
        asks now (streamsWithControlFrames f) w (maxLen - n) (id :: order) m2 w2 l2 (new ++ new2)).
Proof.
  revert f w frames n. induction fuel as [|fuel IH]; intros f w frames n Hok Hp Hfuel Hn; cbn [streamControlFrames].
  { rewrite (proj2 (Z.leb_le _ _)) by (unfold maxStreamControlFrameSize; lia). cbn [returns]. split; [done|]. split; [done|].
    exists []. split_and!; auto. intros order m2 w2 l2 new2 (-> & -> & -> & ->). apply asks_full; [by eexists|].
    unfold maxStreamControlFrameSize. lia. }
  zcase; cbn [returns].
  { split; [done|]. split; [done|]. exists []. split_and!; auto. intros order m2 w2 l2 new2 (-> & -> & -> & ->).
    apply asks_full; [by eexists|lia]. }
  apply returns_bind. pose proof (src_control w p now (fr_src _ _ _ Hok) (fr_control _ _ _ Hok _ _ Hp)) as Hcall.
  apply returns_iff in Hcall as ([[w' o] more] & Hcall & Hw' & Hmono & Hfr). rewrite Hcall. cbn [returns].
  apply (world_ok _ _ w') in Hok; [|done..]. set (f' := if more then f else _).
  assert (framer_ok f' w' q ∧ same_queues f f' ∧
    streamsWithControlFrames f' = if more then streamsWithControlFrames f else delete id (streamsWithControlFrames f)) as (Hok' & Hsame & Hm).
  { destruct more; subst f'; [done|]. destruct Hok as [Hs Hq Ha Hc Hf Hpp]. split; [|done].
    split; try done. simpl. intros i x [_ Hi]%lookup_delete_Some. by eapply Hc. }
  destruct o as [fr|]; cbn [returns].
  2:{ split; [done|]. split; [done|]. exists []. split_and!; auto. intros order m2 w2 l2 new2 Hrest. rewrite Hm in Hrest.
      eapply (asks_last _ _ _ _ _ _ _ _ None); [done..|by right|]. simpl. by rewrite Z.sub_0_r. }
  destruct (Hfr fr eq_refl) as [Hv Hsize]. rewrite frame_length_size by done. cbn [mbind result_bind].
  pose proof (size_pos fr.1). unfold maxStreamControlFrameSize in Hsize. fold (size fr.1) in Hsize.
  destruct more; cbn [returns].
  - eapply returns_mono; [apply IH; try done; unfold maxStreamControlFrameSize in *; lia|].
    intros [[[[f2 w2] frames2] n2] full] (Hok2 & (?&?&?&?) & new & (-> & Hv2 & Hn2) & Hle & Hask).
    destruct Hsame as (?&?&?&?). split; [done|]. split; [split_and!; congruence|].
    exists (fr :: new). split_and!; [split_and!; [by rewrite <-app_assoc|by constructor|simpl; lia]|done|].
    intros order m3 w3 l3 new3 Hrest. eapply asks_more; [done|lia|done|].
    replace (maxLen - n - size fr.1) with (maxLen - (n + size fr.1)) by lia. by apply Hask.
  - split; [done|]. split; [done|]. exists [fr]. unfold maxStreamControlFrameSize in *.
    split_and!; [split_and!; [done|by repeat constructor|simpl; lia]|lia|].
    intros order m2 w2 l2 new2 Hrest. rewrite Hm in Hrest. eapply (asks_last _ _ _ _ _ _ _ _ (Some fr)); [done|unfold maxStreamControlFrameSize; lia|done|by left|].
    simpl. by replace (maxLen - n - (size fr.1 + 0)) with (maxLen - (n + size fr.1)) by lia.
Qed.

Lemma appendStreamControlFrames_spec order f w q frames n maxLen now :
  framer_ok f w q → n ≤ maxLen →
  returns (appendStreamControlFrames f w order frames n maxLen now) (λ '(f', w', frames', n'),
    framer_ok f' w' q ∧ same_queues f f' ∧
    ∃ new, added frames new frames' (n' - n) ∧ n' ≤ maxLen ∧
      asks now (streamsWithControlFrames f) w (maxLen - n) order (streamsWithControlFrames f') w' (maxLen - n') new).
Proof.
  revert f w frames n. induction order as [|id order IH]; intros f w frames n Hok Hn; cbn [appendStreamControlFrames].
  { split; [done|]. split; [done|]. exists []. split_and!; auto. constructor. }
  destruct (streamsWithControlFrames f !! id) as [p|] eqn:Hp.
  2:{ eapply returns_mono; [by apply IH|]. intros [[[f1 w1] frames1] n1] (Hok1 & Hs1 & new & Had & Hle & Hask).
      split; [done|]. split; [done|]. exists new. split_and!; try done. by apply asks_gone. }
  apply returns_bind. eapply returns_mono.
  { apply (streamControlFrames_spec _ f w q); [done|done|lia|done]. }
  intros [[[[f1 w1] frames1] n1] full] (Hok1 & Hs1 & new & (-> & Hv & Hn1) & Hle & Hask).
  destruct full; cbn [returns].
  { split; [done|]. split; [done|]. exists new. split_and!; [done..|]. rewrite <-(app_nil_r new) at 1. by apply Hask. }
  eapply returns_mono; [by apply IH|].
  intros [[[f2 w2] frames2] n2] (Hok2 & Hs2 & new2 & (-> & Hv2 & Hn2) & Hle2 & Hask2).
  destruct Hs1 as (?&?&?&?), Hs2 as (?&?&?&?). split; [done|]. split; [split_and!; congruence|].
  exists (new ++ new2). split_and!; [|done|by apply Hask].
  split_and!; [by rewrite app_assoc|by apply Forall_app|rewrite total_app; lia].
Qed.

Lemma popControlFrames_spec rq frames n maxLen :
  Forall frame_valid rq → n ≤ maxLen →
  returns (popControlFrames rq frames n maxLen) (λ '(rest, frames', n'),
    ∃ sent, rq = sent ++ rest ∧ added frames ((λ fr, (fr, None)) <$> sent) frames' (n' - n) ∧ n' ≤ maxLen ∧
      ∀ fr, head rest = Some fr → maxLen < n' + size fr).
Proof.
  revert frames n. induction rq as [|fr rq IH]; intros frames n Hv Hn; cbn [popControlFrames].
  { exists []. simpl. split_and!; auto. done. }
  inversion Hv as [|?? Hv1 Hv2]; subst. rewrite frame_length_size by done. cbn [mbind result_bind]. zcase.
  { exists []. simpl. split_and!; auto. by intros ? [= <-]. }
  eapply returns_mono; [apply IH; [done|lia]|]. intros [[rest frames'] n'] (sent & -> & (-> & Hvs & Hn') & Hle).
  exists (fr :: sent). split; [done|]. split; [|done]. rewrite fmap_cons.
  split_and!; [by rewrite <-app_assoc|by constructor|rewrite total_cons; cbn [fst]; lia].
Qed.

(** The control frames of a packet: at most one PATH_RESPONSE, those of the streams, and
    the last ones of the queue. *)
Lemma appendControlFrames_spec f w q frames maxLen now order :
  framer_ok f w q → 0 ≤ maxLen →
  returns (appendControlFrames f w frames maxLen now order) (λ '(f', w', frames', n),
    framer_ok f' w' q ∧ activeStreams f' = activeStreams f ∧ streamQueue f' = streamQueue f ∧
    ∃ paths strm ctrl left,
      pathResponses f = paths ++ pathResponses f' ∧ len paths ≤ 1 ∧
      (paths = [] → ∀ fr rest, pathResponses f = fr :: rest → maxLen < size (FPathResponse fr)) ∧
      asks now (streamsWithControlFrames f) w (maxLen - total ((λ fr, (FPathResponse fr, None)) <$> paths)) order
        (streamsWithControlFrames f') w' left strm ∧
      controlFrames f = controlFrames f' ++ reverse ctrl ∧
      (∀ fr, last (controlFrames f') = Some fr → left - total ((λ fr, (fr, None)) <$> ctrl) < size fr) ∧
      added frames (((λ fr, (FPathResponse fr, None)) <$> paths) ++ strm ++ ((λ fr, (fr, None)) <$> ctrl)) frames' n ∧
      n ≤ maxLen ∧ left - total ((λ fr, (fr, None)) <$> ctrl) = maxLen - n).
Proof.
  intros Hok Hmax. unfold appendControlFrames. apply returns_bind.
  eapply returns_mono; [by apply (appendPathResponse_spec f w q)|].
  intros [[f1 frames1] n1] (paths & Hpaths & Hf1 & Hlen & Hlarge & (-> & Hv1 & ->) & Hle1 & Hok1).
  apply returns_bind. eapply returns_mono; [by apply appendStreamControlFrames_spec|].
  intros [[[f2 w2] frames2] n2] (Hok2 & (Ha & Hq & Hc & Hp) & strm & (-> & Hv2 & Hn2) & Hle2 & Hask).
  apply returns_bind. eapply returns_mono.
  { apply popControlFrames_spec; [apply Forall_reverse, (fr_frames _ _ _ Hok2)|done]. }
  intros [[rest frames3] n3] (ctrl & Hctrl & (-> & Hv3 & Hn3) & Hle3 & Hrest). cbn [returns].
  assert (controlFrames f2 = reverse rest ++ reverse ctrl) as Hctrl'.
  { rewrite <-(reverse_involutive (controlFrames f2)), Hctrl. apply reverse_app. }
  rewrite Hf1 in Ha, Hq, Hc. cbn in Ha, Hq, Hc.
  split; [|split; [done|split; [done|]]].
  - destruct Hok2 as [Hs Hqq Haa Hcc Hf Hpp]. split; try done. simpl. rewrite Hctrl', Forall_app in Hf. apply Hf.
  - exists paths, strm, ctrl, (maxLen - n2). cbn [pathResponses set_controlFrames controlFrames streamsWithControlFrames].
    split_and!; try done; try lia.
    + by rewrite Hp.
    + by rewrite Hf1 in Hask.
    + by rewrite <-Hc.
    + intros fr Hfr. rewrite last_reverse in Hfr. specialize (Hrest fr Hfr). lia.
    + unfold added. rewrite <-!app_assoc. split_and!; [done|by rewrite !Forall_app|].
      rewrite !total_app. lia.
Qed.

(** ** The streams of a packet

    [turn a w l id a' w' again sf b]: the stream [id] is asked for a frame when [l] bytes
    are left, unless it is no longer active; it may use the bytes of the length field,
    which the last frame of the packet does not need.  A stream that has more to send is
    queued [again], another one becomes inactive. *)
Inductive turn (a : gmap Z ptr) w (l : Z) id :
    gmap Z ptr → W → list Z → option (ptr * StreamFrame.t) → option StreamDataBlockedFrame.t → Prop :=
| turn_gone : a !! id = None → turn a w l id a w [] None None
| turn_pop p w' o b (more : bool) :
    a !! id = Some p → src_popStreamFrame w p (l + vlen l) = Ok (w', o, b, more) →
    turn a w l id (if more then a else delete id a) w' (if more then [id] else []) (pair p <$> o) b.

(** [serves a w l ids a' w' l' again fs bs bs']: the streams [ids] have their turns, in this
    order, as long as [MinStreamFrameSize] bytes are left.  [fs] are the STREAM frames and
    [bs] the STREAM_DATA_BLOCKED frames that are packed.  One that does not fit ([bs'])
    ends the packet. *)
Inductive serves : gmap Z ptr → W → Z → list Z → gmap Z ptr → W → Z → list Z →
    list (ptr * StreamFrame.t) → list StreamDataBlockedFrame.t → list StreamDataBlockedFrame.t → Prop :=
| serves_nil a w l : serves a w l [] a w l [] [] [] []
| serves_turn a w l id a1 w1 again1 sf b l1 ids a2 w2 l2 again fs bs bs' :
    MinStreamFrameSize ≤ l → turn a w l id a1 w1 again1 sf b → l1 = l - stream_total (option_list sf) →
    (∀ b0, b = Some b0 → size (FStreamDataBlocked b0) ≤ l1) →
    serves a1 w1 (l1 - from_option (λ b0, size (FStreamDataBlocked b0)) 0 b) ids a2 w2 l2 again fs bs bs' →
    serves a w l (id :: ids) a2 w2 l2 (again1 ++ again) (option_list sf ++ fs) (option_list b ++ bs) bs'
| serves_full a w l id a1 w1 again sf b l1 :
    MinStreamFrameSize ≤ l → turn a w l id a1 w1 again sf (Some b) → l1 = l - stream_total (option_list sf) →
    l1 < size (FStreamDataBlocked b) →
    serves a w l [id] a1 w1 l1 again (option_list sf) [] [b].

(** What the length field of the last STREAM frame takes. *)
Definition saving (news : list (ptr * StreamFrame.t)) : Z :=
  match last news with Some fr => vlen (StreamFrame.DataLen fr.2) | None => 0 end.

(** The variables of [Append] after [new] and [news] were added to its arguments. *)
Record packed frames0 (sfs0 : list (ptr * StreamFrame.t)) (c0 M : Z) (k : packing) new (news : list (ptr * StreamFrame.t)) : Prop := {
  pk_new : pk_frames k = frames0 ++ new;
  pk_news : pk_streamFrames k = sfs0 ++ news;
  pk_last : pk_lastFrame k = snd <$> last news;
  pk_slen : pk_streamFrameLen k = stream_total news;
  pk_clen : pk_controlFrameLen k = c0 + total new;
  pk_left : pk_maxLen k = M - total new - stream_total news;
  pk_valid : ctl_valid new;
  pk_svalid : Forall (λ fr, StreamFrame.valid fr.2 ∧ StreamFrame.DataLenPresent fr.2 = true) news;
  pk_fits : - saving news ≤ pk_maxLen k;
}.

(** A frame that is larger than the space that is left has a length field that is large
    enough to make up for it. *)
Lemma oversized_frame fr maxLen :
  StreamFrame.valid fr → StreamFrame.DataLenPresent fr = true →
  MinStreamFrameSize ≤ maxLen ≤ MaxPacketBufferSize → len (StreamFrame.bytes fr) ≤ maxLen + vlen maxLen →
  - vlen (StreamFrame.DataLen fr) ≤ maxLen - len (StreamFrame.bytes fr) ∧ StreamFrame.DataLen fr ≤ 16383.
Proof.
  intros [(Hid & Hoff & Hmax) _] Hp Hl. unfold MinStreamFrameSize, MaxPacketBufferSize, MaxByteCount in *.
  rewrite StreamFrame.len_bytes, Hp. unfold lenField. rewrite (vlen_2 maxLen) by lia.
  assert (0 ≤ StreamFrame.DataLen fr) by apply len_nonneg.
  pose proof (SendStream.header_len fr Hid) as Hh.
  assert (is_varint (StreamFrame.Offset fr)) as Hoff' by (unfold is_varint, maxVarInt8; lia).
  specialize (Hh Hoff'). pose proof (vlen_pos (StreamFrame.DataLen fr)). intros Hle.
  split; [|lia]. destruct (decide (StreamFrame.DataLen fr ≤ 63)).
  - rewrite (vlen_1 (StreamFrame.DataLen fr)) in * by lia. lia.
  - rewrite (vlen_2 (StreamFrame.DataLen fr)) in * by lia. lia.
Qed.

Lemma size_ok_framer maxLen :
  MinStreamFrameSize ≤ maxLen ≤ MaxPacketBufferSize → SendStream.size_ok (maxLen + vlen maxLen).
Proof.
  unfold SendStream.size_ok, MinStreamFrameSize, MaxPacketBufferSize. intros. rewrite vlen_2; lia.
Qed.

Lemma packed_stream frames0 sfs0 c0 M k new news p fr l :
  packed frames0 sfs0 c0 M k new news → StreamFrame.valid fr → StreamFrame.DataLenPresent fr = true →
  l = len (StreamFrame.bytes fr) → - vlen (StreamFrame.DataLen fr) ≤ pk_maxLen k - l →
  packed frames0 sfs0 c0 M
    (mkPacking (pk_frames k) (pk_streamFrames k ++ [(p, fr)]) (pk_maxLen k - l) (Some fr)
      (pk_streamFrameLen k + l) (pk_controlFrameLen k)) new (news ++ [(p, fr)]).
Proof.
  intros [H1 H2 H3 H4 H5 H6 H7 H8 H9] Hv Hp -> Hfit. split; simpl; try done.
  - by rewrite H2, app_assoc.
  - by rewrite last_snoc.
  - rewrite stream_total_app. simpl. lia.
  - rewrite stream_total_app. simpl. lia.
  - by rewrite Forall_app, Forall_singleton.
  - unfold saving. by rewrite last_snoc.
Qed.

Lemma packed_control frames0 sfs0 c0 M k new news fr l m' :
  packed frames0 sfs0 c0 M k new news → frame_valid fr → l = size fr → l ≤ pk_maxLen k → m' = pk_maxLen k - l →
  packed frames0 sfs0 c0 M
    (mkPacking (pk_frames k ++ [(fr, None)]) (pk_streamFrames k) m' (pk_lastFrame k)
      (pk_streamFrameLen k) (pk_controlFrameLen k + l)) (new ++ [(fr, None)]) news.
Proof.
  intros [H1 H2 H3 H4 H5 H6 H7 H8 H9] Hv -> Hle ->. split; simpl; try done.
  - by rewrite H1, app_assoc.
  - rewrite total_app, H5, total_cons. simpl. lia.
  - rewrite total_app, total_cons. simpl. lia.
  - by rewrite Forall_app, Forall_singleton.
  - unfold saving. destruct (last news) as [x|]; [|lia]. pose proof (vlen_pos (StreamFrame.DataLen x.2)). lia.
Qed.

Lemma serves_cons a w l id a1 w1 l1 again1 fs1 bs1 ids2 a2 w2 l2 again2 fs2 bs2 bs2' :
  serves a w l [id] a1 w1 l1 again1 fs1 bs1 [] → serves a1 w1 l1 ids2 a2 w2 l2 again2 fs2 bs2 bs2' →
  serves a w l (id :: ids2) a2 w2 l2 (again1 ++ again2) (fs1 ++ fs2) (bs1 ++ bs2) bs2'.
Proof.
  inversion 1; subst. intros Hs2. match goal with H : serves _ _ _ [] _ _ _ _ _ _ _ |- _ => inversion H; subst end.
  rewrite !app_nil_r. by eapply serves_turn.
Qed.

(** What serving streams leaves alone. *)
Definition same_control f f' : Prop :=
  streamsWithControlFrames f' = streamsWithControlFrames f ∧ pathResponses f' = pathResponses f.

Lemma streams_ok f w q a r q' :
  framer_ok f w q → holds r q' → (∀ id p, a !! id = Some p → id ∈ q' ∧ src_has w p) →
  framer_ok (set_streams f a r) w q'.
Proof. intros [] Hr Ha. by split. Qed.

Lemma getNextStreamFrame_spec f w id q maxLen :
  framer_ok f w (id :: q) → MinStreamFrameSize ≤ maxLen ≤ MaxPacketBufferSize →
  returns (getNextStreamFrame f w maxLen) (λ '(f', w', sf, blocked), ∃ again,
    framer_ok f' w' (q ++ again) ∧ same_control f f' ∧ controlFrames f' = controlFrames f ∧
    turn (activeStreams f) w maxLen id (activeStreams f') w' again sf blocked ∧
    (∀ p fr, sf = Some (p, fr) → StreamFrame.valid fr ∧ StreamFrame.DataLenPresent fr = true ∧
       len (StreamFrame.bytes fr) ≤ maxLen + vlen maxLen) ∧
    (∀ b, blocked = Some b → StreamDataBlockedFrame.valid b)).
Proof.
  intros Hok Hmax. unfold getNextStreamFrame. apply returns_bind.
  eapply returns_mono; [by eapply (PopFront_spec 0), fr_queue|]. intros [r x] [Hr Hx]. simpl in Hr, Hx. subst x.
  destruct (activeStreams f !! id) as [p|] eqn:Hp.
  - unfold popActiveStream.
    rewrite Len_vlen by (unfold is_varint, maxVarInt8, MaxPacketBufferSize, MinStreamFrameSize in *; lia).
    cbn [mbind result_bind]. apply returns_bind. destruct (fr_active _ _ _ Hok id p Hp) as [_ Hhas].
    pose proof (src_pop w p _ (fr_src _ _ _ Hok) Hhas (size_ok_framer _ Hmax)) as Hpop.
    apply returns_iff in Hpop as ([[[w' o] b] more] & Hpop & Hw' & Hmono & Hfr & Hb). rewrite Hpop.
    apply (world_ok _ _ w') in Hok; [|done..]. cbn [returns].
    pose proof (turn_pop _ _ _ _ _ _ _ _ _ Hp Hpop) as Hserve.
    replace (match o with Some fr => Some (p, fr) | None => None end) with (pair p <$> o) in * by by destruct o.
    assert (∀ sf, sf = pair p <$> o →
      ∀ p fr, sf = Some (p, fr) → StreamFrame.valid fr ∧ StreamFrame.DataLenPresent fr = true ∧
        len (StreamFrame.bytes fr) ≤ maxLen + vlen maxLen) as Hsf.
    { intros sf -> p' fr' E. destruct o as [fr|]; [|done]. injection E as <- <-. by apply Hfr. }
    unfold requeue. destruct more.
    + pose proof (PushBack_spec 0 r q id Hr) as Hpush.
      apply returns_iff in Hpush as (r' & -> & Hr'). simpl. exists [id].
      split_and!; try done; [|by apply Hsf].
      apply (streams_ok _ _ (id :: q)); [done..|]. intros i x Hi.
      destruct (fr_active _ _ _ Hok i x Hi) as [Hi' ?]. split; [set_solver|done].
    + simpl. exists []. rewrite app_nil_r. split_and!; try done; [|by apply Hsf].
      apply (streams_ok _ _ (id :: q)); [done..|]. intros i x [Hne Hi]%lookup_delete_Some.
      destruct (fr_active _ _ _ Hok i x Hi) as [Hi' ?]. split; [set_solver|done].
  - simpl. exists []. rewrite app_nil_r. split_and!; try done; [|by constructor].
    apply (streams_ok _ _ (id :: q)); [done..|]. intros i x Hi.
    destruct (fr_active _ _ _ Hok i x Hi) as [Hi' ?]. split; [|done]. apply elem_of_cons in Hi' as [->|]; [congruence|done].
Qed.

Abbreviation blocked_ctl := (λ b : StreamDataBlockedFrame.t, (FStreamDataBlocked b, @None ptr)).

Lemma appendStreamFrame_spec frames0 sfs0 c0 M f w id q k new news :
  framer_ok f w (id :: q) → packed frames0 sfs0 c0 M k new news →
  MinStreamFrameSize ≤ pk_maxLen k ≤ MaxPacketBufferSize →
  returns (appendStreamFrame f w k) (λ '(f', w', k', stop), ∃ again fs bs bs',
    framer_ok f' w' (q ++ again) ∧ same_control f f' ∧
    serves (activeStreams f) w (pk_maxLen k) [id] (activeStreams f') w' (pk_maxLen k') again fs bs bs' ∧
    packed frames0 sfs0 c0 M k' (new ++ (blocked_ctl <$> bs)) (news ++ fs) ∧
    controlFrames f' = controlFrames f ++ (FStreamDataBlocked <$> bs') ∧
    pk_maxLen k' ≤ MaxPacketBufferSize ∧
    (if stop then pk_maxLen k' < MinStreamFrameSize else bs' = [])).
Proof.
  intros Hok Hk Hmax. unfold appendStreamFrame. apply returns_bind.
  eapply returns_mono; [by apply getNextStreamFrame_spec|].
  intros [[[f' w'] sf] blocked] (again & Hok' & Hsame & Hctl & Hserve & Hsf & Hb).
  set (m := match sf with None => Ok k | Some sf => _ end).
  assert (∃ k', m = Ok k' ∧ packed frames0 sfs0 c0 M k' new (news ++ option_list sf) ∧
    pk_maxLen k' ≤ MaxPacketBufferSize ∧ pk_maxLen k' = pk_maxLen k - stream_total (option_list sf)) as (k' & -> & Hk' & Hle & Hleft).
  { destruct sf as [[p fr]|]; subst m.
    - destruct (Hsf p fr eq_refl) as (Hv & Hp & Hlen). rewrite stream_length by done. eexists. split; [done|].
      destruct (oversized_frame fr (pk_maxLen k) Hv Hp Hmax Hlen) as [? _].
      split; [by apply packed_stream|]. simpl. pose proof (len_nonneg (StreamFrame.bytes fr)). lia.
    - simpl. rewrite app_nil_r. exists k. split_and!; [done|done|lia|lia]. }
  assert (MinStreamFrameSize ≤ pk_maxLen k) as Hmin by lia.
  cbn [mbind result_bind]. destruct blocked as [b|]; cbn [returns].
  2:{ exists again, (option_list sf), [], []. rewrite !app_nil_r. split_and!; try done.
      pose proof (serves_turn _ _ _ _ _ _ _ _ _ _ [] _ _ _ _ _ _ _ Hmin Hserve Hleft ltac:(done) (serves_nil _ _ _)) as Hs.
      by rewrite !app_nil_r, Z.sub_0_r in Hs. }
  specialize (Hb b eq_refl).
  rewrite (frame_length_size (FStreamDataBlocked b) Hb : StreamDataBlockedFrame.Length b = _). cbn [mbind result_bind].
  assert (size (FStreamDataBlocked b) ≤ 17) as Hsize.
  { unfold size, frame_bytes, encode. rewrite len_cons. simpl. unfold StreamDataBlockedFrame.body.
    rewrite len_app, !len_venc. pose proof (vlen_pos (StreamDataBlockedFrame.StreamID b)).
    pose proof (vlen_pos (StreamDataBlockedFrame.MaximumStreamData b)). lia. }
  zcase; cbn [returns].
  - exists again, (option_list sf), [], [b]. rewrite !app_nil_r. split_and!; try done.
    2:{ by eapply serves_full. }
    + destruct Hok' as [? ? ? ? Hf ?]. split; try done. simpl. by rewrite Forall_app, Forall_singleton.
    + simpl. by rewrite Hctl.
    + unfold MinStreamFrameSize. lia.
  - exists again, (option_list sf), [b], []. split_and!; try done.
    + pose proof (serves_turn _ _ _ _ _ _ _ _ _ _ [] _ _ _ _ _ _ _ Hmin Hserve Hleft ltac:(by intros ? [= <-]) (serves_nil _ _ _)) as Hs.
      by rewrite !app_nil_r in Hs.
    + by apply packed_control.
    + by rewrite app_nil_r.
    + simpl. pose proof (size_pos (FStreamDataBlocked b)). lia.
Qed.

(** The result of the loop: the first streams of the queue were served. *)
Definition served_prefix frames0 sfs0 (c0 M : Z) f w q (l : Z) new news (n : nat) (r : framer * W * packing) : Prop :=
  let '(f', w', k') := r in ∃ ids rest again fs bs bs',
    q = ids ++ rest ∧ framer_ok f' w' (rest ++ again) ∧ same_control f f' ∧
    serves (activeStreams f) w l ids (activeStreams f') w' (pk_maxLen k') again fs bs bs' ∧
    packed frames0 sfs0 c0 M k' (new ++ (blocked_ctl <$> bs)) (news ++ fs) ∧
    controlFrames f' = controlFrames f ++ (FStreamDataBlocked <$> bs') ∧
    (length ids ≤ n)%nat ∧ (length ids = n ∨ pk_maxLen k' < MinStreamFrameSize).

Lemma served_none frames0 sfs0 c0 M f w q k new news n :
  framer_ok f w q → packed frames0 sfs0 c0 M k new news → n = O ∨ pk_maxLen k < MinStreamFrameSize →
  served_prefix frames0 sfs0 c0 M f w q (pk_maxLen k) new news n (f, w, k).
Proof.
  intros Hok Hk Hn. exists [], q, [], [], [], []. rewrite !app_nil_r. split_and!; try done.
  - constructor.
  - simpl. lia.
  - simpl. destruct Hn; auto.
Qed.

Lemma served_more frames0 sfs0 c0 M f w id q l new news n f1 w1 k1 again fs bs r :
  framer_ok f1 w1 (q ++ again) → same_control f f1 →
  serves (activeStreams f) w l [id] (activeStreams f1) w1 (pk_maxLen k1) again fs bs [] →
  packed frames0 sfs0 c0 M k1 (new ++ (blocked_ctl <$> bs)) (news ++ fs) →
  controlFrames f1 = controlFrames f → (n ≤ length q)%nat →
  served_prefix frames0 sfs0 c0 M f1 w1 (q ++ again) (pk_maxLen k1) (new ++ (blocked_ctl <$> bs)) (news ++ fs) n r →
  served_prefix frames0 sfs0 c0 M f w (id :: q) l new news (S n) r.
Proof.
  destruct r as [[f2 w2] k2].
  intros Hok1 Hsame Hs Hk Hc Hlen (ids & rest & again2 & fs2 & bs2 & bs2' & Hq & Hok2 & Hsame2 & Hs2 & Hk2 & Hc2 & Hle & Hend).
  assert (∃ r, q = ids ++ r ∧ rest = r ++ again) as (r & -> & ->).
  { apply app_eq_inv in Hq as [(r & -> & ->)|(r & -> & ->)]; [by exists r|].
    rewrite length_app in *. assert (r = []) as -> by (apply nil_length_inv; lia).
    exists []. by rewrite !app_nil_r. }
  exists (id :: ids), r, (again ++ again2), (fs ++ fs2), (bs ++ bs2), bs2'. rewrite fmap_app, !app_assoc in *.
  destruct Hsame, Hsame2. split_and!; try done.
  - split; congruence.
  - by eapply serves_cons.
  - by rewrite Hc2, Hc.
  - simpl. lia.
  - simpl. destruct Hend; auto.
Qed.

Lemma appendStreamFrames_spec frames0 sfs0 c0 M n f w q k new news :
  framer_ok f w q → packed frames0 sfs0 c0 M k new news → pk_maxLen k ≤ MaxPacketBufferSize → (n ≤ length q)%nat →
  returns (appendStreamFrames n f w k) (served_prefix frames0 sfs0 c0 M f w q (pk_maxLen k) new news n).
Proof.
  revert f w q k new news. induction n as [|n IH]; intros f w q k new news Hok Hk Hmax Hn; cbn [appendStreamFrames].
  { apply served_none; auto. }
  zcase; [apply served_none; auto|]. destruct q as [|id q]; [simpl in Hn; lia|].
  apply returns_bind. eapply returns_mono; [by eapply appendStreamFrame_spec|].
  intros [[[f1 w1] k1] stop] (again & fs & bs & bs' & Hok1 & Hsame & Hs & Hk1 & Hc & Hmax1 & Hstop).
  simpl in Hn. destruct stop; cbn [returns].
  - exists [id], q, again, fs, bs, bs'. split_and!; try done; [simpl; lia|by right].
  - subst bs'. rewrite fmap_nil, !app_nil_r in *. eapply returns_mono.
    { apply (IH f1 w1 (q ++ again)); try done. rewrite length_app. lia. }
    intros r Hr. by eapply served_more; try lia.
Qed.

(** ** [Append] *)

(** The last STREAM frame loses its length field. *)
Definition drop_length (fs : list (ptr * StreamFrame.t)) : list (ptr * StreamFrame.t) :=
  match last fs with
  | Some (p, fr) => removelast fs ++ [(p, SendRuns.set_present fr false)]
  | None => fs
  end.

Definition plain (l : list frame) : list ctl := (λ fr, (fr, None)) <$> l.

(** What a packet gets.  [packet_size]: the frames are valid and take [n] bytes, at most
    [maxLen].  [packet_content]: from the state and the streams at the beginning ([w]) to
    those at the end ([w']),
    - the first PATH_RESPONSE is sent if it fits, the others stay;
    - the streams with control frames are asked for them;
    - of the queued control frames, as many as fit are sent, from the last one; the others
      are [kept];
    - the active streams have their turns, from the front of the queue, until all had one
      or less than [MinStreamFrameSize] bytes are left; those that have more to send go to
      the end of the queue;
    - if the connection is blocked, a DATA_BLOCKED frame is sent if it fits ([db]);
    - the blocked frames that do not fit ([bs'], [db']) are queued. *)
Record packet_ok f w q frames sfs maxLen now order f' w' q' frames' sfs' (n : Z) : Prop := {
  packet_framer : framer_ok f' w' q';
  packet_size : ∃ new news, frames' = frames ++ new ∧ sfs' = sfs ++ news ∧
    ctl_valid new ∧ Forall (λ fr, StreamFrame.valid fr.2) news ∧
    n = total new + stream_total news ∧ 0 ≤ n ≤ maxLen;
  packet_content : ∃ paths w1 l1 strm kept ctrl ids rest again w2 l2 fs bs bs' blocked offset db db',
    pathResponses f = paths ++ pathResponses f' ∧ len paths ≤ 1 ∧
    (paths = [] → ∀ fr rest, pathResponses f = fr :: rest → maxLen < size (FPathResponse fr)) ∧
    asks now (streamsWithControlFrames f) w (maxLen - total (plain (FPathResponse <$> paths))) order
      (streamsWithControlFrames f') w1 l1 strm ∧
    controlFrames f = kept ++ reverse ctrl ∧ (∀ fr, last kept = Some fr → l1 - total (plain ctrl) < size fr) ∧
    q = ids ++ rest ∧ q' = rest ++ again ∧
    serves (activeStreams f) w1 (l1 - total (plain ctrl)) ids (activeStreams f') w2 l2 again fs bs bs' ∧
    (rest = [] ∨ l2 < MinStreamFrameSize) ∧
    src_IsNewlyBlocked w2 = (w', (blocked, offset)) ∧
    db ++ db' = (if (blocked : bool) then [FDataBlocked (DataBlockedFrame.mk offset)] else []) ∧
    Forall (λ fr, size fr ≤ l2) db ∧ Forall (λ fr, l2 < size fr) db' ∧
    frames' = frames ++ plain (FPathResponse <$> paths) ++ strm ++ plain (ctrl ++ (FStreamDataBlocked <$> bs) ++ db) ∧
    sfs' = sfs ++ drop_length fs ∧
    controlFrames f' = kept ++ (FStreamDataBlocked <$> bs') ++ db';
}.

Lemma appendDataBlocked_spec frames0 sfs0 c0 M f w q k new news :
  framer_ok f w q → packed frames0 sfs0 c0 M k new news →
  returns (appendDataBlocked f w k) (λ '(f', w', k'), ∃ direct queued,
    framer_ok f' w' q ∧ same_control f f' ∧ activeStreams f' = activeStreams f ∧
    controlFrames f' = controlFrames f ++ queued ∧
    (∃ blocked offset, src_IsNewlyBlocked w = (w', (blocked, offset)) ∧
       direct ++ queued = (if (blocked : bool) then [FDataBlocked (DataBlockedFrame.mk offset)] else [])) ∧
    Forall (λ fr, size fr ≤ pk_maxLen k) direct ∧ Forall (λ fr, pk_maxLen k < size fr) queued ∧
    pk_maxLen k' = pk_maxLen k ∧
    ∃ m, packed frames0 sfs0 c0 M (mkPacking (pk_frames k') (pk_streamFrames k') m (pk_lastFrame k')
           (pk_streamFrameLen k') (pk_controlFrameLen k')) (new ++ plain direct) news ∧ m ≤ pk_maxLen k).
Proof.
  intros Hok Hk. unfold appendDataBlocked. pose proof (src_blocked w (fr_src _ _ _ Hok)) as Hb.
  destruct (src_IsNewlyBlocked w) as [w' [blocked offset]] eqn:E. destruct Hb as (Hw' & Hmono & Hoff).
  apply (world_ok _ _ w') in Hok; [|done..].
  assert (packed frames0 sfs0 c0 M (mkPacking (pk_frames k) (pk_streamFrames k) (pk_maxLen k) (pk_lastFrame k)
    (pk_streamFrameLen k) (pk_controlFrameLen k)) (new ++ []) news) as Hk' by (rewrite app_nil_r; by destruct k).
  destruct blocked; cbn [returns].
  2:{ exists [], []. rewrite !app_nil_r. split_and!; try done; [by eexists _, _|].
      exists (pk_maxLen k). split; [by rewrite <-(app_nil_r new)|lia]. }
  set (fr := DataBlockedFrame.mk offset). assert (frame_valid (FDataBlocked fr)) as Hv by by apply Hoff.
  rewrite (frame_length_size _ Hv : DataBlockedFrame.Length fr = _). cbn [mbind result_bind]. zcase; cbn [returns].
  - exists [FDataBlocked fr], []. split_and!; try done; [by rewrite app_nil_r|by eexists _, _|by apply Forall_singleton|].
    exists (pk_maxLen k - size (FDataBlocked fr)). pose proof (size_pos (FDataBlocked fr)).
    split; [|lia]. by apply (packed_control _ _ _ _ k).
  - exists [], [FDataBlocked fr]. split_and!; try done; [|by eexists _, _|apply Forall_singleton; lia|].
    + destruct Hok as [? ? ? ? Hf ?]. split; try done. simpl. by rewrite Forall_app, Forall_singleton.
    + by exists (pk_maxLen k).
Qed.

Lemma stream_total_drop p fr :
  StreamFrame.DataLenPresent fr = true →
  stream_total [(p, SendRuns.set_present fr false)] = stream_total [(p, fr)] - vlen (StreamFrame.DataLen fr).
Proof.
  intros Hp. simpl. rewrite !StreamFrame.len_bytes, Hp. unfold lenField. simpl.
  change (StreamFrame.header (SendRuns.set_present fr false)) with (StreamFrame.header fr).
  change (StreamFrame.DataLen (SendRuns.set_present fr false)) with (StreamFrame.DataLen fr). lia.
Qed.

Lemma dropLastLength_spec frames0 sfs0 c0 M k new news :
  packed frames0 sfs0 c0 M k new news →
  returns (dropLastLength k) (λ '(sfs', n), ∃ news',
    news' = drop_length news ∧ sfs' = sfs0 ++ news' ∧ Forall (λ fr, StreamFrame.valid fr.2) news' ∧
    n = stream_total news' ∧ n = stream_total news - saving news).
Proof.
  intros [H1 H2 H3 H4 H5 H6 H7 H8 H9]. unfold dropLastLength, saving. rewrite H3.
  destruct news as [|[p fr] news _] using rev_ind; cbn [fmap option_fmap option_map].
  { simpl. exists []. rewrite H2, H4. split_and!; try done. }
  rewrite last_snoc in *. simpl. rewrite H2, app_assoc, last_snoc.
  rewrite Forall_app, Forall_singleton in H8. destruct H8 as [H8 [Hv Hp]]. simpl in Hv, Hp.
  assert (StreamFrame.valid (SendRuns.set_present fr false)) as Hv' by done.
  rewrite !stream_length by done. cbn [mbind result_bind returns].
  rewrite removelast_last. exists (news ++ [(p, SendRuns.set_present fr false)]).
  pose proof (stream_total_drop p fr Hp) as Ht. rewrite H4, !stream_total_app, Ht in *. simpl in Ht |- *.
  split_and!.
  - unfold drop_length. by rewrite last_snoc, removelast_last.
  - by rewrite app_assoc.
  - rewrite Forall_app, Forall_singleton. split; [|done]. eapply Forall_impl; [done|]. by intros ? [].
  - lia.
  - lia.
Qed.

Lemma stream_total_nonneg l : 0 ≤ stream_total l.
Proof. induction l as [|x l IH]; simpl; [done|]. len_lia. Qed.

Lemma saving_small frames0 sfs0 c0 M k new news :
  packed frames0 sfs0 c0 M k new news → M ≤ MaxPacketBufferSize → 0 ≤ saving news ≤ 2.
Proof.
  intros [H1 H2 H3 H4 H5 H6 H7 H8 H9] HM. unfold saving, MaxPacketBufferSize in *.
  destruct news as [|[p fr] news _] using rev_ind; simpl; [lia|]. rewrite last_snoc in *. simpl in *.
  pose proof (vlen_pos (StreamFrame.DataLen fr)) as Hpos. split; [lia|].
  rewrite stream_total_app in H6. pose proof (stream_total_nonneg news). pose proof (total_nonneg new). simpl in H6.
  rewrite StreamFrame.len_bytes in H6. pose proof (len_nonneg (StreamFrame.header fr)).
  assert (0 ≤ lenField (StreamFrame.DataLenPresent fr) (StreamFrame.DataLen fr)).
  { unfold lenField. destruct (StreamFrame.DataLenPresent fr); lia. }
  transitivity (vlen 16383); [|done]. apply vlen_mono. lia.
Qed.

Lemma Append_spec f w q frames sfs maxLen now order :
  framer_ok f w q → 0 ≤ maxLen ≤ MaxPacketBufferSize →
  returns (Append f w frames sfs maxLen now order) (λ '(f', w', frames', sfs', n), ∃ q',
    packet_ok f w q frames sfs maxLen now order f' w' q' frames' sfs' n).
Proof.
  intros Hok Hmax. unfold Append. apply returns_bind.
  eapply returns_mono; [apply (appendControlFrames_spec f w q); [done|lia]|].
  intros [[[f1 w1] frames1] n1]
    (Hok1 & Ha1 & Hq1 & paths & strm & ctrl & l1 & Hpaths & Hlen & Hlarge & Hask & Hctrl & Hkept & (-> & Hv1 & ->) & Hle1 & Hl1).
  set (new1 := _ ++ strm ++ _) in *. pose proof (total_nonneg new1).
  assert (packed (frames ++ new1) sfs (total new1) (maxLen - total new1)
    (mkPacking (frames ++ new1) sfs (maxLen - total new1) None 0 (total new1)) [] []) as Hk0.
  { split; unfold saving; simpl; rewrite ?app_nil_r; try done; try lia; by constructor. }
  apply returns_bind. rewrite (holds_Len _ _ (fr_queue _ _ _ Hok1)). unfold len at 1. rewrite Nat2Z.id.
  eapply returns_mono; [apply (appendStreamFrames_spec _ _ _ _ _ _ _ _ _ _ _ Hok1 Hk0); simpl; lia|].
  intros [[f2 w2] k2] (ids & rest & again & fs & bs & bs' & Hq & Hok2 & Hsame2 & Hs & Hk2 & Hc2 & _ & Hend).
  apply returns_bind. eapply returns_mono; [by eapply appendDataBlocked_spec|].
  intros [[f3 w3] k3] (db & db' & Hok3 & Hsame3 & Ha3 & Hc3 & (blocked & offset & Hb & Hdb) & Hf1 & Hf2 & Hm3 & m & Hk3 & Hm).
  apply returns_bind.
  eapply returns_mono; [exact (dropLastLength_spec _ _ _ _ _ _ _ Hk3)|].
  intros [sfs' n'] (news' & Hnews & -> & Hv' & -> & Hn). cbn [returns].
  pose proof (saving_small _ _ _ _ _ _ _ Hk3 ltac:(lia)) as Hsav. rewrite app_nil_l in *.
  pose proof (pk_fits _ _ _ _ _ _ _ Hk3) as Hfit. pose proof (pk_left _ _ _ _ _ _ _ Hk3) as Hleft. simpl in Hfit, Hleft.
  pose proof (pk_new _ _ _ _ _ _ _ Hk3) as Hnew. pose proof (pk_clen _ _ _ _ _ _ _ Hk3) as Hclen. simpl in Hnew, Hclen.
  rewrite Hnew, Hclen, Hn. exists (rest ++ again). destruct Hsame2 as [Hs2 Hs2'], Hsame3 as [Hs3 Hs3']. split.
  - done.
  - exists (new1 ++ (blocked_ctl <$> bs) ++ plain db), news'.
    rewrite !total_app in *. rewrite <-!app_assoc. rewrite Hn. pose proof (stream_total_nonneg news').
    pose proof (total_nonneg (blocked_ctl <$> bs)). pose proof (total_nonneg (plain db)).
    pose proof (pk_valid _ _ _ _ _ _ _ Hk3). split_and!; try done; try lia. by apply Forall_app.
  - exists paths, w1, l1, strm, (controlFrames f1), ctrl, ids, rest, again, w2, (pk_maxLen k2), fs, bs, bs', blocked, offset, db, db'.
    unfold plain. rewrite <-list_fmap_compose. rewrite Hs3, Hs2, Hs3', Hs2'. split_and!; try done.
    + rewrite Ha3, Hl1, <-Ha1. exact Hs.
    + destruct Hend as [Hend|Hend]; [left|by right].
      apply nil_length_inv. apply (f_equal length) in Hq. rewrite length_app in Hq. lia.
    + unfold new1. rewrite !fmap_app, <-!list_fmap_compose, <-!app_assoc. done.
    + by rewrite Hnews.
    + by rewrite Hc3, Hc2, <-app_assoc.
Qed.

(** ** All sequences of operations

    The connection adds and removes streams and queues frames, packets are filled, and in
    between the streams change ([w'] has at least the streams of [w]). *)
Inductive framer_step : framer * W → framer * W → Prop :=
| step_active f w id p f' : src_has w p → AddActiveStream f id p = Ok f' → framer_step (f, w) (f', w)
| step_remove f w id : framer_step (f, w) (RemoveActiveStream f id, w)
| step_control f w id p : src_has w p → framer_step (f, w) (AddStreamWithControlFrames f id p, w)
| step_queue f w fr : frame_valid fr → framer_step (f, w) (QueueControlFrame f fr, w)
| step_rejected f w : framer_step (f, w) (Handle0RTTRejection f, w)
| step_append f w frames sfs maxLen now order f' w' frames' sfs' n :
    0 ≤ maxLen ≤ MaxPacketBufferSize →
    Append f w frames sfs maxLen now order = Ok (f', w', frames', sfs', n) → framer_step (f, w) (f', w')
| step_world f w w' : src_ok w' → (∀ p, src_has w p → src_has w' p) → framer_step (f, w) (f, w').

Definition framer_reachable (w0 : W) : framer * W → Prop := rtc framer_step (newFramer, w0).

Lemma AddActiveStream_ok f w q id p :
  framer_ok f w q → src_has w p → returns (AddActiveStream f id p) (λ f', ∃ q', framer_ok f' w q' ∧ id ∈ q').
Proof.
  intros Hok Hp. unfold AddActiveStream. destruct (activeStreams f !! id) as [x|] eqn:Hid; cbn [returns].
  { exists q. split; [done|]. by eapply fr_active. }
  apply returns_bind. eapply returns_mono; [by eapply PushBack_spec, fr_queue|]. intros r Hr. simpl.
  exists (q ++ [id]). split; [|set_solver]. eapply streams_ok; [done..|]. intros i x.
  destruct (decide (i = id)) as [->|]; [rewrite lookup_insert_eq; intros [= <-]; split; [set_solver|done]|].
  rewrite lookup_insert_ne by done. intros Hi. destruct (fr_active _ _ _ Hok i x Hi). split; [set_solver|done].
Qed.

Lemma QueueControlFrame_ok f w q fr : framer_ok f w q → frame_valid fr → framer_ok (QueueControlFrame f fr) w q.
Proof.
  intros [] Hv. destruct fr; unfold QueueControlFrame; zcase; try done;
    (split; try done; simpl; rewrite Forall_app, Forall_singleton; done).
Qed.

Lemma framer_step_ok s s' :
  framer_step s s' → (∃ q, framer_ok s.1 s.2 q) → ∃ q, framer_ok s'.1 s'.2 q.
Proof.
  intros Hs [q Hok]. destruct Hs as [f w id p f' Hp Ha|f w id|f w id p Hp|f w fr Hv|f w|f w ? ? ? ? ? ? ? ? ? ? Hm Ha|f w w' Hw Hh]; simpl in *.
  - pose proof (AddActiveStream_ok f w q id p Hok Hp) as H. rewrite Ha in H. destruct H as (q' & ? & _). eauto.
  - exists q. eapply streams_ok; [done|apply Hok|]. intros i x [_ Hi]%lookup_delete_Some. by eapply fr_active.
  - exists q. unfold AddStreamWithControlFrames. destruct (streamsWithControlFrames f !! id); [done|].
    destruct Hok as [? ? ? Hc ? ?]. split; try done. simpl. intros i x.
    destruct (decide (i = id)) as [->|]; [rewrite lookup_insert_eq; by intros [= <-]|].
    rewrite lookup_insert_ne by done. apply Hc.
  - exists q. by apply QueueControlFrame_ok.
  - exists []. destruct Hok. split; simpl; try done; [apply holds_cleared|].
    rewrite Forall_forall in *. intros fr [_ Hfr]%list_elem_of_filter. by apply fr_frames0.
  - pose proof (Append_spec f w q frames sfs maxLen now order Hok Hm) as H. rewrite Ha in H.
    destruct H as (q' & H). eauto using packet_framer.
  - eauto using world_ok.
Qed.

Lemma framer_reachable_ok w0 f w : src_ok w0 → framer_reachable w0 (f, w) → ∃ q, framer_ok f w q.
Proof.
  intros Hw Hr. change (∃ q, framer_ok (f, w).1 (f, w).2 q).
  eapply (rtc_ind_r (λ s, ∃ q, framer_ok s.1 s.2 q)); [|eauto using framer_step_ok|exact Hr].
  exists []. by split; simpl; auto using holds_cleared.
Qed.

(** C6: the framer fills packets correctly.  In every state that operations of the
    connection and of the streams lead to, [Append] returns; the frames that it adds are
    valid and take exactly the number of bytes that it reports, at most [maxLen], although
    it lets a STREAM frame be larger because the last one loses its length field.  The
    contents of the packet and the state afterwards follow from the queues and from what
    the streams return, as [packet_ok] says: a queued control frame is sent or stays
    queued, at most one PATH_RESPONSE is sent per packet, the entries of the queue of
    active streams have their turns one after the other, and a STREAM_DATA_BLOCKED or
    DATA_BLOCKED frame is sent if it fits and otherwise queued for the next packet. *)
Theorem framer_packets w0 f w frames sfs maxLen now order :
  src_ok w0 → framer_reachable w0 (f, w) → 0 ≤ maxLen ≤ MaxPacketBufferSize →
  ∃ q f' w' frames' sfs' n q',
    Append f w frames sfs maxLen now order = Ok (f', w', frames', sfs', n) ∧
    framer_ok f w q ∧ packet_ok f w q frames sfs maxLen now order f' w' q' frames' sfs' n.
Proof.
  intros Hw Hr Hmax. destruct (framer_reachable_ok _ _ _ Hw Hr) as [q Hok].
  pose proof (Append_spec f w q frames sfs maxLen now order Hok Hmax) as H.
  apply returns_iff in H as ([[[[f' w'] frames'] sfs'] n] & Ha & q' & Hp). by exists q, f', w', frames', sfs', n, q'.
Qed.
End specs.

(** ** Sending streams as a source

    The streams of a connection at their addresses, with the flow controller that they
    share.  A stream works with the current state of that controller.  [pool] and [stale]
    are the contents of the buffers that the pool hands out. *)
Abbreviation stream_fc := (streamFlowController * connectionFlowController)%type (only parsing).

Record world := mkWorld {
  w_streams : gmap ptr (SendRuns.sys stream_fc);
  w_conn : connectionFlowController;
  w_pool : list byte;
  w_stale : bool;
}.
Implicit Types (u : world).

Definition w_set u p (y : SendRuns.sys stream_fc) : world :=
  mkWorld (<[p := y]> (w_streams u)) (SendStream.flowController (SendRuns.str y)).2 (w_pool u) (w_stale u).

(** The stream at [p], with the current state of the connection's controller. *)
Definition w_get u p : option (SendRuns.sys stream_fc) :=
  (λ y, SendRuns.with_str y (SendStream.set_flowController (SendRuns.str y)
          ((SendStream.flowController (SendRuns.str y)).1, w_conn u))) <$> w_streams u !! p.

Definition w_pop u p (maxBytes : Z) : res (world * option StreamFrame.t * option StreamDataBlockedFrame.t * bool) :=
  match w_get u p with
  | None => Panic
  | Some y =>
      let s := SendRuns.str y in
      '(s', o, blocked, more) ← SendStream.popStreamFrame (w_pool u) (w_stale u) s maxBytes;
      let y' := match o with
                | None => SendRuns.with_str y s'
                | Some fr => SendRuns.mkSys s' (SendRuns.writing y) (SendRuns.app y)
                    (SendRuns.sent y ++ take (Z.to_nat (SendStream.writeOffset s' - SendStream.writeOffset s)) (StreamFrame.Data fr))
                    (SendRuns.outstanding y ++ [fr]) (SendRuns.resets y) (SendRuns.acked y)
                end in
      Ok (w_set u p y', o, blocked, more)
  end.

Definition w_control u p (now : Z) : res (world * option ctl * bool) :=
  match w_get u p with
  | None => Panic
  | Some y =>
      let '(s, o) := SendStream.getControlFrame (SendRuns.str y) in
      Ok (w_set u p (SendRuns.mkSys s (SendRuns.writing y) (SendRuns.app y) (SendRuns.sent y) (SendRuns.outstanding y)
                       (SendRuns.resets y ++ option_list o) (SendRuns.acked y)),
          (λ fr, (FResetStream fr, Some p)) <$> o, false)
  end.

#[global] Instance world_source : StreamSource world := {|
  src_popStreamFrame := w_pop;
  src_getControlFrame := w_control;
  src_IsNewlyBlocked u :=
    let '(c, r) := IsNewlyBlocked (w_conn u) in (mkWorld (w_streams u) c (w_pool u) (w_stale u), r);
|}.

(** Every stream satisfies its invariant, and the codes of its resets can be encoded. *)
Record world_valid u : Prop := {
  wv_pool : len (w_pool u) = MaxPacketBufferSize;
  wv_limit : 0 ≤ sendWindow (w_conn u) ≤ MaxByteCount;
  wv_streams p y : w_streams u !! p = Some y → SendRuns.inv y ∧
    ∀ fr, SendStream.queuedResetStreamFrame (SendRuns.str y) = Some fr → ResetStreamFrame.valid fr;
}.

(** What popping a frame leaves alone. *)
Section pop_keeps.
Import SendStream.
Implicit Types (s : sendStream stream_fc).

Lemma popNewStreamFrame_keeps pool stale s n win s' o more :
  popNewStreamFrame pool stale s n win = Ok (s', o, more) →
  queuedResetStreamFrame s' = queuedResetStreamFrame s ∧ flowController s' = flowController s.
Proof.
  unfold popNewStreamFrame, popNewStreamFrameWithoutBuffer, getDataForWriting, splitNextFrame. intros H. by res_cases.
Qed.

Lemma accountFrame_keeps s fr win s' blocked :
  accountFrame s fr win = (s', blocked) →
  queuedResetStreamFrame s' = queuedResetStreamFrame s ∧
  sendWindow (flowController s').2 = sendWindow (flowController s).2 ∧
  ∀ b, blocked = Some b → b = StreamDataBlockedFrame.mk (streamID s') (writeOffset s').
Proof.
  unfold accountFrame, IsNewlyBlocked_, stream_flow, Stream_IsNewlyBlocked. intros H. res_cases; split_and!; simpl; congruence.
Qed.

Lemma popStreamFrame_keeps pool stale s n s' o blocked more :
  popStreamFrame pool stale s n = Ok (s', o, blocked, more) →
  queuedResetStreamFrame s' = queuedResetStreamFrame s ∧
  sendWindow (flowController s').2 = sendWindow (flowController s).2 ∧
  ∀ b, blocked = Some b → b = StreamDataBlockedFrame.mk (streamID s') (writeOffset s').
Proof.
  assert (∀ s s' o blocked more, popNewFrame pool stale s n = Ok (s', o, blocked, more) →
    queuedResetStreamFrame s' = queuedResetStreamFrame s ∧
    sendWindow (flowController s').2 = sendWindow (flowController s).2 ∧
    ∀ b, blocked = Some b → b = StreamDataBlockedFrame.mk (streamID s') (writeOffset s')) as Hnew.
  { clear. unfold popNewFrame, finishNewFrame. intros s s' o blocked more H. res_cases; try done;
      repeat match goal with
      | H : popNewStreamFrame _ _ _ _ _ = _ |- _ => apply popNewStreamFrame_keeps in H as [??]
      | H : accountFrame _ _ _ = _ |- _ => apply accountFrame_keeps in H as (?&?&?)
      end; split_and!; simpl; try congruence; eauto. }
  unfold popStreamFrame, popNewOrRetransmittedStreamFrame, maybeGetRetransmission. intros H. res_cases; try done;
    match goal with H : popNewFrame _ _ _ _ = _ |- _ => apply Hnew in H end; eauto.
Qed.
End pop_keeps.

Lemma w_get_valid u p (y : SendRuns.sys stream_fc) :
  world_valid u → w_get u p = Some y →
  SendRuns.inv y ∧ (∀ fr, SendStream.queuedResetStreamFrame (SendRuns.str y) = Some fr → ResetStreamFrame.valid fr) ∧
  (SendStream.flowController (SendRuns.str y)).2 = w_conn u.
Proof.
  intros Hu. unfold w_get. destruct (w_streams u !! p) as [y0|] eqn:Hp; [|done]. intros [= <-].
  destruct (wv_streams _ Hu p y0 Hp) as [Hi Hr]. split; [|done].
  set (fc := ((SendStream.flowController (SendRuns.str y0)).1, w_conn u)).
  pose proof (SendRuns.step_kept y0 (SendRuns.CConnection fc) Hi ltac:(done)) as [Hi' _]. exact Hi'.
Qed.

Lemma w_set_valid u p (y : SendRuns.sys stream_fc) :
  world_valid u → SendRuns.inv y →
  (∀ fr, SendStream.queuedResetStreamFrame (SendRuns.str y) = Some fr → ResetStreamFrame.valid fr) →
  sendWindow (SendStream.flowController (SendRuns.str y)).2 = sendWindow (w_conn u) →
  world_valid (w_set u p y) ∧ ∀ q, is_Some (w_streams u !! q) → is_Some (w_streams (w_set u p y) !! q).
Proof.
  intros [] Hi Hr Hl. split.
  - split; [done|by simpl; rewrite Hl|]. simpl. intros q y'. destruct (decide (q = p)) as [->|].
    + rewrite lookup_insert_eq. intros [= <-]. done.
    + rewrite lookup_insert_ne by done. apply wv_streams0.
  - intros q Hq. simpl. destruct (decide (q = p)) as [->|].
    + by rewrite lookup_insert_eq.
    + by rewrite lookup_insert_ne.
Qed.

#[global, refine] Instance world_laws : StreamSourceLaws world := {|
  src_ok := world_valid;
  src_has u p := is_Some (w_streams u !! p);
|}.
Proof.
  - intros u p n Hu [y0 Hp] Hn. unfold src_popStreamFrame, world_source, w_pop.
    destruct (w_get u p) as [y|] eqn:Hg; [|unfold w_get in Hg; by rewrite Hp in Hg].
    destruct (w_get_valid _ _ _ Hu Hg) as (Hi & Hr & Hc). apply returns_bind.
    pose proof (SendRuns.pop_spec (w_pool u) (w_stale u) y n (wv_pool _ Hu) Hn Hi) as Hpop.
    apply returns_iff in Hpop as ([[[s' o] blocked] more] & Hpop & _ & Ho & _). rewrite Hpop.
    apply popStreamFrame_keeps in Hpop as (Hr' & Hl & Hb). cbn [returns].
    assert (∃ y', SendRuns.str y' = s' ∧ SendRuns.inv y' ∧
      match o with
      | None => SendRuns.with_str y s'
      | Some fr => _
      end = y') as (y' & Hs & Hi' & ->).
    { eexists. split; [|split; [|reflexivity]]; destruct o as [fr|]; try done; [by apply Ho|].
      destruct Ho as [-> _]. by destruct y. }
    pose proof (w_set_valid u p y' Hu Hi') as Hset. rewrite Hs, Hr', Hl, Hc in Hset. destruct (Hset Hr eq_refl) as [Hv Hmono].
    split_and!; [done..| |].
    + intros fr ->. destruct Ho as (Hsize & Hch & _). split_and!; [apply Hch..|done].
    + intros b ->. rewrite (Hb b eq_refl). destruct (SendRuns.inv_ok _ Hi') as [Hid Hoff _ Hlim _ _]. rewrite Hs in *.
      split; [done|]. unfold is_varint, maxVarInt8, MaxByteCount in *. simpl in *. lia.
  - intros u p now Hu [y0 Hp]. unfold src_getControlFrame, world_source, w_control.
    destruct (w_get u p) as [y|] eqn:Hg; [|unfold w_get in Hg; by rewrite Hp in Hg].
    destruct (w_get_valid _ _ _ Hu Hg) as (Hi & Hr & Hc).
    pose proof (SendRuns.step_kept y SendRuns.CControl Hi ltac:(done)) as Hk. cbn [SendRuns.step] in Hk.
    destruct (SendStream.getControlFrame (SendRuns.str y)) as [s o] eqn:E. destruct Hk as [Hi' _]. cbn [returns].
    unfold SendStream.getControlFrame in E.
    destruct (SendStream.queuedResetStreamFrame (SendRuns.str y)) as [fr|] eqn:Hq; injection E as <- <-.
    + pose proof (w_set_valid u p _ Hu Hi') as Hset. simpl in Hset.
      destruct Hset as [Hv Hmono]; [done|by rewrite Hc|]. split_and!; [done..|].
      intros fr' [= <-]. specialize (Hr fr eq_refl). split; [done|].
      unfold frame_bytes, encode, maxStreamControlFrameSize. rewrite len_cons. simpl. unfold ResetStreamFrame.body.
      rewrite !len_app, !len_venc. pose proof (vlen_pos (ResetStreamFrame.StreamID fr)).
      pose proof (vlen_pos (ResetStreamFrame.ErrorCode fr)). pose proof (vlen_pos (ResetStreamFrame.FinalSize fr)). lia.
    + pose proof (w_set_valid u p _ Hu Hi') as Hset. simpl in Hset.
      destruct Hset as [Hv Hmono]; [by rewrite Hq|by rewrite Hc|]. by split_and!.
  - intros u Hu. unfold src_IsNewlyBlocked, world_source, IsNewlyBlocked. destruct Hu as [Hp Hl Hs].
    destruct (negb _ || _); by split_and!.
Defined.

(** ** An example: a packet with a control frame and the data of a stream *)
Definition example_calls : list (SendRuns.call stream_fc) :=
  [SendRuns.CWrite 1 [x61; x62; x63] SendRuns.example_pool true].

Definition example_stream : SendRuns.sys stream_fc :=
  match SendRuns.run (SendRuns.start 4 (SendRuns.example_flow 100)) example_calls with
  | Ok (y, _, _) => y
  | _ => SendRuns.start 4 (SendRuns.example_flow 100)
  end.

Definition example_world : world :=
  mkWorld {[ 7 := example_stream ]} (SendRuns.example_flow 100).2 SendRuns.example_pool false.

Definition example_framer : framer :=
  match AddActiveStream (QueueControlFrame newFramer (FMaxData (MaxDataFrame.mk 5000))) 4 7 with Ok f => f | _ => newFramer end.

Lemma example_world_valid : world_valid example_world.
Proof.
  split; [done|by vm_compute|]. intros p y. unfold example_world. cbn [w_streams].
  intros [<- <-]%lookup_singleton_Some.
  assert (SendStream.queuedResetStreamFrame (SendRuns.str example_stream) = None) as -> by by vm_compute.
  split; [|done]. apply (SendRuns.run_inv 4 (SendRuns.example_flow 100) example_calls example_stream [onHasStreamData] []);
    vm_compute; intuition discriminate.
Qed.

Lemma framer_packets_witness :
  ∃ q f' w' frames' sfs' n q',
    Append example_framer example_world [] [] 200 0 [] = Ok (f', w', frames', sfs', n) ∧ n = 8 ∧
    framer_ok example_framer example_world q ∧ packet_ok example_framer example_world q [] [] 200 0 [] f' w' q' frames' sfs' n.
Proof.
  destruct (framer_packets example_world example_framer example_world [] [] 200 0 []) as (q & f' & w' & frames' & sfs' & n & q' & Ha & Hp).
  - apply example_world_valid.
  - eapply rtc_l; [apply (step_queue _ _ (FMaxData (MaxDataFrame.mk 5000))); by vm_compute|].
    eapply rtc_once, (step_active _ _ 4 7); [by vm_compute; eexists|vm_compute; reflexivity].
  - by vm_compute.
  - exists q, f', w', frames', sfs', n, q'. split; [done|]. split; [|done].
    vm_compute in Ha. by injection Ha as _ _ _ _ <-.
Defined.
