(* ===== verification/StreamsMap.v ===== *)
(** * The streams of a connection (streams_map.go, streams_map_incoming.go,
      streams_map_outgoing.go)

    Four maps hold the bidirectional and unidirectional streams that either side opened.
    The maps are generic in the type [T] of their streams, which they create with
    [newStream].  A method holds the mutex of its map while it works and is a step of its
    state; [AcceptStream] and [OpenStreamSync] can block and are divided at the points
    where they wait.  Frames to queue and calls of the streams are collected as events. *)

From Stdlib Require Import Sorting.Sorted.
From stdpp Require Import sorting.
From S2P Require Import Prelude Varint Protocol Wire ControlFrames.

(** The errors of the maps: those with stream numbers, which [convertStreamError] turns
    into stream IDs, and others. *)
Inductive map_error := streamError (message : string) (nums : list Z) | otherError (e : error).

Definition convertStreamError (err : map_error) (stype : StreamType) (pers : Perspective) : error :=
  match err with
  | streamError message nums => ErrorString message ((λ num, StreamNum_StreamID num stype pers) <$> nums)
  | otherError e => e
  end.

Inductive map_event {T : Type} :=
| EMaxStreams (f : MaxStreamsFrame.t)
| EStreamsBlocked (f : StreamsBlockedFrame.t)
| EShutdown (t : T) (err : error)
| EWindow (t : T) (limit : Z).
Arguments map_event T : clear implicits.

Lemma Sorted_snoc {A} (R : A → A → Prop) (l : list A) a :
  Sorted R l → (∀ x, last l = Some x → R x a) → Sorted R (l ++ [a]).
Proof.
  intros Hs Ha. induction Hs as [|b l Hs IH Hb]; simpl; [by repeat constructor|]. constructor.
  - apply IH. intros x Hx. apply Ha. by destruct l.
  - destruct Hb; simpl; constructor; [by apply Ha|done].
Qed.

Lemma seqZ_snoc n k : 0 ≤ k → seqZ n (k + 1) = seqZ n k ++ [n + k].
Proof. intros. by rewrite seqZ_app by lia. Qed.

(** ** Streams that the peer opens *)
Module Incoming.
Section incoming.
Context {T : Type} (newStream : Z → T).

Record incomingStreamsMap := mk {
  streamType : StreamType;
  streams : gmap Z (T * bool);   (* the stream and [shouldDelete] *)
  nextStreamToAccept : Z;
  nextStreamToOpen : Z;
  maxStream : Z;
  maxNumStreams : Z;
  newStreamChan : bool;          (* a token in the channel *)
  chanClosed : bool;
  closeErr : option error;
}.
Implicit Types (m : incomingStreamsMap) (num : Z).

Definition newIncomingStreamsMap (ty : StreamType) (maxStreams : Z) : incomingStreamsMap :=
  mk ty ∅ 1 1 (i64 maxStreams) maxStreams false false None.

Definition set_streams m (s : gmap Z (T * bool)) : incomingStreamsMap :=
  mk (streamType m) s (nextStreamToAccept m) (nextStreamToOpen m) (maxStream m) (maxNumStreams m)
    (newStreamChan m) (chanClosed m) (closeErr m).
Definition set_nextStreamToAccept m (n : Z) : incomingStreamsMap :=
  mk (streamType m) (streams m) n (nextStreamToOpen m) (maxStream m) (maxNumStreams m)
    (newStreamChan m) (chanClosed m) (closeErr m).
Definition set_nextStreamToOpen m (n : Z) : incomingStreamsMap :=
  mk (streamType m) (streams m) (nextStreamToAccept m) n (maxStream m) (maxNumStreams m)
    (newStreamChan m) (chanClosed m) (closeErr m).
Definition set_maxStream m (n : Z) : incomingStreamsMap :=
  mk (streamType m) (streams m) (nextStreamToAccept m) (nextStreamToOpen m) n (maxNumStreams m)
    (newStreamChan m) (chanClosed m) (closeErr m).
Definition set_newStreamChan m (b : bool) : incomingStreamsMap :=
  mk (streamType m) (streams m) (nextStreamToAccept m) (nextStreamToOpen m) (maxStream m) (maxNumStreams m)
    b (chanClosed m) (closeErr m).

(** The number of entries, [uint64(len(m.streams))]. *)
Definition count m : Z := Z.of_nat (size (streams m)).

Definition deleteStream m num : result map_error (incomingStreamsMap * list (map_event T)) :=
  match streams m !! num with
  | None => Err (streamError "tried to delete unknown incoming stream %d" [num])
  | Some (s, shouldDelete) =>
      if nextStreamToAccept m <=? num then
        if (shouldDelete : bool)
        then Err (streamError "tried to delete incoming stream %d multiple times" [num])
        else Ok (set_streams m (<[num := (s, true)]> (streams m)), [])
      else
        let m := set_streams m (delete num (streams m)) in
        if count m <? maxNumStreams m then
          let max := i64 (nextStreamToOpen m + i64 (maxNumStreams m - count m) - 1) in
          if max <=? MaxStreamCount
          then Ok (set_maxStream m max, [EMaxStreams (MaxStreamsFrame.mk (streamType m) max)])
          else Ok (m, [])
        else Ok (m, [])
  end.

Definition DeleteStream m num := deleteStream m num.

(** One iteration of the loop in [AcceptStream], with the mutex held: the stream is
    returned, or the goroutine is going to wait for [newStreamChan] or its context. *)
Inductive accept_result := Accepted (t : T) | AcceptWaits.

Definition AcceptStream m : result map_error (incomingStreamsMap * list (map_event T) * accept_result) :=
  let num := nextStreamToAccept m in
  match closeErr m with
  | Some e => Err (otherError e)
  | None =>
      match streams m !! num with
      | None => Ok (m, [], AcceptWaits)
      | Some (s, shouldDelete) =>
          let m := set_nextStreamToAccept m (num + 1) in
          if (shouldDelete : bool)
          then '(m, evs) ← deleteStream m num; Ok (m, evs, Accepted s)
          else Ok (m, [], Accepted s)
      end
  end.

(** A call starts by draining the channel.  A receive from the channel, here or while the
    call waits, takes the token; a closed channel can always be received from. *)
Definition drain m : incomingStreamsMap := set_newStreamChan m false.

(** A new stream, and the non-blocking send that announces it. *)
Definition openOne (m : result map_error incomingStreamsMap) num : result map_error incomingStreamsMap :=
  m ← m;
  if chanClosed m then Panic
  else Ok (set_newStreamChan (set_streams m (<[num := (newStream num, false)]> (streams m))) true).

Definition GetOrOpenStream m num : result map_error (incomingStreamsMap * option T) :=
  if maxStream m <? num then
    Err (streamError "peer tried to open stream %d (current limit: %d)" [num; maxStream m])
  else if num <? nextStreamToOpen m then
    Ok (m, match streams m !! num with Some (s, false) => Some s | _ => None end)
  else
    m ← foldl openOne (Ok m) (seqZ (nextStreamToOpen m) (num - nextStreamToOpen m + 1));
    let m := set_nextStreamToOpen m (num + 1) in
    Ok (m, fst <$> streams m !! num).

Definition CloseWithError m (err : error) : result map_error (incomingStreamsMap * list (map_event T)) :=
  if chanClosed m then Panic   (* close of a closed channel *)
  else Ok (mk (streamType m) (streams m) (nextStreamToAccept m) (nextStreamToOpen m) (maxStream m)
             (maxNumStreams m) (newStreamChan m) true (Some err),
           (λ e, EShutdown e.2.1 err) <$> map_to_list (streams m)).
End incoming.
Arguments incomingStreamsMap T : clear implicits.

(** *** Invariant *)
Section invariant.
Context {T : Type} (newStream : Z → T).
Implicit Types (m : incomingStreamsMap T) (num : Z) (del : gset Z).

(** [del] are the streams that were deleted.  The map has the other streams that the peer
    opened, and deleted ones that were not accepted yet.  Together with the streams that
    the peer may still open they are at most [maxNumStreams]. *)
Record inv m del : Prop := {
  inv_order : 1 ≤ nextStreamToAccept m ≤ nextStreamToOpen m;
  inv_limit : nextStreamToOpen m ≤ maxStream m + 1;
  inv_max : maxStream m ≤ MaxStreamCount;
  inv_num : 0 ≤ maxNumStreams m ≤ MaxStreamCount;
  inv_room : count m + (maxStream m + 1 - nextStreamToOpen m) ≤ maxNumStreams m;
  inv_streams num : streams m !! num =
    (if bool_decide (1 ≤ num < nextStreamToOpen m) then
       if bool_decide (num ∈ del) then
         if nextStreamToAccept m <=? num then Some (newStream num, true) else None
       else Some (newStream num, false)
     else None);
  inv_del num : num ∈ del → 1 ≤ num < nextStreamToOpen m;
  inv_open : chanClosed m = false ∧ closeErr m = None;
}.

Lemma new_inv ty n : 0 ≤ n ≤ MaxStreamCount → inv (newIncomingStreamsMap ty n) ∅.
Proof.
  intros Hn. unfold newIncomingStreamsMap. rewrite i64_small by (unfold MaxStreamCount in *; lia).
  split; simpl; try lia; try done.
  - unfold count. simpl. rewrite map_size_empty. lia.
  - intros num. rewrite lookup_empty. by rewrite bool_decide_eq_false_2 by lia.
Qed.

(** The loop of [GetOrOpenStream]. *)
Lemma open_loop (k : nat) m n :
  chanClosed m = false → (∀ i, n ≤ i → streams m !! i = None) →
  ∃ s, foldl (openOne newStream) (Ok m) (seqZ n (Z.of_nat k)) =
         Ok (set_newStreamChan (set_streams m s) (newStreamChan m || bool_decide (k ≠ O))) ∧
    size s = (size (streams m) + k)%nat ∧
    ∀ i, s !! i = if bool_decide (n ≤ i < n + Z.of_nat k) then Some (newStream i, false) else streams m !! i.
Proof.
  revert m n. induction k as [|k IH]; intros m n Hc Hn.
  - exists (streams m). simpl. rewrite orb_false_r. split; [by destruct m|]. split; [lia|].
    intros i. by rewrite bool_decide_eq_false_2 by lia.
  - rewrite seqZ_cons, Nat2Z.inj_succ, Z.pred_succ by lia. simpl. rewrite Hc.
    set (m1 := set_newStreamChan _ _). destruct (IH m1 (Z.succ n)) as (s & -> & Hsize & Hs).
    + done.
    + intros i Hi. simpl. rewrite lookup_insert_ne by lia. apply Hn. lia.
    + exists s. simpl in *. rewrite orb_true_r. split; [done|]. split.
      { rewrite Hsize, map_size_insert_None by (apply Hn; lia). lia. }
      intros i. rewrite Hs. destruct (decide (i = n)) as [->|].
      * rewrite bool_decide_eq_false_2, bool_decide_eq_true_2 by lia. by rewrite lookup_insert_eq.
      * rewrite lookup_insert_ne by done. repeat case_bool_decide; try done; lia.
Qed.

(** [GetOrOpenStream] opens all the streams up to [num]; a stream that was deleted is not
    returned any more. *)
Lemma GetOrOpenStream_spec m del num :
  inv m del → 1 ≤ num ≤ maxStream m →
  ∃ m', GetOrOpenStream newStream m num = Ok (m', if bool_decide (num ∈ del) then None else Some (newStream num)) ∧
    inv m' del ∧ nextStreamToOpen m' = Z.max (nextStreamToOpen m) (num + 1) ∧
    nextStreamToAccept m' = nextStreamToAccept m ∧ maxStream m' = maxStream m ∧
    newStreamChan m' = (newStreamChan m || bool_decide (nextStreamToOpen m ≤ num)) ∧
    maxNumStreams m' = maxNumStreams m.
Proof.
  intros Hm Hnum. unfold GetOrOpenStream. rewrite (proj2 (Z.ltb_ge _ _)) by lia. zcase.
  - exists m. rewrite (inv_streams _ _ Hm), bool_decide_eq_true_2 by lia.
    rewrite (bool_decide_eq_false_2 (nextStreamToOpen m ≤ num)), orb_false_r by lia. split; [|split_and!; try done; lia].
    do 2 f_equal. case_bool_decide; [|done]. by zcase.
  - destruct Hm as [Ho Hl Hx Hn Hr Hs Hd [Hc He]].
    destruct (open_loop (Z.to_nat (num - nextStreamToOpen m + 1)) m (nextStreamToOpen m)) as (s & Hloop & Hsize & Hs').
    { done. } { intros i Hi. rewrite Hs. by rewrite bool_decide_eq_false_2 by lia. }
    rewrite Z2Nat.id in Hloop, Hs' by lia. rewrite Hloop. cbn [mbind result_bind].
    rewrite (bool_decide_eq_true_2 (_ ≠ O)) by lia. rewrite (bool_decide_eq_true_2 (nextStreamToOpen m ≤ num)) by lia.
    eexists. cbn [streams set_nextStreamToOpen set_newStreamChan set_streams].
    rewrite (Hs' num), bool_decide_eq_true_2 by lia.
    rewrite (bool_decide_eq_false_2 (num ∈ del)) by (intros ?%Hd; lia).
    split; [done|]. split_and!; try done; simpl; [|lia].
    split; simpl; try done; try lia.
    + unfold count in *. simpl. lia.
    + intros i. rewrite Hs', Hs.
      destruct (decide (nextStreamToOpen m ≤ i < nextStreamToOpen m + (num - nextStreamToOpen m + 1))).
      * rewrite !(bool_decide_eq_true_2 _) by lia. rewrite (bool_decide_eq_false_2 (i ∈ del)); [done|].
        intros ?%Hd. lia.
      * rewrite (bool_decide_eq_false_2 (_ ≤ i < _)) by lia.
        rewrite (bool_decide_ext (1 ≤ i < num + 1) (1 ≤ i < nextStreamToOpen m)) by lia. done.
    + intros i ?%Hd. lia.
Qed.

(** [DeleteStream] succeeds once for a stream that was opened.  If the stream was accepted
    the peer gets the right to open another one, unless the limit is at its maximum. *)
Lemma delete_entry m del num :
  inv m del → 1 ≤ num < nextStreamToOpen m → num ∉ del →
  streams m !! num = Some (newStream num, false).
Proof.
  intros Hm Hn Hd. rewrite (inv_streams _ _ Hm), bool_decide_eq_true_2 by done. by rewrite bool_decide_eq_false_2.
Qed.

(** The MAX_STREAMS frame that replaces a stream of the map. *)
Definition new_limit m (evs : list (map_event T)) m' : Prop :=
  evs = [] ∧ maxStream m' = maxStream m ∨
  maxStream m < maxStream m' ≤ MaxStreamCount ∧ evs = [EMaxStreams (MaxStreamsFrame.mk (streamType m) (maxStream m'))].

Lemma raise_limit m m1 del :
  inv m del → count m1 = count m - 1 → 0 < count m →
  maxNumStreams m1 = maxNumStreams m → nextStreamToOpen m1 = nextStreamToOpen m →
  maxStream m1 = maxStream m → streamType m1 = streamType m →
  ∃ m' evs, (if count m1 <? maxNumStreams m1 then
      let max := i64 (nextStreamToOpen m1 + i64 (maxNumStreams m1 - count m1) - 1) in
      if max <=? MaxStreamCount
      then Ok (E:=map_error) (set_maxStream m1 max, [EMaxStreams (MaxStreamsFrame.mk (streamType m1) max)])
      else Ok (m1, [])
    else Ok (m1, [])) = Ok (m', evs) ∧ new_limit m evs m' ∧
    m' = set_maxStream m1 (maxStream m') ∧
    count m' + (maxStream m' + 1 - nextStreamToOpen m') ≤ maxNumStreams m' ∧
    maxStream m ≤ maxStream m' ≤ MaxStreamCount.
Proof.
  intros Hm Hc Hpos En Eo Em Et. destruct Hm as [Ho Hl Hx Hn Hr _ _ _]. unfold MaxStreamCount in *.
  assert (∀ m2, m2 = m1 → ∃ m' evs, Ok (E:=map_error) (m2, @nil (map_event T)) = Ok (m', evs) ∧ new_limit m evs m' ∧
    m' = set_maxStream m1 (maxStream m') ∧ count m' + (maxStream m' + 1 - nextStreamToOpen m') ≤ maxNumStreams m' ∧
    maxStream m ≤ maxStream m' ≤ 2 ^ 60) as Hsame.
  { intros m2 ->. exists m1, []. split; [done|]. split; [by left|]. split; [by destruct m1|].
    rewrite Em, Eo, En. split; lia. }
  zcase. cbv zeta. rewrite (i64_small (maxNumStreams m1 - count m1)) by lia.
  rewrite i64_small by lia. zcase; [|by apply Hsame].
  eexists _, _. split; [done|]. unfold new_limit, MaxStreamCount. cbn [maxStream set_maxStream]. rewrite Et. split; [right; split; [lia|done]|].
  split; [done|]. unfold count in *. simpl. lia.
Qed.

Lemma deleteStream_spec m del num :
  inv m del → 1 ≤ num < nextStreamToOpen m → num ∉ del →
  ∃ m' evs, DeleteStream m num = Ok (m', evs) ∧ inv m' ({[num]} ∪ del) ∧ new_limit m evs m' ∧
    nextStreamToOpen m' = nextStreamToOpen m ∧ nextStreamToAccept m' = nextStreamToAccept m ∧
    newStreamChan m' = newStreamChan m ∧ maxNumStreams m' = maxNumStreams m.
Proof.
  intros Hm Hn Hnd. unfold DeleteStream, deleteStream. rewrite (delete_entry _ _ _ Hm) by done.
  pose proof Hm as [Ho Hl Hx Hnum Hr Hs Hd Hc]. zcase.
  - eexists _, []. split; [done|]. split; [|split_and!; try done; by left].
    split; simpl; try done.
    + unfold count in *. simpl. rewrite map_size_insert_Some; [done|]. rewrite (delete_entry _ _ _ Hm) by done. by eexists.
    + intros i. destruct (decide (i = num)) as [->|].
      * rewrite lookup_insert_eq, !bool_decide_eq_true_2 by (lia || set_solver). by zcase.
      * rewrite lookup_insert_ne, Hs by done. do 2 f_equal.
        rewrite (bool_decide_ext (i ∈ {[num]} ∪ del) (i ∈ del)) by set_solver. done.
    + intros i. rewrite elem_of_union, elem_of_singleton. intros [->|?%Hd]; lia.
  - assert (0 < count m).
    { unfold count. enough (size (streams m) ≠ O) by lia. rewrite map_size_ne_0_lookup. exists num.
      rewrite (delete_entry _ _ _ Hm) by done. by eexists. }
    destruct (raise_limit m (set_streams m (delete num (streams m))) del) as (m' & evs & Heq & Hlim & Hm1 & Hroom & Hmax); try done.
    { unfold count in *. simpl. rewrite map_size_delete_Some; [lia|]. rewrite (delete_entry _ _ _ Hm) by done. by eexists. }
    exists m', evs. split; [exact Heq|]. rewrite Hm1 in *. split; [|split; [done|done]].
    split; simpl in *; try done; try lia.
    + intros i. destruct (decide (i = num)) as [->|].
      * rewrite lookup_delete_eq, !bool_decide_eq_true_2 by (lia || set_solver). by zcase.
      * rewrite lookup_delete_ne, Hs by done.
        rewrite (bool_decide_ext (i ∈ {[num]} ∪ del) (i ∈ del)) by set_solver. done.
    + intros i. rewrite elem_of_union, elem_of_singleton. intros [->|?%Hd]; lia.
Qed.

Lemma deleteStream_err m del num :
  inv m del → ¬ (1 ≤ num < nextStreamToOpen m ∧ num ∉ del) →
  DeleteStream m num = Err (match streams m !! num with
    | None => streamError "tried to delete unknown incoming stream %d" [num]
    | Some _ => streamError "tried to delete incoming stream %d multiple times" [num]
    end).
Proof.
  intros Hm Hbad. unfold DeleteStream, deleteStream. rewrite (inv_streams _ _ Hm).
  case_bool_decide as Hr; [|done]. case_bool_decide as Hd; [|naive_solver]. by zcase.
Qed.

Lemma AcceptStream_spec m del :
  inv m del →
  if nextStreamToAccept m <? nextStreamToOpen m then
    ∃ m' evs, AcceptStream m = Ok (m', evs, Accepted (newStream (nextStreamToAccept m))) ∧ inv m' del ∧
      new_limit m evs m' ∧ nextStreamToAccept m' = nextStreamToAccept m + 1 ∧ nextStreamToOpen m' = nextStreamToOpen m ∧
      maxNumStreams m' = maxNumStreams m
  else AcceptStream m = Ok (m, [], AcceptWaits).
Proof.
  intros Hm. pose proof Hm as [Ho Hl Hx Hnum Hr Hs Hd [Hc He]]. unfold AcceptStream. rewrite He, Hs.
  set (num := nextStreamToAccept m) in *. zcase; [|by rewrite bool_decide_eq_false_2 by lia].
  rewrite bool_decide_eq_true_2, Z.leb_refl by lia. case_bool_decide as Hdel; cbv iota beta.
  - assert (streams m !! num = Some (newStream num, true)) as Hnm.
    { rewrite Hs, !bool_decide_eq_true_2 by (done || lia). by subst num; rewrite Z.leb_refl. }
    set (m1 := set_nextStreamToAccept m (num + 1)).
    destruct (raise_limit m (set_streams m1 (delete num (streams m))) del) as (m' & evs & Heq & Hlim & Hm1 & Hroom & Hmax); try done.
    { unfold count. simpl. rewrite map_size_delete_Some by done. enough (size (streams m) ≠ O) by lia.
      rewrite map_size_ne_0_lookup. by eexists _, _. }
    { unfold count. enough (size (streams m) ≠ O) by lia. rewrite map_size_ne_0_lookup. by eexists _, _. }
    assert (deleteStream m1 num = Ok (m', evs)) as ->.
    { unfold deleteStream. change (streams m1) with (streams m). rewrite Hnm.
      change (nextStreamToAccept m1) with (num + 1). rewrite (proj2 (Z.leb_gt _ _)) by lia. exact Heq. }
    exists m', evs. split; [done|]. rewrite Hm1 in *. split; [|done].
    split; simpl in *; try done; try lia. intros i. destruct (decide (i = num)) as [->|].
    + rewrite lookup_delete_eq, !bool_decide_eq_true_2 by (done || lia). by zcase.
    + rewrite lookup_delete_ne, Hs by done. repeat case_bool_decide; try done; repeat zcase; done || lia.
  - eexists _, []. split; [done|]. split; [|split_and!; try done; by left].
    split; simpl; try done; try lia. intros i. rewrite Hs. destruct (decide (i = num)) as [->|].
    + by rewrite !bool_decide_eq_true_2, !bool_decide_eq_false_2 by (done || lia).
    + repeat case_bool_decide; try done; repeat zcase; done || lia.
Qed.

(** *** Sequences of calls

    Any number of goroutines accept streams.  A call of [AcceptStream] drains the channel;
    then it is ready to run its loop, an iteration of which returns a stream or leaves the
    call waiting; a waiting call receives from the channel and is ready again, or is
    cancelled. *)
Record sys := mkSys {
  map : incomingStreamsMap T;
  deleted : gset Z;
  accepted : list T;
  ready : nat;       (* calls that are about to lock the mutex *)
  waiting : nat;     (* calls in the [select] statement *)
  peak : nat;        (* the largest number of calls that were in progress at a time *)
  limits : list Z;   (* of the MAX_STREAMS frames *)
}.
Implicit Types (y : sys).

Inductive op :=
| OpGet (num : Z)        (* a frame of the peer for a stream *)
| OpDelete (num : Z)     (* a stream is completed *)
| OpAccept               (* a goroutine calls AcceptStream, and drains the channel *)
| OpIterate              (* a call runs an iteration of its loop *)
| OpWake                 (* a waiting call receives from the channel *)
| OpCancel.              (* the context of a waiting call is done *)

Definition event_limits (evs : list (map_event T)) : list Z :=
  omap (λ e, match e with EMaxStreams f => Some (MaxStreamsFrame.MaxStreamNum f) | _ => None end) evs.

Definition with_map y (m : incomingStreamsMap T) : sys :=
  mkSys m (deleted y) (accepted y) (ready y) (waiting y) (peak y) (limits y).

(** An iteration of a call that was ready; [r] others are. *)
Definition iterate y (r : nat) : result map_error sys :=
  '(m, evs, res) ← AcceptStream (map y);
  match res with
  | Accepted t => Ok (mkSys m (deleted y) (accepted y ++ [t]) r (waiting y) (peak y) (limits y ++ event_limits evs))
  | AcceptWaits => Ok (mkSys m (deleted y) (accepted y) r (S (waiting y)) (peak y) (limits y ++ event_limits evs))
  end.

Definition step y (o : op) : result map_error sys :=
  match o with
  | OpGet num => '(m, _) ← GetOrOpenStream newStream (map y) num; Ok (with_map y m)
  | OpDelete num =>
      '(m, evs) ← DeleteStream (map y) num;
      Ok (mkSys m ({[num]} ∪ deleted y) (accepted y) (ready y) (waiting y) (peak y) (limits y ++ event_limits evs))
  | OpAccept =>
      Ok (mkSys (drain (map y)) (deleted y) (accepted y) (S (ready y)) (waiting y)
            (Nat.max (peak y) (S (ready y) + waiting y)) (limits y))
  | OpIterate => if ready y is S r then iterate y r else Ok y
  | OpWake =>
      match waiting y with
      | S w =>
          if newStreamChan (map y)
          then Ok (mkSys (drain (map y)) (deleted y) (accepted y) (S (ready y)) w (peak y) (limits y)) else Ok y
      | O => Ok y
      end
  | OpCancel => Ok (mkSys (map y) (deleted y) (accepted y) (ready y) (pred (waiting y)) (peak y) (limits y))
  end.

(** A call that returns an error does not change the state. *)
Fixpoint run y (ops : list op) : result map_error sys :=
  match ops with
  | [] => Ok y
  | o :: ops => match step y o with Ok y' => run y' ops | Err _ => run y ops | Panic => Panic end
  end.

Definition start (ty : StreamType) (maxStreams : Z) : sys :=
  mkSys (newIncomingStreamsMap ty maxStreams) ∅ [] 0 0 0 [].

(** Frames are for streams, whose numbers start at 1. *)
Definition allowed (o : op) : Prop := if o is OpGet num then 1 ≤ num else True.

Record sys_inv (max0 : Z) y : Prop := {
  si_inv : inv (map y) (deleted y);
  si_num : maxNumStreams (map y) = max0;
  si_accepted : accepted y = newStream <$> seqZ 1 (nextStreamToAccept (map y) - 1);
  si_calls : (ready y + waiting y ≤ peak y)%nat;
  si_wake : (peak y ≤ 1)%nat → waiting y ≠ O → newStreamChan (map y) = false → nextStreamToAccept (map y) = nextStreamToOpen (map y);
  si_limits : Sorted Z.lt (max0 :: limits y) ∧ last (max0 :: limits y) = Some (maxStream (map y));
}.

Lemma limits_extend max0 l m m' evs :
  Sorted Z.lt (max0 :: l) ∧ last (max0 :: l) = Some (maxStream m) → new_limit m evs m' →
  Sorted Z.lt (max0 :: l ++ event_limits evs) ∧ last (max0 :: l ++ event_limits evs) = Some (maxStream m').
Proof.
  intros [Hs Hl] [[-> ->]|[Hlt ->]]; simpl event_limits; [by rewrite app_nil_r|].
  rewrite app_comm_cons, last_snoc. split; [|done].
  apply Sorted_snoc; [done|]. rewrite Hl. intros x [= <-]. lia.
Qed.

Lemma iterate_kept max0 y r : sys_inv max0 y → ready y = S r → returns (iterate y r) (sys_inv max0).
Proof.
  intros [Hi Hn Ha Hca Hw Hl] Hr. unfold iterate. pose proof (AcceptStream_spec _ _ Hi) as H. pose proof (inv_order _ _ Hi) as Ho.
  destruct (Z.ltb_spec (nextStreamToAccept (map y)) (nextStreamToOpen (map y))).
  - destruct H as (m' & evs & -> & Hm' & Hlim & Hacc & Hop & Hnum). simpl. split; simpl; try done; try lia.
    + rewrite Ha, Hacc. replace (_ + 1 - 1) with (nextStreamToAccept (map y) - 1 + 1) by lia.
      rewrite seqZ_snoc, fmap_app by lia. simpl. do 3 f_equal. lia.
    + by eapply limits_extend.
  - rewrite H. simpl. split; simpl; try done; try lia. by rewrite app_nil_r.
Qed.

Lemma step_ok max0 y o : sys_inv max0 y → allowed o → wp (step y o) (sys_inv max0).
Proof.
  intros Hy Ho. pose proof Hy as [Hi Hn Ha Hca Hw Hl]. destruct o as [num|num| | | |]; simpl in Ho |- *.
  - destruct (Z.le_gt_cases num (maxStream (map y))) as [Hle|Hgt].
    2:{ unfold GetOrOpenStream. by rewrite (proj2 (Z.ltb_lt _ _)). }
    destruct (GetOrOpenStream_spec _ _ num Hi ltac:(lia)) as (m' & -> & Hm' & Hop & Hac & Hmx & Hch & Hnum). simpl.
    split; simpl; rewrite ?Hac, ?Hmx, ?Hnum; try done. rewrite Hch. intros Hp Hw1 [Hw2 Hw3%bool_decide_eq_false]%orb_false_iff.
    specialize (Hw Hp Hw1 Hw2). lia.
  - destruct (decide (1 ≤ num < nextStreamToOpen (map y) ∧ num ∉ deleted y)) as [[Hr Hd]|Hbad].
    + destruct (deleteStream_spec _ _ num Hi Hr Hd) as (m' & evs & -> & Hm' & Hlim & Hop & Hac & Hch & Hnum). simpl.
      split; simpl; rewrite ?Hac, ?Hop, ?Hch, ?Hnum; try done. by eapply limits_extend.
    + by rewrite (deleteStream_err _ _ _ Hi Hbad).
  - split; simpl; try done; try lia. by destruct Hi.
  - destruct (ready y) as [|r] eqn:Hr; [done|]. pose proof (iterate_kept _ _ _ Hy Hr). by destruct (iterate y r).
  - destruct (waiting y) as [|w] eqn:Hwt; [done|]. destruct (newStreamChan (map y)); [|done].
    cbn [wp]. split; simpl; try done; try lia. by destruct Hi.
  - cbn [wp]. split; simpl; try done; lia.
Qed.

Lemma run_ok max0 y ops : sys_inv max0 y → Forall allowed ops → returns (run y ops) (sys_inv max0).
Proof.
  intros Hy Hops. revert y Hy. induction Hops as [|o ops Ho Hops IH]; intros y Hy; [done|]. simpl.
  pose proof (step_ok _ _ _ Hy Ho). destruct (step y o); [by apply IH..|done].
Qed.

Lemma start_ok ty n : 0 ≤ n ≤ MaxStreamCount → sys_inv n (start ty n).
Proof.
  intros Hn. split; simpl; try done; [by apply new_inv|]. split; [by repeat constructor|].
  rewrite i64_small by (unfold MaxStreamCount in *; lia). done.
Qed.

(** C14: the streams that the peer opens are handled exactly.  Whatever frames arrive,
    streams complete and any number of goroutines call [AcceptStream], wait and are
    cancelled: nothing panics; the streams are accepted in order, each once, whether or not
    they have completed before; a frame gets its stream unless that was deleted (then it
    gets none) or exceeds the limit (then it gets an error); a stream can be deleted
    exactly once; the limits that are sent to the peer increase up to [MaxStreamCount], and
    never allow more than [maxNumStreams] streams at a time.  An iteration of a call
    accepts a stream whenever there is one.  If there was never more than one call of
    [AcceptStream] in progress, then a waiting call that was not woken has no stream to
    accept; with several, this does not hold (see [concurrent_accept_lost_wakeup]). *)
Theorem incoming_streams_exact ty n ops :
  0 ≤ n ≤ MaxStreamCount → Forall allowed ops →
  ∃ y, run (start ty n) ops = Ok y ∧
    accepted y = newStream <$> seqZ 1 (len (accepted y)) ∧
    count (map y) + (maxStream (map y) + 1 - nextStreamToOpen (map y)) ≤ n ∧
    Sorted Z.lt (n :: limits y) ∧ last (n :: limits y) = Some (maxStream (map y)) ∧ maxStream (map y) ≤ MaxStreamCount ∧
    ((∃ r, AcceptStream (map y) = Ok r ∧ r.2 ≠ AcceptWaits) ↔ len (accepted y) < nextStreamToOpen (map y) - 1) ∧
    ((peak y ≤ 1)%nat → waiting y ≠ O → newStreamChan (map y) = false → len (accepted y) = nextStreamToOpen (map y) - 1) ∧
    ∀ num, 1 ≤ num →
      (num ≤ maxStream (map y) →
        snd <$> GetOrOpenStream newStream (map y) num = Ok (if bool_decide (num ∈ deleted y) then None else Some (newStream num))) ∧
      (maxStream (map y) < num → ∃ e, GetOrOpenStream newStream (map y) num = Err e) ∧
      (num < nextStreamToOpen (map y) ∧ num ∉ deleted y ↔ ∃ r, DeleteStream (map y) num = Ok r).
Proof.
  intros Hn Hops. pose proof (run_ok n _ ops (start_ok ty n Hn) Hops) as Hr.
  apply returns_iff in Hr as (y & Hrun & [Hi Hnum Ha _ Hw [Hs Hl]]). exists y. split; [done|].
  pose proof (inv_order _ _ Hi) as Ho.
  assert (len (accepted y) = nextStreamToAccept (map y) - 1) as Hlen.
  { rewrite Ha, len_fmap. unfold len. rewrite length_seqZ. lia. }
  split_and!; [by rewrite Hlen|rewrite <-Hnum; apply Hi|done|done|apply Hi| | |].
  { rewrite Hlen. pose proof (AcceptStream_spec _ _ Hi) as H. revert H. zcase.
    - intros (m' & evs & -> & _). split; [lia|]. by eexists.
    - intros ->. split; [intros (r & [= <-] & Hr); by destruct Hr|lia]. }
  { intros. rewrite Hlen, Hw; done. }
  intros num H1. split_and!.
  - intros Hle. destruct (GetOrOpenStream_spec _ _ num Hi ltac:(lia)) as (m' & -> & _). done.
  - intros Hgt. unfold GetOrOpenStream. rewrite (proj2 (Z.ltb_lt _ _)) by done. by eexists.
  - split.
    + intros [Hlt Hd]. destruct (deleteStream_spec _ _ num Hi ltac:(lia) Hd) as (m' & evs & -> & _). by eexists.
    + intros [r Hr]. destruct (decide (1 ≤ num < nextStreamToOpen (map y) ∧ num ∉ deleted y)) as [[? ?]|Hbad]; [split; [lia|done]|].
      by rewrite (deleteStream_err _ _ _ Hi Hbad) in Hr.
Qed.
End invariant.

Definition example_ops : list op :=
  [OpAccept; OpIterate; OpGet 3; OpWake; OpIterate; OpDelete 3; OpDelete 1; OpAccept; OpIterate; OpGet 1; OpAccept; OpIterate;
   OpAccept; OpIterate].

Lemma incoming_streams_exact_witness :
  ∃ y, run (λ num, num) (start StreamTypeBidi 3) example_ops = Ok y ∧ accepted y = [1; 2; 3] ∧ limits y = [4; 5] ∧
    count (map y) + (maxStream (map y) + 1 - nextStreamToOpen (map y)) ≤ 3 ∧
    waiting y = 1%nat ∧ ((peak y ≤ 1)%nat → waiting y ≠ O → newStreamChan (map y) = false → len (accepted y) = nextStreamToOpen (map y) - 1).
Proof.
  destruct (incoming_streams_exact (λ num, num) StreamTypeBidi 3 example_ops) as (y & Hrun & _ & Hc & _ & _ & _ & _ & Hw & _).
  - by vm_compute.
  - unfold example_ops. rewrite !Forall_cons. by vm_compute.
  - assert (∃ y0, run (λ num, num) (start StreamTypeBidi 3) example_ops = Ok y0 ∧ accepted y0 = [1; 2; 3] ∧ limits y0 = [4; 5] ∧ waiting y0 = 1%nat)
      as (y0 & Hrun0 & Ha & Hl & Hwt) by (eexists; split; [vm_compute; reflexivity|split; [|split]; reflexivity]).
    rewrite Hrun0 in Hrun. injection Hrun as <-. exists y0. exact (conj Hrun0 (conj Ha (conj Hl (conj Hc (conj Hwt Hw))))).
Defined.

(** With two goroutines the token of the channel can be too little.  Both find no stream
    and wait; the peer opens two streams at once, which leaves one token; one goroutine
    takes it and accepts stream 1.  The other one waits, although stream 2 could be
    accepted. *)
Lemma concurrent_accept_lost_wakeup :
  ∃ y, run (λ num, num) (start StreamTypeBidi 10) [OpAccept; OpIterate; OpAccept; OpIterate; OpGet 2; OpWake; OpIterate] = Ok y ∧
    accepted y = [1] ∧ waiting y = 1%nat ∧ ready y = O ∧ newStreamChan (map y) = false ∧ nextStreamToOpen (map y) = 3.
Proof. eexists. split; [vm_compute; reflexivity|]. vm_compute. auto. Qed.
End Incoming.

(** ** Streams that we open *)
Module Outgoing.
(** A channel with room for one token. *)
Inductive waitChan := ChanEmpty | ChanToken | ChanClosed.
#[global] Instance waitChan_eq_dec : EqDecision waitChan.
Proof. solve_decision. Defined.

Section outgoing.
Context {T : Type} (newStream : Z → T).

Record outgoingStreamsMap := mk {
  streamType : StreamType;
  streams : gmap Z T;
  openQueue : gmap Z waitChan;
  lowestInQueue : Z;
  highestInQueue : Z;
  nextStream : Z;
  maxStream : Z;
  blockedSent : bool;
  closeErr : option error;
}.
Implicit Types (m : outgoingStreamsMap) (num pos : Z).

Definition newOutgoingStreamsMap (ty : StreamType) : outgoingStreamsMap :=
  mk ty ∅ ∅ 0 0 1 InvalidStreamNum false None.

Definition set_streams m (s : gmap Z T) (next : Z) : outgoingStreamsMap :=
  mk (streamType m) s (openQueue m) (lowestInQueue m) (highestInQueue m) next (maxStream m) (blockedSent m) (closeErr m).
Definition set_queue m (q : gmap Z waitChan) (low high : Z) : outgoingStreamsMap :=
  mk (streamType m) (streams m) q low high (nextStream m) (maxStream m) (blockedSent m) (closeErr m).
Definition set_limit m (max : Z) (sent : bool) : outgoingStreamsMap :=
  mk (streamType m) (streams m) (openQueue m) (lowestInQueue m) (highestInQueue m) (nextStream m) max sent (closeErr m).

Definition queueLen m : Z := Z.of_nat (size (openQueue m)).

(** [c <- struct{}{}] with a [default] case. *)
Definition send (c : waitChan) : result map_error waitChan :=
  match c with ChanClosed => Panic | _ => Ok ChanToken end.

Definition openStream m : outgoingStreamsMap * T :=
  let s := newStream (nextStream m) in
  (set_streams m (<[nextStream m := s]> (streams m)) (nextStream m + 1), s).

Definition maybeSendBlockedFrame m : outgoingStreamsMap * list (map_event T) :=
  if blockedSent m then (m, [])
  else
    let streamNum := if maxStream m =? InvalidStreamNum then 0 else maxStream m in
    (set_limit m (maxStream m) true, [EStreamsBlocked (StreamsBlockedFrame.mk (streamType m) streamNum)]).

(** The loop runs over the positions from [lowestInQueue] to [highestInQueue]. *)
Fixpoint unblockFirst m (positions : list Z) : result map_error outgoingStreamsMap :=
  match positions with
  | [] => Ok m
  | qp :: positions =>
      match openQueue m !! qp with
      | None => unblockFirst m positions
      | Some c => c ← send c; Ok (set_queue m (<[qp := c]> (openQueue m)) (lowestInQueue m) (highestInQueue m))
      end
  end.

Definition unblockOpenSync m : result map_error outgoingStreamsMap :=
  if queueLen m =? 0 then Ok m
  else unblockFirst m (seqZ (lowestInQueue m) (highestInQueue m - lowestInQueue m + 1)).

Inductive open_result := Opened (t : T) | OpenFailed (err : error) | OpenWaits (pos : Z).

Definition OpenStream m : outgoingStreamsMap * list (map_event T) * open_result :=
  match closeErr m with
  | Some e => (m, [], OpenFailed e)
  | None =>
      if (0 <? queueLen m) || (maxStream m <? nextStream m) then
        let '(m, evs) := maybeSendBlockedFrame m in (m, evs, OpenFailed StreamLimitReachedError)
      else let '(m, s) := openStream m in (m, [], Opened s)
  end.

(** [OpenStreamSync] up to the point where it waits; [ctxErr] is [ctx.Err()]. *)
Definition OpenStreamSync m (ctxErr : option error) : outgoingStreamsMap * list (map_event T) * open_result :=
  match closeErr m, ctxErr with
  | Some e, _ => (m, [], OpenFailed e)
  | None, Some e => (m, [], OpenFailed e)
  | None, None =>
      if (queueLen m =? 0) && (nextStream m <=? maxStream m) then
        let '(m, s) := openStream m in (m, [], Opened s)
      else
        let queuePos := highestInQueue m in
        let low := if queueLen m =? 0 then queuePos else lowestInQueue m in
        let m := set_queue m (<[queuePos := ChanEmpty]> (openQueue m)) low (queuePos + 1) in
        let '(m, evs) := maybeSendBlockedFrame m in (m, evs, OpenWaits queuePos)
  end.

(** The waiting goroutine: its context is done, it receives from its channel, or it
    continues with the mutex after having received. *)
Definition OpenStreamSync_cancel m pos (ctxErr : error) : outgoingStreamsMap * open_result :=
  (set_queue m (delete pos (openQueue m)) (lowestInQueue m) (highestInQueue m), OpenFailed ctxErr).

Definition OpenStreamSync_receive m pos : outgoingStreamsMap :=
  match openQueue m !! pos with
  | Some ChanToken => set_queue m (<[pos := ChanEmpty]> (openQueue m)) (lowestInQueue m) (highestInQueue m)
  | _ => m
  end.

Definition OpenStreamSync_continue m pos : result map_error (outgoingStreamsMap * open_result) :=
  match closeErr m with
  | Some e => Ok (m, OpenFailed e)
  | None =>
      if maxStream m <? nextStream m then Ok (m, OpenWaits pos)
      else
        let '(m, str) := openStream m in
        let m := set_queue m (delete pos (openQueue m)) (pos + 1) (highestInQueue m) in
        m ← unblockOpenSync m; Ok (m, Opened str)
  end.

Definition GetStream m num : result map_error (option T) :=
  if nextStream m <=? num then Err (streamError "peer attempted to open stream %d" [num])
  else Ok (streams m !! num).

Definition DeleteStream m num : result map_error outgoingStreamsMap :=
  match streams m !! num with
  | None => Err (streamError "tried to delete unknown outgoing stream %d" [num])
  | Some _ => Ok (set_streams m (delete num (streams m)) (nextStream m))
  end.

Definition SetMaxStream m num : result map_error (outgoingStreamsMap * list (map_event T)) :=
  if num <=? maxStream m then Ok (m, [])
  else
    let m := set_limit m num false in
    let '(m, evs) := if maxStream m <? nextStream m - 1 + queueLen m then maybeSendBlockedFrame m else (m, []) in
    m ← unblockOpenSync m; Ok (m, evs).

Definition UpdateSendWindow m (limit : Z) : list (map_event T) :=
  (λ e, EWindow e.2 limit) <$> map_to_list (streams m).

Definition CloseWithError m (err : error) : result map_error (outgoingStreamsMap * list (map_event T)) :=
  if bool_decide (map_Forall (λ _ c, c ≠ ChanClosed) (openQueue m)) then
    Ok (mk (streamType m) (streams m) ((λ _, ChanClosed) <$> openQueue m) (lowestInQueue m) (highestInQueue m)
          (nextStream m) (maxStream m) (blockedSent m) (Some err),
        (λ e, EShutdown e.2 err) <$> map_to_list (streams m))
  else Panic.   (* close of a closed channel *)
End outgoing.
Arguments outgoingStreamsMap T : clear implicits.

(** *** Invariant *)
Section invariant.
Context {T : Type} (newStream : Z → T).
Implicit Types (m : outgoingStreamsMap T) (num pos : Z) (del woken : gset Z).

Definition waits m pos : Prop := is_Some (openQueue m !! pos).
Definition first m pos : Prop := waits m pos ∧ ∀ pos', waits m pos' → pos ≤ pos'.

(** The goroutine at [pos] knows that it may continue: there is a token for it, or it has
    received one and is about to take the mutex. *)
Definition signalled m woken pos : Prop := pos ∈ woken ∨ openQueue m !! pos = Some ChanToken.

Record inv m del woken : Prop := {
  inv_next : 1 ≤ nextStream m ≤ Z.max 0 (maxStream m) + 1;
  inv_max : -1 ≤ maxStream m ≤ MaxStreamCount;
  inv_streams num : streams m !! num =
    if bool_decide (1 ≤ num < nextStream m ∧ num ∉ del) then Some (newStream num) else None;
  inv_del num : num ∈ del → 1 ≤ num < nextStream m;
  inv_bounds : lowestInQueue m ≤ highestInQueue m;
  inv_queue pos c : openQueue m !! pos = Some c → lowestInQueue m ≤ pos < highestInQueue m ∧ c ≠ ChanClosed;
  inv_woken pos : pos ∈ woken → waits m pos;
  inv_signalled pos : signalled m woken pos → first m pos;
  inv_open : closeErr m = None;
}.

(** If a stream can be opened, the first goroutine knows. *)
Definition wake m woken : Prop := ∀ pos, first m pos → nextStream m ≤ maxStream m → signalled m woken pos.

Lemma out_new_inv ty : inv (newOutgoingStreamsMap ty) ∅ ∅.
Proof.
  split; simpl; try done; unfold InvalidStreamNum, MaxStreamCount; try lia; try set_solver.
  - intros num. rewrite lookup_empty, bool_decide_eq_false_2; [done|lia].
  - intros pos [|?]; set_solver.
Qed.

Lemma queue_empty m : queueLen m = 0 ↔ ∀ pos, ¬ waits m pos.
Proof.
  unfold queueLen, waits. rewrite Nat2Z.inj_iff with (m := O), map_size_empty_iff. split.
  - intros -> pos [? H]. by rewrite lookup_empty in H.
  - intros H. apply map_empty. intros i. apply eq_None_not_Some, H.
Qed.

Lemma first_unique m pos pos' : first m pos → first m pos' → pos = pos'.
Proof. intros [H1 H2] [H3 H4]. specialize (H2 _ H3). specialize (H4 _ H1). lia. Qed.

(** The first waiting goroutine gets a token. *)
Definition unblocked m m' : Prop :=
  (∀ pos, ¬ waits m pos) ∧ m' = m ∨
  ∃ pos, first m pos ∧ m' = set_queue m (<[pos := ChanToken]> (openQueue m)) (lowestInQueue m) (highestInQueue m).

Lemma unblockFirst_spec m n k :
  (∀ pos c, openQueue m !! pos = Some c → n ≤ pos ∧ c ≠ ChanClosed) →
  (∃ pos, waits m pos ∧ pos < n + Z.of_nat k) →
  ∃ m', unblockFirst m (seqZ n (Z.of_nat k)) = Ok m' ∧ unblocked m m'.
Proof.
  revert n. induction k as [|k IH]; intros n Hq [pos [Hw Hlt]].
  { destruct Hw as [c Hc]. apply Hq in Hc. lia. }
  rewrite seqZ_cons, Nat2Z.inj_succ, Z.pred_succ by lia. cbn [unblockFirst].
  destruct (openQueue m !! n) as [c|] eqn:Hn.
  - assert (send c = Ok ChanToken) as -> by (apply Hq in Hn as [_ ?]; by destruct c).
    eexists. split; [done|]. right. exists n. split; [|done]. split; [by eexists|].
    intros pos' [c' Hc']. by apply Hq in Hc' as [? _].
  - apply IH.
    + intros pos' c' Hc'. destruct (decide (pos' = n)) as [->|]; [congruence|]. apply Hq in Hc' as [? ?]. split; [lia|done].
    + exists pos. split; [done|]. lia.
Qed.

Lemma unblockOpenSync_spec m :
  (∀ pos c, openQueue m !! pos = Some c → lowestInQueue m ≤ pos < highestInQueue m ∧ c ≠ ChanClosed) →
  ∃ m', unblockOpenSync m = Ok m' ∧ unblocked m m'.
Proof.
  intros Hq. unfold unblockOpenSync. destruct (Z.eqb_spec (queueLen m) 0) as [H0|H0].
  { exists m. split; [done|]. left. by rewrite queue_empty in H0. }
  assert (∃ pos, waits m pos) as [pos [c Hc]].
  { unfold queueLen in H0. destruct (map_choose (openQueue m)) as (pos & c & Hc); [|by exists pos, c].
    intros E. rewrite E, map_size_empty in H0. done. }
  specialize (Hq pos c Hc) as Hpos.
  replace (highestInQueue m - lowestInQueue m + 1) with (Z.of_nat (Z.to_nat (highestInQueue m - lowestInQueue m + 1))) by lia.
  apply unblockFirst_spec.
  - intros pos' c' Hc'. apply Hq in Hc' as [? ?]. split; [lia|done].
  - exists pos. split; [by eexists|]. lia.
Qed.

(** The invariant after [unblockOpenSync], if before only the first goroutine could have
    been signalled. *)
Lemma unblocked_inv m m' del woken :
  1 ≤ nextStream m ≤ Z.max 0 (maxStream m) + 1 → -1 ≤ maxStream m ≤ MaxStreamCount →
  (∀ num, streams m !! num = if bool_decide (1 ≤ num < nextStream m ∧ num ∉ del) then Some (newStream num) else None) →
  (∀ num, num ∈ del → 1 ≤ num < nextStream m) → lowestInQueue m ≤ highestInQueue m →
  (∀ pos c, openQueue m !! pos = Some c → lowestInQueue m ≤ pos < highestInQueue m ∧ c ≠ ChanClosed) →
  (∀ pos, pos ∈ woken → waits m pos) → (∀ pos, signalled m woken pos → first m pos) → closeErr m = None →
  unblocked m m' → inv m' del woken ∧ wake m' woken.
Proof.
  intros Hn Hm Hs Hd Hb Hq Hw Hf Hc [[He ->]|(pos & Hpos & ->)].
  - split; [done|]. intros pos [Hpos _]. by apply He in Hpos.
  - assert (∀ p, waits (set_queue m (<[pos := ChanToken]> (openQueue m)) (lowestInQueue m) (highestInQueue m)) p ↔ waits m p) as Hwaits.
    { intros p. unfold waits. simpl. destruct (decide (p = pos)) as [->|].
      - rewrite lookup_insert_eq. split; [by destruct Hpos|by eexists].
      - by rewrite lookup_insert_ne. }
    assert (∀ p, first (set_queue m (<[pos := ChanToken]> (openQueue m)) (lowestInQueue m) (highestInQueue m)) p ↔ first m p) as Hfirst.
    { intros p. unfold first. setoid_rewrite Hwaits. done. }
    split; [split; simpl; try done|].
    + intros p c. destruct (decide (p = pos)) as [->|].
      * rewrite lookup_insert_eq. intros [= <-]. destruct Hpos as [[c0 Hc0] _]. apply Hq in Hc0 as [? _]. done.
      * rewrite lookup_insert_ne by done. apply Hq.
    + intros p Hp. by apply Hwaits, Hw.
    + intros p Hp. apply Hfirst. destruct (decide (p = pos)) as [->|]; [done|]. apply Hf.
      unfold signalled in *. simpl in Hp. by rewrite lookup_insert_ne in Hp.
    + intros p Hp%Hfirst _. right. simpl. rewrite (first_unique _ _ _ Hp Hpos). by rewrite lookup_insert_eq.
Qed.

(** *** Sequences of calls *)
Record sys := mkSys {
  map : outgoingStreamsMap T;
  deleted : gset Z;
  opened : list T;
  woken : gset Z;       (* goroutines that received and did not continue yet *)
  served : list Z;      (* those that got a stream *)
  blocked : list Z;     (* the limits of the STREAMS_BLOCKED frames *)
  missed : bool;        (* a signalled call was cancelled, and none was signalled since *)
}.
Implicit Types (y : sys).

Inductive op :=
| OpOpen
| OpOpenSync (ctxErr : option error)
| OpReceive (pos : Z)
| OpContinue (pos : Z)
| OpCancel (pos : Z)
| OpDelete (num : Z)
| OpSetMax (num : Z).

Definition event_blocked (evs : list (map_event T)) : list Z :=
  omap (λ e, match e with EStreamsBlocked f => Some (StreamsBlockedFrame.StreamLimit f) | _ => None end) evs.

Definition opened_by (r : open_result) : list T := match r with Opened t => [t] | _ => [] end.

(** The end of a call, or the point where it waits. *)
Definition settle y (m : outgoingStreamsMap T) (evs : list (map_event T)) (r : open_result) : sys :=
  mkSys m (deleted y) (opened y ++ opened_by r) (woken y) (served y) (blocked y ++ event_blocked evs) (missed y).

Definition set_missed y (b : bool) : sys :=
  mkSys (map y) (deleted y) (opened y) (woken y) (served y) (blocked y) b.

Definition step y (o : op) : result map_error sys :=
  let m := map y in
  match o with
  | OpOpen => let '(m, evs, r) := OpenStream newStream m in Ok (settle y m evs r)
  | OpOpenSync ctxErr => let '(m, evs, r) := OpenStreamSync newStream m ctxErr in Ok (settle y m evs r)
  | OpReceive pos =>
      if bool_decide (openQueue m !! pos = Some ChanToken ∧ pos ∉ woken y)
      then Ok (mkSys (OpenStreamSync_receive m pos) (deleted y) (opened y) ({[pos]} ∪ woken y) (served y) (blocked y) (missed y))
      else Ok y
  | OpContinue pos =>
      if bool_decide (pos ∈ woken y) then
        '(m, r) ← OpenStreamSync_continue newStream m pos;
        Ok (mkSys m (deleted y) (opened y ++ opened_by r) (woken y ∖ {[pos]})
              (served y ++ (if r is Opened _ then [pos] else [])) (blocked y) (if r is Opened _ then false else missed y))
      else Ok y
  | OpCancel pos =>
      if bool_decide (is_Some (openQueue m !! pos) ∧ pos ∉ woken y)
      then
        let missed := missed y || bool_decide (openQueue m !! pos = Some ChanToken) in
        let '(m, r) := OpenStreamSync_cancel m pos context_Canceled in Ok (set_missed (settle y m [] r) missed)
      else Ok y
  | OpDelete num =>
      m ← DeleteStream m num;
      Ok (mkSys m ({[num]} ∪ deleted y) (opened y) (woken y) (served y) (blocked y) (missed y))
  | OpSetMax num =>
      let missed := if num <=? maxStream m then missed y else false in
      '(m, evs) ← SetMaxStream m num; Ok (set_missed (settle y m evs (OpenWaits 0)) missed)
  end.

Fixpoint run y (ops : list op) : result map_error sys :=
  match ops with
  | [] => Ok y
  | o :: ops => match step y o with Ok y' => run y' ops | Err _ => run y ops | Panic => Panic end
  end.

Definition start (ty : StreamType) : sys := mkSys (newOutgoingStreamsMap ty) ∅ [] ∅ [] [] false.

(** Limits come from the parser. *)
Definition allowed (o : op) : Prop := match o with OpSetMax num => num ≤ MaxStreamCount | _ => True end.

(** The frames report increasing limits.  A frame from the time before the peer's limit is
    known, when [maxStream] is [InvalidStreamNum], reports 0.  The limit has been reported
    when it leaves a call waiting. *)
Definition blocked_ok m (bl : list Z) : Prop :=
  ∃ raw, Sorted Z.lt raw ∧ Forall (λ l, InvalidStreamNum ≤ l) raw ∧ bl = Z.max 0 <$> raw ∧
    (∀ x, last raw = Some x → if blockedSent m then x = maxStream m else x < maxStream m) ∧
    (blockedSent m = true → last raw = Some (maxStream m)).

Definition reported m : Prop :=
  queueLen m ≠ 0 → maxStream m < nextStream m - 1 + queueLen m → blockedSent m = true.

Record sys_inv y : Prop := {
  si_inv : inv (map y) (deleted y) (woken y);
  si_opened : opened y = newStream <$> seqZ 1 (nextStream (map y) - 1);
  si_served : Sorted Z.lt (served y) ∧ ∀ pos, last (served y) = Some pos → pos < lowestInQueue (map y);
  si_blocked : blocked_ok (map y) (blocked y);
  si_reported : reported (map y);
  si_wake : missed y = false → wake (map y) (woken y);
}.

Lemma limit_inv m del woken b : inv m del woken → inv (set_limit m (maxStream m) b) del woken.
Proof. by intros []. Qed.

Lemma maybeSendBlocked_spec m m' evs bl :
  -1 ≤ maxStream m → maybeSendBlockedFrame m = (m', evs) → blocked_ok m bl →
  m' = set_limit m (maxStream m) true ∧ blocked_ok m' (bl ++ event_blocked evs).
Proof.
  intros Hm Heq (raw & Hs & Hf & -> & Hl & Hr). unfold maybeSendBlockedFrame in Heq.
  destruct (blockedSent m) eqn:Hb; injection Heq as <- <-.
  - split; [by destruct m; simpl in *; subst|]. simpl. rewrite app_nil_r. exists raw. by rewrite Hb.
  - split; [done|]. simpl. unfold InvalidStreamNum in *.
    assert ((if maxStream m =? -1 then 0 else maxStream m) = Z.max 0 (maxStream m)) as -> by (zcase; lia).
    exists (raw ++ [maxStream m]). rewrite fmap_app, last_snoc. split_and!; try done.
    + by apply Sorted_snoc.
    + apply Forall_app. split; [done|]. by repeat constructor.
    + simpl. by intros x [= <-].
Qed.

Lemma opened_streams m del num :
  (∀ num, streams m !! num = if bool_decide (1 ≤ num < nextStream m ∧ num ∉ del) then Some (newStream num) else None) →
  (∀ num, num ∈ del → 1 ≤ num < nextStream m) → 1 ≤ nextStream m →
  <[nextStream m := newStream (nextStream m)]> (streams m) !! num =
    if bool_decide (1 ≤ num < nextStream m + 1 ∧ num ∉ del) then Some (newStream num) else None.
Proof.
  intros Hs Hd Hn. destruct (decide (num = nextStream m)) as [->|].
  - rewrite lookup_insert_eq, bool_decide_eq_true_2; [done|]. split; [lia|]. intros ?%Hd. lia.
  - rewrite lookup_insert_ne, Hs by done.
    erewrite bool_decide_ext; [done|]. split; intros [? ?]; (split; [lia|done]).
Qed.

Lemma open_inv m del woken :
  inv m del woken → nextStream m ≤ maxStream m → (∀ pos, ¬ waits m pos) →
  inv (openStream newStream m).1 del woken.
Proof.
  intros [Hn Hm Hs Hd Hb Hq Hw Hsg Hc] Hle He. split; simpl; try done; try lia.
  - intros num. by apply opened_streams; [..|lia].
  - intros num ?%Hd. lia.
Qed.

Lemma no_waits_wake m woken : (∀ pos, ¬ waits m pos) → wake m woken.
Proof. intros He pos [Hpos _]. by apply He in Hpos. Qed.

Lemma opened_snoc (l : list T) m :
  1 ≤ nextStream m → l = newStream <$> seqZ 1 (nextStream m - 1) →
  l ++ [newStream (nextStream m)] = newStream <$> seqZ 1 (nextStream m + 1 - 1).
Proof.
  intros Hn ->. replace (nextStream m + 1 - 1) with (nextStream m - 1 + 1) by lia.
  rewrite seqZ_snoc, fmap_app by lia. simpl. do 3 f_equal. lia.
Qed.

Lemma open_now y :
  sys_inv y → queueLen (map y) = 0 → nextStream (map y) ≤ maxStream (map y) →
  sys_inv (settle y (openStream newStream (map y)).1 [] (Opened (newStream (nextStream (map y))))).
Proof.
  intros [Hi Ho Hse Hbl Hre Hwk] Hq Hle. pose proof (proj1 (queue_empty _) Hq) as He. pose proof (inv_next _ _ _ Hi).
  split; simpl; [by apply (open_inv (map y))|by apply opened_snoc; [lia|]|done|by rewrite app_nil_r|by intros []|].
  intros _. by apply no_waits_wake.
Qed.

Lemma out_step_open y : sys_inv y → returns (step y OpOpen) sys_inv.
Proof.
  intros Hy. pose proof Hy as [Hi Ho Hse Hbl Hre Hwk]. pose proof Hi as [Hn Hm _ _ _ _ _ _ Hc].
  cbn [step]. unfold OpenStream. rewrite Hc.
  destruct ((0 <? queueLen (map y)) || (maxStream (map y) <? nextStream (map y))) eqn:E.
  - destruct (maybeSendBlockedFrame (map y)) as [m' evs] eqn:Hmb.
    destruct (maybeSendBlocked_spec _ _ _ _ (proj1 Hm) Hmb Hbl) as [-> Hbl'].
    cbn [returns]. split; simpl; [by apply limit_inv|by rewrite app_nil_r|done..].
  - apply orb_false_iff in E as [E1%Z.ltb_ge E2%Z.ltb_ge].
    assert (queueLen (map y) = 0) as Hq by (unfold queueLen in *; lia). by apply open_now.
Qed.

Lemma enqueue_inv m del woken low :
  inv m del woken → (queueLen m = 0 → maxStream m < nextStream m) →
  low = (if queueLen m =? 0 then highestInQueue m else lowestInQueue m) →
  let m' := set_queue m (<[highestInQueue m := ChanEmpty]> (openQueue m)) low (highestInQueue m + 1) in
  inv m' del woken ∧ (wake m woken → wake m' woken).
Proof.
  intros [Hn Hm Hs Hd Hb Hq Hw Hsg Hc] He -> m'. set (pos0 := highestInQueue m) in *.
  assert (openQueue m !! pos0 = None) as Hnone.
  { destruct (openQueue m !! pos0) eqn:E; [|done]. apply Hq in E as [? _]. unfold pos0 in *. lia. }
  assert (∀ p, waits m' p ↔ p = pos0 ∨ waits m p) as Hwaits.
  { intros p. unfold waits. simpl. destruct (decide (p = pos0)) as [->|].
    - rewrite lookup_insert_eq. split; [by left|by eexists].
    - rewrite lookup_insert_ne by done. naive_solver. }
  assert (∀ p, waits m p → p < pos0) as Hlt by (intros p [c Hp]; apply Hq in Hp as [? _]; unfold pos0; lia).
  assert (∀ p, first m p → first m' p) as Hfirst.
  { intros p [Hp Hmin]. split; [by apply Hwaits; right|]. intros p' [->|?]%Hwaits; [|by apply Hmin]. apply Hlt in Hp. lia. }
  assert (∀ p, signalled m' woken p ↔ signalled m woken p) as Hsig.
  { intros p. unfold signalled. simpl. destruct (decide (p = pos0)) as [->|]; [|by rewrite lookup_insert_ne].
    rewrite lookup_insert_eq, Hnone. naive_solver. }
  split; [split; try done|].
  - simpl. zcase; unfold pos0; lia.
  - intros p c. simpl. destruct (decide (p = pos0)) as [->|].
    + rewrite lookup_insert_eq. intros [= <-]. split; [zcase; unfold pos0; lia|done].
    + rewrite lookup_insert_ne by done. intros H. specialize (Hq _ _ H) as [? ?]. split; [|done].
      destruct (Z.eqb_spec (queueLen m) 0) as [Hz|]; [|unfold pos0; lia].
      rewrite queue_empty in Hz. by destruct (Hz p); eexists.
  - intros p ?%Hw. apply Hwaits. by right.
  - intros p ?%Hsig%Hsg. by apply Hfirst.
  - intros Hwk p [Hp Hmin] Hle. apply Hsig. destruct (Z.eqb_spec (queueLen m) 0) as [H0|H0]; [specialize (He H0); simpl in Hle; lia|].
    rewrite queue_empty in H0.
    assert (p ≠ pos0) as Hne.
    { intros ->. apply H0. intros p Hp'. specialize (Hmin p). rewrite Hwaits in Hmin. specialize (Hmin (or_intror Hp')).
      apply Hlt in Hp'. lia. }
    apply Hwk; [|done]. split; [by apply Hwaits in Hp as [|]|]. intros p' Hp'. apply Hmin, Hwaits. by right.
Qed.

Lemma step_open_sync y e : sys_inv y → returns (step y (OpOpenSync e)) sys_inv.
Proof.
  intros Hy. pose proof Hy as [Hi Ho Hse Hbl Hre Hwk]. pose proof Hi as [Hn Hm _ _ Hb _ _ _ Hc].
  cbn [step]. unfold OpenStreamSync. rewrite Hc.
  destruct e as [e|]; [simpl; split; simpl; try done; by rewrite app_nil_r|].
  destruct ((queueLen (map y) =? 0) && (nextStream (map y) <=? maxStream (map y))) eqn:E.
  - apply andb_true_iff in E as [E1%Z.eqb_eq E2%Z.leb_le]. by apply open_now.
  - cbv zeta. destruct (maybeSendBlockedFrame _) as [m' evs] eqn:Hmb.
    apply (maybeSendBlocked_spec _ _ _ (blocked y)) in Hmb as [-> Hbl']; [|by apply Hm|done].
    edestruct (enqueue_inv (map y) (deleted y) (woken y)) as [Hi' Hwk']; [exact Hi| |reflexivity|].
    { intros Hz%Z.eqb_eq. rewrite Hz in E. cbn [andb] in E. by apply Z.leb_gt in E. }
    cbn [returns]. split; simpl; [exact (limit_inv _ _ _ true Hi')|by rewrite app_nil_r| |done|done|].
    + split; [apply Hse|]. intros pos Hpos. apply Hse in Hpos. zcase; lia.
    + intros Hms. by apply Hwk', Hwk.
Qed.

Lemma first_exists m del woken pos : inv m del woken → waits m pos → ∃ pos', first m pos'.
Proof.
  intros [_ _ _ _ _ Hq _ _ _] Hp. destruct (unblockOpenSync_spec m Hq) as (? & _ & [[He _]|(p & Hf & _)]); [|by exists p].
  by apply He in Hp.
Qed.

Lemma out_receive_inv m del woken pos :
  inv m del woken → openQueue m !! pos = Some ChanToken →
  let m' := set_queue m (<[pos := ChanEmpty]> (openQueue m)) (lowestInQueue m) (highestInQueue m) in
  inv m' del ({[pos]} ∪ woken) ∧ wake m' ({[pos]} ∪ woken).
Proof.
  intros [Hn Hm Hs Hd Hb Hq Hw Hsg Hc] Ht m'.
  assert (∀ p, waits m' p ↔ waits m p) as Hwaits.
  { intros p. unfold waits. simpl. destruct (decide (p = pos)) as [->|]; [|by rewrite lookup_insert_ne].
    rewrite lookup_insert_eq, Ht. done. }
  assert (∀ p, first m' p ↔ first m p) as Hfirst by (intros p; unfold first; by setoid_rewrite Hwaits).
  assert (first m pos) as Hfp by (apply Hsg; by right).
  split; [split; try done|].
  - intros p c. simpl. destruct (decide (p = pos)) as [->|]; [|rewrite lookup_insert_ne by done; apply Hq].
    rewrite lookup_insert_eq. intros [= <-]. apply Hq in Ht as [? _]. done.
  - intros p [->%elem_of_singleton|?]%elem_of_union; apply Hwaits; [apply Hfp|by apply Hw].
  - intros p [[->%elem_of_singleton|?]%elem_of_union|Hp]; apply Hfirst; [done|by apply Hsg; left|].
    simpl in Hp. destruct (decide (p = pos)) as [->|]; [done|]. rewrite lookup_insert_ne in Hp by done. apply Hsg. by right.
  - intros p Hp%Hfirst _. left. rewrite (first_unique _ _ _ Hp Hfp). set_solver.
Qed.

Lemma out_step_receive y pos : sys_inv y → returns (step y (OpReceive pos)) sys_inv.
Proof.
  intros [Hi Ho Hse Hbl Hre Hwk]. cbn [step]. case_bool_decide as Hp; cbn [returns]; [|done]. destruct Hp as [Ht Hnw].
  unfold OpenStreamSync_receive. rewrite Ht. destruct (out_receive_inv _ _ _ _ Hi Ht) as [Hi' Hwk'].
  split; simpl; try done. revert Hre. unfold reported, queueLen. simpl. by rewrite map_size_insert_Some.
Qed.

Lemma out_cancel_inv m del woken pos :
  inv m del woken → waits m pos → pos ∉ woken →
  let m' := set_queue m (delete pos (openQueue m)) (lowestInQueue m) (highestInQueue m) in
  inv m' del woken ∧ (openQueue m !! pos ≠ Some ChanToken → wake m woken → wake m' woken).
Proof.
  intros Hi Hwp Hnw m'. pose proof (first_exists _ _ _ _ Hi Hwp) as [q Hfq]. destruct Hi as [Hn Hm Hs Hd Hb Hq Hw Hsg Hc].
  assert (∀ p, waits m' p ↔ p ≠ pos ∧ waits m p) as Hwaits.
  { intros p. unfold waits. simpl. destruct (decide (p = pos)) as [->|]; [|rewrite lookup_delete_ne; naive_solver].
    rewrite lookup_delete_eq. split; [by intros []|naive_solver]. }
  assert (∀ p, first m p → p ≠ pos → first m' p) as Hfirst.
  { intros p [Hp Hmin] Hne. split; [by apply Hwaits|]. intros p' [_ Hp']%Hwaits. by apply Hmin. }
  assert (∀ p, signalled m' woken p ↔ signalled m woken p ∧ p ≠ pos) as Hsig.
  { intros p. unfold signalled. simpl. destruct (decide (p = pos)) as [->|]; [|rewrite lookup_delete_ne; naive_solver].
    rewrite lookup_delete_eq. naive_solver. }
  split; [split; try done|].
  - intros p c. simpl. intros [_ ?]%lookup_delete_Some. by apply Hq.
  - intros p Hp. apply Hwaits. split; [by intros ->|by apply Hw].
  - intros p [? ?]%Hsig. by apply Hfirst; [apply Hsg|].
  - intros Hnt Hwk p Hp Hle. specialize (Hwk q Hfq Hle). apply Hsig.
    assert (q ≠ pos) as Hne by (intros ->; by destruct Hwk). rewrite (first_unique _ p q Hp); [done|]. by apply Hfirst.
Qed.

Lemma step_cancel y pos : sys_inv y → returns (step y (OpCancel pos)) sys_inv.
Proof.
  intros [Hi Ho Hse Hbl Hre Hwk]. cbn [step]. case_bool_decide as Hp; cbn [returns OpenStreamSync_cancel]; [|done].
  destruct Hp as [Hwp Hnw]. destruct (out_cancel_inv _ _ _ _ Hi Hwp Hnw) as [Hi' Hwk'].
  cbv zeta. cbn [returns]. split; simpl; [done|by rewrite app_nil_r|done|by rewrite app_nil_r| |].
  - revert Hre. unfold reported, queueLen. destruct Hwp as [c Hwp]. simpl. rewrite map_size_delete, Hwp. simpl.
    intros Hre ? ?. apply Hre; lia.
  - intros [Hms Hnt%bool_decide_eq_false]%orb_false_iff. by apply Hwk', Hwk.
Qed.

Lemma out_delete_inv m del woken num m' :
  inv m del woken → DeleteStream m num = Ok m' → inv m' ({[num]} ∪ del) woken.
Proof.
  intros [Hn Hm Hs Hd Hb Hq Hw Hsg Hc]. unfold DeleteStream. destruct (streams m !! num) as [t|] eqn:Hnum; [|done].
  intros [= <-]. split; simpl; try done.
  - intros p. destruct (decide (p = num)) as [->|Hne].
    + rewrite lookup_delete_eq, bool_decide_eq_false_2; [done|]. set_solver.
    + rewrite lookup_delete_ne, Hs by done. erewrite bool_decide_ext; [done|]. set_solver.
  - intros p [->%elem_of_singleton|?]%elem_of_union; [|by apply Hd].
    rewrite Hs in Hnum. case_bool_decide as H; [|done]. by destruct H.
Qed.

Lemma out_delete_fields m num m' : DeleteStream m num = Ok m' → m' = set_streams m (delete num (streams m)) (nextStream m).
Proof. unfold DeleteStream. by destruct (streams m !! num); intros [= <-]. Qed.

Lemma step_out_delete y num : sys_inv y → step y (OpDelete num) ≠ Panic ∧ ∀ y', step y (OpDelete num) = Ok y' → sys_inv y'.
Proof.
  intros [Hi Ho Hse Hbl Hre Hwk]. cbn [step]. destruct (DeleteStream (map y) num) as [m'| |] eqn:Hdel; [|done|].
  - split; [done|]. cbn. intros y' [= <-]. pose proof (out_delete_inv _ _ _ _ _ Hi Hdel).
    rewrite (out_delete_fields _ _ _ Hdel) in *. done.
  - unfold DeleteStream in Hdel. by destruct (_ !! num).
Qed.

Lemma unblocked_fields m m' : unblocked m m' → m' = set_queue m (openQueue m') (lowestInQueue m) (highestInQueue m).
Proof. intros [[_ ->]|(pos & _ & ->)]; by destruct m. Qed.

Lemma unblocked_len m m' : unblocked m m' → queueLen m' = queueLen m.
Proof. intros [[_ ->]|(pos & [Hp _] & ->)]; [done|]. unfold queueLen. simpl. by rewrite map_size_insert_Some. Qed.

Lemma step_continue y pos : sys_inv y → returns (step y (OpContinue pos)) sys_inv.
Proof.
  intros [Hi Ho Hse Hbl Hre Hwk]. cbn [step]. case_bool_decide as Hp; [|done]. pose proof Hi as [Hn Hm Hs Hd Hb Hq Hw Hsg Hc].
  unfold OpenStreamSync_continue. rewrite Hc. assert (first (map y) pos) as Hfp by (apply Hsg; by left).
  destruct (Z.ltb_spec (maxStream (map y)) (nextStream (map y))) as [Hlt|Hle].
  - cbn. split; simpl; [|by rewrite app_nil_r..|done|done|intros _ p _; lia]. split; try done.
    + set_solver.
    + intros p [?|?]; apply Hsg; [left; set_solver|by right].
  - cbn [openStream]. cbv zeta.
    set (m1 := set_queue (set_streams (map y) _ _) _ _ _).
    assert (∀ p, waits m1 p ↔ p ≠ pos ∧ waits (map y) p) as Hwaits.
    { intros p. unfold waits. simpl. destruct (decide (p = pos)) as [->|]; [|rewrite lookup_delete_ne; naive_solver].
      rewrite lookup_delete_eq. split; [by intros []|naive_solver]. }
    assert (∀ p c, openQueue m1 !! p = Some c → lowestInQueue m1 ≤ p < highestInQueue m1 ∧ c ≠ ChanClosed) as Hq1.
    { simpl. intros p c [Hne Hp']%lookup_delete_Some. pose proof (proj2 Hfp p (ltac:(by eexists))).
      apply Hq in Hp' as [? ?]. split; [lia|done]. }
    destruct (unblockOpenSync_spec m1 Hq1) as (m2 & -> & Hu). pose proof (unblocked_fields _ _ Hu) as Hm2. cbn.
    assert (lowestInQueue (map y) ≤ pos < highestInQueue (map y)) as Hpos.
    { destruct Hfp as [[c Hpc] _]. by apply Hq in Hpc as [? _]. }
    assert (inv m2 (deleted y) (woken y ∖ {[pos]}) ∧ wake m2 (woken y ∖ {[pos]})) as [Hi2 Hwk2].
    { apply (unblocked_inv m1); simpl; try done; try lia.
      * intros num. by apply opened_streams; [..|lia].
      * intros num ?%Hd. lia.
      * intros p [? ?]%elem_of_difference. apply Hwaits. split; [set_solver|by apply Hw].
      * unfold signalled. simpl. intros p [[Hpw Hne]%elem_of_difference|[Hne Ht]%lookup_delete_Some]; exfalso.
        -- apply Hne, elem_of_singleton. eapply first_unique; [|done]. apply Hsg. by left.
        -- apply Hne. eapply first_unique; [done|]. apply Hsg. by right. }
    split; simpl; [done|..|done].
    + rewrite Hm2. simpl. by apply opened_snoc; [lia|].
    + rewrite Hm2. simpl. split.
      * apply Sorted_snoc; [apply Hse|]. intros x Hx. apply Hse in Hx. lia.
      * rewrite last_snoc. intros x [= <-]. lia.
    + rewrite Hm2. done.
    + revert Hre. unfold reported. rewrite (unblocked_len _ _ Hu), Hm2. unfold queueLen. simpl.
      destruct Hfp as [[c Hpc] _]. rewrite map_size_delete, Hpc. simpl.
      assert (size (openQueue (map y)) ≠ O) by (rewrite map_size_non_empty_iff; intros E; by rewrite E in Hpc).
      intros Hre ? ?. apply Hre; lia.
Qed.

Lemma set_max_blocked m bl num :
  maxStream m < num → blocked_ok m bl → blocked_ok (set_limit m num false) bl.
Proof.
  intros Hn (raw & Hs & Hf & -> & Hl & Hr). exists raw. split_and!; try done. simpl. intros x Hx. apply Hl in Hx.
  destruct (blockedSent m); lia.
Qed.

Lemma step_set_max y num : sys_inv y → num ≤ MaxStreamCount → returns (step y (OpSetMax num)) sys_inv.
Proof.
  intros [Hi Ho Hse Hbl Hre Hwk] Hnum. cbn [step]. unfold SetMaxStream. pose proof Hi as [Hn Hm Hs Hd Hb Hq Hw Hsg Hc].
  destruct (Z.leb_spec num (maxStream (map y))) as [|Hlt].
  { cbn. split; simpl; try done; by rewrite app_nil_r. }
  cbv zeta. set (m1 := set_limit (map y) num false).
  assert (blocked_ok m1 (blocked y)) as Hbl1 by (by apply set_max_blocked).
  assert (∃ b evs, (if maxStream m1 <? nextStream m1 - 1 + queueLen m1 then maybeSendBlockedFrame m1 else (m1, []))
    = (set_limit m1 num b, evs) ∧ blocked_ok (set_limit m1 num b) (blocked y ++ event_blocked evs) ∧
      (num < nextStream m1 - 1 + queueLen m1 → b = true)) as (b & evs & -> & Hbl2 & Hb2).
  { destruct (Z.ltb_spec (maxStream m1) (nextStream m1 - 1 + queueLen m1)).
    - destruct (maybeSendBlockedFrame m1) as [m2 evs] eqn:E. exists true, evs.
      apply (maybeSendBlocked_spec _ _ _ (blocked y)) in E as [-> ?]; [done|simpl; lia|done].
    - exists false, []. simpl in *. rewrite app_nil_r. split_and!; try done. lia. }
  destruct (unblockOpenSync_spec (set_limit m1 num b) Hq) as (m2 & -> & Hu). pose proof (unblocked_fields _ _ Hu) as Hm2.
  assert (inv m2 (deleted y) (woken y) ∧ wake m2 (woken y)) as [Hi2 Hwk2]
    by (apply (unblocked_inv (set_limit m1 num b)); simpl; try done; lia).
  cbn. split; simpl; [done|rewrite Hm2, app_nil_r|rewrite Hm2..| |]; try done.
  intros _. rewrite (unblocked_len _ _ Hu), Hm2. exact Hb2.
Qed.

Lemma out_step_ok y o :
  sys_inv y → allowed o → step y o ≠ Panic ∧ ∀ y', step y o = Ok y' → sys_inv y'.
Proof.
  assert (∀ r : result map_error sys, returns r sys_inv → r ≠ Panic ∧ ∀ y', r = Ok y' → sys_inv y') as Hr.
  { intros [y'| |] Hr; [|done..]. split; [done|]. by intros ? [= <-]. }
  intros Hi Ha. destruct o; try by apply step_out_delete.
  all: apply Hr; eauto using out_step_open, step_open_sync, out_step_receive, step_continue, step_cancel, step_set_max.
Qed.

Lemma out_run_ok ops y : sys_inv y → Forall allowed ops → returns (run y ops) sys_inv.
Proof.
  revert y. induction ops as [|o ops IH]; intros y Hi Ha; [done|]. apply Forall_cons in Ha as [Ho Ha].
  destruct (out_step_ok y o Hi Ho) as [Hnp Hok]. cbn [run]. destruct (step y o) as [y'| |]; [|by apply IH|done].
  apply IH; [by apply Hok|done].
Qed.

Lemma out_start_ok ty : sys_inv (start ty).
Proof.
  split; [by apply out_new_inv|done|split; [apply Sorted_nil|done]| |by intros []|].
  - exists []. split_and!; try done; constructor.
  - intros _. apply no_waits_wake. intros pos [c Hc]. simpl in Hc. by rewrite lookup_empty in Hc.
Qed.

Lemma GetStream_spec m del woken num :
  inv m del woken →
  GetStream m num =
    if nextStream m <=? num then Err (streamError "peer attempted to open stream %d" [num])
    else Ok (if bool_decide (1 ≤ num ∧ num ∉ del) then Some (newStream num) else None).
Proof.
  intros Hi. unfold GetStream. zcase; [done|]. rewrite (inv_streams _ _ _ Hi). f_equal.
  erewrite bool_decide_ext; [done|]. naive_solver lia.
Qed.

Lemma out_delete_iff m del woken num :
  inv m del woken → (∃ m', DeleteStream m num = Ok m') ↔ 1 ≤ num < nextStream m ∧ num ∉ del.
Proof.
  intros Hi. unfold DeleteStream. rewrite (inv_streams _ _ _ Hi). case_bool_decide; naive_solver.
Qed.

Lemma continue_opens m del woken pos :
  inv m del woken → nextStream m ≤ maxStream m → first m pos →
  ∃ m', OpenStreamSync_continue newStream m pos = Ok (m', Opened (newStream (nextStream m))).
Proof.
  intros [Hn Hm _ _ Hbd Hq _ _ Hc] Hle Hpos. unfold OpenStreamSync_continue.
  rewrite Hc, (proj2 (Z.ltb_ge _ _)) by done. cbn [openStream]. cbv zeta.
  set (m1 := set_queue (set_streams _ _ _) _ _ _). destruct (unblockOpenSync_spec m1) as (m2 & -> & _); [|by eexists].
  simpl. intros p c [Hne Hp]%lookup_delete_Some. pose proof (proj2 Hpos p (ltac:(by eexists))).
  apply Hq in Hp as [? ?]. split; [lia|done].
Qed.

Lemma blocked_frames m bl :
  blocked_ok m bl → reported m →
  ∃ raw, bl = Z.max 0 <$> raw ∧ Sorted Z.lt raw ∧ Forall (λ l, InvalidStreamNum ≤ l ≤ maxStream m) raw ∧
    (queueLen m ≠ 0 → maxStream m < nextStream m - 1 + queueLen m → last raw = Some (maxStream m)).
Proof.
  intros (raw & Hs & Hf & -> & Hl & Hr) Hre. exists raw. split_and!; try done; [|auto].
  apply Forall_and. split; [done|]. destruct (last raw) as [x|] eqn:E.
  - specialize (Hl x eq_refl). assert (x ≤ maxStream m) by (destruct (blockedSent m); lia).
    apply Sorted_StronglySorted in Hs; [|intros ???; lia].
    apply last_Some in E as [raw' ->].
    apply Forall_forall. intros l [Hin| ->%list_elem_of_singleton]%elem_of_app; [|done].
    assert (l < x) by (eapply StronglySorted_app_1_elem_of; [done..|by apply list_elem_of_singleton]). lia.
  - by apply last_None in E as ->.
Qed.

(** C15: the streams that we open are handled exactly.  Whatever calls of [OpenStream] and
    [OpenStreamSync] are made, served or cancelled, whatever streams complete and limits
    arrive: nothing panics; streams are opened in order, each once, and never more than
    the peer's limit allows; the calls that wait are served in the order in which they
    came.  The STREAMS_BLOCKED frames report strictly increasing limits, and the limit in
    force has been reported if it leaves a call waiting; a frame from before the peer's
    limit is known counts for the limit -1, and reports 0.  If a stream can be opened, the
    first waiting call, when it continues, gets the next stream; it has been signalled to
    do so, unless another call was cancelled after it was signalled, and none was signalled
    since (see [cancelled_open_lost_wakeup]).  A frame for a stream that we have not opened
    is an error, and a stream can be deleted exactly once. *)
Theorem outgoing_streams_exact ty ops :
  Forall allowed ops →
  ∃ y, run (start ty) ops = Ok y ∧ let m := map y in
    opened y = newStream <$> seqZ 1 (len (opened y)) ∧ len (opened y) ≤ Z.max 0 (maxStream m) ∧
    Sorted Z.lt (served y) ∧
    (∃ raw, blocked y = Z.max 0 <$> raw ∧ Sorted Z.lt raw ∧ Forall (λ l, InvalidStreamNum ≤ l ≤ maxStream m) raw ∧
      (queueLen m ≠ 0 → maxStream m < len (opened y) + queueLen m → last raw = Some (maxStream m))) ∧
    (nextStream m ≤ maxStream m → ∀ pos, first m pos →
      (missed y = false → signalled m (woken y) pos) ∧
      ∃ m', OpenStreamSync_continue newStream m pos = Ok (m', Opened (newStream (len (opened y) + 1)))) ∧
    (∀ num, GetStream m num =
      if len (opened y) <? num then Err (streamError "peer attempted to open stream %d" [num])
      else Ok (if bool_decide (1 ≤ num ∧ num ∉ deleted y) then Some (newStream num) else None)) ∧
    (∀ num, (∃ m', DeleteStream m num = Ok m') ↔ 1 ≤ num ≤ len (opened y) ∧ num ∉ deleted y).
Proof.
  intros Ha. pose proof (out_run_ok ops _ (out_start_ok ty) Ha) as Hr.
  apply returns_iff in Hr as (y & Hrun & [Hi Ho [Hs _] Hb Hre Hwk]). exists y. split; [done|]. cbv zeta.
  pose proof Hi as [Hn Hm _ _ Hbd Hq _ _ Hc].
  assert (len (opened y) = nextStream (map y) - 1) as Hlen.
  { rewrite Ho, len_fmap. unfold len. rewrite length_seqZ. lia. }
  rewrite Hlen. split_and!; [done|lia|done|by apply blocked_frames| | |].
  - intros Hle pos Hpos. split; [intros Hms; by apply Hwk|]. rewrite Z.sub_add. by eapply continue_opens.
  - intros num. rewrite (GetStream_spec _ _ _ _ Hi).
    replace (nextStream (map y) <=? num) with (nextStream (map y) - 1 <? num) by (repeat zcase; done || lia). done.
  - intros num. rewrite (out_delete_iff _ _ _ _ Hi). split; intros [? ?]; (split; [lia|done]).
Qed.

(** [CloseWithError] wakes every waiting call, and all of them return the error. *)
Lemma out_close_wakes m del woken err :
  inv m del woken → ∃ m' evs, CloseWithError m err = Ok (m', evs) ∧
    (∀ pos, waits m pos → openQueue m' !! pos = Some ChanClosed ∧
      OpenStreamSync_continue newStream m' pos = Ok (m', OpenFailed err)) ∧
    OpenStream newStream m' = (m', [], OpenFailed err) ∧
    (∀ num, 1 ≤ num < nextStream m → num ∉ del → EShutdown (newStream num) err ∈ evs).
Proof.
  intros [Hn Hm Hs Hd Hb Hq Hw Hsg Hc]. unfold CloseWithError.
  rewrite bool_decide_eq_true_2 by (intros p c Hp; by apply Hq in Hp as [_ ?]).
  eexists _, _. split; [done|]. split_and!; try done.
  - intros pos [c Hpos]. split; [|done]. simpl. by rewrite lookup_fmap, Hpos.
  - intros num Hnum Hnd. apply list_elem_of_fmap. exists (num, newStream num). split; [done|].
    apply elem_of_map_to_list. rewrite Hs. by rewrite bool_decide_eq_true_2.
Qed.
End invariant.

Definition out_example_ops : list op :=
  [OpOpen; OpSetMax 1; OpOpen; OpOpen; OpOpenSync None; OpOpenSync None; OpOpenSync None; OpSetMax 3;
   OpReceive 0; OpCancel 1; OpContinue 0; OpDelete 1; OpReceive 2; OpContinue 2; OpDelete 1].

Lemma outgoing_streams_exact_witness :
  ∃ y, run (λ num, num) (start StreamTypeBidi) out_example_ops = Ok y ∧
    opened y = [1; 2; 3] ∧ served y = [0; 2] ∧ blocked y = [0; 1; 3] ∧ GetStream (map y) 1 = Ok None.
Proof.
  destruct (outgoing_streams_exact (λ num, num) StreamTypeBidi out_example_ops) as (y & Hrun & _ & _ & _ & _ & _ & Hg & _).
  - repeat constructor; by vm_compute.
  - assert (∃ y0, run (λ num, num) (start StreamTypeBidi) out_example_ops = Ok y0 ∧ opened y0 = [1; 2; 3] ∧
      served y0 = [0; 2] ∧ blocked y0 = [0; 1; 3] ∧ 1 ∈ deleted y0) as (y0 & Hrun0 & Ho & Hs & Hb & Hd).
    { eexists. split; [vm_compute; reflexivity|]. do 3 (split; [reflexivity|]). by vm_compute. }
    rewrite Hrun0 in Hrun. injection Hrun as <-. exists y0. split; [done|]. do 3 (split; [done|]).
    rewrite Hg, Ho. cbn -[bool_decide]. by rewrite bool_decide_eq_false_2 by naive_solver.
Defined.

(** A call that has been signalled, but notices first that its context is done, leaves
    without passing the signal on.  Here calls 0 and 1 wait, the limit rises to 1, and call
    0 is cancelled.  A stream could be opened, but call 1 is not woken, and [OpenStream]
    reports that the limit is reached. *)
Lemma cancelled_open_lost_wakeup :
  let ops := [OpOpenSync None; OpOpenSync None; OpSetMax 1; OpCancel 0] in
  ∃ y, run (λ num, num) (start StreamTypeBidi) ops = Ok y ∧
    nextStream (map y) = 1 ∧ maxStream (map y) = 1 ∧ openQueue (map y) = {[1 := ChanEmpty]} ∧
    (OpenStream (λ num, num) (map y)).2 = OpenFailed StreamLimitReachedError.
Proof. eexists. split; [vm_compute; reflexivity|]. do 3 (split; [vm_compute; reflexivity|]). vm_compute; reflexivity. Qed.
End Outgoing.

(** ** The four maps of a connection (streams_map.go) *)
Definition StreamStateError : Z := 5.

Section streams_map.
(** The streams, and the functions that create the three kinds of them from their ID. *)
Context {T : Type} (newStream newSendStream newReceiveStream : Z → T).

Record streamsMap := mkStreamsMap {
  perspective : Perspective;
  maxIncomingBidiStreams : Z;
  maxIncomingUniStreams : Z;
  outgoingBidiStreams : Outgoing.outgoingStreamsMap T;
  outgoingUniStreams : Outgoing.outgoingStreamsMap T;
  incomingBidiStreams : Incoming.incomingStreamsMap T;
  incomingUniStreams : Incoming.incomingStreamsMap T;
  reset : bool;
}.
Implicit Types (m : streamsMap) (id : Z) (p : Perspective).

Definition set_out m (ty : StreamType) (o : Outgoing.outgoingStreamsMap T) : streamsMap :=
  match ty with
  | StreamTypeBidi => mkStreamsMap (perspective m) (maxIncomingBidiStreams m) (maxIncomingUniStreams m) o
      (outgoingUniStreams m) (incomingBidiStreams m) (incomingUniStreams m) (reset m)
  | StreamTypeUni => mkStreamsMap (perspective m) (maxIncomingBidiStreams m) (maxIncomingUniStreams m)
      (outgoingBidiStreams m) o (incomingBidiStreams m) (incomingUniStreams m) (reset m)
  end.
Definition set_in m (ty : StreamType) (i : Incoming.incomingStreamsMap T) : streamsMap :=
  match ty with
  | StreamTypeBidi => mkStreamsMap (perspective m) (maxIncomingBidiStreams m) (maxIncomingUniStreams m)
      (outgoingBidiStreams m) (outgoingUniStreams m) i (incomingUniStreams m) (reset m)
  | StreamTypeUni => mkStreamsMap (perspective m) (maxIncomingBidiStreams m) (maxIncomingUniStreams m)
      (outgoingBidiStreams m) (outgoingUniStreams m) (incomingBidiStreams m) i (reset m)
  end.
Definition set_reset m (b : bool) : streamsMap :=
  mkStreamsMap (perspective m) (maxIncomingBidiStreams m) (maxIncomingUniStreams m)
    (outgoingBidiStreams m) (outgoingUniStreams m) (incomingBidiStreams m) (incomingUniStreams m) b.

(** The functions that the maps get to create their streams. *)
Definition new_outgoing (ty : StreamType) p (num : Z) : T :=
  match ty with
  | StreamTypeBidi => newStream (StreamNum_StreamID num StreamTypeBidi p)
  | StreamTypeUni => newSendStream (StreamNum_StreamID num StreamTypeUni p)
  end.
Definition new_incoming (ty : StreamType) p (num : Z) : T :=
  match ty with
  | StreamTypeBidi => newStream (StreamNum_StreamID num StreamTypeBidi (Opposite p))
  | StreamTypeUni => newReceiveStream (StreamNum_StreamID num StreamTypeUni (Opposite p))
  end.

Definition initMaps p (maxBidi maxUni : Z) (rst : bool) : streamsMap :=
  mkStreamsMap p maxBidi maxUni
    (Outgoing.newOutgoingStreamsMap StreamTypeBidi) (Outgoing.newOutgoingStreamsMap StreamTypeUni)
    (Incoming.newIncomingStreamsMap StreamTypeBidi maxBidi) (Incoming.newIncomingStreamsMap StreamTypeUni maxUni) rst.

Definition newStreamsMap (maxBidi maxUni : Z) p : streamsMap := initMaps p maxBidi maxUni false.

Definition open_error (r : Outgoing.open_result (T:=T)) (ty : StreamType) p : Outgoing.open_result :=
  match r with
  | Outgoing.OpenFailed e => Outgoing.OpenFailed (convertStreamError (otherError e) ty p)
  | _ => r
  end.

Definition OpenStream m : streamsMap * list (map_event T) * Outgoing.open_result :=
  if reset m then (m, [], Outgoing.OpenFailed Err0RTTRejected)
  else
    let '(o, evs, r) := Outgoing.OpenStream (new_outgoing StreamTypeBidi (perspective m)) (outgoingBidiStreams m) in
    (set_out m StreamTypeBidi o, evs, open_error r StreamTypeBidi (perspective m)).

Definition OpenStreamSync m (ctxErr : option error) : streamsMap * list (map_event T) * Outgoing.open_result :=
  if reset m then (m, [], Outgoing.OpenFailed Err0RTTRejected)
  else
    let '(o, evs, r) := Outgoing.OpenStreamSync (new_outgoing StreamTypeBidi (perspective m)) (outgoingBidiStreams m) ctxErr in
    (set_out m StreamTypeBidi o, evs, open_error r StreamTypeBidi (perspective m)).

Definition OpenUniStream m : streamsMap * list (map_event T) * Outgoing.open_result :=
  if reset m then (m, [], Outgoing.OpenFailed Err0RTTRejected)
  else
    let '(o, evs, r) := Outgoing.OpenStream (new_outgoing StreamTypeUni (perspective m)) (outgoingUniStreams m) in
    (set_out m StreamTypeUni o, evs, open_error r StreamTypeBidi (perspective m)).

Definition OpenUniStreamSync m (ctxErr : option error) : streamsMap * list (map_event T) * Outgoing.open_result :=
  if reset m then (m, [], Outgoing.OpenFailed Err0RTTRejected)
  else
    let '(o, evs, r) := Outgoing.OpenStreamSync (new_outgoing StreamTypeUni (perspective m)) (outgoingUniStreams m) ctxErr in
    (set_out m StreamTypeUni o, evs, open_error r StreamTypeUni (perspective m)).

(** An error of a map with its stream numbers turned into stream IDs. *)
Definition converted {A} (r : result map_error A) (ty : StreamType) p : res A :=
  match r with Ok a => Ok a | Err e => Err (convertStreamError e ty p) | Panic => Panic end.

Definition AcceptStream m : res (streamsMap * list (map_event T) * Incoming.accept_result) :=
  if reset m then Err Err0RTTRejected
  else
    '(i, evs, r) ← converted (Incoming.AcceptStream (Incoming.drain (incomingBidiStreams m))) StreamTypeBidi (Opposite (perspective m));
    Ok (set_in m StreamTypeBidi i, evs, r).

Definition AcceptUniStream m : res (streamsMap * list (map_event T) * Incoming.accept_result) :=
  if reset m then Err Err0RTTRejected
  else
    '(i, evs, r) ← converted (Incoming.AcceptStream (Incoming.drain (incomingUniStreams m))) StreamTypeUni (Opposite (perspective m));
    Ok (set_in m StreamTypeUni i, evs, r).

Definition DeleteStream m id : res (streamsMap * list (map_event T)) :=
  let num := StreamID_StreamNum id in
  match StreamID_Type id with
  | StreamTypeUni =>
      if bool_decide (StreamID_InitiatedBy id = perspective m) then
        o ← converted (Outgoing.DeleteStream (outgoingUniStreams m) num) StreamTypeUni (perspective m);
        Ok (set_out m StreamTypeUni o, [])
      else
        '(i, evs) ← converted (Incoming.DeleteStream (incomingUniStreams m) num) StreamTypeUni (Opposite (perspective m));
        Ok (set_in m StreamTypeUni i, evs)
  | StreamTypeBidi =>
      if bool_decide (StreamID_InitiatedBy id = perspective m) then
        o ← converted (Outgoing.DeleteStream (outgoingBidiStreams m) num) StreamTypeBidi (perspective m);
        Ok (set_out m StreamTypeBidi o, [])
      else
        '(i, evs) ← converted (Incoming.DeleteStream (incomingBidiStreams m) num) StreamTypeBidi (Opposite (perspective m));
        Ok (set_in m StreamTypeBidi i, evs)
  end.

(** The branch for bidirectional streams is the same in both directions. *)
Definition getOrOpenBidi m id : res (streamsMap * option T) :=
  let num := StreamID_StreamNum id in
  if bool_decide (StreamID_InitiatedBy id = perspective m) then
    s ← converted (Outgoing.GetStream (outgoingBidiStreams m) num) StreamTypeBidi (StreamID_InitiatedBy id); Ok (m, s)
  else
    '(i, s) ← converted (Incoming.GetOrOpenStream (new_incoming StreamTypeBidi (perspective m)) (incomingBidiStreams m) num)
      StreamTypeBidi (StreamID_InitiatedBy id);
    Ok (set_in m StreamTypeBidi i, s).

Definition getOrOpenReceiveStream m id : res (streamsMap * option T) :=
  let num := StreamID_StreamNum id in
  match StreamID_Type id with
  | StreamTypeUni =>
      if bool_decide (StreamID_InitiatedBy id = perspective m)
      then Err (ErrorString "peer attempted to open receive stream %d" [id])
      else
        '(i, s) ← converted (Incoming.GetOrOpenStream (new_incoming StreamTypeUni (perspective m)) (incomingUniStreams m) num)
          StreamTypeUni (perspective m);
        Ok (set_in m StreamTypeUni i, s)
  | StreamTypeBidi => getOrOpenBidi m id
  end.

Definition getOrOpenSendStream m id : res (streamsMap * option T) :=
  let num := StreamID_StreamNum id in
  match StreamID_Type id with
  | StreamTypeUni =>
      if bool_decide (StreamID_InitiatedBy id = perspective m) then
        s ← converted (Outgoing.GetStream (outgoingUniStreams m) num) StreamTypeUni (perspective m); Ok (m, s)
      else Err (ErrorString "peer attempted to open send stream %d" [id])
  | StreamTypeBidi => getOrOpenBidi m id
  end.

Definition state_error {A} (r : res A) : res A :=
  match r with Err e => Err (TransportError StreamStateError 0 e) | _ => r end.

Definition GetOrOpenReceiveStream m id : res (streamsMap * option T) := state_error (getOrOpenReceiveStream m id).
Definition GetOrOpenSendStream m id : res (streamsMap * option T) := state_error (getOrOpenSendStream m id).

Definition HandleMaxStreamsFrame m (f : MaxStreamsFrame.t) : result map_error (streamsMap * list (map_event T)) :=
  match MaxStreamsFrame.Type_ f with
  | StreamTypeUni =>
      '(o, evs) ← Outgoing.SetMaxStream (outgoingUniStreams m) (MaxStreamsFrame.MaxStreamNum f); Ok (set_out m StreamTypeUni o, evs)
  | StreamTypeBidi =>
      '(o, evs) ← Outgoing.SetMaxStream (outgoingBidiStreams m) (MaxStreamsFrame.MaxStreamNum f); Ok (set_out m StreamTypeBidi o, evs)
  end.

(** With the four fields of the transport parameters that are used. *)
Definition UpdateLimits m (bidiRemote bidiNum uniData uniNum : Z) : result map_error (streamsMap * list (map_event T)) :=
  let evs1 := Outgoing.UpdateSendWindow (outgoingBidiStreams m) bidiRemote in
  '(o, evs2) ← Outgoing.SetMaxStream (outgoingBidiStreams m) bidiNum;
  let m := set_out m StreamTypeBidi o in
  let evs3 := Outgoing.UpdateSendWindow (outgoingUniStreams m) uniData in
  '(o, evs4) ← Outgoing.SetMaxStream (outgoingUniStreams m) uniNum;
  Ok (set_out m StreamTypeUni o, evs1 ++ evs2 ++ evs3 ++ evs4).

Definition CloseWithError m (err : error) : result map_error (streamsMap * list (map_event T)) :=
  '(o, evs1) ← Outgoing.CloseWithError (outgoingBidiStreams m) err; let m := set_out m StreamTypeBidi o in
  '(o, evs2) ← Outgoing.CloseWithError (outgoingUniStreams m) err; let m := set_out m StreamTypeUni o in
  '(i, evs3) ← Incoming.CloseWithError (incomingBidiStreams m) err; let m := set_in m StreamTypeBidi i in
  '(i, evs4) ← Incoming.CloseWithError (incomingUniStreams m) err; let m := set_in m StreamTypeUni i in
  Ok (m, evs1 ++ evs2 ++ evs3 ++ evs4).

(** The closed maps, and the events; then new maps take their places. *)
Definition ResetFor0RTT m : result map_error (streamsMap * streamsMap * list (map_event T)) :=
  '(closed, evs) ← CloseWithError (set_reset m true) Err0RTTRejected;
  Ok (closed, initMaps (perspective m) (maxIncomingBidiStreams m) (maxIncomingUniStreams m) true, evs).

Definition UseResetMaps m : streamsMap := set_reset m false.
End streams_map.
Arguments streamsMap T : clear implicits.

(** *** Frames reach the stream that they name *)
Section by_id.
Context {T : Type} (newStream newSendStream newReceiveStream : Z → T).
Implicit Types (m : streamsMap T) (id : Z) (ty : StreamType) (ds : StreamType → Perspective → gset Z).

Definition outgoing m ty := match ty with StreamTypeBidi => outgoingBidiStreams m | StreamTypeUni => outgoingUniStreams m end.
Definition incoming m ty := match ty with StreamTypeBidi => incomingBidiStreams m | StreamTypeUni => incomingUniStreams m end.

(** [ds] are the numbers of the streams that were deleted. *)
Definition good m ds : Prop :=
  (∀ ty, ∃ woken, Outgoing.inv (new_outgoing newStream newSendStream ty (perspective m)) (outgoing m ty) (ds ty (perspective m)) woken) ∧
  (∀ ty, Incoming.inv (new_incoming newStream newReceiveStream ty (perspective m)) (incoming m ty) (ds ty (Opposite (perspective m)))).

Definition mine m id : Prop := StreamID_InitiatedBy id = perspective m.
#[local] Instance mine_dec m id : Decision (mine m id) := decide_rel (=) _ _.
Definition deleted ds id : Prop := StreamID_StreamNum id ∈ ds (StreamID_Type id) (StreamID_InitiatedBy id).
#[local] Instance deleted_dec ds id : Decision (deleted ds id) := decide_rel (∈) _ _.

(** A frame may be for a stream that we opened, or that the peer may open. *)
Definition within m id : Prop :=
  if decide (mine m id) then StreamID_StreamNum id < Outgoing.nextStream (outgoing m (StreamID_Type id))
  else StreamID_StreamNum id ≤ Incoming.maxStream (incoming m (StreamID_Type id)).

Definition is_open m ds id : Prop :=
  ¬ deleted ds id ∧
  if decide (mine m id) then StreamID_StreamNum id < Outgoing.nextStream (outgoing m (StreamID_Type id))
  else StreamID_StreamNum id < Incoming.nextStreamToOpen (incoming m (StreamID_Type id)).

Definition stream_of m id : T :=
  match StreamID_Type id with
  | StreamTypeBidi => newStream id
  | StreamTypeUni => if decide (mine m id) then newSendStream id else newReceiveStream id
  end.

Definition delete_id ds id : StreamType → Perspective → gset Z := λ ty p,
  if decide (ty = StreamID_Type id ∧ p = StreamID_InitiatedBy id) then {[StreamID_StreamNum id]} ∪ ds ty p else ds ty p.

Lemma num_range id : 0 ≤ id < 2 ^ 62 → 1 ≤ StreamID_StreamNum id ≤ MaxStreamCount.
Proof.
  intros Hid. unfold StreamID_StreamNum, MaxStreamCount. rewrite Z.quot_div_nonneg, i64_small by dmlia. dmlia.
Qed.

Lemma id_of_num id : 0 ≤ id < 2 ^ 62 → StreamNum_StreamID (StreamID_StreamNum id) (StreamID_Type id) (StreamID_InitiatedBy id) = id.
Proof.
  intros Hid. rewrite StreamNum_StreamID_eq by (by apply num_range). by rewrite <-StreamID_parts.
Qed.

Lemma not_mine m id : ¬ mine m id → StreamID_InitiatedBy id = Opposite (perspective m).
Proof. unfold mine. by destruct (StreamID_InitiatedBy id), (perspective m). Qed.

Lemma new_outgoing_of m id :
  0 ≤ id < 2 ^ 62 → mine m id →
  new_outgoing newStream newSendStream (StreamID_Type id) (perspective m) (StreamID_StreamNum id) = stream_of m id.
Proof.
  intros Hid Hm. unfold stream_of. rewrite decide_True by done. pose proof (id_of_num id Hid) as H. rewrite Hm in H.
  unfold new_outgoing. by destruct (StreamID_Type id); rewrite H.
Qed.

Lemma new_incoming_of m id :
  0 ≤ id < 2 ^ 62 → ¬ mine m id →
  new_incoming newStream newReceiveStream (StreamID_Type id) (perspective m) (StreamID_StreamNum id) = stream_of m id.
Proof.
  intros Hid Hm. unfold stream_of. rewrite decide_False by done. pose proof (id_of_num id Hid) as H.
  rewrite (not_mine _ _ Hm) in H. unfold new_incoming. by destruct (StreamID_Type id); rewrite H.
Qed.

(** What a frame for [id] gets from the map of its streams. *)
Definition gets m ds id (r : res (streamsMap T * option T)) : Prop :=
  match r with
  | Ok (m', s) => within m id ∧ good m' ds ∧ perspective m' = perspective m ∧
      s = if decide (deleted ds id) then None else Some (stream_of m id)
  | Err _ => ¬ within m id
  | Panic => False
  end.

Lemma get_outgoing m ds id p :
  good m ds → 0 ≤ id < 2 ^ 62 → mine m id →
  gets m ds id (s ← converted (Outgoing.GetStream (outgoing m (StreamID_Type id)) (StreamID_StreamNum id)) (StreamID_Type id) p; Ok (m, s)).
Proof.
  intros Hg Hid Hm. destruct (proj1 Hg (StreamID_Type id)) as [wk Hi]. rewrite (Outgoing.GetStream_spec _ _ _ _ _ Hi).
  pose proof (num_range id Hid). zcase; cbn; unfold within; rewrite decide_True by done; [lia|]. split_and!; try done.
  rewrite (new_outgoing_of m id Hid Hm). destruct (decide (deleted ds id)) as [Hd|Hd]; unfold deleted in Hd; rewrite Hm in Hd.
  - by rewrite bool_decide_eq_false_2 by naive_solver.
  - rewrite bool_decide_eq_true_2; [done|]. split; [lia|done].
Qed.

Lemma set_in_good m ds ds' ty i :
  good m ds → Incoming.inv (new_incoming newStream newReceiveStream ty (perspective m)) i (ds' ty (Opposite (perspective m))) →
  (∀ ty', ty' ≠ ty → ds' ty' (Opposite (perspective m)) = ds ty' (Opposite (perspective m))) →
  (∀ ty', ds' ty' (perspective m) = ds ty' (perspective m)) → good (set_in m ty i) ds'.
Proof.
  intros [Ho Hi] H E E'. destruct ty; (split; [intros ty'; specialize (Ho ty'); rewrite <-E' in Ho; by destruct ty'|intros []; simpl in *; try done]).
  all: rewrite E by done; first [exact (Hi StreamTypeBidi)|exact (Hi StreamTypeUni)].
Qed.

Lemma set_out_good m ds ds' ty o woken :
  good m ds → Outgoing.inv (new_outgoing newStream newSendStream ty (perspective m)) o (ds' ty (perspective m)) woken →
  (∀ ty', ty' ≠ ty → ds' ty' (perspective m) = ds ty' (perspective m)) →
  (∀ ty', ds' ty' (Opposite (perspective m)) = ds ty' (Opposite (perspective m))) → good (set_out m ty o) ds'.
Proof.
  intros [Ho Hi] H E E'. destruct ty; (split; [intros []; simpl in *; try by eexists|intros ty'; specialize (Hi ty'); rewrite <-E' in Hi; by destruct ty']).
  all: rewrite E by done; first [exact (Ho StreamTypeBidi)|exact (Ho StreamTypeUni)].
Qed.

Lemma get_incoming m ds id p :
  good m ds → 0 ≤ id < 2 ^ 62 → ¬ mine m id →
  gets m ds id ('(i, s) ← converted (Incoming.GetOrOpenStream (new_incoming newStream newReceiveStream (StreamID_Type id) (perspective m))
    (incoming m (StreamID_Type id)) (StreamID_StreamNum id)) (StreamID_Type id) p; Ok (set_in m (StreamID_Type id) i, s)).
Proof.
  intros Hg Hid Hm. pose proof (proj2 Hg (StreamID_Type id)) as Hi. pose proof (num_range id Hid).
  destruct (Z.le_gt_cases (StreamID_StreamNum id) (Incoming.maxStream (incoming m (StreamID_Type id)))) as [Hle|Hgt].
  - destruct (Incoming.GetOrOpenStream_spec _ _ _ (StreamID_StreamNum id) Hi ltac:(lia)) as (i & -> & Hi' & _).
    cbn. unfold within. rewrite decide_False by done. split_and!; [done|by apply (set_in_good _ ds)|by destruct (StreamID_Type id)|].
    rewrite (new_incoming_of m id Hid Hm). destruct (decide (deleted ds id)) as [Hd|Hd];
      unfold deleted in Hd; rewrite (not_mine _ _ Hm) in Hd; case_bool_decide; done.
  - unfold Incoming.GetOrOpenStream. rewrite (proj2 (Z.ltb_lt _ _)) by done. cbn. unfold within. rewrite decide_False by done. lia.
Qed.

(** A stream of the wrong direction. *)
Definition wrong_direction m id (receive : bool) : Prop :=
  StreamID_Type id = StreamTypeUni ∧ (if receive then mine m id else ¬ mine m id).

Definition gets_or_error m ds id (receive : bool) (r : res (streamsMap T * option T)) : Prop :=
  match r with
  | Ok (m', s) => ¬ wrong_direction m id receive ∧ gets m ds id (Ok (m', s))
  | Err e => (wrong_direction m id receive ∨ ¬ within m id) ∧ ∃ e', e = TransportError StreamStateError 0 e'
  | Panic => False
  end.

Lemma gets_state_error m ds id receive r :
  ¬ wrong_direction m id receive → gets m ds id r → gets_or_error m ds id receive (state_error r).
Proof. intros Hw Hr. destruct r as [[m' s]|e|]; [done| |done]. split; [by right|by eexists]. Qed.

Lemma get_bidi m ds id :
  good m ds → 0 ≤ id < 2 ^ 62 → StreamID_Type id = StreamTypeBidi → gets m ds id (getOrOpenBidi newStream newReceiveStream m id).
Proof.
  intros Hg Hid Hty. unfold getOrOpenBidi. case_bool_decide as Hm.
  - pose proof (get_outgoing m ds id (StreamID_InitiatedBy id) Hg Hid Hm) as H. by rewrite Hty in H.
  - pose proof (get_incoming m ds id (StreamID_InitiatedBy id) Hg Hid Hm) as H. by rewrite Hty in H.
Qed.

Lemma get_receive m ds id :
  good m ds → 0 ≤ id < 2 ^ 62 → gets_or_error m ds id true (GetOrOpenReceiveStream newStream newReceiveStream m id).
Proof.
  intros Hg Hid. unfold GetOrOpenReceiveStream, getOrOpenReceiveStream. destruct (StreamID_Type id) eqn:Hty.
  - case_bool_decide as Hm; [split; [by left|by eexists]|]. apply gets_state_error; [by intros [_ ?]|].
    pose proof (get_incoming m ds id (perspective m) Hg Hid Hm) as H. by rewrite Hty in H.
  - apply gets_state_error; [|by apply get_bidi]. intros [? _]. congruence.
Qed.

Lemma get_send m ds id :
  good m ds → 0 ≤ id < 2 ^ 62 → gets_or_error m ds id false (GetOrOpenSendStream newStream newReceiveStream m id).
Proof.
  intros Hg Hid. unfold GetOrOpenSendStream, getOrOpenSendStream. destruct (StreamID_Type id) eqn:Hty.
  - case_bool_decide as Hm; [|split; [by left|by eexists]]. apply gets_state_error; [by intros [_ ?]|].
    pose proof (get_outgoing m ds id (perspective m) Hg Hid Hm) as H. by rewrite Hty in H.
  - apply gets_state_error; [|by apply get_bidi]. intros [? _]. congruence.
Qed.

Definition deletes m ds id (r : res (streamsMap T * list (map_event T))) : Prop :=
  match r with
  | Ok (m', _) => is_open m ds id ∧ good m' (delete_id ds id) ∧ perspective m' = perspective m
  | Err _ => ¬ is_open m ds id
  | Panic => False
  end.

Lemma delete_id_other ds id ty p : ¬ (ty = StreamID_Type id ∧ p = StreamID_InitiatedBy id) → delete_id ds id ty p = ds ty p.
Proof. intros. unfold delete_id. by rewrite decide_False. Qed.

Lemma delete_id_eq ds id : delete_id ds id (StreamID_Type id) (StreamID_InitiatedBy id) =
  {[StreamID_StreamNum id]} ∪ ds (StreamID_Type id) (StreamID_InitiatedBy id).
Proof. unfold delete_id. by rewrite decide_True. Qed.

Lemma Opposite_ne p : Opposite p ≠ p.
Proof. by destruct p. Qed.

Lemma delete_outgoing m ds id p :
  good m ds → 0 ≤ id < 2 ^ 62 → mine m id →
  deletes m ds id (o ← converted (Outgoing.DeleteStream (outgoing m (StreamID_Type id)) (StreamID_StreamNum id)) (StreamID_Type id) p;
    Ok (set_out m (StreamID_Type id) o, [])).
Proof.
  intros Hg Hid Hm. destruct (proj1 Hg (StreamID_Type id)) as [wk Hi]. pose proof (num_range id Hid).
  pose proof (Outgoing.out_delete_iff _ _ _ _ (StreamID_StreamNum id) Hi) as Hiff.
  assert (is_open m ds id ↔ ∃ o, Outgoing.DeleteStream (outgoing m (StreamID_Type id)) (StreamID_StreamNum id) = Ok o) as Hopen.
  { rewrite Hiff. unfold is_open, deleted. rewrite decide_True, Hm by done. naive_solver lia. }
  destruct (Outgoing.DeleteStream _ _) as [o|e|] eqn:E; cbn.
  - split; [by apply Hopen; eexists|]. split; [|by destruct (StreamID_Type id)].
    apply (set_out_good m ds _ _ _ wk Hg); [|intros ty' ?|intros ty']; [|rewrite delete_id_other; naive_solver|].
    + rewrite <-Hm at 2. rewrite delete_id_eq, Hm. by eapply Outgoing.out_delete_inv.
    + rewrite delete_id_other; [done|]. intros [_ H']. rewrite Hm in H'. by apply Opposite_ne in H'.
  - rewrite Hopen. by intros [o ?].
  - unfold Outgoing.DeleteStream in E. by destruct (_ !! StreamID_StreamNum id).
Qed.

Lemma delete_incoming m ds id p :
  good m ds → 0 ≤ id < 2 ^ 62 → ¬ mine m id →
  deletes m ds id ('(i, evs) ← converted (Incoming.DeleteStream (incoming m (StreamID_Type id)) (StreamID_StreamNum id)) (StreamID_Type id) p;
    Ok (set_in m (StreamID_Type id) i, evs)).
Proof.
  intros Hg Hid Hm. pose proof (proj2 Hg (StreamID_Type id)) as Hi. pose proof (num_range id Hid). pose proof (not_mine _ _ Hm) as Hp.
  assert (is_open m ds id ↔ 1 ≤ StreamID_StreamNum id < Incoming.nextStreamToOpen (incoming m (StreamID_Type id)) ∧
    StreamID_StreamNum id ∉ ds (StreamID_Type id) (Opposite (perspective m))) as Hopen.
  { unfold is_open, deleted. rewrite decide_False, Hp by done. naive_solver lia. }
  destruct (decide (1 ≤ StreamID_StreamNum id < Incoming.nextStreamToOpen (incoming m (StreamID_Type id)) ∧
    StreamID_StreamNum id ∉ ds (StreamID_Type id) (Opposite (perspective m)))) as [[Hr Hd]|Ho].
  - assert (is_open m ds id) as Hop by (by apply Hopen).
    destruct (Incoming.deleteStream_spec _ _ _ _ Hi Hr Hd) as (i & evs & -> & Hi' & _). cbn.
    split; [done|]. split; [|by destruct (StreamID_Type id)].
    apply (set_in_good m ds _ _ _ Hg); [|intros ty' ?|intros ty'].
    + rewrite <-Hp, delete_id_eq, Hp. done.
    + rewrite delete_id_other; naive_solver.
    + rewrite delete_id_other; [done|]. intros [_ H']. rewrite Hp in H'. by apply eq_sym, Opposite_ne in H'.
  - rewrite (Incoming.deleteStream_err _ _ _ _ Hi Ho). cbn. by rewrite Hopen.
Qed.

Lemma delete_spec m ds id : good m ds → 0 ≤ id < 2 ^ 62 → deletes m ds id (DeleteStream m id).
Proof.
  intros Hg Hid. unfold DeleteStream. destruct (StreamID_Type id) eqn:Hty; case_bool_decide as Hm.
  - pose proof (delete_outgoing m ds id (perspective m) Hg Hid Hm) as H. by rewrite Hty in H.
  - pose proof (delete_incoming m ds id (Opposite (perspective m)) Hg Hid Hm) as H. by rewrite Hty in H.
  - pose proof (delete_outgoing m ds id (perspective m) Hg Hid Hm) as H. by rewrite Hty in H.
  - pose proof (delete_incoming m ds id (Opposite (perspective m)) Hg Hid Hm) as H. by rewrite Hty in H.
Qed.

(** C16: frames reach the stream that they name.  A valid stream ID is dispatched to one of
    the four maps; the stream that comes out was created with that ID and has the right
    kind, or there is none because it was deleted; an ID of the wrong direction, a stream
    of ours that was not opened and one beyond the peer's limit are STREAM_STATE_ERRORs;
    deleting by ID succeeds exactly for a stream that is open.  The invariants of all maps
    are kept. *)
Theorem streams_by_id m ds id :
  good m ds → 0 ≤ id < 2 ^ 62 →
  gets_or_error m ds id true (GetOrOpenReceiveStream newStream newReceiveStream m id) ∧
  gets_or_error m ds id false (GetOrOpenSendStream newStream newReceiveStream m id) ∧
  deletes m ds id (DeleteStream m id).
Proof. intros Hg Hid. split_and!; [by apply get_receive|by apply get_send|by apply delete_spec]. Qed.

Lemma new_good maxBidi maxUni p rst :
  0 ≤ maxBidi ≤ MaxStreamCount → 0 ≤ maxUni ≤ MaxStreamCount → good (initMaps p maxBidi maxUni rst) (λ _ _, ∅).
Proof.
  intros Hb Hu. split; intros []; simpl; try (exists ∅; apply Outgoing.out_new_inv); by apply Incoming.new_inv.
Qed.

Lemma in_close (f : Z → T) i del err :
  Incoming.inv f i del → ∃ i' evs, Incoming.CloseWithError i err = Ok (i', evs) ∧
    Incoming.AcceptStream i' = Err (otherError err).
Proof. intros [_ _ _ _ _ _ _ [Hc _]]. unfold Incoming.CloseWithError. rewrite Hc. by eexists _, _. Qed.
End by_id.

Section reset.
Context {T : Type} (newStream newSendStream newReceiveStream : Z → T).

(** If 0-RTT is rejected the maps are closed without a panic, so that the calls that wait
    return; new calls get the error until [UseResetMaps]; and the new maps are usable. *)
Lemma reset_for_0rtt (m : streamsMap T) ds :
  good newStream newSendStream newReceiveStream m ds →
  0 ≤ maxIncomingBidiStreams m ≤ MaxStreamCount → 0 ≤ maxIncomingUniStreams m ≤ MaxStreamCount →
  ∃ closed m' evs, ResetFor0RTT m = Ok (closed, m', evs) ∧
    good newStream newSendStream newReceiveStream m' (λ _ _, ∅) ∧
    (∀ ty pos, Outgoing.waits (outgoing m ty) pos → Outgoing.openQueue (outgoing closed ty) !! pos = Some Outgoing.ChanClosed ∧
      Outgoing.closeErr (outgoing closed ty) = Some Err0RTTRejected) ∧
    (∀ ctxErr, (OpenStreamSync newStream newSendStream m' ctxErr).2 = Outgoing.OpenFailed Err0RTTRejected) ∧
    AcceptStream m' = Err Err0RTTRejected ∧
    good newStream newSendStream newReceiveStream (UseResetMaps m') (λ _ _, ∅).
Proof.
  intros [Ho Hi] Hb Hu. unfold ResetFor0RTT, CloseWithError.
  destruct (Ho StreamTypeBidi) as [w1 H1], (Ho StreamTypeUni) as [w2 H2].
  destruct (Outgoing.out_close_wakes _ _ _ _ Err0RTTRejected H1) as (o1 & e1 & E1 & W1 & _).
  destruct (Outgoing.out_close_wakes _ _ _ _ Err0RTTRejected H2) as (o2 & e2 & E2 & W2 & _).
  destruct (in_close _ _ _ Err0RTTRejected (Hi StreamTypeBidi)) as (i1 & e3 & E3 & _).
  destruct (in_close _ _ _ Err0RTTRejected (Hi StreamTypeUni)) as (i2 & e4 & E4 & _).
  simpl in *. rewrite E1. simpl. rewrite E2. simpl. rewrite E3. simpl. rewrite E4. simpl.
  eexists _, _, _. split; [done|]. split; [by apply new_good|]. split_and!; try done; [|by apply new_good].
  assert (∀ o o' (e : list (map_event T)), Outgoing.CloseWithError o Err0RTTRejected = Ok (o', e) → Outgoing.closeErr o' = Some Err0RTTRejected) as Hce.
  { intros o o' e. unfold Outgoing.CloseWithError. by case_bool_decide; intros [= <- _]. }
  intros [] pos Hpos; simpl in *; [apply W2 in Hpos as [? _]|apply W1 in Hpos as [? _]]; eauto.
Qed.
End reset.

Lemma streams_by_id_witness :
  let m := newStreamsMap (T:=Z * Z) 10 10 PerspectiveServer in
  let d := λ (_ : StreamType) (_ : Perspective), (∅ : gset Z) in
  gets_or_error (λ id, (0, id)) (λ id, (1, id)) (λ id, (2, id)) m d 14 true
    (GetOrOpenReceiveStream (λ id, (0, id)) (λ id, (2, id)) m 14) ∧
  (snd <$> GetOrOpenReceiveStream (λ id, (0, id)) (λ id, (2, id)) m 14) = Ok (Some (2, 14)).
Proof.
  cbv zeta. split; [|vm_compute; reflexivity].
  destruct (streams_by_id (λ id, (0, id)) (λ id, (1, id)) (λ id, (2, id)) (newStreamsMap 10 10 PerspectiveServer) (λ _ _, ∅) 14)
    as [H _]; [apply new_good; unfold MaxStreamCount; lia|lia|exact H].
Defined.

(** The error for a unidirectional stream beyond the limit names the wrong stream: it is
    converted with our own perspective.  Here the client uses stream 14, and the error of
    the server is about stream 15. *)
Lemma uni_limit_error_wrong_id :
  GetOrOpenReceiveStream (λ id, id) (λ id, id) (newStreamsMap 10 3 PerspectiveServer) 14 =
  Err (TransportError StreamStateError 0 (ErrorString "peer tried to open stream %d (current limit: %d)" [15; 11])).
Proof. by vm_compute. Qed.
