(* ===== verification/CryptoStreams.v ===== *)
(** * Handshake data (crypto_stream.go, crypto_stream_manager.go, retransmission_queue.go)

    The crypto streams carry the handshake messages of the three encryption levels in
    CRYPTO frames.  Frames that are lost, except STREAM frames, go to the retransmission
    queue, which splits CRYPTO frames if they do not fit.  Handling a frame returns the
    stream also with an error, since the highest offset is updated before. *)

From S2P Require Import Prelude Varint Protocol Wire ControlFrames DataFrames FrameParser FrameSorter.

Definition CryptoBufferExceeded : Z := 13.
Definition ProtocolViolation : Z := 10.

(** ** A crypto stream *)
Module CryptoStream.
Record cryptoStream := mk {
  queue : frameSorter;
  highestOffset : Z;
  finished : bool;
  writeOffset : Z;
  writeBuf : list byte;
}.
Implicit Types (s : cryptoStream) (f : CryptoFrame.t).

Definition newCryptoStream : cryptoStream := mk newFrameSorter 0 false 0 [].

Definition HandleCryptoFrame s f : res (cryptoStream * option error) :=
  let highest := i64 (CryptoFrame.Offset f + len (CryptoFrame.Data f)) in
  if MaxCryptoStreamOffset <? highest then
    Ok (s, Some (TransportError CryptoBufferExceeded 0
      (ErrorString "received invalid offset %d on crypto stream, maximum allowed %d" [highest; MaxCryptoStreamOffset])))
  else if finished s then
    if highestOffset s <? highest then
      Ok (s, Some (TransportError ProtocolViolation 0
        (ErrorString "received crypto data after change of encryption level" [])))
    else Ok (s, None)
  else
    '(q, _, err) ← Push (queue s) (CryptoFrame.Data f) (CryptoFrame.Offset f) None;
    Ok (mk q (Z.max (highestOffset s) highest) (finished s) (writeOffset s) (writeBuf s), err).

Definition GetCryptoData s : res (cryptoStream * option (list byte)) :=
  '(q, _, data, _) ← Pop (queue s);
  Ok (mk q (highestOffset s) (finished s) (writeOffset s) (writeBuf s), data).

Definition Finish s : cryptoStream * option error :=
  if HasMoreData (queue s) then
    (s, Some (TransportError ProtocolViolation 0
      (ErrorString "encryption level changed, but crypto stream has more data to read" [])))
  else (mk (queue s) (highestOffset s) true (writeOffset s) (writeBuf s), None).

Definition Write s (p : list byte) : cryptoStream :=
  mk (queue s) (highestOffset s) (finished s) (writeOffset s) (writeBuf s ++ p).

Definition HasData s : bool := 0 <? len (writeBuf s).

Definition PopCryptoFrame s (maxLen : Z) : res (cryptoStream * CryptoFrame.t) :=
  m ← CryptoFrame.MaxDataLen (CryptoFrame.mk (writeOffset s) []) maxLen;
  let n := Z.min m (len (writeBuf s)) in
  data ← slice_to (writeBuf s) n;
  rest ← slice_from (writeBuf s) n;
  Ok (mk (queue s) (highestOffset s) (finished s) (writeOffset s + n) rest, CryptoFrame.mk (writeOffset s) data).
End CryptoStream.
Import CryptoStream (cryptoStream, newCryptoStream).

(** ** The streams of a connection *)
Record cryptoStreamManager := mkManager {
  initialStream : cryptoStream;
  handshakeStream : cryptoStream;
  oneRTTStream : cryptoStream;
}.
Implicit Types (m : cryptoStreamManager) (encLevel : EncryptionLevel).

Definition newCryptoStreamManager := mkManager.

Definition HandleCryptoFrame m (frame : CryptoFrame.t) encLevel : res (cryptoStreamManager * option error) :=
  match encLevel with
  | EncryptionInitial =>
      '(s, e) ← CryptoStream.HandleCryptoFrame (initialStream m) frame; Ok (mkManager s (handshakeStream m) (oneRTTStream m), e)
  | EncryptionHandshake =>
      '(s, e) ← CryptoStream.HandleCryptoFrame (handshakeStream m) frame; Ok (mkManager (initialStream m) s (oneRTTStream m), e)
  | Encryption1RTT =>
      '(s, e) ← CryptoStream.HandleCryptoFrame (oneRTTStream m) frame; Ok (mkManager (initialStream m) (handshakeStream m) s, e)
  | Encryption0RTT => Ok (m, Some (ErrorString "received CRYPTO frame with unexpected encryption level: %s" []))
  end.

Definition GetCryptoData m encLevel : res (cryptoStreamManager * option (list byte)) :=
  match encLevel with
  | EncryptionInitial =>
      '(s, d) ← CryptoStream.GetCryptoData (initialStream m); Ok (mkManager s (handshakeStream m) (oneRTTStream m), d)
  | EncryptionHandshake =>
      '(s, d) ← CryptoStream.GetCryptoData (handshakeStream m); Ok (mkManager (initialStream m) s (oneRTTStream m), d)
  | Encryption1RTT =>
      '(s, d) ← CryptoStream.GetCryptoData (oneRTTStream m); Ok (mkManager (initialStream m) (handshakeStream m) s, d)
  | Encryption0RTT => Panic
  end.

Definition GetPostHandshakeData m (maxSize : Z) : res (cryptoStreamManager * option CryptoFrame.t) :=
  if negb (CryptoStream.HasData (oneRTTStream m)) then Ok (m, None)
  else
    '(s, f) ← CryptoStream.PopCryptoFrame (oneRTTStream m) maxSize;
    Ok (mkManager (initialStream m) (handshakeStream m) s, Some f).

Definition Drop m encLevel : res (cryptoStreamManager * option error) :=
  match encLevel with
  | EncryptionInitial =>
      let '(s, e) := CryptoStream.Finish (initialStream m) in Ok (mkManager s (handshakeStream m) (oneRTTStream m), e)
  | EncryptionHandshake =>
      let '(s, e) := CryptoStream.Finish (handshakeStream m) in Ok (mkManager (initialStream m) s (oneRTTStream m), e)
  | _ => Panic
  end.

(** ** The retransmission queue *)
Record retransmissionQueue := mkQueue {
  initial : list frame;
  initialCryptoData : list CryptoFrame.t;
  handshake : list frame;
  handshakeCryptoData : list CryptoFrame.t;
  appData : list frame;
}.
Implicit Types (q : retransmissionQueue) (f : frame).

Definition newRetransmissionQueue : retransmissionQueue := mkQueue [] [] [] [] [].

Definition set_initial q (fs : list frame) (cs : list CryptoFrame.t) : retransmissionQueue :=
  mkQueue fs cs (handshake q) (handshakeCryptoData q) (appData q).
Definition set_handshake q (fs : list frame) (cs : list CryptoFrame.t) : retransmissionQueue :=
  mkQueue (initial q) (initialCryptoData q) fs cs (appData q).
Definition set_appData q (fs : list frame) : retransmissionQueue :=
  mkQueue (initial q) (initialCryptoData q) (handshake q) (handshakeCryptoData q) fs.

Definition addInitial q f : retransmissionQueue :=
  match f with
  | FCrypto cf => set_initial q (initial q) (initialCryptoData q ++ [cf])
  | _ => set_initial q (initial q ++ [f]) (initialCryptoData q)
  end.

Definition addHandshake q f : retransmissionQueue :=
  match f with
  | FCrypto cf => set_handshake q (handshake q) (handshakeCryptoData q ++ [cf])
  | _ => set_handshake q (handshake q ++ [f]) (handshakeCryptoData q)
  end.

Definition addAppData q f : res retransmissionQueue :=
  match f with
  | FStream _ => Panic
  | _ => Ok (set_appData q (appData q ++ [f]))
  end.

Definition AddPing q encLevel : res retransmissionQueue :=
  match encLevel with
  | EncryptionInitial => Ok (addInitial q (FPing PingFrame.mk))
  | EncryptionHandshake => Ok (addHandshake q (FPing PingFrame.mk))
  | Encryption1RTT => addAppData q (FPing PingFrame.mk)
  | Encryption0RTT => Panic
  end.

Definition HasInitialData q : bool := (0 <? len (initialCryptoData q)) || (0 <? len (initial q)).
Definition HasHandshakeData q : bool := (0 <? len (handshakeCryptoData q)) || (0 <? len (handshake q)).
Definition HasAppData q : bool := 0 <? len (appData q).

(** The first frame of a queue, if it fits. *)
Definition popFitting (fs : list frame) (maxLen : Z) : res (list frame * option frame) :=
  match fs with
  | [] => Ok (fs, None)
  | f :: rest => l ← frame_length f; if maxLen <? l then Ok (fs, None) else Ok (rest, Some f)
  end.

(** CRYPTO frames first: as a whole, or the part of the first one that fits. *)
Definition popCryptoOr (fs : list frame) (cs : list CryptoFrame.t) (maxLen : Z)
  : res (list frame * list CryptoFrame.t * option frame) :=
  match cs with
  | [] => '(fs, r) ← popFitting fs maxLen; Ok (fs, cs, r)
  | c :: rest =>
      '(newFrame, needsSplit, c') ← CryptoFrame.MaybeSplitOffFrame c maxLen;
      match newFrame, needsSplit with
      | None, false => Ok (fs, rest, Some (FCrypto c'))
      | Some g, _ => Ok (fs, c' :: rest, Some (FCrypto g))
      | None, true => '(fs, r) ← popFitting fs maxLen; Ok (fs, c' :: rest, r)
      end
  end.

Definition GetInitialFrame q (maxLen : Z) : res (retransmissionQueue * option frame) :=
  '(fs, cs, r) ← popCryptoOr (initial q) (initialCryptoData q) maxLen; Ok (set_initial q fs cs, r).

Definition GetHandshakeFrame q (maxLen : Z) : res (retransmissionQueue * option frame) :=
  '(fs, cs, r) ← popCryptoOr (handshake q) (handshakeCryptoData q) maxLen; Ok (set_handshake q fs cs, r).

Definition GetAppDataFrame q (maxLen : Z) : res (retransmissionQueue * option frame) :=
  '(fs, r) ← popFitting (appData q) maxLen; Ok (set_appData q fs, r).

Definition DropPackets q encLevel : res retransmissionQueue :=
  match encLevel with
  | EncryptionInitial => Ok (set_initial q [] [])
  | EncryptionHandshake => Ok (set_handshake q [] [])
  | _ => Panic
  end.

(** The handlers of the three packet number spaces; acknowledgements change nothing. *)
Definition InitialAckHandler_OnLost q f : retransmissionQueue := addInitial q f.
Definition HandshakeAckHandler_OnLost q f : retransmissionQueue := addHandshake q f.
Definition AppDataAckHandler_OnLost q f : res retransmissionQueue := addAppData q f.

(** ** Specifications *)
Lemma Forall_extend {A} (P : A → Prop) l x : Forall P l → P x → Forall P (l ++ [x]).
Proof. intros. apply Forall_app. split; [done|by apply Forall_singleton]. Qed.

Definition piece (w : list byte) (c : CryptoFrame.t) : Prop :=
  0 ≤ CryptoFrame.Offset c ∧ 0 < len (CryptoFrame.Data c) ∧
  CryptoFrame.Data c = take (Z.to_nat (len (CryptoFrame.Data c))) (drop (Z.to_nat (CryptoFrame.Offset c)) w).

Definition covers (c : CryptoFrame.t) (x : Z) : Prop :=
  CryptoFrame.Offset c ≤ x < CryptoFrame.Offset c + len (CryptoFrame.Data c).

Lemma piece_bound w c : piece w c → CryptoFrame.Offset c + len (CryptoFrame.Data c) ≤ len w.
Proof.
  intros (? & ? & Hd). apply (f_equal len) in Hd. unfold len in *. rewrite length_take, length_drop in Hd. lia.
Qed.

Lemma piece_app w p c : piece w c → piece (w ++ p) c.
Proof.
  intros Hc. pose proof (piece_bound _ _ Hc) as Hb. destruct Hc as (? & ? & Hd). split; [done|]. split; [done|].
  rewrite drop_app_le, take_app_le; [done|rewrite length_drop|]; unfold len in *; lia.
Qed.

Lemma piece_at w c i b : piece w c → CryptoFrame.Data c !! i = Some b → w !! Z.to_nat (CryptoFrame.Offset c + Z.of_nat i) = Some b.
Proof.
  intros (? & ? & Hd) Hi. rewrite Hd in Hi. apply lookup_take_Some in Hi as [Hi _]. rewrite lookup_drop in Hi.
  rewrite <-Hi. f_equal. lia.
Qed.

Lemma piece_valid w c : len w ≤ MaxCryptoStreamOffset → piece w c → CryptoFrame.valid c.
Proof.
  intros Hw Hc. pose proof (piece_bound _ _ Hc). destruct Hc as (? & ? & _).
  unfold CryptoFrame.valid, is_varint, maxVarInt8, MaxCryptoStreamOffset in *. lia.
Qed.

(** The parts of a piece are pieces. *)
Lemma piece_split w c g c' :
  piece w c → CryptoFrame.Data c = CryptoFrame.Data g ++ CryptoFrame.Data c' →
  0 < len (CryptoFrame.Data g) → 0 < len (CryptoFrame.Data c') →
  CryptoFrame.Offset g = CryptoFrame.Offset c → CryptoFrame.Offset c' = CryptoFrame.Offset c + len (CryptoFrame.Data g) →
  piece w g ∧ piece w c' ∧ ∀ x, covers c x ↔ covers g x ∨ covers c' x.
Proof.
  intros (Ho & _ & Hd) Happ Hg Hc' Eg Ec'. rewrite Happ, len_app in Hd. unfold piece, covers. rewrite Eg, Ec', Happ, len_app.
  set (dg := CryptoFrame.Data g) in *. set (dc := CryptoFrame.Data c') in *. set (o := CryptoFrame.Offset c) in *.
  unfold len in *. rewrite Z2Nat.inj_add, <-take_take_drop in Hd by lia.
  apply app_inj_1 in Hd as [Hdg Hdc]; [|apply (f_equal length) in Hd; rewrite !length_app, !length_take, !length_drop in *; lia].
  split_and!; try lia; try done.
  rewrite Z2Nat.inj_add, <-drop_drop by lia. done.
Qed.

Lemma popCryptoOr_spec w fs cs maxLen :
  len w ≤ MaxCryptoStreamOffset → maxLen ≤ 16384 → Forall (piece w) cs → Forall (λ f, f = FPing PingFrame.mk) fs →
  ∃ fs' cs' r, popCryptoOr fs cs maxLen = Ok (fs', cs', r) ∧ Forall (λ f, f = FPing PingFrame.mk) fs' ∧ Forall (piece w) cs' ∧
    match r with
    | Some (FCrypto g) => piece w g ∧ len (CryptoFrame.bytes g) ≤ maxLen ∧
        (∀ x, Exists (λ c, covers c x) cs ↔ covers g x ∨ Exists (λ c, covers c x) cs')
    | _ => cs' = cs
    end.
Proof.
  intros Hw Hmax Hcs Hfs.
  assert (∃ fs' r, popFitting fs maxLen = Ok (fs', r) ∧ Forall (λ f, f = FPing PingFrame.mk) fs' ∧ (r = None ∨ r = Some (FPing PingFrame.mk))) as (fs' & r & Hpop & Hfs' & Hr).
  { destruct Hfs as [|f fs -> Hfs]; [by eexists _, _; split; [done|]; auto|]. cbn. zcase; eexists _, _; (split; [done|]); auto. }
  destruct Hcs as [|c cs Hc Hcs]; simpl.
  { rewrite Hpop. exists fs', [], r. split; [done|]. split; [done|]. split; [done|]. by destruct Hr as [->| ->]. }
  destruct (CryptoFrame.crypto_split c maxLen) as ([[o needs] c'] & -> & Hspec); [by eapply piece_valid| |done|].
  { pose proof (piece_bound _ _ Hc). unfold MaxByteCount, MaxCryptoStreamOffset in *. lia. }
  cbn. destruct o as [g|].
  - destruct Hspec as (-> & _ & _ & Hfit & Hg & Hc' & _ & Hd & Eg & Ec').
    destruct (piece_split w c g c') as (Pg & Pc' & Hcov); try done.
    eexists _, _, _. split; [done|]. split; [done|]. split; [by constructor|]. split; [done|]. split; [done|].
    intros x. rewrite !Exists_cons, Hcov. tauto.
  - destruct needs.
    + destruct Hspec as (-> & _). rewrite Hpop. cbn. eexists _, _, _. split; [done|]. split; [done|]. split; [by constructor|].
      by destruct Hr as [->| ->].
    + destruct Hspec as (-> & Hfit). eexists _, _, _. split; [done|]. split; [done|]. split; [done|]. split; [done|].
      split; [done|]. intros x. by rewrite Exists_cons.
Qed.

Lemma PopCryptoFrame_spec s w maxLen :
  0 ≤ CryptoStream.writeOffset s ≤ len w → CryptoStream.writeBuf s = drop (Z.to_nat (CryptoStream.writeOffset s)) w →
  len w ≤ MaxCryptoStreamOffset → 11 ≤ maxLen ≤ 16384 → CryptoStream.HasData s = true →
  ∃ c, CryptoStream.PopCryptoFrame s maxLen =
      Ok (CryptoStream.mk (CryptoStream.queue s) (CryptoStream.highestOffset s) (CryptoStream.finished s)
            (CryptoStream.writeOffset s + len (CryptoFrame.Data c))
            (drop (Z.to_nat (CryptoStream.writeOffset s + len (CryptoFrame.Data c))) w), c) ∧
    piece w c ∧ CryptoFrame.Offset c = CryptoStream.writeOffset s ∧ len (CryptoFrame.bytes c) ≤ maxLen.
Proof.
  intros Ho Hb Hw Hmax Hd. unfold CryptoStream.HasData in Hd. apply Z.ltb_lt in Hd. unfold CryptoStream.PopCryptoFrame, CryptoFrame.MaxDataLen.
  set (o := CryptoStream.writeOffset s) in *. set (buf := CryptoStream.writeBuf s) in *. cbn [CryptoFrame.Offset].
  assert (is_varint o) as Hvar by (unfold is_varint, maxVarInt8, MaxCryptoStreamOffset in *; lia).
  destruct (fitDataLen_spec true (1 + vlen o) maxLen) as (n & Hn & Hn0 & Hfit & Hopt); [pose proof (vlen_pos o); lia|lia|].
  wrun. rewrite Hn. cbn [mbind result_bind].
  assert (1 ≤ n) as H1. { apply Hopt; [done|]. simpl. rewrite (vlen_1 1) by lia. pose proof (vlen_pos o). lia. }
  set (k := Z.min n (len buf)). rewrite slice_to_ok, slice_from_ok by (subst k; lia). cbn [mbind result_bind].
  exists (CryptoFrame.mk o (take (Z.to_nat k) buf)).
  split; [|split; [|split; [done|]]]; cbn [CryptoFrame.Data CryptoFrame.Offset].
  - do 2 f_equal. rewrite len_take by (subst k; lia). f_equal. rewrite Hb, drop_drop. f_equal. subst k. lia.
  - unfold piece. cbn [CryptoFrame.Data CryptoFrame.Offset]. rewrite len_take by (subst k; lia).
    split; [lia|]. split; [subst k; lia|]. by rewrite Hb.
  - unfold CryptoFrame.bytes, encode, CryptoFrame.body. autorewrite with quic. cbn. rewrite len_take by (subst k; lia).
    specialize (Hfit ltac:(lia)). simpl in Hfit. pose proof (vlen_mono k n ltac:(subst k; lia)). subst k. lia.
Qed.

(** ** Handshake data is transferred reliably

    Two endpoints at the Initial or Handshake level ([hs]).  One writes; its CRYPTO frames
    can be lost, and are then retransmitted, and arrive in any order and repeatedly.  The
    other one handles them, reads, and finally finishes its stream.  An acknowledgement
    arrives only for a frame that the other side has handled. *)
#[global] Instance CryptoFrame_eq_dec : EqDecision CryptoFrame.t.
Proof. solve_decision. Defined.

Module CryptoRuns.
Record sys := mkSys {
  snd : cryptoStream;
  rq : retransmissionQueue;
  rcv : cryptoStream;
  written : list byte;
  sent : list CryptoFrame.t;
  outstanding : list CryptoFrame.t;
  acked : list CryptoFrame.t;
  got : list CryptoFrame.t;
  rops : list sorter_op;    (* the operations of the receiver's sorter *)
  out : list byte;
}.
Implicit Types (y : sys).

Section level.
Context (hs : bool).

Definition queued (q : retransmissionQueue) : list CryptoFrame.t := if hs then handshakeCryptoData q else initialCryptoData q.
Definition others (q : retransmissionQueue) : list frame := if hs then handshake q else initial q.
Definition onLost (q : retransmissionQueue) (f : frame) : retransmissionQueue :=
  if hs then HandshakeAckHandler_OnLost q f else InitialAckHandler_OnLost q f.
Definition getFrame (q : retransmissionQueue) (maxLen : Z) : res (retransmissionQueue * option frame) :=
  if hs then GetHandshakeFrame q maxLen else GetInitialFrame q maxLen.
Definition level : EncryptionLevel := if hs then EncryptionHandshake else EncryptionInitial.

Inductive op :=
| OpWrite (p : list byte)
| OpSend (maxLen : Z)
| OpRetransmit (maxLen : Z)
| OpPing
| OpLost (i : nat)
| OpAck (i : nat)
| OpDeliver (i : nat)
| OpRead
| OpFinish.

Definition send y (c : CryptoFrame.t) (s : cryptoStream) (q : retransmissionQueue) : sys :=
  mkSys s q (rcv y) (written y) (sent y ++ [c]) (outstanding y ++ [c]) (acked y) (got y) (rops y) (out y).

Definition set_rq y (q : retransmissionQueue) : sys :=
  mkSys (snd y) q (rcv y) (written y) (sent y) (outstanding y) (acked y) (got y) (rops y) (out y).

Definition step y (o : op) : res sys :=
  match o with
  | OpWrite p => Ok (mkSys (CryptoStream.Write (snd y) p) (rq y) (rcv y) (written y ++ p) (sent y) (outstanding y) (acked y) (got y) (rops y) (out y))
  | OpSend maxLen =>
      if CryptoStream.HasData (snd y) then '(s, c) ← CryptoStream.PopCryptoFrame (snd y) maxLen; Ok (send y c s (rq y)) else Ok y
  | OpRetransmit maxLen =>
      '(q, r) ← getFrame (rq y) maxLen;
      match r with Some (FCrypto c) => Ok (send y c (snd y) q) | _ => Ok (set_rq y q) end
  | OpPing => q ← AddPing (rq y) level; Ok (set_rq y q)
  | OpLost i =>
      match outstanding y !! i with
      | Some c => Ok (mkSys (snd y) (onLost (rq y) (FCrypto c)) (rcv y) (written y) (sent y) (delete i (outstanding y)) (acked y) (got y) (rops y) (out y))
      | None => Ok y
      end
  | OpAck i =>
      match outstanding y !! i with
      | Some c =>
          if bool_decide (c ∈ got y)
          then Ok (mkSys (snd y) (rq y) (rcv y) (written y) (sent y) (delete i (outstanding y)) (acked y ++ [c]) (got y) (rops y) (out y))
          else Ok y
      | None => Ok y
      end
  | OpDeliver i =>
      match sent y !! i with
      | Some c =>
          '(r, e) ← CryptoStream.HandleCryptoFrame (rcv y) c;
          match e with
          | Some e => Err e
          | None => Ok (mkSys (snd y) (rq y) r (written y) (sent y) (outstanding y) (acked y) (got y ++ [c])
              (if CryptoStream.finished (rcv y) then rops y else rops y ++ [OpPush (CryptoFrame.Data c) (CryptoFrame.Offset c) None]) (out y))
          end
      | None => Ok y
      end
  | OpRead =>
      '(r, d) ← CryptoStream.GetCryptoData (rcv y);
      Ok (mkSys (snd y) (rq y) r (written y) (sent y) (outstanding y) (acked y) (got y) (rops y ++ [OpPop]) (out y ++ default [] d))
  | OpFinish =>
      let '(r, e) := CryptoStream.Finish (rcv y) in
      match e with
      | Some e => Err e
      | None => Ok (mkSys (snd y) (rq y) r (written y) (sent y) (outstanding y) (acked y) (got y) (rops y) (out y))
      end
  end.

(** An error closes the connection. *)
Fixpoint run y (ops : list op) : res sys :=
  match ops with [] => Ok y | o :: ops => y ← step y o; run y ops end.

Definition start : sys := mkSys newCryptoStream newRetransmissionQueue newCryptoStream [] [] [] [] [] [] [].

(** Frames have room for at least a byte and fit into packets; the handshake messages do
    not exceed what the peer accepts. *)
Definition allowed (o : op) : Prop :=
  match o with
  | OpSend maxLen => 11 ≤ maxLen ≤ 16384
  | OpRetransmit maxLen => maxLen ≤ 16384
  | _ => True
  end.

Definition received y (x : Z) : Prop := x < readPos (CryptoStream.queue (rcv y)) ∨ covered (queue (CryptoStream.queue (rcv y))) x.

Definition op_of_written (w : list byte) (o : sorter_op) : Prop :=
  match o with
  | OpPush data offset _ => 0 ≤ offset ∧ ∀ i b, data !! i = Some b → w !! Z.to_nat (offset + Z.of_nat i) = Some b
  | OpPop => True
  end.

Record inv y : Prop := {
  i_bound : len (written y) ≤ MaxCryptoStreamOffset;
  i_offset : 0 ≤ CryptoStream.writeOffset (snd y) ≤ len (written y);
  i_buf : CryptoStream.writeBuf (snd y) = drop (Z.to_nat (CryptoStream.writeOffset (snd y))) (written y);
  i_sent : Forall (piece (written y)) (sent y);
  i_outstanding : outstanding y ⊆ sent y;
  i_got : got y ⊆ sent y;
  i_acked : acked y ⊆ got y;
  i_queued : Forall (piece (written y)) (queued (rq y));
  i_others : Forall (λ f, f = FPing PingFrame.mk) (others (rq y));
  i_cover x : 0 ≤ x < CryptoStream.writeOffset (snd y) →
    Exists (λ c, covers c x) (outstanding y ++ acked y ++ queued (rq y));
  i_delivered : ∃ rel, delivered (rops y) (CryptoStream.queue (rcv y)) (out y) rel;
  i_rops : Forall (op_of_written (written y)) (rops y);
  i_received c x : c ∈ got y → covers c x → received y x;
  i_highest : 0 ≤ CryptoStream.highestOffset (rcv y) ∧
    (∀ x, 0 ≤ x → received y x → x < CryptoStream.highestOffset (rcv y)) ∧
    (0 < CryptoStream.highestOffset (rcv y) → received y (CryptoStream.highestOffset (rcv y) - 1));
  i_finished : CryptoStream.finished (rcv y) = true → queue (CryptoStream.queue (rcv y)) = ∅;
}.

Lemma crypto_start_inv : inv start.
Proof.
  split; simpl; try done.
  - unfold queued. destruct hs; constructor.
  - unfold others. destruct hs; constructor.
  - intros x Hx. lia.
  - exists []. apply new_delivered.
  - intros c x Hc. by apply not_elem_of_nil in Hc.
  - split; [done|]. split; [|lia]. unfold received. simpl. intros x Hx [?|[]%nothing_covered]. lia.
Qed.

Lemma op_of_written_app w p o : op_of_written w o → op_of_written (w ++ p) o.
Proof.
  destruct o as [d o cb|]; [|done]. intros [Ho Hd]. split; [done|]. intros i b Hi%Hd. by apply lookup_app_l_Some.
Qed.

Lemma step_write y p : inv y → len (written y) + len p ≤ MaxCryptoStreamOffset → returns (step y (OpWrite p)) inv.
Proof.
  intros [] Hp. cbn. split; simpl; try done.
  - rewrite len_app. lia.
  - rewrite len_app. pose proof (len_nonneg p). lia.
  - rewrite i_buf0, drop_app_le by (unfold len in *; lia). done.
  - eapply Forall_impl; [done|]. intros. by apply piece_app.
  - eapply Forall_impl; [done|]. intros. by apply piece_app.
  - eapply Forall_impl; [done|]. intros. by apply op_of_written_app.
Qed.

Lemma step_send y maxLen : inv y → 11 ≤ maxLen ≤ 16384 → returns (step y (OpSend maxLen)) inv.
Proof.
  intros Hi Hmax. cbn [step]. destruct (CryptoStream.HasData (snd y)) eqn:Hd; [|done]. destruct Hi.
  destruct (PopCryptoFrame_spec (snd y) (written y) maxLen) as (c & -> & Hc & Ho & _); try done.
  pose proof (piece_bound _ _ Hc). pose proof (len_nonneg (CryptoFrame.Data c)). cbn. split; simpl; try done; try lia.
  - by apply Forall_extend.
  - set_solver.
  - set_solver.
  - intros x Hx. rewrite !Exists_app, Exists_cons. destruct (decide (x < CryptoStream.writeOffset (snd y))) as [Hlt|].
    + specialize (i_cover0 x ltac:(lia)). rewrite !Exists_app in i_cover0. tauto.
    + left. right. left. unfold covers. lia.
Qed.

Lemma getFrame_spec y maxLen :
  inv y → maxLen ≤ 16384 →
  ∃ q r, getFrame (rq y) maxLen = Ok (q, r) ∧ Forall (λ f, f = FPing PingFrame.mk) (others q) ∧ Forall (piece (written y)) (queued q) ∧
    match r with
    | Some (FCrypto g) => piece (written y) g ∧ len (CryptoFrame.bytes g) ≤ maxLen ∧
        (∀ x, Exists (λ c, covers c x) (queued (rq y)) ↔ covers g x ∨ Exists (λ c, covers c x) (queued q))
    | _ => queued q = queued (rq y)
    end.
Proof.
  intros [] Hmax. destruct (popCryptoOr_spec (written y) (others (rq y)) (queued (rq y)) maxLen) as (fs & cs & r & Hp & Hspec); try done.
  unfold getFrame, GetHandshakeFrame, GetInitialFrame. unfold queued, others in *.
  destruct hs; rewrite Hp; by eexists _, _.
Qed.

Lemma step_retransmit y maxLen : inv y → maxLen ≤ 16384 → returns (step y (OpRetransmit maxLen)) inv.
Proof.
  intros Hi Hmax. cbn [step]. destruct (getFrame_spec y maxLen Hi Hmax) as (q & r & -> & Hoth & Hq & Hr). destruct Hi. cbn [mbind result_bind].
  assert (∀ r' : option frame, queued q = queued (rq y) → returns (Ok (E:=error) (set_rq y q)) inv) as Hsame.
  { intros r' E. cbn. split; simpl; try done. by rewrite E. }
  destruct r as [[]|]; try by apply (Hsame None). destruct Hr as (Pg & _ & Hcov). cbn. split; simpl; try done.
  - by apply Forall_extend.
  - set_solver.
  - set_solver.
  - intros x Hx%i_cover0. rewrite !Exists_app in *. rewrite Exists_cons. rewrite Hcov in Hx. tauto.
Qed.

Lemma queued_ping q : ∃ q', AddPing q level = Ok q' ∧ queued q' = queued q ∧ others q' = others q ++ [FPing PingFrame.mk].
Proof. unfold queued, others, level. by destruct hs; eexists. Qed.

Lemma step_ping y : inv y → returns (step y OpPing) inv.
Proof.
  intros []. cbn [step]. destruct (queued_ping (rq y)) as (q & -> & Eq & Eo). cbn.
  split; simpl; try done; rewrite ?Eq, ?Eo; try done. by apply Forall_extend.
Qed.

Lemma queued_lost q c : queued (onLost q (FCrypto c)) = queued q ++ [c] ∧ others (onLost q (FCrypto c)) = others q.
Proof. unfold queued, others, onLost. by destruct hs. Qed.

Lemma step_lost y i : inv y → returns (step y (OpLost i)) inv.
Proof.
  intros Hi. cbn [step]. destruct (outstanding y !! i) as [c|] eqn:Hc; [|done]. destruct Hi. cbn.
  pose proof (delete_Permutation _ _ _ Hc) as Hp. destruct (queued_lost (rq y) c) as [Eq Eo].
  assert (c ∈ sent y) as Hin by (apply i_outstanding0; by eapply list_elem_of_lookup_2).
  split; simpl; try done.
  - intros c' Hc'. apply i_outstanding0. rewrite Hp. set_solver.
  - rewrite Eq. apply Forall_app. split; [done|]. constructor; [|done]. rewrite Forall_forall in i_sent0. by apply i_sent0.
  - by rewrite Eo.
  - intros x Hx%i_cover0. rewrite Eq. rewrite Exists_app, Hp, Exists_cons, Exists_app in Hx. rewrite !Exists_app, Exists_cons. tauto.
Qed.

Lemma step_ack y i : inv y → returns (step y (OpAck i)) inv.
Proof.
  intros Hi. cbn [step]. destruct (outstanding y !! i) as [c|] eqn:Hc; [|done]. case_bool_decide as Hg; [|done]. destruct Hi. cbn.
  pose proof (delete_Permutation _ _ _ Hc) as Hp. split; simpl; try done.
  - intros c' Hc'. apply i_outstanding0. rewrite Hp. set_solver.
  - set_solver.
  - intros x Hx%i_cover0. rewrite Exists_app, Hp, Exists_cons, Exists_app in Hx. rewrite !Exists_app, Exists_cons. tauto.
Qed.

Definition errAfterChange : error := TransportError ProtocolViolation 0 (ErrorString "received crypto data after change of encryption level" []).
Definition errMoreData : error :=
  TransportError ProtocolViolation 0 (ErrorString "encryption level changed, but crypto stream has more data to read" []).

(** The errors that a well-behaved sender can cause: too many small frames, or an end of
    the level before all data was read. *)
Definition returns_or_error (r : res sys) : Prop :=
  match r with
  | Ok y => inv y
  | Err e => e = errTooManyGaps ∨ e = errAfterChange ∨ e = errMoreData
  | Panic => False
  end.

Lemma received_finished y x : inv y → CryptoStream.finished (rcv y) = true → x < CryptoStream.highestOffset (rcv y) → 0 ≤ x → received y x.
Proof.
  intros [] Hf Hx H0. destruct i_highest0 as (_ & _ & Hh). specialize (Hh ltac:(lia)). unfold received in *.
  rewrite (i_finished0 Hf) in *. destruct Hh as [?|[]%nothing_covered]. left. lia.
Qed.

Lemma deliver_late y c :
  inv y → c ∈ sent y → CryptoStream.finished (rcv y) = true →
  CryptoFrame.Offset c + len (CryptoFrame.Data c) ≤ CryptoStream.highestOffset (rcv y) →
  inv (mkSys (snd y) (rq y) (rcv y) (written y) (sent y) (outstanding y) (acked y) (got y ++ [c]) (rops y) (out y)).
Proof.
  intros Hi Hc Hf Hle. pose proof Hi as []. split; simpl; try done.
  - set_solver.
  - set_solver.
  - intros c' x [?| ->%list_elem_of_singleton]%elem_of_app Hx; [by eapply i_received0|].
    apply (received_finished y); try done; unfold covers in Hx; [lia|].
    rewrite Forall_forall in i_sent0. apply i_sent0 in Hc as [? _]. lia.
Qed.

Lemma deliver_new y c (q : frameSorter) called :
  inv y → c ∈ sent y → CryptoStream.finished (rcv y) = false →
  pushed (CryptoStream.queue (rcv y)) (CryptoFrame.Data c) (CryptoFrame.Offset c) None q called →
  inv (mkSys (snd y) (rq y)
    (CryptoStream.mk q (Z.max (CryptoStream.highestOffset (rcv y)) (CryptoFrame.Offset c + len (CryptoFrame.Data c)))
       (CryptoStream.finished (rcv y)) (CryptoStream.writeOffset (rcv y)) (CryptoStream.writeBuf (rcv y)))
    (written y) (sent y) (outstanding y) (acked y) (got y ++ [c])
    (rops y ++ [OpPush (CryptoFrame.Data c) (CryptoFrame.Offset c) None]) (out y)).
Proof.
  intros Hi Hc Hf Hp. pose proof Hi as []. set (y' := mkSys _ _ _ _ _ _ _ _ _ _).
  assert (piece (written y) c) as Pc by (rewrite Forall_forall in i_sent0; by apply i_sent0).
  assert (∀ x, received y' x ↔ received y x ∨ covers c x) as Hrec.
  { intros x. unfold received, covers. simpl. rewrite (pushed_covered _ _ _ _ _ _ Hp), (pushed_pos _ _ _ _ _ _ Hp).
    destruct (decide (x < readPos (CryptoStream.queue (rcv y)))); intuition lia. }
  split; try done; simpl.
  - set_solver.
  - set_solver.
  - destruct i_delivered0 as [rel Hd]. exists (rel ++ called). by apply (delivered_push _ _ _ _ _ _ _ _ _ Hd Hp).
  - apply Forall_extend; [done|]. split; [apply Pc|]. intros i b Hib. by eapply piece_at.
  - intros c' x [?| ->%list_elem_of_singleton]%elem_of_app Hx; apply Hrec; [left; by eapply i_received0|by right].
  - destruct i_highest0 as (H0 & H1 & H2). destruct Pc as (Ho & Hl & _). split; [lia|]. split.
    + intros x Hx [Hr|Hr]%Hrec; [specialize (H1 x Hx Hr); lia|unfold covers in Hr; lia].
    + intros Hlt. apply Hrec.
      destruct (Z.max_spec (CryptoStream.highestOffset (rcv y)) (CryptoFrame.Offset c + len (CryptoFrame.Data c))) as [[? ->]|[? ->]].
      * right. unfold covers. lia.
      * left. apply H2. lia.
  - congruence.
Qed.

Lemma step_deliver y i : inv y → returns_or_error (step y (OpDeliver i)).
Proof.
  intros Hi. cbn [step]. destruct (sent y !! i) as [c|] eqn:Hc; [|done]. apply list_elem_of_lookup_2 in Hc.
  pose proof Hi as []. rewrite Forall_forall in i_sent0. pose proof (i_sent0 c Hc) as Pc. pose proof (piece_bound _ _ Pc).
  pose proof Pc as (Ho & Hl & _). unfold CryptoStream.HandleCryptoFrame.
  rewrite i64_small by (unfold MaxCryptoStreamOffset in *; lia). cbv zeta. rewrite (proj2 (Z.ltb_ge _ _)) by lia.
  destruct (CryptoStream.finished (rcv y)) eqn:Hf.
  - zcase; cbn; [auto|]. by apply deliver_late.
  - destruct i_delivered0 as [rel Hd].
    destruct (Push_spec (CryptoStream.queue (rcv y)) (CryptoFrame.Data c) (CryptoFrame.Offset c) None) as [(q & called & -> & Hp)|(q & called & -> & _)].
    + apply Hd.
    + done.
    + unfold MaxByteCount, MaxCryptoStreamOffset in *. lia.
    + cbn. rewrite <-Hf. by eapply deliver_new.
    + cbn. auto.
Qed.

Lemma step_read y : inv y → returns (step y OpRead) (λ y',
  inv y' ∧ written y' = written y ∧ (∀ x, 0 ≤ x → received y' x ↔ received y x) ∧
  (readPos (CryptoStream.queue (rcv y)) < readPos (CryptoStream.queue (rcv y')) ∨
   readPos (CryptoStream.queue (rcv y)) = readPos (CryptoStream.queue (rcv y')) ∧ ¬ received y (readPos (CryptoStream.queue (rcv y))))).
Proof.
  intros Hi. pose proof Hi as []. destruct i_delivered0 as [rel Hd]. cbn [step]. unfold CryptoStream.GetCryptoData.
  destruct (delivered_step_pop _ _ _ _ Hd) as (q & data & cb & -> & Hd' & Hadv). cbn. set (y' := mkSys _ _ _ _ _ _ _ _ _ _).
  assert (∀ x, 0 ≤ x → received y' x ↔ received y x) as Hrec.
  { intros x Hx. unfold received. simpl. rewrite (del_received _ _ _ _ Hd x Hx), (del_received _ _ _ _ Hd' x Hx).
    rewrite Exists_app, Exists_cons, Exists_nil. simpl. tauto. }
  pose proof (inv_pos _ (del_inv _ _ _ _ Hd)) as Hpos.
  split; [|split; [done|]; split; [done|]].
  - split; try done; simpl.
    + by exists (rel ++ invoke cb).
    + by apply Forall_extend.
    + intros c x Hc Hx. apply Hrec; [|by eapply i_received0]. apply i_got0 in Hc. rewrite Forall_forall in i_sent0.
      apply i_sent0 in Hc as [? _]. unfold covers in Hx. lia.
    + destruct i_highest0 as (H0 & H1 & H2). split; [done|]. split; [|intros; apply Hrec; [lia|by apply H2]].
      intros x Hx Hr. apply H1; [done|]. by apply Hrec.
    + intros Hf. specialize (i_finished0 Hf). destruct Hadv as [Hadv|[-> _]]; [|done]. exfalso.
      assert (received y (readPos (CryptoStream.queue (rcv y)))) as [?|Hc]; [apply Hrec; [done|left; done]|lia|].
      rewrite i_finished0 in Hc. by apply nothing_covered in Hc.
  - destruct Hadv as [?|[-> Hn]]; [by left|right]. split; [done|]. intros [?|?]; [lia|done].
Qed.

Lemma step_finish y : inv y → returns_or_error (step y OpFinish).
Proof.
  intros Hi. cbn [step]. unfold CryptoStream.Finish, HasMoreData. destruct (size _ =? 0)%nat eqn:E; cbn; [|auto].
  destruct Hi. split; try done. intros _. simpl. apply Nat.eqb_eq in E. by apply map_size_empty_inv.
Qed.

Definition writes (o : op) : list byte := if o is OpWrite p then p else [].

Lemma written_step y o y' : step y o = Ok y' → written y' = written y ++ writes o.
Proof.
  destruct o; cbn [step writes]; intros H; rewrite ?app_nil_r; [by injection H as <-|..]; by res_cases.
Qed.

Lemma crypto_step_ok y o :
  inv y → allowed o → len (written y) + len (writes o) ≤ MaxCryptoStreamOffset → returns_or_error (step y o).
Proof.
  intros Hi Ha Hw. assert (∀ r : res sys, returns r inv → returns_or_error r) as Hr by (by intros []).
  destruct o; [..|by apply step_deliver| |by apply step_finish]; apply Hr;
    eauto using step_write, step_send, step_retransmit, step_ping, step_lost, step_ack.
  eapply returns_mono; [by apply step_read|]. by intros y' [? _].
Qed.

Lemma crypto_run_ok ops y :
  inv y → Forall allowed ops → len (written y) + len (ops ≫= writes) ≤ MaxCryptoStreamOffset →
  returns_or_error (run y ops) ∧ ∀ y', run y ops = Ok y' → written y' = written y ++ (ops ≫= writes).
Proof.
  intros Hi Ha. revert y Hi. induction Ha as [|o ops Ho Ha IH]; intros y Hi Hw; cbn in *.
  { split; [done|]. intros y' [= <-]. by rewrite app_nil_r. }
  rewrite len_app in Hw. pose proof (len_nonneg (ops ≫= writes)) as Hn.
  pose proof (crypto_step_ok y o Hi Ho ltac:(lia)) as Hs. destruct (step y o) as [y1|e|] eqn:E; [|done..].
  apply written_step in E. cbn in *. destruct (IH y1 Hs) as [H1 H2]; [rewrite E, len_app; lia|].
  split; [done|]. intros y' Hy'. rewrite (H2 y' Hy'), E. by rewrite <-app_assoc.
Qed.

(** What was read is the beginning of what was written. *)
Lemma out_prefix y : inv y → out y = take (length (out y)) (written y) ∧ len (out y) = readPos (CryptoStream.queue (rcv y)).
Proof.
  intros []. destruct i_delivered0 as [rel Hd]. split; [|apply Hd]. apply list_eq. intros i.
  destruct (out y !! i) as [b|] eqn:Hb.
  - pose proof (lookup_lt_Some _ _ _ Hb). rewrite lookup_take_lt by done. symmetry.
    apply (del_out _ _ _ _ Hd), Exists_exists in Hb as (o & Ho & Hb). rewrite Forall_forall in i_rops0. apply i_rops0 in Ho.
    destruct o as [d off cb|]; [|done]. destruct Ho as [H0 Ho], Hb as [Hle Hb]. apply Ho in Hb. rewrite <-Hb. f_equal. lia.
  - apply lookup_ge_None in Hb. by rewrite lookup_take_ge.
Qed.

Lemma crypto_drain y (k : nat) n :
  inv y → (∀ x, 0 ≤ x < n → received y x) → n ≤ readPos (CryptoStream.queue (rcv y)) + Z.of_nat k →
  ∃ y', run y (replicate k OpRead) = Ok y' ∧ inv y' ∧ written y' = written y ∧ n ≤ readPos (CryptoStream.queue (rcv y')).
Proof.
  revert y. induction k as [|k IH]; intros y Hi Hr Hn; [exists y; cbn; split_and!; try done; lia|].
  cbn [replicate run]. pose proof (step_read y Hi) as Hs. apply returns_iff in Hs as (y1 & -> & Hi1 & Hw & Hrec & Hadv).
  cbn [mbind result_bind]. destruct (IH y1 Hi1) as (y' & ? & ? & Hw' & ?).
  - intros x Hx. apply Hrec; [lia|]. by apply Hr.
  - destruct Hadv as [?|[<- Hnr]]; [lia|]. destruct (decide (n ≤ readPos (CryptoStream.queue (rcv y)))); [lia|]. exfalso. apply Hnr, Hr.
    destruct Hi as [_ _ _ _ _ _ _ _ _ _ [rel Hd] _ _ _ _]. pose proof (inv_pos _ (del_inv _ _ _ _ Hd)). lia.
  - exists y'. split_and!; try done. by rewrite Hw'.
Qed.

Lemma all_settled y :
  inv y → CryptoStream.HasData (snd y) = false → outstanding y = [] → queued (rq y) = [] →
  ∃ y', run y (replicate (length (written y)) OpRead) = Ok y' ∧ out y' = written y.
Proof.
  intros Hi Hd Ho Hq. pose proof Hi as []. destruct (out_prefix y Hi) as [_ Hlen]. pose proof (len_nonneg (out y)).
  assert (CryptoStream.writeOffset (snd y) = len (written y)) as Hall.
  { unfold CryptoStream.HasData in Hd. rewrite i_buf0 in Hd. apply Z.ltb_ge in Hd. unfold len in *. rewrite length_drop in Hd. lia. }
  destruct (crypto_drain y (length (written y)) (len (written y)) Hi) as (y' & Hrun & Hi' & Hw & Hpos).
  - intros x Hx. rewrite <-Hall in Hx. apply i_cover0 in Hx. rewrite Ho, Hq, app_nil_l, app_nil_r in Hx.
    apply Exists_exists in Hx as (c & Hc & Hx). apply i_acked0 in Hc. by eapply i_received0.
  - unfold len in *. lia.
  - exists y'. split; [done|]. destruct (out_prefix y' Hi') as [Hout Hlen']. rewrite Hout, <-Hw. apply take_ge.
    rewrite Hw. unfold len in *. lia.
Qed.

(** C17: handshake data is transferred reliably.  At the Initial and the Handshake level,
    CRYPTO frames get lost, are put into the retransmission queue, split and sent again,
    and arrive in any order and any number of times: nothing panics; the data that is read
    is the beginning of the data that was written; and once nothing is left to send or to
    retransmit and every frame was acknowledged, reading delivers everything.  The only
    errors are too many gaps and a level that ends before its data was read. *)
Theorem handshake_data_reliable ops :
  Forall allowed ops → len (ops ≫= writes) ≤ MaxCryptoStreamOffset →
  match run start ops with
  | Ok y =>
      written y = (ops ≫= writes) ∧ out y = take (length (out y)) (written y) ∧
      (CryptoStream.HasData (snd y) = false → outstanding y = [] → queued (rq y) = [] →
       ∃ y', run y (replicate (length (written y)) OpRead) = Ok y' ∧ out y' = written y)
  | Err e => e = errTooManyGaps ∨ e = errAfterChange ∨ e = errMoreData
  | Panic => False
  end.
Proof.
  intros Ha Hw. destruct (crypto_run_ok ops start crypto_start_inv Ha Hw) as [Hr Hwr].
  destruct (run start ops) as [y|e|]; [|done..]. cbn in Hr. split; [by apply Hwr|].
  split; [by apply out_prefix|]. by apply all_settled.
Qed.
End level.

Definition crypto_example : list op :=
  [OpWrite [x01; x02; x03; x04]; OpSend 100; OpPing; OpLost 0; OpRetransmit 5; OpRetransmit 100; OpRetransmit 100;
   OpDeliver 2; OpDeliver 2; OpRead; OpDeliver 1; OpAck 0; OpAck 0].

Lemma handshake_data_reliable_witness :
  ∃ y y', run true start crypto_example = Ok y ∧ out y = [] ∧
    CryptoFrame.Data <$> sent y = [[x01; x02; x03; x04]; [x01; x02]; [x03; x04]] ∧
    run true y (replicate 4 OpRead) = Ok y' ∧ out y' = [x01; x02; x03; x04].
Proof.
  pose proof (handshake_data_reliable true crypto_example) as H.
  assert (Forall allowed crypto_example) as Ha by (unfold crypto_example; repeat constructor; simpl; lia).
  assert (len (crypto_example ≫= writes) ≤ MaxCryptoStreamOffset) as Hw by (by vm_compute).
  specialize (H Ha Hw).
  assert (∃ y, run true start crypto_example = Ok y ∧ out y = [] ∧ written y = [x01; x02; x03; x04] ∧
    CryptoFrame.Data <$> sent y = [[x01; x02; x03; x04]; [x01; x02]; [x03; x04]] ∧
    CryptoStream.HasData (snd y) = false ∧ outstanding y = [] ∧ queued true (rq y) = []) as (y & Hr & Hout & Hwr & Hs & Hd & Ho & Hq).
  { eexists. split; [vm_compute; reflexivity|]. do 5 (split; [reflexivity|]). reflexivity. }
  rewrite Hr in H. destruct H as (_ & _ & H). destruct (H Hd Ho Hq) as (y' & Hr' & Hout'). rewrite Hwr in Hr', Hout'.
  exists y, y'. exact (conj Hr (conj Hout (conj Hs (conj Hr' Hout')))).
Defined.
End CryptoRuns.
