(* ===== verification/DatagramQueue.v ===== *)
(** * Datagrams (datagram_queue.go, connection.go)

    Datagrams wait in two queues, one for sending and one for the application.  [Add] waits
    on a condition variable while the queue is full, and [Receive] on a channel while there
    is none: both are loops, and the definitions are their iterations.  Logging is left
    out; the [closed] channel and [closeErr] are one field. *)

From S2P Require Import Prelude Varint Protocol Wire DataFrames RingBuffer.

Definition maxDatagramSendQueueLen : Z := 32.
Definition maxDatagramRcvQueueLen : Z := 128.
Definition minLengthBearingDatagramFrameSize : Z := 2.
Definition maxProtectedShortHeaderLen : Z := 1 + MaxConnIDLen + 4 + 16.

Abbreviation dframe := DatagramFrame.t (only parsing).
Definition noFrame : dframe := DatagramFrame.mk false [].   (* stands for the nil pointer *)

Record datagramQueue := mkQ {
  sendQueue : RingBuffer dframe;
  maxOutgoingDatagramFrameSize : Z;
  rcvQueue : list (list byte);
  rcvd : bool;                        (* a token in the channel *)
  maxIncomingDatagramPayloadSize : Z;
  closed : option error;
}.
Implicit Types (h : datagramQueue) (f : dframe).

Definition newDatagramQueue (maxIncoming : Z) : datagramQueue := mkQ emptyRing 0 [] false maxIncoming None.

Definition set_send h (q : RingBuffer dframe) (maxSize : Z) : datagramQueue :=
  mkQ q maxSize (rcvQueue h) (rcvd h) (maxIncomingDatagramPayloadSize h) (closed h).
Definition set_rcv h (q : list (list byte)) (tok : bool) : datagramQueue :=
  mkQ (sendQueue h) (maxOutgoingDatagramFrameSize h) q tok (maxIncomingDatagramPayloadSize h) (closed h).

Definition validateOutgoingDatagramFrame (maxSize : Z) f : res (option error) :=
  if maxSize <? minLengthBearingDatagramFrameSize then Ok (Some (ErrorString "datagram support disabled" []))
  else
    l ← DatagramFrame.Length f;
    if l <=? maxSize then Ok None
    else
      n ← DatagramFrame.MaxDataLen (DatagramFrame.mk (DatagramFrame.DataLenPresent f) []) maxSize;
      Ok (Some (DatagramTooLargeError n)).

(** One iteration of the loop of [Add]. *)
Inductive add_result := AddReturns (err : option error) | AddWaits.

Definition Add h f : res (datagramQueue * add_result) :=
  match closed h with
  | Some err => Ok (h, AddReturns (Some err))
  | None =>
      e ← validateOutgoingDatagramFrame (maxOutgoingDatagramFrameSize h) f;
      match e with
      | Some err => Ok (h, AddReturns (Some err))
      | None =>
          if Len (sendQueue h) <? maxDatagramSendQueueLen then
            q ← PushBack noFrame (sendQueue h) f;
            Ok (set_send h q (maxOutgoingDatagramFrameSize h), AddReturns None)
          else Ok (h, AddWaits)
      end
  end.

(** The loop over the frames that are queued, [n] of them. *)
Fixpoint revalidate (n : nat) (q : RingBuffer dframe) (maxSize : Z) : res (RingBuffer dframe) :=
  match n with
  | O => Ok q
  | S n =>
      '(q, f) ← PopFront noFrame q;
      e ← validateOutgoingDatagramFrame maxSize f;
      q ← (if e is None then PushBack noFrame q f else Ok q);
      revalidate n q maxSize
  end.

Definition SetMaxOutgoingDatagramFrameSize h (maxSize : Z) : res datagramQueue :=
  q ← revalidate (Z.to_nat (Len (sendQueue h))) (sendQueue h) maxSize;
  Ok (set_send h q maxSize).

Definition Peek h : res (option dframe) :=
  if Empty (sendQueue h) then Ok None else f ← PeekFront (sendQueue h); Ok (Some f).

Definition Pop h : res datagramQueue :=
  '(q, _) ← PopFront noFrame (sendQueue h); Ok (set_send h q (maxOutgoingDatagramFrameSize h)).

Definition HandleDatagramFrame h f : datagramQueue :=
  let payloadLen := len (DatagramFrame.Data f) in
  let maxPayloadSize := maxIncomingDatagramPayloadSize h in
  if (0 <? maxPayloadSize) && (maxPayloadSize <? payloadLen) then h
  else if maxDatagramRcvQueueLen <=? len (rcvQueue h) then h
  else set_rcv h (rcvQueue h ++ [DatagramFrame.Data f]) true.

(** One iteration of [Receive], up to the point where it waits. *)
Definition Receive h : datagramQueue * option (list byte) :=
  match rcvQueue h with
  | data :: rest => (set_rcv h rest (rcvd h), Some data)
  | [] => (h, None)
  end.

Definition CloseWithError h (e : error) : res datagramQueue :=
  match closed h with
  | Some _ => Panic   (* close of a closed channel *)
  | None => Ok (mkQ (sendQueue h) (maxOutgoingDatagramFrameSize h) (rcvQueue h) (rcvd h) (maxIncomingDatagramPayloadSize h) (Some e))
  end.

(** ** The connection's part *)
Definition maxDatagramFrameSizeForSend (peerMaxFrameSize mtu : Z) : Z :=
  if (peerMaxFrameSize <? minLengthBearingDatagramFrameSize) || (mtu <=? maxProtectedShortHeaderLen) then 0
  else Z.min peerMaxFrameSize (mtu - maxProtectedShortHeaderLen).

Definition maxDatagramPayloadSize (peerMaxFrameSize mtu : Z) : res Z :=
  let frameBudget := maxDatagramFrameSizeForSend peerMaxFrameSize mtu in
  if frameBudget <? minLengthBearingDatagramFrameSize then Ok 0
  else DatagramFrame.MaxDataLen (DatagramFrame.mk true []) frameBudget.

(** [SendDatagram] before the call of [Add]: the error or the frame to add. *)
Definition SendDatagram (peerMaxDatagramFrameSize mtu : Z) (p : list byte) : res (error + dframe) :=
  if peerMaxDatagramFrameSize <? minLengthBearingDatagramFrameSize then Ok (inl (ErrorString "datagram support disabled" []))
  else
    maxDataLen ← maxDatagramPayloadSize peerMaxDatagramFrameSize mtu;
    if maxDataLen <? len p then Ok (inl (DatagramTooLargeError maxDataLen))
    else Ok (inr (DatagramFrame.mk true p)).

(** A datagram is accepted exactly if its frame is within the peer's limit and fits into a
    packet with the longest header; so it can be packed whatever connection ID and packet
    number are used. *)
Lemma send_datagram_fits peerMax mtu p :
  0 ≤ peerMax → mtu ≤ 16384 → is_varint (len p) →
  returns (SendDatagram peerMax mtu p) (λ r,
    let fits := len (DatagramFrame.bytes (DatagramFrame.mk true p)) ≤ Z.min peerMax (mtu - maxProtectedShortHeaderLen) in
    match r with
    | inr f => f = DatagramFrame.mk true p ∧ (fits ∨ p = [] ∧ mtu < maxProtectedShortHeaderLen + 2)
    | inl e => ¬ fits
    end).
Proof.
  intros Hp Hm Hv. unfold SendDatagram, maxDatagramPayloadSize, maxDatagramFrameSizeForSend, minLengthBearingDatagramFrameSize.
  assert (len (DatagramFrame.bytes (DatagramFrame.mk true p)) = 1 + vlen (len p) + len p) as ->.
  { unfold DatagramFrame.bytes, encode, DatagramFrame.body. simpl. autorewrite with quic. lia. }
  pose proof (vlen_pos (len p)). pose proof (len_nonneg p). zcase; [cbn; lia|].
  set (b := if mtu <=? maxProtectedShortHeaderLen then 0 else _).
  assert (b = 0 ∧ mtu ≤ maxProtectedShortHeaderLen ∨ maxProtectedShortHeaderLen < mtu ∧ b = Z.min peerMax (mtu - maxProtectedShortHeaderLen)) as Hb.
  { subst b. zcase; lia. }
  clearbody b. zcase.
  - cbn. zcase; cbn; [lia|]. split; [done|]. right. split; [apply len_0_nil; lia|].
    unfold maxProtectedShortHeaderLen, MaxConnIDLen in *. lia.
  - destruct (DatagramFrame.datagram_max_data_len (DatagramFrame.mk true []) b) as (n & -> & Hn0 & Hn1 & Hn2).
    { unfold maxProtectedShortHeaderLen, MaxConnIDLen in *. lia. }
    simpl in *. destruct Hb as [?|[? ->]]; [lia|]. zcase; cbn.
    + intros Hf. specialize (Hn2 (len p)). lia.
    + split; [done|]. left. destruct (decide (0 < n)); [|assert (len p = 0) as -> by lia; rewrite vlen_1; lia].
      specialize (Hn1 ltac:(lia)). pose proof (vlen_mono (len p) n). lia.
Qed.

(** ** Sending *)
Definition fits (maxSize : Z) f : Prop := 2 ≤ maxSize ∧ len (DatagramFrame.bytes f) ≤ maxSize.
#[global] Instance fits_dec maxSize f : Decision (fits maxSize f) := and_dec _ _.

Lemma validate_spec maxSize f :
  0 ≤ maxSize ≤ maxVarInt8 → DatagramFrame.valid f →
  ∃ e, validateOutgoingDatagramFrame maxSize f = Ok e ∧ (e = None ↔ fits maxSize f).
Proof.
  intros Hm Hv. unfold validateOutgoingDatagramFrame, minLengthBearingDatagramFrameSize, fits. zcase; [eexists; split; [done|naive_solver lia]|].
  pose proof (frame_length_valid f Hv) as Hl. simpl in Hl. rewrite Hl. fold (DatagramFrame.bytes f). cbn [mbind result_bind].
  zcase; [by eexists|]. unfold DatagramFrame.MaxDataLen, fitDataLen. cbn [DatagramFrame.DataLenPresent].
  assert (∀ n, Varint.Len (u64 (maxSize - n)) = Ok (vlen (maxSize - n)) ∨ maxSize < n ∨ n < 0) as Hlen.
  { intros n. destruct (decide (0 ≤ n ≤ maxSize)); [left|lia]. unfold maxVarInt8 in *. rewrite u64_small by lia.
    apply Len_vlen. unfold is_varint, maxVarInt8. lia. }
  destruct (DatagramFrame.DataLenPresent f); zcase; cbn [mbind result_bind]; try (eexists; split; [done|]; naive_solver lia).
  destruct (Hlen (1 + 1)) as [->|?]; [|lia]. cbn. eexists; split; [done|]. naive_solver lia.
Qed.

Record sys := mkSys {
  q : datagramQueue;
  waiting : list dframe;     (* goroutines that wait for the condition variable, with their frames *)
  notified : list dframe;    (* those that were notified and did not run yet *)
  added : list dframe;
  popped : list dframe;
  model : list dframe;             (* what the queue has to hold *)
  discarded : list (dframe * Z);   (* what was discarded by a new limit, with this limit *)
}.
Implicit Types (y : sys).

Inductive op :=
| OpAdd (f : dframe)
| OpResume (i : nat)              (* a notified goroutine runs *)
| OpPop (i : nat)                 (* the packer sends a datagram; [Signal] chooses the goroutine *)
| OpSetMax (maxSize : Z)
| OpClose (err : error).

Definition iteration y f : res sys :=
  '(h, r) ← Add (q y) f;
  match r with
  | AddReturns None => Ok (mkSys h (waiting y) (notified y) (added y ++ [f]) (popped y) (model y ++ [f]) (discarded y))
  | AddReturns (Some _) => Ok (mkSys h (waiting y) (notified y) (added y) (popped y) (model y) (discarded y))
  | AddWaits => Ok (mkSys h (waiting y ++ [f]) (notified y) (added y) (popped y) (model y) (discarded y))
  end.

Definition signal y (i : nat) : sys :=
  let i := (i mod length (waiting y))%nat in
  match waiting y !! i with
  | Some f => mkSys (q y) (delete i (waiting y)) (notified y ++ [f]) (added y) (popped y) (model y) (discarded y)
  | None => y
  end.

Definition broadcast y (h : datagramQueue) (l : list dframe) (d : list (dframe * Z)) : sys :=
  mkSys h [] (notified y ++ waiting y) (added y) (popped y) l (discarded y ++ d).

Definition step y (o : op) : res sys :=
  match o with
  | OpAdd f => iteration y f
  | OpResume i =>
      match notified y !! i with
      | Some f => iteration (mkSys (q y) (waiting y) (delete i (notified y)) (added y) (popped y) (model y) (discarded y)) f
      | None => Ok y
      end
  | OpPop i =>
      r ← Peek (q y);
      match r with
      | Some f =>
          h ← Pop (q y);
          Ok (signal (mkSys h (waiting y) (notified y) (added y) (popped y ++ [f]) (tail (model y)) (discarded y)) i)
      | None => Ok y
      end
  | OpSetMax maxSize =>
      h ← SetMaxOutgoingDatagramFrameSize (q y) maxSize;
      Ok (broadcast y h (filter (fits maxSize) (model y)) ((λ f, (f, maxSize)) <$> filter (λ f, ¬ fits maxSize f) (model y)))
  | OpClose err =>
      match closed (q y) with Some _ => Ok y | None => h ← CloseWithError (q y) err; Ok (broadcast y h (model y) []) end
  end.

Fixpoint run y (ops : list op) : res sys :=
  match ops with [] => Ok y | o :: ops => y ← step y o; run y ops end.

Definition start (maxIncoming : Z) : sys := mkSys (newDatagramQueue maxIncoming) [] [] [] [] [] [].

Definition allowed (o : op) : Prop :=
  match o with
  | OpAdd f => DatagramFrame.valid f
  | OpSetMax maxSize => 0 ≤ maxSize ≤ maxVarInt8
  | _ => True
  end.

(** Goroutines that are notified and whose frames can be sent. *)
Definition ready y : Z := len (filter (fits (maxOutgoingDatagramFrameSize (q y))) (notified y)).

Record inv y (l : list dframe) : Prop := {
  i_model : model y = l;
  i_all : added y ≡ₚ popped y ++ l ++ (discarded y).*1;
  i_disc : Forall (λ fm : dframe * Z, ¬ fits fm.2 fm.1) (discarded y);
  i_holds : holds (sendQueue (q y)) l;
  i_len : len l ≤ maxDatagramSendQueueLen;
  i_max : 0 ≤ maxOutgoingDatagramFrameSize (q y) ≤ maxVarInt8;
  i_fits : Forall (fits (maxOutgoingDatagramFrameSize (q y))) (l ++ waiting y);
  i_valid : Forall DatagramFrame.valid (l ++ waiting y ++ notified y);
  i_order : sublist (popped y ++ l) (added y);
  i_wake : waiting y ≠ [] → closed (q y) = None ∧ maxDatagramSendQueueLen - len l ≤ ready y;
}.

Lemma dg_start_inv n : inv (start n) [].
Proof. by split. Qed.

Lemma revalidate_spec maxSize a : ∀ r b,
  0 ≤ maxSize ≤ maxVarInt8 → holds r (a ++ b) → Forall DatagramFrame.valid a →
  returns (revalidate (length a) r maxSize) (λ r', holds r' (b ++ filter (fits maxSize) a)).
Proof.
  induction a as [|f a IH]; intros r b Hm Hr Hv; cbn [revalidate length]; [by rewrite filter_nil, app_nil_r|].
  apply Forall_cons in Hv as [Hf Hv]. simpl in Hr. apply returns_bind. eapply returns_mono; [by apply PopFront_spec|].
  intros [r1 f'] [Hr1 E]. simpl in E. subst f'. destruct (validate_spec maxSize f Hm Hf) as (e & -> & He). cbn [mbind result_bind].
  rewrite filter_cons. destruct e as [e|].
  - rewrite decide_False by (rewrite <-He; done). by apply IH.
  - rewrite decide_True by (by apply He). apply returns_bind. eapply returns_mono; [by apply PushBack_spec|].
    intros r2 Hr2. rewrite <-app_assoc in Hr2. eapply returns_mono; [by apply IH|]. intros r3. by rewrite <-app_assoc.
Qed.

(** One iteration, of a goroutine that has just been taken out of [notified] or is new. *)
Lemma iteration_ok y l f (extra : Z) :
  inv (mkSys (q y) [] (notified y) (added y) (popped y) (model y) (discarded y)) l →
  Forall (fits (maxOutgoingDatagramFrameSize (q y))) (waiting y) → Forall DatagramFrame.valid (waiting y) →
  (waiting y ≠ [] → closed (q y) = None ∧ maxDatagramSendQueueLen - len l ≤ ready y + extra) →
  extra = (if decide (fits (maxOutgoingDatagramFrameSize (q y)) f) then 1 else 0) →
  DatagramFrame.valid f → returns (iteration y f) (λ y', ∃ l', inv y' l').
Proof.
  intros [Hmod Hall Hdisc Hh Hlen Hmax Hfit Hval Hord _] Hfw Hvw Hw -> Hf. simpl in *. rewrite app_nil_r in Hfit.
  apply Forall_app in Hval as [Hvl Hvn]. unfold iteration, Add.
  destruct (closed (q y)) as [err|] eqn:Hc.
  { cbn. exists l. assert (waiting y = []) as Ew by (destruct (waiting y); [done|]; by destruct (Hw ltac:(done))).
    split; simpl; rewrite ?Ew, ?app_nil_r; try done. by apply Forall_app. }
  destruct (validate_spec _ f Hmax Hf) as (e & -> & He). cbn [mbind result_bind]. destruct e as [err|].
  { cbn. exists l. rewrite decide_False in Hw by (rewrite <-He; done). split; simpl; try done.
    - by apply Forall_app.
    - by rewrite !Forall_app.
    - intros H. specialize (Hw H) as [? ?]. split; [done|]. unfold ready in *. simpl. lia. }
  assert (fits (maxOutgoingDatagramFrameSize (q y)) f) as Hff by (by apply He). rewrite decide_True in Hw by done.
  rewrite (holds_Len _ _ Hh). zcase.
  - apply returns_bind. apply returns_bind. eapply returns_mono; [by apply PushBack_spec|]. intros r Hr. cbn.
    exists (l ++ [f]). split; simpl; try done.
    + by rewrite Hmod.
    + rewrite Hall. solve_Permutation.
    + rewrite len_app. unfold maxDatagramSendQueueLen, len in *. simpl. lia.
    + rewrite !Forall_app. by rewrite Forall_singleton.
    + rewrite !Forall_app. by rewrite Forall_singleton.
    + rewrite app_assoc. by apply sublist_app.
    + intros H'. specialize (Hw H') as [? ?]. split; [done|]. rewrite len_app. unfold ready, len in *. simpl in *. lia.
  - cbn. exists l. split; simpl; try done.
    + rewrite !Forall_app. by rewrite Forall_singleton.
    + rewrite !Forall_app. by rewrite Forall_singleton.
    + intros _. split; [done|]. unfold ready. pose proof (len_nonneg (filter (fits (maxOutgoingDatagramFrameSize (q y))) (notified y))).
      simpl in *. lia.
Qed.

Lemma inv_drop_waiting y l : inv y l → inv (mkSys (q y) [] (notified y) (added y) (popped y) (model y) (discarded y)) l.
Proof. intros []. split; simpl; try done; rewrite !Forall_app in *; naive_solver. Qed.

Lemma dg_step_add y l f : inv y l → DatagramFrame.valid f → returns (step y (OpAdd f)) (λ y', ∃ l', inv y' l').
Proof.
  intros Hi Hf. eapply iteration_ok; [by apply inv_drop_waiting|..|done|done].
  - apply (Forall_app _ l), Hi.
  - pose proof (i_valid _ _ Hi) as H. rewrite !Forall_app in H. naive_solver.
  - intros H. destruct (i_wake _ _ Hi H) as [? ?]. split; [done|]. case_decide; lia.
Qed.

Lemma len_filter_perm (P : dframe → Prop) `{!∀ f, Decision (P f)} l f l' :
  l ≡ₚ f :: l' → len (filter P l) = len (filter P l') + (if decide (P f) then 1 else 0).
Proof. intros Hp. unfold len. rewrite Hp, filter_cons. destruct (decide (P f)); simpl; lia. Qed.

Lemma dg_step_resume y l i : inv y l → returns (step y (OpResume i)) (λ y', ∃ l', inv y' l').
Proof.
  intros Hi. cbn [step]. destruct (notified y !! i) as [f|] eqn:Hf; [|by exists l].
  pose proof (delete_Permutation _ _ _ Hf) as Hp. pose proof (i_valid _ _ Hi) as Hv. rewrite !Forall_app in Hv.
  destruct Hv as (Hvl & Hvw & Hvn). rewrite Hp, Forall_cons in Hvn. destruct Hvn as [Hvf Hvn].
  eapply (iteration_ok _ l); simpl; [|apply (Forall_app _ l), Hi|done| |done|done].
  - destruct Hi. split; simpl; try done; rewrite ?Forall_app in *; naive_solver.
  - intros H. destruct (i_wake _ _ Hi H) as [? Hr]. split; [done|]. unfold ready in *. simpl.
    rewrite (len_filter_perm _ _ _ _ Hp) in Hr. lia.
Qed.

Lemma signal_ok y l i :
  inv (mkSys (q y) [] (notified y) (added y) (popped y) (model y) (discarded y)) l →
  Forall (fits (maxOutgoingDatagramFrameSize (q y))) (waiting y) → Forall DatagramFrame.valid (waiting y) →
  (waiting y ≠ [] → closed (q y) = None ∧ maxDatagramSendQueueLen - len l ≤ ready y + 1) → inv (signal y i) l.
Proof.
  intros [Hmod Hall Hdisc Hh Hlen Hmax Hfit Hval Hord _] Hfw Hvw Hw. simpl in *. rewrite app_nil_r in Hfit. apply Forall_app in Hval as [Hvl Hvn].
  unfold signal. destruct (waiting y !! _) as [f|] eqn:Hf.
  - pose proof (delete_Permutation _ _ _ Hf) as Hp. rewrite Hp, Forall_cons in Hfw, Hvw.
    assert (waiting y ≠ []) as Hne by (by intros E; rewrite E in Hf). specialize (Hw Hne) as [Hc Hr].
    split; simpl; try done; rewrite ?Forall_app, ?Forall_singleton; try naive_solver.
    intros _. split; [done|]. unfold ready in *. simpl. rewrite filter_app, filter_cons, decide_True by naive_solver.
    rewrite len_app. unfold len in *. simpl. lia.
  - destruct (decide (waiting y = [])) as [Ew|Hne].
    + split; rewrite ?Ew, ?app_nil_r; try done. simpl. by apply Forall_app.
    + exfalso. apply lookup_ge_None in Hf. assert (length (waiting y) ≠ 0%nat) by (by destruct (waiting y)).
      pose proof (Nat.mod_upper_bound i (length (waiting y))). lia.
Qed.

Lemma dg_step_pop y l i : inv y l → returns (step y (OpPop i)) (λ y', ∃ l', inv y' l').
Proof.
  intros Hi. cbn [step]. pose proof Hi as [Hmod Hall Hdisc Hh Hlen Hmax Hfit Hval Hord Hw]. unfold Peek, Pop. rewrite (holds_Empty _ _ Hh).
  destruct l as [|f l]; [by exists []|]. rewrite len_cons in *. pose proof (len_nonneg l). rewrite (proj2 (Z.eqb_neq _ _)) by lia.
  rewrite (PeekFront_spec _ _ _ Hh). cbn [mbind result_bind]. apply returns_bind. apply returns_bind.
  eapply returns_mono; [by apply PopFront_spec|]. intros [r f'] [Hr _]. cbn. exists l. simpl in *.
  rewrite !Forall_cons, !Forall_app in *.
  apply signal_ok; simpl; [|naive_solver..|].
  - split; simpl; try done; rewrite ?Forall_app; try naive_solver; [by rewrite Hmod|rewrite Hall; solve_Permutation|lia|].
    rewrite <-app_assoc. done.
  - intros H'. specialize (Hw H') as [? ?]. split; [done|]. unfold ready in *. simpl. lia.
Qed.

Lemma filter_partition {A} (P : A → Prop) `{!∀ x, Decision (P x)} (l : list A) : l ≡ₚ filter P l ++ filter (λ x, ¬ P x) l.
Proof.
  induction l as [|x l IH]; [done|]. rewrite !filter_cons. destruct (decide (P x)); destruct (decide (¬ P x)); try done; rewrite IH at 1; [done|].
  by rewrite Permutation_middle.
Qed.

Lemma dg_step_set_max y l n : inv y l → 0 ≤ n ≤ maxVarInt8 → returns (step y (OpSetMax n)) (λ y', ∃ l', inv y' l').
Proof.
  intros [Hmod Hall Hdisc Hh Hlen Hmax Hfit Hval Hord Hw] Hn. cbn [step]. unfold SetMaxOutgoingDatagramFrameSize. rewrite (holds_Len _ _ Hh).
  replace (Z.to_nat (len l)) with (length l) by (unfold len; lia). rewrite !Forall_app in Hval. apply returns_bind, returns_bind.
  eapply returns_mono; [apply (revalidate_spec n l _ []); [done|by rewrite app_nil_r|naive_solver]|].
  intros r Hr. cbn. exists (filter (fits n) l). split; simpl; try done; rewrite ?app_nil_r, ?Forall_app.
  - by rewrite Hmod.
  - rewrite fmap_app, <-list_fmap_compose, Hmod. rewrite Hall. rewrite (filter_partition (fits n) l) at 1. rewrite list_fmap_id. solve_Permutation.
  - split; [done|]. rewrite Hmod. apply Forall_fmap, Forall_forall. intros f Hf. by apply list_elem_of_filter in Hf as [? _].
  - pose proof (length_filter (fits n) l). unfold len in *. lia.
  - apply Forall_forall. intros f Hf. by apply list_elem_of_filter in Hf as [? _].
  - rewrite !Forall_forall in *. split; [|naive_solver]. intros f Hf. apply list_elem_of_filter in Hf as [_ ?]. naive_solver.
  - etrans; [|done]. apply sublist_app; [done|]. apply sublist_filter.
Qed.

Lemma dg_step_close y l e : inv y l → returns (step y (OpClose e)) (λ y', ∃ l', inv y' l').
Proof.
  intros Hi. cbn [step]. unfold CloseWithError. destruct (closed (q y)); cbn; exists l; [done|].
  destruct Hi. split; simpl; rewrite ?app_nil_r, ?Forall_app in *; naive_solver.
Qed.

Lemma dg_run_ok ops y l : inv y l → Forall allowed ops → returns (run y ops) (λ y', ∃ l', inv y' l').
Proof.
  intros Hi Ha. revert y l Hi. induction Ha as [|o ops Ho Ha IH]; intros y l Hi; [by exists l|]. cbn [run]. apply returns_bind.
  assert (returns (step y o) (λ y', ∃ l', inv y' l')) as Hs.
  { destruct o; eauto using dg_step_add, dg_step_resume, dg_step_pop, dg_step_set_max, dg_step_close. }
  eapply returns_mono; [done|]. intros y' [l' Hi']. by eapply IH.
Qed.

(** What a call of [Add] does in a state in which the queue holds [l]. *)
Lemma dg_add_exact y l f : inv y l → DatagramFrame.valid f →
  returns (Add (q y) f) (λ hr,
    (hr.2 = AddReturns None ↔ closed (q y) = None ∧ fits (maxOutgoingDatagramFrameSize (q y)) f ∧ len l < 32) ∧
    (hr.2 = AddWaits ↔ closed (q y) = None ∧ fits (maxOutgoingDatagramFrameSize (q y)) f ∧ len l = 32)).
Proof.
  intros [_ _ _ Hh Hlen Hmax _ _ _ _] Hf. unfold Add, maxDatagramSendQueueLen in *. destruct (closed (q y)) as [e|]; [cbn; naive_solver|].
  destruct (validate_spec _ f Hmax Hf) as (e & -> & He). cbn [mbind result_bind]. destruct e as [e|]; [cbn; naive_solver|].
  pose proof (proj1 He eq_refl) as Hfit. rewrite (holds_Len _ _ Hh). zcase.
  - apply returns_bind. eapply returns_mono; [by apply PushBack_spec|]. intros r _. cbn. naive_solver lia.
  - cbn. assert (len l = 32) by lia. naive_solver lia.
Qed.


Definition example_frame (b : byte) : dframe := DatagramFrame.mk true [b].
Definition large_frame : dframe := DatagramFrame.mk true (replicate 40 x03).
Definition dg_example : list op :=
  OpSetMax 100 :: (OpAdd <$> replicate 3 (example_frame x01)) ++ OpAdd large_frame :: (OpAdd <$> replicate 29 (example_frame x02)) ++
    [OpPop 0; OpResume 0; OpPop 0; OpSetMax 20].


(** ** Receiving, by one goroutine *)
Module Receiving.
Record rsys := mkR { rq : datagramQueue; rwaiting : bool; accepted : list (list byte); delivered : list (list byte) }.

Inductive rop :=
| RHandle (f : dframe)
| RReceive
| RWake       (* the waiting call receives the token *)
| RCancel.

Definition try_receive (y : rsys) (h : datagramQueue) : rsys :=
  let '(h, d) := Receive h in
  match d with
  | Some d => mkR h false (accepted y) (delivered y ++ [d])
  | None => mkR h true (accepted y) (delivered y)
  end.

Definition rstep (y : rsys) (o : rop) : rsys :=
  match o with
  | RHandle f =>
      let h := HandleDatagramFrame (rq y) f in
      mkR h (rwaiting y) (if bool_decide (rcvQueue h = rcvQueue (rq y)) then accepted y else accepted y ++ [DatagramFrame.Data f]) (delivered y)
  | RReceive => if rwaiting y then y else try_receive y (rq y)
  | RWake => if rwaiting y && rcvd (rq y) then try_receive y (set_rcv (rq y) (rcvQueue (rq y)) false) else y
  | RCancel => mkR (rq y) false (accepted y) (delivered y)
  end.

Definition rinv (y : rsys) : Prop :=
  accepted y = delivered y ++ rcvQueue (rq y) ∧ len (rcvQueue (rq y)) ≤ 128 ∧
  (rwaiting y = true → rcvd (rq y) = false → rcvQueue (rq y) = []).

Lemma try_receive_inv (y : rsys) h : rinv y → rcvQueue h = rcvQueue (rq y) → rinv (try_receive y h).
Proof.
  intros (Ha & Hl & _) E. unfold try_receive, Receive. rewrite E. destruct (rcvQueue (rq y)) as [|d rest].
  - split_and!; simpl; rewrite ?E; done.
  - split_and!; simpl; [by rewrite Ha, <-app_assoc| |done]. rewrite len_cons in Hl. lia.
Qed.

Lemma rstep_inv (y : rsys) o : rinv y → rinv (rstep y o).
Proof.
  intros Hy. destruct o as [f| | |]; simpl.
  - destruct Hy as (Ha & Hl & Hw). unfold HandleDatagramFrame, maxDatagramRcvQueueLen.
    destruct (_ && _); [by rewrite bool_decide_eq_true_2|]. zcase; [by rewrite bool_decide_eq_true_2|].
    rewrite bool_decide_eq_false_2 by (simpl; intros E; apply (f_equal length) in E; rewrite length_app in E; simpl in E; lia).
    split_and!; simpl; [by rewrite Ha, <-app_assoc| |done]. rewrite len_app. unfold len in *. simpl. lia.
  - destruct (rwaiting y); [done|]. by apply try_receive_inv.
  - destruct (rwaiting y && _); [|done]. by apply try_receive_inv.
  - destruct Hy as (Ha & Hl & _). done.
Qed.

(** Datagrams are delivered in order, each once, except those that were dropped on arrival
    because of their size or because 128 others are waiting; a waiting call that has not
    been woken has nothing to receive. *)
Lemma datagrams_received n ops : rinv (foldl rstep (mkR (newDatagramQueue n) false [] []) ops).
Proof.
  assert (rinv (mkR (newDatagramQueue n) false [] [])) as H0 by done. revert H0.
  generalize (mkR (newDatagramQueue n) false [] []). induction ops as [|o ops IH]; intros y Hy; [done|]. simpl. by apply IH, rstep_inv.
Qed.

(** With two goroutines a wake-up can be lost, as the channel has room for one token: both
    wait, two datagrams arrive, one of the goroutines takes the token and the first
    datagram, and the other one keeps waiting. *)
Lemma concurrent_receive_lost_wakeup :
  let h0 := newDatagramQueue 0 in
  Receive h0 = (h0, None) ∧
  let h2 := HandleDatagramFrame (HandleDatagramFrame h0 (example_frame x01)) (example_frame x02) in
  rcvd h2 = true ∧ ∃ h3, Receive (set_rcv h2 (rcvQueue h2) false) = (h3, Some [x01]) ∧
    rcvd h3 = false ∧ rcvQueue h3 = [[x02]].
Proof. split; [done|]. split; [done|]. by eexists. Qed.
End Receiving.

(** The maximum payload that [DatagramTooLargeError] reports is too large itself if the
    peer's limit exceeds 16 KiB: a datagram of that size is rejected again. *)
Lemma too_large_error_wrong :
  validateOutgoingDatagramFrame 65535 (DatagramFrame.mk true (replicate (Z.to_nat 66000) x00)) = Ok (Some (DatagramTooLargeError 65532)) ∧
  validateOutgoingDatagramFrame 65535 (DatagramFrame.mk true (replicate (Z.to_nat 65532) x00)) = Ok (Some (DatagramTooLargeError 65532)).
Proof. by vm_compute. Qed.
