(* ===== verification/TransportParams.v ===== *)
(** * Transport parameters (internal/wire/transport_parameters.go)

    The parameters that both sides send in the handshake, and their serialization for
    session tickets.  [Marshal] takes the random bytes for the greased parameter and the
    additional parameters of the client, in the order in which the map is visited.  The
    parameters of the uTLS library, [ClientOverride], are the bytes that it marshals. *)

From stdpp Require Import sorting.
From S2P Require Import Prelude Varint Protocol Wire.

Definition TransportParameterError : Z := 8.
Definition millisecond : Z := 1000000.
Definition MinRemoteIdleTimeout : Z := 5000 * millisecond.
Definition DefaultMaxAckDelay : Z := 25 * millisecond.
Definition MaxMaxAckDelay : Z := (2 ^ 14 - 1) * millisecond.
Definition DefaultAckDelayExponent : Z := 3.
Definition MaxAckDelayExponent : Z := 20.
Definition DefaultActiveConnectionIDLimit : Z := 2.
Definition InvalidByteCount : Z := -1.
Definition transportParameterMarshalingVersion : Z := 1.

Definition originalDestinationConnectionIDParameterID : Z := 0x0.
Definition maxIdleTimeoutParameterID : Z := 0x1.
Definition statelessResetTokenParameterID : Z := 0x2.
Definition maxUDPPayloadSizeParameterID : Z := 0x3.
Definition initialMaxDataParameterID : Z := 0x4.
Definition initialMaxStreamDataBidiLocalParameterID : Z := 0x5.
Definition initialMaxStreamDataBidiRemoteParameterID : Z := 0x6.
Definition initialMaxStreamDataUniParameterID : Z := 0x7.
Definition initialMaxStreamsBidiParameterID : Z := 0x8.
Definition initialMaxStreamsUniParameterID : Z := 0x9.
Definition ackDelayExponentParameterID : Z := 0xa.
Definition maxAckDelayParameterID : Z := 0xb.
Definition disableActiveMigrationParameterID : Z := 0xc.
Definition preferredAddressParameterID : Z := 0xd.
Definition activeConnectionIDLimitParameterID : Z := 0xe.
Definition initialSourceConnectionIDParameterID : Z := 0xf.
Definition retrySourceConnectionIDParameterID : Z := 0x10.
Definition maxDatagramFrameSizeParameterID : Z := 0x20.

(** An address is its 4 or 16 bytes; the zero value of [netip.Addr] has none. *)
Record AddrPort := mkAddrPort { Addr : list byte; Port : Z }.

Record PreferredAddress := mkPreferredAddress {
  IPv4 : AddrPort;
  IPv6 : AddrPort;
  PA_ConnectionID : list byte;
  PA_StatelessResetToken : list byte;
}.

Record TransportParameters := mkParams {
  InitialMaxStreamDataBidiLocal : Z;
  InitialMaxStreamDataBidiRemote : Z;
  InitialMaxStreamDataUni : Z;
  InitialMaxData : Z;
  MaxAckDelay : Z;
  AckDelayExponent : Z;
  DisableActiveMigration : bool;
  MaxUDPPayloadSize : Z;
  MaxUniStreamNum : Z;
  MaxBidiStreamNum : Z;
  MaxIdleTimeout : Z;
  PreferredAddress_ : option PreferredAddress;
  OriginalDestinationConnectionID : list byte;
  InitialSourceConnectionID : list byte;
  RetrySourceConnectionID : option (list byte);
  StatelessResetToken : option (list byte);
  ActiveConnectionIDLimit : Z;
  MaxDatagramFrameSize : Z;
  ClientOverride : option (list byte);
}.
Implicit Types (p : TransportParameters).

(** The zero value. *)
Definition zeroParams : TransportParameters :=
  mkParams 0 0 0 0 0 0 false 0 0 0 0 None [] [] None None 0 0 None.

(** ** Updates of fields *)
Section updates.
Context (p : TransportParameters).
Definition upd (bl br un md mad ade : Z) (dam : bool) (udp uns bs idle : Z) (pa : option PreferredAddress)
    (odcid iscid : list byte) (rscid srt : option (list byte)) (acl dgr : Z) : TransportParameters :=
  mkParams bl br un md mad ade dam udp uns bs idle pa odcid iscid rscid srt acl dgr (ClientOverride p).
Local Abbreviation bl := (InitialMaxStreamDataBidiLocal p).
Local Abbreviation br := (InitialMaxStreamDataBidiRemote p).
Local Abbreviation un := (InitialMaxStreamDataUni p).
Local Abbreviation md := (InitialMaxData p).
Local Abbreviation mad := (MaxAckDelay p).
Local Abbreviation ade := (AckDelayExponent p).
Local Abbreviation dam := (DisableActiveMigration p).
Local Abbreviation udp := (MaxUDPPayloadSize p).
Local Abbreviation uns := (MaxUniStreamNum p).
Local Abbreviation bs := (MaxBidiStreamNum p).
Local Abbreviation idle := (MaxIdleTimeout p).
Local Abbreviation pa := (PreferredAddress_ p).
Local Abbreviation odcid := (OriginalDestinationConnectionID p).
Local Abbreviation iscid := (InitialSourceConnectionID p).
Local Abbreviation rscid := (RetrySourceConnectionID p).
Local Abbreviation srt := (StatelessResetToken p).
Local Abbreviation acl := (ActiveConnectionIDLimit p).
Local Abbreviation dgr := (MaxDatagramFrameSize p).
Definition set_bidiLocal v := upd v br un md mad ade dam udp uns bs idle pa odcid iscid rscid srt acl dgr.
Definition set_bidiRemote v := upd bl v un md mad ade dam udp uns bs idle pa odcid iscid rscid srt acl dgr.
Definition set_uni v := upd bl br v md mad ade dam udp uns bs idle pa odcid iscid rscid srt acl dgr.
Definition set_maxData v := upd bl br un v mad ade dam udp uns bs idle pa odcid iscid rscid srt acl dgr.
Definition set_maxAckDelay v := upd bl br un md v ade dam udp uns bs idle pa odcid iscid rscid srt acl dgr.
Definition set_ackDelayExponent v := upd bl br un md mad v dam udp uns bs idle pa odcid iscid rscid srt acl dgr.
Definition set_disableMigration v := upd bl br un md mad ade v udp uns bs idle pa odcid iscid rscid srt acl dgr.
Definition set_maxUDP v := upd bl br un md mad ade dam v uns bs idle pa odcid iscid rscid srt acl dgr.
Definition set_maxUni v := upd bl br un md mad ade dam udp v bs idle pa odcid iscid rscid srt acl dgr.
Definition set_maxBidi v := upd bl br un md mad ade dam udp uns v idle pa odcid iscid rscid srt acl dgr.
Definition set_maxIdle v := upd bl br un md mad ade dam udp uns bs v pa odcid iscid rscid srt acl dgr.
Definition set_preferredAddress v := upd bl br un md mad ade dam udp uns bs idle v odcid iscid rscid srt acl dgr.
Definition set_odcid v := upd bl br un md mad ade dam udp uns bs idle pa v iscid rscid srt acl dgr.
Definition set_iscid v := upd bl br un md mad ade dam udp uns bs idle pa odcid v rscid srt acl dgr.
Definition set_rscid v := upd bl br un md mad ade dam udp uns bs idle pa odcid iscid v srt acl dgr.
Definition set_resetToken v := upd bl br un md mad ade dam udp uns bs idle pa odcid iscid rscid v acl dgr.
Definition set_activeLimit v := upd bl br un md mad ade dam udp uns bs idle pa odcid iscid rscid srt v dgr.
Definition set_maxDatagram v := upd bl br un md mad ade dam udp uns bs idle pa odcid iscid rscid srt acl v.
End updates.

(** ** Parsing *)
Definition readNumericTransportParameter p (b : list byte) (paramID expectedLen : Z) : res TransportParameters :=
  match Parse b with
  | Panic => Panic
  | Err _ => Err (ErrorString "error while reading transport parameter %d: %s" [paramID])
  | Ok (val, l) =>
      if negb (l =? expectedLen)
      then Err (ErrorString "inconsistent transport parameter length for transport parameter %#x" [paramID])
      else if paramID =? initialMaxStreamDataBidiLocalParameterID then Ok (set_bidiLocal p (i64 val))
      else if paramID =? initialMaxStreamDataBidiRemoteParameterID then Ok (set_bidiRemote p (i64 val))
      else if paramID =? initialMaxStreamDataUniParameterID then Ok (set_uni p (i64 val))
      else if paramID =? initialMaxDataParameterID then Ok (set_maxData p (i64 val))
      else if paramID =? initialMaxStreamsBidiParameterID then
        if MaxStreamCount <? i64 val
        then Err (ErrorString "initial_max_streams_bidi too large: %d (maximum %d)" [i64 val; MaxStreamCount])
        else Ok (set_maxBidi p (i64 val))
      else if paramID =? initialMaxStreamsUniParameterID then
        if MaxStreamCount <? i64 val
        then Err (ErrorString "initial_max_streams_uni too large: %d (maximum %d)" [i64 val; MaxStreamCount])
        else Ok (set_maxUni p (i64 val))
      else if paramID =? maxIdleTimeoutParameterID then
        Ok (set_maxIdle p (Z.max MinRemoteIdleTimeout (i64 (i64 val * millisecond))))
      else if paramID =? maxUDPPayloadSizeParameterID then
        if val <? 1200 then Err (ErrorString "invalid value for max_udp_payload_size: %d (minimum 1200)" [val])
        else Ok (set_maxUDP p (i64 val))
      else if paramID =? ackDelayExponentParameterID then
        if MaxAckDelayExponent <? val
        then Err (ErrorString "invalid value for ack_delay_exponent: %d (maximum %d)" [val; MaxAckDelayExponent])
        else Ok (set_ackDelayExponent p (u8 val))
      else if paramID =? maxAckDelayParameterID then
        if MaxMaxAckDelay / millisecond <? val
        then Err (ErrorString "invalid value for max_ack_delay: %dms (maximum %dms)" [val; MaxMaxAckDelay / millisecond])
        else Ok (set_maxAckDelay p (i64 (i64 val * millisecond)))
      else if paramID =? activeConnectionIDLimitParameterID then
        if val <? 2 then Err (ErrorString "invalid value for active_connection_id_limit: %d (minimum 2)" [val])
        else Ok (set_activeLimit p val)
      else if paramID =? maxDatagramFrameSizeParameterID then Ok (set_maxDatagram p (i64 val))
      else Err (ErrorString "TransportParameter BUG: transport parameter %d not found" [paramID])
  end.

Definition readPreferredAddress p (b : list byte) (expectedLen : Z) : res TransportParameters :=
  let remainingLen := len b in
  if len b <? 4 + 2 + 16 + 2 + 1 then Err io_EOF else
  ipv4 ← slice_to b 4;
  rest ← slice_from b 4;
  port4 ← slice_to rest 2;
  b ← slice_from b (4 + 2);
  ipv6 ← slice_to b 16;
  rest ← slice_from b 16;
  port6 ← slice_to rest 2;
  b ← slice_from b (16 + 2);
  c ← idx b 0;
  let connIDLen := b2z c in
  b ← slice_from b 1;
  if (connIDLen =? 0) || (MaxConnIDLen <? connIDLen)
  then Err (ErrorString "invalid connection ID length: %d" [connIDLen]) else
  if len b <? connIDLen + 16 then Err io_EOF else
  id ← slice_to b connIDLen;
  connID ← ParseConnectionID id;
  b ← slice_from b connIDLen;
  token ← slice_to b 16;
  b ← slice_from b 16;
  let bytesRead := remainingLen - len b in
  if negb (bytesRead =? expectedLen)
  then Err (ErrorString "expected preferred_address to be %d long, read %d bytes" [expectedLen; bytesRead])
  else Ok (set_preferredAddress p (Some (mkPreferredAddress (mkAddrPort ipv4 (be_value port4)) (mkAddrPort ipv6 (be_value port6)) connID token))).

(** The variables of the loop. *)
Record unmarshaling := mkUn {
  params : TransportParameters;
  parameterIDs : list Z;
  readOriginalDestinationConnectionID : bool;
  readInitialSourceConnectionID : bool;
  readActiveConnectionIDLimit : bool;
}.
Implicit Types (u : unmarshaling).

Definition set_params u p : unmarshaling :=
  mkUn p (parameterIDs u) (readOriginalDestinationConnectionID u) (readInitialSourceConnectionID u) (readActiveConnectionIDLimit u).

Definition numericIDs : list Z :=
  [maxIdleTimeoutParameterID; maxUDPPayloadSizeParameterID; initialMaxDataParameterID;
   initialMaxStreamDataBidiLocalParameterID; initialMaxStreamDataBidiRemoteParameterID;
   initialMaxStreamDataUniParameterID; initialMaxStreamsBidiParameterID; initialMaxStreamsUniParameterID;
   maxAckDelayParameterID; maxDatagramFrameSizeParameterID; ackDelayExponentParameterID].

(** A connection ID of the given length. *)
Definition readConnectionID (b : list byte) (paramLen : Z) : res (list byte) :=
  if MaxConnIDLen <? paramLen then Err ErrInvalidConnectionIDLen
  else id ← slice_to b paramLen; ParseConnectionID id.

(** The switch over the parameters; the parameter is at the start of [b]. *)
Definition readParameter u (b : list byte) (sentBy : Perspective) (paramID paramLen : Z) : res (unmarshaling * list byte) :=
  let p := params u in
  if paramID =? activeConnectionIDLimitParameterID then
    p ← readNumericTransportParameter p b paramID paramLen; b ← slice_from b paramLen;
    Ok (mkUn p (parameterIDs u) (readOriginalDestinationConnectionID u) (readInitialSourceConnectionID u) true, b)
  else if bool_decide (paramID ∈ numericIDs) then
    p ← readNumericTransportParameter p b paramID paramLen; b ← slice_from b paramLen; Ok (set_params u p, b)
  else if paramID =? preferredAddressParameterID then
    if decide (sentBy = PerspectiveClient) then Err (ErrorString "client sent a preferred_address" []) else
    p ← readPreferredAddress p b paramLen; b ← slice_from b paramLen; Ok (set_params u p, b)
  else if paramID =? disableActiveMigrationParameterID then
    if negb (paramLen =? 0)
    then Err (ErrorString "wrong length for disable_active_migration: %d (expected empty)" [paramLen])
    else Ok (set_params u (set_disableMigration p true), b)
  else if paramID =? statelessResetTokenParameterID then
    if decide (sentBy = PerspectiveClient) then Err (ErrorString "client sent a stateless_reset_token" []) else
    if negb (paramLen =? 16) then Err (ErrorString "wrong length for stateless_reset_token: %d (expected 16)" [paramLen]) else
    if len b <? 16 then Err io_EOF else
    token ← slice_to b 16; b ← slice_from b 16; Ok (set_params u (set_resetToken p (Some token)), b)
  else if paramID =? originalDestinationConnectionIDParameterID then
    if decide (sentBy = PerspectiveClient) then Err (ErrorString "client sent an original_destination_connection_id" []) else
    id ← readConnectionID b paramLen; b ← slice_from b paramLen;
    Ok (mkUn (set_odcid p id) (parameterIDs u) true (readInitialSourceConnectionID u) (readActiveConnectionIDLimit u), b)
  else if paramID =? initialSourceConnectionIDParameterID then
    id ← readConnectionID b paramLen; b ← slice_from b paramLen;
    Ok (mkUn (set_iscid p id) (parameterIDs u) (readOriginalDestinationConnectionID u) true (readActiveConnectionIDLimit u), b)
  else if paramID =? retrySourceConnectionIDParameterID then
    if decide (sentBy = PerspectiveClient) then Err (ErrorString "client sent a retry_source_connection_id" []) else
    id ← readConnectionID b paramLen; b ← slice_from b paramLen; Ok (set_params u (set_rscid p (Some id)), b)
  else b ← slice_from b paramLen; Ok (u, b).

(** One iteration: the identifier and the length, then the parameter. *)
Definition unmarshalNext u (b : list byte) (sentBy : Perspective) : res (unmarshaling * list byte) :=
  '(paramID, l) ← Parse b;
  b ← slice_from b l;
  '(paramLen, l) ← Parse b;
  b ← slice_from b l;
  if len b <? paramLen
  then Err (ErrorString "remaining length (%d) smaller than parameter length (%d)" [len b; paramLen]) else
  let u := mkUn (params u) (parameterIDs u ++ [paramID]) (readOriginalDestinationConnectionID u)
             (readInitialSourceConnectionID u) (readActiveConnectionIDLimit u) in
  readParameter u b sentBy paramID paramLen.

Fixpoint unmarshalLoop (fuel : nat) u (b : list byte) (sentBy : Perspective) : res unmarshaling :=
  match b, fuel with
  | [], _ => Ok u
  | _, O => Panic   (* never reached with a byte of fuel for every byte of [b] *)
  | _, S fuel => '(u, b) ← unmarshalNext u b sentBy; unmarshalLoop fuel u b sentBy
  end.

(** The first identifier of the sorted list that is followed by the same one. *)
Fixpoint firstDuplicate (ids : list Z) : option Z :=
  match ids with
  | a :: ((b :: _) as rest) => if a =? b then Some a else firstDuplicate rest
  | _ => None
  end.

Definition unmarshal p (b : list byte) (sentBy : Perspective) (fromSessionTicket : bool) : res TransportParameters :=
  let p := set_maxDatagram (set_maxAckDelay (set_ackDelayExponent p DefaultAckDelayExponent) DefaultMaxAckDelay) InvalidByteCount in
  u ← unmarshalLoop (length b) (mkUn p [] false false false) b sentBy;
  let p := params u in
  let p := if readActiveConnectionIDLimit u then p else set_activeLimit p DefaultActiveConnectionIDLimit in
  p ← (if negb fromSessionTicket then
         if bool_decide (sentBy = PerspectiveServer) && negb (readOriginalDestinationConnectionID u)
         then Err (ErrorString "missing original_destination_connection_id" []) else
         let p := if MaxUDPPayloadSize p =? 0 then set_maxUDP p MaxByteCount else p in
         if negb (readInitialSourceConnectionID u) then Err (ErrorString "missing initial_source_connection_id" []) else Ok p
       else Ok p);
  match firstDuplicate (merge_sort Z.le (parameterIDs u)) with
  | Some id => Err (ErrorString "received duplicate transport parameter %#x" [id])
  | None => Ok p
  end.

Definition Unmarshal p (data : list byte) (sentBy : Perspective) : res TransportParameters :=
  match unmarshal p data sentBy false with
  | Err err => Err (TransportError TransportParameterError 0 err)
  | r => r
  end.

Definition UnmarshalFromSessionTicket p (b : list byte) : res TransportParameters :=
  '(version, l) ← Parse b;
  if negb (version =? transportParameterMarshalingVersion)
  then Err (ErrorString "unknown transport parameter marshaling version: %d" [version]) else
  b ← slice_from b l;
  unmarshal p b PerspectiveServer true.

(** ** Serialization *)
Definition marshalVarintParam (b : list byte) (id val : Z) : res (list byte) :=
  b ← Append b id;
  l ← Len val;
  b ← Append b (u64 l);
  Append b val.

(** An identifier, the length and the bytes of a parameter. *)
Definition appendParam (b : list byte) (id : Z) (body : list byte) : res (list byte) :=
  b ← Append b id;
  b ← Append b (u64 (len body));
  Ok (b ++ body).

Definition As4 (a : list byte) : res (list byte) :=
  if len a =? 4 then Ok a
  else if bool_decide (len a = 16 ∧ take 12 a = replicate 10 x00 ++ [xff; xff]) then Ok (drop 12 a)
  else Panic.

Definition As16 (a : list byte) : list byte :=
  if len a =? 16 then a else if len a =? 4 then replicate 10 x00 ++ [xff; xff] ++ a else replicate 16 x00.

Definition marshalPreferredAddress (b : list byte) (pa : PreferredAddress) : res (list byte) :=
  b ← Append b preferredAddressParameterID;
  b ← Append b (4 + 2 + 16 + 2 + 1 + u64 (len (PA_ConnectionID pa)) + 16);
  ip4 ← As4 (Addr (IPv4 pa));
  Ok (b ++ ip4 ++ be_bytes 2 (Port (IPv4 pa)) ++ As16 (Addr (IPv6 pa)) ++ be_bytes 2 (Port (IPv6 pa)) ++
      [z2b (len (PA_ConnectionID pa))] ++ PA_ConnectionID pa ++ PA_StatelessResetToken pa).

Definition marshalServerParams (b : list byte) p : res (list byte) :=
  b ← (match StatelessResetToken p with
       | Some token =>
           b ← Append b statelessResetTokenParameterID; b ← Append b 16; Ok (b ++ token)
       | None => Ok b
       end);
  b ← appendParam b originalDestinationConnectionIDParameterID (OriginalDestinationConnectionID p);
  match PreferredAddress_ p with
  | Some pa => marshalPreferredAddress b pa
  | None => Ok b
  end.

(** A greased parameter from 18 random bytes. *)
Definition grease (random : list byte) : res (list byte) :=
  r0 ← idx random 0;
  b ← Append [] (27 + 31 * b2z r0);
  r1 ← idx random 1;
  let length := b2z r1 mod 16 in
  b ← Append b length;
  r ← slice_to random (2 + length);
  r ← slice_from r 2;
  Ok (b ++ r).

Fixpoint appendParams (b : list byte) (l : list (Z * list byte)) : res (list byte) :=
  match l with
  | [] => Ok b
  | (k, v) :: l => b ← appendParam b k v; appendParams b l
  end.

Definition marshalLimits (b : list byte) p : res (list byte) :=
  b ← marshalVarintParam b initialMaxStreamDataBidiLocalParameterID (u64 (InitialMaxStreamDataBidiLocal p));
  b ← marshalVarintParam b initialMaxStreamDataBidiRemoteParameterID (u64 (InitialMaxStreamDataBidiRemote p));
  b ← marshalVarintParam b initialMaxStreamDataUniParameterID (u64 (InitialMaxStreamDataUni p));
  b ← marshalVarintParam b initialMaxDataParameterID (u64 (InitialMaxData p));
  b ← marshalVarintParam b initialMaxStreamsBidiParameterID (u64 (MaxBidiStreamNum p));
  marshalVarintParam b initialMaxStreamsUniParameterID (u64 (MaxUniStreamNum p)).

Definition Marshal p (pers : Perspective) (random : list byte) (additional : list (Z * list byte)) : res (list byte) :=
  match ClientOverride p with
  | Some b => Ok b
  | None =>
      b ← grease random;
      b ← marshalLimits b p;
      b ← marshalVarintParam b maxIdleTimeoutParameterID (u64 (Z.quot (MaxIdleTimeout p) millisecond));
      b ← (if 0 <? MaxUDPPayloadSize p then marshalVarintParam b maxUDPPayloadSizeParameterID (u64 (MaxUDPPayloadSize p)) else Ok b);
      b ← (if negb (MaxAckDelay p =? DefaultMaxAckDelay)
           then marshalVarintParam b maxAckDelayParameterID (u64 (Z.quot (MaxAckDelay p) millisecond)) else Ok b);
      b ← (if negb (AckDelayExponent p =? DefaultAckDelayExponent)
           then marshalVarintParam b ackDelayExponentParameterID (u64 (AckDelayExponent p)) else Ok b);
      b ← (if DisableActiveMigration p
           then b ← Append b disableActiveMigrationParameterID; Append b 0 else Ok b);
      b ← (if decide (pers = PerspectiveServer) then marshalServerParams b p else Ok b);
      b ← (if negb (ActiveConnectionIDLimit p =? DefaultActiveConnectionIDLimit)
           then marshalVarintParam b activeConnectionIDLimitParameterID (ActiveConnectionIDLimit p) else Ok b);
      b ← appendParam b initialSourceConnectionIDParameterID (InitialSourceConnectionID p);
      b ← (match RetrySourceConnectionID p with
           | Some id => if decide (pers = PerspectiveServer) then appendParam b retrySourceConnectionIDParameterID id else Ok b
           | None => Ok b
           end);
      b ← (if negb (MaxDatagramFrameSize p =? InvalidByteCount)
           then marshalVarintParam b maxDatagramFrameSizeParameterID (u64 (MaxDatagramFrameSize p)) else Ok b);
      if decide (pers = PerspectiveClient) then appendParams b additional else Ok b
  end.

Definition MarshalForSessionTicket p (b : list byte) : res (list byte) :=
  match ClientOverride p with
  | Some b => Ok b
  | None =>
      b ← Append b transportParameterMarshalingVersion;
      b ← marshalLimits b p;
      b ← (if negb (MaxDatagramFrameSize p =? InvalidByteCount)
           then marshalVarintParam b maxDatagramFrameSizeParameterID (u64 (MaxDatagramFrameSize p)) else Ok b);
      marshalVarintParam b activeConnectionIDLimitParameterID (ActiveConnectionIDLimit p)
  end.

(** ** 0-RTT *)
Definition datagramReduced p (saved : TransportParameters) : bool :=
  negb (MaxDatagramFrameSize saved =? InvalidByteCount) &&
  ((MaxDatagramFrameSize p =? InvalidByteCount) || (MaxDatagramFrameSize p <? MaxDatagramFrameSize saved)).

Definition ValidFor0RTT p (saved : TransportParameters) : bool :=
  if datagramReduced p saved then false
  else (InitialMaxStreamDataBidiLocal saved <=? InitialMaxStreamDataBidiLocal p) &&
       (InitialMaxStreamDataBidiRemote saved <=? InitialMaxStreamDataBidiRemote p) &&
       (InitialMaxStreamDataUni saved <=? InitialMaxStreamDataUni p) &&
       (InitialMaxData saved <=? InitialMaxData p) &&
       (MaxBidiStreamNum saved <=? MaxBidiStreamNum p) &&
       (MaxUniStreamNum saved <=? MaxUniStreamNum p) &&
       (ActiveConnectionIDLimit p =? ActiveConnectionIDLimit saved).

Definition ValidForUpdate p (saved : TransportParameters) : bool :=
  if datagramReduced p saved then false
  else (ActiveConnectionIDLimit saved <=? ActiveConnectionIDLimit p) &&
       (InitialMaxData saved <=? InitialMaxData p) &&
       (InitialMaxStreamDataBidiLocal saved <=? InitialMaxStreamDataBidiLocal p) &&
       (InitialMaxStreamDataBidiRemote saved <=? InitialMaxStreamDataBidiRemote p) &&
       (InitialMaxStreamDataUni saved <=? InitialMaxStreamDataUni p) &&
       (MaxBidiStreamNum saved <=? MaxBidiStreamNum p) &&
       (MaxUniStreamNum saved <=? MaxUniStreamNum p).

(** ** Safety of the parser *)
Definition address_ok (pa : PreferredAddress) : Prop :=
  len (Addr (IPv4 pa)) = 4 ∧ 0 ≤ Port (IPv4 pa) < 2 ^ 16 ∧ len (Addr (IPv6 pa)) = 16 ∧ 0 ≤ Port (IPv6 pa) < 2 ^ 16 ∧
  0 < len (PA_ConnectionID pa) ≤ MaxConnIDLen ∧ len (PA_StatelessResetToken pa) = 16.

(** The values that the parser lets through. *)
Record received_ok p : Prop := {
  r_bidiLocal : is_varint (InitialMaxStreamDataBidiLocal p);
  r_bidiRemote : is_varint (InitialMaxStreamDataBidiRemote p);
  r_uni : is_varint (InitialMaxStreamDataUni p);
  r_maxData : is_varint (InitialMaxData p);
  r_maxBidi : 0 ≤ MaxBidiStreamNum p ≤ MaxStreamCount;
  r_maxUni : 0 ≤ MaxUniStreamNum p ≤ MaxStreamCount;
  r_idle : MaxIdleTimeout p = 0 ∨ MinRemoteIdleTimeout ≤ MaxIdleTimeout p < 2 ^ 63;
  r_udp : MaxUDPPayloadSize p = 0 ∨ 1200 ≤ MaxUDPPayloadSize p ≤ maxVarInt8;
  r_exponent : 0 ≤ AckDelayExponent p ≤ MaxAckDelayExponent;
  r_ackDelay : 0 ≤ MaxAckDelay p ≤ MaxMaxAckDelay;
  r_activeLimit : ActiveConnectionIDLimit p = 0 ∨ 2 ≤ ActiveConnectionIDLimit p ≤ maxVarInt8;
  r_datagram : MaxDatagramFrameSize p = InvalidByteCount ∨ is_varint (MaxDatagramFrameSize p);
  r_odcid : len (OriginalDestinationConnectionID p) ≤ MaxConnIDLen;
  r_iscid : len (InitialSourceConnectionID p) ≤ MaxConnIDLen;
  r_rscid id : RetrySourceConnectionID p = Some id → len id ≤ MaxConnIDLen;
  r_token token : StatelessResetToken p = Some token → len token = 16;
  r_address pa : PreferredAddress_ p = Some pa → address_ok pa;
}.

(** [field_ok]: an update of one field keeps [received_ok]. *)
Ltac field_ok := intros []; intros; split; simpl; try done.

Lemma i64_range x : - 2 ^ 63 ≤ i64 x < 2 ^ 63.
Proof. unfold i64. dmlia. Qed.

Lemma numeric_wp p b id n : received_ok p → wp (readNumericTransportParameter p b id n) received_ok.
Proof.
  intros Hp. unfold readNumericTransportParameter. pose proof (Parse_no_panic b) as Hnp. destruct (Parse b) as [[val l]|e|] eqn:E; [|done|done].
  pose proof (wp_Parse b (λ r, is_varint r.1) ltac:(done)) as Hv. rewrite E in Hv. simpl in Hv. clear E Hnp.
  pose proof (i64_range (val * millisecond)). pose proof (i64_varint val Hv) as Ei.
  zcase; cbn [negb]; [|done]. rewrite Ei. unfold is_varint, maxVarInt8, MaxAckDelayExponent in *.
  assert (MaxMaxAckDelay / millisecond = 16383) as EM by done. rewrite EM.
  repeat zcase; try done; revert Hp; field_ok; unfold is_varint, maxVarInt8, MaxAckDelayExponent; try (right; lia || done); try lia.
  - right. unfold MinRemoteIdleTimeout, millisecond in *. lia.
  - rewrite u8_small by lia. lia.
  - unfold MaxMaxAckDelay, millisecond in *. rewrite i64_small by lia. lia.
Qed.

Lemma preferredAddress_wp p b n : received_ok p → wp (readPreferredAddress p b n) received_ok.
Proof.
  intros Hp. unfold readPreferredAddress. zcase; [done|].
  apply wp_bind, wp_slice_to; [lia|]. intros ip4 Hip4 _. apply wp_bind, wp_slice_from; [lia|]. intros r1 Hr1 _.
  apply wp_bind, wp_slice_to; [lia|]. intros port4 Hport4 _. apply wp_bind, wp_slice_from; [lia|]. intros b1 Hb1 _.
  apply wp_bind, wp_slice_to; [lia|]. intros ip6 Hip6 _. apply wp_bind, wp_slice_from; [lia|]. intros r2 Hr2 _.
  apply wp_bind, wp_slice_to; [lia|]. intros port6 Hport6 _. apply wp_bind, wp_slice_from; [lia|]. intros b2 Hb2 _.
  apply wp_bind, wp_idx; [lia|]. intros c _. apply wp_bind, wp_slice_from; [lia|]. intros b3 Hb3 _.
  pose proof (b2z_range c). destruct (Z.eqb_spec (b2z c) 0), (Z.ltb_spec MaxConnIDLen (b2z c)); cbn [orb]; try done.
  zcase; [done|]. apply wp_bind, wp_slice_to; [lia|]. intros id Hid _. unfold ParseConnectionID, maxConnectionIDLen, MaxConnIDLen in *.
  apply wp_bind. rewrite (proj2 (Z.ltb_ge _ _)) by lia. apply wp_ok. apply wp_bind, wp_slice_from; [lia|]. intros b4 Hb4 _.
  apply wp_bind, wp_slice_to; [lia|]. intros token Ht _. apply wp_bind, wp_slice_from; [lia|]. intros b5 Hb5 _.
  zcase; cbn [negb]; [|done]. revert Hp; field_ok. intros pa [= <-]. unfold address_ok. simpl.
  pose proof (be_value_range port4) as H4. pose proof (be_value_range port6) as H6. rewrite Hport4 in H4. rewrite Hport6 in H6.
  unfold MaxConnIDLen. split_and!; try lia.
Qed.

Lemma connectionID_wp b n : 0 ≤ n ≤ len b → wp (readConnectionID b n) (λ id, len id ≤ MaxConnIDLen).
Proof.
  intros Hn. unfold readConnectionID, ParseConnectionID, maxConnectionIDLen, MaxConnIDLen. zcase; [done|].
  apply wp_bind, wp_slice_to; [lia|]. intros id Hid _. rewrite (proj2 (Z.ltb_ge _ _)) by lia. apply wp_ok. lia.
Qed.

(** The state of the loop; [b'] is what is left of [b]. *)
Definition un_ok u (b : list byte) (r : unmarshaling * list byte) : Prop :=
  received_ok (params r.1) ∧ len r.2 ≤ len b ∧ parameterIDs r.1 = parameterIDs u ∧
  (readActiveConnectionIDLimit r.1 = readActiveConnectionIDLimit u ∧ ActiveConnectionIDLimit (params r.1) = ActiveConnectionIDLimit (params u) ∨
   readActiveConnectionIDLimit r.1 = true ∧ 2 ≤ ActiveConnectionIDLimit (params r.1)).

Lemma activeLimit_wp p b n :
  received_ok p → wp (readNumericTransportParameter p b activeConnectionIDLimitParameterID n) (λ p', received_ok p' ∧ 2 ≤ ActiveConnectionIDLimit p').
Proof.
  intros Hp. pose proof (numeric_wp p b activeConnectionIDLimitParameterID n Hp) as Hw. revert Hw. unfold readNumericTransportParameter.
  destruct (Parse b) as [[val l]|e|]; [|done|done]. zcase; cbn [negb]; [|done]. cbn -[Z.ltb wp]. zcase; [done|]. cbn. done.
Qed.

Lemma numeric_keeps_limit p b id n p' :
  id ≠ activeConnectionIDLimitParameterID → readNumericTransportParameter p b id n = Ok p' → ActiveConnectionIDLimit p' = ActiveConnectionIDLimit p.
Proof.
  intros Hid. unfold readNumericTransportParameter. destruct (Parse b) as [[val l]|e|]; [|done|done].
  repeat (zcase; cbn [negb]); try done; intros [= <-]; done.
Qed.

Lemma readParameter_wp u b sentBy id n :
  received_ok (params u) → 0 ≤ n ≤ len b → wp (readParameter u b sentBy id n) (un_ok u b).
Proof.
  intros Hu Hn. unfold readParameter.
  assert (∀ (k : list byte → res (unmarshaling * list byte)), (∀ b', len b' = len b - n → wp (k b') (un_ok u b)) →
    wp (slice_from b n ≫= k) (un_ok u b)) as Hcut.
  { intros k Hk. apply wp_bind, wp_slice_from; [lia|]. intros b' Hb' _. by apply Hk. }
  zcase.
  { subst. apply wp_bind. eapply wp_mono; [by apply activeLimit_wp|]. intros p' [Hp' Hl]. apply Hcut. intros b' Hb'.
    split_and!; simpl; [done|lia|done|by right]. }
  case_bool_decide.
  { pose proof (numeric_wp (params u) b id n Hu) as Hw. pose proof (numeric_keeps_limit (params u) b id n) as Hk.
    destruct (readNumericTransportParameter _ _ _ _) as [p'|e|]; [|done|done]. apply Hcut. intros b' Hb'.
    split_and!; simpl; [done|lia|done|left; split; [done|by apply Hk]]. }
  zcase.
  { case_decide; [done|]. pose proof (preferredAddress_wp (params u) b n Hu) as Hw.
    destruct (readPreferredAddress _ _ _) as [p'|err|] eqn:E; [|done|done]. apply Hcut. intros b' Hb'.
    split_and!; simpl; [done|lia|done|left; split; [done|]]. unfold readPreferredAddress in E. by res_cases. }
  zcase.
  { zcase; cbn [negb]; [|done]. split_and!; simpl; [|lia|done|by left]. revert Hu. by field_ok. }
  zcase.
  { case_decide; [done|]. zcase; cbn [negb]; [|done]. zcase. apply wp_bind, wp_slice_to; [lia|]. intros t Ht _.
    apply wp_bind, wp_slice_from; [lia|]. intros b' Hb' _. split_and!; simpl; [|lia|done|by left].
    revert Hu. field_ok. by intros token [= <-]. }
  assert (∀ (k : list byte → res (unmarshaling * list byte)), (∀ c, len c ≤ MaxConnIDLen → wp (k c) (un_ok u b)) →
    wp (readConnectionID b n ≫= k) (un_ok u b)) as Hconn.
  { intros k Hk. apply wp_bind. eapply wp_mono; [by apply connectionID_wp|done]. }
  zcase.
  { case_decide; [done|]. apply Hconn. intros c Hc. apply Hcut. intros b' Hb'. split_and!; simpl; [|lia|done|by left]. revert Hu. by field_ok. }
  zcase.
  { apply Hconn. intros c Hc. apply Hcut. intros b' Hb'. split_and!; simpl; [|lia|done|by left]. revert Hu. by field_ok. }
  zcase.
  { case_decide; [done|]. apply Hconn. intros c Hc. apply Hcut. intros b' Hb'. split_and!; simpl; [|lia|done|by left]. revert Hu. field_ok. by intros ? [= <-]. }
  apply Hcut. intros b' Hb'. split_and!; simpl; [done|lia|done|by left].
Qed.

Lemma unmarshalNext_wp u b sentBy :
  received_ok (params u) →
  wp (unmarshalNext u b sentBy) (λ r,
    len r.2 < len b ∧ received_ok (params r.1) ∧ (∃ id, parameterIDs r.1 = parameterIDs u ++ [id]) ∧
    (readActiveConnectionIDLimit r.1 = readActiveConnectionIDLimit u ∧ ActiveConnectionIDLimit (params r.1) = ActiveConnectionIDLimit (params u) ∨
     readActiveConnectionIDLimit r.1 = true ∧ 2 ≤ ActiveConnectionIDLimit (params r.1))).
Proof.
  intros Hu. unfold unmarshalNext. apply wp_bind, wp_Parse. intros id l Hid Hl _. apply wp_bind, wp_slice_from; [lia|].
  intros b1 Hb1 _. apply wp_bind, wp_Parse. intros n l2 Hn Hl2 _. apply wp_bind, wp_slice_from; [lia|]. intros b2 Hb2 _.
  zcase; [done|]. unfold is_varint in *. eapply wp_mono; [apply readParameter_wp; [done|lia]|].
  intros r (Hr & Hlen & Hids & Hlim). split_and!; [lia|done|by eexists|done].
Qed.

(** The fuel is enough: every iteration consumes a byte. *)
Lemma unmarshalLoop_wp fuel u b sentBy :
  (length b ≤ fuel)%nat → received_ok (params u) → (readActiveConnectionIDLimit u = true → 2 ≤ ActiveConnectionIDLimit (params u)) →
  wp (unmarshalLoop fuel u b sentBy) (λ u', received_ok (params u') ∧
    (readActiveConnectionIDLimit u' = true → 2 ≤ ActiveConnectionIDLimit (params u'))).
Proof.
  revert u b. induction fuel as [|fuel IH]; intros u b Hf Hu Hl; destruct b as [|c b]; try done; [simpl in Hf; lia|].
  cbn [unmarshalLoop]. apply wp_bind. eapply wp_mono; [by apply unmarshalNext_wp|]. intros [u' b'] (Hlen & Hu' & _ & Hl').
  cbn [fst snd] in *. apply IH; [unfold len in Hlen; simpl in *; lia|done|]. intros E.
  destruct Hl' as [[E1 ->]|[_ ?]]; [|done]. apply Hl. congruence.
Qed.

(** A list that is sorted has a duplicate exactly if two neighbours are equal. *)
Lemma firstDuplicate_spec ids : StronglySorted Z.le ids → firstDuplicate ids = None ↔ NoDup ids.
Proof.
  induction 1 as [|a ids Hs IH Ha]; [by split; [constructor|]|]. destruct ids as [|b rest].
  { split; [intros _; apply NoDup_singleton|done]. }
  change (firstDuplicate (a :: b :: rest)) with (if a =? b then Some a else firstDuplicate (b :: rest)).
  apply Forall_cons in Ha as [Hab Ha]. zcase.
  - subst. split; [done|]. intros Hn. apply NoDup_cons in Hn as [Hn _]. set_solver.
  - rewrite IH, (NoDup_cons a). split; [|by intros [_ ?]]. intros Hn. split; [|done].
    intros [|Hin]%elem_of_cons; [done|]. apply StronglySorted_inv in Hs as [_ Hb]. rewrite Forall_forall in Hb, Ha.
    specialize (Hb _ Hin). lia.
Qed.

Lemma duplicates_found ids : firstDuplicate (merge_sort Z.le ids) = None ↔ NoDup ids.
Proof.
  rewrite firstDuplicate_spec; [by rewrite merge_sort_Permutation|]. apply StronglySorted_merge_sort; apply _.
Qed.

Lemma zero_ok : received_ok (set_maxDatagram (set_maxAckDelay (set_ackDelayExponent zeroParams DefaultAckDelayExponent) DefaultMaxAckDelay) InvalidByteCount).
Proof. split; simpl; try done; try (by left); try lia. Qed.

(** C19: the parser of the transport parameters is safe: on every input it terminates, and
    it never indexes outside of the input; the parameters that it accepts are within the
    limits of the protocol, none of them was sent twice, and the errors that it returns
    are TRANSPORT_PARAMETER_ERRORs. *)
Theorem transport_parameters_safe b sentBy :
  match Unmarshal zeroParams b sentBy with
  | Ok p => received_ok p ∧ 2 ≤ ActiveConnectionIDLimit p ∧ 1200 ≤ MaxUDPPayloadSize p ∧
      ∃ u, unmarshalLoop (length b) (mkUn (set_maxDatagram (set_maxAckDelay (set_ackDelayExponent zeroParams DefaultAckDelayExponent)
             DefaultMaxAckDelay) InvalidByteCount) [] false false false) b sentBy = Ok u ∧ NoDup (parameterIDs u)
  | Err e => ∃ e', e = TransportError TransportParameterError 0 e'
  | Panic => False
  end.
Proof.
  unfold Unmarshal, unmarshal. set (u0 := mkUn _ _ _ _ _).
  pose proof (unmarshalLoop_wp (length b) u0 b sentBy ltac:(lia) zero_ok ltac:(done)) as Hw.
  destruct (unmarshalLoop (length b) u0 b sentBy) as [u|e|]; cbn; [|by eexists|done]. destruct Hw as [Hr Hl].
  set (p1 := if readActiveConnectionIDLimit u then _ else _).
  assert (received_ok p1 ∧ 2 ≤ ActiveConnectionIDLimit p1) as [Hr1 Hl1].
  { subst p1. destruct (readActiveConnectionIDLimit u); [by split; [|apply Hl]|]. split; [|done]. revert Hr. field_ok. by right. }
  clearbody p1. destruct (bool_decide _ && _); cbn; [by eexists|]. destruct (readInitialSourceConnectionID u); cbn; [|by eexists].
  set (p2 := if MaxUDPPayloadSize p1 =? 0 then _ else _).
  assert (received_ok p2 ∧ 2 ≤ ActiveConnectionIDLimit p2 ∧ 1200 ≤ MaxUDPPayloadSize p2) as (Hr2 & Hl2 & Hu2).
  { subst p2. pose proof (r_udp _ Hr1). zcase; [|split_and!; [done..|lia]]. split_and!; [|done|done].
    revert Hr1. field_ok. right. unfold MaxByteCount, maxVarInt8. lia. }
  pose proof (duplicates_found (parameterIDs u)) as Hd. destruct (firstDuplicate _); cbn; [by eexists|].
  split_and!; [done..|]. exists u. split; [done|]. by apply Hd.
Qed.

(** ** Round trip *)
Definition penc (id : Z) (body : list byte) : list byte := venc id ++ venc (len body) ++ body.

Definition push_id u (id : Z) : unmarshaling :=
  mkUn (params u) (parameterIDs u ++ [id]) (readOriginalDestinationConnectionID u)
    (readInitialSourceConnectionID u) (readActiveConnectionIDLimit u).

Section reads.
Context (s : Perspective).

Definition unm u (b : list byte) : res unmarshaling := unmarshalLoop (length b) u b s.

Lemma loop_fuel f1 : ∀ f2 u b,
  received_ok (params u) → (length b ≤ f1)%nat → (length b ≤ f2)%nat → unmarshalLoop f1 u b s = unmarshalLoop f2 u b s.
Proof.
  induction f1 as [|f1 IH]; intros [|f2] u [|c b] Hu H1 H2; simpl in H1, H2; try lia; try done.
  cbn [unmarshalLoop]. pose proof (unmarshalNext_wp u (c :: b) s Hu) as Hw.
  destruct (unmarshalNext u (c :: b) s) as [[u' b']|e|]; [|done|done]. cbn in Hw |- *. destruct Hw as (Hlen & Hu' & _).
  unfold len in Hlen. simpl in Hlen. apply IH; [done|lia|lia].
Qed.

(** Reading [b] takes the loop from [u] to [u']. *)
Definition reads u b u' : Prop :=
  received_ok (params u) → received_ok (params u') ∧ ∀ rest, unm u (b ++ rest) = unm u' rest.

Lemma reads_nil u : reads u [] u.
Proof. done. Qed.

Lemma reads_app u b u1 b' u2 : reads u b u1 → reads u1 b' u2 → reads u (b ++ b') u2.
Proof.
  intros H1 H2 Hu. destruct (H1 Hu) as [Hu1 E1]. destruct (H2 Hu1) as [Hu2 E2]. split; [done|].
  intros rest. by rewrite <-app_assoc, E1, E2.
Qed.

Lemma reads_param u id body u' :
  is_varint id → is_varint (len body) →
  (∀ rest, readParameter (push_id u id) (body ++ rest) s id (len body) = Ok (u', rest)) → reads u (penc id body) u'.
Proof.
  intros Hid Hb Hr Hu.
  assert (∀ rest, unmarshalNext u (penc id body ++ rest) s = Ok (u', rest)) as Hn.
  { intros rest. unfold unmarshalNext, penc. rewrite <-!app_assoc, Parse_venc by done. cbn [mbind result_bind].
    rewrite slice_from_venc. cbn [mbind result_bind]. rewrite Parse_venc by done. cbn [mbind result_bind].
    rewrite slice_from_venc. cbn [mbind result_bind]. rewrite (proj2 (Z.ltb_ge _ _)) by len_lia. apply Hr. }
  assert (∀ rest, received_ok (params u') ∧ len rest < len (penc id body ++ rest)) as Hw.
  { intros rest. pose proof (unmarshalNext_wp u (penc id body ++ rest) s Hu) as Hw. rewrite Hn in Hw. cbn in Hw. tauto. }
  split; [by destruct (Hw [])|]. intros rest. destruct (Hw rest) as [Hu' Hlen]. unfold unm.
  destruct (length (penc id body ++ rest)) as [|n] eqn:E; [unfold len in Hlen; lia|].
  specialize (Hn rest). destruct (penc id body ++ rest) as [|c b]; [done|]. cbn [unmarshalLoop]. rewrite Hn. cbn [mbind result_bind].
  apply loop_fuel; [done| |done]. unfold len in Hlen. simpl in *. lia.
Qed.

Lemma reads_numeric u id val p' :
  bool_decide (id ∈ numericIDs) = true → is_varint val →
  (∀ rest, readNumericTransportParameter (params u) (venc val ++ rest) id (vlen val) = Ok p') →
  reads u (penc id (venc val)) (set_params (push_id u id) p').
Proof.
  intros Hin%bool_decide_eq_true Hv Hr. assert (is_varint id ∧ id ≠ activeConnectionIDLimitParameterID) as [Hid Hne].
  { unfold numericIDs, is_varint, maxVarInt8 in *. repeat (apply elem_of_cons in Hin as [->|Hin]; [done|]). by apply not_elem_of_nil in Hin. }
  apply reads_param; [done|rewrite len_venc; pose proof (vlen_pos val); unfold is_varint, maxVarInt8; lia|].
  intros rest. unfold readParameter. rewrite (proj2 (Z.eqb_neq _ _)) by done. rewrite bool_decide_eq_true_2 by done.
  rewrite len_venc. cbn [push_id params]. rewrite Hr. cbn [mbind result_bind]. by rewrite slice_from_venc.
Qed.

Definition opt {A} (c : bool) (l : list A) : list A := if c then l else [].

Definition after u p' (c : bool) (id : Z) : unmarshaling :=
  mkUn p' (parameterIDs u ++ opt c [id]) (readOriginalDestinationConnectionID u)
    (readInitialSourceConnectionID u) (readActiveConnectionIDLimit u).

Lemma after_false u p' id : p' = params u → after u p' false id = u.
Proof. intros ->. unfold after, opt. rewrite app_nil_r. by destruct u. Qed.

Lemma reads_opt_numeric (c : bool) u id val p' :
  bool_decide (id ∈ numericIDs) = true → (c = true → is_varint val ∧ ∀ rest, readNumericTransportParameter (params u) (venc val ++ rest) id (vlen val) = Ok p') →
  (c = false → p' = params u) → reads u (opt c (penc id (venc val))) (after u p' c id).
Proof.
  intros Hid Ht Hf. destruct c.
  - destruct (Ht eq_refl) as [Hv Hr]. by apply reads_numeric.
  - rewrite after_false by auto. apply reads_nil.
Qed.

(** The other parameters. *)
Lemma conn_id_ok id rest : len id ≤ MaxConnIDLen → readConnectionID (id ++ rest) (len id) = Ok id.
Proof.
  intros Hl. unfold readConnectionID. rewrite (proj2 (Z.ltb_ge _ _)) by done. rewrite slice_to_app by done. cbn [mbind result_bind].
  unfold ParseConnectionID, maxConnectionIDLen, MaxConnIDLen in *. by rewrite (proj2 (Z.ltb_ge _ _)).
Qed.

Lemma small_varint n : 0 ≤ n ≤ 1000 → is_varint n.
Proof. unfold is_varint, maxVarInt8. lia. Qed.

Lemma reads_iscid u id : len id ≤ MaxConnIDLen →
  reads u (penc initialSourceConnectionIDParameterID id)
    (mkUn (set_iscid (params u) id) (parameterIDs u ++ [initialSourceConnectionIDParameterID]) (readOriginalDestinationConnectionID u) true (readActiveConnectionIDLimit u)).
Proof.
  intros Hl. pose proof (len_nonneg id). apply reads_param; [done|apply small_varint; unfold MaxConnIDLen in *; lia|]. intros rest.
  unfold readParameter. cbn -[readConnectionID slice_from len]. rewrite conn_id_ok by done. cbn [mbind result_bind].
  by rewrite slice_from_app.
Qed.

Lemma reads_odcid u id : s = PerspectiveServer → len id ≤ MaxConnIDLen →
  reads u (penc originalDestinationConnectionIDParameterID id)
    (mkUn (set_odcid (params u) id) (parameterIDs u ++ [originalDestinationConnectionIDParameterID]) true (readInitialSourceConnectionID u) (readActiveConnectionIDLimit u)).
Proof.
  intros Hs Hl. pose proof (len_nonneg id). apply reads_param; [done|apply small_varint; unfold MaxConnIDLen in *; lia|]. intros rest.
  unfold readParameter. cbn -[readConnectionID slice_from len]. rewrite (decide_False (P := s = PerspectiveClient)) by congruence. rewrite conn_id_ok by done. cbn [mbind result_bind].
  by rewrite slice_from_app.
Qed.

Definition is_some {A} (o : option A) : bool := if o is Some _ then true else false.

Lemma reads_rscid u (o : option (list byte)) : s = PerspectiveServer → (∀ id, o = Some id → len id ≤ MaxConnIDLen) → RetrySourceConnectionID (params u) = None →
  reads u (opt (is_some o) (penc retrySourceConnectionIDParameterID (default [] o)))
    (after u (set_rscid (params u) o) (is_some o) retrySourceConnectionIDParameterID).
Proof.
  intros Hs Ho Hn. destruct o as [id|].
  2:{ rewrite after_false; [apply reads_nil|]. destruct (params u); cbn in *; by subst. }
  specialize (Ho id eq_refl). pose proof (len_nonneg id). apply reads_param; [done|apply small_varint; unfold MaxConnIDLen in *; simpl; lia|]. intros rest.
  unfold readParameter. cbn -[readConnectionID slice_from len]. rewrite (decide_False (P := s = PerspectiveClient)) by congruence. rewrite conn_id_ok by done. cbn [mbind result_bind].
  by rewrite slice_from_app.
Qed.

Lemma reads_token u (o : option (list byte)) : s = PerspectiveServer → (∀ t, o = Some t → len t = 16) → StatelessResetToken (params u) = None →
  reads u (opt (is_some o) (penc statelessResetTokenParameterID (default [] o)))
    (after u (set_resetToken (params u) o) (is_some o) statelessResetTokenParameterID).
Proof.
  intros Hs Ho Hn. destruct o as [t|].
  2:{ rewrite after_false; [apply reads_nil|]. destruct (params u); cbn in *; by subst. }
  specialize (Ho t eq_refl). apply reads_param; [done|apply small_varint; simpl; lia|]. intros rest.
  unfold readParameter. change (default [] (Some t)) with t. rewrite Ho. cbn -[slice_from slice_to len decide].
  rewrite (decide_False (P := s = PerspectiveClient)) by congruence.
  rewrite (proj2 (Z.ltb_ge _ _)) by (rewrite len_app; len_lia). rewrite slice_to_app by done. cbn [mbind result_bind]. by rewrite slice_from_app.
Qed.

Lemma reads_migration u (c : bool) : DisableActiveMigration (params u) = false →
  reads u (opt c (penc disableActiveMigrationParameterID [])) (after u (set_disableMigration (params u) c) c disableActiveMigrationParameterID).
Proof.
  intros Hn. destruct c.
  - by apply reads_param.
  - rewrite after_false; [apply reads_nil|]. destruct (params u); cbn in *; by subst.
Qed.

Lemma reads_activeLimit u (c : bool) v : (c = true → 2 ≤ v ≤ maxVarInt8) →
  reads u (opt c (penc activeConnectionIDLimitParameterID (venc v)))
    (mkUn (if c then set_activeLimit (params u) v else params u) (parameterIDs u ++ opt c [activeConnectionIDLimitParameterID])
       (readOriginalDestinationConnectionID u) (readInitialSourceConnectionID u) (c || readActiveConnectionIDLimit u)).
Proof.
  intros Hv. destruct c.
  2:{ cbn. rewrite app_nil_r. destruct u. apply reads_nil. }
  specialize (Hv eq_refl). assert (is_varint v) as Hvar by (unfold is_varint; lia). pose proof (vlen_pos v).
  apply reads_param; [done|rewrite len_venc; apply small_varint; lia|]. intros rest.
  unfold readParameter. cbn -[readNumericTransportParameter slice_from len]. unfold readNumericTransportParameter.
  rewrite Parse_venc, len_venc, Z.eqb_refl by done. cbn -[slice_from Z.ltb]. rewrite (proj2 (Z.ltb_ge _ _)) by lia.
  cbn [mbind result_bind]. by rewrite slice_from_venc.
Qed.

Definition address_bytes (pa : PreferredAddress) : list byte :=
  Addr (IPv4 pa) ++ be_bytes 2 (Port (IPv4 pa)) ++ Addr (IPv6 pa) ++ be_bytes 2 (Port (IPv6 pa)) ++
  [z2b (len (PA_ConnectionID pa))] ++ PA_ConnectionID pa ++ PA_StatelessResetToken pa.

Lemma len_address pa : address_ok pa → len (address_bytes pa) = 41 + len (PA_ConnectionID pa).
Proof.
  intros (H4 & _ & H6 & _ & _ & Ht). unfold address_bytes. rewrite !len_app, !len_be_bytes, H4, H6, Ht. unfold len. simpl. lia.
Qed.

Lemma port_roundtrip n : 0 ≤ n < 2 ^ 16 → be_value (be_bytes 2 n) = n.
Proof. intros. rewrite be_value_be_bytes. apply Z.mod_small. simpl. lia. Qed.

(** [cut_to], [cut_from]: a slice that ends or starts at the boundary of an [app]. *)
Ltac cut_side := rewrite ?len_app, ?len_be_bytes; lia.
Ltac cut_to a n := rewrite (slice_to_app a _ n) by cut_side; cbn [mbind result_bind].
Ltac cut_from a n := rewrite (slice_from_app a _ n) by cut_side; cbn [mbind result_bind].

Lemma readPreferredAddress_ok p pa rest :
  address_ok pa → readPreferredAddress p (address_bytes pa ++ rest) (len (address_bytes pa)) = Ok (set_preferredAddress p (Some pa)).
Proof.
  intros Hok. pose proof (len_address pa Hok) as Hl. destruct Hok as (H4 & Hp4 & H6 & Hp6 & Hc & Ht). destruct pa as [[a4 p4] [a6 p6] cid tok].
  unfold readPreferredAddress. rewrite Hl. cbn [IPv4 IPv6 Addr Port PA_ConnectionID PA_StatelessResetToken] in *.
  assert (len (address_bytes (mkPreferredAddress (mkAddrPort a4 p4) (mkAddrPort a6 p6) cid tok) ++ rest) = 41 + len cid + len rest) as Htot
    by (rewrite len_app, Hl; done).
  rewrite (proj2 (Z.ltb_ge _ _)) by len_lia. unfold address_bytes. cbn [IPv4 IPv6 Addr Port PA_ConnectionID PA_StatelessResetToken].
  rewrite <-!app_assoc. cut_to a4 4. cut_from a4 4. cut_to (be_bytes 2 p4) 2.
  rewrite (app_assoc a4). cut_from (a4 ++ be_bytes 2 p4) (4 + 2). cut_to a6 16. cut_from a6 16. cut_to (be_bytes 2 p6) 2.
  rewrite (app_assoc a6). cut_from (a6 ++ be_bytes 2 p6) (16 + 2). cbn [app]. rewrite idx_cons_0. cbn [mbind result_bind]. rewrite slice_from_cons. cbn [mbind result_bind].
  unfold MaxConnIDLen in *. rewrite b2z_z2b, u8_small by lia. rewrite (proj2 (Z.eqb_neq _ _)), (proj2 (Z.ltb_ge _ _)) by lia. cbn [orb].
  rewrite (proj2 (Z.ltb_ge _ _)) by (rewrite !len_app; len_lia). cut_to cid (len cid).
  unfold ParseConnectionID, maxConnectionIDLen. rewrite (proj2 (Z.ltb_ge _ _)) by lia. cbn [mbind result_bind].
  cut_from cid (len cid). cut_to tok 16. cut_from tok 16.
  rewrite !port_roundtrip by done. rewrite (proj2 (Z.eqb_eq _ _)); [done|].
  rewrite !len_app, !len_cons, !len_app, !len_be_bytes. lia.
Qed.

Lemma reads_address u (o : option PreferredAddress) : s = PerspectiveServer → (∀ pa, o = Some pa → address_ok pa) → PreferredAddress_ (params u) = None →
  reads u (opt (is_some o) (penc preferredAddressParameterID (from_option address_bytes [] o)))
    (after u (set_preferredAddress (params u) o) (is_some o) preferredAddressParameterID).
Proof.
  intros Hs Ho Hn. destruct o as [pa|].
  2:{ rewrite after_false; [apply reads_nil|]. destruct (params u); cbn in *; by subst. }
  specialize (Ho pa eq_refl). pose proof (len_address pa Ho) as Hl. apply reads_param; [done| |].
  { cbn [from_option]. rewrite Hl. apply small_varint. destruct Ho as (_&_&_&_&?&_). unfold MaxConnIDLen in *. lia. }
  intros rest. unfold readParameter. cbn -[readPreferredAddress address_bytes slice_from len decide].
  rewrite (decide_False (P := s = PerspectiveClient)) by congruence. rewrite readPreferredAddress_ok by done.
  cbn [mbind result_bind]. by rewrite slice_from_app.
Qed.

(** Parameters that are not known are skipped. *)
Definition known (id : Z) : Prop := 0 ≤ id ≤ 0x10 ∨ id = 0x20.

Lemma reads_unknown u id body : is_varint id → ¬ known id → is_varint (len body) → reads u (penc id body) (push_id u id).
Proof.
  intros Hid Hk Hb. apply reads_param; [done..|]. intros rest. unfold readParameter, known in *.
  rewrite (bool_decide_eq_false_2 (id ∈ numericIDs)).
  2:{ intros Hin. apply Hk. unfold numericIDs in Hin. repeat (apply elem_of_cons in Hin as [->|Hin]; [cbv; intuition congruence|]).
      by apply not_elem_of_nil in Hin. }
  repeat match goal with |- context [id =? ?c] => rewrite (proj2 (Z.eqb_neq id c)) by (intros ->; apply Hk; cbv; intuition congruence) end.
  by rewrite slice_from_app.
Qed.

Fixpoint additional_bytes (l : list (Z * list byte)) : list byte :=
  match l with [] => [] | (k, v) :: l => penc k v ++ additional_bytes l end.

Definition additional_ok (l : list (Z * list byte)) : Prop :=
  Forall (λ kv, is_varint kv.1 ∧ ¬ known kv.1 ∧ is_varint (len kv.2)) l.

Lemma reads_additional l u :
  additional_ok l →
  reads u (additional_bytes l) (mkUn (params u) (parameterIDs u ++ l.*1) (readOriginalDestinationConnectionID u)
    (readInitialSourceConnectionID u) (readActiveConnectionIDLimit u)).
Proof.
  intros Hl. revert u. induction Hl as [|[k v] l (Hk & Hn & Hv) Hl IH]; intros u; simpl in *.
  - rewrite app_nil_r. destruct u. apply reads_nil.
  - eapply reads_app; [by apply reads_unknown|]. specialize (IH (push_id u k)). simpl in IH. by rewrite <-app_assoc in IH.
Qed.
End reads.

(** ** What [Marshal] writes *)
Lemma marshalVarintParam_ok b id val : is_varint id → is_varint val → marshalVarintParam b id val = Ok (b ++ penc id (venc val)).
Proof.
  intros Hid Hv. unfold marshalVarintParam, penc. pose proof (vlen_pos val).
  rewrite Append_venc by done. cbn [mbind result_bind]. rewrite Len_vlen by done. cbn [mbind result_bind].
  rewrite u64_small by lia. rewrite Append_venc by (apply small_varint; lia). cbn [mbind result_bind].
  rewrite Append_venc by done. by rewrite len_venc, <-!app_assoc.
Qed.

Lemma appendParam_ok b id body : is_varint id → is_varint (len body) → appendParam b id body = Ok (b ++ penc id body).
Proof.
  intros Hid Hv. unfold appendParam, penc. rewrite Append_venc by done. cbn [mbind result_bind].
  rewrite u64_varint, Append_venc by done. cbn [mbind result_bind]. by rewrite <-!app_assoc.
Qed.

Lemma appendParams_ok l b : additional_ok l → appendParams b l = Ok (b ++ additional_bytes l).
Proof.
  intros Hl. revert b. induction Hl as [|[k v] l (Hk & _ & Hv) Hl IH]; intros b; simpl in *; [by rewrite app_nil_r|].
  rewrite appendParam_ok by done. cbn [mbind result_bind]. by rewrite IH, <-app_assoc.
Qed.

Definition grease_id (random : list byte) : Z := 27 + 31 * b2z (default x00 (random !! 0%nat)).
Definition grease_body (random : list byte) : list byte :=
  take (Z.to_nat (b2z (default x00 (random !! 1%nat)) mod 16)) (drop 2 random).

Lemma grease_ok random : len random = 18 → grease random = Ok (penc (grease_id random) (grease_body random)) ∧
  is_varint (grease_id random) ∧ ¬ known (grease_id random) ∧ is_varint (len (grease_body random)).
Proof.
  intros Hl. unfold grease, grease_id, grease_body. destruct random as [|r0 [|r1 rest]]; [done|done|]. rewrite !len_cons in Hl.
  rewrite idx_cons_0, idx_cons_1. cbn [mbind result_bind lookup list_lookup default from_option id drop]. rewrite !drop_0.
  pose proof (b2z_range r0). set (n := b2z r1 mod 16). assert (0 ≤ n < 16) as Hn by (subst n; dmlia).
  assert (is_varint (27 + 31 * b2z r0)) as Hv by (unfold is_varint, maxVarInt8; lia).
  assert (len (take (Z.to_nat n) rest) = n) as Ht by (apply len_take; lia).
  split; [|split; [done|]; split; [unfold known; lia|rewrite Ht; apply small_varint; lia]].
  rewrite Append_venc by done. cbn [mbind result_bind]. rewrite Append_venc by (apply small_varint; lia). cbn [mbind result_bind].
  change (r0 :: r1 :: rest) with ([r0; r1] ++ rest). rewrite slice_to_ok by (rewrite len_app; change (len [r0; r1]) with 2; lia).
  cbn [mbind result_bind]. replace (Z.to_nat (2 + n)) with (length [r0; r1] + Z.to_nat n)%nat by (simpl; lia). rewrite take_app_add.
  rewrite slice_from_app by done. cbn [mbind result_bind]. unfold penc. rewrite Ht. by rewrite app_nil_l, <-app_assoc.
Qed.

(** Parameters that an endpoint can send. *)
Record sendable p : Prop := {
  s_ok : received_ok (set_maxIdle p 0);
  s_idle : 0 ≤ MaxIdleTimeout p < 2 ^ 63;
  s_limit : 2 ≤ ActiveConnectionIDLimit p;
  s_override : ClientOverride p = None;
}.

Definition limits_bytes p : list byte :=
  penc initialMaxStreamDataBidiLocalParameterID (venc (InitialMaxStreamDataBidiLocal p)) ++
  penc initialMaxStreamDataBidiRemoteParameterID (venc (InitialMaxStreamDataBidiRemote p)) ++
  penc initialMaxStreamDataUniParameterID (venc (InitialMaxStreamDataUni p)) ++
  penc initialMaxDataParameterID (venc (InitialMaxData p)) ++
  penc initialMaxStreamsBidiParameterID (venc (MaxBidiStreamNum p)) ++
  penc initialMaxStreamsUniParameterID (venc (MaxUniStreamNum p)).

Definition server_bytes p : list byte :=
  opt (is_some (StatelessResetToken p)) (penc statelessResetTokenParameterID (default [] (StatelessResetToken p))) ++
  penc originalDestinationConnectionIDParameterID (OriginalDestinationConnectionID p) ++
  opt (is_some (PreferredAddress_ p)) (penc preferredAddressParameterID (from_option address_bytes [] (PreferredAddress_ p))).

Definition marshaled p (pers : Perspective) (random : list byte) (additional : list (Z * list byte)) : list byte :=
  let srv := bool_decide (pers = PerspectiveServer) in
  penc (grease_id random) (grease_body random) ++ limits_bytes p ++
  penc maxIdleTimeoutParameterID (venc (MaxIdleTimeout p / millisecond)) ++
  opt (0 <? MaxUDPPayloadSize p) (penc maxUDPPayloadSizeParameterID (venc (MaxUDPPayloadSize p))) ++
  opt (negb (MaxAckDelay p =? DefaultMaxAckDelay)) (penc maxAckDelayParameterID (venc (MaxAckDelay p / millisecond))) ++
  opt (negb (AckDelayExponent p =? DefaultAckDelayExponent)) (penc ackDelayExponentParameterID (venc (AckDelayExponent p))) ++
  opt (DisableActiveMigration p) (penc disableActiveMigrationParameterID []) ++
  opt srv (server_bytes p) ++
  opt (negb (ActiveConnectionIDLimit p =? DefaultActiveConnectionIDLimit)) (penc activeConnectionIDLimitParameterID (venc (ActiveConnectionIDLimit p))) ++
  penc initialSourceConnectionIDParameterID (InitialSourceConnectionID p) ++
  opt srv (opt (is_some (RetrySourceConnectionID p)) (penc retrySourceConnectionIDParameterID (default [] (RetrySourceConnectionID p)))) ++
  opt (negb (MaxDatagramFrameSize p =? InvalidByteCount)) (penc maxDatagramFrameSizeParameterID (venc (MaxDatagramFrameSize p))) ++
  opt (negb srv) (additional_bytes additional).

(** A step of [Marshal] that is taken under a condition. *)
Lemma opt_param (c : bool) b id val :
  is_varint id → (c = true → is_varint val) →
  (if c then marshalVarintParam b id val else Ok b) = Ok (b ++ opt c (penc id (venc val))).
Proof. intros Hid Hv. destruct c; [by apply marshalVarintParam_ok; auto|by rewrite app_nil_r]. Qed.

Lemma marshalLimits_ok b p : received_ok (set_maxIdle p 0) → marshalLimits b p = Ok (b ++ limits_bytes p).
Proof.
  intros []. cbn in * |-. unfold marshalLimits, limits_bytes. unfold MaxStreamCount in *.
  assert (is_varint (MaxBidiStreamNum p)) as Hb by (unfold is_varint, maxVarInt8; lia).
  assert (is_varint (MaxUniStreamNum p)) as Hu by (unfold is_varint, maxVarInt8; lia).
  rewrite !u64_varint by done.
  do 5 (rewrite marshalVarintParam_ok by done; cbn [mbind result_bind]). rewrite marshalVarintParam_ok by done. by rewrite <-!app_assoc.
Qed.

Lemma marshalServerParams_ok b p : received_ok (set_maxIdle p 0) → marshalServerParams b p = Ok (b ++ server_bytes p).
Proof.
  intros []. cbn in * |-. unfold marshalServerParams, server_bytes.
  assert (∀ o, (∀ t, o = Some t → len t = 16) →
    match o with Some token => b ← Append b statelessResetTokenParameterID; b ← Append b 16; Ok (b ++ token) | None => Ok b end =
    Ok (b ++ opt (is_some o) (penc statelessResetTokenParameterID (default [] o)))) as Htok.
  { intros [t|] Ht; [|by rewrite app_nil_r]. specialize (Ht t eq_refl). rewrite Append_venc by done. cbn [mbind result_bind].
    rewrite Append_venc by done. cbn [mbind result_bind opt is_some]. unfold penc. change (default [] (Some t)) with t. by rewrite Ht, <-!app_assoc. }
  rewrite Htok by done. cbn [mbind result_bind]. pose proof (len_nonneg (OriginalDestinationConnectionID p)).
  rewrite appendParam_ok by (try done; apply small_varint; unfold MaxConnIDLen in *; lia). cbn [mbind result_bind].
  destruct (PreferredAddress_ p) as [pa|]; [|by rewrite app_nil_r, <-!app_assoc]. specialize (r_address0 pa eq_refl).
  pose proof (len_address pa r_address0) as Hl. destruct r_address0 as (H4 & Hp4 & H6 & Hp6 & Hc & Ht). unfold marshalPreferredAddress, MaxConnIDLen in *.
  rewrite Append_venc by done. cbn [mbind result_bind]. rewrite u64_small by lia.
  rewrite Append_venc by (apply small_varint; lia). cbn [mbind result_bind]. unfold As4, As16. rewrite H4, H6. cbn [Z.eqb Pos.eqb mbind result_bind].
  cbn [opt is_some from_option]. unfold penc. rewrite Hl. unfold address_bytes.
  replace (4 + 2 + 16 + 2 + 1 + len (PA_ConnectionID pa) + 16) with (41 + len (PA_ConnectionID pa)) by lia. by rewrite <-!app_assoc.
Qed.

Lemma quot_ms n : 0 ≤ n < 2 ^ 63 → Z.quot n millisecond = n / millisecond ∧ is_varint (n / millisecond).
Proof.
  intros Hn. unfold millisecond, is_varint, maxVarInt8. rewrite Z.quot_div_nonneg by lia. split; [done|].
  pose proof (Z.div_pos n 1000000). pose proof (Z.mul_div_le n 1000000). lia.
Qed.

Lemma opt_migration (c : bool) b :
  (if c then b ← Append b disableActiveMigrationParameterID; Append b 0 else Ok b) = Ok (b ++ opt c (penc disableActiveMigrationParameterID [])).
Proof.
  destruct c; [|by rewrite app_nil_r]. rewrite Append_venc by done. cbn [mbind result_bind]. rewrite Append_venc by done.
  cbn [opt]. unfold penc. by rewrite app_nil_r, <-app_assoc.
Qed.

Lemma opt_server p pers b : received_ok (set_maxIdle p 0) →
  (if decide (pers = PerspectiveServer) then marshalServerParams b p else Ok b) = Ok (b ++ opt (bool_decide (pers = PerspectiveServer)) (server_bytes p)).
Proof.
  intros Hok. case_decide; [rewrite bool_decide_eq_true_2 by done; by apply marshalServerParams_ok|].
  rewrite bool_decide_eq_false_2 by done. by rewrite app_nil_r.
Qed.

Lemma opt_retry pers b (o : option (list byte)) : (∀ id, o = Some id → len id ≤ MaxConnIDLen) →
  match o with
  | Some id => if decide (pers = PerspectiveServer) then appendParam b retrySourceConnectionIDParameterID id else Ok b
  | None => Ok b
  end = Ok (b ++ opt (bool_decide (pers = PerspectiveServer)) (opt (is_some o) (penc retrySourceConnectionIDParameterID (default [] o)))).
Proof.
  intros Ho. destruct o as [id|]; [|unfold opt; cbn; case_bool_decide; by rewrite app_nil_r].
  specialize (Ho id eq_refl). pose proof (len_nonneg id). unfold MaxConnIDLen in *. case_decide.
  - rewrite bool_decide_eq_true_2 by done. rewrite appendParam_ok; [done|done|apply small_varint; lia].
  - rewrite bool_decide_eq_false_2 by done. by rewrite app_nil_r.
Qed.

Lemma opt_additional pers b l : additional_ok l →
  (if decide (pers = PerspectiveClient) then appendParams b l else Ok b) =
  Ok (b ++ opt (negb (bool_decide (pers = PerspectiveServer))) (additional_bytes l)).
Proof. intros Hl. destruct pers; [by rewrite app_nil_r|by apply appendParams_ok]. Qed.

(** The values that are written are varints. *)
Lemma sendable_varints p : sendable p →
  is_varint (MaxIdleTimeout p / millisecond) ∧ is_varint (MaxAckDelay p / millisecond) ∧ is_varint (MaxUDPPayloadSize p) ∧
  is_varint (AckDelayExponent p) ∧ is_varint (ActiveConnectionIDLimit p) ∧ is_varint (len (InitialSourceConnectionID p)) ∧
  (negb (MaxDatagramFrameSize p =? InvalidByteCount) = true → is_varint (MaxDatagramFrameSize p)).
Proof.
  intros [[] Hidle Hlim _]. cbn in * |-. pose proof (len_nonneg (InitialSourceConnectionID p)).
  split_and!; [by apply quot_ms|apply quot_ms; unfold MaxMaxAckDelay, millisecond in *; lia|..];
    unfold is_varint, maxVarInt8, MaxAckDelayExponent, MaxConnIDLen in *; try lia.
Qed.

Lemma u64_datagram (c : bool) v : (c = true → is_varint v) → ∀ b,
  (if c then marshalVarintParam b maxDatagramFrameSizeParameterID (u64 v) else Ok b) = Ok (b ++ opt c (penc maxDatagramFrameSizeParameterID (venc v))).
Proof. intros Hv b. destruct c; [|by rewrite app_nil_r]. specialize (Hv eq_refl). rewrite u64_varint by done. by apply marshalVarintParam_ok. Qed.

(** [mstep]: the next parameter is written. *)
Ltac mstep := first
  [ rewrite opt_param by (done || auto) | rewrite marshalVarintParam_ok by (done || auto) | rewrite opt_migration
  | rewrite opt_server by done | rewrite opt_retry by done | rewrite opt_additional by done | rewrite u64_datagram by done
  | rewrite appendParam_ok by (done || auto) | rewrite marshalLimits_ok by done ]; cbn [mbind result_bind].

Lemma Marshal_ok p pers random additional :
  sendable p → len random = 18 → additional_ok additional →
  Marshal p pers random additional = Ok (marshaled p pers random additional).
Proof.
  intros Hs Hr Ha. destruct (sendable_varints p Hs) as (H1 & H2 & H3 & H4 & H5 & H6 & H7). destruct Hs as [Hok Hidle Hlim Hov].
  pose proof Hok as [_ _ _ _ _ _ _ _ _ Had _ _ _ _ Hret _ _]. cbn in * |-. unfold Marshal. rewrite Hov.
  destruct (grease_ok random Hr) as [-> _]. cbn [mbind result_bind].
  destruct (quot_ms _ Hidle) as [-> _]. destruct (quot_ms (MaxAckDelay p)) as [-> _]; [unfold MaxMaxAckDelay, millisecond in *; lia|].
  rewrite (u64_varint (MaxIdleTimeout p / millisecond)), (u64_varint (MaxAckDelay p / millisecond)),
    (u64_varint (MaxUDPPayloadSize p)), (u64_varint (AckDelayExponent p)) by done.
  do 12 mstep. unfold marshaled. by rewrite <-!app_assoc.
Qed.

(** ** What the peer reads *)
Definition start_un : unmarshaling :=
  mkUn (set_maxDatagram (set_maxAckDelay (set_ackDelayExponent zeroParams DefaultAckDelayExponent) DefaultMaxAckDelay) InvalidByteCount)
    [] false false false.

Definition server_only {A} (pers : Perspective) (x y : A) : A := if bool_decide (pers = PerspectiveServer) then x else y.

(** The parameters as the peer sees them: the times are in milliseconds and the idle timeout
    is at least five seconds; a client does not send all parameters. *)
Definition peer_view p (pers : Perspective) : TransportParameters :=
  mkParams (InitialMaxStreamDataBidiLocal p) (InitialMaxStreamDataBidiRemote p) (InitialMaxStreamDataUni p) (InitialMaxData p)
    (MaxAckDelay p / millisecond * millisecond) (AckDelayExponent p) (DisableActiveMigration p)
    (if MaxUDPPayloadSize p =? 0 then MaxByteCount else MaxUDPPayloadSize p)
    (MaxUniStreamNum p) (MaxBidiStreamNum p) (Z.max MinRemoteIdleTimeout (MaxIdleTimeout p / millisecond * millisecond))
    (server_only pers (PreferredAddress_ p) None) (server_only pers (OriginalDestinationConnectionID p) [])
    (InitialSourceConnectionID p) (server_only pers (RetrySourceConnectionID p) None)
    (server_only pers (StatelessResetToken p) None) (ActiveConnectionIDLimit p) (MaxDatagramFrameSize p) None.

Definition sent_ids p (pers : Perspective) (random : list byte) (additional : list (Z * list byte)) : list Z :=
  let srv := bool_decide (pers = PerspectiveServer) in
  [grease_id random; 5; 6; 7; 4; 8; 9; 1] ++ opt (0 <? MaxUDPPayloadSize p) [3] ++
  opt (negb (MaxAckDelay p =? DefaultMaxAckDelay)) [0xb] ++ opt (negb (AckDelayExponent p =? DefaultAckDelayExponent)) [0xa] ++
  opt (DisableActiveMigration p) [0xc] ++
  opt srv (opt (is_some (StatelessResetToken p)) [2] ++ [0] ++ opt (is_some (PreferredAddress_ p)) [0xd]) ++
  opt (negb (ActiveConnectionIDLimit p =? DefaultActiveConnectionIDLimit)) [0xe] ++ [0xf] ++
  opt srv (opt (is_some (RetrySourceConnectionID p)) [0x10]) ++
  opt (negb (MaxDatagramFrameSize p =? InvalidByteCount)) [0x20] ++ opt (negb srv) additional.*1.

(** [rnum]: a number is parsed, and its field is set. *)
Ltac rnum :=
  intros rest; unfold readNumericTransportParameter; rewrite Parse_venc by (done || auto); rewrite Z.eqb_refl;
  cbn -[Z.ltb Z.max Z.mul Z.div i64 u8 MaxStreamCount MaxAckDelayExponent MaxMaxAckDelay MinRemoteIdleTimeout millisecond].

Lemma reads_limits s u p : received_ok (set_maxIdle p 0) →
  reads s u (limits_bytes p) (mkUn
    (set_maxUni (set_maxBidi (set_maxData (set_uni (set_bidiRemote (set_bidiLocal (params u) (InitialMaxStreamDataBidiLocal p))
       (InitialMaxStreamDataBidiRemote p)) (InitialMaxStreamDataUni p)) (InitialMaxData p)) (MaxBidiStreamNum p)) (MaxUniStreamNum p))
    (parameterIDs u ++ [5; 6; 7; 4; 8; 9]) (readOriginalDestinationConnectionID u) (readInitialSourceConnectionID u) (readActiveConnectionIDLimit u)).
Proof.
  intros []. cbn in * |-. unfold limits_bytes.
  assert (is_varint (MaxBidiStreamNum p)) as Hb by (unfold is_varint, maxVarInt8, MaxStreamCount in *; lia).
  assert (is_varint (MaxUniStreamNum p)) as Hu by (unfold is_varint, maxVarInt8, MaxStreamCount in *; lia).
  assert (∀ ids : list Z, ids ++ [5; 6; 7; 4; 8; 9] = (((((ids ++ [5]) ++ [6]) ++ [7]) ++ [4]) ++ [8]) ++ [9]) as -> by (intros; by rewrite <-!app_assoc).
  do 4 (eapply reads_app; [apply reads_numeric; [done|done|rnum; by rewrite i64_varint by done]|]).
  eapply reads_app.
  - apply reads_numeric; [done|done|]. rnum. rewrite i64_varint by done. by rewrite (proj2 (Z.ltb_ge _ _)) by lia.
  - apply (reads_numeric _ (mkUn _ _ _ _ _)); [done|done|]. rnum. rewrite i64_varint by done. by rewrite (proj2 (Z.ltb_ge _ _)) by lia.
Qed.

Lemma ms_small n : 0 ≤ n < 2 ^ 63 → i64 (i64 (n / millisecond) * millisecond) = n / millisecond * millisecond.
Proof.
  intros Hn. destruct (quot_ms n Hn) as [_ Hv]. rewrite (i64_varint (n / millisecond)) by done. unfold millisecond in *.
  pose proof (Z.mul_div_le n 1000000). pose proof (Z.div_pos n 1000000). rewrite i64_small by lia. done.
Qed.

(** The parameters that are only sent if they differ from their default. *)
Definition optional_bytes p : list byte :=
  opt (0 <? MaxUDPPayloadSize p) (penc maxUDPPayloadSizeParameterID (venc (MaxUDPPayloadSize p))) ++
  opt (negb (MaxAckDelay p =? DefaultMaxAckDelay)) (penc maxAckDelayParameterID (venc (MaxAckDelay p / millisecond))) ++
  opt (negb (AckDelayExponent p =? DefaultAckDelayExponent)) (penc ackDelayExponentParameterID (venc (AckDelayExponent p))) ++
  opt (DisableActiveMigration p) (penc disableActiveMigrationParameterID []).

Lemma reads_optional s u p : sendable p →
  MaxUDPPayloadSize (params u) = 0 → MaxAckDelay (params u) = DefaultMaxAckDelay → AckDelayExponent (params u) = DefaultAckDelayExponent →
  DisableActiveMigration (params u) = false →
  reads s u (optional_bytes p) (mkUn
    (set_disableMigration (set_ackDelayExponent (set_maxAckDelay (set_maxUDP (params u) (MaxUDPPayloadSize p))
       (MaxAckDelay p / millisecond * millisecond)) (AckDelayExponent p)) (DisableActiveMigration p))
    (parameterIDs u ++ opt (0 <? MaxUDPPayloadSize p) [3] ++ opt (negb (MaxAckDelay p =? DefaultMaxAckDelay)) [0xb] ++
       opt (negb (AckDelayExponent p =? DefaultAckDelayExponent)) [0xa] ++ opt (DisableActiveMigration p) [0xc])
    (readOriginalDestinationConnectionID u) (readInitialSourceConnectionID u) (readActiveConnectionIDLimit u)).
Proof.
  intros Hs Eu Ea Ee Ed. destruct (sendable_varints p Hs) as (_ & H2 & H3 & H4 & _). destruct Hs as [[] _ _ _]. cbn in * |-.
  unfold optional_bytes. rewrite !app_assoc. rewrite <-!(app_assoc (opt _ _)).
  eapply reads_app; [apply (reads_opt_numeric _ _ _ _ _ (set_maxUDP (params u) (MaxUDPPayloadSize p))); [done| |]|].
  { intros Hc%Z.ltb_lt. split; [done|]. rnum. rewrite i64_varint by done. by rewrite (proj2 (Z.ltb_ge _ _)) by lia. }
  { intros Hc%Z.ltb_ge. destruct (params u); cbn in *. subst. unfold set_maxUDP, upd; cbn. f_equal. lia. }
  eapply reads_app; [apply (reads_opt_numeric _ _ _ _ _ (set_maxAckDelay (set_maxUDP (params u) (MaxUDPPayloadSize p)) (MaxAckDelay p / millisecond * millisecond))); [done| |]|].
  { intros Hc. split; [done|]. rnum. rewrite ms_small by (unfold MaxMaxAckDelay, millisecond in *; lia). rewrite (proj2 (Z.ltb_ge _ _)); [done|].
    unfold MaxMaxAckDelay in *. rewrite Z.div_mul by done. apply Z.div_le_upper_bound; [done|]. lia. }
  { intros Hc%negb_false_iff%Z.eqb_eq. rewrite Hc. cbn. destruct (params u); cbn in *. by subst. }
  eapply reads_app; [apply (reads_opt_numeric _ _ _ _ _ (set_ackDelayExponent (set_maxAckDelay (set_maxUDP (params u) (MaxUDPPayloadSize p))
    (MaxAckDelay p / millisecond * millisecond)) (AckDelayExponent p))); [done| |]|].
  { intros Hc. split; [done|]. rnum. rewrite (proj2 (Z.ltb_ge _ _)) by lia. unfold MaxAckDelayExponent in *. by rewrite u8_small by lia. }
  { intros Hc%negb_false_iff%Z.eqb_eq. rewrite Hc. cbn. destruct (params u); cbn in *. by subst. }
  apply (reads_migration _ (mkUn _ _ _ _ _)). done.
Qed.

Lemma reads_server u p pers : received_ok (set_maxIdle p 0) →
  StatelessResetToken (params u) = None → PreferredAddress_ (params u) = None → OriginalDestinationConnectionID (params u) = [] →
  readOriginalDestinationConnectionID u = false →
  reads pers u (opt (bool_decide (pers = PerspectiveServer)) (server_bytes p)) (mkUn
    (set_preferredAddress (set_odcid (set_resetToken (params u) (server_only pers (StatelessResetToken p) None))
       (server_only pers (OriginalDestinationConnectionID p) [])) (server_only pers (PreferredAddress_ p) None))
    (parameterIDs u ++ opt (bool_decide (pers = PerspectiveServer))
       (opt (is_some (StatelessResetToken p)) [2] ++ [0] ++ opt (is_some (PreferredAddress_ p)) [0xd]))
    (bool_decide (pers = PerspectiveServer)) (readInitialSourceConnectionID u) (readActiveConnectionIDLimit u)).
Proof.
  intros [] Et Ep Eo Ef. cbn in * |-. unfold server_only. case_bool_decide as Hp.
  - replace (parameterIDs u ++ _) with (((parameterIDs u ++ opt (is_some (StatelessResetToken p)) [2]) ++ [0]) ++
      opt (is_some (PreferredAddress_ p)) [0xd]) by (by cbn; rewrite <-!app_assoc).
    unfold server_bytes. cbn [opt].
    eapply reads_app; [by apply reads_token|]. eapply reads_app; [by apply reads_odcid|].
    by apply (reads_address _ (mkUn _ _ _ _ _)).
  - cbn. rewrite app_nil_r. destruct u as [[] ids f1 f2 f3]; cbn in *. subst. apply reads_nil.
Qed.

Lemma reads_retry u pers (o : option (list byte)) :
  (∀ id, o = Some id → len id ≤ MaxConnIDLen) → RetrySourceConnectionID (params u) = None →
  let srv := bool_decide (pers = PerspectiveServer) in
  reads pers u (opt srv (opt (is_some o) (penc retrySourceConnectionIDParameterID (default [] o))))
    (mkUn (set_rscid (params u) (server_only pers o None)) (parameterIDs u ++ opt srv (opt (is_some o) [0x10]))
       (readOriginalDestinationConnectionID u) (readInitialSourceConnectionID u) (readActiveConnectionIDLimit u)).
Proof.
  intros Ho Er srv. subst srv. unfold server_only. case_bool_decide as Hp; [by apply reads_rscid|].
  cbn. rewrite app_nil_r. destruct u as [[] ids f1 f2 f3]; cbn in *. subst. apply reads_nil.
Qed.

Lemma reads_tail u p pers additional : sendable p → additional_ok additional →
  RetrySourceConnectionID (params u) = None → MaxDatagramFrameSize (params u) = InvalidByteCount →
  readActiveConnectionIDLimit u = false →
  let srv := bool_decide (pers = PerspectiveServer) in
  let lim := negb (ActiveConnectionIDLimit p =? DefaultActiveConnectionIDLimit) in
  reads pers u
    (opt lim (penc activeConnectionIDLimitParameterID (venc (ActiveConnectionIDLimit p))) ++
     penc initialSourceConnectionIDParameterID (InitialSourceConnectionID p) ++
     opt srv (opt (is_some (RetrySourceConnectionID p)) (penc retrySourceConnectionIDParameterID (default [] (RetrySourceConnectionID p)))) ++
     opt (negb (MaxDatagramFrameSize p =? InvalidByteCount)) (penc maxDatagramFrameSizeParameterID (venc (MaxDatagramFrameSize p))) ++
     opt (negb srv) (additional_bytes additional))
    (mkUn (set_maxDatagram (set_rscid (set_iscid (if lim then set_activeLimit (params u) (ActiveConnectionIDLimit p) else params u)
             (InitialSourceConnectionID p)) (server_only pers (RetrySourceConnectionID p) None)) (MaxDatagramFrameSize p))
       (parameterIDs u ++ opt lim [0xe] ++ [0xf] ++ opt srv (opt (is_some (RetrySourceConnectionID p)) [0x10]) ++
          opt (negb (MaxDatagramFrameSize p =? InvalidByteCount)) [0x20] ++ opt (negb srv) additional.*1)
       (readOriginalDestinationConnectionID u) true lim).
Proof.
  intros Hs Ha Er Ed El srv lim. destruct (sendable_varints p Hs) as (_ & _ & _ & _ & H5 & _ & H7). destruct Hs as [[] _ Hlim _]. cbn in * |-.
  replace (parameterIDs u ++ _) with (((((parameterIDs u ++ opt lim [0xe]) ++ [0xf]) ++ opt srv (opt (is_some (RetrySourceConnectionID p)) [0x10])) ++
    opt (negb (MaxDatagramFrameSize p =? InvalidByteCount)) [0x20]) ++ opt (negb srv) additional.*1) by (by rewrite <-!app_assoc).
  eapply reads_app; [apply reads_activeLimit; unfold is_varint in H5; lia|]. eapply reads_app; [by apply reads_iscid|].
  cbn [params parameterIDs readOriginalDestinationConnectionID readInitialSourceConnectionID readActiveConnectionIDLimit].
  set (p1 := set_iscid _ _). assert (RetrySourceConnectionID p1 = None ∧ MaxDatagramFrameSize p1 = InvalidByteCount) as [Er1 Ed1].
  { subst p1. by destruct lim. }
  eapply reads_app; [by apply (reads_retry (mkUn _ _ _ _ _))|].
  eapply (reads_app _ _ _ (mkUn (set_maxDatagram (set_rscid p1 (server_only pers (RetrySourceConnectionID p) None)) (MaxDatagramFrameSize p)) _ _ _ _)).
  { apply (reads_opt_numeric _ _ (mkUn _ _ _ _ _)); [done| |]; cbn [params].
    - intros Hc. specialize (H7 Hc). split; [done|]. rnum. by rewrite i64_varint by done.
    - intros Hc%negb_false_iff%Z.eqb_eq. rewrite Hc. destruct p1; cbn in *. by subst. }
  rewrite El, orb_false_r. subst srv. destruct (bool_decide (pers = PerspectiveServer)); cbn [negb opt].
  - rewrite app_nil_r. apply reads_nil.
  - by apply (reads_additional _ _ (mkUn _ _ _ _ _)).
Qed.

Definition final_un p pers random additional : unmarshaling :=
  let lim := negb (ActiveConnectionIDLimit p =? DefaultActiveConnectionIDLimit) in
  mkUn (mkParams (InitialMaxStreamDataBidiLocal p) (InitialMaxStreamDataBidiRemote p) (InitialMaxStreamDataUni p) (InitialMaxData p)
    (MaxAckDelay p / millisecond * millisecond) (AckDelayExponent p) (DisableActiveMigration p) (MaxUDPPayloadSize p)
    (MaxUniStreamNum p) (MaxBidiStreamNum p) (Z.max MinRemoteIdleTimeout (MaxIdleTimeout p / millisecond * millisecond))
    (server_only pers (PreferredAddress_ p) None) (server_only pers (OriginalDestinationConnectionID p) [])
    (InitialSourceConnectionID p) (server_only pers (RetrySourceConnectionID p) None)
    (server_only pers (StatelessResetToken p) None) (if lim then ActiveConnectionIDLimit p else 0) (MaxDatagramFrameSize p) None)
    (sent_ids p pers random additional) (bool_decide (pers = PerspectiveServer)) true lim.

Lemma reads_marshaled p pers random additional :
  sendable p → len random = 18 → additional_ok additional →
  reads pers start_un (marshaled p pers random additional) (final_un p pers random additional).
Proof.
  intros Hs Hr Ha. pose proof (s_ok _ Hs) as Hok. destruct (sendable_varints p Hs) as (H1 & _). destruct (grease_ok random Hr) as (_ & Hg1 & Hg2 & Hg3).
  assert (∃ u, reads pers start_un (marshaled p pers random additional) u ∧ u = final_un p pers random additional) as (u & Hu & ->); [|done].
  eexists. split.
  - unfold marshaled. eapply reads_app; [by apply reads_unknown|]. eapply reads_app; [by apply reads_limits|].
    eapply reads_app; [apply reads_numeric; [done|done|]|].
    { rnum. rewrite ms_small by apply Hs. done. }
    rewrite (app_assoc (opt (negb (AckDelayExponent p =? _)) _)), (app_assoc (opt (negb (MaxAckDelay p =? _)) _)), (app_assoc (opt (0 <? _) _)).
    eapply reads_app; [by apply reads_optional|]. eapply reads_app; [by apply reads_server|]. by apply reads_tail.
  - unfold final_un, sent_ids. cbn [parameterIDs params readOriginalDestinationConnectionID readInitialSourceConnectionID readActiveConnectionIDLimit].
    rewrite <-!app_assoc. by destruct (negb (ActiveConnectionIDLimit p =? DefaultActiveConnectionIDLimit)).
Qed.

Lemma opt_sublist {A} (c : bool) (l : list A) : sublist (opt c l) l.
Proof. destruct c; [done|apply sublist_nil_l]. Qed.

Lemma opt_sublist' {A} (c : bool) (l l' : list A) : sublist l l' → sublist (opt c l) l'.
Proof. intros. etrans; [apply opt_sublist|done]. Qed.

Lemma sent_ids_distinct p pers random additional :
  len random = 18 → additional_ok additional → NoDup (grease_id random :: additional.*1) → NoDup (sent_ids p pers random additional).
Proof.
  intros Hr Ha Hn. destruct (grease_ok random Hr) as (_ & _ & Hg & _). apply NoDup_cons in Hn as [Hng Hn].
  set (ks := [5; 6; 7; 4; 8; 9; 1] ++ [3] ++ [0xb] ++ [0xa] ++ [0xc] ++ ([2] ++ [0] ++ [0xd]) ++ [0xe] ++ [0xf] ++ [0x10] ++ [0x20]).
  assert (sublist (sent_ids p pers random additional) ([grease_id random] ++ ks ++ additional.*1)) as Hsub.
  { unfold sent_ids, ks. rewrite <-!app_assoc. change (?a :: ?b) with ([a] ++ b) at 1.
    rewrite (app_assoc [grease_id random]). change ([2] ++ [0] ++ [0xd] ++ ?r) with (([2] ++ [0] ++ [0xd]) ++ r).
    repeat first [apply sublist_app | apply opt_sublist' | done | apply opt_sublist]. }
  eapply sublist_NoDup; [|exact Hsub]. apply NoDup_app. split; [apply NoDup_singleton|].
  assert (∀ k, k ∈ ks → known k) as Hk.
  { intros k Hk. unfold ks, known in *. simpl in Hk. repeat (apply elem_of_cons in Hk as [->|Hk]; [lia|]). by apply not_elem_of_nil in Hk. }
  split.
  - intros x ->%list_elem_of_singleton [Hx|Hx]%elem_of_app; [by apply Hg, Hk|done].
  - apply NoDup_app. split; [by apply (bool_decide_unpack _); vm_compute|]. split; [|done].
    intros x Hx%Hk [kv [-> Hkv]]%list_elem_of_fmap. unfold additional_ok in Ha. rewrite Forall_forall in Ha. by destruct (Ha _ Hkv) as (_ & ? & _).
Qed.

(** C18: transport parameters survive serialization.  Whatever parameters an endpoint sends
    within the limits of the protocol, with a greased parameter and additional ones that are not known, the peer reads the
    same values, except that times are truncated to milliseconds and the idle timeout is
    raised to the minimum; the identifiers never collide. *)
Theorem transport_parameters_roundtrip p pers random additional :
  sendable p → len random = 18 → additional_ok additional → NoDup (grease_id random :: additional.*1) →
  ∃ b, Marshal p pers random additional = Ok b ∧ Unmarshal zeroParams b pers = Ok (peer_view p pers).
Proof.
  intros Hs Hr Ha Hn. exists (marshaled p pers random additional). split; [by apply Marshal_ok|].
  destruct (reads_marshaled p pers random additional Hs Hr Ha zero_ok) as [_ Hun]. specialize (Hun []). rewrite app_nil_r in Hun.
  unfold Unmarshal, unmarshal. fold start_un. unfold unm in Hun. rewrite Hun. cbn [unmarshalLoop length mbind result_bind].
  pose proof (sent_ids_distinct p pers random additional Hr Ha Hn) as Hd. apply duplicates_found in Hd.
  unfold final_un. cbn [params parameterIDs readOriginalDestinationConnectionID readInitialSourceConnectionID readActiveConnectionIDLimit].
  rewrite Hd, andb_negb_r. unfold peer_view, set_activeLimit, set_maxUDP. pose proof (s_limit _ Hs).
  destruct (ActiveConnectionIDLimit p =? DefaultActiveConnectionIDLimit) eqn:El; cbn; destruct (MaxUDPPayloadSize p =? 0) eqn:Eu; cbn;
    rewrite ?El, ?Eu; cbn; try done; apply Z.eqb_eq in El; by rewrite El.
Qed.

Definition server_params : TransportParameters :=
  mkParams 1000 2000 3000 4000 (25 * millisecond) 3 true 1452 100 200 (30000 * millisecond) None [x01; x02] [x03] (Some [x04]) (Some (replicate 16 x07)) 4 1200 None.

Lemma server_params_sendable : sendable server_params.
Proof.
  split; [|by vm_compute|by vm_compute|done]. split; cbn; unfold is_varint, maxVarInt8, MaxStreamCount, MaxAckDelayExponent, MaxMaxAckDelay, MaxConnIDLen, millisecond; try lia; try done; try (right; lia);
      try (by intros ? [= <-]).
Qed.

(** A server's parameters, with a greased one. *)
Lemma transport_parameters_roundtrip_witness :
  ∃ b, Marshal server_params PerspectiveServer (replicate 18 x2a) [] = Ok b ∧
    Unmarshal zeroParams b PerspectiveServer = Ok (peer_view server_params PerspectiveServer).
Proof.
  apply (transport_parameters_roundtrip server_params PerspectiveServer (replicate 18 x2a) []).
  - exact server_params_sendable.
  - by vm_compute.
  - constructor.
  - apply NoDup_singleton.
Defined.

(** ** Session tickets *)
Definition ticket_bytes p : list byte :=
  venc transportParameterMarshalingVersion ++ limits_bytes p ++
  opt (negb (MaxDatagramFrameSize p =? InvalidByteCount)) (penc maxDatagramFrameSizeParameterID (venc (MaxDatagramFrameSize p))) ++
  penc activeConnectionIDLimitParameterID (venc (ActiveConnectionIDLimit p)).

(** What a session ticket remembers. *)
Definition ticket_view p : TransportParameters :=
  mkParams (InitialMaxStreamDataBidiLocal p) (InitialMaxStreamDataBidiRemote p) (InitialMaxStreamDataUni p) (InitialMaxData p)
    DefaultMaxAckDelay DefaultAckDelayExponent false 0 (MaxUniStreamNum p) (MaxBidiStreamNum p) 0 None [] [] None None
    (ActiveConnectionIDLimit p) (MaxDatagramFrameSize p) None.

Lemma ticket_written p : sendable p → MarshalForSessionTicket p [] = Ok (ticket_bytes p).
Proof.
  intros Hs. destruct (sendable_varints p Hs) as (_ & _ & _ & _ & H5 & _ & H7). destruct Hs as [Hok Hidle Hlim Hov].
  unfold MarshalForSessionTicket, ticket_bytes. rewrite Hov. rewrite Append_venc by done. cbn [mbind result_bind app].
  rewrite marshalLimits_ok by done. cbn [mbind result_bind]. rewrite u64_datagram by done. cbn [mbind result_bind].
  rewrite marshalVarintParam_ok by done. by rewrite <-!app_assoc.
Qed.

Lemma ticket_read p : sendable p → UnmarshalFromSessionTicket zeroParams (ticket_bytes p) = Ok (ticket_view p).
Proof.
  intros Hs. destruct (sendable_varints p Hs) as (_ & _ & _ & _ & H5 & _ & H7). pose proof (s_ok _ Hs) as Hok. pose proof (s_limit _ Hs) as Hlim.
  unfold UnmarshalFromSessionTicket, ticket_bytes. rewrite Parse_venc by done. cbn [mbind result_bind].
  rewrite slice_from_venc. cbn [mbind result_bind]. rewrite Z.eqb_refl. cbn [negb].
  set (c := negb (MaxDatagramFrameSize p =? InvalidByteCount)) in *. set (b := limits_bytes p ++ _).
  assert (reads PerspectiveServer start_un b (mkUn (ticket_view p) ([5; 6; 7; 4; 8; 9] ++ opt c [0x20] ++ [0xe]) false false true)) as Hr.
  { subst b. eapply reads_app; [by apply reads_limits|].
    eapply (reads_app _ _ _ (mkUn (set_activeLimit (ticket_view p) 0) _ _ _ _)).
    { apply (reads_opt_numeric _ _ (mkUn _ _ _ _ _)); [done| |]; cbn [params].
      - intros Hc. specialize (H7 Hc). split; [done|]. rnum. by rewrite i64_varint by done.
      - intros Hc%negb_false_iff%Z.eqb_eq. unfold ticket_view. by rewrite Hc. }
    exact (reads_activeLimit PerspectiveServer (mkUn (set_activeLimit (ticket_view p) 0) ([5; 6; 7; 4; 8; 9] ++ opt c [0x20]) false false false) true
      (ActiveConnectionIDLimit p) ltac:(unfold is_varint in H5; lia)). }
  destruct (Hr zero_ok) as [_ Hun]. specialize (Hun []). rewrite app_nil_r in Hun. unfold unmarshal. fold start_un. unfold unm in Hun.
  rewrite Hun. cbn -[merge_sort firstDuplicate opt app]. rewrite (proj2 (duplicates_found _)); [done|].
  destruct c; by apply (bool_decide_unpack _); vm_compute.
Qed.

(** C20: the session ticket carries exactly what 0-RTT depends on.  The ticket that a server
    with parameters [p] issues parses, and a server that later runs with parameters [q]
    accepts 0-RTT precisely if no limit of [p] was reduced, the datagram support included,
    and the limit on connection IDs is unchanged; then the client that remembered the
    parameters received earlier accepts the ones that the server sends now. *)
Theorem zero_rtt_agreement p q : sendable p → sendable q →
  ∃ b saved, MarshalForSessionTicket p [] = Ok b ∧ UnmarshalFromSessionTicket zeroParams b = Ok saved ∧
    (ValidFor0RTT q saved = true ↔
      (MaxDatagramFrameSize p = InvalidByteCount ∨ MaxDatagramFrameSize p ≤ MaxDatagramFrameSize q) ∧
      InitialMaxStreamDataBidiLocal p ≤ InitialMaxStreamDataBidiLocal q ∧ InitialMaxStreamDataBidiRemote p ≤ InitialMaxStreamDataBidiRemote q ∧
      InitialMaxStreamDataUni p ≤ InitialMaxStreamDataUni q ∧ InitialMaxData p ≤ InitialMaxData q ∧
      MaxBidiStreamNum p ≤ MaxBidiStreamNum q ∧ MaxUniStreamNum p ≤ MaxUniStreamNum q ∧ ActiveConnectionIDLimit q = ActiveConnectionIDLimit p) ∧
    (ValidFor0RTT q saved = true → ValidForUpdate (peer_view q PerspectiveServer) (peer_view p PerspectiveServer) = true).
Proof.
  intros Hp Hq. exists (ticket_bytes p), (ticket_view p). split; [by apply ticket_written|]. split; [by apply ticket_read|].
  pose proof (r_datagram _ (s_ok _ Hp)) as Dp. pose proof (r_datagram _ (s_ok _ Hq)) as Dq. cbn in Dp, Dq.
  unfold ValidFor0RTT, ValidForUpdate, datagramReduced. cbn. unfold InvalidByteCount, is_varint in *.
  split; repeat zcase; rewrite ?andb_true_iff, ?andb_false_iff; cbn; rewrite ?Z.leb_le, ?Z.eqb_eq; split_and?; try lia; intuition lia.
Qed.

Lemma zero_rtt_agreement_witness :
  ∃ b saved, MarshalForSessionTicket server_params [] = Ok b ∧ UnmarshalFromSessionTicket zeroParams b = Ok saved ∧
    ValidFor0RTT server_params saved = true.
Proof.
  assert (sendable server_params) as Hs by exact server_params_sendable.
  destruct (zero_rtt_agreement server_params server_params Hs Hs) as (b & saved & ? & ? & Hv & _).
  exists b, saved. split; [done|]. split; [done|]. apply Hv. split; [by right|]. by repeat split.
Defined.

(** A peer that announces an idle timeout of 9223372036855 ms, about 292 years, is taken to
    time out after five seconds: the multiplication by a millisecond wraps around. *)
Lemma idle_timeout_wraps :
  ∃ b, Append [] 9223372036855 = Ok b ∧
    readNumericTransportParameter zeroParams b maxIdleTimeoutParameterID 8 = Ok (set_maxIdle zeroParams MinRemoteIdleTimeout).
Proof. eexists. split; [by vm_compute|by vm_compute]. Qed.
